(* ===== verification/_CoqProject ===== *)
-Q . S2P
Prelude.v
Value.v
ValueFacts.v
Ids.v
Policy.v
Catalog.v
Ir.v
Analysis.v
Equality.v
Yaml.v
Domain.v
Eval.v
Evolve.v
History.v
Compiler.v
Steps.v
Saga.v
Signals.v
Claims.v
Progress.v
Command.v
Publication.v
FormatUpgrade.v
Schedule.v
Retention.v
Replica.v
Reopen.v
LogStore.v
Snapshot.v
Clock.v
RecordStore.v
RowDelta.v
Applied.v
EntryRows.v
Builder.v
YamlFacts.v
AnalysisFacts.v
CompilerFacts.v
EvolveFacts.v
StepFacts.v
ClaimFacts.v
ReportFacts.v
SignalFacts.v
SagaFacts.v
RunFacts.v
ProgressFacts.v
CommandFacts.v
HistoryFacts.v
FormatFacts.v
RetentionFacts.v
PublicationFacts.v
PublishedFacts.v
ReplicaFacts.v
LogFacts.v
SnapshotFacts.v
ClockFacts.v
IdsFacts.v
RecordFacts.v
RecordDecode.v
RecordFragments.v
DeltaFacts.v
AppliedFacts.v
LocalFacts.v
BuilderFacts.v
FlowFacts.v
UpgradeFacts.v
StoredFacts.v
EngineFacts.v
ReopenFacts.v
ScheduleFacts.v
RegionFacts.v
Sample.v
WorkerWitness.v
EngineWitness.v
CompilerWitness.v
NodeWitness.v
RecordWitness.v
AppliedWitness.v
PublicationWitness.v
Findings.v
