(* ===== verification/Prelude.v ===== *)
(** * Graphrun: a verification development for the durable workflow engine

    Graphrun runs workflow definitions as durable, event-sourced state machines.
    Every node of a cluster holds the same replicated [State]; a command is
    ordered by Raft, [decide] computes the events it causes as a pure function of
    the state, [evolve] applies them, and the receipt of the command makes a
    retry harmless. This core is [graphrun/src/domain.rs] with the modules it
    calls. A workflow document is compiled into a definition ([yaml.rs],
    [compiler.rs]). Catalogs and definitions are published to the same state and pinned by
    the runs that start from them ([publication.rs], [compiler.rs]); a member
    applies the committed log entry by entry and gates what it can read
    ([storage.rs], [format_upgrade.rs]). The development models these. The layers
    around them (Raft, database files, gRPC, worker processes, timers) submit
    commands and carry out what the events say.

    ** The model, file by file

    - [Prelude]: errors and outcomes (a value, an [Err], or a panic: an [unwrap] of
      the code is a [Panic] of the model), the threading monad [Run] for [&mut]
      parameters, machine integers as [Z] with their wrap-around and saturation,
      list and map lemmas, and the tactics [ok_inv] and [to_prop] that follow the
      code's early returns.
    - [Value] ([value.rs]): values, JSON, JSON Pointer, canonical JSON, and the
      interface [Platform] to third-party code: hash-map iteration order, SHA-256,
      hex, JSON quoting, JSON Schema validation. [PlatformLaws] says what the
      engine relies on (an iteration yields each entry once, a digest has 32 bytes,
      hex round-trips). Every theorem holds for every iteration order.
    - [Ids] ([ids.rs], the identity syntax of [tls.rs]), [Policy] ([policy.rs],
      [limits.rs], [time.rs]), [Catalog] ([schema.rs], [catalog.rs],
      [worker_contract.rs]), [Ir] ([binding.rs], [ir.rs]).
    - [Domain]: events, commands and the replicated state, with every field of the
      Rust structs. Rust hash maps are [gmap]s, ordered maps and vectors are lists.
    - [Eval]: bindings, conditions and the walks over the scope tree.
    - [Evolve]: [evolve], one definition per event.
    - [History] ([history.rs]): artifact references, appending, reading back,
      reconstruction and checkpoints; [apply_events]. Serialised forms are the
      interface [Serde].
    - [Steps], [Saga], [Signals], [Claims], [Progress]: the decisions of
      [domain.rs], grouped by what they are about. A function that draws
      identities from [IdGen] threads it.
    - [Command]: [decide], [apply_command], [start_run], the execution path of
      [commit_command] ([commit_execution]), receipts and identities, and reads.
    - [Yaml] ([yaml.rs]): the events of the third-party scanner ([YamlParser]) read
      into spanned documents, and the parsers of schema references, bindings and
      conditions. [Compiler] ([compiler.rs]): [compile_yaml] and every node kind;
      the node counter that the code threads as [&mut Counts] is a [Run].
    - [Analysis] ([compiler.rs]): [validate_definition], the check that a
      definition passes before it is published: edges, cycles, reachability and
      which references each node may use. [Equality]: the derived [PartialEq].
    - [Builder] ([builder.rs], [flow.rs]): the typed builders. A handle is indexed by
      the schema of its payload type, and a method of [&mut self] is a [Build], which
      keeps the draft when it fails. A sequence hands its last value to the next step.
    - [Publication] ([publication.rs]): authority, [apply] of catalogs,
      definitions and keyed starts, and the receipts. [OperationSerde] is what
      [serde] derives for a request.
    - [FormatUpgrade] ([format_upgrade.rs]): reader proofs, rosters, preparation
      and activation of a writer format.
    - [Schedule] ([schedule.rs]): the per-run wake-up summary. [Retention]
      ([history.rs]): pages of history, and pruning what has expired, with the
      [PruneHistory] branch of [commit_command].
    - [Replica] ([storage.rs]): the store manifest, [commit_command], the
      application of log entries ([apply_one_entry]), the schedule index, and the
      preparation of readers. A member is what it persists: manifest, position,
      membership, domain state, schedule index. [Reopen] ([storage.rs]):
      [validate_history_store], the check of a whole store before it is opened,
      exported or installed.
    - [LogStore] ([storage.rs]): the Raft log of the store with its visible end,
      purge boundary and admission credits. [Snapshot] ([snapshot_framing.rs]): the
      framed snapshot file, written and read as bytes. [RecordStore]
      ([record_store.rs]): the state as rows of a store, retired runs, and the
      fragments of long records. [RowDelta] ([storage.rs]): cursors over the
      physical rows, the rows of one record, and writing the difference of two
      states. [Applied] ([record_store.rs]): [encode_applied], the rows that one
      entry may have changed. [EntryRows] ([storage.rs]): reading these rows back,
      and what a command, a publication, a format operation and a retention batch
      write of them. [Clock] ([clock.rs], [ClusterNetwork::probe_clock]
      of [cluster.rs], [ClockGuard] of [worker.rs]): the supervision of the wall
      clock and its quorum.

    ** The theorems

    - [EvolveFacts]: the frame of [evolve]; the interface [EventInvariant] (an
      invariant of the replicated state under guarded events) with its lifting to
      event sequences, and the identity and obligation invariants. [StepFacts]:
      which events each decision may emit, which discharges the guards.
    - [CommandFacts]: exactly-once commits, refusal of conflicting retries,
      monotone engine time, the recovery hold, and the conjunction of the
      component invariants, which every commit preserves.
    - [ClaimFacts], [ReportFacts]: safety, order, termination and capacity of
      the claim loop; fencing of old owners; lease renewal; stable effect keys;
      bounded reconciliation.
    - [SignalFacts]: the inbox invariant, exactly-once acceptance, delivery at most
      once to the waits of the event's run, first-in first-out eligibility, timers.
    - [SagaFacts], [RunFacts]: newest-first compensation, one at a time as far as the
      saga's own progress goes, settlement, and how a run ends by failure,
      cancellation or abandonment.
    - [ProgressFacts]: foreach, parallel and choose; a progress batch is a bounded
      sequence of steps that runs to rest.
    - [HistoryFacts]: history and records stay in step and every range reads back.
      [RetentionFacts]: the bounded heap of the pruner, and what each phase of a
      batch keeps. [EngineFacts]: the states that commands and retention batches
      reach, the invariants they all satisfy, and reading a history back in ranges
      and pages. [ScheduleFacts]: a run that is not ready is given no claim, and nothing is
      due, before the deadline of its schedule. [RegionFacts]: the bounded walks
      satisfy the recursive equations of the code. [ValueFacts], [IdsFacts]: round
      trips and the JSON Pointer.
    - [AnalysisFacts]: the cycle search is exact, the flow analysis ends, what an
      accepted definition guarantees, and the one case in which the check panics.
    - [YamlFacts]: [spells], the grammar of the accepted event sequences, and that
      the reader accepts exactly these. [CompilerFacts]: [compiled], what the
      compiler promises of every region, node by node; limits; paths as addresses;
      no input makes it panic; and what it returns can be published and pinned.
    - [BuilderFacts]: appending keeps a line of nodes, and a failed call leaves the
      graph alone; a linear region is a chain. [FlowFacts]: a chain passes the check of
      definitions, and fluent workflows are type sound ([fluent_seq] lists the calls
      and what they ask of handles, bodies, signal names and conditions).
    - [PublicationFacts], [PublishedFacts]: a publication is applied once and
      touches what it names; the interface [StateFrame] (a projection of the state
      that commands leave alone) carries this over whole commands. The
      consistency of what is published, that it only grows, and that a published run
      executes what is retained ([retained_wf]).
    - [FormatFacts], [ReplicaFacts], [UpgradeFacts]: accepted proofs cover the
      roster; an entry is a step of the engine; a rejected publication leaves its
      receipt only, and one submitted again nothing; the format gate; and the invariant of a cluster of members
      whose proofs come from prepared members.
    - [StoredFacts]: the invariant of what is stored (records, rows, artifacts,
      checkpoints), which every step keeps. [ReopenFacts]: a reached store passes
      the check of [Reopen] exactly when results have the schemas of their claims.
    - [LogFacts]: the store is a Raft log under every sequence of operations, the
      credit ledger is exact, reads are exact and collection ends.
      [SnapshotFacts]: which files are snapshots, and that one reads back.
      [ClockFacts]: when a clock is trusted, acknowledged and in a quorum.
      [RecordFacts] takes the rows of a state apart (keys, items, the places of the
      document they go to); [RecordDecode] proves that decoding them gives the state
      back; [RecordFragments] that splitting and joining records changes nothing.
      [DeltaFacts]: writing a difference is writing the state. [AppliedFacts]: the
      part of the state an entry encodes gives the schedule of the whole state, and
      the order of lists survives. [LocalFacts]: an entry writes its own rows only.
    - [Sample]: an instance of the interfaces that computes, and a workflow run
      through several commands. [WorkerWitness], [EngineWitness],
      [CompilerWitness], [PublicationWitness], [NodeWitness], [RecordWitness] and [AppliedWitness] apply every
      theorem that has hypotheses to concrete states. [Findings] runs the model
      where the code does something other than it means to.

    ** Bounds and fuel

    - [lookup_region] and [saga_owner] climb at most as many scopes as there are;
      [RegionFacts] proves this enough on a tree of scopes. The code recurses
      without a bound.
    - [first_free] searches for an index among one more candidate than there are
      taken ones; [ProgressFacts] proves it finds one.
    - [claim_rounds] runs one round more than the capacity; [ClaimFacts] proves it
      ends. [progress_batch] takes [PROGRESS_BATCH] steps, as in the code.
    - [parse_node] and its loops take as much fuel as there are events and
      [compile_region] one more than [MAX_NESTING]; running out is a [Panic], and
      [CompilerFacts] proves that no input reaches one.
    - [read_frames] takes one step more than the file has bytes, and each frame
      takes a byte; [collect] runs one batch more than there are rows, and
      [LogFacts] proves it stops before.
    - [as u32] casts and unchecked additions wrap ([wrap32], [wrap64]); the
      theorems name the ranges they need, such as fewer than [2 ^ 32] activations.
    - On an [Err] the caller of [apply_command] reloads the stored state, so an
      error carries no state.

    ** Not modelled

    - Of storage: the request loop of the storage thread, redb transactions and
      files. A member of [Replica] persists its domain state as a value: the store
      keeps the state of the last applied entry, so the state the code reads back
      after an error is the one the entry started from. [RowDelta] and [EntryRows]
      are about the rows that hold it; that the rows an entry touches are all the
      rows its commands change is not proved.
    - Of the records: the JSON text of a record and the JSON value of a state are
      parameters ([RecordSerde], [StateSerde], [ItemSerde]). The round trip is about states whose
      document is as [document_ok] says; a group of publications or a history
      without entries has no row and does not come back.
    - Of format upgrades: the exchange of proofs over the network. [UpgradeFacts]
      assumes of it that a proof in a committed command was given by the member it
      names ([entry_proofs]), and that a member joins with a consistent store, no
      prepared proofs and an identity that no proof is about ([joins]).
    - That the identities of a published start are not in use already is a
      hypothesis ([start_ids_unused], [request_fresh]): they are digests of the
      authenticated key.
    - Cluster, RPC, worker runtime, command line and generated code are I/O or
      third-party glue and stay outside.
*)
From stdpp Require Import base option gmap strings list pretty fin_maps sorting.
From Stdlib Require Import ZArith Ascii.

#[global] Open Scope string_scope.
#[global] Open Scope list_scope.
#[global] Open Scope Z_scope.
#[global] Set Warnings "-register-all".

(** ** Errors and outcomes

    [error.rs]: an [Error] has a kind, a message and an optional position. A
    computation of the code has three ways to end: a value, an [Err] that the
    caller sees, and a panic ([unwrap], [expect], an out-of-range index). The
    model keeps the three apart, so that panic freedom is a statement. *)
Inductive ErrorKind :=
| InvalidArgument
| AlreadyExists
| FailedPrecondition
| Unauthenticated
| PermissionDenied
| NotFound
| Unavailable
| ResourceExhausted
| DeadlineExceeded.

Record Error := mkError {
  err_kind : ErrorKind;
  err_message : string;
  err_path : option string;
  err_line : option Z;
  err_column : option Z;
}.

Definition error_new (kind : ErrorKind) (message : string) : Error :=
  mkError kind message None None None.

Definition error_invalid (message : string) : Error :=
  error_new InvalidArgument message.

Definition error_at_path (e : Error) (path : string) : Error :=
  mkError (err_kind e) (err_message e) (Some path) (err_line e) (err_column e).

Definition error_at_span (e : Error) (line column : Z) : Error :=
  mkError (err_kind e) (err_message e) (err_path e) (Some line) (Some column).

Inductive Outcome (A : Type) : Type :=
| Ok (a : A)
| Err (e : Error)
| Panic (why : string).
Arguments Ok {A} a.
Arguments Err {A} e.
Arguments Panic {A} why.

Declare Scope graphrun_scope.
Delimit Scope graphrun_scope with graphrun.
Notation "'fail!' m" := (Err (error_invalid m)) (at level 10, m at level 9) : graphrun_scope.
#[global] Open Scope graphrun_scope.

#[global] Instance Outcome_ret : MRet Outcome := @Ok.
#[global] Instance Outcome_bind : MBind Outcome :=
  λ A B f m, match m with Ok a => f a | Err e => Err e | Panic w => Panic w end.
#[global] Instance Outcome_fmap : FMap Outcome :=
  λ A B f m, match m with Ok a => Ok (f a) | Err e => Err e | Panic w => Panic w end.

Definition is_ok {A} (m : Outcome A) : bool :=
  match m with Ok _ => true | _ => false end.

Definition is_err {A} (m : Outcome A) : bool :=
  match m with Err _ => true | _ => false end.

Definition is_panic {A} (m : Outcome A) : bool :=
  match m with Panic _ => true | _ => false end.

(** [Option::ok_or_else], [Option::unwrap]/[expect] and [Result::ok]. *)
Definition ok_or {A} (o : option A) (e : Error) : Outcome A :=
  match o with Some a => Ok a | None => Err e end.

Definition unwrap {A} (why : string) (o : option A) : Outcome A :=
  match o with Some a => Ok a | None => Panic why end.

Definition outcome_ok {A} (m : Outcome A) : Outcome (option A) :=
  match m with Ok a => Ok (Some a) | Err _ => Ok None | Panic w => Panic w end.

(** [Result::unwrap]: an error becomes a panic. *)
Definition unwrap_result {A} (m : Outcome A) : Outcome A :=
  match m with Err e => Panic (err_message e) | other => other end.

(** [Result::map_err]: a panic is not an error and passes through. *)
Definition map_err {A} (f : Error → Error) (m : Outcome A) : Outcome A :=
  match m with Err e => Err (f e) | other => other end.

(** [for item in items { out.push(f(item)?) }]: stops at the first failure. *)
Section OutcomeMap.
Context {A B : Type} (f : A → Outcome B).
Fixpoint outcome_map (l : list A) : Outcome (list B) :=
  match l with
  | [] => Ok []
  | x :: l => y ← f x; ys ← outcome_map l; Ok (y :: ys)
  end.
End OutcomeMap.

(** A computation that threads a mutable [S] by [&mut S]. *)
Definition Run (S A : Type) : Type := S → Outcome (A * S).

#[global] Instance Run_ret {S} : MRet (Run S) := λ A a s, Ok (a, s).
#[global] Instance Run_bind {S} : MBind (Run S) :=
  λ A B f m s, match m s with Ok (a, s') => f a s' | Err e => Err e | Panic w => Panic w end.

(** Lifts a computation that does not touch the threaded state. *)
Definition lift {S A} (m : Outcome A) : Run S A :=
  λ s, match m with Ok a => Ok (a, s) | Err e => Err e | Panic w => Panic w end.

(** ** Machine integers

    Integers are [Z] values within the range of their Rust type. Saturating
    operations are written out; [as] casts and unchecked [+] wrap, as they do
    in a release build. *)
Definition u32_max : Z := 2 ^ 32 - 1.
Definition u64_max : Z := 2 ^ 64 - 1.
Definition i64_min : Z := - 2 ^ 63.
Definition i64_max : Z := 2 ^ 63 - 1.
Definition in_u32 (z : Z) : bool := (0 <=? z) && (z <=? u32_max).
Definition in_u64 (z : Z) : bool := (0 <=? z) && (z <=? u64_max).
Definition in_i64 (z : Z) : bool := (i64_min <=? z) && (z <=? i64_max).

Definition wrap32 (z : Z) : Z := z mod 2 ^ 32.
Definition wrap64 (z : Z) : Z := z mod 2 ^ 64.
Definition sat_add32 (a b : Z) : Z := Z.min (a + b) u32_max.
Definition sat_add64 (a b : Z) : Z := Z.min (a + b) u64_max.
Definition sat_mul64 (a b : Z) : Z := Z.min (a * b) u64_max.
Definition sat_sub (a b : Z) : Z := Z.max (a - b) 0.

(** The length of a vector, as the code's [usize]. *)
Definition zlen {A} (l : list A) : Z := Z.of_nat (length l).

(** ** Iteration

    [iter().find], [iter().position] and [any] with a boolean closure. *)
Definition lfind {A} (p : A → bool) (l : list A) : option A :=
  head (List.filter p l).

(** [if let Some(x) = v.iter_mut().find(p) { *x = f(x) }]: only the first match changes. *)
Fixpoint update_first {A} (p : A → bool) (f : A → A) (l : list A) : list A :=
  match l with
  | [] => []
  | x :: l => if p x then f x :: l else x :: update_first p f l
  end.

(** Stable sort by a boolean order, as [slice::sort_by_key]. *)
Fixpoint insert_by {A} (le : A → A → bool) (x : A) (l : list A) : list A :=
  match l with
  | [] => [x]
  | y :: l' => if le x y then x :: y :: l' else y :: insert_by le x l'
  end.

Definition sort_by {A} (le : A → A → bool) (l : list A) : list A :=
  foldr (insert_by le) [] l.

(** ** Ordered maps

    A [BTreeMap<K, V>] is the list of its entries in increasing key order,
    so that iteration is the list itself and equality is structural. *)
Section BTreeMap.
Context {K V : Type} `{EqDecision K} (cmp : K → K → comparison).

Fixpoint bt_get (k : K) (m : list (K * V)) : option V :=
  match m with
  | [] => None
  | (k', v) :: m => if decide (k = k') then Some v else bt_get k m
  end.

Fixpoint bt_insert (k : K) (v : V) (m : list (K * V)) : list (K * V) :=
  match m with
  | [] => [(k, v)]
  | (k', v') :: m' =>
      match cmp k k' with
      | Lt => (k, v) :: m
      | Eq => (k, v) :: m'
      | Gt => (k', v') :: bt_insert k v m'
      end
  end.
End BTreeMap.

Definition bt_contains {K V} `{EqDecision K} (k : K) (m : list (K * V)) : bool :=
  bool_decide (is_Some (bt_get k m)).

Definition str_insert {V} : string → V → list (string * V) → list (string * V) :=
  bt_insert String.compare.

(** Text of an integer, as [{n}] in a format string. *)
Definition show_Z (z : Z) : string := pretty z.

(** ** Shared lemmas and automation *)
Lemma outcome_bind_ok {A B} (m : Outcome A) (k : A → Outcome B) b :
  (m ≫= k) = Ok b ↔ ∃ a, m = Ok a ∧ k a = Ok b.
Proof. destruct m; unfold mbind, Outcome_bind; naive_solver. Qed.

Lemma run_bind_ok {S A B} (m : Run S A) (k : A → Run S B) s b s' :
  (m ≫= k) s = Ok (b, s') ↔ ∃ a s1, m s = Ok (a, s1) ∧ k a s1 = Ok (b, s').
Proof.
  unfold mbind, Run_bind. destruct (m s) as [[a s1]|e|w]; naive_solver.
Qed.

Lemma lift_ok {S A} (m : Outcome A) (s : S) a s' :
  lift m s = Ok (a, s') ↔ m = Ok a ∧ s' = s.
Proof. unfold lift. destruct m; naive_solver. Qed.

Lemma run_ret_ok {S A} (x : A) (s : S) a s' :
  (mret x : Run S A) s = Ok (a, s') ↔ a = x ∧ s' = s.
Proof. unfold mret, Run_ret. naive_solver. Qed.

Lemma ok_or_ok {A} (o : option A) e a : ok_or o e = Ok a ↔ o = Some a.
Proof. destruct o; simpl; naive_solver. Qed.

Lemma unwrap_ok {A} w (o : option A) a : unwrap w o = Ok a ↔ o = Some a.
Proof. destruct o; simpl; naive_solver. Qed.

Lemma unwrap_result_ok {A} (m : Outcome A) a : unwrap_result m = Ok a ↔ m = Ok a.
Proof. destruct m; simpl; naive_solver. Qed.

Lemma map_err_ok {A} f (m : Outcome A) a : map_err f m = Ok a ↔ m = Ok a.
Proof. destruct m; simpl; naive_solver. Qed.

Lemma outcome_map_ok {A B} (f : A → Outcome B) l ys :
  outcome_map f l = Ok ys ↔ Forall2 (λ x y, f x = Ok y) l ys.
Proof.
  revert ys. induction l as [|x l IH]; intros ys; simpl.
  - split; [intros [= <-]; constructor | by inversion 1].
  - rewrite outcome_bind_ok. setoid_rewrite outcome_bind_ok. split.
    + intros (y & ? & ys' & ?%IH & [= <-]). by constructor.
    + inversion 1 as [|? y ? ys' ? ?]; subst. exists y. split; [done|].
      exists ys'. by rewrite IH.
Qed.

(** Splits a hypothesis [_ = Ok _] along the binds, guards and lookups of the code. *)
Ltac ok_inv_step :=
  match goal with
  | H : Ok _ = Ok _ |- _ => injection H as H; subst
  | H : Err _ = Ok _ |- _ => discriminate H
  | H : Panic _ = Ok _ |- _ => discriminate H
  | H : (_ ≫= _) = Ok _ |- _ => apply outcome_bind_ok in H as (? & ? & H)
  | H : (_ ≫= _) _ = Ok (_, _) |- _ => apply run_bind_ok in H as (? & ? & ? & H)
  | H : lift _ _ = Ok (_, _) |- _ => apply lift_ok in H as [H ?]; subst
  | H : mret _ _ = Ok (_, _) |- _ => apply run_ret_ok in H as [? ?]; subst
  | H : ok_or _ _ = Ok _ |- _ => apply ok_or_ok in H
  | H : unwrap _ _ = Ok _ |- _ => apply unwrap_ok in H
  | H : unwrap_result _ = Ok _ |- _ => apply unwrap_result_ok in H
  | H : map_err _ _ = Ok _ |- _ => apply map_err_ok in H
  | H : (if ?b then _ else _) = Ok _ |- _ => destruct b eqn:?
  | H : (if ?b then _ else _) _ = Ok _ |- _ => destruct b eqn:?
  | H : match ?x with _ => _ end = Ok _ |- _ => destruct x eqn:?
  | H : match ?x with _ => _ end _ = Ok _ |- _ => destruct x eqn:?
  end.
Ltac ok_inv := repeat (ok_inv_step; simpl in *; try discriminate); simplify_eq.

(** Turns the boolean tests of the code into propositions. *)
Ltac to_prop :=
  repeat match goal with
  | H : _ && _ = true |- _ => apply andb_true_iff in H as [? ?]
  | H : _ && _ = false |- _ => apply andb_false_iff in H
  | H : _ || _ = false |- _ => apply orb_false_iff in H as [? ?]
  | H : _ || _ = true |- _ => apply orb_true_iff in H
  | H : negb _ = true |- _ => apply negb_true_iff in H
  | H : negb _ = false |- _ => apply negb_false_iff in H
  | H : bool_decide _ = true |- _ => apply bool_decide_eq_true in H
  | H : bool_decide _ = false |- _ => apply bool_decide_eq_false in H
  | H : (_ =? _) = true |- _ => apply Z.eqb_eq in H
  | H : (_ =? _) = false |- _ => apply Z.eqb_neq in H
  | H : (_ <=? _) = true |- _ => apply Z.leb_le in H
  | H : (_ <=? _) = false |- _ => apply Z.leb_gt in H
  | H : (_ <? _) = true |- _ => apply Z.ltb_lt in H
  | H : (_ <? _) = false |- _ => apply Z.ltb_ge in H
  end.

Create HintDb graphrun.

(** *** Lists *)
Section ListLemmas.
Context {A : Type}.
Implicit Types (l : list A) (p : A → bool).

Lemma lfind_Some p l x :
  lfind p l = Some x ↔ ∃ l1 l2, l = l1 ++ x :: l2 ∧ p x = true ∧ Forall (λ y, p y = false) l1.
Proof.
  induction l as [|y l IH]; unfold lfind in *; simpl.
  - split; [done|]. intros (l1 & l2 & ? & _). by destruct l1.
  - destruct (p y) eqn:Hp; simpl.
    + split.
      * intros [= ->]. exists [], l. auto.
      * intros (l1 & l2 & Heq & Hx & Hall). destruct l1 as [|z l1]; simplify_eq/=; [done|].
        apply Forall_cons in Hall as [? _]. congruence.
    + rewrite IH. split.
      * intros (l1 & l2 & -> & ? & ?). exists (y :: l1), l2. auto.
      * intros (l1 & l2 & Heq & Hx & Hall). destruct l1 as [|z l1]; simplify_eq/=; [congruence|].
        apply Forall_cons in Hall as [_ ?]. by exists l1, l2.
Qed.

Lemma lfind_Some_1 p l x : lfind p l = Some x → x ∈ l ∧ p x = true.
Proof. intros (l1 & l2 & -> & ? & ?)%lfind_Some. split; [set_solver|done]. Qed.

Lemma lfind_None p l : lfind p l = None ↔ Forall (λ y, p y = false) l.
Proof.
  induction l as [|y l IH]; unfold lfind in *; simpl; [done|].
  rewrite Forall_cons. destruct (p y); naive_solver.
Qed.

Lemma update_first_length p f l : length (update_first p f l) = length l.
Proof. induction l as [|y l IH]; simpl; [done|]. destruct (p y); simpl; auto. Qed.

Lemma update_first_None p f l : lfind p l = None → update_first p f l = l.
Proof.
  rewrite lfind_None. induction 1 as [|y l Hy ? IH]; simpl; [done|]. by rewrite Hy, IH.
Qed.

Lemma elem_of_update_first p f l y :
  y ∈ update_first p f l → y ∈ l ∨ ∃ x, x ∈ l ∧ p x = true ∧ y = f x.
Proof.
  induction l as [|z l IH]; simpl; [set_solver|].
  destruct (p z) eqn:?; intros [->|Hy]%elem_of_cons; rewrite ?elem_of_cons; eauto.
  - right. exists z. rewrite elem_of_cons. eauto.
  - destruct (IH Hy) as [?|(x & ? & ? & ->)]; [eauto|].
    right. exists x. rewrite elem_of_cons. eauto.
Qed.

Lemma update_first_fmap {B} (g : A → B) p f l :
  (∀ x, g (f x) = g x) → g <$> update_first p f l = g <$> l.
Proof.
  intros Hg. induction l as [|z l IH]; csimpl; [done|].
  destruct (p z); csimpl; [by rewrite Hg|by rewrite IH].
Qed.

Section Sort.
Context (le : A → A → bool)
        (le_total : ∀ x y, le x y = true ∨ le y x = true).

Lemma insert_by_perm x l : insert_by le x l ≡ₚ x :: l.
Proof.
  induction l as [|y l IH]; simpl; [done|]. destruct (le x y); [done|].
  rewrite IH. apply Permutation_swap.
Qed.

Lemma sort_by_perm l : sort_by le l ≡ₚ l.
Proof. induction l as [|x l IH]; simpl; [done|]. by rewrite insert_by_perm, IH. Qed.

Lemma sort_by_sorted l : Sorted (λ x y, le x y = true) (sort_by le l).
Proof.
  induction l as [|x l IH]; simpl; [constructor|].
  induction IH as [|y l' Hl' IH' Hd]; simpl; [repeat constructor|].
  destruct (le x y) eqn:Hxy; [repeat constructor; auto|].
  constructor; [done|]. destruct l' as [|z l']; simpl.
  - constructor. destruct (le_total x y); congruence.
  - inversion Hd; subst. destruct (le x z); constructor; auto.
    destruct (le_total x y); congruence.
Qed.
End Sort.
End ListLemmas.

Lemma elem_of_filter_b {A} (p : A → bool) l x : x ∈ List.filter p l ↔ p x = true ∧ x ∈ l.
Proof. rewrite !list_elem_of_In, filter_In. naive_solver. Qed.

Lemma existsb_elem {A} (p : A → bool) l : existsb p l = true ↔ ∃ x, x ∈ l ∧ p x = true.
Proof. rewrite existsb_exists. by setoid_rewrite list_elem_of_In. Qed.

Lemma existsb_false {A} (p : A → bool) l : existsb p l = false ↔ ∀ x, x ∈ l → p x = false.
Proof.
  induction l as [|y l IH]; simpl; [set_solver|].
  rewrite orb_false_iff, IH. setoid_rewrite elem_of_cons. naive_solver.
Qed.

Lemma forallb_elem {A} (p : A → bool) l : forallb p l = true ↔ ∀ x, x ∈ l → p x = true.
Proof. rewrite forallb_forall. by setoid_rewrite list_elem_of_In. Qed.

Lemma filter_length_perm {A} (p : A → bool) l k :
  l ≡ₚ k → length (List.filter p l) = length (List.filter p k).
Proof.
  induction 1 as [|x l k ? IH|x y l|]; simpl; [done| | |congruence].
  - destruct (p x); simpl; congruence.
  - by destruct (p x), (p y).
Qed.

Lemma StronglySorted_sublist {A} (R : relation A) l k :
  StronglySorted R k → l `sublist_of` k → StronglySorted R l.
Proof.
  intros Hk Hl. induction Hl as [|x l k Hl IH|x l k Hl IH]; [done| |].
  - apply StronglySorted_cons in Hk as [Hx Hk]. apply StronglySorted_cons. split; [|auto].
    rewrite Forall_forall in *. intros y Hy. eapply Hx, elem_of_sublist; done.
  - apply StronglySorted_cons in Hk as [_ Hk]. auto.
Qed.

Lemma filter_sublist {A} (p : A → bool) l : List.filter p l `sublist_of` l.
Proof. induction l as [|x l IH]; simpl; [done|]. destruct (p x); by constructor. Qed.

Lemma filter_filter_length {A} (p q : A → bool) l :
  (length (List.filter q (List.filter p l)) ≤ length (List.filter q l))%nat.
Proof.
  induction l as [|x l IH]; simpl; [done|]. destruct (p x); simpl; destruct (q x); simpl; lia.
Qed.

(** *** Ordered maps *)
Lemma bt_get_insert_cmp {K V} `{EqDecision K} (cmp : K → K → comparison) (k k' : K) (v : V) m :
  (∀ a b, cmp a b = Eq ↔ a = b) →
  bt_get k' (bt_insert cmp k v m) = if decide (k = k') then Some v else bt_get k' m.
Proof.
  intros Hcmp. induction m as [|[q w] m IH]; simpl.
  - by repeat case_decide; subst.
  - destruct (cmp k q) eqn:Hc; simpl.
    + apply Hcmp in Hc. subst. by repeat case_decide; subst.
    + by repeat case_decide; subst.
    + rewrite IH. repeat case_decide; subst; try done.
      pose proof (proj2 (Hcmp q q) eq_refl). congruence.
Qed.

Lemma bt_get_insert_Z {V} (k k' : Z) (v : V) m :
  bt_get k' (bt_insert Z.compare k v m) = if decide (k = k') then Some v else bt_get k' m.
Proof. apply bt_get_insert_cmp. intros a b. apply Z.compare_eq_iff. Qed.

Lemma bt_get_pair {K V} `{EqDecision K} (k : K) (v : V) m : bt_get k m = Some v → (k, v) ∈ m.
Proof.
  induction m as [|[k' v'] m IH]; simpl; [done|].
  case_decide; intros; simplify_eq; set_solver.
Qed.

Section BTreeMapLemmas.
Context {V : Type}.
Implicit Types (m : list (string * V)) (k : string).

Lemma bt_get_elem k v m : bt_get k m = Some v → (k, v) ∈ m.
Proof.
  induction m as [|[k' v'] m IH]; simpl; [done|].
  case_decide; intros; simplify_eq; set_solver.
Qed.

Lemma string_compare_Eq (a b : string) : String.compare a b = Eq ↔ a = b.
Proof.
  split; [apply String.compare_eq_iff|]. intros ->.
  pose proof (String.compare_antisym b b) as Hc. by destruct (String.compare b b).
Qed.

Lemma bt_get_insert k k' v m :
  bt_get k' (str_insert k v m) = if decide (k = k') then Some v else bt_get k' m.
Proof. apply bt_get_insert_cmp, string_compare_Eq. Qed.
End BTreeMapLemmas.

(** *** Finite maps *)
Section MapLemmas.
Context {K A : Type} `{Countable K} (P : K → A → Prop).
Implicit Types m : gmap K A.

Lemma map_Forall_alter_2 f k m :
  (∀ x, P k x → P k (f x)) → map_Forall P m → map_Forall P (alter f k m).
Proof.
  intros Hf Hm i x. destruct (decide (k = i)) as [->|].
  - rewrite lookup_alter_eq. intros (y & Hy & ->)%fmap_Some. by apply Hf, Hm.
  - rewrite lookup_alter_ne by done. apply Hm.
Qed.

Lemma map_Forall_fmap_2 (f : A → A) m :
  (∀ i x, P i x → P i (f x)) → map_Forall P m → map_Forall P (f <$> m).
Proof.
  intros Hf Hm i x. rewrite lookup_fmap. intros (y & Hy & ->)%fmap_Some. by apply Hf, Hm.
Qed.
End MapLemmas.

Lemma size_alter {K A} `{Countable K} (f : A → A) k (m : gmap K A) : size (alter f k m) = size m.
Proof. by rewrite <-!(size_dom (D := gset K)), dom_alter_L. Qed.

#[export] Hint Resolve map_Forall_alter_2 map_Forall_fmap_2 map_Forall_insert_2 : graphrun.

Lemma bt_insert_elem {K V} (cmp : K → K → comparison) (k : K) (v : V) m x :
  x ∈ bt_insert cmp k v m → x = (k, v) ∨ x ∈ m.
Proof.
  induction m as [|[k' v'] m IH]; simpl; [set_solver|]. destruct (cmp k k'); set_solver.
Qed.

(** ** Folding with early return: a [for] loop that threads an accumulator *)
Fixpoint outcome_fold {A B} (f : B → A → Outcome B) (acc : B) (l : list A) : Outcome B :=
  match l with
  | [] => Ok acc
  | x :: l => acc' ← f acc x; outcome_fold f acc' l
  end.

Lemma outcome_fold_inv {A B} (I : B → Prop) (f : B → A → Outcome B) l acc acc' :
  (∀ b x b', I b → f b x = Ok b' → I b') → I acc → outcome_fold f acc l = Ok acc' → I acc'.
Proof.
  intros Hf. revert acc. induction l as [|x l IH]; simpl; intros acc Hacc Hl; [congruence|].
  apply outcome_bind_ok in Hl as (b & Hb & Hl). eauto.
Qed.

Lemma outcome_fold_each {A B} (I : B → Prop) (P : A → Prop) (f : B → A → Outcome B) l acc acc' :
  (∀ b x b', x ∈ l → I b → f b x = Ok b' → I b' ∧ P x) →
  I acc → outcome_fold f acc l = Ok acc' → I acc' ∧ Forall P l.
Proof.
  revert acc. induction l as [|x l IH]; simpl; intros acc Hf Hacc Hr; [by simplify_eq|].
  apply outcome_bind_ok in Hr as (b & Hb & Hr). destruct (Hf acc x b) as [Hi Hp]; [set_solver|done..|].
  destruct (IH b) as [? ?]; [intros; eapply Hf; [|done..]; set_solver|done..|]. split; [done|by constructor].
Qed.

(** The same, threading a mutable state. *)
Fixpoint run_fold {S A B} (f : B → A → Run S B) (acc : B) (l : list A) : Run S B :=
  match l with
  | [] => mret acc
  | x :: l => acc ← f acc x; run_fold f acc l
  end.

(** Induction over the elements already processed. *)
Lemma run_fold_ind {S A B} (P : list A → B → S → Prop) (f : B → A → Run S B) l acc s acc' s' :
  (∀ l1 b s x b' s', x ∈ l → P l1 b s → f b x s = Ok (b', s') → P (l1 ++ [x]) b' s') →
  P [] acc s → run_fold f acc l s = Ok (acc', s') → P l acc' s'.
Proof.
  intros Hstep Hacc Hr. change l with ([] ++ l). revert Hacc Hr. generalize (@nil A). intros done_.
  revert done_ acc s. induction l as [|x l IH]; simpl; intros done_ acc s Hacc Hr.
  - injection Hr as <- <-. by rewrite app_nil_r.
  - apply run_bind_ok in Hr as (b & s1 & Hb & Hr). rewrite cons_middle, app_assoc.
    eapply IH; [|by eapply Hstep; [left|..]|done]. intros. eapply Hstep; [by right|done..].
Qed.

(** ** Freedom of panics

    [no_panic] follows the code's binds and branches; the lemmas on the
    functions it calls are hints of the database [nopanic]. *)
Create HintDb nopanic.

Lemma np_bind {A B} (m : Outcome A) (k : A → Outcome B) :
  is_panic m = false → (∀ a, m = Ok a → is_panic (k a) = false) → is_panic (m ≫= k) = false.
Proof. destruct m; simpl; auto. Qed.

Lemma np_fmap {A B} (f : A → B) (m : Outcome A) : is_panic m = false → is_panic (f <$> m) = false.
Proof. by destruct m. Qed.

Lemma np_ok_or {A} (o : option A) e : is_panic (ok_or o e) = false.
Proof. by destruct o. Qed.

Lemma np_map {A B} (f : A → Outcome B) l : (∀ x, x ∈ l → is_panic (f x) = false) → is_panic (outcome_map f l) = false.
Proof.
  induction l as [|x l IH]; simpl; intros Hf; [done|]. apply np_bind; [apply Hf; by left|]. intros y _.
  apply np_bind; [apply IH; intros z Hz; apply Hf; by right|done].
Qed.

Lemma np_run_bind {S A B} (m : Run S A) (k : A → Run S B) s :
  is_panic (m s) = false → (∀ a s', m s = Ok (a, s') → is_panic (k a s') = false) → is_panic ((m ≫= k) s) = false.
Proof. unfold mbind, Run_bind. destruct (m s) as [[a s']| |]; simpl; auto. Qed.

Lemma np_lift {S A} (m : Outcome A) (s : S) : is_panic m = false → is_panic (lift m s) = false.
Proof. by destruct m. Qed.

Lemma np_run_fold {S A B} (I : B → S → Prop) (f : B → A → Run S B) l acc s :
  (∀ b s x, x ∈ l → I b s → is_panic (f b x s) = false ∧ ∀ b' s', f b x s = Ok (b', s') → I b' s') →
  I acc s → is_panic (run_fold f acc l s) = false.
Proof.
  revert acc s. induction l as [|x l IH]; simpl; intros acc s Hf Hi; [done|].
  destruct (Hf acc s x) as [Hp Hn]; [by left|done|]. apply np_run_bind; [done|]. intros b s' Hb.
  apply IH; [|by apply Hn]. intros. apply Hf; [by right|done].
Qed.

Ltac no_panic_step :=
  match goal with
  | |- false = false => reflexivity
  | |- is_panic (Ok _) = false => reflexivity
  | |- is_panic (Err _) = false => reflexivity
  | |- is_panic (mret _ _) = false => reflexivity
  | |- is_panic (lift _ _) = false => apply np_lift
  | |- is_panic ((_ ≫= _) _) = false => apply np_run_bind; [|intros ? ? ?]
  | |- is_panic (_ ≫= _) = false => apply np_bind; [|intros ? ?]
  | |- is_panic (_ <$> _) = false => apply np_fmap
  | |- is_panic (ok_or _ _) = false => apply np_ok_or
  | |- is_panic (outcome_map _ _) = false => apply np_map; intros ? ?
  | |- is_panic ((if ?b then _ else _) _) = false => destruct b eqn:?
  | |- is_panic (if ?b then _ else _) = false => destruct b eqn:?
  | |- is_panic (match ?x with _ => _ end _) = false => destruct x eqn:?
  | |- is_panic (match ?x with _ => _ end) = false => destruct x eqn:?
  end.
Ltac no_panic := cbv zeta; repeat first [assumption | solve [trivial with nopanic nocore] | no_panic_step].
