(* ===== verification/Value.v ===== *)
(** * Values, JSON documents and the platform interface

    [value.rs] (the payload type of the engine, its conversions, JSON Pointer
    projection and canonical JSON) and the interface [Platform] to the
    third-party code the engine calls: the hash-map iteration order of the
    standard library, SHA-256, the hex codec, JSON string quoting and JSON
    Schema validation. *)
From stdpp Require Import base option gmap strings list pretty sorting.
From Stdlib Require Import ZArith Ascii.
From S2P Require Import Prelude.

Definition MAX_DATA_DEPTH : Z := 32.

(** [serde_json::Value]. A number is an integer or a floating point literal kept
    as text; [as_i64] answers on integers within the range of [i64]. *)
Inductive Json :=
| JNull
| JBool (b : bool)
| JInt (n : Z)
| JFloat (text : string)
| JString (s : string)
| JArray (items : list Json)
| JObject (map : list (string * Json)).

Definition json_as_i64 (j : Json) : option Z :=
  match j with
  | JInt n => if in_i64 n then Some n else None
  | _ => None
  end.

(** ** Code outside the repository

    [hm_iter] is the order in which a [HashMap] yields its entries: any
    permutation of them, and every theorem holds for every such order. *)
Class Platform := {
  hm_iter : ∀ {K V : Type} `{Countable K}, gmap K V → list (K * V);
  sha256 : string → string;
  hex_encode : string → string;
  hex_decode : string → option string;
  json_quote : string → string;
  jsonschema_is_valid : Json → Json → bool;
}.

(** A lower-case hexadecimal digit. *)
Definition hex_digit_char (c : ascii) : Prop :=
  let n := N_of_ascii c in (48 ≤ n ≤ 57)%N ∨ (97 ≤ n ≤ 102)%N.

(** What the engine relies on: each entry is yielded once, a digest has 32
    bytes, and the hex codec round-trips and writes two lower-case digits per byte. *)
Class PlatformLaws (P : Platform) : Prop := {
  hm_iter_perm : ∀ {K V : Type} `{Countable K} (m : gmap K V), hm_iter m ≡ₚ map_to_list m;
  sha256_length : ∀ s, String.length (sha256 s) = 32%nat;
  hex_decode_encode : ∀ s, hex_decode (hex_encode s) = Some s;
  hex_encode_length : ∀ s, String.length (hex_encode s) = (2 * String.length s)%nat;
  hex_encode_digits : ∀ s, Forall hex_digit_char (String.list_ascii_of_string (hex_encode s));
}.

Definition hm_values `{Platform} {K V} `{Countable K} (m : gmap K V) : list V := (hm_iter m).*2.
Definition hm_keys `{Platform} {K V} `{Countable K} (m : gmap K V) : list K := (hm_iter m).*1.

Section HashMapLemmas.
Context `{P : Platform} `{!PlatformLaws P} {K V : Type} `{Countable K}.
Implicit Types m : gmap K V.

Lemma elem_of_hm_iter m k v : (k, v) ∈ hm_iter m ↔ m !! k = Some v.
Proof. by rewrite hm_iter_perm, elem_of_map_to_list. Qed.

Lemma elem_of_hm_values m v : v ∈ hm_values m ↔ ∃ k, m !! k = Some v.
Proof.
  unfold hm_values. rewrite list_elem_of_fmap. split.
  - intros ([k w] & -> & Hin%elem_of_hm_iter). eauto.
  - intros (k & Hk). exists (k, v). by rewrite elem_of_hm_iter.
Qed.

Lemma elem_of_hm_keys m k : k ∈ hm_keys m ↔ is_Some (m !! k).
Proof.
  unfold hm_keys. rewrite list_elem_of_fmap. split.
  - intros ([k' w] & -> & Hin%elem_of_hm_iter). eauto.
  - intros (v & Hk). exists (k, v). by rewrite elem_of_hm_iter.
Qed.

Lemma hm_keys_nodup m : NoDup (hm_keys m).
Proof. unfold hm_keys. rewrite hm_iter_perm. apply NoDup_fst_map_to_list. Qed.

Lemma hm_values_perm m : hm_values m ≡ₚ (map_to_list m).*2.
Proof. unfold hm_values. by rewrite hm_iter_perm. Qed.

Lemma hm_values_insert m k v : m !! k = None → hm_values (<[k:=v]> m) ≡ₚ v :: hm_values m.
Proof. intros. by rewrite !hm_values_perm, map_to_list_insert. Qed.

Lemma hm_values_length m : length (hm_values m) = size m.
Proof. by rewrite hm_values_perm, length_fmap, length_map_to_list. Qed.

(** How many values satisfy a test changes by at most one when one value changes. *)
Definition hm_count (p : V → bool) m : Z := zlen (List.filter p (hm_values m)).

Lemma hm_count_insert p m k v :
  m !! k = None → hm_count p (<[k:=v]> m) = (if p v then 1 else 0) + hm_count p m.
Proof.
  intros Hk. unfold hm_count, zlen.
  rewrite (filter_length_perm p _ _ (hm_values_insert m k v Hk)). simpl.
  destruct (p v); simpl; lia.
Qed.

Lemma hm_count_alter p m k f : hm_count p (alter f k m) ≤ hm_count p m + 1.
Proof.
  destruct (m !! k) as [v|] eqn:Hk.
  - rewrite <-(insert_delete_id m k v Hk), alter_insert_eq, !hm_count_insert by apply lookup_delete_eq.
    destruct (p v), (p (f v)); lia.
  - rewrite alter_id by naive_solver. lia.
Qed.

Lemma hm_count_size p m : hm_count p m ≤ Z.of_nat (size m).
Proof.
  unfold hm_count, zlen. rewrite <-hm_values_length. apply inj_le, filter_length_le.
Qed.
End HashMapLemmas.

(** ** [value.rs] *)
Inductive Value :=
| VNull
| VBool (b : bool)
| VInt (n : Z)
| VString (s : string)
| VArray (items : list Value)
| VObject (fields : list (string * Value)).

#[global] Instance Value_eq_dec : EqDecision Value.
Proof.
  refine (fix go (x y : Value) : Decision (x = y) :=
    let _ : EqDecision Value := go in
    match x, y with
    | VNull, VNull => left eq_refl
    | VBool a, VBool b => cast_if (decide (a = b))
    | VInt a, VInt b => cast_if (decide (a = b))
    | VString a, VString b => cast_if (decide (a = b))
    | VArray a, VArray b => cast_if (decide (a = b))
    | VObject a, VObject b => cast_if (decide (a = b))
    | _, _ => right _
    end); abstract congruence.
Defined.

Definition from_i64 (value : Z) : Value := VInt value.
Definition from_bool (value : bool) : Value := VBool value.

Fixpoint to_json (v : Value) : Json :=
  match v with
  | VNull => JNull
  | VBool b => JBool b
  | VInt n => JInt n
  | VString s => JString s
  | VArray items => JArray (to_json <$> items)
  | VObject fields => JObject ((λ '(k, x), (k, to_json x)) <$> fields)
  end.

Definition as_i64 (v : Value) : option Z :=
  match v with VInt n => Some n | _ => None end.

Definition as_str (v : Value) : option string :=
  match v with VString s => Some s | _ => None end.

(** [from_json(json, depth)]; the loop over an object inserts into a [BTreeMap]. *)
Fixpoint from_json_at (json : Json) (depth : Z) : Outcome Value :=
  if MAX_DATA_DEPTH <? depth then fail! "value exceeds maximum nesting depth"
  else match json with
  | JNull => Ok VNull
  | JBool b => Ok (VBool b)
  | JInt n =>
      if in_i64 n then Ok (VInt n)
      else fail! ("non-integer number " +:+ show_Z n +:+ " is not supported")
  | JFloat text => fail! ("non-integer number " +:+ text +:+ " is not supported")
  | JString s => Ok (VString s)
  | JArray items =>
      out ← outcome_map (λ item, from_json_at item (depth + 1)) items;
      Ok (VArray out)
  | JObject map =>
      out ← outcome_map (λ '(key, item), v ← from_json_at item (depth + 1); Ok (key, v)) map;
      Ok (VObject (foldl (λ m '(key, v), str_insert key v m) [] out))
  end.

Definition from_json (json : Json) : Outcome Value := from_json_at json 0.

(** *** JSON Pointer *)

(** [str::split('/')]. *)
Fixpoint split_slash (s : string) : list string :=
  match s with
  | "" => [""]
  | String c rest =>
      if Ascii.eqb c "/" then "" :: split_slash rest
      else match split_slash rest with
           | [] => [String c ""]
           | piece :: pieces => String c piece :: pieces
           end
  end.

(** [str::replace] of a two-character pattern by one character. *)
Fixpoint replace2 (a b r : ascii) (s : string) : string :=
  match s with
  | "" => ""
  | String c rest =>
      match rest with
      | String d rest' =>
          if Ascii.eqb c a && Ascii.eqb d b then String r (replace2 a b r rest')
          else String c (replace2 a b r rest)
      | "" => String c ""
      end
  end.

Definition unescape_pointer (token : string) : string :=
  replace2 "~" "0" "~" (replace2 "~" "1" "/" token).

Definition digit_of (c : ascii) : option Z :=
  let n := Z.of_N (N_of_ascii c) in
  if (48 <=? n) && (n <=? 57) then Some (n - 48) else None.

Fixpoint parse_digits (acc : Z) (s : string) : option Z :=
  match s with
  | "" => Some acc
  | String c rest => match digit_of c with Some d => parse_digits (acc * 10 + d) rest | None => None end
  end.

(** [str::parse] at an unsigned type with the given maximum: an optional [+],
    at least one digit, and a value in range. *)
Definition parse_uint (max : Z) (s : string) : option Z :=
  let body := match s with String "+" rest => rest | _ => s end in
  match body with
  | "" => None
  | _ => match parse_digits 0 body with
         | Some n => if n <=? max then Some n else None
         | None => None
         end
  end.

(** One step of the projection loop. *)
Definition pointer_step (path : string) (current : Value) (raw : string) : Outcome Value :=
  let token := unescape_pointer raw in
  match current with
  | VObject map =>
      ok_or (bt_get token map)
        (error_invalid ("missing object field " +:+ token +:+ " at " +:+ path))
  | VArray items =>
      index ← ok_or (parse_uint u64_max token)
        (error_invalid ("array index " +:+ token +:+ " is not an integer"));
      ok_or (items !! Z.to_nat index)
        (error_invalid ("array index " +:+ show_Z index +:+ " is out of range"))
  | _ => fail! ("cannot project " +:+ token +:+ " through a scalar")
  end.

Fixpoint pointer_walk (path : string) (current : Value) (raws : list string) : Outcome Value :=
  match raws with
  | [] => Ok current
  | raw :: raws => next ← pointer_step path current raw; pointer_walk path next raws
  end.

Definition pointer (v : Value) (path : string) : Outcome Value :=
  match path with
  | "" => Ok v
  | String c _ =>
      if negb (Ascii.eqb c "/") then fail! ("JSON Pointer " +:+ path +:+ " must start with /")
      else pointer_walk path v (drop 1 (split_slash path))
  end.

(** *** Canonical JSON *)
Section Canonical.
Context `{Platform}.

Fixpoint join_with (sep : string) (l : list string) : string :=
  match l with
  | [] => ""
  | [x] => x
  | x :: l => x +:+ sep +:+ join_with sep l
  end.

Fixpoint write_canonical (value : Json) (depth : Z) : Outcome string :=
  if MAX_DATA_DEPTH <? depth then fail! "canonical JSON exceeds maximum depth"
  else match value with
  | JNull => Ok "null"
  | JBool true => Ok "true"
  | JBool false => Ok "false"
  | JInt n =>
      if in_i64 n then Ok (show_Z n)
      else fail! ("non-integer number " +:+ show_Z n +:+ " cannot be canonicalized")
  | JFloat text => fail! ("non-integer number " +:+ text +:+ " cannot be canonicalized")
  | JString s => Ok (json_quote s)
  | JArray items =>
      parts ← outcome_map (λ item, write_canonical item (depth + 1)) items;
      Ok ("[" +:+ join_with "," parts +:+ "]")
  | JObject map =>
      let entries := (λ '(k, x), (k, write_canonical x (depth + 1))) <$> map in
      let sorted := sort_by (λ a b, String.leb a.1 b.1) entries in
      parts ← outcome_map (λ '(k, text), t ← text; Ok (json_quote k +:+ ":" +:+ t)) sorted;
      Ok ("{" +:+ join_with "," parts +:+ "}")
  end.

Definition canonical_json (value : Json) : Outcome string := write_canonical value 0.
End Canonical.
