(* ===== verification/ValueFacts.v ===== *)
(** * Properties of values

    The JSON round trip with its exact depth limit, and the correctness of
    JSON Pointer projection against token-by-token navigation. *)
From stdpp Require Import base option gmap strings list pretty sorting.
From Stdlib Require Import ZArith Ascii Lia.
From S2P Require Import Prelude Value.

(** ** Induction over values *)
Section ValueInd.
Context (P : Value → Prop)
  (Hnull : P VNull) (Hbool : ∀ b, P (VBool b)) (Hint : ∀ n, P (VInt n))
  (Hstr : ∀ s, P (VString s))
  (Harr : ∀ items, Forall P items → P (VArray items))
  (Hobj : ∀ fields, Forall (λ kv, P kv.2) fields → P (VObject fields)).

Fixpoint value_ind' (v : Value) : P v :=
  match v with
  | VNull => Hnull
  | VBool b => Hbool b
  | VInt n => Hint n
  | VString s => Hstr s
  | VArray items =>
      Harr items ((fix go l := match l return Forall P l with
                               | [] => Forall_nil_2 _
                               | x :: l => Forall_cons_2 _ _ _ (value_ind' x) (go l)
                               end) items)
  | VObject fields =>
      Hobj fields ((fix go l := match l return Forall (λ kv, P kv.2) l with
                                | [] => Forall_nil_2 _
                                | x :: l => Forall_cons_2 _ _ _ (value_ind' x.2) (go l)
                                end) fields)
  end.
End ValueInd.

(** ** Well-formed values

    What the Rust types guarantee: integers are [i64] values and the keys of an
    object are strictly increasing. [level] is the nesting depth. *)
Definition keys_increasing {V} (m : list (string * V)) : Prop :=
  StronglySorted (λ a b, String.compare a.1 b.1 = Lt) m.

Fixpoint value_wf (v : Value) : Prop :=
  match v with
  | VInt n => in_i64 n = true
  | VArray items => Forall id (value_wf <$> items)
  | VObject fields => keys_increasing fields ∧ Forall id ((λ '(_, x), value_wf x) <$> fields)
  | _ => True
  end.

Fixpoint level (v : Value) : Z :=
  match v with
  | VArray items => foldr (λ x n, Z.max (level x + 1) n) 0 items
  | VObject fields => foldr (λ '(_, x) n, Z.max (level x + 1) n) 0 fields
  | _ => 0
  end.

Lemma level_nonneg v : 0 ≤ level v.
Proof.
  induction v as [| | | |items IH|fields IH] using value_ind'; simpl; try lia.
  - induction IH; simpl; lia.
  - induction IH as [|[k x] l]; simpl; lia.
Qed.

Lemma level_array_le items x n :
  x ∈ items → n + level (VArray items) ≤ MAX_DATA_DEPTH → n + 1 + level x ≤ MAX_DATA_DEPTH.
Proof. induction 1; simpl in *; lia. Qed.

Lemma level_object_le fields k x n :
  (k, x) ∈ fields → n + level (VObject fields) ≤ MAX_DATA_DEPTH → n + 1 + level x ≤ MAX_DATA_DEPTH.
Proof.
  induction fields as [|[k' y] l IH]; [by rewrite elem_of_nil|].
  rewrite elem_of_cons. simpl. intros [[= -> ->]|Hin] Hle; [lia|]. apply IH; [done|]. simpl. lia.
Qed.

(** Inserting the entries of an increasing list one by one rebuilds the list. *)
Lemma str_insert_last {V} k (v : V) m :
  Forall (λ e, String.compare e.1 k = Lt) m → str_insert k v m = m ++ [(k, v)].
Proof.
  unfold str_insert. induction 1 as [|[k' v'] m Hlt ? IH]; simpl; [done|].
  simpl in Hlt. rewrite String.compare_antisym, Hlt. simpl. by rewrite IH.
Qed.

Lemma foldl_str_insert {V} (m acc : list (string * V)) :
  keys_increasing (acc ++ m) → foldl (λ m '(k, v), str_insert k v m) acc m = acc ++ m.
Proof.
  revert acc. induction m as [|[k v] m IH]; intros acc Hs; simpl; [by rewrite app_nil_r|].
  assert (Forall (λ e, String.compare e.1 k = Lt) acc).
  { apply Forall_forall. intros e He. unfold keys_increasing in Hs.
    revert He Hs. clear. induction acc as [|a acc IH]; [by rewrite elem_of_nil|].
    rewrite elem_of_cons. intros [->|He] Hs; inversion Hs as [|?? Hs' Hall]; subst; [|by apply IH].
    rewrite Forall_forall in Hall. apply (Hall (k, v)). set_solver. }
  rewrite str_insert_last by done. rewrite IH; rewrite <-app_assoc; done.
Qed.

Lemma outcome_map_pointwise {A B} (f : A → Outcome B) l ys :
  length l = length ys → (∀ i x y, l !! i = Some x → ys !! i = Some y → f x = Ok y) →
  outcome_map f l = Ok ys.
Proof. intros Hlen Hf. apply outcome_map_ok. apply Forall2_same_length_lookup_2; eauto. Qed.

Lemma from_to_json_at v n :
  value_wf v → n + level v ≤ MAX_DATA_DEPTH → from_json_at (to_json v) n = Ok v.
Proof.
  revert n. induction v as [|b|z|s|items IH|fields IH] using value_ind'; intros n Hwf Hle.
  1-4: simpl in *; rewrite (proj2 (Z.ltb_ge _ _)) by lia; try done. { by rewrite Hwf. }
  - pose proof (level_nonneg (VArray items)).
    cbn [to_json from_json_at]. rewrite (proj2 (Z.ltb_ge _ _)) by lia.
    rewrite (outcome_map_pointwise _ _ items); [done|by rewrite length_fmap|].
    intros i j y. rewrite list_lookup_fmap. intros Hj Hi. rewrite Hi in Hj. injection Hj as <-.
    rewrite Forall_forall in IH. assert (y ∈ items) by (apply list_elem_of_lookup; eauto).
    apply IH; [done| |by eapply level_array_le].
    simpl in Hwf. rewrite Forall_fmap, Forall_forall in Hwf. by apply Hwf.
  - pose proof (level_nonneg (VObject fields)). destruct Hwf as [Hkeys Hwf].
    cbn [to_json from_json_at]. rewrite (proj2 (Z.ltb_ge _ _)) by lia.
    rewrite (outcome_map_pointwise _ _ fields); [|by rewrite length_fmap|].
    { unfold mbind, Outcome_bind. by rewrite (foldl_str_insert fields []). }
    intros i j [k y]. rewrite list_lookup_fmap. intros Hj Hi. rewrite Hi in Hj.
    injection Hj as <-. simpl.
    assert ((k, y) ∈ fields) as Hin by (apply list_elem_of_lookup; eauto).
    rewrite Forall_forall in IH. rewrite (IH (k, y)); [done|done| |by eapply level_object_le].
    rewrite Forall_fmap, Forall_forall in Hwf. by apply (Hwf (k, y)).
Qed.

Lemma from_json_level v n w :
  from_json_at (to_json v) n = Ok w → n + level v ≤ MAX_DATA_DEPTH.
Proof.
  revert n w. induction v as [|b|z|s|items IH|fields IH] using value_ind'; intros n w Hok.
  1-4: simpl in *; destruct (Z.ltb_spec MAX_DATA_DEPTH n); try done; lia.
  - cbn [to_json from_json_at] in Hok. destruct (Z.ltb_spec MAX_DATA_DEPTH n); [done|].
    apply outcome_bind_ok in Hok as (ys & Hys%outcome_map_ok & _).
    clear w. revert ys Hys. induction IH as [|x items Hx _ IHi]; simpl; [lia|].
    intros ys Hys. inversion Hys as [|? y ? ys' Hy Hrest]; subst.
    apply Hx in Hy. apply IHi in Hrest. simpl in Hrest. lia.
  - cbn [to_json from_json_at] in Hok. destruct (Z.ltb_spec MAX_DATA_DEPTH n); [done|].
    apply outcome_bind_ok in Hok as (ys & Hys%outcome_map_ok & _).
    clear w. revert ys Hys. induction IH as [|[k x] fields Hx _ IHi]; simpl; [lia|].
    intros ys Hys. inversion Hys as [|? y ? ys' Hy Hrest]; subst.
    apply outcome_bind_ok in Hy as (x' & Hx'%Hx & _). apply IHi in Hrest. simpl in *. lia.
Qed.

(** C40: a payload survives the trip through JSON exactly when its nesting is
    within the limit: for a value the Rust type admits ([i64] integers, ordered
    object keys), [Value::from_json] gives back what [to_json] wrote if and only if
    the value is nested at most [MAX_DATA_DEPTH] deep. *)
Theorem json_roundtrip v :
  value_wf v → (from_json (to_json v) = Ok v ↔ level v ≤ MAX_DATA_DEPTH).
Proof.
  intros Hwf. unfold from_json. split.
  - intros H%from_json_level. lia.
  - intros. by apply from_to_json_at.
Qed.

Lemma json_roundtrip_witness :
  let v := VObject [("a", VArray [VInt 1; VNull]); ("b", VString "x")] in
  value_wf v ∧ from_json (to_json v) = Ok v.
Proof.
  assert (value_wf (VObject [("a", VArray [VInt 1; VNull]); ("b", VString "x")])) as Hwf.
  { split; [repeat constructor | repeat constructor]. }
  split; [exact Hwf|]. apply (json_roundtrip _ Hwf). vm_compute. discriminate.
Defined.

(** ** Induction on JSON values *)
Section JsonInd.
Variable P : Json → Prop.
Hypothesis P_leaf : ∀ j, match j with JArray _ | JObject _ => True | _ => P j end.
Hypothesis P_array : ∀ items, Forall P items → P (JArray items).
Hypothesis P_object : ∀ map, Forall P (snd <$> map) → P (JObject map).

Fixpoint json_ind' (j : Json) : P j.
Proof.
  destruct j as [|b|n|text|s|items|map]; [apply (P_leaf JNull)|apply (P_leaf (JBool b))|apply (P_leaf (JInt n))
    |apply (P_leaf (JFloat text))|apply (P_leaf (JString s))| |].
  - apply P_array. induction items as [|x items IH]; constructor; [apply json_ind'|exact IH].
  - apply P_object. induction map as [|[k x] map IH]; constructor; [apply json_ind'|exact IH].
Defined.
End JsonInd.

(** ** JSON Pointer

    [escape_pointer] writes a reference token as RFC 6901 has it ([~] as [~0],
    [/] as [~1]) and [path_of] the pointer of a list of tokens. *)
Fixpoint escape_pointer (s : string) : string :=
  match s with
  | "" => ""
  | String c rest =>
      if Ascii.eqb c "~" then String "~" (String "0" (escape_pointer rest))
      else if Ascii.eqb c "/" then String "~" (String "1" (escape_pointer rest))
      else String c (escape_pointer rest)
  end.

Fixpoint path_of (tokens : list string) : string :=
  match tokens with
  | [] => ""
  | t :: ts => String "/" (escape_pointer t +:+ path_of ts)
  end.

(** Navigation by tokens, with no textual path. *)
Definition child (v : Value) (token : string) : option Value :=
  match v with
  | VObject map => bt_get token map
  | VArray items => index ← parse_uint u64_max token; items !! Z.to_nat index
  | _ => None
  end.

Fixpoint descend (v : Value) (tokens : list string) : option Value :=
  match tokens with
  | [] => Some v
  | t :: ts => next ← child v t; descend next ts
  end.

(** The intermediate text: slashes restored, tildes still escaped. *)
Fixpoint escape_tilde (s : string) : string :=
  match s with
  | "" => ""
  | String c rest =>
      if Ascii.eqb c "~" then String "~" (String "0" (escape_tilde rest))
      else String c (escape_tilde rest)
  end.

Lemma replace2_skip a b r c s :
  Ascii.eqb c a = false → replace2 a b r (String c s) = String c (replace2 a b r s).
Proof. intros Hc. destruct s; simpl; [done|]. by rewrite Hc. Qed.

Lemma replace2_keep a b r c d s :
  Ascii.eqb d b = false → Ascii.eqb d a = false →
  replace2 a b r (String c (String d s)) = String c (String d (replace2 a b r s)).
Proof.
  intros Hb Ha. rewrite <-(replace2_skip a b r d s) by done.
  cbn [replace2]. by rewrite Hb, andb_false_r.
Qed.

Lemma replace2_hit a b r s : replace2 a b r (String a (String b s)) = String r (replace2 a b r s).
Proof. cbn [replace2]. by rewrite !Ascii.eqb_refl. Qed.

Lemma unescape_slashes s : replace2 "~" "1" "/" (escape_pointer s) = escape_tilde s.
Proof.
  induction s as [|c s IH]; [done|]. cbn [escape_pointer escape_tilde].
  destruct (Ascii.eqb_spec c "~") as [->|Hc]; [by rewrite replace2_keep, IH by done|].
  destruct (Ascii.eqb_spec c "/") as [->|Hc']; [by rewrite replace2_hit, IH|].
  rewrite replace2_skip by by apply Ascii.eqb_neq. by rewrite IH.
Qed.

Lemma unescape_tildes s : replace2 "~" "0" "~" (escape_tilde s) = s.
Proof.
  induction s as [|c s IH]; [done|]. cbn [escape_tilde].
  destruct (Ascii.eqb_spec c "~") as [->|Hc]; [by rewrite replace2_hit, IH|].
  rewrite replace2_skip by by apply Ascii.eqb_neq. by rewrite IH.
Qed.

Lemma unescape_escape s : unescape_pointer (escape_pointer s) = s.
Proof. unfold unescape_pointer. by rewrite unescape_slashes, unescape_tildes. Qed.

Lemma split_slash_escaped t rest :
  split_slash (escape_pointer t +:+ String "/" rest) = escape_pointer t :: split_slash rest.
Proof.
  induction t as [|c t IH]; [done|]. cbn [escape_pointer].
  destruct (Ascii.eqb_spec c "~") as [->|Hc]; [simpl; by rewrite IH|].
  destruct (Ascii.eqb_spec c "/") as [->|Hc']; [simpl; by rewrite IH|].
  simpl. rewrite (proj2 (Ascii.eqb_neq _ _) Hc'), IH. done.
Qed.

Lemma split_slash_last t : split_slash (escape_pointer t) = [escape_pointer t].
Proof.
  induction t as [|c t IH]; [done|]. cbn [escape_pointer].
  destruct (Ascii.eqb_spec c "~") as [->|Hc]; [simpl; by rewrite IH|].
  destruct (Ascii.eqb_spec c "/") as [->|Hc']; [simpl; by rewrite IH|].
  simpl. rewrite (proj2 (Ascii.eqb_neq _ _) Hc'), IH. done.
Qed.

Lemma string_app_nil_r s : s +:+ "" = s.
Proof. induction s as [|c s IH]; [done|]. change (String c (s +:+ "") = String c s). by rewrite IH. Qed.

Lemma split_path ts t :
  split_slash (escape_pointer t +:+ path_of ts) = escape_pointer <$> (t :: ts).
Proof.
  revert t. induction ts as [|t' ts IH]; intros t; cbn [path_of].
  - rewrite string_app_nil_r. apply split_slash_last.
  - rewrite split_slash_escaped, IH. done.
Qed.

Lemma pointer_step_child path v t :
  match pointer_step path v (escape_pointer t) with
  | Ok w => child v t = Some w
  | Err _ => child v t = None
  | Panic _ => False
  end.
Proof.
  unfold pointer_step. rewrite unescape_escape. destruct v; simpl; try done.
  - destruct (parse_uint u64_max t) as [n|]; simpl; [|done]. by destruct (_ !! _).
  - by destruct (bt_get t fields).
Qed.

Lemma pointer_walk_descend path ts v :
  match pointer_walk path v (escape_pointer <$> ts) with
  | Ok w => descend v ts = Some w
  | Err _ => descend v ts = None
  | Panic _ => False
  end.
Proof.
  revert v. induction ts as [|t ts IH]; intros v; simpl; [done|].
  pose proof (pointer_step_child path v t) as Hs.
  destruct (pointer_step path v (escape_pointer t)) as [w|e|p]; simpl; rewrite ?Hs; [apply IH|done|done].
Qed.

(** [Value::pointer] on the RFC 6901 text of a token list finds exactly what
    walking the tokens finds, fails exactly when the walk fails, and never
    panics; tokens may contain [/] and [~]. *)
Theorem pointer_correct v tokens :
  match pointer v (path_of tokens) with
  | Ok w => descend v tokens = Some w
  | Err _ => descend v tokens = None
  | Panic _ => False
  end.
Proof.
  destruct tokens as [|t ts]; [done|]. cbn [path_of pointer].
  rewrite Ascii.eqb_refl. cbn [negb split_slash]. rewrite Ascii.eqb_refl. cbn [drop].
  rewrite split_path. apply pointer_walk_descend.
Qed.
