(* ===== verification/Ids.v ===== *)
(** * Identities

    [ids.rs]: the branded 16-byte identities (one module per brand, as the macro
    [branded_bytes!] makes one struct per brand), the branded counters, activity
    and node keys and their textual forms. *)
From stdpp Require Import base option gmap strings list pretty.
From Stdlib Require Import ZArith Ascii Lia.
From S2P Require Import Prelude Value.

(** ** [branded_bytes!]

    The 16 bytes are a string; the derived order is the order of strings. *)
Module Type Brand.
End Brand.

Module Branded (B : Brand).
Record t := from_bytes { as_bytes : string }.

#[global] Instance t_eq_dec : EqDecision t.
Proof. solve_decision. Defined.

#[global] Instance t_countable : Countable t :=
  inj_countable' as_bytes from_bytes (λ x, match x with from_bytes _ => eq_refl end).

Definition leb (a b : t) : bool := String.leb (as_bytes a) (as_bytes b).

Definition to_hex `{Platform} (id : t) : string := hex_encode (as_bytes id).

Definition from_hex `{Platform} (text : string) : Outcome t :=
  bytes ← ok_or (hex_decode text) (error_invalid "invalid hex");
  if bool_decide (String.length bytes = 16%nat) then Ok (from_bytes bytes)
  else fail! "expected 16 bytes".
End Branded.

Module Unbranded.
End Unbranded.

Module RunId := Branded Unbranded.
Module ScopeId := Branded Unbranded.
Module ActivationId := Branded Unbranded.
Module WorkerSessionId := Branded Unbranded.
Module WaitId := Branded Unbranded.
Module CommandId := Branded Unbranded.
Module EventId := Branded Unbranded.
Module EffectKey := Branded Unbranded.
Module ClusterId := Branded Unbranded.

(** ** [branded_u64!]: counters that saturate. *)
Definition counter_saturating_add (c n : Z) : Z := sat_add64 c n.
Definition counter_next (c : Z) : Z := sat_add64 c 1.

Inductive ExecutionRole :=
| ExecutionRole_Forward
| ExecutionRole_Compensation
| ExecutionRole_Reconciliation.

#[global] Instance ExecutionRole_eq_dec : EqDecision ExecutionRole.
Proof. solve_decision. Defined.

Record ActivityKey := mkActivityKey { ak_name : string; ak_version : Z }.

#[global] Instance ActivityKey_eq_dec : EqDecision ActivityKey.
Proof. solve_decision. Defined.

Definition activity_key_compare (a b : ActivityKey) : comparison :=
  match String.compare (ak_name a) (ak_name b) with
  | Eq => Z.compare (ak_version a) (ak_version b)
  | c => c
  end.

(** [str::rsplit_once("/v")]: splits at the last occurrence. *)
Fixpoint rsplit_once_v (s : string) : option (string * string) :=
  match s with
  | "" => None
  | String c rest =>
      match rsplit_once_v rest with
      | Some (name, version) => Some (String c name, version)
      | None =>
          match rest with
          | String d tail => if Ascii.eqb c "/" && Ascii.eqb d "v" then Some ("", tail) else None
          | "" => None
          end
      end
  end.

Definition activity_key_stable_name (k : ActivityKey) : string :=
  ak_name k +:+ "/v" +:+ show_Z (ak_version k).

Definition activity_key_parse (raw : string) : Outcome ActivityKey :=
  '(name, version) ← ok_or (rsplit_once_v raw)
    (error_invalid ("activity " +:+ raw +:+ " must look like name/vN"));
  version ← ok_or (parse_uint u32_max version)
    (error_invalid ("activity " +:+ raw +:+ " has a non-integer version"));
  Ok (mkActivityKey name version).

Definition is_lower (c : ascii) : bool :=
  let n := N_of_ascii c in (97 <=? n)%N && (n <=? 122)%N.
Definition is_upper (c : ascii) : bool :=
  let n := N_of_ascii c in (65 <=? n)%N && (n <=? 90)%N.
Definition is_digit (c : ascii) : bool :=
  let n := N_of_ascii c in (48 <=? n)%N && (n <=? 57)%N.
Definition is_alphanumeric (c : ascii) : bool := is_lower c || is_upper c || is_digit c.

Fixpoint string_all (p : ascii → bool) (s : string) : bool :=
  match s with
  | "" => true
  | String c rest => p c && string_all p rest
  end.

(** [NodeKey::parse]; a [NodeKey] is its text. *)
Definition node_key_parse (raw : string) : Outcome string :=
  if (64 <? String.length raw)%nat then fail! "node key longer than 64 characters"
  else match raw with
  | String c rest =>
      if negb (is_lower c) then fail! ("invalid node key " +:+ raw)
      else if negb (string_all (λ ch, is_lower ch || is_digit ch || Ascii.eqb ch "_") rest)
      then fail! ("invalid node key " +:+ raw)
      else Ok raw
  | "" => fail! ("invalid node key " +:+ raw)
  end.

Definition valid_ascii_name (raw : string) : bool :=
  negb (bool_decide (raw = "")) && (String.length raw <=? 64)%nat &&
  string_all (λ ch, is_alphanumeric ch || Ascii.eqb ch "_" || Ascii.eqb ch "." || Ascii.eqb ch "-") raw.

(** [tls.rs], [validate_identity_segment] and [PrincipalId::parse]. *)
Definition validate_identity_segment (value : string) : Outcome unit :=
  match value with
  | "" => fail! "invalid certificate identity segment"
  | String c _ =>
      if negb (is_alphanumeric c)
         || negb (string_all (λ b, is_alphanumeric b || Ascii.eqb b "-" || Ascii.eqb b "_" || Ascii.eqb b ".") value)
      then fail! "invalid certificate identity segment"
      else Ok tt
  end.

Definition principal_id_parse (value : string) : Outcome string :=
  _ ← validate_identity_segment value; Ok value.
