(* ===== verification/Policy.v ===== *)
(** * Limits, policies and time

    [limits.rs], [policy.rs] and the pure part of [time.rs]. Durations are
    whole milliseconds. *)
From stdpp Require Import base option strings list.
From Stdlib Require Import ZArith Ascii Lia.
From S2P Require Import Prelude Value Ids.

(** ** [limits.rs] *)
Definition MAX_ACTIVE_LEAVES_PER_WORKER : Z := 128.
Definition CLAIM_BATCH : Z := 16.
Definition MAX_BUFFERED_EVENTS_PER_RUN : Z := 1000.
Definition MAX_EVENTS_PER_ADDRESS : Z := 100.
Definition PROGRESS_BATCH : nat := 32.

(** ** [policy.rs] *)
Definition from_secs (n : Z) : Z := n * 1000.
Definition FORWARD_ATTEMPT_TIMEOUT : Z := from_secs (5 * 60).
Definition COMPENSATION_ATTEMPT_TIMEOUT : Z := from_secs (5 * 60).
Definition RECONCILIATION_ATTEMPT_TIMEOUT : Z := from_secs 30.
Definition FORWARD_ATTEMPT_BUDGET : Z := 5.
Definition COMPENSATION_ATTEMPT_BUDGET : Z := 10.
Definition MAX_ATTEMPT_BUDGET : Z := 10.
Definition INITIAL_BACKOFF : Z := from_secs 1.
Definition FORWARD_BACKOFF_CAP : Z := from_secs 60.
Definition COMPENSATION_BACKOFF_CAP : Z := from_secs (5 * 60).
Definition BACKOFF_MULTIPLIER_MILLIS : Z := 2000.
Definition RECONCILIATION_PROBES : Z := 3.
Definition TERMINAL_HISTORY_DAYS : Z := 30.
Definition TERMINAL_SUMMARY_DAYS : Z := 90.
Definition COMMAND_RESULT_HOURS : Z := 24.
Definition UNRESERVED_EVENT_DAYS : Z := 7.
Definition CHECKPOINT_EVENT_CADENCE : Z := 256.
Definition SESSION_LEASE : Z := from_secs 30.
Definition MIN_ATTEMPT_TIMEOUT : Z := from_secs 1.
Definition MAX_ATTEMPT_TIMEOUT : Z := from_secs (24 * 60 * 60).
Definition MAX_RUN_TIMEOUT : Z := from_secs (365 * 24 * 60 * 60).

Record Backoff := mkBackoff {
  initial_ms : Z;
  multiplier_millis : Z;
  max_ms : Z;
}.

Definition backoff_forward_default : Backoff :=
  mkBackoff INITIAL_BACKOFF BACKOFF_MULTIPLIER_MILLIS FORWARD_BACKOFF_CAP.

Definition backoff_compensation_default : Backoff :=
  mkBackoff INITIAL_BACKOFF BACKOFF_MULTIPLIER_MILLIS COMPENSATION_BACKOFF_CAP.

Definition backoff_validate (b : Backoff) : Outcome unit :=
  if (initial_ms b =? 0) || (max_ms b =? 0) then fail! "backoff durations must be positive"
  else if max_ms b <? initial_ms b then fail! "backoff initial exceeds max"
  else if from_secs (60 * 60) <? max_ms b then fail! "backoff max exceeds one hour"
  else if negb ((1000 <=? multiplier_millis b) && (multiplier_millis b <=? 10000))
  then fail! "backoff multiplier must be between 1 and 10"
  else Ok tt.

Record RetryPolicy := mkRetryPolicy {
  rp_errors : list string;
  rp_max_attempts : Z;
  rp_backoff : Backoff;
}.

Definition retry_forward_default : RetryPolicy :=
  mkRetryPolicy [] FORWARD_ATTEMPT_BUDGET backoff_forward_default.

Definition retry_compensation_default (retryable_codes : list string) : RetryPolicy :=
  mkRetryPolicy retryable_codes COMPENSATION_ATTEMPT_BUDGET backoff_compensation_default.

Definition retry_validate (r : RetryPolicy) : Outcome unit :=
  if (rp_max_attempts r =? 0) || (MAX_ATTEMPT_BUDGET <? rp_max_attempts r)
  then fail! "max_attempts is out of range"
  else backoff_validate (rp_backoff r).

Record CapturedRunPolicy := mkCapturedRunPolicy {
  forward_attempt_timeout_ms : Z;
  compensation_attempt_timeout_ms : Z;
  reconciliation_attempt_timeout_ms : Z;
  run_timeout_ms : option Z;
  terminal_history_days : Z;
  terminal_summary_days : Z;
  command_result_hours : Z;
  unreserved_event_days : Z;
  checkpoint_event_cadence : Z;
}.

Definition captured_policy_defaults (run_timeout : option Z) : CapturedRunPolicy :=
  mkCapturedRunPolicy FORWARD_ATTEMPT_TIMEOUT COMPENSATION_ATTEMPT_TIMEOUT
    RECONCILIATION_ATTEMPT_TIMEOUT run_timeout TERMINAL_HISTORY_DAYS TERMINAL_SUMMARY_DAYS
    COMMAND_RESULT_HOURS UNRESERVED_EVENT_DAYS CHECKPOINT_EVENT_CADENCE.

Definition validate_attempt_timeout (timeout : Z) : Outcome unit :=
  if (timeout <? MIN_ATTEMPT_TIMEOUT) || (MAX_ATTEMPT_TIMEOUT <? timeout)
  then fail! "attempt timeout must be between 1 second and 24 hours"
  else Ok tt.

(** ** [time.rs] *)
Inductive ClockDeltaFault :=
| BootReversed
| WatchdogGap (elapsed : Z)
| WallBootSkew (difference : Z) (elapsed : Z).

Definition clock_delta_fault (previous_wall previous_boot wall boot : Z) : option ClockDeltaFault :=
  if boot <? previous_boot then Some BootReversed
  else
    let elapsed := boot - previous_boot in
    if 2000 <? elapsed then Some (WatchdogGap elapsed)
    else
      let difference := Z.abs (wall - previous_wall - elapsed) in
      if 250 + elapsed / 1000 <? difference then Some (WallBootSkew difference elapsed)
      else None.

(** Splits a text at its first byte that is not a digit. *)
Fixpoint split_digits (s : string) : string * string :=
  match s with
  | "" => ("", "")
  | String c rest =>
      if is_digit c then let '(ds, unit) := split_digits rest in (String c ds, unit)
      else ("", s)
  end.

Definition parse_duration (text : string) : Outcome Z :=
  let '(digits, unit) := split_digits text in
  match unit with
  | "" => fail! ("duration " +:+ text +:+ " is missing a unit")
  | _ =>
      if bool_decide (digits = "") then fail! ("duration " +:+ text +:+ " has no integer")
      else
        n ← ok_or (parse_uint u64_max digits)
          (error_invalid ("duration " +:+ text +:+ " is not a positive integer"));
        if n =? 0 then fail! ("duration " +:+ text +:+ " must be positive")
        else if bool_decide (unit = "ms") then Ok n
        else if bool_decide (unit = "s") then Ok (from_secs n)
        else if bool_decide (unit = "m") then Ok (from_secs (sat_mul64 n 60))
        else if bool_decide (unit = "h") then Ok (from_secs (sat_mul64 n (60 * 60)))
        else if bool_decide (unit = "d") then Ok (from_secs (sat_mul64 n (60 * 60 * 24)))
        else fail! ("unknown duration unit " +:+ unit)
  end.

Definition duration_to_millis (duration : Z) : Outcome Z :=
  if (duration =? 0) || (u64_max <? duration) then fail! "duration is out of range"
  else Ok duration.
