(* ===== verification/Catalog.v ===== *)
(** * Schemas, catalogs and worker contracts

    [schema.rs], [catalog.rs] and [worker_contract.rs]. *)
From stdpp Require Import base option gmap strings list.
From Stdlib Require Import ZArith Ascii Lia.
From S2P Require Import Prelude Value Ids.

(** ** [schema.rs] *)
Record SchemaKey := mkSchemaKey { sk_name : string; sk_version : Z }.

#[global] Instance SchemaKey_eq_dec : EqDecision SchemaKey.
Proof. solve_decision. Defined.

Definition schema_key_compare (a b : SchemaKey) : comparison :=
  match String.compare (sk_name a) (sk_name b) with
  | Eq => Z.compare (sk_version a) (sk_version b)
  | c => c
  end.

Definition schema_key_new (name : string) (version : Z) : Outcome SchemaKey :=
  if negb (valid_ascii_name name) then fail! ("invalid schema name " +:+ name)
  else if version =? 0 then fail! "schema version must be positive"
  else Ok (mkSchemaKey name version).

Definition schema_key_parse (raw : string) : Outcome SchemaKey :=
  '(name, version) ← ok_or (rsplit_once_v raw)
    (error_invalid ("schema " +:+ raw +:+ " must look like name/vN"));
  version ← ok_or (parse_uint u32_max version)
    (error_invalid ("schema " +:+ raw +:+ " has a non-integer version"));
  schema_key_new name version.

Definition schema_key_stable_name (k : SchemaKey) : string :=
  sk_name k +:+ "/v" +:+ show_Z (sk_version k).

Inductive SchemaRef :=
| SchemaRef_Named (key : SchemaKey)
| SchemaRef_Array (element : SchemaRef)
| SchemaRef_Tuple (elements : list SchemaRef)
| SchemaRef_Integer
| SchemaRef_String
| SchemaRef_Boolean
| SchemaRef_Null.

Definition schema_ref_named (name : string) (version : Z) : Outcome SchemaRef :=
  key ← schema_key_new name version; Ok (SchemaRef_Named key).

Definition schema_ref_tuple (elements : list SchemaRef) : Outcome SchemaRef :=
  if bool_decide (elements = []) || (16 <? zlen elements)
  then fail! "tuple schemas must have 1 to 16 elements"
  else Ok (SchemaRef_Tuple elements).

Definition schema_is_scalar (s : SchemaRef) : bool :=
  match s with
  | SchemaRef_Integer | SchemaRef_String | SchemaRef_Boolean | SchemaRef_Null => true
  | _ => false
  end.

(** ** [catalog.rs] *)
Inductive ExecutionKind := ExecutionKind_Async | ExecutionKind_Blocking.
Inductive EffectKind := EffectKind_Pure | EffectKind_External.
Inductive Recovery := Recovery_RetrySafe | Recovery_Manual.

#[global] Instance Recovery_eq_dec : EqDecision Recovery.
Proof. solve_decision. Defined.

Record ErrorCode := mkErrorCode { ec_code : string; ec_retryable : bool }.

Record ActivityContract := mkActivityContract {
  ac_key : ActivityKey;
  ac_input_schema : SchemaRef;
  ac_output_schema : SchemaRef;
  ac_execution : ExecutionKind;
  ac_effects : EffectKind;
  ac_recovery : Recovery;
  ac_error_codes : list ErrorCode;
  ac_reconciler : option ActivityKey;
}.

Definition retryable_codes (c : ActivityContract) : list string :=
  ec_code <$> List.filter ec_retryable (ac_error_codes c).

Definition known_code (c : ActivityContract) (code : string) : option ErrorCode :=
  lfind (λ item, bool_decide (ec_code item = code)) (ac_error_codes c).

Record ReconcilerContract := mkReconcilerContract {
  rc_key : ActivityKey;
  rc_forward : ActivityKey;
}.

Record Catalog := mkCatalog {
  cat_schemas : list (SchemaKey * Json);
  cat_activities : list (ActivityKey * ActivityContract);
  cat_reconcilers : list (ActivityKey * ReconcilerContract);
}.

Definition catalog_default : Catalog := mkCatalog [] [] [].

(** [entry(key).or_insert(schema)]. *)
Definition insert_schema_if_absent (key : SchemaKey) (schema : Json) (c : Catalog) : Catalog :=
  if bt_contains key (cat_schemas c) then c
  else mkCatalog (bt_insert schema_key_compare key schema (cat_schemas c))
         (cat_activities c) (cat_reconcilers c).

Definition json_type (name : string) : Json := JObject [("type", JString name)].

Definition insert_builtin_schemas (c : Catalog) : Catalog :=
  foldl (λ c '(key, schema), insert_schema_if_absent key schema c) c
    [(mkSchemaKey "integer" 1, json_type "integer");
     (mkSchemaKey "string" 1, json_type "string");
     (mkSchemaKey "boolean" 1, json_type "boolean");
     (mkSchemaKey "unit" 1, json_type "null")].

Fixpoint require_schema (c : Catalog) (schema : SchemaRef) : Outcome unit :=
  match schema with
  | SchemaRef_Named key =>
      if bt_contains key (cat_schemas c) then Ok tt
      else fail! ("unknown schema " +:+ schema_key_stable_name key)
  | SchemaRef_Array element => require_schema c element
  | SchemaRef_Tuple elements =>
      _ ← outcome_map (λ element, require_schema c element) elements; Ok tt
  | _ => Ok tt
  end.

Definition catalog_activity (c : Catalog) (key : ActivityKey) : Outcome ActivityContract :=
  ok_or (bt_get key (cat_activities c))
    (error_invalid ("unknown activity " +:+ activity_key_stable_name key)).

Definition validate_contract_refs (c : Catalog) (contract : ActivityContract) : Outcome unit :=
  _ ← require_schema c (ac_input_schema contract);
  _ ← require_schema c (ac_output_schema contract);
  match ac_reconciler contract with
  | Some recon =>
      if bt_contains recon (cat_reconcilers c) then Ok tt
      else fail! ("activity " +:+ activity_key_stable_name (ac_key contract) +:+
                  " refers to missing reconciler " +:+ activity_key_stable_name recon)
  | None => Ok tt
  end.

Definition validate_refs (c : Catalog) : Outcome unit :=
  _ ← outcome_map (λ '(_, contract), validate_contract_refs c contract) (cat_activities c); Ok tt.

Definition validate_for_publication (c : Catalog) : Outcome unit :=
  _ ← outcome_map (λ '(key, _),
        if negb (valid_ascii_name (sk_name key)) || (sk_version key =? 0)
        then fail! ("invalid published schema " +:+ schema_key_stable_name key) else Ok tt)
      (cat_schemas c);
  _ ← outcome_map (λ '(key, contract),
        if negb (bool_decide (key = ac_key contract)) || negb (valid_ascii_name (ak_name key))
           || (ak_version key =? 0)
        then fail! "invalid published activity identity" else Ok tt)
      (cat_activities c);
  _ ← outcome_map (λ '(key, contract),
        if negb (bool_decide (key = rc_key contract)) || negb (valid_ascii_name (ak_name key))
           || (ak_version key =? 0)
        then fail! "invalid published reconciler identity"
        else if negb (bt_contains (rc_forward contract) (cat_activities c))
        then fail! ("reconciler " +:+ activity_key_stable_name key +:+ " refers to missing activity")
        else Ok tt)
      (cat_reconcilers c);
  validate_refs c.

Fixpoint schema_json (c : Catalog) (schema : SchemaRef) : Outcome Json :=
  match schema with
  | SchemaRef_Named key =>
      ok_or (bt_get key (cat_schemas c))
        (error_invalid ("unknown schema " +:+ schema_key_stable_name key))
  | SchemaRef_Array element =>
      items ← schema_json c element;
      Ok (JObject [("items", items); ("type", JString "array")])
  | SchemaRef_Tuple elements =>
      items ← outcome_map (λ element, schema_json c element) elements;
      Ok (JObject [("items", JArray items); ("type", JString "array")])
  | SchemaRef_Integer => Ok (json_type "integer")
  | SchemaRef_String => Ok (json_type "string")
  | SchemaRef_Boolean => Ok (json_type "boolean")
  | SchemaRef_Null => Ok (json_type "null")
  end.

Definition validate_value `{Platform} (c : Catalog) (schema : SchemaRef) (value : Value) : Outcome unit :=
  json_schema ← schema_json c schema;
  if jsonschema_is_valid json_schema (to_json value) then Ok tt
  else fail! "output does not match activity schema".

(** ** The parsed catalog document

    [RawCatalog] is what [serde_json] decodes; [catalog_from_raw] is the rest of
    [Catalog::from_json]. *)
Record RawActivity := mkRawActivity {
  raw_name : string;
  raw_version : Z;
  raw_input_schema : string;
  raw_output_schema : string;
  raw_execution : ExecutionKind;
  raw_effects : EffectKind;
  raw_recovery : Recovery;
  raw_error_codes : list ErrorCode;
  raw_reconciler : option (string * Z);
}.

Record RawReconciler := mkRawReconciler {
  rr_name : string;
  rr_version : Z;
  rr_forward_activity : string * Z;
}.

Record RawCatalog := mkRawCatalog {
  raw_format : string;
  raw_schemas : list (string * Json);
  raw_activities : list RawActivity;
  raw_reconcilers : list RawReconciler;
}.

Definition parse_schema_ref_string (raw : string) : Outcome SchemaRef :=
  key ← schema_key_parse raw; Ok (SchemaRef_Named key).

Definition add_raw_activity (c : Catalog) (activity : RawActivity) : Outcome Catalog :=
  let key := mkActivityKey (raw_name activity) (raw_version activity) in
  if negb (valid_ascii_name (ak_name key)) then fail! ("invalid activity name " +:+ ak_name key)
  else
    input_schema ← parse_schema_ref_string (raw_input_schema activity);
    output_schema ← parse_schema_ref_string (raw_output_schema activity);
    let contract := mkActivityContract key input_schema output_schema
      (raw_execution activity) (raw_effects activity) (raw_recovery activity)
      (raw_error_codes activity)
      ((λ '(n, v), mkActivityKey n v) <$> raw_reconciler activity) in
    Ok (mkCatalog (cat_schemas c) (bt_insert activity_key_compare key contract (cat_activities c))
          (cat_reconcilers c)).

Definition add_raw_reconciler (c : Catalog) (r : RawReconciler) : Catalog :=
  let key := mkActivityKey (rr_name r) (rr_version r) in
  mkCatalog (cat_schemas c) (cat_activities c)
    (bt_insert activity_key_compare key
       (mkReconcilerContract key (mkActivityKey (rr_forward_activity r).1 (rr_forward_activity r).2))
       (cat_reconcilers c)).

Definition catalog_from_raw (raw : RawCatalog) : Outcome Catalog :=
  if negb (bool_decide (raw_format raw = "graphrun.catalog/v1"))
  then fail! ("unsupported catalog format " +:+ raw_format raw)
  else
    let c := insert_builtin_schemas catalog_default in
    c ← outcome_fold (λ c '(key, schema),
          parsed ← schema_key_parse key;
          Ok (mkCatalog (bt_insert schema_key_compare parsed schema (cat_schemas c))
                (cat_activities c) (cat_reconcilers c))) c (raw_schemas raw);
    c ← outcome_fold add_raw_activity c (raw_activities raw);
    let c := foldl add_raw_reconciler c (raw_reconcilers raw) in
    _ ← validate_refs c;
    Ok c.

(** ** [worker_contract.rs]

    The JSON that [serde] writes for a contract is a parameter. *)
Class CatalogSerde := {
  contract_to_value : ActivityContract → Json;
  reconciler_to_value : ReconcilerContract → Json;
}.

Definition PROTOCOL_VERSION : Z := 1.
Definition CODEC_VERSION : Z := 1.

Record WorkerCapability := mkWorkerCapability {
  wc_activity_name : string;
  wc_activity_version : Z;
  wc_role : ExecutionRole;
  wc_codec_version : Z;
  wc_input_schema_digest : string;
  wc_output_schema_digest : string;
  wc_contract_digest : string;
}.

#[global] Instance WorkerCapability_eq_dec : EqDecision WorkerCapability.
Proof. solve_decision. Defined.

Definition role_name (role : ExecutionRole) : string :=
  match role with
  | ExecutionRole_Forward => "forward"
  | ExecutionRole_Compensation => "compensation"
  | ExecutionRole_Reconciliation => "reconciliation"
  end.

Definition parse_role (role : string) : Outcome ExecutionRole :=
  if bool_decide (role = "forward") then Ok ExecutionRole_Forward
  else if bool_decide (role = "compensation") then Ok ExecutionRole_Compensation
  else if bool_decide (role = "reconciliation") then Ok ExecutionRole_Reconciliation
  else fail! ("unknown execution role " +:+ role).

Definition is_reconciliation (role : ExecutionRole) : bool :=
  bool_decide (role = ExecutionRole_Reconciliation).

Definition contract_schemas (c : Catalog) (key : ActivityKey) (role : ExecutionRole) :
    Outcome (SchemaRef * SchemaRef) :=
  activity ← (if is_reconciliation role then
                recon ← ok_or (bt_get key (cat_reconcilers c))
                  (error_invalid ("unknown reconciler " +:+ activity_key_stable_name key));
                Ok (rc_forward recon)
              else Ok key);
  contract ← catalog_activity c activity;
  Ok (ac_input_schema contract, ac_output_schema contract).

Section WorkerContract.
Context `{Platform} `{CatalogSerde}.

Definition worker_digest (domain : string) (value : Json) : Outcome string :=
  text ← canonical_json value;
  Ok (hex_encode (sha256 (domain +:+ String "000" text))).

Definition capability_for (c : Catalog) (key : ActivityKey) (role : ExecutionRole) :
    Outcome WorkerCapability :=
  '(input, output) ← contract_schemas c key role;
  contract ← (if is_reconciliation role then
    recon ← ok_or (bt_get key (cat_reconcilers c))
      (error_invalid "unknown reconciliation contract");
    forward ← catalog_activity c (rc_forward recon);
    if negb (bool_decide (ac_reconciler forward = Some key))
    then fail! "reconciler is not bound to its forward contract"
    else Ok (JObject [("activity", contract_to_value forward);
                      ("reconciler", reconciler_to_value recon)])
  else
    contract ← catalog_activity c key;
    Ok (contract_to_value contract));
  input_json ← schema_json c input;
  input_digest ← worker_digest "graphrun.worker-schema/v1" input_json;
  output_json ← schema_json c output;
  output_digest ← worker_digest "graphrun.worker-schema/v1" output_json;
  contract_digest ← worker_digest "graphrun.worker-contract/v1" contract;
  Ok (mkWorkerCapability (ak_name key) (ak_version key) role CODEC_VERSION
        input_digest output_digest contract_digest).
End WorkerContract.
