(* ===== verification/Ir.v ===== *)
(** * The workflow graph

    [binding.rs] (references, bindings, conditions) and [ir.rs] (regions and
    nodes of a compiled definition). *)
From stdpp Require Import base option gmap strings list.
From Stdlib Require Import ZArith Ascii Lia.
From S2P Require Import Prelude Value Ids Policy Catalog.

(** ** [binding.rs] *)
Inductive Reference :=
| Reference_WorkflowInput
| Reference_ScopeInput
| Reference_ScopeId
| Reference_NodeOutput (node : string)
| Reference_LoopState
| Reference_LoopIndex
| Reference_ItemValue
| Reference_ItemIndex
| Reference_ForwardInput
| Reference_ForwardOutput.

#[global] Instance Reference_eq_dec : EqDecision Reference.
Proof. solve_decision. Defined.

(** [str::strip_prefix] and [str::strip_suffix]. *)
Fixpoint strip_prefix (prefix s : string) : option string :=
  match prefix, s with
  | "", _ => Some s
  | String c prefix, String d s => if Ascii.eqb c d then strip_prefix prefix s else None
  | String _ _, "" => None
  end.

Fixpoint strip_suffix (suffix s : string) : option string :=
  if bool_decide (s = suffix) then Some ""
  else match s with
  | "" => None
  | String c rest => String c <$> strip_suffix suffix rest
  end.

Definition reference_parse (raw : string) : Outcome Reference :=
  if bool_decide (raw = "workflow.input") then Ok Reference_WorkflowInput
  else if bool_decide (raw = "scope.input") then Ok Reference_ScopeInput
  else if bool_decide (raw = "scope.id") then Ok Reference_ScopeId
  else if bool_decide (raw = "loop.state") then Ok Reference_LoopState
  else if bool_decide (raw = "loop.index") then Ok Reference_LoopIndex
  else if bool_decide (raw = "item.value") then Ok Reference_ItemValue
  else if bool_decide (raw = "item.index") then Ok Reference_ItemIndex
  else if bool_decide (raw = "forward.input") then Ok Reference_ForwardInput
  else if bool_decide (raw = "forward.output") then Ok Reference_ForwardOutput
  else match strip_prefix "nodes." raw with
  | Some node =>
      key ← ok_or (strip_suffix ".output" node) (error_invalid ("invalid node reference " +:+ raw));
      node ← node_key_parse key;
      Ok (Reference_NodeOutput node)
  | None => fail! ("unknown reference " +:+ raw)
  end.

Definition reference_as_stable (r : Reference) : string :=
  match r with
  | Reference_WorkflowInput => "workflow.input"
  | Reference_ScopeInput => "scope.input"
  | Reference_ScopeId => "scope.id"
  | Reference_NodeOutput node => "nodes." +:+ node +:+ ".output"
  | Reference_LoopState => "loop.state"
  | Reference_LoopIndex => "loop.index"
  | Reference_ItemValue => "item.value"
  | Reference_ItemIndex => "item.index"
  | Reference_ForwardInput => "forward.input"
  | Reference_ForwardOutput => "forward.output"
  end.

Inductive Binding :=
| Binding_From (reference : Reference) (path : option string)
| Binding_Literal (value : Value)
| Binding_Object (fields : list (string * Binding))
| Binding_Array (items : list Binding).

Fixpoint binding_depth (b : Binding) : Z :=
  match b with
  | Binding_From _ _ | Binding_Literal _ => 1
  | Binding_Object fields => 1 + foldr (λ '(_, x) n, Z.max (binding_depth x) n) 0 fields
  | Binding_Array items => 1 + foldr (λ x n, Z.max (binding_depth x) n) 0 items
  end.

Fixpoint binding_references (b : Binding) : list Reference :=
  match b with
  | Binding_From reference _ => [reference]
  | Binding_Literal _ => []
  | Binding_Object fields => fields ≫= (λ '(_, x), binding_references x)
  | Binding_Array items => items ≫= binding_references
  end.

Inductive Condition :=
| Condition_Eq (left right : Binding)
| Condition_Ne (left right : Binding)
| Condition_Lt (left right : Binding)
| Condition_Le (left right : Binding)
| Condition_Gt (left right : Binding)
| Condition_Ge (left right : Binding)
| Condition_All (items : list Condition)
| Condition_Any (items : list Condition)
| Condition_Not (inner : Condition)
| Condition_Exists (binding : Binding).

Fixpoint operator_count (c : Condition) : Z :=
  match c with
  | Condition_All items | Condition_Any items =>
      1 + foldr (λ x n, operator_count x + n) 0 items
  | Condition_Not inner => 1 + operator_count inner
  | _ => 1
  end.

Fixpoint condition_bindings (c : Condition) : list Binding :=
  match c with
  | Condition_Eq l r | Condition_Ne l r | Condition_Lt l r
  | Condition_Le l r | Condition_Gt l r | Condition_Ge l r => [l; r]
  | Condition_All items | Condition_Any items => items ≫= condition_bindings
  | Condition_Not inner => condition_bindings inner
  | Condition_Exists b => [b]
  end.

Fixpoint infer_literal_schema (value : Value) : SchemaRef :=
  match value with
  | VNull => SchemaRef_Null
  | VBool _ => SchemaRef_Boolean
  | VInt _ => SchemaRef_Integer
  | VString _ => SchemaRef_String
  | VArray [] => SchemaRef_Array SchemaRef_Null
  | VArray (x :: _) => SchemaRef_Array (infer_literal_schema x)
  | VObject _ => match schema_ref_named "object" 1 with Ok s => s | _ => SchemaRef_Null end
  end.

(** ** [ir.rs] *)
Definition FORMAT_VERSION : Z := 1.
Definition DSL : string := "graphrun/v1".

Inductive PathSeg :=
| PathSeg_Root
| PathSeg_Node (name : string)
| PathSeg_Body
| PathSeg_Branch (name : string)
| PathSeg_Case (name : string)
| PathSeg_Default.

Definition region_path_root : list PathSeg := [PathSeg_Root].
Definition region_path_child (path : list PathSeg) (seg : PathSeg) : list PathSeg := path ++ [seg].

Inductive ConsumeFrom := ConsumeFrom_Buffered | ConsumeFrom_AfterActivation.

Inductive Compensation :=
| Compensation_Activity (activity : ActivityKey) (input : Binding)
    (timeout_ms : option Z) (retry : option RetryPolicy)
| Compensation_Irreversible (reason : string).

Record FailError := mkFailError { fe_code : string; fe_message : string }.

#[global] Instance FailError_eq_dec : EqDecision FailError.
Proof. solve_decision. Defined.

Inductive Region : Set :=
| mkRegion (path : list PathSeg) (input_schema output_schema : SchemaRef)
    (start : string) (nodes : list (string * Node))
with Node : Set :=
| Node_Activity (activity : ActivityKey) (input : Binding) (timeout_ms : option Z)
    (retry : RetryPolicy) (compensation : option Compensation) (next : string)
| Node_Choose (input : Binding) (cases : list ChooseCase) (default : Region) (next : string)
| Node_Delay (duration : Binding) (next : string)
| Node_WaitUntil (at_ : Binding) (next : string)
| Node_WaitSignal (signal : string) (key : Binding) (timeout_ms : option Z)
    (consume_from : ConsumeFrom) (next : string) (on_timeout : option string)
| Node_Complete (output : Binding)
| Node_Fail (error : FailError)
| Node_While (state : Binding) (state_schema : SchemaRef) (condition : Condition)
    (max_iterations : Z) (body : Region) (next : string)
| Node_DoWhile (state : Binding) (state_schema : SchemaRef) (condition : Condition)
    (max_iterations : Z) (body : Region) (next : string)
| Node_Repeat (count state : Binding) (state_schema : SchemaRef) (max_iterations : Z)
    (body : Region) (next : string)
| Node_Foreach (items : Binding) (item_schema : SchemaRef) (max_items max_concurrency : Z)
    (body : Region) (next : string)
| Node_Parallel (branches : list ParallelBranch) (next : string)
| Node_Saga (input : Binding) (body : Region) (next : string)
with ChooseCase : Set :=
| mkChooseCase (name : string) (when : Condition) (body : Region)
with ParallelBranch : Set :=
| mkParallelBranch (name : string) (input : Binding) (body : Region).

Definition region_start (r : Region) : string := let 'mkRegion _ _ _ start _ := r in start.
Definition region_nodes (r : Region) : list (string * Node) := let 'mkRegion _ _ _ _ nodes := r in nodes.
Definition case_name (c : ChooseCase) : string := let 'mkChooseCase name _ _ := c in name.
Definition case_when (c : ChooseCase) : Condition := let 'mkChooseCase _ when _ := c in when.
Definition case_body (c : ChooseCase) : Region := let 'mkChooseCase _ _ body := c in body.
Definition branch_name (b : ParallelBranch) : string := let 'mkParallelBranch name _ _ := b in name.
Definition branch_input (b : ParallelBranch) : Binding := let 'mkParallelBranch _ input _ := b in input.
Definition branch_body (b : ParallelBranch) : Region := let 'mkParallelBranch _ _ body := b in body.

(** [region.nodes.get(key)]. *)
Definition region_node (r : Region) (key : string) : option Node := bt_get key (region_nodes r).

Record Definition_ := mkDefinition {
  def_format_version : Z;
  def_dsl : string;
  def_id : string;
  def_version : Z;
  def_input_schema : SchemaRef;
  def_output_schema : SchemaRef;
  def_signals : list (string * SchemaRef);
  def_run_timeout_ms : option Z;
  def_root : Region;
  def_digest : string;
}.

Definition node_successors (n : Node) : list (string * string) :=
  match n with
  | Node_Activity _ _ _ _ _ next | Node_Choose _ _ _ next | Node_Delay _ next
  | Node_WaitUntil _ next | Node_While _ _ _ _ _ next | Node_DoWhile _ _ _ _ _ next
  | Node_Repeat _ _ _ _ _ next | Node_Foreach _ _ _ _ _ next | Node_Parallel _ next
  | Node_Saga _ _ next => [("next", next)]
  | Node_WaitSignal _ _ _ _ next on_timeout =>
      ("next", next) :: match on_timeout with Some t => [("on_timeout", t)] | None => [] end
  | Node_Complete _ | Node_Fail _ => []
  end.

Definition child_regions (n : Node) : list (string * Region) :=
  match n with
  | Node_Choose _ cases default _ =>
      ((λ c, ("case", case_body c)) <$> cases) ++ [("default", default)]
  | Node_While _ _ _ _ body _ | Node_DoWhile _ _ _ _ body _ | Node_Repeat _ _ _ _ body _
  | Node_Foreach _ _ _ _ body _ | Node_Saga _ body _ => [("body", body)]
  | Node_Parallel branches _ => (λ b, ("branch", branch_body b)) <$> branches
  | _ => []
  end.

Definition output_on_success_only (n : Node) : bool :=
  match n with Node_WaitSignal _ _ _ _ _ _ => true | _ => false end.

(** [Definition::activity_keys]: the activities a region and its child regions use. *)
Fixpoint collect_region_activities (r : Region) : list ActivityKey :=
  let 'mkRegion _ _ _ _ nodes := r in
  concat ((λ '(_, n), collect_node_activities n) <$> nodes)
with collect_node_activities (n : Node) : list ActivityKey :=
  match n with
  | Node_Activity activity _ _ _ compensation _ =>
      activity :: match compensation with
                  | Some (Compensation_Activity handler _ _ _) => [handler]
                  | _ => []
                  end
  | Node_Choose _ cases default _ =>
      concat ((λ c, collect_region_activities (let 'mkChooseCase _ _ body := c in body)) <$> cases)
      ++ collect_region_activities default
  | Node_While _ _ _ _ body _ | Node_DoWhile _ _ _ _ body _ | Node_Repeat _ _ _ _ body _
  | Node_Foreach _ _ _ _ body _ | Node_Saga _ body _ => collect_region_activities body
  | Node_Parallel branches _ =>
      concat ((λ b, collect_region_activities (let 'mkParallelBranch _ _ body := b in body)) <$> branches)
  | _ => []
  end.

Fixpoint dedup_adjacent {A} `{EqDecision A} (l : list A) : list A :=
  match l with
  | x :: ((y :: _) as rest) => if decide (x = y) then dedup_adjacent rest else x :: dedup_adjacent rest
  | _ => l
  end.

Definition activity_keys (d : Definition_) : list ActivityKey :=
  dedup_adjacent (sort_by (λ a b, match activity_key_compare a b with Gt => false | _ => true end)
    (collect_region_activities (def_root d))).
