(* ===== verification/Analysis.v ===== *)
(** * Checking a workflow definition

    The part of [compiler.rs] that checks a normalized definition, whoever
    produced it: [validate_definition], [analyze_tree], [analyze_region],
    [success_output], [check_bindings] and [detect_cycle]. *)
From stdpp Require Import base option gmap strings list.
From Stdlib Require Import ZArith Ascii Lia.
From S2P Require Import Prelude Value Ids Policy Catalog Ir.

Definition MAX_CONDITION_OPS : Z := 256.

Inductive Edge := Edge_Next | Edge_Timeout.

#[global] Instance Edge_eq_dec : EqDecision Edge.
Proof. solve_decision. Defined.

(** Sets of references need a countable type. *)
Definition reference_code (r : Reference) : nat * string :=
  match r with
  | Reference_WorkflowInput => (0%nat, "")
  | Reference_ScopeInput => (1%nat, "")
  | Reference_ScopeId => (2%nat, "")
  | Reference_NodeOutput node => (3%nat, node)
  | Reference_LoopState => (4%nat, "")
  | Reference_LoopIndex => (5%nat, "")
  | Reference_ItemValue => (6%nat, "")
  | Reference_ItemIndex => (7%nat, "")
  | Reference_ForwardInput => (8%nat, "")
  | Reference_ForwardOutput => (9%nat, "")
  end.

Definition reference_decode (c : nat * string) : Reference :=
  match c.1 with
  | 0%nat => Reference_WorkflowInput
  | 1%nat => Reference_ScopeInput
  | 2%nat => Reference_ScopeId
  | 3%nat => Reference_NodeOutput c.2
  | 4%nat => Reference_LoopState
  | 5%nat => Reference_LoopIndex
  | 6%nat => Reference_ItemValue
  | 7%nat => Reference_ItemIndex
  | 8%nat => Reference_ForwardInput
  | _ => Reference_ForwardOutput
  end.

#[global] Instance Reference_countable : Countable Reference.
Proof. apply (inj_countable' reference_code reference_decode). by intros []. Defined.

Record RegionCtx := mkRegionCtx {
  rc_input_schema : SchemaRef;
  rc_output_schema : SchemaRef;
  rc_in_loop : bool;
  rc_in_foreach : bool;
  rc_in_saga : bool;
  rc_in_compensation : bool;
}.

(** [ctx.clone()] with the schemas of a child region. *)
Definition ctx_for (ctx : RegionCtx) (body : Region) : RegionCtx :=
  let 'mkRegion _ input output _ _ := body in
  mkRegionCtx input output (rc_in_loop ctx) (rc_in_foreach ctx) (rc_in_saga ctx) (rc_in_compensation ctx).

Definition ctx_in_loop (ctx : RegionCtx) : RegionCtx :=
  mkRegionCtx (rc_input_schema ctx) (rc_output_schema ctx) true (rc_in_foreach ctx) (rc_in_saga ctx)
    (rc_in_compensation ctx).
Definition ctx_in_foreach (ctx : RegionCtx) : RegionCtx :=
  mkRegionCtx (rc_input_schema ctx) (rc_output_schema ctx) (rc_in_loop ctx) true (rc_in_saga ctx)
    (rc_in_compensation ctx).
Definition ctx_in_saga (ctx : RegionCtx) : RegionCtx :=
  mkRegionCtx (rc_input_schema ctx) (rc_output_schema ctx) (rc_in_loop ctx) (rc_in_foreach ctx) true
    (rc_in_compensation ctx).

(** ** Edges

    The maps [incoming] and [available] of the code are filled and never read;
    they have no counterpart here. *)
Notation outgoing_map := (gmap string (list (Edge * string))).

Definition edge_kind (name : string) : Edge :=
  if bool_decide (name = "on_timeout") then Edge_Timeout else Edge_Next.

Definition add_edge (nodes : list (string * Node)) (key : string) (outgoing : outgoing_map)
    (successor : string * string) : Outcome outgoing_map :=
  let '(edge_name, target) := successor in
  if negb (bt_contains target nodes)
  then fail! ("node " +:+ key +:+ " points at missing target " +:+ target)
  else Ok (<[key := default [] (outgoing !! key) ++ [(edge_kind edge_name, target)]]> outgoing).

Definition check_condition (c : Condition) : Outcome unit :=
  if MAX_CONDITION_OPS <? operator_count c then fail! "condition exceeds operator limit" else Ok tt.

Definition check_node_limits (node : Node) : Outcome unit :=
  _ ← match node with
      | Node_WaitSignal _ wait_key _ _ _ _ =>
          if MAX_DATA_DEPTH <? binding_depth wait_key then fail! "binding exceeds maximum depth" else Ok tt
      | _ => Ok tt
      end;
  match node with
  | Node_While _ _ condition _ _ _ | Node_DoWhile _ _ condition _ _ _ => check_condition condition
  | Node_Choose _ cases _ _ => _ ← outcome_map (λ case, check_condition (case_when case)) cases; Ok tt
  | _ => Ok tt
  end.

Definition scan_node (nodes : list (string * Node)) (outgoing : outgoing_map) (entry : string * Node) :
    Outcome outgoing_map :=
  let '(key, node) := entry in
  outgoing ← outcome_fold (add_edge nodes key) outgoing (node_successors node);
  _ ← check_node_limits node;
  Ok outgoing.

(** ** Cycles

    [visit] recurses along the edges; [stack] only mirrors [on_stack]. Every
    active call is for another node with edges, so [size outgoing] bounds the
    depth. *)
Fixpoint visit (fuel : nat) (outgoing : outgoing_map) (key : string) (state : gset string * gset string) :
    Outcome (gset string * gset string) :=
  match fuel with
  | O => Panic "out of fuel"
  | S fuel =>
      let '(on_stack, seen) := state in
      if bool_decide (key ∈ on_stack) then fail! ("cycle through node " +:+ key)
      else
        let on_stack := {[key]} ∪ on_stack in
        '(on_stack, seen) ←
          (if bool_decide (key ∈ seen) then Ok (on_stack, seen)
           else outcome_fold (λ state '(_, target), visit fuel outgoing target state)
                  (on_stack, {[key]} ∪ seen) (default [] (outgoing !! key)));
        Ok (on_stack ∖ {[key]}, seen)
  end.

Definition detect_cycle (start : string) (outgoing : outgoing_map) : Outcome unit :=
  _ ← visit (2 + size outgoing) outgoing start (∅, ∅); Ok tt.

(** ** Bindings *)
Definition node_bindings (node : Node) : list Binding :=
  match node with
  | Node_Activity _ input _ _ compensation _ =>
      input :: match compensation with Some (Compensation_Activity _ input _ _) => [input] | _ => [] end
  | Node_Choose input cases _ _ => input :: (cases ≫= λ case, condition_bindings (case_when case))
  | Node_Delay duration _ => [duration]
  | Node_WaitUntil at_ _ => [at_]
  | Node_WaitSignal _ key _ _ _ _ => [key]
  | Node_Complete output => [output]
  | Node_While state _ condition _ _ _ | Node_DoWhile state _ condition _ _ _ =>
      state :: condition_bindings condition
  | Node_Repeat count state _ _ _ _ => [count; state]
  | Node_Foreach items _ _ _ _ _ => [items]
  | Node_Parallel branches _ => branch_input <$> branches
  | Node_Saga input _ _ => [input]
  | Node_Fail _ => []
  end.

Definition is_loop_node (node : Node) : bool :=
  match node with
  | Node_While _ _ _ _ _ _ | Node_DoWhile _ _ _ _ _ _ | Node_Repeat _ _ _ _ _ _ => true
  | _ => false
  end.

Definition is_foreach_node (node : Node) : bool :=
  match node with Node_Foreach _ _ _ _ _ _ => true | _ => false end.

Definition has_compensation (node : Node) : bool :=
  match node with Node_Activity _ _ _ _ (Some _) _ => true | _ => false end.

Definition check_reference (node : Node) (available : gset Reference) (ctx : RegionCtx) (r : Reference) :
    Outcome unit :=
  match r with
  | Reference_LoopState | Reference_LoopIndex =>
      if negb (rc_in_loop ctx) && negb (is_loop_node node)
      then fail! "loop context reference used outside a loop" else Ok tt
  | Reference_ItemValue | Reference_ItemIndex =>
      if negb (rc_in_foreach ctx) && negb (is_foreach_node node)
      then fail! "item context reference used outside foreach" else Ok tt
  | Reference_ForwardInput | Reference_ForwardOutput =>
      if negb (rc_in_compensation ctx) && negb (has_compensation node)
      then fail! "forward context reference used outside compensation" else Ok tt
  | Reference_NodeOutput _ =>
      if negb (bool_decide (r ∈ available))
      then fail! ("reference " +:+ reference_as_stable r +:+ " is not available on every incoming path")
      else Ok tt
  | _ => Ok tt
  end.

Definition check_binding (node : Node) (available : gset Reference) (ctx : RegionCtx) (b : Binding) :
    Outcome unit :=
  if MAX_DATA_DEPTH <? binding_depth b then fail! "binding exceeds maximum depth"
  else _ ← outcome_map (check_reference node available ctx) (binding_references b); Ok tt.

Definition check_bindings (node : Node) (available : gset Reference) (ctx : RegionCtx) : Outcome unit :=
  _ ← outcome_map (check_binding node available ctx) (node_bindings node); Ok tt.

(** ** Available outputs *)
Definition success_output (key : string) (node : Node) : option Reference :=
  match node with
  | Node_Fail _ | Node_Delay _ _ | Node_WaitUntil _ _ | Node_Complete _ => None
  | _ => Some (Reference_NodeOutput key)
  end.

Definition base_references (ctx : RegionCtx) : gset Reference :=
  {[Reference_WorkflowInput; Reference_ScopeInput; Reference_ScopeId]}
  ∪ (if rc_in_loop ctx then {[Reference_LoopState; Reference_LoopIndex]} else ∅)
  ∪ (if rc_in_foreach ctx then {[Reference_ItemValue; Reference_ItemIndex]} else ∅)
  ∪ (if rc_in_compensation ctx then {[Reference_ForwardInput; Reference_ForwardOutput]} else ∅).

(** The loop's state: the stack [pending] (its top first), [seen] and [at_node]. *)
Record Flow := mkFlow {
  fl_pending : list string;
  fl_seen : gset string;
  fl_at_node : gmap string (gset Reference);
}.

Definition follow_edge (base : gset Reference) (key : string) (node : Node) (flow : Flow)
    (edge : Edge * string) : Flow :=
  let '(edge, target) := edge in
  let next_avail := default base (fl_at_node flow !! key) in
  let next_avail := match edge, success_output key node with
                    | Edge_Next, Some output_ref => {[output_ref]} ∪ next_avail
                    | _, _ => next_avail
                    end in
  let entry := default next_avail (fl_at_node flow !! target) in
  mkFlow (target :: fl_pending flow) (fl_seen flow)
    (<[target := entry ∩ next_avail]> (fl_at_node flow)).

(** One turn of [while let Some(key) = pending.pop()]; [None] when it is empty. *)
Definition analyze_step (nodes : list (string * Node)) (outgoing : outgoing_map) (base : gset Reference)
    (ctx : RegionCtx) (flow : Flow) : Outcome (option Flow) :=
  match fl_pending flow with
  | [] => Ok None
  | key :: pending =>
      if bool_decide (key ∈ fl_seen flow) then Ok (Some (mkFlow pending (fl_seen flow) (fl_at_node flow)))
      else
        let flow := mkFlow pending ({[key]} ∪ fl_seen flow) (fl_at_node flow) in
        node ← unwrap "node exists" (bt_get key nodes);
        _ ← check_bindings node (default base (fl_at_node flow !! key)) ctx;
        Ok (Some (foldl (follow_edge base key node) flow (default [] (outgoing !! key))))
  end.

Fixpoint analyze_loop (fuel : nat) (nodes : list (string * Node)) (outgoing : outgoing_map)
    (base : gset Reference) (ctx : RegionCtx) (flow : Flow) : Outcome Flow :=
  match fuel with
  | O => Panic "out of fuel"
  | S fuel =>
      next ← analyze_step nodes outgoing base ctx flow;
      match next with
      | None => Ok flow
      | Some flow => analyze_loop fuel nodes outgoing base ctx flow
      end
  end.

(** Each node pushes each of its edges at most once. *)
Definition edge_count (nodes : list (string * Node)) : nat :=
  sum_list ((λ entry, length (node_successors entry.2)) <$> nodes).

Definition analyze_region (region : Region) (ctx : RegionCtx) (catalog : Catalog) : Outcome unit :=
  let nodes := region_nodes region in
  let start := region_start region in
  outgoing ← outcome_fold (scan_node nodes) ∅ nodes;
  _ ← detect_cycle start outgoing;
  let base := base_references ctx in
  flow ← analyze_loop (2 + edge_count nodes) nodes outgoing base ctx (mkFlow [start] ∅ {[start := base]});
  if negb (Z.of_nat (size (fl_seen flow)) =? zlen nodes) then fail! "region contains unreachable nodes"
  else Ok tt.

(** ** The tree of regions *)
Fixpoint analyze_tree (region : Region) (ctx : RegionCtx) (catalog : Catalog) : Outcome unit :=
  let 'mkRegion _ _ _ _ nodes := region in
  _ ← analyze_region region ctx catalog;
  _ ← outcome_map (λ '(_, node), analyze_children node ctx catalog) nodes;
  Ok tt
with analyze_children (node : Node) (ctx : RegionCtx) (catalog : Catalog) : Outcome unit :=
  match node with
  | Node_While _ _ _ _ body _ | Node_DoWhile _ _ _ _ body _ | Node_Repeat _ _ _ _ body _ =>
      analyze_tree body (ctx_for (ctx_in_loop ctx) body) catalog
  | Node_Foreach _ _ _ _ body _ => analyze_tree body (ctx_for (ctx_in_foreach ctx) body) catalog
  | Node_Saga _ body _ => analyze_tree body (ctx_for (ctx_in_saga ctx) body) catalog
  | Node_Parallel branches _ =>
      _ ← outcome_map (λ b, let 'mkParallelBranch _ _ body := b in
            analyze_tree body (ctx_for ctx body) catalog) branches;
      Ok tt
  | Node_Choose _ cases default _ =>
      _ ← outcome_map (λ c, let 'mkChooseCase _ _ body := c in
            analyze_tree body (ctx_for ctx body) catalog) cases;
      analyze_tree default (ctx_for ctx default) catalog
  | _ => Ok tt
  end.

Definition root_ctx (input output : SchemaRef) : RegionCtx :=
  mkRegionCtx input output false false false false.

Definition validate_definition (definition : Definition_) (catalog : Catalog) : Outcome unit :=
  analyze_tree (def_root definition)
    (root_ctx (def_input_schema definition) (def_output_schema definition)) catalog.
