(* ===== verification/Equality.v ===== *)
(** * Equality of definitions and catalogs

    The derived [PartialEq] of [ir.rs], [binding.rs], [policy.rs], [schema.rs] and
    [catalog.rs], as decisions. *)
From stdpp Require Import base option gmap strings list.
From Stdlib Require Import ZArith Ascii Lia.
From S2P Require Import Prelude Value Ids Policy Catalog Ir.

#[global] Instance Json_eq_dec : EqDecision Json.
Proof.
  refine (fix go (x y : Json) : Decision (x = y) :=
    let _ : EqDecision Json := go in
    match x, y with
    | JNull, JNull => left eq_refl
    | JBool a, JBool b => cast_if (decide (a = b))
    | JInt a, JInt b => cast_if (decide (a = b))
    | JFloat a, JFloat b => cast_if (decide (a = b))
    | JString a, JString b => cast_if (decide (a = b))
    | JArray a, JArray b => cast_if (decide (a = b))
    | JObject a, JObject b => cast_if (decide (a = b))
    | _, _ => right _
    end); abstract congruence.
Defined.

#[global] Instance SchemaRef_eq_dec : EqDecision SchemaRef.
Proof.
  refine (fix go (x y : SchemaRef) : Decision (x = y) :=
    let _ : EqDecision SchemaRef := go in
    match x, y with
    | SchemaRef_Named a, SchemaRef_Named b => cast_if (decide (a = b))
    | SchemaRef_Array a, SchemaRef_Array b => cast_if (decide (a = b))
    | SchemaRef_Tuple a, SchemaRef_Tuple b => cast_if (decide (a = b))
    | SchemaRef_Integer, SchemaRef_Integer | SchemaRef_String, SchemaRef_String
    | SchemaRef_Boolean, SchemaRef_Boolean | SchemaRef_Null, SchemaRef_Null => left eq_refl
    | _, _ => right _
    end); abstract congruence.
Defined.

(** ** Catalogs *)
#[global] Instance ExecutionKind_eq_dec : EqDecision ExecutionKind.
Proof. solve_decision. Defined.
#[global] Instance EffectKind_eq_dec : EqDecision EffectKind.
Proof. solve_decision. Defined.
#[global] Instance ErrorCode_eq_dec : EqDecision ErrorCode.
Proof. solve_decision. Defined.
#[global] Instance ActivityContract_eq_dec : EqDecision ActivityContract.
Proof. solve_decision. Defined.
#[global] Instance ReconcilerContract_eq_dec : EqDecision ReconcilerContract.
Proof. solve_decision. Defined.
#[global] Instance Catalog_eq_dec : EqDecision Catalog.
Proof. solve_decision. Defined.

(** ** Definitions *)
#[global] Instance Binding_eq_dec : EqDecision Binding.
Proof.
  refine (fix go (x y : Binding) : Decision (x = y) :=
    let _ : EqDecision Binding := go in
    match x, y with
    | Binding_From r p, Binding_From r' p' => cast_if_and (decide (r = r')) (decide (p = p'))
    | Binding_Literal a, Binding_Literal b => cast_if (decide (a = b))
    | Binding_Object a, Binding_Object b => cast_if (decide (a = b))
    | Binding_Array a, Binding_Array b => cast_if (decide (a = b))
    | _, _ => right _
    end); abstract congruence.
Defined.

#[global] Instance Condition_eq_dec : EqDecision Condition.
Proof.
  refine (fix go (x y : Condition) : Decision (x = y) :=
    let _ : EqDecision Condition := go in
    match x, y with
    | Condition_Eq l r, Condition_Eq l' r' => cast_if_and (decide (l = l')) (decide (r = r'))
    | Condition_Ne l r, Condition_Ne l' r' => cast_if_and (decide (l = l')) (decide (r = r'))
    | Condition_Lt l r, Condition_Lt l' r' => cast_if_and (decide (l = l')) (decide (r = r'))
    | Condition_Le l r, Condition_Le l' r' => cast_if_and (decide (l = l')) (decide (r = r'))
    | Condition_Gt l r, Condition_Gt l' r' => cast_if_and (decide (l = l')) (decide (r = r'))
    | Condition_Ge l r, Condition_Ge l' r' => cast_if_and (decide (l = l')) (decide (r = r'))
    | Condition_All a, Condition_All b => cast_if (decide (a = b))
    | Condition_Any a, Condition_Any b => cast_if (decide (a = b))
    | Condition_Not a, Condition_Not b => cast_if (decide (a = b))
    | Condition_Exists a, Condition_Exists b => cast_if (decide (a = b))
    | _, _ => right _
    end); abstract congruence.
Defined.

#[global] Instance Backoff_eq_dec : EqDecision Backoff.
Proof. solve_decision. Defined.
#[global] Instance RetryPolicy_eq_dec : EqDecision RetryPolicy.
Proof. solve_decision. Defined.
#[global] Instance PathSeg_eq_dec : EqDecision PathSeg.
Proof. solve_decision. Defined.
#[global] Instance ConsumeFrom_eq_dec : EqDecision ConsumeFrom.
Proof. solve_decision. Defined.
#[global] Instance Compensation_eq_dec : EqDecision Compensation.
Proof. solve_decision. Defined.

Fixpoint region_eq_dec (x y : Region) {struct x} : Decision (x = y)
with node_eq_dec (x y : Node) {struct x} : Decision (x = y)
with case_eq_dec (x y : ChooseCase) {struct x} : Decision (x = y)
with branch_eq_dec (x y : ParallelBranch) {struct x} : Decision (x = y).
Proof.
  - pose (node_eq_dec : EqDecision Node).
    refine (match x, y with
      | mkRegion p i o s n, mkRegion p' i' o' s' n' =>
          cast_if_and5 (decide (p = p')) (decide (i = i')) (decide (o = o')) (decide (s = s')) (decide (n = n'))
      end); abstract congruence.
  - pose (region_eq_dec : EqDecision Region). pose (case_eq_dec : EqDecision ChooseCase).
    pose (branch_eq_dec : EqDecision ParallelBranch).
    refine (match x, y with
      | Node_Activity a i t r c n, Node_Activity a' i' t' r' c' n' =>
          cast_if_and6 (decide (a = a')) (decide (i = i')) (decide (t = t')) (decide (r = r')) (decide (c = c'))
            (decide (n = n'))
      | Node_Choose i c d n, Node_Choose i' c' d' n' =>
          cast_if_and4 (decide (i = i')) (decide (c = c')) (decide (d = d')) (decide (n = n'))
      | Node_Delay d n, Node_Delay d' n' => cast_if_and (decide (d = d')) (decide (n = n'))
      | Node_WaitUntil a n, Node_WaitUntil a' n' => cast_if_and (decide (a = a')) (decide (n = n'))
      | Node_WaitSignal s k t c n o, Node_WaitSignal s' k' t' c' n' o' =>
          cast_if_and6 (decide (s = s')) (decide (k = k')) (decide (t = t')) (decide (c = c')) (decide (n = n'))
            (decide (o = o'))
      | Node_Complete o, Node_Complete o' => cast_if (decide (o = o'))
      | Node_Fail e, Node_Fail e' => cast_if (decide (e = e'))
      | Node_While s ss c m b n, Node_While s' ss' c' m' b' n'
      | Node_DoWhile s ss c m b n, Node_DoWhile s' ss' c' m' b' n' =>
          cast_if_and6 (decide (s = s')) (decide (ss = ss')) (decide (c = c')) (decide (m = m')) (decide (b = b'))
            (decide (n = n'))
      | Node_Repeat c s ss m b n, Node_Repeat c' s' ss' m' b' n' =>
          cast_if_and6 (decide (c = c')) (decide (s = s')) (decide (ss = ss')) (decide (m = m')) (decide (b = b'))
            (decide (n = n'))
      | Node_Foreach i s m c b n, Node_Foreach i' s' m' c' b' n' =>
          cast_if_and6 (decide (i = i')) (decide (s = s')) (decide (m = m')) (decide (c = c')) (decide (b = b'))
            (decide (n = n'))
      | Node_Parallel b n, Node_Parallel b' n' => cast_if_and (decide (b = b')) (decide (n = n'))
      | Node_Saga i b n, Node_Saga i' b' n' => cast_if_and3 (decide (i = i')) (decide (b = b')) (decide (n = n'))
      | _, _ => right _
      end); abstract congruence.
  - pose (region_eq_dec : EqDecision Region).
    refine (match x, y with
      | mkChooseCase n w b, mkChooseCase n' w' b' =>
          cast_if_and3 (decide (n = n')) (decide (w = w')) (decide (b = b'))
      end); abstract congruence.
  - pose (region_eq_dec : EqDecision Region).
    refine (match x, y with
      | mkParallelBranch n i b, mkParallelBranch n' i' b' =>
          cast_if_and3 (decide (n = n')) (decide (i = i')) (decide (b = b'))
      end); abstract congruence.
Defined.

#[global] Existing Instance region_eq_dec.
#[global] Instance Definition_eq_dec : EqDecision Definition_.
Proof. pose (region_eq_dec : EqDecision Region). solve_decision. Defined.
