(* ===== verification/Yaml.v ===== *)
(** * The YAML front end

    [yaml.rs]: documents with positions, read from the events of a YAML parser,
    and the parsers of schema references, bindings and conditions that the
    compiler applies to them. *)
From stdpp Require Import base option gmap strings list.
From Stdlib Require Import ZArith Ascii Lia.
From S2P Require Import Prelude Value Ids Policy Catalog Ir.

Definition MAX_YAML_BYTES : Z := 256 * 1024.

Record Span := mkSpan { sp_line : Z; sp_column : Z }.

Inductive Spanned :=
| mkSpanned (span : Span) (doc : Doc)
with Doc : Set :=
| Doc_Null
| Doc_Bool (v : bool)
| Doc_Int (v : Z)
| Doc_String (text : string)
| Doc_Array (items : list Spanned)
| Doc_Map (fields : list (string * Spanned)).

Notation fields := (list (string * Spanned)).

Definition spanned_span (s : Spanned) : Span := let 'mkSpanned span _ := s in span.
Definition spanned_doc (s : Spanned) : Doc := let 'mkSpanned _ doc := s in doc.

(** [Error::invalid(..).at_span(..)]. *)
Definition invalid_at {A} (message : string) (span : Span) : Outcome A :=
  Err (error_at_span (error_invalid message) (sp_line span) (sp_column span)).

Definition as_map (s : Spanned) : Outcome fields :=
  match spanned_doc s with Doc_Map map => Ok map | _ => invalid_at "expected a mapping" (spanned_span s) end.

Definition doc_as_str (s : Spanned) : Outcome string :=
  match spanned_doc s with Doc_String text => Ok text | _ => invalid_at "expected a string" (spanned_span s) end.

Definition as_u32 (s : Spanned) : Outcome Z :=
  match spanned_doc s with
  | Doc_Int v => if (0 <=? v) && (v <=? u32_max) then Ok v
                 else invalid_at "expected a non-negative integer" (spanned_span s)
  | _ => invalid_at "expected a non-negative integer" (spanned_span s)
  end.

Definition doc_as_i64 (s : Spanned) : Outcome Z :=
  match spanned_doc s with Doc_Int v => Ok v | _ => invalid_at "expected an integer" (spanned_span s) end.

(** [BTreeMap::insert], entry after entry. *)
Definition bt_collect {V} (entries : list (string * V)) : list (string * V) :=
  foldl (λ m '(k, v), str_insert k v m) [] entries.

Fixpoint to_value (s : Spanned) : Outcome Value :=
  let 'mkSpanned _ doc := s in
  match doc with
  | Doc_Null => Ok VNull
  | Doc_Bool v => Ok (VBool v)
  | Doc_Int v => Ok (VInt v)
  | Doc_String v => Ok (VString v)
  | Doc_Array items => VArray <$> outcome_map to_value items
  | Doc_Map fields =>
      entries ← outcome_map (λ '(k, v), x ← to_value v; Ok (k, x)) fields; Ok (VObject (bt_collect entries))
  end.

(** ** Fields *)
Definition missing_field {A} (key : string) (span : Span) : Outcome A :=
  invalid_at ("missing field " +:+ key) span.

Definition required (map : fields) (key : string) (span : Span) : Outcome Spanned :=
  match bt_get key map with Some node => Ok node | None => missing_field key span end.

Definition reject_unknown (map : fields) (allowed : list string) (span : Span) : Outcome unit :=
  match lfind (λ '(key, _), negb (bool_decide (key ∈ allowed))) map with
  | Some (key, _) => invalid_at ("unknown field " +:+ key) span
  | None => Ok tt
  end.

(** [required] with what follows inside, for recursion into the field. *)
Definition with_field {A} (key : string) (span : Span) (k : Spanned → Outcome A) : fields → Outcome A :=
  fix go map := match map with
                | [] => missing_field key span
                | (key', node) :: map => if decide (key = key') then k node else go map
                end.

(** ** Scalars *)

(** [str::parse::<i64>]: an optional sign, at least one digit, a value in range. *)
Definition parse_i64 (s : string) : option Z :=
  match s with
  | String "-" rest =>
      match rest with
      | "" => None
      | _ => n ← parse_digits 0 rest; if in_i64 (- n) then Some (- n) else None
      end
  | _ => parse_uint i64_max s
  end.

Inductive ScalarStyle := Style_Plain | Style_Other.

Definition parse_scalar (text : string) (style : ScalarStyle) : Doc :=
  match style with
  | Style_Other => Doc_String text
  | Style_Plain =>
      if bool_decide (text ∈ [""; "null"; "Null"; "NULL"; "~"]) then Doc_Null
      else if bool_decide (text ∈ ["true"; "True"; "TRUE"]) then Doc_Bool true
      else if bool_decide (text ∈ ["false"; "False"; "FALSE"]) then Doc_Bool false
      else match parse_i64 text with Some v => Doc_Int v | None => Doc_String text end
  end.

(** ** Events

    The YAML parser is a third-party iterator over events with their positions:
    for a text, the events it yields and the error that follows them. An event
    carries its anchor (0 for none) and its tag. *)
Notation Tag := (string * string)%type.

Inductive YamlEvent :=
| Event_StreamStart
| Event_StreamEnd
| Event_DocumentStart
| Event_DocumentEnd
| Event_Alias (anchor : Z)
| Event_Scalar (text : string) (style : ScalarStyle) (anchor : Z) (tag : option Tag)
| Event_SequenceStart (anchor : Z) (tag : option Tag)
| Event_SequenceEnd
| Event_MappingStart (anchor : Z) (tag : option Tag)
| Event_MappingEnd.

(** A marker: its line and its column, which is counted from 0. *)
Definition marker_span (mark : Z * Z) : Span := mkSpan mark.1 (mark.2 + 1).

Class YamlParser := {
  yaml_events : string → list (YamlEvent * (Z * Z));
  yaml_scan_error : string → string;
  yaml_debug : YamlEvent → string;
}.

Definition reject_anchor_tag (anchor : Z) (tag : option Tag) (span : Span) : Outcome unit :=
  if negb (anchor =? 0) then invalid_at "YAML anchors are not allowed" span
  else match tag with
  | Some (handle, suffix) => invalid_at ("YAML tags are not allowed (" +:+ handle +:+ suffix +:+ ")") span
  | None => Ok tt
  end.

Section Parser.
Context `{YamlParser} (text : string).

(** The parser: the events still to come. *)
Notation parser := (list (YamlEvent * (Z * Z))).

Definition next_token : Run parser (YamlEvent * (Z * Z)) := λ tokens,
  match tokens with
  | token :: tokens => Ok (token, tokens)
  | [] => fail! (yaml_scan_error text)
  end.

Definition peek_token : Run parser (YamlEvent * (Z * Z)) := λ tokens,
  match tokens with
  | token :: _ => Ok (token, tokens)
  | [] => fail! (yaml_scan_error text)
  end.

Definition unexpected {A} (event : YamlEvent) (span : Span) : Outcome A :=
  invalid_at ("unexpected YAML event " +:+ yaml_debug event) span.

Definition expect_event (pred : YamlEvent → bool) : Run parser YamlEvent :=
  token ← next_token;
  let '(event, mark) := token in
  if pred event then mret event else lift (unexpected event (marker_span mark)).

(** The loop of a sequence and that of a mapping, given the parser of a node. *)
Fixpoint parse_items (parse_node : Run parser Spanned) (fuel : nat) (items : list Spanned) :
    Run parser (list Spanned) :=
  match fuel with
  | O => lift (Panic "out of fuel")
  | S fuel =>
      peeked ← peek_token;
      match peeked.1 with
      | Event_SequenceEnd => _ ← next_token; mret items
      | Event_StreamEnd => lift (invalid_at "unterminated sequence" (marker_span peeked.2))
      | _ => item ← parse_node; parse_items parse_node fuel (items ++ [item])
      end
  end.

Fixpoint parse_fields (parse_node : Run parser Spanned) (fuel : nat) (map : fields) : Run parser fields :=
  match fuel with
  | O => lift (Panic "out of fuel")
  | S fuel =>
      peeked ← peek_token;
      match peeked.1 with
      | Event_MappingEnd => _ ← next_token; mret map
      | Event_Alias _ => lift (invalid_at "YAML aliases are not allowed" (marker_span peeked.2))
      | _ =>
          key ← parse_node;
          key_text ← lift (doc_as_str key);
          if bt_contains key_text map then lift (invalid_at ("duplicate key " +:+ key_text) (spanned_span key))
          else
            value ← parse_node;
            parse_fields parse_node fuel (str_insert key_text value map)
      end
  end.

(** Every node takes an event, so the number of events bounds every loop and
    the depth. *)
Fixpoint parse_node (fuel : nat) : Run parser Spanned :=
  match fuel with
  | O => lift (Panic "out of fuel")
  | S fuel =>
      token ← next_token;
      let '(event, mark) := token in
      let span := marker_span mark in
      match event with
      | Event_Scalar text style anchor tag =>
          _ ← lift (reject_anchor_tag anchor tag span); mret (mkSpanned span (parse_scalar text style))
      | Event_SequenceStart anchor tag =>
          _ ← lift (reject_anchor_tag anchor tag span);
          items ← parse_items (parse_node fuel) fuel []; mret (mkSpanned span (Doc_Array items))
      | Event_MappingStart anchor tag =>
          _ ← lift (reject_anchor_tag anchor tag span);
          map ← parse_fields (parse_node fuel) fuel []; mret (mkSpanned span (Doc_Map map))
      | Event_Alias _ => lift (invalid_at "YAML aliases are not allowed" span)
      | other => lift (unexpected other span)
      end
  end.

Definition is_stream_start (e : YamlEvent) : bool := match e with Event_StreamStart => true | _ => false end.
Definition is_document_start (e : YamlEvent) : bool := match e with Event_DocumentStart => true | _ => false end.
Definition is_document_end (e : YamlEvent) : bool := match e with Event_DocumentEnd => true | _ => false end.

Definition parse_document : Run parser Spanned := λ tokens,
  (_ ← expect_event is_stream_start;
   _ ← expect_event is_document_start;
   doc ← parse_node (S (length tokens));
   _ ← expect_event is_document_end;
   token ← next_token;
   match token.1 with
   | Event_StreamEnd => mret doc
   | Event_DocumentStart =>
       lift (invalid_at "multiple YAML documents are not allowed" (marker_span token.2))
   | other => lift (unexpected other (marker_span token.2))
   end) tokens.

Definition parse_yaml : Outcome Spanned :=
  if MAX_YAML_BYTES <? Z.of_nat (String.length text) then fail! "YAML exceeds 256 KiB"
  else fst <$> parse_document (yaml_events text).
End Parser.

(** ** Schema references, bindings, conditions *)
Fixpoint parse_schema_ref (node : Spanned) : Outcome SchemaRef :=
  let 'mkSpanned span doc := node in
  match doc with
  | Doc_String text => key ← schema_key_parse text; Ok (SchemaRef_Named key)
  | Doc_Map map =>
      if negb (zlen map =? 1) then invalid_at "schema constructor must have exactly one field" span
      else if bt_contains "array" map
      then with_field "array" span (λ element, SchemaRef_Array <$> parse_schema_ref element) map
      else if bt_contains "tuple" map
      then with_field "tuple" span (λ elements,
             let 'mkSpanned span doc := elements in
             match doc with
             | Doc_Array items => parsed ← outcome_map parse_schema_ref items; schema_ref_tuple parsed
             | _ => invalid_at "tuple schema requires an array" span
             end) map
      else invalid_at "unknown schema constructor" span
  | _ => invalid_at "schema reference must be a string or constructor" span
  end.

Fixpoint parse_binding (node : Spanned) : Outcome Binding :=
  let 'mkSpanned span doc := node in
  match doc with
  | Doc_Map map =>
      if bt_contains "from" map then
        _ ← reject_unknown map ["from"; "path"] span;
        raw ← required map "from" span;
        raw ← doc_as_str raw;
        reference ← reference_parse raw;
        path ← match bt_get "path" map with Some path => Some <$> doc_as_str path | None => Ok None end;
        Ok (Binding_From reference path)
      else if bt_contains "literal" map then
        _ ← reject_unknown map ["literal"] span;
        literal ← required map "literal" span;
        Binding_Literal <$> to_value literal
      else if bt_contains "object" map then
        _ ← reject_unknown map ["object"] span;
        with_field "object" span (λ fields_node,
          let 'mkSpanned span doc := fields_node in
          match doc with
          | Doc_Map fields_map =>
              entries ← outcome_map (λ '(key, value), b ← parse_binding value; Ok (key, b)) fields_map;
              Ok (Binding_Object (bt_collect entries))
          | _ => invalid_at "expected a mapping" span
          end) map
      else if bt_contains "array" map then
        _ ← reject_unknown map ["array"] span;
        with_field "array" span (λ items_node,
          let 'mkSpanned span doc := items_node in
          match doc with
          | Doc_Array items => Binding_Array <$> outcome_map parse_binding items
          | _ => invalid_at "array binding requires a sequence" span
          end) map
      else invalid_at "binding must be from, literal, object, or array" span
  | _ => invalid_at "expected a mapping" span
  end.

Definition comparison_of (op : string) : option (Binding → Binding → Condition) :=
  if bool_decide (op = "eq") then Some Condition_Eq
  else if bool_decide (op = "ne") then Some Condition_Ne
  else if bool_decide (op = "lt") then Some Condition_Lt
  else if bool_decide (op = "le") then Some Condition_Le
  else if bool_decide (op = "gt") then Some Condition_Gt
  else if bool_decide (op = "ge") then Some Condition_Ge
  else None.

Fixpoint parse_condition (node : Spanned) : Outcome Condition :=
  let 'mkSpanned span doc := node in
  match doc with
  | Doc_Map [(op, value)] =>
      let 'mkSpanned value_span value_doc := value in
      match comparison_of op with
      | Some make =>
          match value_doc with
          | Doc_Array [l; r] => l ← parse_binding l; r ← parse_binding r; Ok (make l r)
          | _ => invalid_at "comparison expects two bindings" value_span
          end
      | None =>
          if bool_decide (op = "all") || bool_decide (op = "any") then
            match value_doc with
            | Doc_Array [] => invalid_at "all/any requires at least one condition" value_span
            | Doc_Array items =>
                parsed ← outcome_map parse_condition items;
                Ok (if bool_decide (op = "all") then Condition_All parsed else Condition_Any parsed)
            | _ => invalid_at "all/any expects a nonempty sequence" value_span
            end
          else if bool_decide (op = "not") then Condition_Not <$> parse_condition value
          else if bool_decide (op = "exists") then Condition_Exists <$> parse_binding value
          else invalid_at ("unknown condition operator " +:+ op) span
      end
  | Doc_Map _ => invalid_at "condition must have exactly one operator" span
  | _ => invalid_at "expected a mapping" span
  end.

Definition parse_node_key (node : Spanned) : Outcome string :=
  text ← doc_as_str node; node_key_parse text.
