(* ===== verification/Domain.v ===== *)
(** * The domain model

    The data of [domain.rs]: events, commands and the replicated [State], with
    the records other modules keep in it ([history.rs], [publication.rs],
    [format_upgrade.rs]). Fields carry a prefix per struct; every field of the
    Rust struct is present. *)
From stdpp Require Import base option gmap strings list.
From Stdlib Require Import ZArith Ascii Lia.
From S2P Require Import Prelude Value Ids Policy Catalog Ir.

(** ** Events *)
Inductive ScopeRole :=
| ScopeRole_Root
| ScopeRole_LoopBody (activation : ActivationId.t) (index : Z)
| ScopeRole_ForeachItem (activation : ActivationId.t) (index : Z)
| ScopeRole_ParallelBranch (activation : ActivationId.t) (name : string)
| ScopeRole_ChooseBody (activation : ActivationId.t) (name : string)
| ScopeRole_SagaBody (activation : ActivationId.t).

Inductive ReconcileOutcome :=
| ReconcileOutcome_Applied
| ReconcileOutcome_NotApplied
| ReconcileOutcome_Unknown.

#[global] Instance ReconcileOutcome_eq_dec : EqDecision ReconcileOutcome.
Proof. solve_decision. Defined.

Inductive DomainEvent :=
| RunAdmitted (run : RunId.t) (definition_id : string) (definition_version : Z)
    (input : Value) (root : ScopeId.t) (policy : CapturedRunPolicy) (admitted_ms : Z)
| ScopeOpened (run : RunId.t) (scope : ScopeId.t) (parent : option ActivationId.t)
    (role : ScopeRole) (input : Value)
| ScopeCompleted (run : RunId.t) (scope : ScopeId.t) (output : Value)
| ScopeFailed (run : RunId.t) (scope : ScopeId.t) (error : FailError)
| ActivationOpened (run : RunId.t) (scope : ScopeId.t) (activation : ActivationId.t) (node : string)
| NodeOutputRecorded (run : RunId.t) (scope : ScopeId.t) (node : string) (output : Value)
| GuardRecorded (run : RunId.t) (activation : ActivationId.t) (result : bool) (index : Z) (carry : Value)
| LeafSucceeded (run : RunId.t) (activation : ActivationId.t) (attempt : Z) (output : Value)
    (role : ExecutionRole)
| LeafFailed (run : RunId.t) (activation : ActivationId.t) (attempt : Z) (code message : string)
    (retry : bool)
| WaitOpened (run : RunId.t) (wait : WaitId.t) (activation : ActivationId.t) (signal key : string)
    (deadline_ms : option Z) (consume_from : ConsumeFrom)
| WaitSatisfied (run : RunId.t) (wait : WaitId.t) (event_id : EventId.t) (payload : Value)
| WaitTimedOut (run : RunId.t) (wait : WaitId.t)
| WaitCancelled (run : RunId.t) (wait : WaitId.t)
| EventAccepted (run : RunId.t) (event_id : EventId.t) (signal key : string) (payload : Value)
    (sequence accepted_ms expires_ms : Z)
| EventReserved (wait : WaitId.t) (event_id : EventId.t)
| EventExpired (run : RunId.t) (event_id : EventId.t)
| ReservationReleased (wait : WaitId.t) (event_id : EventId.t)
| ObligationRegistered (run : RunId.t) (forward : ActivationId.t) (handler : string)
    (handler_version : Z) (input : Value)
| ObligationBlocked (run : RunId.t) (forward : ActivationId.t) (handler : string)
    (handler_version : Z) (reason : string)
| CompensationStarted (run : RunId.t) (saga forward activation : ActivationId.t) (handler : string)
    (handler_version : Z) (input : Value) (error : FailError)
| ObligationTransferred (forward from_saga to_saga : ActivationId.t)
| ObligationReleased (run : RunId.t) (forward : ActivationId.t)
| SessionRegistered (session : WorkerSessionId.t) (activities : list string) (capacity expires_ms : Z)
| WorkerRegistered (session : WorkerSessionId.t) (principal_id : string)
    (capabilities : list WorkerCapability) (capacity protocol_min protocol_max expires_ms : Z)
| WorkerSessionRenewed (session : WorkerSessionId.t) (revision expires_ms : Z)
| ClaimGranted (run : RunId.t) (scope : ScopeId.t) (activation : ActivationId.t) (handler : string)
    (handler_version : Z) (input : Value) (attempt : Z) (session : WorkerSessionId.t)
    (generation revision lease_expiry_ms attempt_deadline_ms : Z) (effect_key : EffectKey.t)
    (role : ExecutionRole)
| ClaimRenewed (activation : ActivationId.t) (session : WorkerSessionId.t)
    (generation revision lease_expiry_ms : Z)
| ClaimCleared (activation : ActivationId.t)
| ReconciliationRecorded (run : RunId.t) (activation : ActivationId.t) (outcome : ReconcileOutcome)
    (output : option Value) (probes : Z)
| ReconciliationFailed (run : RunId.t) (activation : ActivationId.t) (code message : string)
| InterventionRequired (run : RunId.t) (activation : ActivationId.t) (reason : string)
| RunSucceeded (run : RunId.t) (output : Value)
| RunFailed (run : RunId.t) (error : FailError)
| RecoveryAuthorized (reason : string)
| AbortIntent (run : RunId.t) (saga : ActivationId.t) (error : FailError)
| CompensationAbandoned (run : RunId.t) (reason : string) (unresolved : list ActivationId.t).

(** ** Records of other modules held in the state *)

(** [format_upgrade.rs] *)
Record Position := mkPosition { pos_term : Z; pos_leader_id : Z; pos_index : Z }.

Record ReaderProof := mkReaderProof {
  rdr_format : string;
  rdr_cluster_id : string;
  rdr_member_id : Z;
  rdr_roster_log_id : option Position;
  rdr_active_generation : Z;
  rdr_applied_log_id : option Position;
  rdr_reader_floor : Z;
  rdr_command_readers : list Z;
  rdr_domain_readers : list string;
  rdr_graph_readers : list Z;
  rdr_state_records : list string;
  rdr_event_readers : list string;
  rdr_checkpoint_readers : list string;
  rdr_artifact_readers : list string;
  rdr_snapshot_readers : list Z;
}.

(** [publication.rs] *)
Record CommandKey := mkCommandKey {
  ck_cluster_id : string;
  ck_principal_id : string;
  ck_command_id : CommandId.t;
}.

Inductive PublicationOperation :=
| PublicationOperation_Catalog (version : Z) (catalog : Catalog)
| PublicationOperation_Definition (definition : Definition_) (catalog_version : Z)
| PublicationOperation_Start (workflow : string) (version : option Z) (start_key : string) (input : Value).

Record PinnedPublication := mkPinnedPublication {
  pp_definition_format_version : Z;
  pp_definition_digest : string;
  pp_catalog_version : Z;
  pp_catalog_digest : string;
  pp_policy_format : string;
}.

(** ** Commands *)
Inductive WorkerResult :=
| WorkerResult_Success (output : Value)
| WorkerResult_Error (code message : string).

Inductive WorkerProbe :=
| WorkerProbe_Observed (outcome : ReconcileOutcome) (output : option Value)
| WorkerProbe_Error (code message : string).

Inductive CommandBody :=
| Cmd_PrepareWriterFormat (proofs : list ReaderProof) (roster_log_id : option Position)
| Cmd_ActivateWriterFormat (roster_log_id : option Position) (target : Z)
| Cmd_Authenticated (principal_id : string) (body : CommandBody)
| Cmd_Publication (key : CommandKey) (operation : PublicationOperation)
| Cmd_Start (run : RunId.t) (definition : Definition_) (input : Value) (catalog : Catalog)
| Cmd_ReportLeaf (run : RunId.t) (activation : ActivationId.t) (output : Value)
| Cmd_ReportError (run : RunId.t) (activation : ActivationId.t) (code message : string)
| Cmd_ResolveBlocked (run : RunId.t) (forward : ActivationId.t) (input : Value)
| Cmd_Signal (run : RunId.t) (event_id : EventId.t) (signal key : string) (payload : Value)
| Cmd_ResolveTimer (run : RunId.t) (wait : WaitId.t)
| Cmd_Progress (run : RunId.t)
| Cmd_Cancel (run : RunId.t) (reason : string)
| Cmd_RegisterSession (session : WorkerSessionId.t) (activities : list string) (capacity : Z)
| Cmd_RenewLocalSession (session : WorkerSessionId.t)
| Cmd_RegisterWorker (session : WorkerSessionId.t) (principal_id : string)
    (capabilities : list WorkerCapability) (capacity protocol_min protocol_max : Z)
| Cmd_RenewWorkerSession (session : WorkerSessionId.t) (revision : Z)
| Cmd_Claim (session : WorkerSessionId.t) (capacity : Z)
| Cmd_Renew (session : WorkerSessionId.t) (activation : ActivationId.t) (generation revision : Z)
| Cmd_ReportAssigned (run : RunId.t) (activation : ActivationId.t) (output : Value)
    (session : WorkerSessionId.t) (generation revision : Z)
| Cmd_ReportWorker (run : RunId.t) (activation : ActivationId.t) (session : WorkerSessionId.t)
    (generation revision : Z) (schema_digest : string) (result : WorkerResult)
| Cmd_Reconcile (run : RunId.t) (activation : ActivationId.t) (session : WorkerSessionId.t)
    (generation revision : Z) (outcome : ReconcileOutcome) (output : option Value)
| Cmd_ReconcileWorker (run : RunId.t) (activation : ActivationId.t) (session : WorkerSessionId.t)
    (generation revision : Z) (schema_digest : string) (result : WorkerProbe)
| Cmd_AcknowledgeRecovery (reason : string)
| Cmd_AbandonCompensation (run : RunId.t) (reason : string)
| Cmd_PruneHistory (limit : Z).

Record Command := mkCommand { cmd_id : CommandId.t; cmd_body : CommandBody; cmd_time : Z }.

(** ** Runs, scopes and activations *)
Inductive RunStatus :=
| RunStatus_Active
| RunStatus_Succeeded (output : Value)
| RunStatus_Failed (error : FailError).

Record RunState := mkRunState {
  rs_id : RunId.t;
  rs_definition : Definition_;
  rs_catalog : Catalog;
  rs_input : Value;
  rs_policy : CapturedRunPolicy;
  rs_status : RunStatus;
  rs_root : ScopeId.t;
  rs_next_sequence : Z;
  rs_next_ready_order : Z;
  rs_admitted_ms : Z;
  rs_terminal_ms : Z;
  rs_published : option PinnedPublication;
}.

Inductive ScopeStatus :=
| ScopeStatus_Open
| ScopeStatus_Completed (output : Value)
| ScopeStatus_Failed (error : FailError).

Record ScopeState := mkScopeState {
  ss_id : ScopeId.t;
  ss_run : RunId.t;
  ss_parent : option ActivationId.t;
  ss_role : ScopeRole;
  ss_input : Value;
  ss_status : ScopeStatus;
  ss_outputs : list (string * Value);
  ss_current : option string;
}.

Inductive ActivationStatus :=
| ActivationStatus_Open
| ActivationStatus_Ready
| ActivationStatus_Succeeded
| ActivationStatus_Failed.

#[global] Instance ActivationStatus_eq_dec : EqDecision ActivationStatus.
Proof. solve_decision. Defined.

Record ClaimState := mkClaimState {
  cl_session : WorkerSessionId.t;
  cl_generation : Z;
  cl_revision : Z;
  cl_lease_expiry_ms : Z;
  cl_attempt_deadline_ms : Z;
  cl_effect_key : EffectKey.t;
  cl_role : ExecutionRole;
  cl_probes : Z;
  cl_unknown_reported : bool;
}.

Record ActivationState := mkActivationState {
  as_id : ActivationId.t;
  as_run : RunId.t;
  as_scope : ScopeId.t;
  as_node : string;
  as_status : ActivationStatus;
  as_role : ExecutionRole;
  as_claim : option ClaimState;
  as_attempts : Z;
  as_ready_order : Z;
}.

Record WorkerSession := mkWorkerSession {
  ws_id : WorkerSessionId.t;
  ws_activities : list string;
  ws_capacity : Z;
  ws_expires_ms : Z;
  ws_principal_id : string;
  ws_capabilities : list WorkerCapability;
  ws_revision : Z;
  ws_protocol_min : Z;
  ws_protocol_max : Z;
}.

Inductive ObligationStatus :=
| ObligationStatus_Open
| ObligationStatus_Compensating (activation : ActivationId.t)
| ObligationStatus_Compensated
| ObligationStatus_Released
| ObligationStatus_Blocked (reason : string)
| ObligationStatus_Irreversible (reason : string)
| ObligationStatus_Abandoned.

Record Obligation := mkObligation {
  ob_forward : ActivationId.t;
  ob_run : RunId.t;
  ob_owner : ActivationId.t;
  ob_handler : string;
  ob_handler_version : Z;
  ob_input : Value;
  ob_status : ObligationStatus;
}.

Record WaitState := mkWaitState {
  wt_id : WaitId.t;
  wt_run : RunId.t;
  wt_activation : ActivationId.t;
  wt_signal : string;
  wt_key : string;
  wt_deadline_ms : option Z;
  wt_consume_from : ConsumeFrom;
  wt_opened_sequence : Z;
  wt_pending : bool;
}.

Record InboxEntry := mkInboxEntry {
  ie_event_id : EventId.t;
  ie_signal : string;
  ie_key : string;
  ie_payload : Value;
  ie_sequence : Z;
  ie_reserved_wait : option WaitId.t;
  ie_consumed : bool;
  ie_accepted_ms : Z;
  ie_expires_ms : Z;
  ie_run : option RunId.t;
}.

(** ** Retained history ([history.rs]) *)
Record ArtifactRef := mkArtifactRef {
  ar_cluster_id : string;
  ar_format : string;
  ar_schema : string;
  ar_byte_len : Z;
  ar_sha256 : string;
}.

#[global] Instance ArtifactRef_eq_dec : EqDecision ArtifactRef.
Proof. solve_decision. Defined.

Record RequiredArtifacts := mkRequiredArtifacts {
  ra_definition : ArtifactRef;
  ra_catalog : ArtifactRef;
  ra_policy : ArtifactRef;
  ra_schemas : list (string * ArtifactRef);
  ra_contracts : list (string * ArtifactRef);
}.

#[global] Instance RequiredArtifacts_eq_dec : EqDecision RequiredArtifacts.
Proof. solve_decision. Defined.

Record HistoryEntry := mkHistoryEntry {
  he_format : string;
  he_run : RunId.t;
  he_sequence : Z;
  he_command_id : option CommandId.t;
  he_principal_id : option string;
  he_recorded_ms : Z;
  he_payload : ArtifactRef;
  he_input_ref : option ArtifactRef;
  he_output_ref : option ArtifactRef;
}.

Record TerminalSummary := mkTerminalSummary {
  ts_run : RunId.t;
  ts_workflow : string;
  ts_version : Z;
  ts_status : string;
  ts_terminal_ms : Z;
  ts_expires_ms : Z;
  ts_history_through : Z;
}.

Record SignalTombstone := mkSignalTombstone {
  st_run : RunId.t;
  st_event_id : EventId.t;
  st_signal : string;
  st_key : string;
  st_payload : ArtifactRef;
}.

(** ** Publications and the writer format *)
Record FormatPolicy := mkFormatPolicy {
  fp_format : string;
  fp_active_writer : Z;
  fp_activation_log_id : option Position;
  fp_roster_log_id : option Position;
  fp_prepared : list (Z * ReaderProof);
}.

Definition format_policy_default : FormatPolicy :=
  mkFormatPolicy "graphrun.writer-policy/v1" 4 None None [].

Record FormatReceipt := mkFormatReceipt {
  fr_format : string;
  fr_cluster_id : string;
  fr_principal_id : string;
  fr_command_id : CommandId.t;
  fr_request_digest : string;
  fr_applied_log_id : Position;
  fr_active_writer : Z;
  fr_applied : bool;
  fr_message : string;
}.

Record PublishedCatalog := mkPublishedCatalog {
  pc_format : string;
  pc_digest : string;
  pc_catalog : Catalog;
}.

Record PublishedDefinition := mkPublishedDefinition {
  pd_format : string;
  pd_normalized_format_version : Z;
  pd_digest : string;
  pd_catalog_version : Z;
  pd_definition : Definition_;
}.

Record StartKeyRecord := mkStartKeyRecord {
  sr_run : RunId.t;
  sr_version : Z;
  sr_input_digest : string;
  sr_admitted_ms : Z;
}.

Inductive Disposition :=
| Disposition_Applied (run : option RunId.t) (digest : option string) (version : option Z)
| Disposition_Rejected (code details : string).

Record EventRange := mkEventRange { er_run : RunId.t; er_first : Z; er_last : Z }.

Record CommandResult := mkCommandResult {
  cr_format : string;
  cr_key : CommandKey;
  cr_request_digest : string;
  cr_operation : string;
  cr_target : string;
  cr_outcome : Disposition;
  cr_event_range : option EventRange;
  cr_recorded_ms : Z;
}.

Record RecoveryHold := mkRecoveryHold { rh_reason : string; rh_authorized : bool }.

(** ** The replicated state

    A checkpoint holds a projected state, so the two types are mutual. *)
Inductive State := mkState {
  format_policy : FormatPolicy;
  format_receipts : list (string * FormatReceipt);
  current_cluster_id : string;
  artifact_origins : gset string;
  engine_time_watermark_ms : Z;
  runs : gmap RunId.t RunState;
  scopes : gmap ScopeId.t ScopeState;
  activations : gmap ActivationId.t ActivationState;
  waits : gmap WaitId.t WaitState;
  inbox : list InboxEntry;
  commands : gmap CommandId.t (list DomainEvent);
  command_actors : gmap CommandId.t string;
  command_external_ids : gmap CommandId.t CommandId.t;
  authenticated_request_digests : gmap CommandId.t string;
  legacy_start_digests : gmap CommandId.t string;
  worker_command_digests : gmap CommandId.t string;
  published_catalogs : list (Z * PublishedCatalog);
  published_definitions : list (string * list (Z * PublishedDefinition));
  start_keys : list (string * list (string * StartKeyRecord));
  command_results : list (string * CommandResult);
  loop_carry : gmap ActivationId.t (Value * Z);
  foreach_items : gmap ActivationId.t (list Value);
  foreach_done : gmap ActivationId.t (list (Z * Value));
  parallel_done : gmap ActivationId.t (list (string * Value));
  history : gmap RunId.t (list DomainEvent);
  history_records : gmap RunId.t (list HistoryEntry);
  history_dependencies : gmap RunId.t RequiredArtifacts;
  checkpoints : gmap RunId.t RunCheckpoint;
  terminal_summaries : gmap RunId.t TerminalSummary;
  signal_tombstones : gmap string SignalTombstone;
  command_times : gmap CommandId.t Z;
  obligations : list Obligation;
  saga_errors : gmap ActivationId.t FailError;
  sessions : gmap WorkerSessionId.t WorkerSession;
  next_generation : Z;
  fair_cursor : option RunId.t;
  interventions : gmap ActivationId.t string;
  recovery : option RecoveryHold;
}
with RunCheckpoint : Set := mkRunCheckpoint {
  cp_format : string;
  cp_through_run_sequence : Z;
  cp_required : RequiredArtifacts;
  cp_projection_ref : ArtifactRef;
  cp_projection : State;
}.

(** [State::default()]. *)
Definition state_default : State :=
  mkState format_policy_default [] "" ∅ 0 ∅ ∅ ∅ ∅ [] ∅ ∅ ∅ ∅ ∅ ∅ [] [] [] [] ∅ ∅ ∅ ∅ ∅ ∅ ∅ ∅ ∅ ∅ ∅
    [] ∅ ∅ 0 None ∅ None.

(** ** Field updates

    [eta_State] spells a state out field by field; [field_update] abstracts one
    projection in it, which gives the update of that field. *)
Definition eta_State (s : State) : State :=
  mkState (format_policy s) (format_receipts s) (current_cluster_id s) (artifact_origins s)
    (engine_time_watermark_ms s) (runs s) (scopes s) (activations s) (waits s) (inbox s)
    (commands s) (command_actors s) (command_external_ids s) (authenticated_request_digests s)
    (legacy_start_digests s) (worker_command_digests s) (published_catalogs s)
    (published_definitions s) (start_keys s) (command_results s) (loop_carry s) (foreach_items s)
    (foreach_done s) (parallel_done s) (history s) (history_records s) (history_dependencies s)
    (checkpoints s) (terminal_summaries s) (signal_tombstones s) (command_times s) (obligations s)
    (saga_errors s) (sessions s) (next_generation s) (fair_cursor s) (interventions s) (recovery s).

Lemma eta_State_id s : eta_State s = s.
Proof. by destruct s. Qed.

Ltac field_update eta proj :=
  let t := eval cbv beta delta [eta] in eta in
  let p := eval pattern proj in t in
  match p with
  | ?F _ => exact (λ g s, ltac:(let r := eval cbv beta in (F (λ x, g (proj x)) s) in exact r))
  end.

Notation upd T := ((T → T) → State → State).
Definition upd_cluster_id : upd string := ltac:(field_update eta_State current_cluster_id).
Definition upd_artifact_origins : upd (gset string) := ltac:(field_update eta_State artifact_origins).
Definition upd_watermark : upd Z := ltac:(field_update eta_State engine_time_watermark_ms).
Definition upd_runs : upd (gmap RunId.t RunState) := ltac:(field_update eta_State runs).
Definition upd_scopes : upd (gmap ScopeId.t ScopeState) := ltac:(field_update eta_State scopes).
Definition upd_activations : upd (gmap ActivationId.t ActivationState) :=
  ltac:(field_update eta_State activations).
Definition upd_waits : upd (gmap WaitId.t WaitState) := ltac:(field_update eta_State waits).
Definition upd_inbox : upd (list InboxEntry) := ltac:(field_update eta_State inbox).
Definition upd_commands : upd (gmap CommandId.t (list DomainEvent)) :=
  ltac:(field_update eta_State commands).
Definition upd_command_actors : upd (gmap CommandId.t string) :=
  ltac:(field_update eta_State command_actors).
Definition upd_command_external_ids : upd (gmap CommandId.t CommandId.t) :=
  ltac:(field_update eta_State command_external_ids).
Definition upd_request_digests : upd (gmap CommandId.t string) :=
  ltac:(field_update eta_State authenticated_request_digests).
Definition upd_legacy_start_digests : upd (gmap CommandId.t string) :=
  ltac:(field_update eta_State legacy_start_digests).
Definition upd_worker_digests : upd (gmap CommandId.t string) :=
  ltac:(field_update eta_State worker_command_digests).
Definition upd_loop_carry : upd (gmap ActivationId.t (Value * Z)) :=
  ltac:(field_update eta_State loop_carry).
Definition upd_foreach_done : upd (gmap ActivationId.t (list (Z * Value))) :=
  ltac:(field_update eta_State foreach_done).
Definition upd_parallel_done : upd (gmap ActivationId.t (list (string * Value))) :=
  ltac:(field_update eta_State parallel_done).
Definition upd_history : upd (gmap RunId.t (list DomainEvent)) := ltac:(field_update eta_State history).
Definition upd_history_records : upd (gmap RunId.t (list HistoryEntry)) :=
  ltac:(field_update eta_State history_records).
Definition upd_history_dependencies : upd (gmap RunId.t RequiredArtifacts) :=
  ltac:(field_update eta_State history_dependencies).
Definition upd_checkpoints : upd (gmap RunId.t RunCheckpoint) :=
  ltac:(field_update eta_State checkpoints).
Definition upd_signal_tombstones : upd (gmap string SignalTombstone) :=
  ltac:(field_update eta_State signal_tombstones).
Definition upd_command_times : upd (gmap CommandId.t Z) := ltac:(field_update eta_State command_times).
Definition upd_obligations : upd (list Obligation) := ltac:(field_update eta_State obligations).
Definition upd_saga_errors : upd (gmap ActivationId.t FailError) :=
  ltac:(field_update eta_State saga_errors).
Definition upd_sessions : upd (gmap WorkerSessionId.t WorkerSession) :=
  ltac:(field_update eta_State sessions).
Definition upd_next_generation : upd Z := ltac:(field_update eta_State next_generation).
Definition upd_fair_cursor : upd (option RunId.t) := ltac:(field_update eta_State fair_cursor).
Definition upd_interventions : upd (gmap ActivationId.t string) :=
  ltac:(field_update eta_State interventions).
Definition upd_recovery : upd (option RecoveryHold) := ltac:(field_update eta_State recovery).

Definition upd_command_results : upd (list (string * CommandResult)) :=
  ltac:(field_update eta_State command_results).
Definition upd_start_keys : upd (list (string * list (string * StartKeyRecord))) :=
  ltac:(field_update eta_State start_keys).
Definition upd_published_catalogs : upd (list (Z * PublishedCatalog)) :=
  ltac:(field_update eta_State published_catalogs).
Definition upd_published_definitions : upd (list (string * list (Z * PublishedDefinition))) :=
  ltac:(field_update eta_State published_definitions).
Definition upd_format_policy : upd FormatPolicy := ltac:(field_update eta_State format_policy).
Definition upd_format_receipts : upd (list (string * FormatReceipt)) :=
  ltac:(field_update eta_State format_receipts).
Definition upd_terminal_summaries : upd (gmap RunId.t TerminalSummary) :=
  ltac:(field_update eta_State terminal_summaries).
Definition upd_foreach_items : upd (gmap ActivationId.t (list Value)) :=
  ltac:(field_update eta_State foreach_items).

(** *** Updates of the other records *)
Definition run_with_status (status : RunStatus) (r : RunState) : RunState :=
  mkRunState (rs_id r) (rs_definition r) (rs_catalog r) (rs_input r) (rs_policy r) status (rs_root r)
    (rs_next_sequence r) (rs_next_ready_order r) (rs_admitted_ms r) (rs_terminal_ms r) (rs_published r).
Definition run_with_next_sequence (n : Z) (r : RunState) : RunState :=
  mkRunState (rs_id r) (rs_definition r) (rs_catalog r) (rs_input r) (rs_policy r) (rs_status r)
    (rs_root r) n (rs_next_ready_order r) (rs_admitted_ms r) (rs_terminal_ms r) (rs_published r).
Definition run_with_ready_order (n : Z) (r : RunState) : RunState :=
  mkRunState (rs_id r) (rs_definition r) (rs_catalog r) (rs_input r) (rs_policy r) (rs_status r)
    (rs_root r) (rs_next_sequence r) n (rs_admitted_ms r) (rs_terminal_ms r) (rs_published r).
Definition run_with_terminal_ms (n : Z) (r : RunState) : RunState :=
  mkRunState (rs_id r) (rs_definition r) (rs_catalog r) (rs_input r) (rs_policy r) (rs_status r)
    (rs_root r) (rs_next_sequence r) (rs_next_ready_order r) (rs_admitted_ms r) n (rs_published r).
Definition run_with_published (p : option PinnedPublication) (r : RunState) : RunState :=
  mkRunState (rs_id r) (rs_definition r) (rs_catalog r) (rs_input r) (rs_policy r) (rs_status r)
    (rs_root r) (rs_next_sequence r) (rs_next_ready_order r) (rs_admitted_ms r) (rs_terminal_ms r) p.

Definition scope_with_status (status : ScopeStatus) (s : ScopeState) : ScopeState :=
  mkScopeState (ss_id s) (ss_run s) (ss_parent s) (ss_role s) (ss_input s) status (ss_outputs s)
    (ss_current s).
Definition scope_with_outputs (outputs : list (string * Value)) (s : ScopeState) : ScopeState :=
  mkScopeState (ss_id s) (ss_run s) (ss_parent s) (ss_role s) (ss_input s) (ss_status s) outputs
    (ss_current s).
Definition scope_with_current (current : option string) (s : ScopeState) : ScopeState :=
  mkScopeState (ss_id s) (ss_run s) (ss_parent s) (ss_role s) (ss_input s) (ss_status s)
    (ss_outputs s) current.

Definition act_with_status (status : ActivationStatus) (a : ActivationState) : ActivationState :=
  mkActivationState (as_id a) (as_run a) (as_scope a) (as_node a) status (as_role a) (as_claim a)
    (as_attempts a) (as_ready_order a).
Definition act_with_claim (claim : option ClaimState) (a : ActivationState) : ActivationState :=
  mkActivationState (as_id a) (as_run a) (as_scope a) (as_node a) (as_status a) (as_role a) claim
    (as_attempts a) (as_ready_order a).
Definition act_with_attempts (n : Z) (a : ActivationState) : ActivationState :=
  mkActivationState (as_id a) (as_run a) (as_scope a) (as_node a) (as_status a) (as_role a)
    (as_claim a) n (as_ready_order a).

Definition claim_renewed (revision lease_expiry_ms : Z) (c : ClaimState) : ClaimState :=
  mkClaimState (cl_session c) (cl_generation c) revision lease_expiry_ms (cl_attempt_deadline_ms c)
    (cl_effect_key c) (cl_role c) (cl_probes c) (cl_unknown_reported c).
Definition claim_probed (probes : Z) (unknown : bool) (c : ClaimState) : ClaimState :=
  mkClaimState (cl_session c) (cl_generation c) (cl_revision c) (cl_lease_expiry_ms c)
    (cl_attempt_deadline_ms c) (cl_effect_key c) (cl_role c) probes unknown.

Definition wait_closed (w : WaitState) : WaitState :=
  mkWaitState (wt_id w) (wt_run w) (wt_activation w) (wt_signal w) (wt_key w) (wt_deadline_ms w)
    (wt_consume_from w) (wt_opened_sequence w) false.

Definition entry_with_reservation (r : option WaitId.t) (consumed : bool) (e : InboxEntry) : InboxEntry :=
  mkInboxEntry (ie_event_id e) (ie_signal e) (ie_key e) (ie_payload e) (ie_sequence e) r consumed
    (ie_accepted_ms e) (ie_expires_ms e) (ie_run e).

Definition obligation_with_status (status : ObligationStatus) (o : Obligation) : Obligation :=
  mkObligation (ob_forward o) (ob_run o) (ob_owner o) (ob_handler o) (ob_handler_version o)
    (ob_input o) status.
Definition obligation_with_input (input : Value) (o : Obligation) : Obligation :=
  mkObligation (ob_forward o) (ob_run o) (ob_owner o) (ob_handler o) (ob_handler_version o)
    input (ob_status o).
Definition obligation_with_owner (owner : ActivationId.t) (o : Obligation) : Obligation :=
  mkObligation (ob_forward o) (ob_run o) owner (ob_handler o) (ob_handler_version o)
    (ob_input o) (ob_status o).

Definition session_renewed (revision expires_ms : Z) (w : WorkerSession) : WorkerSession :=
  mkWorkerSession (ws_id w) (ws_activities w) (ws_capacity w) expires_ms (ws_principal_id w)
    (ws_capabilities w) revision (ws_protocol_min w) (ws_protocol_max w).

(** ** Status tests written as [matches!] in the code *)
Definition run_is_active (r : RunState) : bool :=
  match rs_status r with RunStatus_Active => true | _ => false end.
Definition scope_is_open (s : ScopeState) : bool :=
  match ss_status s with ScopeStatus_Open => true | _ => false end.
Definition scope_failure (s : ScopeState) : option FailError :=
  match ss_status s with ScopeStatus_Failed e => Some e | _ => None end.
Definition is_root_role (r : ScopeRole) : bool :=
  match r with ScopeRole_Root => true | _ => false end.
Definition is_compensating (o : Obligation) : bool :=
  match ob_status o with ObligationStatus_Compensating _ => true | _ => false end.
Definition is_compensating_with (activation : ActivationId.t) (o : Obligation) : bool :=
  match ob_status o with
  | ObligationStatus_Compensating current => bool_decide (current = activation)
  | _ => false
  end.
Definition is_open_obligation (o : Obligation) : bool :=
  match ob_status o with ObligationStatus_Open => true | _ => false end.
Definition is_blocked (o : Obligation) : bool :=
  match ob_status o with ObligationStatus_Blocked _ => true | _ => false end.
Definition is_irreversible (o : Obligation) : bool :=
  match ob_status o with ObligationStatus_Irreversible _ => true | _ => false end.
