(* ===== verification/Eval.v ===== *)
(** * Bindings, conditions and region lookup

    The evaluator of [domain.rs]: [eval_binding], [eval_condition] and the
    evaluation context, and the walk from a scope to the region of the
    definition that it executes. *)
From stdpp Require Import base option gmap strings list.
From Stdlib Require Import ZArith Ascii Lia.
From S2P Require Import Prelude Value Ids Policy Catalog Ir Domain.

Record EvalCtx := mkEvalCtx {
  ctx_workflow_input : Value;
  ctx_scope_input : Value;
  ctx_scope_id : string;
  ctx_node_outputs : list (string * Value);
  ctx_loop_state : option Value;
  ctx_loop_index : option Z;
  ctx_item_value : option Value;
  ctx_item_index : option Z;
  ctx_forward_input : option Value;
  ctx_forward_output : option Value;
}.

Definition ctx_with_loop (state : Value) (index : Z) (c : EvalCtx) : EvalCtx :=
  mkEvalCtx (ctx_workflow_input c) (ctx_scope_input c) (ctx_scope_id c) (ctx_node_outputs c)
    (Some state) (Some index) (ctx_item_value c) (ctx_item_index c) (ctx_forward_input c)
    (ctx_forward_output c).

Definition ctx_with_forward (input : option Value) (output : Value) (c : EvalCtx) : EvalCtx :=
  mkEvalCtx (ctx_workflow_input c) (ctx_scope_input c) (ctx_scope_id c) (ctx_node_outputs c)
    (ctx_loop_state c) (ctx_loop_index c) (ctx_item_value c) (ctx_item_index c) input (Some output).

Definition eval_ref (reference : Reference) (ctx : EvalCtx) : Outcome Value :=
  match reference with
  | Reference_WorkflowInput => Ok (ctx_workflow_input ctx)
  | Reference_ScopeInput => Ok (ctx_scope_input ctx)
  | Reference_ScopeId => Ok (VString (ctx_scope_id ctx))
  | Reference_NodeOutput node =>
      ok_or (bt_get node (ctx_node_outputs ctx)) (error_invalid ("missing output " +:+ node))
  | Reference_LoopState => ok_or (ctx_loop_state ctx) (error_invalid "loop.state is not in context")
  | Reference_LoopIndex =>
      i ← ok_or (ctx_loop_index ctx) (error_invalid "loop.index is not in context"); Ok (VInt i)
  | Reference_ItemValue => ok_or (ctx_item_value ctx) (error_invalid "item.value is not in context")
  | Reference_ItemIndex =>
      i ← ok_or (ctx_item_index ctx) (error_invalid "item.index is not in context"); Ok (VInt i)
  | Reference_ForwardInput =>
      ok_or (ctx_forward_input ctx) (error_invalid "forward.input is not in context")
  | Reference_ForwardOutput =>
      ok_or (ctx_forward_output ctx) (error_invalid "forward.output is not in context")
  end.

Fixpoint eval_binding (binding : Binding) (ctx : EvalCtx) : Outcome Value :=
  match binding with
  | Binding_Literal value => Ok value
  | Binding_From reference path =>
      value ← eval_ref reference ctx;
      match path with
      | Some p => pointer value p
      | None => Ok value
      end
  | Binding_Object fields =>
      out ← outcome_map (λ '(k, v), x ← eval_binding v ctx; Ok (k, x)) fields;
      Ok (VObject (foldl (λ m '(k, x), str_insert k x m) [] out))
  | Binding_Array items =>
      out ← outcome_map (λ item, eval_binding item ctx) items;
      Ok (VArray out)
  end.

Definition cmp_num (left right : Binding) (ctx : EvalCtx) (op : Z → Z → bool) : Outcome bool :=
  l ← eval_binding left ctx;
  match l with
  | VInt a =>
      r ← eval_binding right ctx;
      match r with
      | VInt b => Ok (op a b)
      | _ => fail! "numeric comparison requires integers"
      end
  | _ => fail! "numeric comparison requires integers"
  end.

(** The loops of [Condition::All] and [Condition::Any]: stop at the first item
    that decides, or at the first failure. *)
Section AllAny.
Context {A : Type} (f : A → Outcome bool).
Fixpoint all_until (l : list A) : Outcome bool :=
  match l with
  | [] => Ok true
  | x :: l => b ← f x; if b : bool then all_until l else Ok false
  end.
Fixpoint any_until (l : list A) : Outcome bool :=
  match l with
  | [] => Ok false
  | x :: l => b ← f x; if b : bool then Ok true else any_until l
  end.
End AllAny.

Fixpoint eval_condition (condition : Condition) (ctx : EvalCtx) : Outcome bool :=
  match condition with
  | Condition_Eq lhs rhs =>
      l ← eval_binding lhs ctx; r ← eval_binding rhs ctx; Ok (bool_decide (l = r))
  | Condition_Ne lhs rhs =>
      l ← eval_binding lhs ctx; r ← eval_binding rhs ctx; Ok (negb (bool_decide (l = r)))
  | Condition_Lt lhs rhs => cmp_num lhs rhs ctx Z.ltb
  | Condition_Le lhs rhs => cmp_num lhs rhs ctx Z.leb
  | Condition_Gt lhs rhs => cmp_num lhs rhs ctx Z.gtb
  | Condition_Ge lhs rhs => cmp_num lhs rhs ctx Z.geb
  | Condition_All items => all_until (λ item, eval_condition item ctx) items
  | Condition_Any items => any_until (λ item, eval_condition item ctx) items
  | Condition_Not inner => b ← eval_condition inner ctx; Ok (negb b)
  | Condition_Exists binding =>
      match eval_binding binding ctx with
      | Ok _ => Ok true
      | Err _ => Ok false
      | Panic w => Panic w
      end
  end.

Definition eval_duration_ms (binding : Binding) (ctx : EvalCtx) : Outcome Z :=
  value ← eval_binding binding ctx;
  match value with
  | VInt v => if 0 <? v then Ok v else fail! "duration must be a positive integer ms or string"
  | VString text => d ← parse_duration text; duration_to_millis d
  | _ => fail! "duration must be a positive integer ms or string"
  end.

Section Context.
Context `{Platform}.

Definition eval_ctx (state : State) (scope : ScopeState) : Outcome EvalCtx :=
  run ← unwrap "run of scope" (runs state !! ss_run scope);
  let '(loop_state, loop_index, item_value, item_index) :=
    match ss_role scope with
    | ScopeRole_LoopBody activation index =>
        let carry := match loop_carry state !! activation with
                     | Some (v, _) => v
                     | None => ss_input scope
                     end in
        (Some carry, Some index, None, None)
    | ScopeRole_ForeachItem _ index => (None, None, Some (ss_input scope), Some index)
    | _ => (None, None, None, None)
    end in
  Ok (mkEvalCtx (rs_input run) (ss_input scope) (ScopeId.to_hex (ss_id scope)) (ss_outputs scope)
        loop_state loop_index item_value item_index None None).
End Context.

(** ** From a scope to its region

    [lookup_region] recurses from a scope to the scope of the activation that
    opened it. The code's recursion is bounded by the depth of the scope tree;
    the model bounds it by the number of scopes, which [RegionFacts] shows is enough. *)

(** The activation named in a scope's role. *)
Definition role_activation (role : ScopeRole) : option ActivationId.t :=
  match role with
  | ScopeRole_Root => None
  | ScopeRole_LoopBody a _ | ScopeRole_ForeachItem a _ | ScopeRole_ParallelBranch a _
  | ScopeRole_ChooseBody a _ | ScopeRole_SagaBody a => Some a
  end.

(** The child region that a role selects in the parent's node. *)
Definition child_region (role : ScopeRole) (node : Node) : option Region :=
  match role with
  | ScopeRole_Root => None
  | ScopeRole_LoopBody _ _ | ScopeRole_ForeachItem _ _ | ScopeRole_SagaBody _ =>
      match node with
      | Node_While _ _ _ _ body _ | Node_DoWhile _ _ _ _ body _ | Node_Repeat _ _ _ _ body _
      | Node_Foreach _ _ _ _ body _ | Node_Saga _ body _ => Some body
      | _ => None
      end
  | ScopeRole_ParallelBranch _ name =>
      match node with
      | Node_Parallel branches _ =>
          branch_body <$> lfind (λ b, bool_decide (branch_name b = name)) branches
      | _ => None
      end
  | ScopeRole_ChooseBody _ name =>
      match node with
      | Node_Choose _ cases default _ =>
          if bool_decide (name = "default") then Some default
          else case_body <$> lfind (λ c, bool_decide (case_name c = name)) cases
      | _ => None
      end
  end.

Fixpoint lookup_region_fuel (fuel : nat) (state : State) (scope : ScopeId.t) : option Region :=
  match fuel with
  | O => None
  | S fuel =>
      scope_state ← scopes state !! scope;
      run ← runs state !! ss_run scope_state;
      match role_activation (ss_role scope_state) with
      | None => Some (def_root (rs_definition run))
      | Some activation =>
          parent ← activations state !! activation;
          parent_region ← lookup_region_fuel fuel state (as_scope parent);
          node ← region_node parent_region (as_node parent);
          child_region (ss_role scope_state) node
      end
  end.

Definition lookup_region (state : State) (scope : ScopeId.t) : option Region :=
  lookup_region_fuel (S (size (scopes state))) state scope.

Definition region_for_scope (state : State) (scope : ScopeId.t) : option Region :=
  lookup_region state scope.

(** The node an activation stands on. *)
Definition activation_node (state : State) (act : ActivationState) : option Node :=
  region ← region_for_scope state (as_scope act); region_node region (as_node act).

Definition is_activity_node (state : State) (scope : ScopeId.t) (node : string) : bool :=
  match region ← lookup_region state scope; region_node region node with
  | Some (Node_Activity _ _ _ _ _ _) => true
  | _ => false
  end.

Definition act_input_binding (region : Region) (node : string) : option Binding :=
  n ← region_node region node;
  match n with Node_Activity _ input _ _ _ _ => Some input | _ => None end.

(** ** The owning saga: the same walk, stopping at a saga body. *)
Fixpoint saga_owner_fuel (fuel : nat) (state : State) (scope_id : ScopeId.t)
    (skip : option ActivationId.t) : option ActivationId.t :=
  match fuel with
  | O => None
  | S fuel =>
      scope ← scopes state !! scope_id;
      let continue_ :=
        parent_act ← ss_parent scope;
        parent ← activations state !! parent_act;
        saga_owner_fuel fuel state (as_scope parent) skip in
      match ss_role scope with
      | ScopeRole_SagaBody activation =>
          if bool_decide (skip = Some activation) then continue_ else Some activation
      | _ => continue_
      end
  end.

Definition saga_owner_from_scope (state : State) (scope_id : ScopeId.t) (skip : option ActivationId.t) :
    option ActivationId.t :=
  saga_owner_fuel (S (size (scopes state))) state scope_id skip.

Definition parent_saga (state : State) (saga : ActivationId.t) : option ActivationId.t :=
  act ← activations state !! saga;
  saga_owner_from_scope state (as_scope act) (Some saga).

Definition saga_owner (state : State) (forward : ActivationId.t) : option ActivationId.t :=
  act ← activations state !! forward;
  saga_owner_from_scope state (as_scope act) None.
