(* ===== verification/Evolve.v ===== *)
(** * Applying events to the state

    [evolve] of [domain.rs], one definition per event. It is total on the
    events the code emits; the two [expect]s on a missing run are panics here. *)
From stdpp Require Import base option gmap strings list.
From Stdlib Require Import ZArith Ascii Lia.
From S2P Require Import Prelude Value Ids Policy Catalog Ir Domain Eval.

Section Evolve.
Context `{Platform}.
Implicit Types state : State.

Definition evolve_run_admitted state (run : RunId.t) (input : Value) (root : ScopeId.t)
    (policy : CapturedRunPolicy) (admitted_ms : Z) : State :=
  upd_runs (alter (λ r, mkRunState (rs_id r) (rs_definition r) (rs_catalog r) input policy
    RunStatus_Active root (rs_next_sequence r) (rs_next_ready_order r) admitted_ms
    (rs_terminal_ms r) (rs_published r)) run) state.

Definition evolve_scope_opened state (run : RunId.t) (scope : ScopeId.t)
    (parent : option ActivationId.t) (role : ScopeRole) (input : Value) : State :=
  let state := upd_scopes (insert scope
    (mkScopeState scope run parent role input ScopeStatus_Open [] None)) state in
  match role with
  | ScopeRole_LoopBody activation index => upd_loop_carry (insert activation (input, index)) state
  | _ => state
  end.

(** [slot.iter_mut().find(index)] or push. *)
Definition foreach_record (index : Z) (output : Value) (slot : list (Z * Value)) : list (Z * Value) :=
  if existsb (λ '(i, _), i =? index) slot
  then update_first (λ '(i, _), i =? index) (λ '(i, _), (i, output)) slot
  else slot ++ [(index, output)].

Definition evolve_scope_completed state (scope : ScopeId.t) (output : Value) : State :=
  let state := upd_activations (fmap (λ act,
    if bool_decide (as_scope act = scope) then act_with_status ActivationStatus_Succeeded act
    else act)) state in
  match scopes state !! scope with
  | None => state
  | Some scope_state =>
      let state := upd_scopes (insert scope
        (scope_with_status (ScopeStatus_Completed output) scope_state)) state in
      match ss_role scope_state with
      | ScopeRole_ForeachItem activation index =>
          upd_foreach_done (partial_alter (λ slot, Some (foreach_record index output (default [] slot)))
            activation) state
      | ScopeRole_ParallelBranch activation name =>
          upd_parallel_done (partial_alter (λ slot,
            let slot := default [] slot in
            Some (if bt_contains name slot then slot else str_insert name output slot)) activation) state
      | ScopeRole_LoopBody activation index =>
          upd_loop_carry (insert activation (output, wrap32 (index + 1))) state
      | _ => state
      end
  end.

Definition evolve_scope_failed state (scope : ScopeId.t) (error : FailError) : State :=
  let state := upd_scopes (alter (scope_with_status (ScopeStatus_Failed error)) scope) state in
  upd_activations (fmap (λ act,
    if bool_decide (as_scope act = scope) &&
       negb (bool_decide (as_status act = ActivationStatus_Succeeded))
    then act_with_status ActivationStatus_Failed act else act)) state.

Definition evolve_activation_opened state (run : RunId.t) (scope : ScopeId.t)
    (activation : ActivationId.t) (node : string) : Outcome State :=
  let ready := is_activity_node state scope node in
  run_state ← unwrap "activation run missing" (runs state !! run);
  let ready_order := sat_add64 (rs_next_ready_order run_state) 1 in
  let state := upd_runs (insert run (run_with_ready_order ready_order run_state)) state in
  let state := upd_activations (insert activation
    (mkActivationState activation run scope node
       (if ready then ActivationStatus_Ready else ActivationStatus_Open)
       ExecutionRole_Forward None 0 ready_order)) state in
  Ok (upd_scopes (alter (scope_with_current (Some node)) scope) state).

Definition evolve_node_output_recorded state (scope : ScopeId.t) (node : string) (output : Value) : State :=
  let state := upd_scopes (alter (λ s, scope_with_outputs (str_insert node output (ss_outputs s)) s)
    scope) state in
  upd_activations (fmap (λ act,
    if bool_decide (as_scope act = scope) && bool_decide (as_node act = node) &&
       (bool_decide (as_status act = ActivationStatus_Open) ||
        bool_decide (as_status act = ActivationStatus_Ready))
    then act_with_status ActivationStatus_Succeeded act else act)) state.

Definition evolve_guard_recorded state (activation : ActivationId.t) (index : Z) (carry : Value) : State :=
  upd_loop_carry (insert activation (carry, index)) state.

Definition evolve_leaf_failed state (activation : ActivationId.t) (retry : bool) : State :=
  upd_activations (alter (λ act,
    if retry then act_with_claim None (act_with_status ActivationStatus_Ready act)
    else act_with_status ActivationStatus_Failed act) activation) state.

Definition evolve_leaf_succeeded state (activation : ActivationId.t) (role : ExecutionRole) : State :=
  let state := upd_activations (alter (act_with_status ActivationStatus_Succeeded) activation) state in
  if bool_decide (role = ExecutionRole_Compensation)
  then upd_obligations (update_first (is_compensating_with activation)
         (obligation_with_status ObligationStatus_Compensated)) state
  else state.

Definition evolve_wait_opened state (run : RunId.t) (wait : WaitId.t) (activation : ActivationId.t)
    (signal key : string) (deadline_ms : option Z) (consume_from : ConsumeFrom) : State :=
  let seq := match runs state !! run with Some r => rs_next_sequence r | None => 0 end in
  let state := upd_waits (insert wait
    (mkWaitState wait run activation signal key deadline_ms consume_from seq true)) state in
  upd_activations (alter (act_with_status ActivationStatus_Ready) activation) state.

Definition evolve_wait_satisfied state (run : RunId.t) (wait : WaitId.t) (event_id : EventId.t) : State :=
  let state := upd_waits (alter wait_closed wait) state in
  let state := match waits state !! wait with
    | Some w => upd_activations (alter (act_with_status ActivationStatus_Succeeded) (wt_activation w)) state
    | None => state
    end in
  upd_inbox (update_first
    (λ e, bool_decide (ie_run e = Some run) && bool_decide (ie_event_id e = event_id))
    (entry_with_reservation (Some wait) true)) state.

Definition evolve_wait_timed_out state (wait : WaitId.t) : State :=
  let state := upd_waits (alter wait_closed wait) state in
  match waits state !! wait with
  | Some w => upd_activations (alter (act_with_status ActivationStatus_Succeeded) (wt_activation w)) state
  | None => state
  end.

Definition evolve_wait_cancelled state (wait : WaitId.t) : State :=
  match waits state !! wait with
  | Some w =>
      let state := upd_waits (insert wait (wait_closed w)) state in
      upd_activations (alter (act_with_status ActivationStatus_Failed) (wt_activation w)) state
  | None => state
  end.

Definition evolve_event_accepted state (run : RunId.t) (event_id : EventId.t) (signal key : string)
    (payload : Value) (sequence accepted_ms expires_ms : Z) : State :=
  let state := upd_inbox (λ l, l ++ [mkInboxEntry event_id signal key payload sequence None false
    accepted_ms expires_ms (Some run)]) state in
  upd_runs (alter (run_with_next_sequence (wrap64 (sequence + 1))) run) state.

Definition evolve_event_expired state (run : RunId.t) (event_id : EventId.t) : State :=
  upd_inbox (List.filter (λ e,
    negb (bool_decide (ie_run e = Some run)) || negb (bool_decide (ie_event_id e = event_id)))) state.

Definition for_forward (forward : ActivationId.t) (o : Obligation) : bool :=
  bool_decide (ob_forward o = forward).

Definition evolve_obligation_registered state (run : RunId.t) (forward : ActivationId.t)
    (handler : string) (handler_version : Z) (input : Value) : State :=
  if existsb (for_forward forward) (obligations state)
  then upd_obligations (update_first (for_forward forward)
         (λ o, obligation_with_status ObligationStatus_Open (obligation_with_input input o))) state
  else
    let owner := default forward (saga_owner state forward) in
    upd_obligations (λ l, l ++ [mkObligation forward run owner handler handler_version input
      ObligationStatus_Open]) state.

Definition evolve_compensation_started state (run : RunId.t) (saga forward activation : ActivationId.t)
    (error : FailError) : Outcome State :=
  let state := upd_saga_errors (insert saga error) state in
  let state := upd_obligations (update_first (for_forward forward)
    (obligation_with_status (ObligationStatus_Compensating activation))) state in
  let scope := match activations state !! saga with
    | Some act => Some (as_scope act)
    | None => ss_id <$> lfind (λ s, bool_decide (ss_run s = run)) (hm_values (scopes state))
    end in
  match scope with
  | None => Ok state
  | Some scope =>
      run_state ← unwrap "compensation run missing" (runs state !! run);
      let ready_order := sat_add64 (rs_next_ready_order run_state) 1 in
      let state := upd_runs (insert run (run_with_ready_order ready_order run_state)) state in
      Ok (upd_activations (insert activation
        (mkActivationState activation run scope "__compensate" ActivationStatus_Ready
           ExecutionRole_Compensation None 0 ready_order)) state)
  end.

Definition evolve_obligation_transferred state (forward to_saga : ActivationId.t) : State :=
  upd_obligations (update_first (for_forward forward) (obligation_with_owner to_saga)) state.

Definition evolve_obligation_released state (forward : ActivationId.t) : State :=
  upd_obligations (update_first (for_forward forward)
    (obligation_with_status ObligationStatus_Released)) state.

Definition evolve_obligation_blocked state (run : RunId.t) (forward : ActivationId.t)
    (handler : string) (handler_version : Z) (reason : string) : State :=
  let status := if bool_decide (handler = "irreversible") then ObligationStatus_Irreversible reason
                else ObligationStatus_Blocked reason in
  if existsb (for_forward forward) (obligations state)
  then upd_obligations (update_first (for_forward forward) (obligation_with_status status)) state
  else
    let owner := default forward (saga_owner state forward) in
    upd_obligations (λ l, l ++ [mkObligation forward run owner handler handler_version VNull status]) state.

(** [entry.run == run && entry.event_id == event_id], for the run of a wait. *)
Definition entry_of_wait state (wait : WaitId.t) (event_id : EventId.t) (e : InboxEntry) : bool :=
  bool_decide (ie_run e = (wt_run <$> waits state !! wait)) && bool_decide (ie_event_id e = event_id).

Definition evolve_event_reserved state (wait : WaitId.t) (event_id : EventId.t) : State :=
  upd_inbox (update_first (entry_of_wait state wait event_id)
    (λ e, entry_with_reservation (Some wait) (ie_consumed e) e)) state.

Definition evolve_reservation_released state (wait : WaitId.t) (event_id : EventId.t) : State :=
  upd_inbox (update_first (entry_of_wait state wait event_id)
    (λ e, entry_with_reservation None (ie_consumed e) e)) state.

Definition evolve_session_registered state (session : WorkerSessionId.t) (activities : list string)
    (capacity expires_ms : Z) : State :=
  upd_sessions (insert session (mkWorkerSession session activities capacity expires_ms "" [] 0 0 0)) state.

Definition evolve_worker_registered state (session : WorkerSessionId.t) (principal_id : string)
    (capabilities : list WorkerCapability) (capacity protocol_min protocol_max expires_ms : Z) : State :=
  upd_sessions (insert session (mkWorkerSession session [] capacity expires_ms principal_id
    capabilities 1 protocol_min protocol_max)) state.

Definition evolve_worker_session_renewed state (session : WorkerSessionId.t) (revision expires_ms : Z) : State :=
  upd_sessions (alter (session_renewed revision expires_ms) session) state.

Definition evolve_claim_granted state (run : RunId.t) (activation : ActivationId.t)
    (session : WorkerSessionId.t) (generation revision lease_expiry_ms attempt_deadline_ms : Z)
    (effect_key : EffectKey.t) (role : ExecutionRole) : State :=
  let state := upd_next_generation (λ n, sat_add64 n 1) state in
  let state := upd_fair_cursor (λ _, Some run) state in
  upd_activations (alter (λ act,
    let probes := if bool_decide (role = ExecutionRole_Reconciliation)
                  then match as_claim act with Some c => cl_probes c | None => 0 end else 0 in
    act_with_attempts (sat_add32 (as_attempts act) 1)
      (act_with_claim (Some (mkClaimState session generation revision lease_expiry_ms
         attempt_deadline_ms effect_key role probes false)) act)) activation) state.

Definition evolve_claim_renewed state (activation : ActivationId.t) (revision lease_expiry_ms : Z) : State :=
  upd_activations (alter (λ act,
    act_with_claim (claim_renewed revision lease_expiry_ms <$> as_claim act) act) activation) state.

Definition evolve_claim_cleared state (activation : ActivationId.t) : State :=
  upd_activations (alter (act_with_claim None) activation) state.

Definition evolve_reconciliation_recorded state (activation : ActivationId.t)
    (outcome : ReconcileOutcome) (probes : Z) : State :=
  upd_activations (alter (λ act,
    act_with_claim ((λ c, claim_probed probes
      (if bool_decide (outcome = ReconcileOutcome_Unknown) then true else cl_unknown_reported c) c)
      <$> as_claim act) act) activation) state.

Definition evolve_run_failed state (run : RunId.t) (error : FailError) : State :=
  let state := upd_runs (alter (run_with_status (RunStatus_Failed error)) run) state in
  let state := upd_scopes (fmap (λ s,
    if bool_decide (ss_run s = run) && scope_is_open s
    then scope_with_status (ScopeStatus_Failed error) s else s)) state in
  upd_activations (fmap (λ act,
    if bool_decide (as_run act = run) &&
       negb (bool_decide (as_status act = ActivationStatus_Succeeded))
    then act_with_status ActivationStatus_Failed act else act)) state.

Definition evolve_compensation_abandoned state (run : RunId.t) (unresolved : list ActivationId.t) : State :=
  let state := upd_obligations (fmap (λ o,
    if bool_decide (ob_run o = run) && bool_decide (ob_forward o ∈ unresolved)
    then obligation_with_status ObligationStatus_Abandoned o else o)) state in
  upd_activations (fmap (λ act,
    if bool_decide (as_run act = run) then act_with_claim None act else act)) state.

Definition evolve state (event : DomainEvent) : Outcome State :=
  match event with
  | RunAdmitted run _ _ input root policy admitted_ms =>
      Ok (evolve_run_admitted state run input root policy admitted_ms)
  | ScopeOpened run scope parent role input => Ok (evolve_scope_opened state run scope parent role input)
  | ScopeCompleted _ scope output => Ok (evolve_scope_completed state scope output)
  | ScopeFailed _ scope error => Ok (evolve_scope_failed state scope error)
  | ActivationOpened run scope activation node => evolve_activation_opened state run scope activation node
  | NodeOutputRecorded _ scope node output => Ok (evolve_node_output_recorded state scope node output)
  | GuardRecorded _ activation _ index carry => Ok (evolve_guard_recorded state activation index carry)
  | LeafFailed _ activation _ _ _ retry => Ok (evolve_leaf_failed state activation retry)
  | LeafSucceeded _ activation _ _ role => Ok (evolve_leaf_succeeded state activation role)
  | WaitOpened run wait activation signal key deadline_ms consume_from =>
      Ok (evolve_wait_opened state run wait activation signal key deadline_ms consume_from)
  | WaitSatisfied run wait event_id _ => Ok (evolve_wait_satisfied state run wait event_id)
  | WaitTimedOut _ wait => Ok (evolve_wait_timed_out state wait)
  | WaitCancelled _ wait => Ok (evolve_wait_cancelled state wait)
  | EventAccepted run event_id signal key payload sequence accepted_ms expires_ms =>
      Ok (evolve_event_accepted state run event_id signal key payload sequence accepted_ms expires_ms)
  | EventExpired run event_id => Ok (evolve_event_expired state run event_id)
  | ObligationRegistered run forward handler handler_version input =>
      Ok (evolve_obligation_registered state run forward handler handler_version input)
  | CompensationStarted run saga forward activation _ _ _ error =>
      evolve_compensation_started state run saga forward activation error
  | ObligationTransferred forward _ to_saga => Ok (evolve_obligation_transferred state forward to_saga)
  | ObligationReleased _ forward => Ok (evolve_obligation_released state forward)
  | ObligationBlocked run forward handler handler_version reason =>
      Ok (evolve_obligation_blocked state run forward handler handler_version reason)
  | EventReserved wait event_id => Ok (evolve_event_reserved state wait event_id)
  | ReservationReleased wait event_id => Ok (evolve_reservation_released state wait event_id)
  | SessionRegistered session activities capacity expires_ms =>
      Ok (evolve_session_registered state session activities capacity expires_ms)
  | WorkerRegistered session principal_id capabilities capacity protocol_min protocol_max expires_ms =>
      Ok (evolve_worker_registered state session principal_id capabilities capacity protocol_min
            protocol_max expires_ms)
  | WorkerSessionRenewed session revision expires_ms =>
      Ok (evolve_worker_session_renewed state session revision expires_ms)
  | ClaimGranted run _ activation _ _ _ _ session generation revision lease_expiry_ms
      attempt_deadline_ms effect_key role =>
      Ok (evolve_claim_granted state run activation session generation revision lease_expiry_ms
            attempt_deadline_ms effect_key role)
  | ClaimRenewed activation _ _ revision lease_expiry_ms =>
      Ok (evolve_claim_renewed state activation revision lease_expiry_ms)
  | ClaimCleared activation => Ok (evolve_claim_cleared state activation)
  | ReconciliationFailed _ _ _ _ => Ok state
  | ReconciliationRecorded _ activation outcome _ probes =>
      Ok (evolve_reconciliation_recorded state activation outcome probes)
  | InterventionRequired _ activation reason => Ok (upd_interventions (insert activation reason) state)
  | RunSucceeded run output => Ok (upd_runs (alter (run_with_status (RunStatus_Succeeded output)) run) state)
  | RunFailed run error => Ok (evolve_run_failed state run error)
  | RecoveryAuthorized _ => Ok (upd_recovery (fmap (λ h, mkRecoveryHold (rh_reason h) true)) state)
  | AbortIntent _ saga error => Ok (upd_saga_errors (insert saga error) state)
  | CompensationAbandoned run _ unresolved => Ok (evolve_compensation_abandoned state run unresolved)
  end.
End Evolve.
