(* ===== verification/History.v ===== *)
(** * Recorded history

    [history.rs] (artifact references, the per-run event log, reconstruction and
    checkpoints) with the functions of [domain.rs] it is mutually used with:
    [activity_key], [event_owner], [apply_events] and [reconstruct_in]. *)
From stdpp Require Import base option gmap strings list.
From Stdlib Require Import ZArith Ascii Lia.
From S2P Require Import Prelude Value Ids Policy Catalog Ir Domain Eval Evolve.

(** The JSON that [serde] derives for the types the engine hashes; [inl] is a
    serialization error. *)
Class Serde := {
  schema_ref_to_value : SchemaRef → string + Json;
  definition_to_value : Definition_ → string + Json;
  catalog_to_value : Catalog → string + Json;
  policy_to_value : CapturedRunPolicy → string + Json;
  event_to_value : DomainEvent → string + Json;
  projection_to_value : Z * State → string + Json;
  body_to_value : CommandBody → string + Json;
  start_to_value : Definition_ * Value * Catalog → string + Json;
}.

Definition EVENT_FORMAT : string := "graphrun.run-event/v1".
Definition CHECKPOINT_FORMAT : string := "graphrun.run-checkpoint/v2".
Definition ARTIFACT_FORMAT : string := "graphrun-artifact/v1".
Definition DAY_MS : Z := 24 * 60 * 60 * 1000.
Definition PAGE_LIMIT : Z := 100.
Definition MAX_PAGE_LIMIT : Z := 1000.
Definition MAX_NORMALIZED_BYTES : Z := 256 * 1024.
Definition PUBLIC_COMMAND_ENVELOPE : Z := 1024 * 1024.

Definition unavailable (message : string) : Error := error_new Unavailable message.
Definition failed_precondition (message : string) : Error := error_new FailedPrecondition message.

(** The NUL byte that separates hashed segments. *)
Definition nul : string := String "000" "".
Definition zlen_string (s : string) : Z := Z.of_nat (String.length s).

Section History.
Context `{Platform} `{CatalogSerde} `{Serde}.
Implicit Types state : State.

(** ** Artifact references *)
Definition from_serde (err : string → Error) (j : string + Json) : Outcome Json :=
  match j with inl e => Err (err e) | inr j => Ok j end.

Definition validate_identity (a : ArtifactRef) : Outcome unit :=
  if negb (bool_decide (ar_format a = ARTIFACT_FORMAT))
     || negb (is_ok (ClusterId.from_hex (ar_cluster_id a)))
     || negb (zlen_string (ar_sha256 a) =? 64)
     || bool_decide (hex_decode (ar_sha256 a) = None)
  then Err (unavailable "retained artifact has an unsupported origin or digest")
  else Ok tt.

Definition capture_in (cluster_id schema : string) (value : string + Json) : Outcome ArtifactRef :=
  if bool_decide (cluster_id = "")
  then Err (failed_precondition "artifact origin cluster ID is required")
  else
    _ ← map_err (λ e, failed_precondition (err_message e)) (ClusterId.from_hex cluster_id);
    json ← from_serde failed_precondition value;
    bytes ← map_err (λ e, failed_precondition (err_message e)) (canonical_json json);
    Ok (mkArtifactRef cluster_id ARTIFACT_FORMAT schema (zlen_string bytes)
          (hex_encode (sha256 (ARTIFACT_FORMAT +:+ nul +:+ schema +:+ nul +:+ bytes)))).

Definition artifact_verify (a : ArtifactRef) (schema : string) (value : string + Json) : Outcome unit :=
  expected ← map_err (λ e, unavailable (err_message e)) (capture_in (ar_cluster_id a) schema value);
  if bool_decide (a = expected) then Ok tt
  else Err (unavailable "missing, corrupt or unsupported retained artifact").

Definition capture_required (run : RunState) (cluster_id : string) : Outcome RequiredArtifacts :=
  let cat := rs_catalog run in
  schemas ← outcome_map (λ '(key, schema),
    let key := schema_key_stable_name key in
    a ← capture_in cluster_id ("graphrun.schema/" +:+ key) (inr schema); Ok (key, a)) (cat_schemas cat);
  activities ← outcome_map (λ '(key, contract),
    let key := "activity/" +:+ activity_key_stable_name key in
    a ← capture_in cluster_id ("graphrun.contract/" +:+ key) (inr (contract_to_value contract));
    Ok (key, a)) (cat_activities cat);
  reconcilers ← outcome_map (λ '(key, contract),
    let key := "reconciler/" +:+ activity_key_stable_name key in
    a ← capture_in cluster_id ("graphrun.contract/" +:+ key) (inr (reconciler_to_value contract));
    Ok (key, a)) (cat_reconcilers cat);
  definition ← capture_in cluster_id "graphrun.definition/v1" (definition_to_value (rs_definition run));
  catalog ← capture_in cluster_id "graphrun.catalog/v1" (catalog_to_value cat);
  policy ← capture_in cluster_id "graphrun.run-policy/v1" (policy_to_value (rs_policy run));
  let insert_all := foldl (λ m '(k, a), str_insert k a m) [] in
  Ok (mkRequiredArtifacts definition catalog policy (insert_all schemas)
        (insert_all (activities ++ reconcilers))).

(** [compiler.rs], [digest_of]: the definition without its digest field. *)
Definition digest_of (definition : Definition_) : Outcome string :=
  value ← from_serde (λ e, error_invalid ("canonicalize: " +:+ e)) (definition_to_value definition);
  let value := match value with
    | JObject m => JObject (List.filter (λ kv, negb (bool_decide (kv.1 = "digest"))) m)
    | other => other
    end in
  bytes ← canonical_json value;
  if MAX_NORMALIZED_BYTES <? zlen_string bytes then fail! "normalized definition exceeds 256 KiB"
  else Ok (hex_encode (sha256 bytes)).

(** [publication.rs], [canonical_bytes] and [digest]. *)
Definition canonical_bytes (value : string + Json) (limit : Z) : Outcome string :=
  json ← from_serde error_invalid value;
  bytes ← canonical_json json;
  if limit <? zlen_string bytes
  then Err (error_new ResourceExhausted ("published payload exceeds " +:+ show_Z limit +:+ " bytes"))
  else Ok bytes.

Definition publication_digest (value : string + Json) (limit : Z) : Outcome string :=
  bytes ← canonical_bytes value limit; Ok (hex_encode (sha256 bytes)).

Definition pinned_verify (p : PinnedPublication) (definition : Definition_) (catalog : Catalog) :
    Outcome unit :=
  let corrupt := Err (failed_precondition "pinned history artifact unavailable or corrupt") in
  if negb (pp_definition_format_version p =? 1) then corrupt
  else if negb (def_format_version definition =? pp_definition_format_version p) then corrupt
  else
    d ← digest_of definition;
    if negb (bool_decide (pp_definition_digest p = d)) then corrupt
    else
      c ← publication_digest (catalog_to_value catalog) PUBLIC_COMMAND_ENVELOPE;
      if negb (bool_decide (pp_catalog_digest p = c)) then corrupt
      else if negb (bool_decide (pp_policy_format p = "graphrun.run-policy/v1")) then corrupt
      else Ok tt.

Definition required_verify (r : RequiredArtifacts) (run : RunState) : Outcome unit :=
  expected ← map_err (λ e, unavailable (err_message e))
    (capture_required run (ar_cluster_id (ra_definition r)));
  if negb (bool_decide (r = expected))
  then Err (unavailable "missing, corrupt or unsupported retained definition, schema, contract or policy")
  else match rs_published run with
  | Some published =>
      map_err (λ e, unavailable (err_message e)) (pinned_verify published (rs_definition run) (rs_catalog run))
  | None => Ok tt
  end.

(** ** Event ownership ([domain.rs]) *)
Definition event_owner state (event : DomainEvent) : Outcome (option RunId.t) :=
  match event with
  | RunAdmitted run _ _ _ _ _ _ | ScopeOpened run _ _ _ _ | ScopeCompleted run _ _
  | ScopeFailed run _ _ | ActivationOpened run _ _ _ | NodeOutputRecorded run _ _ _
  | GuardRecorded run _ _ _ _ | LeafSucceeded run _ _ _ _ | LeafFailed run _ _ _ _ _
  | WaitOpened run _ _ _ _ _ _ | WaitSatisfied run _ _ _ | WaitTimedOut run _
  | WaitCancelled run _ | EventAccepted run _ _ _ _ _ _ _ | EventExpired run _
  | ObligationRegistered run _ _ _ _ | ObligationBlocked run _ _ _ _
  | CompensationStarted run _ _ _ _ _ _ _ | RunSucceeded run _ | RunFailed run _
  | ObligationReleased run _ | ClaimGranted run _ _ _ _ _ _ _ _ _ _ _ _ _
  | ReconciliationRecorded run _ _ _ _ | ReconciliationFailed run _ _ _
  | InterventionRequired run _ _ | AbortIntent run _ _ | CompensationAbandoned run _ _ => Ok (Some run)
  | ObligationTransferred forward _ _ =>
      o ← ok_or (lfind (for_forward forward) (obligations state))
        (failed_precondition "transferred obligation has no run");
      Ok (Some (ob_run o))
  | ClaimRenewed activation _ _ _ _ | ClaimCleared activation =>
      act ← ok_or (activations state !! activation)
        (failed_precondition "claim lifecycle event has no activation");
      Ok (Some (as_run act))
  | EventReserved wait _ | ReservationReleased wait _ =>
      w ← ok_or (waits state !! wait) (failed_precondition "signal reservation has no wait");
      Ok (Some (wt_run w))
  | SessionRegistered _ _ _ _ | WorkerRegistered _ _ _ _ _ _ _ | WorkerSessionRenewed _ _ _
  | RecoveryAuthorized _ => Ok None
  end.

(** ** The activity behind an activation ([domain.rs]) *)
Definition outcome_option {A} (m : Outcome A) (k : A → Outcome (option A)) : Outcome (option A) :=
  match m with Ok a => k a | Err _ => Ok None | Panic w => Panic w end.

(** [Some(x)] or return [None], under a possible panic. *)
Definition some_or_none {A B} (o : option A) (k : A → Outcome (option B)) : Outcome (option B) :=
  match o with Some a => k a | None => Ok None end.

(** The activity node of an activation with its evaluated input. *)
Definition bound_activity state (act : ActivationState) : Outcome (option (ActivityKey * Value)) :=
  some_or_none (lookup_region state (as_scope act)) (λ region,
  some_or_none (region_node region (as_node act)) (λ node,
  match node with
  | Node_Activity activity input _ _ _ _ =>
      some_or_none (scopes state !! as_scope act) (λ scope,
      ctx ← eval_ctx state scope;
      bound ← outcome_ok (eval_binding input ctx);
      Ok (match bound with Some v => Some (activity, v) | None => None end))
  | _ => Ok None
  end)).

Definition activity_key state (activation : ActivationId.t) : Outcome (option (string * Z * Value)) :=
  some_or_none (activations state !! activation) (λ act,
  if match as_claim act with Some c => is_reconciliation (cl_role c) | None => false end then
    found ← bound_activity state act;
    some_or_none found (λ '(activity, bound),
    some_or_none (runs state !! as_run act) (λ run,
    contract ← outcome_ok (catalog_activity (rs_catalog run) activity);
    some_or_none contract (λ contract,
    some_or_none (ac_reconciler contract) (λ recon,
    Ok (Some (ak_name recon, ak_version recon, bound))))))
  else if bool_decide (as_role act = ExecutionRole_Compensation) then
    some_or_none (lfind (is_compensating_with activation) (obligations state)) (λ o,
    Ok (Some (ob_handler o, ob_handler_version o, ob_input o)))
  else
    found ← bound_activity state act;
    Ok (match found with
        | Some (activity, bound) => Some (ak_name activity, ak_version activity, bound)
        | None => None
        end)).

(** ** Input and output references of an event *)
Definition schema_identity (schema : SchemaRef) : Outcome string :=
  match schema with
  | SchemaRef_Named key => Ok (schema_key_stable_name key)
  | _ => json ← from_serde failed_precondition (schema_ref_to_value schema); canonical_json json
  end.

Definition activity_schema_identity state (run : RunId.t) (name : string) (version : Z)
    (role : ExecutionRole) : Outcome (string * string) :=
  run_state ← ok_or (runs state !! run) (unavailable "accepted activity has no retained run");
  '(input, output) ← map_err (λ e, unavailable (err_message e))
    (contract_schemas (rs_catalog run_state) (mkActivityKey name version) role);
  i ← schema_identity input;
  o ← schema_identity output;
  Ok (i, o).

Definition activity_for_result state (activation : ActivationId.t) (fallback_role : ExecutionRole) :
    Outcome (string * Z * ExecutionRole) :=
  act ← ok_or (activations state !! activation) (unavailable "accepted result has no activation");
  let role := match as_claim act with Some c => cl_role c | None => fallback_role end in
  key ← activity_key state activation;
  '(name, version, _) ← ok_or key (unavailable "accepted result has no pinned activity");
  Ok (name, version, role).

Definition io_references state (run : RunId.t) (event : DomainEvent) (cluster_id : string) :
    Outcome (option ArtifactRef * option ArtifactRef) :=
  run_state ← ok_or (runs state !! run) (unavailable "recorded event has no retained run");
  match event with
  | RunAdmitted _ _ _ value _ _ _ =>
      schema ← schema_identity (def_input_schema (rs_definition run_state));
      a ← capture_in cluster_id schema (inr (to_json value));
      Ok (Some a, None)
  | ClaimGranted _ _ _ handler handler_version value _ _ _ _ _ _ _ role =>
      '(schema, _) ← activity_schema_identity state run handler handler_version role;
      a ← capture_in cluster_id schema (inr (to_json value));
      Ok (Some a, None)
  | LeafSucceeded _ activation _ value role =>
      '(name, version, actual_role) ← activity_for_result state activation role;
      '(_, schema) ← activity_schema_identity state run name version actual_role;
      a ← capture_in cluster_id schema (inr (to_json value));
      Ok (None, Some a)
  | ReconciliationRecorded _ activation _ (Some value) _ =>
      '(name, version, role) ← activity_for_result state activation ExecutionRole_Reconciliation;
      '(_, schema) ← activity_schema_identity state run name version role;
      a ← capture_in cluster_id schema (inr (to_json value));
      Ok (None, Some a)
  | EventAccepted _ _ signal _ value _ _ _ =>
      schema ← ok_or (bt_get signal (def_signals (rs_definition run_state)))
        (unavailable "accepted event has no pinned signal schema");
      schema ← schema_identity schema;
      a ← capture_in cluster_id schema (inr (to_json value));
      Ok (Some a, None)
  | RunSucceeded _ value =>
      schema ← schema_identity (def_output_schema (rs_definition run_state));
      a ← capture_in cluster_id schema (inr (to_json value));
      Ok (None, Some a)
  | _ => Ok (None, None)
  end.

(** ** Appending to a run's history *)
Definition tombstone_key (run : RunId.t) (event_id : EventId.t) : string :=
  RunId.to_hex run +:+ ":" +:+ EventId.to_hex event_id.

Definition push_entry {A} (x : A) (slot : option (list A)) : option (list A) :=
  Some (default [] slot ++ [x]).

Definition append_event state (run : RunId.t) (event : DomainEvent) (command_id : option CommandId.t)
    (principal_id : option string) (recorded_ms : Z)
    (io_refs : option ArtifactRef * option ArtifactRef) : Outcome State :=
  let sequence := match history state !! run with Some events => zlen events + 1 | None => 1 end in
  let origin := current_cluster_id state in
  required ← match event with
    | RunAdmitted _ _ _ _ _ _ _ =>
        run_state ← unwrap "run of admission" (runs state !! run);
        r ← capture_required run_state origin; Ok (Some r)
    | _ => Ok None
    end;
  payload_ref ← capture_in origin "graphrun.domain-event/v1" (event_to_value event);
  signal_ref ← match event with
    | EventAccepted _ _ _ _ payload _ _ _ =>
        a ← capture_in origin "graphrun.signal-payload/v1" (inr (to_json payload)); Ok (Some a)
    | _ => Ok None
    end;
  let state := match required with
    | Some r => upd_history_dependencies (insert run r) state
    | None => state
    end in
  let state := upd_artifact_origins (union {[ origin ]}) state in
  let state := upd_history (partial_alter (push_entry event) run) state in
  let state := upd_history_records (partial_alter (push_entry
    (mkHistoryEntry EVENT_FORMAT run sequence command_id principal_id recorded_ms payload_ref
       io_refs.1 io_refs.2)) run) state in
  match event with
  | EventAccepted _ event_id signal key _ _ _ _ =>
      payload ← unwrap "accepted event has a payload reference" signal_ref;
      Ok (upd_signal_tombstones (insert (tombstone_key run event_id)
            (mkSignalTombstone run event_id signal key payload)) state)
  | _ => Ok state
  end.

(** ** Applying events ([domain.rs]) *)
Definition apply_event_with_cause (command_id : option CommandId.t) (principal_id : option string)
    (time : Z) state (event : DomainEvent) : Outcome State :=
  run ← event_owner state event;
  io_refs ← match run with
    | Some run => refs ← io_references state run event (current_cluster_id state); Ok (Some refs)
    | None => Ok None
    end;
  state ← evolve state event;
  match run with
  | Some run =>
      refs ← unwrap "run event has artifact references" io_refs;
      append_event state run event command_id principal_id time refs
  | None => Ok state
  end.

Definition apply_events_with_cause state (events : list DomainEvent) (command_id : option CommandId.t)
    (principal_id : option string) (time : Z) : Outcome State :=
  outcome_fold (apply_event_with_cause command_id principal_id time) state events.

Definition apply_events state (events : list DomainEvent) : Outcome State :=
  apply_events_with_cause state events None None 0.

(** ** Reconstruction *)
Definition reconstruct_in (cluster_id : string) (definition : Definition_) (catalog : Catalog)
    (events : list DomainEvent) : Outcome State :=
  match events with
  | RunAdmitted run _ _ input root policy _ :: _ =>
      let state := upd_cluster_id (λ _, cluster_id) state_default in
      let state := if bool_decide (cluster_id = "") then state
                   else upd_artifact_origins (union {[ cluster_id ]}) state in
      let state := upd_runs (insert run (mkRunState run definition catalog input policy
        RunStatus_Active root 1 0 0 0 None)) state in
      apply_events state events
  | _ => fail! "history must start with run admission"
  end.

Definition retained state (run : RunId.t) (now : Z) : Outcome (RunState * Z) :=
  match runs state !! run with
  | None =>
      Err (if bool_decide (is_Some (terminal_summaries state !! run))
           then unavailable "history range is unavailable; terminal summary retained"
           else error_new NotFound "unknown run")
  | Some run_state =>
      let through := match history state !! run with Some events => zlen events | None => 0 end in
      if negb (run_is_active run_state) && negb (rs_terminal_ms run_state =? 0) &&
         (sat_add64 (rs_terminal_ms run_state)
            (sat_mul64 (terminal_history_days (rs_policy run_state)) DAY_MS) <=? now)
      then Err (unavailable ("history range 1..=" +:+ show_Z through +:+ " is unavailable"))
      else
        deps ← ok_or (history_dependencies state !! run)
          (unavailable "missing retained history dependencies");
        _ ← required_verify deps run_state;
        Ok (run_state, through)
  end.

(** One row of [validated_entries]. *)
Definition validate_entry (run : RunId.t) (start : Z) (index : nat) (record : HistoryEntry)
    (event : DomainEvent) : Outcome (HistoryEntry * DomainEvent) :=
  if negb (bool_decide (he_format record = EVENT_FORMAT))
     || negb (bool_decide (he_run record = run))
     || negb (he_sequence record =? start + Z.of_nat index)
  then Err (unavailable "unsupported or noncontiguous run event sequence")
  else
    _ ← artifact_verify (he_payload record) "graphrun.domain-event/v1" (event_to_value event);
    Ok (record, event).

Fixpoint validate_entries (run : RunId.t) (start : Z) (index : nat)
    (rows : list (HistoryEntry * DomainEvent)) : Outcome (list (HistoryEntry * DomainEvent)) :=
  match rows with
  | [] => Ok []
  | (record, event) :: rows =>
      row ← validate_entry run start index record event;
      rest ← validate_entries run start (S index) rows;
      Ok (row :: rest)
  end.

Definition validated_entries state (run : RunId.t) (start through : Z) :
    Outcome (list (HistoryEntry * DomainEvent)) :=
  events ← ok_or (history state !! run) (unavailable "missing retained run events");
  records ← ok_or (history_records state !! run) (unavailable "missing retained event records");
  if negb (zlen records =? zlen events) || bool_decide (length events = 0%nat)
  then Err (unavailable "incomplete retained event range")
  else
    validate_entries run start 0
      (take (Z.to_nat (sat_add64 (sat_sub through start) 1))
        (drop (Z.to_nat (sat_sub start 1)) (zip records events))).

Definition is_terminal_event (event : DomainEvent) : bool :=
  match event with RunSucceeded _ _ | RunFailed _ _ => true | _ => false end.

(** The body of the replay loop of [reconstruct_at]. *)
Definition replay_entry (run : RunId.t) (projection : State) (entry : HistoryEntry * DomainEvent) :
    Outcome State :=
  let '(record, event) := entry in
  let origin := ar_cluster_id (he_payload record) in
  let projection := upd_cluster_id (λ _, origin) projection in
  let projection := upd_artifact_origins (union {[ origin ]}) projection in
  projection ← evolve projection event;
  if is_terminal_event event then
    r ← unwrap "admitted run" (runs projection !! run);
    Ok (upd_runs (insert run (run_with_terminal_ms (he_recorded_ms record) r)) projection)
  else Ok projection.

(** The checks on a retained checkpoint. *)
Definition verify_checkpoint (run : RunId.t) (source : RunState) (available : Z) (cp : RunCheckpoint) :
    Outcome unit :=
  if negb (bool_decide (cp_format cp = CHECKPOINT_FORMAT))
     || (cp_through_run_sequence cp =? 0) || (available <? cp_through_run_sequence cp)
  then Err (unavailable "unsupported or out-of-range retained checkpoint")
  else
    _ ← required_verify (cp_required cp) source;
    _ ← artifact_verify (cp_projection_ref cp) "graphrun.run-projection/v2"
          (projection_to_value (cp_through_run_sequence cp, cp_projection cp));
    if bool_decide (is_Some (runs (cp_projection cp) !! run)) then Ok tt
    else Err (unavailable "retained checkpoint has no projected run").

(** The state replay starts from, and the number of entries it already covers. *)
Definition replay_from_admission (source : RunState) (entries : list (HistoryEntry * DomainEvent)) :
    Outcome (State * Z) :=
  '(record, event) ← unwrap "index out of bounds" (entries !! 0%nat);
  match event with
  | RunAdmitted _ _ _ _ _ _ _ =>
      p ← map_err (λ e, unavailable (err_message e))
        (reconstruct_in (ar_cluster_id (he_payload record)) (rs_definition source)
           (rs_catalog source) [event]);
      Ok (p, 1)
  | _ => Err (unavailable "missing run admission event")
  end.

Definition replay_base state (run : RunId.t) (source : RunState) (through : Z)
    (entries : list (HistoryEntry * DomainEvent)) : Outcome (State * Z) :=
  match checkpoints state !! run with
  | Some cp =>
      if cp_through_run_sequence cp <=? through
      then Ok (cp_projection cp, cp_through_run_sequence cp)
      else replay_from_admission source entries
  | None => replay_from_admission source entries
  end.

Definition reconstruct_at state (run : RunId.t) (through now : Z) : Outcome State :=
  '(source, available) ← retained state run now;
  if (through =? 0) || (available <? through)
  then fail! ("requested sequence " +:+ show_Z through +:+ " is outside retained range 1..=" +:+
              show_Z available)
  else
    entries ← validated_entries state run 1 through;
    _ ← match checkpoints state !! run with
        | Some cp => verify_checkpoint run source available cp
        | None => Ok tt
        end;
    '(projection, first) ← replay_base state run source through entries;
    projection ← outcome_fold (replay_entry run) projection (drop (Z.to_nat first) entries);
    r ← unwrap "admitted run" (runs projection !! run);
    let projection := upd_runs (insert run (run_with_published (rs_published source) r)) projection in
    let projection := upd_history (insert run entries.*2) projection in
    Ok (upd_history_records (insert run entries.*1) projection).

(** The projection kept in a checkpoint: everything that is not the run's own
    state is cleared. *)
Definition clear_projection (p : State) : State :=
  mkState (format_policy p) (format_receipts p) (current_cluster_id p) (artifact_origins p)
    (engine_time_watermark_ms p) (runs p) (scopes p) (activations p) (waits p) (inbox p)
    ∅ ∅ ∅ ∅ ∅ ∅ [] [] [] [] (loop_carry p) (foreach_items p) (foreach_done p) (parallel_done p)
    ∅ ∅ ∅ ∅ ∅ ∅ ∅ (obligations p) (saga_errors p) ∅ (next_generation p) (fair_cursor p)
    (interventions p) (recovery p).

Definition checkpoint_after_command state (run : RunId.t) (time : Z) : Outcome State :=
  match runs state !! run with
  | None => Ok state
  | Some run_state =>
      let through := match history state !! run with Some events => zlen events | None => 0 end in
      if through =? 0 then Ok state
      else
        let previous := match checkpoints state !! run with
          | Some cp => cp_through_run_sequence cp
          | None => 0
          end in
        let terminal := negb (run_is_active run_state) in
        if (sat_sub through previous <? checkpoint_event_cadence (rs_policy run_state)) && negb terminal
        then Ok state
        else if previous =? through then Ok state
        else
          required ← ok_or (history_dependencies state !! run)
            (unavailable "missing retained history dependencies");
          projection ← reconstruct_at state run through time;
          let projection := clear_projection projection in
          projection_ref ← capture_in (current_cluster_id state) "graphrun.run-projection/v2"
            (projection_to_value (through, projection));
          let state := upd_artifact_origins (union {[ current_cluster_id state ]}) state in
          Ok (upd_checkpoints (insert run
            (mkRunCheckpoint CHECKPOINT_FORMAT through required projection_ref projection)) state)
  end.
End History.
