(* ===== verification/Compiler.v ===== *)
(** * The definition compiler

    [compiler.rs]: a workflow document is compiled, region by region, into a
    definition whose regions have passed the analysis. Node counts are threaded
    as the code threads [&mut Counts]. *)
From stdpp Require Import base option gmap strings list.
From Stdlib Require Import ZArith Ascii Lia.
From S2P Require Import Prelude Value Ids Policy Catalog Ir Analysis Yaml Equality Domain Eval Evolve History.

Definition WORKFLOW_FIELDS : list string :=
  ["dsl"; "id"; "version"; "input_schema"; "output_schema"; "start"; "nodes"; "signals"; "run_timeout"].
Definition REGION_FIELDS : list string := ["input_schema"; "output_schema"; "start"; "nodes"].
Definition MAX_NODES : Z := 512.
Definition MAX_NESTING : Z := 8.
Definition MAX_LOOP_ITERATIONS : Z := 1000.
Definition MAX_PARALLEL_BRANCHES : Z := 16.
Definition MAX_FOREACH_CONCURRENCY : Z := 32.

(** A field and what it must be. *)
Definition str_field (map : fields) (key : string) (span : Span) : Outcome string :=
  node ← required map key span; doc_as_str node.
Definition u32_field (map : fields) (key : string) (span : Span) : Outcome Z :=
  node ← required map key span; as_u32 node.
Definition schema_field (map : fields) (key : string) (span : Span) : Outcome SchemaRef :=
  node ← required map key span; parse_schema_ref node.
Definition binding_field (map : fields) (key : string) (span : Span) : Outcome Binding :=
  node ← required map key span; parse_binding node.
Definition condition_field (map : fields) (key : string) (span : Span) : Outcome Condition :=
  node ← required map key span; parse_condition node.
Definition key_field (map : fields) (key : string) (span : Span) : Outcome string :=
  node ← required map key span; parse_node_key node.
Definition millis_field (map : fields) (key : string) (span : Span) : Outcome Z :=
  text ← str_field map key span; duration ← parse_duration text; duration_to_millis duration.

(** ** Activities *)
Definition parse_activity_key (node : Spanned) : Outcome ActivityKey :=
  map ← as_map node;
  _ ← reject_unknown map ["name"; "version"] (spanned_span node);
  name ← str_field map "name" (spanned_span node);
  version ← u32_field map "version" (spanned_span node);
  Ok (mkActivityKey name version).

Definition parse_attempt_timeout (node : Spanned) : Outcome (option Z) :=
  text ← doc_as_str node;
  duration ← parse_duration text;
  _ ← validate_attempt_timeout duration;
  Some <$> duration_to_millis duration.

Definition parse_optional_timeout (map : fields) (field : string) (default : Z) : Outcome (option Z) :=
  match bt_get field map with
  | Some node => parse_attempt_timeout node
  | None => Some <$> duration_to_millis default
  end.

Definition check_retry_code (contract : ActivityContract) (code : string) : Outcome unit :=
  if match known_code contract code with Some spec => ec_retryable spec | None => false end then Ok tt
  else fail! ("retry lists terminal or unknown code " +:+ code).

Definition parse_retry_errors (retry_map : fields) (contract : ActivityContract) (default : list string) :
    Outcome (list string) :=
  match bt_get "errors" retry_map with
  | Some errors =>
      match spanned_doc errors with
      | Doc_Array items =>
          codes ← outcome_map doc_as_str items;
          _ ← outcome_map (check_retry_code contract) codes;
          Ok codes
      | _ => invalid_at "retry.errors must be an array" (spanned_span errors)
      end
  | None => Ok default
  end.

Definition parse_backoff (retry_map : fields) (default : Backoff) : Outcome Backoff :=
  match bt_get "backoff" retry_map with
  | Some backoff =>
      let span := spanned_span backoff in
      backoff_map ← as_map backoff;
      _ ← reject_unknown backoff_map ["initial"; "multiplier"; "max"] span;
      initial ← millis_field backoff_map "initial" span;
      multiplier ← (node ← required backoff_map "multiplier" span; doc_as_i64 node);
      if negb ((1 <=? multiplier) && (multiplier <=? 10))
      then fail! "backoff multiplier must be between 1 and 10"
      else
        max ← millis_field backoff_map "max" span;
        Ok (mkBackoff initial (wrap32 (multiplier * 1000)) max)
  | None => Ok default
  end.

Definition parse_retry (map : fields) (contract : ActivityContract) (compensation : bool) : Outcome RetryPolicy :=
  let policy :=
    if compensation then retry_compensation_default (retryable_codes contract) else retry_forward_default in
  policy ← match bt_get "retry" map with
    | Some node =>
        retry_map ← as_map node;
        _ ← reject_unknown retry_map ["errors"; "max_attempts"; "backoff"] (spanned_span node);
        errors ← parse_retry_errors retry_map contract (rp_errors policy);
        max_attempts ← match bt_get "max_attempts" retry_map with
          | Some max => as_u32 max
          | None => Ok (rp_max_attempts policy)
          end;
        backoff ← parse_backoff retry_map (rp_backoff policy);
        Ok (mkRetryPolicy errors max_attempts backoff)
    | None => Ok policy
    end;
  _ ← retry_validate policy;
  Ok policy.

Definition is_forward_reference (r : Reference) : bool :=
  match r with Reference_ForwardInput | Reference_ForwardOutput => true | _ => false end.

Section Compiler.
Context `{Platform} `{CatalogSerde} `{Serde}.
Variable catalog : Catalog.

Definition parse_compensation (node : Spanned) : Outcome Compensation :=
  let span := spanned_span node in
  map ← as_map node;
  kind ← str_field map "kind" span;
  if bool_decide (kind = "irreversible") then
    _ ← reject_unknown map ["kind"; "reason"] span;
    reason ← str_field map "reason" span;
    Ok (Compensation_Irreversible reason)
  else if bool_decide (kind = "activity") then
    _ ← reject_unknown map ["kind"; "activity"; "input"; "timeout"; "retry"] span;
    activity ← (node ← required map "activity" span; parse_activity_key node);
    contract ← catalog_activity catalog activity;
    input ← binding_field map "input" span;
    if negb (forallb is_forward_reference (binding_references input))
    then invalid_at "compensation input may only use forward.input or forward.output" span
    else
      timeout_ms ← parse_optional_timeout map "timeout" COMPENSATION_ATTEMPT_TIMEOUT;
      retry ← parse_retry map contract true;
      Ok (Compensation_Activity activity input timeout_ms (Some retry))
  else invalid_at ("unknown compensation kind " +:+ kind) span.

Definition compile_activity (map : fields) (span : Span) (ctx : RegionCtx) : Outcome Node :=
  _ ← reject_unknown map ["kind"; "activity"; "input"; "retry"; "timeout"; "compensation"; "next"] span;
  activity ← (node ← required map "activity" span; parse_activity_key node);
  contract ← catalog_activity catalog activity;
  input ← binding_field map "input" span;
  next ← key_field map "next" span;
  timeout_ms ← parse_optional_timeout map "timeout" FORWARD_ATTEMPT_TIMEOUT;
  retry ← parse_retry map contract false;
  compensation ← match bt_get "compensation" map with
    | Some node =>
        if negb (rc_in_saga ctx) then invalid_at "compensation is only valid inside a saga" (spanned_span node)
        else Some <$> parse_compensation node
    | None =>
        if rc_in_saga ctx && bool_decide (ac_effects contract = EffectKind_External)
        then invalid_at "external activity inside a saga requires compensation or irreversible" span
        else Ok None
    end;
  Ok (Node_Activity activity input timeout_ms retry compensation next).

(** ** Leaves *)
Definition compile_delay (map : fields) (span : Span) : Outcome Node :=
  _ ← reject_unknown map ["kind"; "duration"; "next"] span;
  duration_node ← required map "duration" span;
  duration ← match spanned_doc duration_node with
    | Doc_String _ => Binding_Literal <$> to_value duration_node
    | Doc_Map _ => parse_binding duration_node
    | _ => invalid_at "duration must be a string or binding" (spanned_span duration_node)
    end;
  next ← key_field map "next" span;
  Ok (Node_Delay duration next).

Definition compile_wait_until (map : fields) (span : Span) : Outcome Node :=
  _ ← reject_unknown map ["kind"; "at"; "next"] span;
  at_ ← binding_field map "at" span;
  next ← key_field map "next" span;
  Ok (Node_WaitUntil at_ next).

Definition compile_wait_signal (map : fields) (span : Span) (signals : list (string * SchemaRef)) : Outcome Node :=
  _ ← reject_unknown map ["kind"; "signal"; "key"; "timeout"; "consume_from"; "next"; "on_timeout"] span;
  signal ← str_field map "signal" span;
  if negb (bt_contains signal signals) then invalid_at ("unknown signal " +:+ signal) span
  else
    timeout_node ← required map "timeout" span;
    timeout_ms ← match spanned_doc timeout_node with
      | Doc_Null => Ok None
      | Doc_String text => duration ← parse_duration text; Some <$> duration_to_millis duration
      | _ => invalid_at "timeout must be a duration string or null" (spanned_span timeout_node)
      end;
    on_timeout ← match bt_get "on_timeout" map with
      | Some node => Some <$> parse_node_key node
      | None => Ok None
      end;
    match timeout_ms, on_timeout with
    | Some _, None => invalid_at "finite wait_signal requires on_timeout" span
    | None, Some _ => invalid_at "indefinite wait_signal forbids on_timeout" span
    | _, _ =>
        consume_from ← match bt_get "consume_from" map with
          | Some node =>
              text ← doc_as_str node;
              if bool_decide (text = "buffered") then Ok ConsumeFrom_Buffered
              else if bool_decide (text = "after_activation") then Ok ConsumeFrom_AfterActivation
              else invalid_at ("unknown consume_from " +:+ text) (spanned_span node)
          | None => Ok ConsumeFrom_Buffered
          end;
        key ← binding_field map "key" span;
        next ← key_field map "next" span;
        Ok (Node_WaitSignal signal key timeout_ms consume_from next on_timeout)
    end.

Definition compile_complete (map : fields) (span : Span) : Outcome Node :=
  _ ← reject_unknown map ["kind"; "output"] span;
  output ← binding_field map "output" span;
  Ok (Node_Complete output).

Definition compile_fail (map : fields) (span : Span) : Outcome Node :=
  _ ← reject_unknown map ["kind"; "error"] span;
  error ← required map "error" span;
  error_map ← as_map error;
  _ ← reject_unknown error_map ["code"; "message"] (spanned_span error);
  code ← str_field error_map "code" (spanned_span error);
  message ← str_field error_map "message" (spanned_span error);
  Ok (Node_Fail (mkFailError code message)).

(** ** Nodes with regions

    [compile_body] compiles a nested region: [compile_region] one level deeper. *)
Inductive LoopKind := Loop_While | Loop_DoWhile | Loop_Repeat.

Section Bodies.
Variable signals : list (string * SchemaRef).
Variable compile_body : fields → Span → list PathSeg → RegionCtx → Z → Run Z Region.

Definition ctx_with (input output : SchemaRef) (ctx : RegionCtx) : RegionCtx :=
  mkRegionCtx input output (rc_in_loop ctx) (rc_in_foreach ctx) (rc_in_saga ctx) (rc_in_compensation ctx).

Definition loop_fields (kind : LoopKind) : list string :=
  ["kind"; "state"; "state_schema"; "condition"; "max_iterations"; "body"; "next"]
  ++ match kind with Loop_Repeat => ["count"] | _ => [] end.

Definition is_do_while (kind : LoopKind) : bool := match kind with Loop_DoWhile => true | _ => false end.

Definition compile_loop (map : fields) (span : Span) (path : list PathSeg) (ctx : RegionCtx) (depth : Z)
    (kind : LoopKind) : Run Z Node :=
  _ ← lift (reject_unknown map (loop_fields kind) span);
  state_schema ← lift (schema_field map "state_schema" span);
  _ ← lift (require_schema catalog state_schema);
  max_iterations ← lift (u32_field map "max_iterations" span);
  if (max_iterations =? 0) || (MAX_LOOP_ITERATIONS <? max_iterations)
  then lift (invalid_at "max_iterations is out of range" span)
  else if is_do_while kind && (max_iterations <? 1)
  then lift (fail! "do_while max_iterations must be at least 1")
  else
    body_node ← lift (required map "body" span);
    body_map ← lift (as_map body_node);
    let body_span := spanned_span body_node in
    body_input ← lift (schema_field body_map "input_schema" body_span);
    body_output ← lift (schema_field body_map "output_schema" body_span);
    if negb (bool_decide (body_input = state_schema)) || negb (bool_decide (body_output = state_schema))
    then lift (invalid_at "loop body schemas must match state_schema" body_span)
    else
      body ← compile_body body_map body_span (region_path_child path PathSeg_Body)
               (ctx_in_loop (ctx_with body_input body_output ctx)) (depth + 1);
      next ← lift (key_field map "next" span);
      state ← lift (binding_field map "state" span);
      match kind with
      | Loop_While =>
          condition ← lift (condition_field map "condition" span);
          mret (Node_While state state_schema condition max_iterations body next)
      | Loop_DoWhile =>
          condition ← lift (condition_field map "condition" span);
          mret (Node_DoWhile state state_schema condition max_iterations body next)
      | Loop_Repeat =>
          count ← lift (binding_field map "count" span);
          mret (Node_Repeat count state state_schema max_iterations body next)
      end.

Definition compile_foreach (map : fields) (span : Span) (path : list PathSeg) (ctx : RegionCtx) (depth : Z) :
    Run Z Node :=
  _ ← lift (reject_unknown map
        ["kind"; "items"; "item_schema"; "max_items"; "max_concurrency"; "body"; "next"] span);
  item_schema ← lift (schema_field map "item_schema" span);
  _ ← lift (require_schema catalog item_schema);
  max_items ← lift (u32_field map "max_items" span);
  if (max_items =? 0) || (MAX_LOOP_ITERATIONS <? max_items)
  then lift (invalid_at "max_items is out of range" span)
  else
    max_concurrency ← lift (u32_field map "max_concurrency" span);
    if (max_concurrency =? 0) || (MAX_FOREACH_CONCURRENCY <? max_concurrency)
    then lift (invalid_at "max_concurrency is out of range" span)
    else
      body_node ← lift (required map "body" span);
      body_map ← lift (as_map body_node);
      let body_span := spanned_span body_node in
      body_input ← lift (schema_field body_map "input_schema" body_span);
      if negb (bool_decide (body_input = item_schema))
      then lift (fail! "foreach body input_schema must match item_schema")
      else
        body_output ← lift (schema_field body_map "output_schema" body_span);
        _ ← lift (require_schema catalog body_output);
        body ← compile_body body_map body_span (region_path_child path PathSeg_Body)
                 (ctx_in_foreach (ctx_with body_input body_output ctx)) (depth + 1);
        items ← lift (binding_field map "items" span);
        next ← lift (key_field map "next" span);
        mret (Node_Foreach items item_schema max_items max_concurrency body next).

(** The schemas a nested region declares, checked against the catalog. *)
Definition body_schemas (body_map : fields) (span : Span) : Outcome (SchemaRef * SchemaRef) :=
  input ← schema_field body_map "input_schema" span;
  output ← schema_field body_map "output_schema" span;
  _ ← require_schema catalog input;
  _ ← require_schema catalog output;
  Ok (input, output).

Definition compile_branch (path : list PathSeg) (ctx : RegionCtx) (depth : Z)
    (acc : list ParallelBranch * list string) (item : Spanned) : Run Z (list ParallelBranch * list string) :=
  let '(branches, names) := acc in
  let span := spanned_span item in
  branch_map ← lift (as_map item);
  _ ← lift (reject_unknown branch_map ["name"; "input"; "body"] span);
  name ← lift (str_field branch_map "name" span);
  if negb (valid_ascii_name name) || bool_decide (name ∈ names)
  then lift (invalid_at ("invalid or duplicate branch name " +:+ name) span)
  else
    body_node ← lift (required branch_map "body" span);
    body_map ← lift (as_map body_node);
    schemas ← lift (body_schemas body_map (spanned_span body_node));
    body ← compile_body body_map (spanned_span body_node) (region_path_child path (PathSeg_Branch name))
             (ctx_with schemas.1 schemas.2 ctx) (depth + 1);
    input ← lift (binding_field branch_map "input" span);
    mret (branches ++ [mkParallelBranch name input body], name :: names).

Definition compile_parallel (map : fields) (span : Span) (path : list PathSeg) (ctx : RegionCtx) (depth : Z) :
    Run Z Node :=
  _ ← lift (reject_unknown map ["kind"; "branches"; "next"] span);
  branches_node ← lift (required map "branches" span);
  match spanned_doc branches_node with
  | Doc_Array items =>
      if bool_decide (items = []) || (MAX_PARALLEL_BRANCHES <? zlen items)
      then lift (invalid_at "parallel requires 1 to 16 branches" span)
      else
        branches ← run_fold (compile_branch path ctx depth) ([], []) items;
        next ← lift (key_field map "next" span);
        mret (Node_Parallel branches.1 next)
  | _ => lift (invalid_at "branches must be a sequence" (spanned_span branches_node))
  end.

(** The cases so far, their names, and the output schema they share. *)
Definition compile_case (path : list PathSeg) (ctx : RegionCtx) (depth : Z)
    (acc : list ChooseCase * list string * option SchemaRef) (item : Spanned) :
    Run Z (list ChooseCase * list string * option SchemaRef) :=
  let '(cases, names, case_output) := acc in
  let span := spanned_span item in
  case_map ← lift (as_map item);
  _ ← lift (reject_unknown case_map ["name"; "when"; "body"] span);
  name ← lift (str_field case_map "name" span);
  if negb (valid_ascii_name name) || bool_decide (name ∈ names)
  then lift (fail! ("invalid or duplicate case name " +:+ name))
  else
    body_node ← lift (required case_map "body" span);
    body_map ← lift (as_map body_node);
    schemas ← lift (body_schemas body_map (spanned_span body_node));
    if match case_output with Some expected => negb (bool_decide (expected = schemas.2)) | None => false end
    then lift (fail! "choose cases must share an output schema")
    else
      body ← compile_body body_map (spanned_span body_node) (region_path_child path (PathSeg_Case name))
               (ctx_with schemas.1 schemas.2 ctx) (depth + 1);
      when ← lift (condition_field case_map "when" span);
      mret (cases ++ [mkChooseCase name when body], name :: names, Some (default schemas.2 case_output)).

Definition compile_choose (map : fields) (span : Span) (path : list PathSeg) (ctx : RegionCtx) (depth : Z) :
    Run Z Node :=
  _ ← lift (reject_unknown map ["kind"; "input"; "cases"; "default"; "next"] span);
  cases_node ← lift (required map "cases" span);
  match spanned_doc cases_node with
  | Doc_Array items =>
      if bool_decide (items = []) then lift (invalid_at "choose requires a nonempty cases list" span)
      else
        cases ← run_fold (compile_case path ctx depth) ([], [], None) items;
        default_node ← lift (required map "default" span);
        default_map ← lift (as_map default_node);
        let default_span := spanned_span default_node in
        default_input ← lift (schema_field default_map "input_schema" default_span);
        default_output ← lift (schema_field default_map "output_schema" default_span);
        if negb (bool_decide (Some default_output = cases.2))
        then lift (fail! "choose default output schema must match cases")
        else
          default ← compile_body default_map default_span (region_path_child path PathSeg_Default)
                      (ctx_with default_input default_output ctx) (depth + 1);
          input ← lift (binding_field map "input" span);
          next ← lift (key_field map "next" span);
          mret (Node_Choose input cases.1.1 default next)
  | _ => lift (invalid_at "cases must be a sequence" (spanned_span cases_node))
  end.

Definition compile_saga (map : fields) (span : Span) (path : list PathSeg) (ctx : RegionCtx) (depth : Z) :
    Run Z Node :=
  _ ← lift (reject_unknown map ["kind"; "input"; "body"; "next"] span);
  body_node ← lift (required map "body" span);
  body_map ← lift (as_map body_node);
  schemas ← lift (body_schemas body_map (spanned_span body_node));
  body ← compile_body body_map (spanned_span body_node) (region_path_child path PathSeg_Body)
           (ctx_in_saga (ctx_with schemas.1 schemas.2 ctx)) (depth + 1);
  input ← lift (binding_field map "input" span);
  next ← lift (key_field map "next" span);
  mret (Node_Saga input body next).

Definition compile_node (node : Spanned) (path : list PathSeg) (ctx : RegionCtx) (depth : Z) : Run Z Node :=
  map ← lift (as_map node);
  let span := spanned_span node in
  kind ← lift (str_field map "kind" span);
  if bool_decide (kind = "activity") then lift (compile_activity map span ctx)
  else if bool_decide (kind = "choose") then compile_choose map span path ctx depth
  else if bool_decide (kind = "delay") then lift (compile_delay map span)
  else if bool_decide (kind = "wait_until") then lift (compile_wait_until map span)
  else if bool_decide (kind = "wait_signal") then lift (compile_wait_signal map span signals)
  else if bool_decide (kind = "complete") then lift (compile_complete map span)
  else if bool_decide (kind = "fail") then lift (compile_fail map span)
  else if bool_decide (kind = "while") then compile_loop map span path ctx depth Loop_While
  else if bool_decide (kind = "do_while") then compile_loop map span path ctx depth Loop_DoWhile
  else if bool_decide (kind = "repeat") then compile_loop map span path ctx depth Loop_Repeat
  else if bool_decide (kind = "foreach") then compile_foreach map span path ctx depth
  else if bool_decide (kind = "parallel") then compile_parallel map span path ctx depth
  else if bool_decide (kind = "saga") then compile_saga map span path ctx depth
  else lift (invalid_at ("unknown node kind " +:+ kind) span).

(** [counts.nodes += 1]. *)
Definition count_node : Run Z unit := λ nodes, Ok (tt, nodes + 1).

Definition compile_entry (path : list PathSeg) (ctx : RegionCtx) (depth : Z) (nodes : list (string * Node))
    (entry : string * Spanned) : Run Z (list (string * Node)) :=
  let '(key, node) := entry in
  parsed_key ← lift (node_key_parse key);
  _ ← count_node;
  compiled ← compile_node node (region_path_child path (PathSeg_Node key)) ctx depth;
  mret (str_insert parsed_key compiled nodes).
End Bodies.

(** ** Regions

    A region deeper than [MAX_NESTING] is refused before its nodes are looked
    at, so one level more than that is fuel enough. *)
Fixpoint compile_region (fuel : nat) (signals : list (string * SchemaRef)) (is_root : bool) (map : fields)
    (span : Span) (path : list PathSeg) (ctx : RegionCtx) (depth : Z) : Run Z Region :=
  match fuel with
  | O => lift (Panic "out of fuel")
  | S fuel =>
      if MAX_NESTING <? depth then lift (invalid_at "region nesting exceeds 8" span)
      else
        _ ← lift (reject_unknown map (if is_root then WORKFLOW_FIELDS else REGION_FIELDS) span);
        start ← lift (key_field map "start" span);
        nodes_node ← lift (required map "nodes" span);
        nodes_map ← lift (as_map nodes_node);
        nodes ← run_fold (compile_entry signals (compile_region fuel signals false) path ctx depth) [] nodes_map;
        if negb (bt_contains start nodes)
        then lift (invalid_at ("start node " +:+ start +:+ " is missing") span)
        else
          let region := mkRegion path (rc_input_schema ctx) (rc_output_schema ctx) start nodes in
          _ ← lift (analyze_region region ctx catalog);
          mret region
  end.

(** ** Definitions *)
Definition compile_signal (entry : string * Spanned) : Outcome (string * SchemaRef) :=
  let '(name, spec) := entry in
  if negb (valid_ascii_name name) then fail! ("invalid signal name " +:+ name)
  else
    spec_map ← as_map spec;
    _ ← reject_unknown spec_map ["schema"] (spanned_span spec);
    schema ← schema_field spec_map "schema" (spanned_span spec);
    _ ← require_schema catalog schema;
    Ok (name, schema).

Definition with_digest (d : Definition_) (digest : string) : Definition_ :=
  mkDefinition (def_format_version d) (def_dsl d) (def_id d) (def_version d) (def_input_schema d)
    (def_output_schema d) (def_signals d) (def_run_timeout_ms d) (def_root d) digest.

Definition compile_spanned (root : Spanned) : Outcome Definition_ :=
  let span := spanned_span root in
  map ← as_map root;
  _ ← reject_unknown map WORKFLOW_FIELDS span;
  dsl ← str_field map "dsl" span;
  if negb (bool_decide (dsl = DSL)) then invalid_at ("unsupported dsl " +:+ dsl) span
  else
    id ← str_field map "id" span;
    if negb (valid_ascii_name id) then fail! ("invalid workflow id " +:+ id)
    else
      version ← u32_field map "version" span;
      if version =? 0 then fail! "workflow version must be positive"
      else
        input_schema ← schema_field map "input_schema" span;
        output_schema ← schema_field map "output_schema" span;
        _ ← require_schema catalog input_schema;
        _ ← require_schema catalog output_schema;
        run_timeout ← match bt_get "run_timeout" map with
          | Some node => text ← doc_as_str node; duration ← parse_duration text; Some <$> duration_to_millis duration
          | None => Ok None
          end;
        if match run_timeout with Some ms => MAX_RUN_TIMEOUT <? ms | None => false end
        then fail! "run_timeout exceeds 365 days"
        else
          signals ← match bt_get "signals" map with
            | Some node =>
                signal_map ← as_map node;
                bt_collect <$> outcome_map compile_signal signal_map
            | None => Ok []
            end;
          '(region, nodes) ← compile_region (S (Z.to_nat MAX_NESTING)) signals true map span region_path_root
            (root_ctx input_schema output_schema) 1 0;
          if MAX_NODES <? nodes then fail! "definition exceeds 512 nodes"
          else
            let definition := mkDefinition FORMAT_VERSION DSL id version input_schema output_schema signals
              run_timeout region "" in
            digest ← digest_of definition;
            Ok (with_digest definition digest).

Definition compile_yaml `{YamlParser} (text : string) : Outcome Definition_ :=
  root ← parse_yaml text; compile_spanned root.

Definition definitions_equivalent (left right : Definition_) : bool :=
  bool_decide (def_digest left = def_digest right).
End Compiler.
