(* ===== verification/Steps.v ===== *)
(** * Building blocks of decisions

    The functions of [domain.rs] that several commands share: deterministic
    identities, opening a node, completing and failing a scope, obligations on
    success, and the checks on a leaf result. A function that takes
    [&mut IdGen] is a computation that threads an [IdGen]. *)
From stdpp Require Import base option gmap strings list.
From Stdlib Require Import ZArith Ascii Lia.
From S2P Require Import Prelude Value Ids Policy Catalog Ir Domain Eval Evolve History.

(** ** Deterministic identities *)
Record IdGen := mkIdGen { ig_command : CommandId.t; ig_n : Z }.

Definition idgen_new (command : CommandId.t) : IdGen := mkIdGen command 0.

(** [u32::to_le_bytes]. *)
Definition byte_of (n : Z) : ascii := ascii_of_N (Z.to_N (n mod 256)).
Definition le_bytes32 (n : Z) : string :=
  String (byte_of n) (String (byte_of (n / 256)) (String (byte_of (n / 65536))
    (String (byte_of (n / 16777216)) ""))).

(** A decision that may draw identities. *)
Notation Draw := (Run IdGen).
Notation events := (list DomainEvent).

Section Steps.
Context `{Platform} `{CatalogSerde} `{Serde}.
Implicit Types state : State.

Definition next_bytes : Draw string := λ ids,
  Ok (String.substring 0 16 (sha256 (CommandId.as_bytes (ig_command ids) +:+ le_bytes32 (ig_n ids))),
      mkIdGen (ig_command ids) (wrap32 (ig_n ids + 1))).

Definition fresh_scope : Draw ScopeId.t := bytes ← next_bytes; mret (ScopeId.from_bytes bytes).
Definition fresh_activation : Draw ActivationId.t :=
  bytes ← next_bytes; mret (ActivationId.from_bytes bytes).
Definition fresh_wait : Draw WaitId.t := bytes ← next_bytes; mret (WaitId.from_bytes bytes).

(** ** Children of an activation *)
Definition children_of state (parent : ActivationId.t) : list ScopeState :=
  List.filter (λ s, bool_decide (ss_parent s = Some parent)) (hm_values (scopes state)).

Definition child_order (s : ScopeState) : Z :=
  match ss_role s with
  | ScopeRole_LoopBody _ index | ScopeRole_ForeachItem _ index => index
  | _ => 0
  end.

Definition child_of state (parent : ActivationId.t) : option ScopeState :=
  let children := children_of state parent in
  match lfind scope_is_open children with
  | Some open => Some open
  | None => last (sort_by (λ a b, child_order a <=? child_order b) children)
  end.

Definition foreach_get (done : list (Z * Value)) (index : Z) : option Value :=
  snd <$> lfind (λ '(i, _), i =? index) done.

Definition foreach_has (done : list (Z * Value)) (index : Z) : bool :=
  existsb (λ '(i, _), i =? index) done.

(** ** Moving a scope along *)
Definition open_node state (scope : ScopeId.t) (node : string) : Draw events :=
  s ← lift (unwrap "scope of node" (scopes state !! scope));
  activation ← fresh_activation;
  mret [ActivationOpened (ss_run s) scope activation node].

Definition follow_next state (scope : ScopeId.t) (node : string) : Draw events :=
  region ← lift (ok_or (region_for_scope state scope) (error_invalid "missing region"));
  n ← lift (unwrap "node of region" (region_node region node));
  match lfind (λ '(name, _), bool_decide (name = "next")) (node_successors n) with
  | Some (_, next) => open_node state scope next
  | None => mret []
  end.

Definition follow_timeout state (act : ActivationState) : Draw events :=
  region ← lift (ok_or (region_for_scope state (as_scope act)) (error_invalid "missing region"));
  n ← lift (unwrap "node of region" (region_node region (as_node act)));
  match n with
  | Node_WaitSignal _ _ _ _ _ (Some next) => open_node state (as_scope act) next
  | _ => lift (fail! "wait has no timeout edge")
  end.

Definition complete_scope (scope : ScopeState) (output : Value) : events :=
  ScopeCompleted (ss_run scope) (ss_id scope) output ::
  (if is_root_role (ss_role scope) then [RunSucceeded (ss_run scope) output] else []).

Definition close_wait state (run : RunId.t) (wait : WaitState) : events :=
  match lfind (λ e, bool_decide (ie_reserved_wait e = Some (wt_id wait)) && negb (ie_consumed e))
          (inbox state) with
  | Some entry => [ReservationReleased (wt_id wait) (ie_event_id entry)]
  | None => []
  end ++ [WaitCancelled run (wt_id wait)].

Definition pending_waits_of state (run : RunId.t) : list WaitState :=
  List.filter (λ w, bool_decide (wt_run w = run) && wt_pending w) (hm_values (waits state)).

Definition close_pending_waits state (run : RunId.t) : events :=
  let sorted := sort_by (λ a b, WaitId.leb (wt_id a) (wt_id b)) (pending_waits_of state run) in
  sorted ≫= close_wait state run.

Definition fail_scope state (scope : ScopeId.t) (error : FailError) : Outcome events :=
  scope_state ← unwrap "scope to fail" (scopes state !! scope);
  match scope_failure scope_state with
  | Some _ => Ok []
  | None =>
      let root := is_root_role (ss_role scope_state) in
      Ok ((if root then close_pending_waits state (ss_run scope_state) else []) ++
          [ScopeFailed (ss_run scope_state) scope error] ++
          (if root then [RunFailed (ss_run scope_state) error] else []))
  end.

Definition root_scope_of state (run : RunId.t) : option ScopeState :=
  lfind (λ s, bool_decide (ss_run s = run) && is_root_role (ss_role s)) (hm_values (scopes state)).

(** ** Run-wide tests *)
Definition execution_suspended state : bool :=
  match recovery state with Some hold => negb (rh_authorized hold) | None => false end.

Definition run_is_aborting state (run : RunId.t) : bool :=
  existsb (λ saga, match activations state !! saga with
                   | Some act => bool_decide (as_run act = run)
                   | None => false
                   end) (hm_keys (saga_errors state)).

Definition uncertain_forwards state (run : RunId.t) : bool :=
  existsb (λ act, bool_decide (as_run act = run)
    && bool_decide (as_role act = ExecutionRole_Forward)
    && bool_decide (as_status act = ActivationStatus_Ready)
    && (bool_decide (is_Some (as_claim act)) ||
        bool_decide (is_Some (interventions state !! as_id act))))
    (hm_values (activations state)).

Definition run_past_deadline state (run : RunId.t) (time : Z) : bool :=
  match runs state !! run with
  | None => false
  | Some run_state =>
      match run_timeout_ms (rs_policy run_state) with
      | None => false
      | Some ms =>
          if rs_admitted_ms run_state =? 0 then false
          else sat_add64 (rs_admitted_ms run_state) ms <=? time
      end
  end.

Definition active_runs state : list RunId.t :=
  rs_id <$> List.filter run_is_active (hm_values (runs state)).

Definition ready_activations state (run : RunId.t) : list ActivationId.t :=
  as_id <$> List.filter (λ act,
      bool_decide (as_run act = run) && bool_decide (as_status act = ActivationStatus_Ready) &&
      forallb (λ wait, negb (bool_decide (wt_activation wait = as_id act)) || negb (wt_pending wait))
        (hm_values (waits state)))
    (hm_values (activations state)).

(** ** Leaf results *)
Definition validate_leaf_output state (act : ActivationState) (output : Value) : Outcome unit :=
  match runs state !! as_run act with
  | None => Ok tt
  | Some run =>
      if bool_decide (as_role act = ExecutionRole_Compensation) then
        o ← ok_or (lfind (is_compensating_with (as_id act)) (obligations state))
          (error_invalid "compensation obligation missing");
        contract ← catalog_activity (rs_catalog run)
          (mkActivityKey (ob_handler o) (ob_handler_version o));
        validate_value (rs_catalog run) (ac_output_schema contract) output
      else
        match lookup_region state (as_scope act) with
        | None => Ok tt
        | Some region =>
            match region_node region (as_node act) with
            | Some (Node_Activity activity _ _ _ _ _) =>
                match catalog_activity (rs_catalog run) activity with
                | Ok contract => validate_value (rs_catalog run) (ac_output_schema contract) output
                | _ => Ok tt
                end
            | _ => Ok tt
            end
        end
  end.

(** The obligation a successful forward activity leaves behind. *)
Definition compensation_events state (act : ActivationState) (output : Value) : Outcome events :=
  match region_for_scope state (as_scope act) with
  | None => Ok []
  | Some region =>
      match region_node region (as_node act) with
      | Some (Node_Activity _ _ _ _ (Some (Compensation_Activity activity input _ _)) _) =>
          match scopes state !! as_scope act with
          | None => Ok []
          | Some scope =>
              ctx ← eval_ctx state scope;
              forward_input ← match act_input_binding region (as_node act) with
                | Some binding => outcome_ok (eval_binding binding ctx)
                | None => Ok None
                end;
              match eval_binding input (ctx_with_forward forward_input output ctx) with
              | Ok bound =>
                  Ok [ObligationRegistered (as_run act) (as_id act) (ak_name activity)
                        (ak_version activity) bound]
              | Err err =>
                  Ok [ObligationBlocked (as_run act) (as_id act) (ak_name activity)
                        (ak_version activity) (err_message err)]
              | Panic w => Panic w
              end
          end
      | Some (Node_Activity _ _ _ _ (Some (Compensation_Irreversible reason)) _) =>
          Ok [ObligationBlocked (as_run act) (as_id act) "irreversible" 1 reason]
      | _ => Ok []
      end
  end.

Definition decide_compensation_result state (run : RunId.t) (activation : ActivationId.t)
    (output : Value) : Outcome events :=
  o ← ok_or (lfind (is_compensating_with activation) (obligations state))
    (error_invalid "compensation activation has no obligation");
  if negb (bool_decide (ob_run o = run)) then fail! "compensation does not belong to run"
  else Ok [LeafSucceeded run activation 1 output ExecutionRole_Compensation].

Definition report_success state (run : RunId.t) (activation : ActivationId.t) (output : Value) :
    Draw events :=
  act ← lift (ok_or (activations state !! activation) (error_invalid "unknown activation"));
  if bool_decide (as_role act = ExecutionRole_Compensation) then
    _ ← lift (validate_leaf_output state act output);
    lift (decide_compensation_result state run activation output)
  else
    _ ← lift (validate_leaf_output state act output);
    comp ← lift (compensation_events state act output);
    let recorded := [LeafSucceeded run activation 1 output ExecutionRole_Forward;
                     NodeOutputRecorded run (as_scope act) (as_node act) output] ++ comp in
    if run_is_aborting state run then mret recorded
    else
      next ← follow_next state (as_scope act) (as_node act);
      mret (recorded ++ next).

Definition decide_report state (run : RunId.t) (activation : ActivationId.t) (output : Value)
    (time : Z) : Draw events :=
  act ← lift (ok_or (activations state !! activation) (error_invalid "unknown activation"));
  if negb (bool_decide (as_run act = run)) then lift (fail! "activation does not belong to run")
  else if negb (bool_decide (as_status act = ActivationStatus_Ready))
  then lift (fail! "activation is not awaiting a result")
  else if match as_claim act with Some claim => time <? cl_lease_expiry_ms claim | None => false end
  then lift (Err (failed_precondition "activation is claimed"))
  else report_success state run activation output.

(** ** Leaf errors *)
Definition forward_error_retryable state (act : ActivationState) (code : string) : bool :=
  match runs state !! as_run act, region_for_scope state (as_scope act) with
  | Some run, Some region =>
      match region_node region (as_node act) with
      | Some (Node_Activity activity _ _ retry _ _) =>
          match catalog_activity (rs_catalog run) activity with
          | Ok contract =>
              match known_code contract code with
              | Some spec =>
                  ec_retryable spec && bool_decide (code ∈ rp_errors retry) &&
                  (Z.max (as_attempts act) 1 <? rp_max_attempts retry)
              | None => false
              end
          | _ => false
          end
      | _ => false
      end
  | _, _ => false
  end.

Definition obligation_handler_retryable (run : RunState) (o : Obligation) (code : string) : bool :=
  match catalog_activity (rs_catalog run) (mkActivityKey (ob_handler o) (ob_handler_version o)) with
  | Ok contract =>
      match known_code contract code with Some spec => ec_retryable spec | None => false end
  | _ => false
  end.

Definition compensation_error_retryable state (activation : ActivationId.t) (code : string) : bool :=
  match activations state !! activation with
  | None => false
  | Some act =>
  match runs state !! as_run act with
  | None => false
  | Some run =>
  match lfind (is_compensating_with activation) (obligations state) with
  | None => false
  | Some o =>
  match forward ← activations state !! ob_forward o;
        region ← region_for_scope state (as_scope forward);
        region_node region (as_node forward) with
  | Some (Node_Activity _ _ _ _ (Some (Compensation_Activity activity _ _ retry)) _) =>
      match catalog_activity (rs_catalog run) activity with
      | Ok contract =>
          match known_code contract code with
          | None => false
          | Some spec =>
              if negb (ec_retryable spec) then false
              else
                let policy := default (retry_compensation_default (retryable_codes contract)) retry in
                if bool_decide (rp_errors policy = []) then false
                else bool_decide (code ∈ rp_errors policy) &&
                     (Z.max (as_attempts act) 1 <? rp_max_attempts policy)
          end
      | _ => false
      end
  | _ => obligation_handler_retryable run o code
  end end end end.

Definition decide_report_error state (run : RunId.t) (activation : ActivationId.t)
    (code message : string) : Outcome events :=
  act ← ok_or (activations state !! activation) (error_invalid "unknown activation");
  if negb (bool_decide (as_run act = run)) then fail! "activation does not belong to run"
  else if negb (bool_decide (as_status act = ActivationStatus_Ready))
  then fail! "activation is not awaiting a result"
  else
    let attempt := Z.max (as_attempts act) 1 in
    if bool_decide (as_role act = ExecutionRole_Compensation) then
      let retryable := compensation_error_retryable state activation code in
      let failed := LeafFailed run activation attempt code message retryable in
      if retryable then Ok [failed; ClaimCleared activation]
      else match lfind (is_compensating_with activation) (obligations state) with
      | Some o =>
          Ok [failed; ObligationBlocked run (ob_forward o) (ob_handler o) (ob_handler_version o)
                        (code +:+ ": " +:+ message)]
      | None => Ok [failed]
      end
    else
      let retryable := forward_error_retryable state act code in
      let failed := LeafFailed run activation attempt code message retryable in
      if retryable then Ok [failed; ClaimCleared activation]
      else
        closing ← fail_scope state (as_scope act) (mkFailError code message);
        Ok (failed :: closing).
End Steps.
