(* ===== verification/Saga.v ===== *)
(** * Sagas, compensation and cancellation *)
From stdpp Require Import base option gmap strings list.
From Stdlib Require Import ZArith Ascii Lia.
From S2P Require Import Prelude Value Ids Policy Catalog Ir Domain Eval Evolve History Steps.

Section Saga.
Context `{Platform} `{CatalogSerde} `{Serde}.
Implicit Types state : State.

Definition owned_by (saga : ActivationId.t) (o : Obligation) : bool :=
  bool_decide (ob_owner o = saga).

Definition compensating_in_flight state (saga : ActivationId.t) : bool :=
  existsb (λ o, owned_by saga o && is_compensating o) (obligations state).

(** The obligations a saga still has to undo, oldest first. *)
Definition open_obligations state (saga : ActivationId.t) : list Obligation :=
  List.filter (λ o, owned_by saga o && is_open_obligation o) (obligations state).

Definition compensate_or_fail state (saga : ActivationId.t) (error : FailError) : Draw events :=
  act ← lift (ok_or (activations state !! saga) (error_invalid "unknown saga"));
  if existsb (λ o, owned_by saga o && is_blocked o) (obligations state)
  then mret [InterventionRequired (as_run act) saga "compensation input is blocked"]
  else match last (open_obligations state saga) with
  | None =>
      if uncertain_forwards state (as_run act) then
        if bool_decide (is_Some (saga_errors state !! saga)) then mret []
        else mret [AbortIntent (as_run act) saga error]
      else if existsb (λ o, owned_by saga o && is_irreversible o) (obligations state)
      then lift (fail_scope state (as_scope act) (mkFailError "saga.irreversible" (fe_message error)))
      else lift (fail_scope state (as_scope act) error)
  | Some o =>
      activation ← fresh_activation;
      mret [CompensationStarted (as_run act) saga (ob_forward o) activation (ob_handler o)
              (ob_handler_version o) (ob_input o) error]
  end.

Definition settle_saga_success state (saga : ActivationId.t) : events :=
  let run := as_run <$> activations state !! saga in
  let owned := ob_forward <$> open_obligations state saga in
  match parent_saga state saga with
  | Some parent => (λ forward, ObligationTransferred forward saga parent) <$> owned
  | None =>
      match run with
      | Some run => (λ forward, ObligationReleased run forward) <$> owned
      | None => []
      end
  end.

Definition progress_saga state (act : ActivationState) (input : Binding) (body : Region) : Draw events :=
  if compensating_in_flight state (as_id act) then mret []
  else match saga_errors state !! as_id act with
  | Some error => compensate_or_fail state (as_id act) error
  | None =>
      match child_of state (as_id act) with
      | Some child =>
          match ss_status child with
          | ScopeStatus_Open => mret []
          | ScopeStatus_Failed error => compensate_or_fail state (as_id act) error
          | ScopeStatus_Completed output =>
              next ← follow_next state (as_scope act) (as_node act);
              mret (settle_saga_success state (as_id act) ++
                    [NodeOutputRecorded (as_run act) (as_scope act) (as_node act) output] ++ next)
          end
      | None =>
          scope ← lift (unwrap "scope of saga" (scopes state !! as_scope act));
          ctx ← lift (eval_ctx state scope);
          captured ← lift (eval_binding input ctx);
          scope_id ← fresh_scope;
          start ← fresh_activation;
          mret [ScopeOpened (as_run act) scope_id (Some (as_id act)) (ScopeRole_SagaBody (as_id act)) captured;
                ActivationOpened (as_run act) scope_id start (region_start body)]
      end
  end.

(** ** Cancellation *)
Definition open_sagas state (run : RunId.t) : list ActivationId.t :=
  as_id <$> List.filter (λ act,
      bool_decide (as_run act = run) &&
      match activation_node state act with Some (Node_Saga _ _ _) => true | _ => false end &&
      bool_decide (as_status act = ActivationStatus_Open))
    (hm_values (activations state)).

Fixpoint compensate_each state (sagas : list ActivationId.t) (error : FailError) : Draw events :=
  match sagas with
  | [] => mret []
  | saga :: sagas =>
      first ← compensate_or_fail state saga error;
      rest ← compensate_each state sagas error;
      mret (first ++ rest)
  end.

Definition decide_cancel state (run : RunId.t) (reason : string) : Draw events :=
  run_state ← lift (ok_or (runs state !! run) (error_invalid "unknown run"));
  if negb (run_is_active run_state) then lift (fail! "run is not active")
  else
    let error := mkFailError "run.cancelled" reason in
    match open_sagas state run with
    | [] =>
        match root_scope_of state run with
        | Some root => lift (fail_scope state (ss_id root) error)
        | None => lift (fail! "run has no root scope")
        end
    | sagas =>
        rest ← compensate_each state sagas error;
        mret (close_pending_waits state run ++ rest)
    end.

(** ** Operator actions *)
Definition is_settled (o : Obligation) : bool :=
  match ob_status o with
  | ObligationStatus_Compensated | ObligationStatus_Released | ObligationStatus_Abandoned => true
  | _ => false
  end.

Definition decide_abandon_compensation state (run : RunId.t) (reason : string) : Outcome events :=
  if bool_decide (reason = "") then fail! "abandon requires a reason"
  else
    run_state ← ok_or (runs state !! run) (error_invalid "unknown run");
    if match rs_status run_state with
       | RunStatus_Failed error => bool_decide (fe_code error = "saga.abandoned")
       | _ => false
       end
    then Ok []
    else
      let unresolved := ob_forward <$>
        List.filter (λ o, bool_decide (ob_run o = run) && negb (is_settled o)) (obligations state) in
      if bool_decide (unresolved = []) then fail! "no unresolved obligations to abandon"
      else
        closing ← (if run_is_active run_state then
            match root_scope_of state run with
            | Some root =>
                fail_scope state (ss_id root) (mkFailError "saga.abandoned"
                  ("unresolved obligations remain after operator abandonment: " +:+
                   join_with "," (ActivationId.to_hex <$> unresolved)))
            | None => Ok []
            end
          else Ok []);
        Ok (CompensationAbandoned run reason unresolved :: closing).

Definition decide_resolve_blocked state (run : RunId.t) (forward : ActivationId.t) (input : Value) :
    Outcome events :=
  o ← ok_or (lfind (for_forward forward) (obligations state)) (error_invalid "unknown obligation");
  if negb (bool_decide (ob_run o = run)) then fail! "obligation does not belong to run"
  else if negb (is_blocked o) then fail! "obligation is not blocked"
  else Ok [ObligationRegistered run forward (ob_handler o) (ob_handler_version o) input].

Definition decide_acknowledge_recovery state (reason : string) : Outcome events :=
  match recovery state with
  | None => fail! "no recovery hold"
  | Some hold =>
      if rh_authorized hold then Ok []
      else if bool_decide (reason = "") then fail! "recovery acknowledgement requires a reason"
      else Ok [RecoveryAuthorized reason]
  end.
End Saga.
