(* ===== verification/Signals.v ===== *)
(** * Signals, waits and timers *)
From stdpp Require Import base option gmap strings list.
From Stdlib Require Import ZArith Ascii Lia.
From S2P Require Import Prelude Value Ids Policy Catalog Ir Domain Eval Evolve History Steps.

Section Signals.
Context `{Platform} `{CatalogSerde} `{Serde}.
Implicit Types state : State.

Definition pending_wait state (run : RunId.t) (signal key : string) : option WaitState :=
  lfind (λ w, bool_decide (wt_run w = run) && wt_pending w && bool_decide (wt_signal w = signal)
              && bool_decide (wt_key w = key)) (hm_values (waits state)).

Definition has_pending_wait state (activation : ActivationId.t) : bool :=
  existsb (λ w, bool_decide (wt_activation w = activation) && wt_pending w) (hm_values (waits state)).

(** An accepted event identity with the same or a different content. *)
Definition signal_conflict : Error := error_new AlreadyExists "event id payload conflict".

Definition decide_signal state (run : RunId.t) (event_id : EventId.t) (signal key : string)
    (payload : Value) (time : Z) : Outcome events :=
  match signal_tombstones state !! tombstone_key run event_id with
  | Some existing =>
      if bool_decide (st_signal existing = signal) && bool_decide (st_key existing = key) then
        captured ← capture_in (ar_cluster_id (st_payload existing)) "graphrun.signal-payload/v1"
          (inr (to_json payload));
        if bool_decide (st_payload existing = captured) then Ok [] else Err signal_conflict
      else Err signal_conflict
  | None =>
  run_state ← ok_or (runs state !! run) (error_invalid "unknown run");
  match lfind (λ e, bool_decide (ie_run e = Some run) && bool_decide (ie_event_id e = event_id))
          (inbox state) with
  | Some existing =>
      if bool_decide (ie_signal existing = signal) && bool_decide (ie_key existing = key) &&
         bool_decide (ie_payload existing = payload)
      then Ok [] else Err signal_conflict
  | None =>
  if negb (run_is_active run_state) then fail! "run is terminal"
  else if negb (bt_contains signal (def_signals (rs_definition run_state)))
  then fail! ("unknown signal " +:+ signal)
  else
    let buffered := List.filter (λ e, bool_decide (ie_run e = Some run) && negb (ie_consumed e))
      (inbox state) in
    if MAX_BUFFERED_EVENTS_PER_RUN <=? zlen buffered
    then Err (error_new ResourceExhausted "inbox quota exceeded")
    else
      let same_addr := List.filter (λ e, negb (ie_consumed e) && bool_decide (ie_signal e = signal)
        && bool_decide (ie_key e = key)) (inbox state) in
      if MAX_EVENTS_PER_ADDRESS <=? zlen same_addr
      then Err (error_new ResourceExhausted "inbox address quota exceeded")
      else
        let sequence := rs_next_sequence run_state in
        let expires_ms := sat_add64 time
          (sat_mul64 (unreserved_event_days (rs_policy run_state)) (24 * 60 * 60 * 1000)) in
        let accepted := EventAccepted run event_id signal key payload sequence time expires_ms in
        Ok (accepted :: match pending_wait state run signal key with
                        | Some wait => [EventReserved (wt_id wait) event_id]
                        | None => []
                        end)
  end end.

(** May an unreserved entry satisfy this wait? *)
Definition eligible (wait : WaitState) (now_ms : Z) (e : InboxEntry) : bool :=
  negb (ie_consumed e) && bool_decide (ie_reserved_wait e = None)
  && bool_decide (ie_signal e = wt_signal wait) && bool_decide (ie_key e = wt_key wait)
  && match wt_consume_from wait with
     | ConsumeFrom_Buffered => true
     | ConsumeFrom_AfterActivation => wt_opened_sequence wait <=? ie_sequence e
     end
  && match wt_deadline_ms wait with
     | None => true
     | Some deadline => (ie_accepted_ms e =? 0) || (ie_accepted_ms e <=? deadline)
     end
  && ((ie_expires_ms e =? 0) || (now_ms <? ie_expires_ms e)).

Definition reserved_or_eligible state (wait : WaitState) (now_ms : Z) : option InboxEntry :=
  match lfind (λ e, negb (ie_consumed e) && bool_decide (ie_reserved_wait e = Some (wt_id wait)))
          (inbox state) with
  | Some entry => Some entry
  | None => lfind (eligible wait now_ms) (inbox state)
  end.

(** The events that consume an entry and move the waiting node on. *)
Definition satisfy state (run : RunId.t) (wait : WaitId.t) (act : ActivationState) (entry : InboxEntry) :
    Draw events :=
  next ← follow_next state (as_scope act) (as_node act);
  mret ([WaitSatisfied run wait (ie_event_id entry) (ie_payload entry);
         NodeOutputRecorded run (as_scope act) (as_node act) (ie_payload entry)] ++ next).

Definition decide_timer state (run : RunId.t) (wait : WaitId.t) (time : Z) : Draw events :=
  wait_state ← lift (ok_or (waits state !! wait) (error_invalid "unknown wait"));
  if negb (bool_decide (wt_run wait_state = run)) || negb (wt_pending wait_state)
  then lift (fail! "wait is not pending")
  else
    deadline ← lift (ok_or (wt_deadline_ms wait_state) (error_invalid "wait has no deadline"));
    if time <? deadline then lift (fail! "wait deadline has not been reached")
    else
      act ← lift (unwrap "activation of wait" (activations state !! wt_activation wait_state));
      match reserved_or_eligible state wait_state time with
      | Some entry => satisfy state run wait act entry
      | None =>
          next ← follow_timeout state act;
          mret (WaitTimedOut run wait :: next)
      end.

Definition wait_is_due state (run : RunId.t) (now : Z) (wait : WaitState) : bool :=
  bool_decide (wt_run wait = run) && wt_pending wait &&
  (match wt_deadline_ms wait with Some deadline => deadline <=? now | None => false end
   || bool_decide (is_Some (reserved_or_eligible state wait now))).

Definition due_wait state (run : RunId.t) (time : Z) : Draw (option events) :=
  let due := List.filter (wait_is_due state run time) (hm_values (waits state)) in
  let by_deadline w := default 0 (wt_deadline_ms w) in
  match head (sort_by (λ a b, by_deadline a <=? by_deadline b) due) with
  | None => mret None
  | Some wait =>
      match reserved_or_eligible state wait time with
      | Some entry =>
          act ← lift (unwrap "activation of wait" (activations state !! wt_activation wait));
          evs ← satisfy state run (wt_id wait) act entry;
          mret (Some evs)
      | None =>
          act ← lift (unwrap "activation of wait" (activations state !! wt_activation wait));
          if bool_decide (wt_signal wait = "__timer") then
            region ← lift (unwrap "region of wait" (region_for_scope state (as_scope act)));
            next ← lift (match region_node region (as_node act) with
              | Some (Node_Delay _ next) | Some (Node_WaitUntil _ next) => Ok next
              | _ => fail! "timer wait is not a delay or wait_until"
              end);
            opened ← open_node state (as_scope act) next;
            mret (Some (WaitTimedOut run (wt_id wait) :: opened))
          else
            evs ← decide_timer state run (wt_id wait) time;
            mret (Some evs)
      end
  end.

Definition open_wait state (act : ActivationState) (time : Z) : Draw events :=
  region ← lift (unwrap "region of wait" (region_for_scope state (as_scope act)));
  node ← lift (unwrap "node of wait" (region_node region (as_node act)));
  match node with
  | Node_WaitSignal signal key timeout_ms consume_from _ _ =>
      scope ← lift (unwrap "scope of wait" (scopes state !! as_scope act));
      ctx ← lift (eval_ctx state scope);
      key_val ← lift (eval_binding key ctx);
      key_str ← lift (ok_or (as_str key_val) (error_invalid "wait key must be a string"));
      if existsb (λ w, bool_decide (wt_run w = as_run act) && wt_pending w
           && bool_decide (wt_signal w = signal) && bool_decide (wt_key w = key_str))
           (hm_values (waits state))
      then lift (fail_scope state (as_scope act) (mkFailError "WaitKeyConflict"
             ("conflicting active wait address " +:+ signal +:+ "/" +:+ key_str)))
      else
        wait ← fresh_wait;
        run_state ← lift (unwrap "run of wait" (runs state !! as_run act));
        let deadline := (λ ms, sat_add64 time ms) <$> timeout_ms in
        let opened := WaitOpened (as_run act) wait (as_id act) signal key_str deadline consume_from in
        let fake := mkWaitState wait (as_run act) (as_id act) signal key_str deadline consume_from
          (rs_next_sequence run_state) true in
        match reserved_or_eligible state fake time with
        | Some entry =>
            rest ← satisfy state (as_run act) wait act entry;
            mret (opened :: rest)
        | None => mret [opened]
        end
  | _ => lift (Panic "unreachable")
  end.
End Signals.
