(* ===== verification/Claims.v ===== *)
(** * Worker sessions, claims and reconciliation

    The worker-facing half of [domain.rs]: session registration and renewal,
    granting claims on ready activations, renewing them, and accepting results
    from the current owner of a claim only. *)
From stdpp Require Import base option gmap strings list sorting.
From Stdlib Require Import ZArith Ascii Lia.
From S2P Require Import Prelude Value Ids Policy Catalog Ir Domain Eval Evolve History Steps.

Section Claims.
Context `{Platform} `{CatalogSerde} `{Serde}.
Implicit Types state : State.

Definition lease_from (time : Z) : Z := sat_add64 time SESSION_LEASE.
Definition unauthenticated (message : string) : Error := error_new Unauthenticated message.

(** ** Sessions *)
Definition decide_register state (session : WorkerSessionId.t) (activities : list string)
    (capacity time : Z) : Outcome events :=
  if (capacity =? 0) || (CLAIM_BATCH <? capacity) then fail! "invalid worker capacity"
  else if match sessions state !! session with
          | Some existing => time <? ws_expires_ms existing
          | None => false
          end
  then Ok []
  else Ok [SessionRegistered session activities capacity (lease_from time)].

(** [unique.insert((name, version, role))] over the declared capabilities. *)
Fixpoint check_capabilities (unique : list (string * Z * ExecutionRole))
    (capabilities : list WorkerCapability) : Outcome unit :=
  match capabilities with
  | [] => Ok tt
  | c :: capabilities =>
      let key := (wc_activity_name c, wc_activity_version c, wc_role c) in
      if negb (wc_codec_version c =? CODEC_VERSION) || bool_decide (key ∈ unique)
      then fail! "duplicate or unsupported worker capability"
      else check_capabilities (key :: unique) capabilities
  end.

Definition decide_register_worker state (session : WorkerSessionId.t) (principal_id : string)
    (capabilities : list WorkerCapability) (capacity protocol_min protocol_max time : Z) :
    Outcome events :=
  if bool_decide (principal_id = "") || bool_decide (is_Some (sessions state !! session))
  then fail! "worker session identity must be new and authenticated"
  else if (capacity =? 0) || (MAX_ACTIVE_LEAVES_PER_WORKER <? capacity)
          || bool_decide (length capabilities = 0%nat)
          || (PROTOCOL_VERSION <? protocol_min) || (protocol_max <? PROTOCOL_VERSION)
  then fail! "invalid worker capacity, protocol range, or capabilities"
  else
    _ ← check_capabilities [] capabilities;
    Ok [WorkerRegistered session principal_id capabilities capacity protocol_min protocol_max
          (lease_from time)].

Definition decide_renew_local_session state (session : WorkerSessionId.t) (time : Z) : Outcome events :=
  worker ← ok_or (sessions state !! session) (failed_precondition "unknown local session");
  if negb (bool_decide (ws_principal_id worker = "")) || (ws_expires_ms worker <=? time)
  then Err (failed_precondition "local worker session expired or is not local")
  else Ok [SessionRegistered session (ws_activities worker) (ws_capacity worker) (lease_from time)].

Definition decide_renew_worker_session state (session : WorkerSessionId.t) (revision time : Z) :
    Outcome events :=
  worker ← ok_or (sessions state !! session) (unauthenticated "unknown worker session");
  if bool_decide (ws_principal_id worker = "") || negb (ws_revision worker =? revision)
     || (ws_expires_ms worker <=? time)
  then Err (failed_precondition "stale or expired worker session")
  else Ok [WorkerSessionRenewed session (counter_next revision) (lease_from time)].

(** ** Which activity, in which role *)
Definition claimed_activity state (activation : ActivationId.t) (role : ExecutionRole) :
    Outcome (ActivityKey * Value) :=
  act ← ok_or (activations state !! activation) (error_invalid "missing activation");
  run ← ok_or (runs state !! as_run act) (error_invalid "missing run");
  match role with
  | ExecutionRole_Forward | ExecutionRole_Reconciliation =>
      region ← ok_or (lookup_region state (as_scope act)) (error_invalid "missing activity scope");
      node ← ok_or (region_node region (as_node act)) (error_invalid "missing activity node");
      match node with
      | Node_Activity activity input _ _ _ _ =>
          scope ← ok_or (scopes state !! as_scope act) (error_invalid "missing activity scope state");
          ctx ← eval_ctx state scope;
          bound ← eval_binding input ctx;
          key ← (if is_reconciliation role then
                   contract ← catalog_activity (rs_catalog run) activity;
                   ok_or (ac_reconciler contract) (error_invalid "missing reconciliation contract")
                 else Ok activity);
          Ok (key, bound)
      | _ => fail! "ready node is not an activity"
      end
  | ExecutionRole_Compensation =>
      o ← ok_or (lfind (is_compensating_with activation) (obligations state))
        (error_invalid "missing compensation obligation");
      Ok (mkActivityKey (ob_handler o) (ob_handler_version o), ob_input o)
  end.

Definition grant_role state (act : ActivationState) (time : Z) : ExecutionRole :=
  if bool_decide (as_role act = ExecutionRole_Compensation) then ExecutionRole_Compensation
  else if negb (match as_claim act with Some c => cl_lease_expiry_ms c <=? time | None => false end)
  then ExecutionRole_Forward
  else match runs state !! as_run act with
  | None => ExecutionRole_Forward
  | Some run =>
      match region ← lookup_region state (as_scope act); region_node region (as_node act) with
      | Some (Node_Activity activity _ _ _ _ _) =>
          match catalog_activity (rs_catalog run) activity with
          | Ok contract =>
              if bool_decide (ac_reconciler contract = None) then ExecutionRole_Forward
              else if bool_decide (ac_recovery contract = Recovery_Manual)
                      || run_is_aborting state (as_run act)
              then ExecutionRole_Reconciliation
              else ExecutionRole_Forward
          | _ => ExecutionRole_Forward
          end
      | _ => ExecutionRole_Forward
      end
  end.

Definition worker_matches state (worker : WorkerSession) (activation : ActivationId.t)
    (role : ExecutionRole) : Outcome bool :=
  act ← ok_or (activations state !! activation) (error_invalid "missing activation");
  run ← ok_or (runs state !! as_run act) (error_invalid "missing run");
  '(key, _) ← claimed_activity state activation role;
  if bool_decide (ws_principal_id worker = "")
  then Ok (existsb (λ name, bool_decide (name = "*") || bool_decide (name = ak_name key))
             (ws_activities worker))
  else
    required ← capability_for (rs_catalog run) key role;
    Ok (bool_decide (required ∈ ws_capabilities worker)).

Definition unclaimed_ready state (run : RunId.t) (time : Z) : list ActivationId.t :=
  List.filter (λ id,
    if bool_decide (is_Some (interventions state !! id)) then false
    else match activations state !! id with
    | None => false
    | Some act =>
        match as_claim act with
        | None => true
        | Some claim => cl_lease_expiry_ms claim <=? time
        end
    end) (ready_activations state run).

(** A claim of the session on a ready activation whose lease still runs. *)
Definition in_flight (session : WorkerSessionId.t) (time : Z) (act : ActivationState) : bool :=
  bool_decide (as_status act = ActivationStatus_Ready) &&
  match as_claim act with
  | Some claim => bool_decide (cl_session claim = session) && (time <? cl_lease_expiry_ms claim)
  | None => false
  end.

Definition worker_in_flight state (session : WorkerSessionId.t) (time : Z) : Z :=
  wrap32 (zlen (List.filter (in_flight session time) (hm_values (activations state)))).

(** A forward grant is withheld from a run past its deadline or aborting. *)
Definition forward_withheld state (run : RunId.t) (role : ExecutionRole) (time : Z) : bool :=
  bool_decide (role = ExecutionRole_Forward) &&
  (run_past_deadline state run time || run_is_aborting state run).

(** The two nested loops of [worker_has_ready]. *)
Fixpoint any_matching state (worker : WorkerSession) (run : RunId.t) (time : Z)
    (ready : list ActivationId.t) : Outcome bool :=
  match ready with
  | [] => Ok false
  | activation :: ready =>
      act ← unwrap "ready activation" (activations state !! activation);
      let role := grant_role state act time in
      if forward_withheld state run role time then any_matching state worker run time ready
      else
        matched ← worker_matches state worker activation role;
        if matched : bool then Ok true else any_matching state worker run time ready
  end.

Definition worker_has_ready state (session : WorkerSessionId.t) (time : Z) : Outcome bool :=
  worker ← ok_or (sessions state !! session) (error_invalid "unknown worker session");
  if ws_expires_ms worker <=? time then Err (failed_precondition "worker session expired")
  else if ws_capacity worker <=? worker_in_flight state session time then Ok false
  else any_until (λ run, any_matching state worker run time (unclaimed_ready state run time))
         (active_runs state).

(** ** Granting claims *)
Definition stable_effect_key (run : RunId.t) (activation : ActivationId.t) (role : ExecutionRole) :
    EffectKey.t :=
  EffectKey.from_bytes (String.substring 0 16 (sha256
    ("graphrun.effect-key/v1" +:+ nul +:+ RunId.as_bytes run +:+ ActivationId.as_bytes activation
     +:+ role_name role))).

(** [sort_by_key] on [(ready_order, id)]; an id of [unclaimed_ready] is always
    present, so the code's index expression does not panic. *)
Definition ready_order_of state (id : ActivationId.t) : Z :=
  match activations state !! id with Some act => as_ready_order act | None => 0 end.

Definition ready_leb state (a b : ActivationId.t) : bool :=
  (ready_order_of state a <? ready_order_of state b) ||
  ((ready_order_of state a =? ready_order_of state b) && ActivationId.leb a b).

Definition claim_candidates state (run : RunId.t) (time : Z) : list ActivationId.t :=
  sort_by (ready_leb state) (unclaimed_ready state run time).

(** The runs in identity order, rotated to start after the fairness cursor. *)
Definition fair_runs state : list RunId.t :=
  let sorted := sort_by RunId.leb (active_runs state) in
  match fair_cursor state with
  | None => sorted
  | Some last =>
      let next := length (List.filter (λ run, RunId.leb run last) sorted) in
      let offset := Nat.modulo next (length sorted) in
      drop offset sorted ++ take offset sorted
  end.

Fixpoint select_ready state (worker : WorkerSession) (run : RunId.t) (time : Z)
    (granted_ids ready : list ActivationId.t) : Outcome (option ActivationId.t) :=
  match ready with
  | [] => Ok None
  | id :: ready =>
      if bool_decide (id ∈ granted_ids) then select_ready state worker run time granted_ids ready
      else match activations state !! id with
      | None => select_ready state worker run time granted_ids ready
      | Some act =>
          let role := grant_role state act time in
          if forward_withheld state run role time
          then select_ready state worker run time granted_ids ready
          else
            matched ← worker_matches state worker id role;
            if matched : bool then Ok (Some id)
            else select_ready state worker run time granted_ids ready
      end
  end.

Definition attempt_timeout (role : ExecutionRole) : Z :=
  match role with
  | ExecutionRole_Reconciliation => RECONCILIATION_ATTEMPT_TIMEOUT
  | ExecutionRole_Compensation => COMPENSATION_ATTEMPT_TIMEOUT
  | ExecutionRole_Forward => FORWARD_ATTEMPT_TIMEOUT
  end.

(** The [ClaimGranted] event for one selected activation. *)
Definition grant_event state (run : RunId.t) (activation : ActivationId.t) (act : ActivationState)
    (session : WorkerSessionId.t) (granted time : Z) : Outcome DomainEvent :=
  let role := grant_role state act time in
  '(handler, input) ← claimed_activity state activation role;
  run_state ← ok_or (runs state !! run) (error_invalid "missing run");
  '(input_schema, _) ← contract_schemas (rs_catalog run_state) handler role;
  _ ← validate_value (rs_catalog run_state) input_schema input;
  let effect_key :=
    default (stable_effect_key run activation role)
      (if is_reconciliation role then cl_effect_key <$> as_claim act else None) in
  Ok (ClaimGranted run (as_scope act) activation (ak_name handler) (ak_version handler) input
        (sat_add32 (as_attempts act) 1) session (sat_add64 (next_generation state) (granted + 1)) 1
        (lease_from time) (sat_add64 time (attempt_timeout role)) effect_key role).

(** What the claim loop has granted so far. *)
Record ClaimLoop := mkClaimLoop {
  cll_granted : Z;
  cll_ids : list ActivationId.t;
  cll_events : events;
}.

(** One pass over the runs: at most one grant per run. *)
Fixpoint claim_pass state (worker : WorkerSession) (session : WorkerSessionId.t) (cap time : Z)
    (runs : list RunId.t) (acc : ClaimLoop) (progressed : bool) : Outcome (ClaimLoop * bool) :=
  match runs with
  | [] => Ok (acc, progressed)
  | run :: runs =>
      if cap <=? cll_granted acc then Ok (acc, progressed)
      else
        selected ← select_ready state worker run time (cll_ids acc) (claim_candidates state run time);
        match selected with
        | None => claim_pass state worker session cap time runs acc progressed
        | Some activation =>
            match activations state !! activation with
            | None => claim_pass state worker session cap time runs acc progressed
            | Some act =>
                event ← grant_event state run activation act session (cll_granted acc) time;
                claim_pass state worker session cap time runs
                  (mkClaimLoop (cll_granted acc + 1) (cll_ids acc ++ [activation])
                     (cll_events acc ++ [event])) true
            end
        end
  end.

(** [while granted < cap]: a pass that grants nothing ends the loop, so there
    are at most [cap] passes that grant and one that does not; [None] is running
    out of fuel. *)
Fixpoint claim_rounds (fuel : nat) state (worker : WorkerSession) (session : WorkerSessionId.t)
    (cap time : Z) (runs : list RunId.t) (acc : ClaimLoop) : option (Outcome ClaimLoop) :=
  match fuel with
  | O => None
  | S fuel =>
      if cap <=? cll_granted acc then Some (Ok acc)
      else match claim_pass state worker session cap time runs acc false with
      | Ok (acc, true) => claim_rounds fuel state worker session cap time runs acc
      | Ok (acc, false) => Some (Ok acc)
      | Err e => Some (Err e)
      | Panic w => Some (Panic w)
      end
  end.

Definition claim_cap state (worker : WorkerSession) (session : WorkerSessionId.t) (capacity time : Z) : Z :=
  Z.min (Z.min capacity (sat_sub (ws_capacity worker) (worker_in_flight state session time))) CLAIM_BATCH.

Definition decide_claim state (session : WorkerSessionId.t) (capacity time : Z) : Outcome events :=
  worker ← ok_or (sessions state !! session) (unauthenticated "unknown session");
  if ws_expires_ms worker <=? time then Err (failed_precondition "session expired")
  else
    let renewed :=
      if bool_decide (ws_principal_id worker = "")
      then [SessionRegistered session (ws_activities worker) (ws_capacity worker) (lease_from time)]
      else [] in
    let cap := claim_cap state worker session capacity time in
    if bool_decide (length (active_runs state) = 0%nat) then Ok renewed
    else
      final ← default (Panic "claim loop out of fuel")
        (claim_rounds (S (Z.to_nat cap)) state worker session cap time (fair_runs state)
           (mkClaimLoop 0 [] renewed));
      Ok (cll_events final).

(** ** Renewing and reporting *)
Definition decide_renew state (session : WorkerSessionId.t) (activation : ActivationId.t)
    (generation revision time : Z) : Outcome events :=
  worker ← ok_or (sessions state !! session) (unauthenticated "unknown session");
  if ws_expires_ms worker <=? time then Err (failed_precondition "session expired")
  else
    act ← ok_or (activations state !! activation) (error_invalid "unknown activation");
    claim ← ok_or (as_claim act) (failed_precondition "no claim");
    if negb (bool_decide (cl_session claim = session)) || negb (cl_generation claim =? generation)
    then Err (failed_precondition "stale claim")
    else if negb (cl_revision claim =? revision) then Err (failed_precondition "stale revision")
    else if (cl_lease_expiry_ms claim <=? time) || (cl_attempt_deadline_ms claim <=? time)
    then Err (failed_precondition "claim expired")
    else Ok [ClaimRenewed activation session generation (counter_next revision) (lease_from time)].

Definition validate_claim_owner state (run : RunId.t) (activation : ActivationId.t)
    (session : WorkerSessionId.t) (generation revision time : Z) : Outcome ClaimState :=
  act ← ok_or (activations state !! activation) (error_invalid "unknown activation");
  if negb (bool_decide (as_run act = run)) || negb (bool_decide (as_status act = ActivationStatus_Ready))
  then Err (failed_precondition "activation is not awaiting this result")
  else
    claim ← ok_or (as_claim act) (failed_precondition "no claim");
    if negb (bool_decide (cl_session claim = session)) || negb (cl_generation claim =? generation)
       || negb (cl_revision claim =? revision)
    then Err (failed_precondition "stale claim")
    else
      worker ← ok_or (sessions state !! session) (unauthenticated "unknown session");
      if (ws_expires_ms worker <=? time) || (cl_lease_expiry_ms claim <=? time)
         || (cl_attempt_deadline_ms claim <=? time)
      then Err (failed_precondition "claim or session expired")
      else Ok claim.

Definition decide_report_assigned state (run : RunId.t) (activation : ActivationId.t) (output : Value)
    (session : WorkerSessionId.t) (generation revision time : Z) : Draw events :=
  claim ← lift (validate_claim_owner state run activation session generation revision time);
  if is_reconciliation (cl_role claim)
  then lift (Err (failed_precondition "reconciliation claim must use reconcile"))
  else report_success state run activation output.

(** ** Reconciliation *)
Definition decide_reconcile state (run : RunId.t) (activation : ActivationId.t)
    (session : WorkerSessionId.t) (generation revision : Z) (outcome : ReconcileOutcome)
    (output : option Value) (time : Z) : Draw events :=
  act ← lift (ok_or (activations state !! activation) (error_invalid "unknown activation"));
  if negb (bool_decide (as_run act = run)) then lift (fail! "activation does not belong to run")
  else if negb (bool_decide (as_status act = ActivationStatus_Ready))
  then lift (fail! "activation is not awaiting a result")
  else
    claim ← lift (validate_claim_owner state run activation session generation revision time);
    if negb (is_reconciliation (cl_role claim))
    then lift (Err (failed_precondition "claim is not a reconciliation probe"))
    else if negb (Bool.eqb (bool_decide (outcome = ReconcileOutcome_Applied)) (bool_decide (is_Some output)))
    then lift (fail! "applied reconciliation requires output; other outcomes forbid it")
    else
      _ ← lift (match output with
                | Some value => validate_leaf_output state act value
                | None => Ok tt
                end);
      if bool_decide (outcome = ReconcileOutcome_Unknown) && cl_unknown_reported claim
      then lift (Err (failed_precondition "unknown reconciliation already reported for claim"))
      else
        let probes := sat_add32 (cl_probes claim) 1 in
        let recorded := ReconciliationRecorded run activation outcome output probes in
        match outcome with
        | ReconcileOutcome_Applied =>
            value ← lift (unwrap "validated applied output" output);
            rest ← report_success state run activation value;
            mret (recorded :: rest)
        | ReconcileOutcome_NotApplied =>
            mret (recorded :: ClaimCleared activation ::
              (if run_is_aborting state run
               then [LeafFailed run activation (Z.max (as_attempts act) 1) "not_applied"
                       "forward effect conclusively did not apply" false]
               else []))
        | ReconcileOutcome_Unknown =>
            mret (recorded ::
              (if RECONCILIATION_PROBES <=? probes
               then [InterventionRequired run activation "reconciliation probes exhausted";
                     ClaimCleared activation]
               else []))
        end.
End Claims.
