(* ===== verification/Progress.v ===== *)
(** * Control flow: loops, foreach, parallel, choose and the progress step

    The interpreter of [domain.rs]: one definition per control node, the scan
    over the open activations of a run ([next_progress]) and the bounded batch
    of steps that a [Progress] command takes. *)
From stdpp Require Import base option gmap strings list.
From Stdlib Require Import ZArith Ascii Lia.
From S2P Require Import Prelude Value Ids Policy Catalog Ir Domain Eval Evolve History Steps Saga Signals.

Section Progress.
Context `{Platform} `{CatalogSerde} `{Serde}.
Implicit Types state : State.

(** Records the node's output and opens its successor. *)
Definition finish_node state (act : ActivationState) (output : Value) : Draw events :=
  next ← follow_next state (as_scope act) (as_node act);
  mret (NodeOutputRecorded (as_run act) (as_scope act) (as_node act) output :: next).

(** Opens a child scope of an activation at the start of a region. *)
Definition open_child (act : ActivationState) (role : ScopeRole) (body : Region) (input : Value) :
    Draw events :=
  scope ← fresh_scope;
  start ← fresh_activation;
  mret [ScopeOpened (as_run act) scope (Some (as_id act)) role input;
        ActivationOpened (as_run act) scope start (region_start body)].

Definition open_loop_body (act : ActivationState) (body : Region) (carry : Value) (index : Z) :
    Draw events :=
  open_child act (ScopeRole_LoopBody (as_id act) index) body carry.

(** ** While and do-while *)
Definition loop_limit_error : FailError :=
  mkFailError "LoopLimitExceeded" "loop continuation at the iteration limit".

(** The carried value and count, or the initial value: an [unwrap] in the code. *)
Definition loop_entry state (act : ActivationState) (ctx : Outcome EvalCtx) (state_binding : Binding) :
    Outcome (Value * Z) :=
  match loop_carry state !! as_id act with
  | Some entry => Ok entry
  | None =>
      ctx ← ctx;
      carry ← unwrap_result (eval_binding state_binding ctx);
      Ok (carry, 0)
  end.

Definition progress_while state (act : ActivationState) (state_binding : Binding)
    (condition : Condition) (max_iterations : Z) (body : Region) (do_while : bool) : Draw events :=
  scope ← lift (unwrap "scope of loop" (scopes state !! as_scope act));
  '(carry, completed) ← lift (loop_entry state act (eval_ctx state scope) state_binding);
  match child_of state (as_id act) with
  | Some child =>
      match ss_status child with
      | ScopeStatus_Open => mret []
      | ScopeStatus_Failed error => lift (fail_scope state (as_scope act) error)
      | ScopeStatus_Completed carry =>
          let completed := wrap32 (completed + 1) in
          ctx ← lift (eval_ctx state scope);
          cont ← lift (eval_condition condition (ctx_with_loop carry completed ctx));
          let guard := GuardRecorded (as_run act) (as_id act) cont completed carry in
          if negb cont then
            rest ← finish_node state act carry;
            mret (guard :: rest)
          else if max_iterations <=? completed
          then lift (fail_scope state (as_scope act) loop_limit_error)
          else
            opened ← open_loop_body act body carry completed;
            mret (guard :: opened)
      end
  | None =>
      ctx ← lift (eval_ctx state scope);
      if (completed =? 0) && negb do_while then
        cont ← lift (eval_condition condition (ctx_with_loop carry completed ctx));
        let guard := GuardRecorded (as_run act) (as_id act) cont 0 carry in
        if negb cont then
          rest ← finish_node state act carry;
          mret (guard :: rest)
        else
          opened ← open_loop_body act body carry 0;
          mret (guard :: opened)
      else if (completed =? 0) && do_while then open_loop_body act body carry 0
      else mret []
  end.

(** ** Repeat: [count_n as u32] keeps the low 32 bits. *)
Definition progress_repeat state (act : ActivationState) (count state_binding : Binding)
    (max_iterations : Z) (body : Region) : Draw events :=
  scope ← lift (unwrap "scope of loop" (scopes state !! as_scope act));
  ctx ← lift (eval_ctx state scope);
  count_v ← lift (eval_binding count ctx);
  count_n ← lift (ok_or (as_i64 count_v) (error_invalid "repeat count must be an integer"));
  if (count_n <? 0) || (max_iterations <? wrap32 count_n)
  then lift (fail! "repeat count is out of range")
  else
    '(carry, completed) ← lift (loop_entry state act (Ok ctx) state_binding);
    if (count_n =? 0) && (completed =? 0) then finish_node state act carry
    else match child_of state (as_id act) with
    | Some child =>
        match ss_status child with
        | ScopeStatus_Open => mret []
        | ScopeStatus_Failed error => lift (fail_scope state (as_scope act) error)
        | ScopeStatus_Completed output =>
            if completed =? count_n then finish_node state act output
            else if count_n <? completed then mret []
            else open_loop_body act body output completed
        end
    | None => open_loop_body act body carry completed
    end.

(** ** Foreach *)
Definition scope_is_failed (s : ScopeState) : bool :=
  match ss_status s with ScopeStatus_Failed _ => true | _ => false end.

(** Fails the open siblings of a failed child that [keep] does not spare, in order. *)
Fixpoint cancel_siblings state (failed : ScopeId.t) (keep : ScopeState → bool) (error : FailError)
    (siblings : list ScopeState) : Outcome events :=
  match siblings with
  | [] => Ok []
  | sibling :: siblings =>
      if bool_decide (ss_id sibling = failed) || negb (scope_is_open sibling) || keep sibling
      then cancel_siblings state failed keep error siblings
      else
        first ← fail_scope state (ss_id sibling) error;
        rest ← cancel_siblings state failed keep error siblings;
        Ok (first ++ rest)
  end.

Definition item_cancelled : FailError := mkFailError "item.cancelled" "sibling foreach item failed".

Definition foreach_taken (children : list ScopeState) : list Z :=
  omap (λ child, match ss_role child with ScopeRole_ForeachItem _ index => Some index | _ => None end)
    children.

(** [while taken.contains(&i) || foreach_has(&done, i) { i += 1 }]. *)
Fixpoint first_free (fuel : nat) (taken : list Z) (done : list (Z * Value)) (index : Z) : option Z :=
  match fuel with
  | O => None
  | S fuel =>
      if bool_decide (index ∈ taken) || foreach_has done index
      then first_free fuel taken done (wrap32 (index + 1))
      else Some index
  end.

Definition progress_foreach state (act : ActivationState) (items : Binding)
    (max_items max_concurrency : Z) (body : Region) : Draw events :=
  scope ← lift (unwrap "scope of foreach" (scopes state !! as_scope act));
  ctx ← lift (eval_ctx state scope);
  value ← lift (eval_binding items ctx);
  match value with
  | VArray list =>
      if max_items <? wrap32 (zlen list) then lift (fail! "foreach exceeds max_items")
      else if bool_decide (length list = 0%nat) then finish_node state act (VArray [])
      else
        let done := default [] (foreach_done state !! as_id act) in
        if zlen done =? zlen list then
          ordered ← lift (outcome_map (λ i, unwrap "missing item output"
            (foreach_get done (wrap32 (Z.of_nat i)))) (seq 0 (length list)));
          finish_node state act (VArray ordered)
        else
          let children := children_of state (as_id act) in
          match failed ← lfind scope_is_failed children; error ← scope_failure failed; Some (failed, error) with
          | Some (failed, error) =>
              cancelled ← lift (cancel_siblings state (ss_id failed) (λ _, false) item_cancelled children);
              closing ← lift (fail_scope state (as_scope act) error);
              mret (cancelled ++ closing)
          | None =>
              if max_concurrency <=? zlen (List.filter scope_is_open children) then mret []
              else
                let taken := foreach_taken children in
                next_index ← lift (unwrap "index search out of fuel"
                  (first_free (S (length taken + length done)) taken done 0));
                match list !! Z.to_nat next_index with
                | None => mret []
                | Some item =>
                    open_child act (ScopeRole_ForeachItem (as_id act) next_index) body item
                end
          end
  | _ => lift (fail! "foreach items must be an array")
  end.

(** ** Parallel *)
Definition parallel_existing (children : list ScopeState) : list string :=
  omap (λ child, match ss_role child with ScopeRole_ParallelBranch _ name => Some name | _ => None end)
    children.

(** A claim on an activation of the scope: its effect may still apply. *)
Definition scope_claimed state (s : ScopeState) : bool :=
  existsb (λ item, bool_decide (as_scope item = ss_id s) &&
      match as_claim item with Some claim => 0 <? cl_lease_expiry_ms claim | None => false end)
    (hm_values (activations state)).

Definition branch_cancelled : FailError := mkFailError "branch.cancelled" "sibling branch failed".

(** The failure half of [progress_parallel]: cancels what is certain, and fails
    the node once nothing uncertain is left. *)
Definition parallel_failure state (act : ActivationState) : Outcome events :=
  let children := children_of state (as_id act) in
  match failed ← lfind scope_is_failed children; error ← scope_failure failed; Some (failed, error) with
  | None => Ok []
  | Some (failed, error) =>
      cancelled ← cancel_siblings state (ss_id failed) (scope_claimed state) branch_cancelled children;
      let uncertain := existsb (λ s, negb (bool_decide (ss_id s = ss_id failed)) && scope_is_open s
                                     && scope_claimed state s) children in
      if uncertain then Ok cancelled
      else
        closing ← fail_scope state (as_scope act) error;
        Ok (cancelled ++ closing)
  end.

Definition progress_parallel state (act : ActivationState) (branches : list ParallelBranch) : Draw events :=
  let done := default [] (parallel_done state !! as_id act) in
  if (length done =? length branches)%nat then
    ordered ← lift (outcome_map (λ b, unwrap "missing branch output" (bt_get (branch_name b) done)) branches);
    finish_node state act (VArray ordered)
  else
    let existing := parallel_existing (children_of state (as_id act)) in
    if (length existing <? length branches)%nat then
      scope ← lift (unwrap "scope of parallel" (scopes state !! as_scope act));
      ctx ← lift (eval_ctx state scope);
      match lfind (λ b, negb (bool_decide (branch_name b ∈ existing))) branches with
      | Some branch =>
          input ← lift (eval_binding (branch_input branch) ctx);
          open_child act (ScopeRole_ParallelBranch (as_id act) (branch_name branch)) (branch_body branch) input
      | None => lift (parallel_failure state act)
      end
    else lift (parallel_failure state act).

(** ** Choose: the first case whose condition holds, else the default. *)
Fixpoint choose_case (cases : list ChooseCase) (default : Region) (ctx : EvalCtx) :
    Outcome (string * Region) :=
  match cases with
  | [] => Ok ("default", default)
  | c :: cases =>
      b ← eval_condition (case_when c) ctx;
      if b : bool then Ok (case_name c, case_body c) else choose_case cases default ctx
  end.

Definition progress_choose state (act : ActivationState) (input : Binding) (cases : list ChooseCase)
    (default : Region) : Draw events :=
  match child_of state (as_id act) with
  | Some child =>
      match ss_status child with
      | ScopeStatus_Open => mret []
      | ScopeStatus_Failed error => lift (fail_scope state (as_scope act) error)
      | ScopeStatus_Completed output => finish_node state act output
      end
  | None =>
      scope ← lift (unwrap "scope of choose" (scopes state !! as_scope act));
      ctx ← lift (eval_ctx state scope);
      captured ← lift (eval_binding input ctx);
      '(name, chosen) ← lift (choose_case cases default ctx);
      open_child act (ScopeRole_ChooseBody (as_id act) name) chosen captured
  end.

(** ** One step of a run *)
Definition timer_wait state (run : RunId.t) (act : ActivationState) (deadline_ms : Z) : Draw events :=
  wait ← fresh_wait;
  mret [WaitOpened run wait (as_id act) "__timer" (ActivationId.to_hex (as_id act)) (Some deadline_ms)
          ConsumeFrom_AfterActivation].

(** The arm of [next_progress] for an open activation; [None] is [continue]. *)
Definition progress_node state (run : RunId.t) (time : Z) (act : ActivationState) (node : Node) :
    Draw (option events) :=
  let unless_empty (evs : Draw events) : Draw (option events) :=
    evs ← evs; mret (if bool_decide (length evs = 0%nat) then None else Some evs) in
  let always (evs : Draw events) : Draw (option events) := evs ← evs; mret (Some evs) in
  match node with
  | Node_Activity _ _ _ _ _ _ =>
      mret (Some [ActivationOpened run (as_scope act) (as_id act) (as_node act)])
  | Node_Complete output =>
      scope ← lift (unwrap "scope of node" (scopes state !! as_scope act));
      ctx ← lift (eval_ctx state scope);
      value ← lift (eval_binding output ctx);
      mret (Some (complete_scope scope value))
  | Node_Fail error => always (lift (fail_scope state (as_scope act) error))
  | Node_Delay duration _ =>
      if has_pending_wait state (as_id act) then mret None
      else
        scope ← lift (unwrap "scope of node" (scopes state !! as_scope act));
        ctx ← lift (eval_ctx state scope);
        ms ← lift (eval_duration_ms duration ctx);
        always (timer_wait state run act (sat_add64 time ms))
  | Node_WaitUntil at_ next =>
      if has_pending_wait state (as_id act) then mret None
      else
        scope ← lift (unwrap "scope of node" (scopes state !! as_scope act));
        ctx ← lift (eval_ctx state scope);
        value ← lift (eval_binding at_ ctx);
        at_ms ← lift (match value with
          | VInt v => if 0 <=? v then Ok v else fail! "wait_until at must be a non-negative integer"
          | _ => fail! "wait_until at must be a non-negative integer"
          end);
        if at_ms <=? time then always (open_node state (as_scope act) next)
        else always (timer_wait state run act at_ms)
  | Node_WaitSignal _ _ _ _ _ _ =>
      if has_pending_wait state (as_id act) then mret None
      else always (open_wait state act time)
  | Node_While st _ condition max_iterations body _ =>
      unless_empty (progress_while state act st condition max_iterations body false)
  | Node_DoWhile st _ condition max_iterations body _ =>
      unless_empty (progress_while state act st condition max_iterations body true)
  | Node_Repeat count st _ max_iterations body _ =>
      unless_empty (progress_repeat state act count st max_iterations body)
  | Node_Foreach items _ max_items max_concurrency body _ =>
      unless_empty (progress_foreach state act items max_items max_concurrency body)
  | Node_Parallel branches _ => unless_empty (progress_parallel state act branches)
  | Node_Choose input cases default _ => unless_empty (progress_choose state act input cases default)
  | Node_Saga input body _ => unless_empty (progress_saga state act input body)
  end.

Fixpoint scan_activations state (run : RunId.t) (time : Z) (acts : list ActivationState) :
    Draw (option events) :=
  match acts with
  | [] => mret None
  | act :: acts =>
      if negb (bool_decide (as_run act = run)) || negb (bool_decide (as_role act = ExecutionRole_Forward))
         || negb (bool_decide (as_status act = ActivationStatus_Open))
      then scan_activations state run time acts
      else
        region ← lift (unwrap "region of activation" (region_for_scope state (as_scope act)));
        node ← lift (unwrap "node of activation" (region_node region (as_node act)));
        found ← progress_node state run time act node;
        match found with
        | Some evs => mret (Some evs)
        | None => scan_activations state run time acts
        end
  end.

Definition next_progress state (run : RunId.t) (time : Z) : Draw (option events) :=
  match runs state !! run with
  | None => mret None
  | Some run_state =>
      if negb (run_is_active run_state) then mret None
      else
        due ← due_wait state run time;
        match due with
        | Some evs => mret (Some evs)
        | None => scan_activations state run time (hm_values (activations state))
        end
  end.

Fixpoint progress_batch (n : nat) (working : State) (run : RunId.t) (time : Z) (acc : events) : Draw events :=
  match n with
  | O => mret acc
  | S n =>
      next ← next_progress working run time;
      match next with
      | None => mret acc
      | Some evs =>
          working ← lift (apply_events working evs);
          progress_batch n working run time (acc ++ evs)
      end
  end.

Definition decide_progress state (run : RunId.t) (time : Z) : Draw events :=
  progress_batch PROGRESS_BATCH state run time [].
End Progress.
