(* ===== verification/Command.v ===== *)
(** * Deciding and applying commands

    The entry points of [domain.rs]: [decide] dispatches a command to its
    decision, [apply_command] admits it (identity, receipt, engine time), applies
    the decided events and records the receipt. A function that takes
    [&mut State] returns the new state; on an error the caller
    ([storage.rs], [apply_app_entry]) reloads the stored state, so an error
    carries none. *)
From stdpp Require Import base option gmap strings list.
From Stdlib Require Import ZArith Ascii Lia.
From S2P Require Import Prelude Value Ids Policy Catalog Ir Domain Eval Evolve History Steps Saga Signals Claims Progress.

(** [u64::to_le_bytes]. *)
Definition le_bytes64 (n : Z) : string := le_bytes32 n +:+ le_bytes32 (n / 2 ^ 32).

Definition AUTHENTICATED_PREFIX : string := "graphrun.authenticated-request/v1:".

Section Command.
Context `{Platform} `{CatalogSerde} `{Serde}.
Implicit Types state : State.

(** ** Identity of a command *)
Definition internal_only (body : CommandBody) : bool :=
  match body with
  | Cmd_Authenticated _ _ | Cmd_Publication _ _ | Cmd_PruneHistory _ | Cmd_Progress _
  | Cmd_ResolveTimer _ _ => true
  | _ => false
  end.

Definition into_cause (c : Command) : Outcome (Command * option string) :=
  match cmd_body c with
  | Cmd_Authenticated principal_id body =>
      if is_err (principal_id_parse principal_id) || internal_only body
      then fail! "invalid authenticated command cause"
      else Ok (mkCommand (cmd_id c) body (cmd_time c), Some principal_id)
  | _ => Ok (c, None)
  end.

Definition authenticated_command_id (actor : string) (external_id : CommandId.t) : Outcome CommandId.t :=
  _ ← principal_id_parse actor;
  Ok (CommandId.from_bytes (String.substring 0 16 (sha256
    ("graphrun.authenticated-command-id/v1" +:+ nul +:+ le_bytes64 (zlen_string actor) +:+ actor +:+
     CommandId.as_bytes external_id)))).

Definition authenticated_request_digest (body : CommandBody) : Outcome string :=
  let '(logical, kind) :=
    match body with
    | Cmd_Start _ definition input catalog => (start_to_value (definition, input, catalog), "start")
    | body => (body_to_value body, "body")
    end in
  logical ← from_serde error_invalid logical;
  bytes ← canonical_json logical;
  Ok (AUTHENTICATED_PREFIX +:+
      hex_encode (sha256 ("graphrun.authenticated-request/v1" +:+ nul +:+ kind +:+ nul +:+ bytes))).

Definition verify_command_identity state (id : CommandId.t) (actor : option string)
    (external_id : CommandId.t) (digest : option string) : Outcome unit :=
  if bool_decide (commands state !! id = None) then
    if bool_decide (is_Some (command_actors state !! id))
       || bool_decide (is_Some (command_external_ids state !! id))
       || bool_decide (is_Some (authenticated_request_digests state !! id))
    then Err (failed_precondition "command identity has no retained receipt")
    else Ok tt
  else if negb (bool_decide (command_actors state !! id = actor))
          || (bool_decide (is_Some actor) &&
              negb (bool_decide (command_external_ids state !! id = Some external_id)))
          || (bool_decide (actor = None) &&
              (bool_decide (is_Some (command_external_ids state !! id)) ||
               bool_decide (is_Some (authenticated_request_digests state !! id))))
  then Err (error_new AlreadyExists "command ID collides with another command identity")
  else if bool_decide (is_Some actor) then
    let expected := authenticated_request_digests state !! id in
    if match expected with Some value => negb (String.prefix AUTHENTICATED_PREFIX value) | None => false end
    then Err (failed_precondition "unsupported authenticated request digest format")
    else if negb (bool_decide (expected = digest))
    then Err (error_new AlreadyExists "command ID reused with different authenticated request")
    else Ok tt
  else Ok tt.

Definition prepare_command state (c : Command) (actor : option string) :
    Outcome (Command * CommandId.t * option string) :=
  let external_id := cmd_id c in
  digest ← match actor with
    | Some _ => d ← authenticated_request_digest (cmd_body c); Ok (Some d)
    | None => Ok None
    end;
  id ← match actor with
    | Some actor => authenticated_command_id actor external_id
    | None => Ok (cmd_id c)
    end;
  let c := mkCommand id (cmd_body c) (cmd_time c) in
  _ ← verify_command_identity state (cmd_id c) actor external_id digest;
  Ok (c, external_id, digest).

Definition is_worker_request (body : CommandBody) : bool :=
  match body with
  | Cmd_RegisterWorker _ _ _ _ _ _ | Cmd_RenewWorkerSession _ _ | Cmd_Claim _ _ | Cmd_Renew _ _ _ _
  | Cmd_ReportAssigned _ _ _ _ _ _ | Cmd_ReportWorker _ _ _ _ _ _ _ | Cmd_Reconcile _ _ _ _ _ _ _
  | Cmd_ReconcileWorker _ _ _ _ _ _ _ => true
  | _ => false
  end.

Definition worker_request_digest (body : CommandBody) : Outcome (option string) :=
  if negb (is_worker_request body) then Ok None
  else
    json ← from_serde error_invalid (body_to_value body);
    bytes ← canonical_json json;
    Ok (Some (hex_encode (sha256 bytes))).

Definition verify_worker_retry state (id : CommandId.t) (digest : option string) : Outcome unit :=
  match worker_command_digests state !! id, digest with
  | Some expected, Some actual =>
      if bool_decide (expected = actual) then Ok tt
      else Err (error_new AlreadyExists "worker command ID reused with different request")
  | None, None => Ok tt
  | _, _ => Err (error_new AlreadyExists "worker command ID reused with different request")
  end.

Definition authenticated_receipt state (external_id : CommandId.t) (actor : string) (body : CommandBody) :
    Outcome (option events) :=
  id ← authenticated_command_id actor external_id;
  digest ← authenticated_request_digest body;
  _ ← verify_command_identity state id (Some actor) external_id (Some digest);
  _ ← (if bool_decide (is_Some (commands state !! id)) then
         d ← worker_request_digest body; verify_worker_retry state id d
       else Ok tt);
  Ok (commands state !! id).

(** ** Decisions *)
Definition decide_start (run : RunId.t) (definition : Definition_) (input : Value) (time : Z) :
    Draw events :=
  root ← fresh_scope;
  start_act ← fresh_activation;
  mret [RunAdmitted run (def_id definition) (def_version definition) input root
          (captured_policy_defaults (def_run_timeout_ms definition)) time;
        ScopeOpened run root None ScopeRole_Root input;
        ActivationOpened run root start_act (region_start (def_root definition))].

(** The checks [ReportWorker] and [ReconcileWorker] share: the claim, the
    claimed contract, and the digest of its output schema. *)
Definition claimed_capability state (run : RunId.t) (activation : ActivationId.t) (claim : ClaimState)
    (missing mismatch schema_digest : string) : Outcome (Catalog * ActivityKey) :=
  found ← activity_key state activation;
  '(name, version, _) ← ok_or found (error_invalid missing);
  run_state ← ok_or (runs state !! run) (error_invalid "unknown run");
  let key := mkActivityKey name version in
  capability ← capability_for (rs_catalog run_state) key (cl_role claim);
  if negb (bool_decide (wc_output_schema_digest capability = schema_digest)) then fail! mismatch
  else Ok (rs_catalog run_state, key).

Definition decide_report_worker state (run : RunId.t) (activation : ActivationId.t)
    (session : WorkerSessionId.t) (generation revision : Z) (schema_digest : string)
    (result : WorkerResult) (time : Z) : Draw events :=
  claim ← lift (validate_claim_owner state run activation session generation revision time);
  if is_reconciliation (cl_role claim) then lift (fail! "reconciliation claim must use reconcile")
  else
    '(catalog, key) ← lift (claimed_capability state run activation claim
      "claimed activity unavailable" "worker result schema digest mismatch" schema_digest);
    match result with
    | WorkerResult_Success output =>
        decide_report_assigned state run activation output session generation revision time
    | WorkerResult_Error code message =>
        if bool_decide (message = "") then lift (fail! ("undeclared handler error code " +:+ code))
        else
          contract ← lift (catalog_activity catalog key);
          if bool_decide (known_code contract code = None) && negb (String.prefix "worker." code)
          then lift (fail! ("undeclared handler error code " +:+ code))
          else lift (decide_report_error state run activation code message)
    end.

Definition probe_result (result : WorkerProbe) :
    Outcome (ReconcileOutcome * option Value * option (string * string)) :=
  match result with
  | WorkerProbe_Observed outcome output => Ok (outcome, output, None)
  | WorkerProbe_Error code message =>
      if negb (bool_decide (code = "")) && negb (bool_decide (message = ""))
      then Ok (ReconcileOutcome_Unknown, None, Some (code, message))
      else fail! "probe error requires code and message"
  end.

Definition decide_reconcile_worker state (run : RunId.t) (activation : ActivationId.t)
    (session : WorkerSessionId.t) (generation revision : Z) (schema_digest : string)
    (result : WorkerProbe) (time : Z) : Draw events :=
  claim ← lift (validate_claim_owner state run activation session generation revision time);
  if negb (is_reconciliation (cl_role claim)) then lift (fail! "claim is not a reconciliation probe")
  else
    _ ← lift (claimed_capability state run activation claim
      "claimed reconciler unavailable" "worker probe schema digest mismatch" schema_digest);
    '(outcome, output, error) ← lift (probe_result result);
    evs ← decide_reconcile state run activation session generation revision outcome output time;
    mret (match error with
          | Some (code, message) => ReconciliationFailed run activation code message :: evs
          | None => evs
          end).

Definition SUSPENDED : Error :=
  failed_precondition "execution suspended until recovery is acknowledged".

(** The [match] of [decide]. *)
Definition decide_body state (c : Command) : Draw events :=
  let time := cmd_time c in
  match cmd_body c with
  | Cmd_PrepareWriterFormat _ _ | Cmd_ActivateWriterFormat _ _ =>
      lift (fail! "format policy requires ordered Raft apply")
  | Cmd_Authenticated _ _ => lift (fail! "authenticated cause requires replicated apply")
  | Cmd_Publication _ _ => lift (fail! "publication requires replicated apply")
  | Cmd_PruneHistory _ => lift (fail! "retention requires replicated apply")
  | Cmd_Start run definition input _ =>
      if execution_suspended state then lift (Err SUSPENDED)
      else decide_start run definition input time
  | Cmd_ReportLeaf run activation output => decide_report state run activation output time
  | Cmd_ReportError run activation code message =>
      lift (decide_report_error state run activation code message)
  | Cmd_ResolveBlocked run forward input => lift (decide_resolve_blocked state run forward input)
  | Cmd_Signal run event_id signal key payload =>
      lift (decide_signal state run event_id signal key payload time)
  | Cmd_ResolveTimer run wait => decide_timer state run wait time
  | Cmd_Progress run => decide_progress state run time
  | Cmd_Cancel run reason => decide_cancel state run reason
  | Cmd_RegisterSession session activities capacity =>
      lift (decide_register state session activities capacity time)
  | Cmd_RenewLocalSession session => lift (decide_renew_local_session state session time)
  | Cmd_RegisterWorker session principal_id capabilities capacity protocol_min protocol_max =>
      lift (decide_register_worker state session principal_id capabilities capacity protocol_min
              protocol_max time)
  | Cmd_RenewWorkerSession session revision =>
      lift (decide_renew_worker_session state session revision time)
  | Cmd_Claim session capacity =>
      if execution_suspended state then mret []
      else lift (decide_claim state session capacity time)
  | Cmd_Renew session activation generation revision =>
      lift (decide_renew state session activation generation revision time)
  | Cmd_ReportAssigned run activation output session generation revision =>
      decide_report_assigned state run activation output session generation revision time
  | Cmd_ReportWorker run activation session generation revision schema_digest result =>
      decide_report_worker state run activation session generation revision schema_digest result time
  | Cmd_AcknowledgeRecovery reason => lift (decide_acknowledge_recovery state reason)
  | Cmd_AbandonCompensation run reason => lift (decide_abandon_compensation state run reason)
  | Cmd_Reconcile run activation session generation revision outcome output =>
      decide_reconcile state run activation session generation revision outcome output time
  | Cmd_ReconcileWorker run activation session generation revision schema_digest result =>
      decide_reconcile_worker state run activation session generation revision schema_digest result time
  end.

Definition decide state (c : Command) : Outcome events :=
  _ ← verify_command_identity state (cmd_id c) None (cmd_id c) None;
  match commands state !! cmd_id c with
  | Some evs => Ok evs
  | None => '(evs, _) ← decide_body state c (idgen_new (cmd_id c)); Ok evs
  end.

(** ** Applying a command *)

(** Stamps the terminal time of the runs that the events ended. *)
Definition record_terminal (time : Z) state (event : DomainEvent) : Outcome State :=
  if is_terminal_event event then
    owner ← event_owner state event;
    match owner with
    | Some run => Ok (upd_runs (alter (run_with_terminal_ms time) run) state)
    | None => Ok state
    end
  else Ok state.

(** The set of runs the events belong to. *)
Fixpoint affected_runs state (evs : events) (acc : gmap RunId.t unit) : Outcome (gmap RunId.t unit) :=
  match evs with
  | [] => Ok acc
  | event :: evs =>
      owner ← event_owner state event;
      affected_runs state evs (match owner with Some run => <[run := tt]> acc | None => acc end)
  end.

Definition record_receipt (id external_id : CommandId.t) (evs : events) (actor authenticated_digest
    worker_digest : option string) (time : Z) state : Outcome State :=
  let state := upd_commands (insert id evs) state in
  state ← match actor with
    | Some actor =>
        digest ← unwrap "authenticated command has a request digest" authenticated_digest;
        let state := upd_command_actors (insert id actor) state in
        let state := upd_command_external_ids (insert id external_id) state in
        Ok (upd_request_digests (insert id digest) state)
    | None => Ok state
    end;
  let state := upd_command_times (insert id time) state in
  Ok (match worker_digest with
      | Some digest => upd_worker_digests (insert id digest) state
      | None => state
      end).

Definition apply_command_with_actor state (c : Command) (actor : option string)
    (external_id : CommandId.t) (authenticated_digest : option string) : Outcome (events * State) :=
  worker_digest ← worker_request_digest (cmd_body c);
  match commands state !! cmd_id c with
  | Some evs =>
      _ ← verify_worker_retry state (cmd_id c) worker_digest;
      Ok (evs, state)
  | None =>
      let time := Z.max (cmd_time c) (engine_time_watermark_ms state) in
      let c := mkCommand (cmd_id c) (cmd_body c) time in
      let state := upd_watermark (λ _, time) state in
      evs ← decide state c;
      state ← apply_events_with_cause state evs (Some external_id) actor time;
      state ← outcome_fold (record_terminal time) state evs;
      state ← record_receipt (cmd_id c) external_id evs actor authenticated_digest worker_digest time state;
      affected ← affected_runs state evs ∅;
      state ← outcome_fold (λ state run, checkpoint_after_command state run time) state (hm_keys affected);
      Ok (evs, state)
  end.

Definition apply_command state (c : Command) : Outcome (events * State) :=
  '(c, actor) ← into_cause c;
  '(c, external_id, digest) ← prepare_command state c actor;
  apply_command_with_actor state c actor external_id digest.

(** A run as it is inserted before its admission is applied. *)
Definition provisional_run (run : RunId.t) (definition : Definition_) (catalog : Catalog)
    (published : option PinnedPublication) : RunState :=
  mkRunState run definition catalog VNull (captured_policy_defaults None) RunStatus_Active
    (ScopeId.from_bytes (String.concat "" (replicate 16 nul))) 1 0 0 0 published.

(** ** Committing a command: the path of [commit_command] for everything but
    publications and retention, after [into_cause]. *)
Definition start_digest (body : CommandBody) : Outcome (option string) :=
  match body with
  | Cmd_Start _ definition input catalog =>
      logical ← from_serde error_invalid (start_to_value (definition, input, catalog));
      bytes ← canonical_json logical;
      Ok (Some (hex_encode (sha256 bytes)))
  | _ => Ok None
  end.

Definition verify_start_retry state (id : CommandId.t) (digest : option string) : Outcome unit :=
  match legacy_start_digests state !! id, digest with
  | Some expected, Some actual =>
      if bool_decide (expected = actual) then Ok tt
      else Err (error_new AlreadyExists "command ID reused with a different inline start request")
  | _, _ => Ok tt
  end.

(** A [Start] inserts the run that its admission will fill in. *)
Definition provide_run state (body : CommandBody) : State :=
  match body with
  | Cmd_Start run definition _ catalog =>
      if bool_decide (is_Some (runs state !! run)) then state
      else upd_runs (insert run (provisional_run run definition catalog None)) state
  | _ => state
  end.

Definition commit_execution state (c : Command) (actor : option string) : Outcome (events * State) :=
  '(c, external_id, authenticated_digest) ← prepare_command state c actor;
  start_digest ← start_digest (cmd_body c);
  worker_digest ← worker_request_digest (cmd_body c);
  match commands state !! cmd_id c with
  | Some evs =>
      _ ← verify_worker_retry state (cmd_id c) worker_digest;
      _ ← verify_start_retry state (cmd_id c) start_digest;
      Ok (evs, state)
  | None =>
      let state := provide_run state (cmd_body c) in
      '(evs, state) ← apply_command_with_actor state c actor external_id authenticated_digest;
      Ok (evs, match start_digest with
               | Some digest => upd_legacy_start_digests (insert (cmd_id c) digest) state
               | None => state
               end)
  end.

Definition start_run state (c : Command) (definition : Definition_) (catalog : Catalog) :
    Outcome (events * State) :=
  match cmd_body c with
  | Cmd_Start run _ _ _ =>
      _ ← verify_command_identity state (cmd_id c) None (cmd_id c) None;
      match commands state !! cmd_id c with
      | Some evs => Ok (evs, state)
      | None =>
          let state := upd_runs (insert run (provisional_run run definition catalog None)) state in
          evs ← decide state c;
          state ← apply_events_with_cause state evs (Some (cmd_id c)) None (cmd_time c);
          let state := upd_commands (insert (cmd_id c) evs) state in
          let state := upd_command_times (insert (cmd_id c) (cmd_time c)) state in
          state ← checkpoint_after_command state run (cmd_time c);
          Ok (evs, state)
      end
  | _ => fail! "start_run requires Start"
  end.

(** ** Reads *)
Definition run_events state (run : RunId.t) : events := default [] (history state !! run).

Definition history_or_unavailable state (run : RunId.t) (now : Z) : Outcome events :=
  run_state ← ok_or (runs state !! run) (error_new NotFound "unknown run");
  if run_is_active run_state then Ok (run_events state run)
  else if rs_terminal_ms run_state =? 0 then Ok (run_events state run)
  else if sat_add64 (rs_terminal_ms run_state)
            (sat_mul64 (terminal_history_days (rs_policy run_state)) (24 * 60 * 60 * 1000)) <? now
  then Err (unavailable "history range is unavailable")
  else Ok (run_events state run).

Definition run_output state (run : RunId.t) : option Value :=
  match rs_status <$> runs state !! run with
  | Some (RunStatus_Succeeded output) => Some output
  | _ => None
  end.

Record AssignmentView := mkAssignmentView {
  av_run : RunId.t;
  av_scope : ScopeId.t;
  av_activation : ActivationId.t;
  av_activity_name : string;
  av_activity_version : Z;
  av_input : Value;
  av_role : ExecutionRole;
  av_capability : WorkerCapability;
  av_attempt : Z;
  av_effect_key : EffectKey.t;
  av_generation : Z;
  av_revision : Z;
  av_lease_expiry_ms : Z;
  av_attempt_deadline_ms : Z;
  av_session : WorkerSessionId.t;
}.

(** The assignment a grant still stands for; the wall clock is [now]. *)
Definition assignment_of state (now : Z) (event : DomainEvent) : Outcome (option AssignmentView) :=
  match event with
  | ClaimGranted run scope activation handler handler_version input attempt session generation _ _
      attempt_deadline_ms effect_key role =>
      match act ← activations state !! activation; as_claim act with
      | None => Ok None
      | Some claim =>
          if negb (bool_decide (cl_session claim = session)) || negb (cl_generation claim =? generation)
             || negb (bool_decide (cl_role claim = role)) || (cl_lease_expiry_ms claim <=? now)
          then Ok None
          else
            run_state ← ok_or (runs state !! run) (error_invalid "claimed run unavailable");
            capability ← capability_for (rs_catalog run_state) (mkActivityKey handler handler_version) role;
            Ok (Some (mkAssignmentView run scope activation handler handler_version input role capability
                  attempt effect_key generation (cl_revision claim) (cl_lease_expiry_ms claim)
                  attempt_deadline_ms session))
      end
  | _ => Ok None
  end.

Definition assignments_from state (now : Z) (evs : events) : Outcome (list AssignmentView) :=
  views ← outcome_map (assignment_of state now) evs;
  Ok (omap (M := list) (λ view : option AssignmentView, view) views).
End Command.
