(* ===== verification/Publication.v ===== *)
(** * Publishing catalogs and definitions, and keyed starts

    [publication.rs]: the authenticated key of a command, what it may do
    ([AuthContext]), and [apply], which applies a publication to the replicated
    state and keeps a receipt of the outcome, applied or rejected. *)
From stdpp Require Import base option gmap strings list.
From Stdlib Require Import ZArith Ascii Lia.
From S2P Require Import Prelude Value Ids Policy Catalog Ir Analysis Equality Domain Eval Evolve History Steps Command.

Definition RESULT_FORMAT : string := "graphrun.command-result/v1".
Definition CATALOG_FORMAT : string := "graphrun.catalog-publication/v1".
Definition DEFINITION_FORMAT : string := "graphrun.definition-publication/v1".
Definition MAX_PAYLOAD_BYTES : Z := 256 * 1024.
Definition MAX_SCHEMA_BYTES : Z := 256 * 1024.

(** What [serde] and [Debug] derive for an operation: its JSON value, its JSON
    text and its debug text. *)
Class OperationSerde := {
  operation_to_value : PublicationOperation → string + Json;
  operation_to_text : PublicationOperation → string + string;
  operation_debug : PublicationOperation → string;
}.

Section Publication.
Context `{Platform} `{CatalogSerde} `{Serde} `{OperationSerde}.
Implicit Types state : State.

(** ** Keys and authority *)
Definition storage_key (key : CommandKey) : string :=
  hex_encode (ck_cluster_id key) +:+ ":" +:+ hex_encode (ck_principal_id key) +:+ ":"
  +:+ CommandId.to_hex (ck_command_id key).

Definition published_start_ids (key : CommandKey) : RunId.t * CommandId.t * CommandId.t :=
  let hash := sha256 (ck_cluster_id key +:+ nul +:+ ck_principal_id key +:+ nul
                      +:+ CommandId.as_bytes (ck_command_id key)) in
  let progress_hash := sha256 ("graphrun-start-progress/v1" +:+ nul +:+ hash) in
  (RunId.from_bytes (String.substring 0 16 hash), CommandId.from_bytes (String.substring 16 16 hash),
   CommandId.from_bytes (String.substring 0 16 progress_hash)).

Record AuthContext := mkAuthContext { au_cluster_id : string; au_principal_id : string; au_admin : bool }.

Definition is_start (operation : PublicationOperation) : bool :=
  match operation with PublicationOperation_Start _ _ _ _ => true | _ => false end.

Definition authorize (auth : AuthContext) (operation : PublicationOperation) : Outcome unit :=
  if bool_decide (au_cluster_id auth = "") || bool_decide (au_principal_id auth = "")
  then Err (error_new Unauthenticated "missing authenticated identity")
  else if negb (au_admin auth) && negb (is_start operation)
  then Err (error_new PermissionDenied "admin role required to publish")
  else Ok tt.

Definition auth_key (auth : AuthContext) (id : CommandId.t) : CommandKey :=
  mkCommandKey (au_cluster_id auth) (au_principal_id auth) id.

Definition operation_target (operation : PublicationOperation) : string :=
  match operation with
  | PublicationOperation_Catalog version _ => "catalog/v" +:+ show_Z version
  | PublicationOperation_Definition definition _ =>
      def_id definition +:+ "/v" +:+ show_Z (def_version definition)
  | PublicationOperation_Start workflow _ start_key _ => workflow +:+ "/" +:+ start_key
  end.

Definition operation_name (operation : PublicationOperation) : string :=
  match operation with
  | PublicationOperation_Catalog _ _ => "publish_catalog"
  | PublicationOperation_Definition _ _ => "publish_definition"
  | PublicationOperation_Start _ _ _ _ => "start"
  end.

Definition publication_command (auth : AuthContext) (id : CommandId.t) (time : Z)
    (operation : PublicationOperation) : Outcome Command :=
  if bool_decide (CommandId.as_bytes id = String.concat "" (replicate 16 nul))
  then fail! "command ID must be nonempty"
  else
    _ ← authorize auth operation;
    Ok (mkCommand id (Cmd_Publication (auth_key auth id) operation) time).

(** ** Retained publications *)
Definition published_catalog_verify (p : PublishedCatalog) : Outcome unit :=
  let corrupt := Err (failed_precondition "retained catalog unavailable or corrupt") in
  if negb (bool_decide (pc_format p = CATALOG_FORMAT)) then corrupt
  else
    d ← publication_digest (catalog_to_value (pc_catalog p)) PUBLIC_COMMAND_ENVELOPE;
    if negb (bool_decide (pc_digest p = d)) then corrupt else Ok tt.

Definition published_definition_verify (p : PublishedDefinition) : Outcome unit :=
  let corrupt := Err (failed_precondition "retained definition unavailable or corrupt") in
  if negb (bool_decide (pd_format p = DEFINITION_FORMAT))
     || negb (pd_normalized_format_version p =? FORMAT_VERSION)
     || negb (def_format_version (pd_definition p) =? pd_normalized_format_version p)
     || negb (bool_decide (def_digest (pd_definition p) = pd_digest p))
  then corrupt
  else
    d ← digest_of (pd_definition p);
    if negb (bool_decide (d = pd_digest p)) then corrupt else Ok tt.

(** ** Results *)
Definition error_kind (code : string) : ErrorKind :=
  if bool_decide (code = "already_exists") then AlreadyExists
  else if bool_decide (code = "not_found") then NotFound
  else if bool_decide (code = "failed_precondition") then FailedPrecondition
  else if bool_decide (code = "resource_exhausted") then ResourceExhausted
  else InvalidArgument.

Definition error_code (kind : ErrorKind) : string :=
  match kind with
  | AlreadyExists => "already_exists"
  | NotFound => "not_found"
  | FailedPrecondition => "failed_precondition"
  | ResourceExhausted => "resource_exhausted"
  | _ => "invalid_argument"
  end.

Definition ensure_format (r : CommandResult) : Outcome unit :=
  if bool_decide (cr_format r = RESULT_FORMAT) then Ok tt
  else Err (failed_precondition "unsupported committed command-result format").

Definition ensure_applied (r : CommandResult) : Outcome unit :=
  _ ← ensure_format r;
  match cr_outcome r with
  | Disposition_Applied _ _ _ => Ok tt
  | Disposition_Rejected code details => Err (error_new (error_kind code) details)
  end.

Definition applied_run (r : CommandResult) : Outcome RunId.t :=
  _ ← ensure_format r;
  match cr_outcome r with
  | Disposition_Applied (Some run) _ _ => Ok run
  | Disposition_Rejected code details => Err (error_new (error_kind code) details)
  | _ => Err (failed_precondition "command did not start a run")
  end.

(** ** Catalogs *)
Definition already_exists {A} (what : string) : Outcome A := Err (error_new AlreadyExists what).

(** A loop over new entries that must agree with a prior catalog's. *)
Definition agree_with {K V} `{EqDecision K} `{EqDecision V} (kind : string) (name : K → string)
    (prior new : list (K * V)) : Outcome unit :=
  _ ← outcome_map (λ '(key, x),
        match bt_get key prior with
        | Some old =>
            if bool_decide (old = x) then Ok tt
            else already_exists (kind +:+ " " +:+ name key +:+ " was already published with different content")
        | None => Ok tt
        end) new;
  Ok tt.

Definition agrees_with_prior (catalog prior : Catalog) : Outcome unit :=
  _ ← agree_with "schema" schema_key_stable_name (cat_schemas prior) (cat_schemas catalog);
  _ ← agree_with "activity" activity_key_stable_name (cat_activities prior) (cat_activities catalog);
  agree_with "reconciler" activity_key_stable_name (cat_reconcilers prior) (cat_reconcilers catalog).

Definition apply_catalog state (version : Z) (catalog : Catalog) :
    Outcome (Disposition * option EventRange * State) :=
  if version =? 0 then fail! "catalog version must be positive"
  else
    _ ← validate_for_publication catalog;
    _ ← outcome_map (λ '(_, schema), canonical_bytes (inr schema) MAX_SCHEMA_BYTES) (cat_schemas catalog);
    digest ← publication_digest (catalog_to_value catalog) PUBLIC_COMMAND_ENVELOPE;
    let applied := Disposition_Applied None (Some digest) (Some version) in
    match bt_get version (published_catalogs state) with
    | Some existing =>
        if negb (bool_decide (pc_format existing = CATALOG_FORMAT))
           || negb (bool_decide (pc_digest existing = digest))
           || negb (bool_decide (pc_catalog existing = catalog))
        then already_exists "catalog version has different content"
        else Ok (applied, None, state)
    | None =>
        _ ← outcome_map (λ '(_, prior), agrees_with_prior catalog (pc_catalog prior)) (published_catalogs state);
        Ok (applied, None,
            upd_published_catalogs (bt_insert Z.compare version (mkPublishedCatalog CATALOG_FORMAT digest catalog)) state)
    end.

(** ** Definitions *)
Definition apply_definition state (definition : Definition_) (catalog_version : Z) :
    Outcome (Disposition * option EventRange * State) :=
  catalog ← ok_or (bt_get catalog_version (published_catalogs state))
    (error_new NotFound "published catalog version not found");
  _ ← published_catalog_verify catalog;
  if (def_version definition =? 0) || negb (valid_ascii_name (def_id definition))
  then fail! "invalid workflow name or version"
  else
    let invalid := Err (failed_precondition "invalid normalized definition format or digest") in
    _ ← (if negb (def_format_version definition =? FORMAT_VERSION) then invalid
         else d ← digest_of definition; if negb (bool_decide (def_digest definition = d)) then invalid else Ok tt);
    _ ← validate_definition definition (pc_catalog catalog);
    let entry := default [] (bt_get (def_id definition) (published_definitions state)) in
    let applied := Disposition_Applied None (Some (def_digest definition)) (Some (def_version definition)) in
    match bt_get (def_version definition) entry with
    | Some existing =>
        if negb (bool_decide (pd_format existing = DEFINITION_FORMAT))
           || negb (bool_decide (pd_digest existing = def_digest definition))
           || negb (pd_catalog_version existing =? catalog_version)
           || negb (bool_decide (pd_definition existing = definition))
        then already_exists "workflow version has different content or catalog"
        else Ok (applied, None, state)
    | None =>
        let published := mkPublishedDefinition DEFINITION_FORMAT (def_format_version definition)
          (def_digest definition) catalog_version definition in
        Ok (applied, None,
            upd_published_definitions (str_insert (def_id definition)
              (bt_insert Z.compare (def_version definition) published entry)) state)
    end.

(** ** Starts *)

(** The retained definition and catalog a start pins. *)
Definition pinned_for state (workflow : string) (version : option Z) :
    Outcome (PublishedDefinition * PublishedCatalog) :=
  versions ← ok_or (bt_get workflow (published_definitions state)) (error_new NotFound "workflow not published");
  pinned ← ok_or (match version with Some v => bt_get v versions | None => snd <$> last versions end)
    (error_new NotFound "workflow version not published");
  _ ← published_definition_verify pinned;
  catalog ← ok_or (bt_get (pd_catalog_version pinned) (published_catalogs state))
    (failed_precondition "retained catalog unavailable");
  _ ← published_catalog_verify catalog;
  Ok (pinned, catalog).

(** Admits the run in the provisional state and takes its first steps. *)
Definition start_pinned state (c : Command) (key : CommandKey) (pinned : PublishedDefinition)
    (catalog : PublishedCatalog) (input : Value) : Outcome (EventRange * State) :=
  let '(run, start_id, progress_id) := published_start_ids key in
  let pinned_identity := mkPinnedPublication (pd_normalized_format_version pinned) (pd_digest pinned)
    (pd_catalog_version pinned) (pc_digest catalog) "graphrun.run-policy/v1" in
  let start := mkCommand start_id (Cmd_Start run (pd_definition pinned) input (pc_catalog catalog)) (cmd_time c) in
  let first := match history state !! run with Some events => zlen events + 1 | None => 1 end in
  let state := upd_runs (insert run
    (provisional_run run (pd_definition pinned) (pc_catalog catalog) (Some pinned_identity))) state in
  evs ← decide state start;
  state ← apply_events_with_cause state evs (Some (cmd_id c)) (Some (ck_principal_id key)) (cmd_time c);
  '(_, state) ← apply_command state (mkCommand progress_id (Cmd_Progress run) (cmd_time c));
  let last := match history state !! run with Some events => zlen events | None => 0 end in
  if last <? first then Err (failed_precondition "start emitted no run events")
  else Ok (mkEventRange run first last, state).

Definition insert_start_key (workflow start_key : string) (record : StartKeyRecord) state : State :=
  let keys := default [] (bt_get workflow (start_keys state)) in
  upd_start_keys (str_insert workflow (str_insert start_key record keys)) state.

Definition find_start_key state (workflow start_key : string) : option StartKeyRecord :=
  keys ← bt_get workflow (start_keys state); bt_get start_key keys.

Definition apply_start state (c : Command) (key : CommandKey) (workflow : string) (version : option Z)
    (start_key : string) (input : Value) : Outcome (Disposition * option EventRange * State) :=
  if negb (valid_ascii_name workflow) || bool_decide (start_key = "") || (128 <? zlen_string start_key)
  then fail! "workflow name or start key invalid (key must be 1..128 UTF-8 bytes)"
  else if bool_decide (version = Some 0) then fail! "workflow version must be positive"
  else
    input_digest ← publication_digest (inr (to_json input)) MAX_PAYLOAD_BYTES;
    match find_start_key state workflow start_key with
    | Some existing =>
        if negb (bool_decide (sr_input_digest existing = input_digest))
           || match version with Some v => negb (v =? sr_version existing) | None => false end
        then already_exists "start key has different input or pinned version"
        else Ok (Disposition_Applied (Some (sr_run existing)) None (Some (sr_version existing)), None, state)
    | None =>
        '(pinned, catalog) ← pinned_for state workflow version;
        _ ← validate_value (pc_catalog catalog) (def_input_schema (pd_definition pinned)) input;
        if execution_suspended state then Err SUSPENDED
        else
          let run := (published_start_ids key).1.1 in
          if bool_decide (is_Some (runs state !! run)) then already_exists "run identity collision"
          else
            '(range, state) ← start_pinned state c key pinned catalog input;
            let version := def_version (pd_definition pinned) in
            let state := insert_start_key workflow start_key
              (mkStartKeyRecord run version input_digest (cmd_time c)) state in
            Ok (Disposition_Applied (Some run) (Some (pd_digest pinned)) (Some version), Some range, state)
    end.

(** ** Applying

    The code applies a start in place or on a clone of the state. Either way an
    error leaves no trace: the clone is dropped, or the caller reloads the
    stored state, so an error carries no state. *)
Definition apply_operation state (c : Command) (key : CommandKey) (operation : PublicationOperation) :
    Outcome (Disposition * option EventRange * State) :=
  match operation with
  | PublicationOperation_Catalog version catalog => apply_catalog state version catalog
  | PublicationOperation_Definition definition catalog_version =>
      apply_definition state definition catalog_version
  | PublicationOperation_Start workflow version start_key input =>
      apply_start state c key workflow version start_key input
  end.

(** The digest of a request, and its canonical bytes or why there are none. *)
Definition request_identity (operation : PublicationOperation) : Outcome (string * Outcome string) :=
  match canonical_bytes (operation_to_value operation) u64_max with
  | Ok bytes => Ok (hex_encode (sha256 bytes), Ok bytes)
  | Err err =>
      let '(bytes, rejection) :=
        match operation_to_text operation with
        | inr bytes => (bytes, err)
        | inl encode_err =>
            (operation_debug operation, error_invalid ("publication request encoding: " +:+ encode_err))
        end in
      Ok (hex_encode (sha256 ("graphrun.uncanonical-publication-request/v1" +:+ nul +:+ bytes)), Err rejection)
  | Panic why => Panic why
  end.

Definition command_result (c : Command) (key : CommandKey) (operation : PublicationOperation)
    (request_digest : string) (outcome : Disposition) (range : option EventRange) : CommandResult :=
  mkCommandResult RESULT_FORMAT key request_digest (operation_name operation) (operation_target operation)
    outcome range (cmd_time c).

Definition apply_with_mode state (c : Command) (key : CommandKey) (operation : PublicationOperation)
    (in_place_start : bool) : Outcome (CommandResult * State) :=
  '(request_digest, request_bytes) ← request_identity operation;
  match bt_get (storage_key key) (command_results state) with
  | Some previous =>
      if bool_decide (cr_request_digest previous = request_digest) && bool_decide (cr_format previous = RESULT_FORMAT)
      then Ok (previous, state)
      else Ok (command_result c key operation request_digest
                 (Disposition_Rejected "already_exists" "command ID reused with a different request") None, state)
  | None =>
      let result :=
        bytes ← request_bytes;
        if PUBLIC_COMMAND_ENVELOPE <? zlen_string bytes
        then Err (error_new ResourceExhausted "publication command exceeds envelope limit")
        else apply_operation state c key operation in
      let record outcome range state :=
        let receipt := command_result c key operation request_digest outcome range in
        Ok (receipt, upd_command_results (str_insert (storage_key key) receipt) state) in
      match result with
      | Ok (outcome, range, state) => record outcome range state
      | Err err =>
          if in_place_start then Err err
          else record (Disposition_Rejected (error_code (err_kind err)) (err_message err)) None state
      | Panic why => Panic why
      end
  end.

Definition apply_publication state (c : Command) (key : CommandKey) (operation : PublicationOperation) :
    Outcome (CommandResult * State) :=
  unwrap_result (apply_with_mode state c key operation false).

Definition apply_replicated state (c : Command) (key : CommandKey) (operation : PublicationOperation) :
    Outcome (CommandResult * State) :=
  apply_with_mode state c key operation true.
End Publication.
