(* ===== verification/FormatUpgrade.v ===== *)
(** * Writer-format upgrades

    [format_upgrade.rs]: every configured member proves that it can read the next
    command format, the proofs are committed, and only then may the writer format
    be activated. Rosters are openraft's; the model keeps what the code reads of
    one. The functions that talk to Raft and the network are not modelled. *)
From stdpp Require Import base option gmap strings list.
From Stdlib Require Import ZArith Ascii Lia.
From S2P Require Import Prelude Value Ids Policy Catalog Ir Equality Domain Eval Evolve History Steps Command.

Definition CURRENT_READER : Z := 5.
Definition CURRENT_WRITER : Z := 5.
Definition BASE_FORMAT : Z := 4.
Definition NEXT_FORMAT : Z := 5.
Definition POLICY_FORMAT : string := "graphrun.writer-policy/v1".
Definition PROOF_FORMAT : string := "graphrun.reader-proof/v1".
Definition RECEIPT_FORMAT : string := "graphrun.writer-format-receipt/v1".

(** [record_store.rs] *)
Definition RECORD_FORMAT : string := "graphrun.state-record/v2".
Definition RECORD_NEXT_FORMAT : string := "graphrun.state-record/v3".
Definition FRAGMENT_FORMAT : string := "graphrun.record-fragments/v1".

#[export] Instance Position_eq_dec : EqDecision Position.
Proof. solve_decision. Defined.

(** [StoredMembership]: [log_id()], [get_joint_config()] and [nodes()]. *)
Record Roster := mkRoster {
  ro_log_id : option Position;
  ro_joint_config : list (list Z);
  ro_nodes : list (Z * string);
}.

Definition ensure_writer (active : Z) : Outcome unit :=
  if CURRENT_WRITER <? active
  then Err (failed_precondition ("binary writer capability " +:+ show_Z CURRENT_WRITER +:+
         " is below committed writer format " +:+ show_Z active))
  else Ok tt.

(** The version a member's request claims: none is the base format. *)
Inductive WriterHeader := HeaderAbsent | HeaderUnknown | HeaderFormat (writer : Z).

(** [verify_peer_writer], given the local [writer_format] and [required_writer_format]. *)
Definition verify_peer_writer (active required : Z) (header : WriterHeader) : Outcome unit :=
  writer ← match header with
           | HeaderFormat w =>
               if (w =? BASE_FORMAT) || (w =? NEXT_FORMAT) then Ok w
               else Err (failed_precondition "unknown member writer format")
           | HeaderUnknown => Err (failed_precondition "unknown member writer format")
           | HeaderAbsent => Ok BASE_FORMAT
           end;
  let required := if NEXT_FORMAT <=? writer then active else required in
  if writer <? required
  then Err (failed_precondition ("member writer capability " +:+ show_Z writer +:+
         " is below required format " +:+ show_Z required))
  else Ok tt.

Definition supports (p : ReaderProof) (target : Z) : bool :=
  bool_decide (rdr_format p = PROOF_FORMAT)
  && (target =? NEXT_FORMAT)
  && (target <=? rdr_reader_floor p)
  && bool_decide (rdr_command_readers p = [BASE_FORMAT; NEXT_FORMAT])
  && bool_decide ("graphrun.domain/v1" ∈ rdr_domain_readers p)
  && bool_decide (1 ∈ rdr_graph_readers p)
  && bool_decide (RECORD_NEXT_FORMAT ∈ rdr_state_records p)
  && bool_decide (RECORD_FORMAT ∈ rdr_state_records p)
  && bool_decide (EVENT_FORMAT ∈ rdr_event_readers p)
  && bool_decide (CHECKPOINT_FORMAT ∈ rdr_checkpoint_readers p)
  && bool_decide (ARTIFACT_FORMAT ∈ rdr_artifact_readers p)
  && bool_decide (1 ∈ rdr_snapshot_readers p).

(** The loop over the proofs, with the members seen so far. *)
Definition check_proof (roster : Roster) (target : Z) (cluster_id : string) (seen : list Z) (proof : ReaderProof) :
    Outcome (list Z) :=
  if bool_decide (rdr_member_id proof ∈ seen)
     || negb (bool_decide (rdr_cluster_id proof = cluster_id))
     || negb (bool_decide (rdr_roster_log_id proof = ro_log_id roster))
     || (rdr_active_generation proof =? 0)
     || negb (supports proof target)
     || negb (bool_decide (rdr_member_id proof ∈ (ro_nodes roster).*1))
  then Err (failed_precondition "reader preparation does not match the committed roster and required versions")
  else Ok (rdr_member_id proof :: seen).

Definition validate_roster (roster : Roster) (proofs : list ReaderProof) (target : Z) (cluster_id : string) :
    Outcome unit :=
  if negb (length proofs =? length (ro_nodes roster))%nat
  then Err (failed_precondition "every configured data-bearing voter and learner must prepare readers")
  else
    seen ← outcome_fold (check_proof roster target cluster_id) [] proofs;
    if existsb (λ voters, bool_decide (voters = []) || negb (forallb (λ m, bool_decide (m ∈ seen)) voters))
         (ro_joint_config roster)
    then Err (failed_precondition "joint voter configuration has an unprepared member")
    else Ok tt.

Section FormatUpgrade.
Context `{Platform}.

Definition position_to_json (p : Position) : Json :=
  JObject [("index", JInt (pos_index p)); ("leader_id", JInt (pos_leader_id p)); ("term", JInt (pos_term p))].

Definition request_digest (operation : string) (target : Z) (roster : option Position) : Outcome string :=
  bytes ← canonical_json (JArray [JString operation; JInt target;
            match roster with Some p => position_to_json p | None => JNull end]);
  Ok (hex_encode (sha256 ("graphrun.writer-activation/v1" +:+ nul +:+ bytes))).

(** The two operations of a writer-format command. *)
Inductive FormatOperation :=
| FormatPrepare (proofs : list ReaderProof) (roster_log_id : option Position)
| FormatActivate (roster_log_id : option Position) (target : Z).

Definition format_operation (body : CommandBody) : option FormatOperation :=
  match match body with Cmd_Authenticated _ body => body | body => body end with
  | Cmd_PrepareWriterFormat proofs roster => Some (FormatPrepare proofs roster)
  | Cmd_ActivateWriterFormat roster target => Some (FormatActivate roster target)
  | _ => None
  end.

Definition format_target (op : FormatOperation) : Z * option Position :=
  match op with
  | FormatPrepare _ roster => (NEXT_FORMAT, roster)
  | FormatActivate roster target => (target, roster)
  end.

Definition collect_prepared (proofs : list ReaderProof) : list (Z * ReaderProof) :=
  foldl (λ m proof, bt_insert Z.compare (rdr_member_id proof) proof m) [] proofs.

(** The closure [attempt]: the policy after an operation, or why it is refused. *)
Definition attempt_format (policy : FormatPolicy) (op : FormatOperation) (roster : Roster) (log_id : Position)
    (cluster_id : string) : Outcome FormatPolicy :=
  let '(target, requested) := format_target op in
  if negb (target =? NEXT_FORMAT) || negb (bool_decide (requested = ro_log_id roster))
  then Err (failed_precondition "writer format target or committed roster changed")
  else match op with
  | FormatPrepare proofs _ =>
      _ ← validate_roster roster proofs target cluster_id;
      Ok (mkFormatPolicy (fp_format policy) (fp_active_writer policy) (fp_activation_log_id policy)
            (ro_log_id roster) (collect_prepared proofs))
  | FormatActivate _ _ =>
      if fp_active_writer policy =? NEXT_FORMAT
      then Err (failed_precondition "writer format activation is monotonic")
      else if negb (bool_decide (fp_roster_log_id policy = ro_log_id roster))
      then Err (failed_precondition "reader readiness belongs to an older roster")
      else
        _ ← validate_roster roster (snd <$> fp_prepared policy) target cluster_id;
        Ok (mkFormatPolicy (fp_format policy) target (Some log_id) (fp_roster_log_id policy) (fp_prepared policy))
  end.

Definition receipt_key (cluster_id principal : string) (id : CommandId.t) : string :=
  cluster_id +:+ "/" +:+ principal +:+ "/" +:+ CommandId.to_hex id.

Definition format_apply (policy : FormatPolicy) (receipts : list (string * FormatReceipt)) (c : Command)
    (roster : Roster) (log_id : Position) (principal cluster_id : string) :
    Outcome (FormatReceipt * FormatPolicy * list (string * FormatReceipt)) :=
  op ← ok_or (format_operation (cmd_body c)) (error_invalid "not a writer format command");
  if bool_decide (principal = "")
  then Err (error_new PermissionDenied "format change requires a verified admin principal")
  else
    let key := receipt_key cluster_id principal (cmd_id c) in
    let '(target, requested) := format_target op in
    digest ← request_digest (match op with FormatPrepare _ _ => "prepare" | FormatActivate _ _ => "activate" end)
      target requested;
    match bt_get key receipts with
    | Some receipt =>
        if negb (bool_decide (fr_request_digest receipt = digest))
        then Err (error_new AlreadyExists "format command identity reused with a different request")
        else Ok (receipt, policy, receipts)
    | None =>
        let record policy applied message :=
          let receipt := mkFormatReceipt RECEIPT_FORMAT cluster_id principal (cmd_id c) digest log_id
            (fp_active_writer policy) applied message in
          Ok (receipt, policy, str_insert key receipt receipts) in
        match attempt_format policy op roster log_id cluster_id with
        | Ok policy => record policy true ""
        | Err e => record policy false (err_message e)
        | Panic why => Panic why
        end
    end.

Definition proof_mismatched (policy : FormatPolicy) (cluster_id : string) (entry : Z * ReaderProof) : bool :=
  let '(id, proof) := entry in
  negb (id =? rdr_member_id proof)
  || negb (bool_decide (rdr_format proof = PROOF_FORMAT))
  || negb (bool_decide (rdr_cluster_id proof = cluster_id))
  || negb (bool_decide (rdr_roster_log_id proof = fp_roster_log_id policy)).

Definition receipt_mismatched (entry : string * FormatReceipt) : bool :=
  let '(key, receipt) := entry in
  negb (bool_decide (fr_format receipt = RECEIPT_FORMAT))
  || negb (bool_decide (key = receipt_key (fr_cluster_id receipt) (fr_principal_id receipt) (fr_command_id receipt)))
  || negb (is_ok (ClusterId.from_hex (fr_cluster_id receipt)))
  || negb (zlen_string (fr_request_digest receipt) =? 64)
  || bool_decide (hex_decode (fr_request_digest receipt) = None).

Definition validate_persisted_state (state : State) : Outcome unit :=
  let policy := format_policy state in
  if negb (bool_decide (fp_format policy = POLICY_FORMAT))
     || negb ((fp_active_writer policy =? BASE_FORMAT) || (fp_active_writer policy =? NEXT_FORMAT))
     || ((fp_active_writer policy =? NEXT_FORMAT) && bool_decide (fp_activation_log_id policy = None))
     || existsb (proof_mismatched policy (current_cluster_id state)) (fp_prepared policy)
     || existsb receipt_mismatched (format_receipts state)
  then Err (failed_precondition "unsupported or inconsistent retained writer-format policy")
  else Ok tt.
End FormatUpgrade.
