(* ===== verification/Schedule.v ===== *)
(** * Run schedules

    [schedule.rs]: the summary the storage layer keeps per run to wake workers
    and timers, and the next retention deadline. *)
From stdpp Require Import base option gmap strings list.
From Stdlib Require Import ZArith Ascii Lia.
From S2P Require Import Prelude Value Ids Policy Catalog Ir Domain Eval Evolve History Steps.

Record RunSchedule := mkRunSchedule {
  sch_format : Z;
  sch_generation : Z;
  sch_progress : bool;
  sch_ready : bool;
  sch_deadline_ms : option Z;
  sch_source_revision : Z;
}.

(** [Iterator::min]. *)
Definition opt_min (old : option Z) (due : Z) : option Z :=
  Some (match old with Some old => Z.min old due | None => due end).

Definition list_min (l : list Z) : option Z := foldl opt_min None l.

Section Schedule.
Context `{Platform}.
Implicit Types state : State.

(** [continue] unless the activation could be granted once its lease is over. *)
Definition schedulable state (act : ActivationState) : bool :=
  bool_decide (as_status act = ActivationStatus_Ready)
  && negb (bool_decide (is_Some (interventions state !! as_id act)))
  && negb (existsb (λ w, bool_decide (wt_activation w = as_id act) && wt_pending w)
             (hm_values (waits state))).

(** The body of the loop over the run's activations. *)
Definition schedule_step state (now_ms : Z) (acc : option Z * bool) (act : ActivationState) :
    option Z * bool :=
  let '(deadline_ms, ready) := acc in
  if negb (schedulable state act) then acc
  else match as_claim act with
  | Some claim =>
      if now_ms <? cl_lease_expiry_ms claim then (opt_min deadline_ms (cl_lease_expiry_ms claim), ready)
      else (deadline_ms, true)
  | None => (deadline_ms, true)
  end.

Definition schedule_from_state state (run : RunId.t) (progress : bool)
    (now_ms generation source_revision : Z) : option RunSchedule :=
  current ← runs state !! run;
  if negb (run_is_active current) then None
  else
    let deadline_ms := list_min (omap wt_deadline_ms
      (List.filter (λ w, bool_decide (wt_run w = run) && wt_pending w) (hm_values (waits state)))) in
    let '(deadline_ms, ready) :=
      foldl (schedule_step state now_ms) (deadline_ms, false)
        (List.filter (λ act, bool_decide (as_run act = run)) (hm_values (activations state))) in
    Some (mkRunSchedule 1 generation progress ready deadline_ms source_revision).

Definition changed_from (current previous : RunSchedule) : bool :=
  negb (sch_generation current =? sch_generation previous)
  || negb (Bool.eqb (sch_progress current) (sch_progress previous))
  || negb (Bool.eqb (sch_ready current) (sch_ready previous))
  || negb (bool_decide (sch_deadline_ms current = sch_deadline_ms previous)).

Definition retention_deadline state : option Z :=
  let receipts := (λ r, sat_add64 (cr_recorded_ms r.2) DAY_MS) <$> command_results state in
  let commands := (λ recorded, sat_add64 recorded DAY_MS) <$> hm_values (command_times state) in
  let inbox := ie_expires_ms <$> List.filter (λ e,
    negb (ie_expires_ms e =? 0) && (ie_consumed e || bool_decide (ie_reserved_wait e = None))) (inbox state) in
  let runs := (λ r, sat_add64 (rs_terminal_ms r)
      (sat_mul64 (terminal_history_days (rs_policy r)) DAY_MS)) <$>
    List.filter (λ r, negb (run_is_active r) && negb (rs_terminal_ms r =? 0)) (hm_values (runs state)) in
  let summaries := ts_expires_ms <$> hm_values (terminal_summaries state) in
  list_min (receipts ++ commands ++ inbox ++ runs ++ summaries).
End Schedule.
