(* ===== verification/Retention.v ===== *)
(** * Reading pages of history and pruning what has expired

    [history.rs]: [page], [earliest_due], [preflight_prune] and [prune]; and the
    branch of [commit_command] ([domain.rs]) that applies a [PruneHistory]
    command. *)
From stdpp Require Import base option gmap strings list.
From Stdlib Require Import ZArith Ascii Lia.
From S2P Require Import Prelude Value Ids Policy Catalog Ir Domain Eval Evolve History Steps Command.

(** ** Pages *)
Record HistoryPage := mkHistoryPage {
  hp_run : RunId.t;
  hp_retained_from : Z;
  hp_retained_through : Z;
  hp_next_cursor : option Z;
  hp_unavailable : bool;
  hp_unavailable_range : option (Z * Z);
  hp_events : list (HistoryEntry * DomainEvent);
}.

(** ** The earliest candidates

    The code keeps the [limit] smallest candidates in a [BinaryHeap], whose
    [peek] and [pop] give the greatest and whose [into_sorted_vec] is in
    increasing order. The heap is the increasing list of its elements. *)
Section EarliestDue.
Context {K : Type} (key_leb : K → K → bool).

(** The order of the tuple [(u64, K)]. *)
Definition candidate_leb (a b : Z * K) : bool := (a.1 <? b.1) || ((a.1 =? b.1) && key_leb a.2 b.2).

Definition select_due (limit : nat) (selected : list (Z * K)) (candidate : Z * K) : list (Z * K) :=
  if (length selected <? limit)%nat then insert_by candidate_leb candidate selected
  else match last selected with
  | Some latest =>
      if negb (candidate_leb latest candidate)
      then insert_by candidate_leb candidate (removelast selected)
      else selected
  | None => selected
  end.

Definition earliest_due (candidates : list (Z * K)) (limit : nat) : list K :=
  if (limit =? 0)%nat then []
  else snd <$> foldl (select_due limit) [] candidates.
End EarliestDue.

(** The derived order of [(Option<RunId>, EventId)]. *)
Definition input_leb (a b : option RunId.t * EventId.t) : bool :=
  match a.1, b.1 with
  | None, Some _ => true
  | Some _, None => false
  | None, None => EventId.leb a.2 b.2
  | Some r1, Some r2 => if bool_decide (r1 = r2) then EventId.leb a.2 b.2 else RunId.leb r1 r2
  end.

Section Retention.
Context `{Platform} `{CatalogSerde} `{Serde}.
Implicit Types state : State.

Definition page state (run : RunId.t) (after limit now : Z) : Outcome HistoryPage :=
  let limit := if limit =? 0 then PAGE_LIMIT else limit in
  if MAX_PAGE_LIMIT <? limit
  then fail! ("history page size must be 0 (default) or 1..=" +:+ show_Z MAX_PAGE_LIMIT)
  else match terminal_summaries state !! run with
  | Some summary =>
      if ts_history_through summary <? after then fail! "history cursor exceeds run sequence"
      else Ok (mkHistoryPage run (sat_add64 (ts_history_through summary) 1) (ts_history_through summary)
                 None true (Some (1, ts_history_through summary)) [])
  | None =>
      '(_, through) ← retained state run now;
      if through <? after then fail! "history cursor exceeds retained sequence"
      else
        let end_ := Z.min through (sat_add64 after limit) in
        rows ← (if after <? end_ then validated_entries state run (after + 1) end_ else Ok []);
        let last_seq := match last rows with Some (record, _) => he_sequence record | None => after end in
        Ok (mkHistoryPage run 1 through (if last_seq <? through then Some last_seq else None)
              false None rows)
  end.

(** ** Pruning *)
Definition inbox_expired (now : Z) (e : InboxEntry) : bool :=
  negb (ie_expires_ms e =? 0) && (ie_expires_ms e <=? now).

Definition preflight_prune state (time : Z) : Outcome unit :=
  if existsb (λ e, inbox_expired time e && negb (ie_consumed e) &&
       bool_decide (ie_reserved_wait e = None) && bool_decide (ie_run e = None)) (inbox state)
  then Err (failed_precondition "expiring input event has no run identity")
  else Ok tt.

Definition due_results state (now : Z) : list (Z * string) :=
  omap (λ '(key, receipt), let due := sat_add64 (cr_recorded_ms receipt) DAY_MS in
    if due <=? now then Some (due, key) else None) (command_results state).

Definition drop_results (keys : list string) state : State :=
  upd_command_results (List.filter (λ r, negb (bool_decide (r.1 ∈ keys)))) state.

Definition due_commands state (now : Z) : list (Z * CommandId.t) :=
  omap (λ '(id, recorded), let due := sat_add64 recorded DAY_MS in
    if due <=? now then Some (due, id) else None) (hm_iter (command_times state)).

Definition drop_command state (id : CommandId.t) : State :=
  upd_worker_digests (delete id) (upd_legacy_start_digests (delete id)
    (upd_request_digests (delete id) (upd_command_external_ids (delete id)
      (upd_command_actors (delete id) (upd_commands (delete id)
        (upd_command_times (delete id) state)))))).

Definition prunable (now : Z) (e : InboxEntry) : bool :=
  inbox_expired now e && (ie_consumed e || bool_decide (ie_reserved_wait e = None)).

Definition due_inputs state (now : Z) : list (Z * (option RunId.t * EventId.t)) :=
  omap (λ e, if prunable now e then Some (ie_expires_ms e, (ie_run e, ie_event_id e)) else None)
    (inbox state).

Definition same_input (key : option RunId.t * EventId.t) (e : InboxEntry) : bool :=
  bool_decide (ie_run e = key.1) && bool_decide (ie_event_id e = key.2).

(** An input of an active run expires with an event; any other is dropped. *)
Definition drop_input (command_id : CommandId.t) (time : Z) (acc : events * State)
    (key : option RunId.t * EventId.t) : Outcome (events * State) :=
  let '(expired, state) := acc in
  entry ← unwrap "selected event" (lfind (same_input key) (inbox state));
  if negb (ie_consumed entry) && bool_decide (ie_run entry = None)
  then Err (failed_precondition "expiring input event has no run identity")
  else match run ← ie_run entry;
             if negb (ie_consumed entry) &&
                match runs state !! run with Some r => run_is_active r | None => false end
             then Some run else None with
  | Some run =>
      let event := EventExpired run key.2 in
      state ← apply_events_with_cause state [event] (Some command_id) None time;
      state ← checkpoint_after_command state run time;
      Ok (expired ++ [event], state)
  | None => Ok (expired, upd_inbox (List.filter (λ e, negb (same_input key e))) state)
  end.

Definition history_due (r : RunState) : Z :=
  sat_add64 (rs_terminal_ms r) (sat_mul64 (terminal_history_days (rs_policy r)) DAY_MS).

Definition run_expired (now : Z) (r : RunState) : bool :=
  negb (run_is_active r) && negb (rs_terminal_ms r =? 0) && (history_due r <=? now).

Definition due_runs state (now : Z) : list (Z * RunId.t) :=
  omap (λ r, if run_expired now r then Some (history_due r, rs_id r) else None) (hm_values (runs state)).

Definition terminal_status (r : RunState) : Outcome string :=
  match rs_status r with
  | RunStatus_Succeeded _ => Ok "succeeded"
  | RunStatus_Failed _ => Ok "failed"
  | RunStatus_Active => Panic "unreachable"
  end.

(** The maps keyed by the activations of a removed run. *)
Definition drop_activation state (a : ActivationId.t) : State :=
  upd_interventions (delete a) (upd_saga_errors (delete a) (upd_parallel_done (delete a)
    (upd_foreach_done (delete a) (upd_foreach_items (delete a) (upd_loop_carry (delete a) state))))).

Definition drop_run state (id : RunId.t) : Outcome State :=
  run ← unwrap "selected run" (runs state !! id);
  status ← terminal_status run;
  let through := match history state !! id with Some events => zlen events | None => 0 end in
  let state := upd_runs (delete id) state in
  let state := upd_terminal_summaries (insert id (mkTerminalSummary id (def_id (rs_definition run))
    (def_version (rs_definition run)) status (rs_terminal_ms run)
    (sat_add64 (rs_terminal_ms run) (sat_mul64 (terminal_summary_days (rs_policy run)) DAY_MS)) through)) state in
  let state := upd_checkpoints (delete id) (upd_history_dependencies (delete id)
    (upd_history_records (delete id) (upd_history (delete id) state))) in
  let state := upd_scopes (filter (λ kv, ss_run kv.2 ≠ id)) state in
  let removed := as_id <$> List.filter (λ a, bool_decide (as_run a = id)) (hm_values (activations state)) in
  let state := upd_activations (filter (λ kv, as_run kv.2 ≠ id)) state in
  let state := foldl drop_activation state removed in
  let state := upd_waits (filter (λ kv, wt_run kv.2 ≠ id)) state in
  let state := upd_inbox (List.filter (λ e, negb (bool_decide (ie_run e = Some id)))) state in
  Ok (upd_obligations (List.filter (λ o, negb (bool_decide (ob_run o = id)))) state).

Definition due_summaries state (now : Z) : list (Z * RunId.t) :=
  omap (λ t, if ts_expires_ms t <=? now then Some (ts_expires_ms t, ts_run t) else None)
    (hm_values (terminal_summaries state)).

Definition drop_summary state (id : RunId.t) : State :=
  upd_start_keys (fmap (λ '(workflow, keys),
      (workflow, List.filter (λ k : string * StartKeyRecord, negb (bool_decide (sr_run k.2 = id))) keys)))
    (upd_signal_tombstones (filter (λ kv, st_run kv.2 ≠ id))
      (upd_terminal_summaries (delete id) state)).

Definition prune state (command_id : CommandId.t) (time : Z) (limit : nat) : Outcome (events * State) :=
  let old_results := earliest_due String.leb (due_results state time) limit in
  let state := drop_results old_results state in
  let remaining := (limit - length old_results)%nat in
  let old_commands := earliest_due CommandId.leb (due_commands state time) remaining in
  let state := foldl drop_command state old_commands in
  let remaining := (remaining - length old_commands)%nat in
  let inputs := earliest_due input_leb (due_inputs state time) remaining in
  '(expired, state) ← outcome_fold (drop_input command_id time) ([], state) inputs;
  let remaining := (remaining - length inputs)%nat in
  let expired_runs := earliest_due RunId.leb (due_runs state time) remaining in
  state ← outcome_fold drop_run state expired_runs;
  let remaining := (remaining - length expired_runs)%nat in
  let old_summaries := earliest_due RunId.leb (due_summaries state time) remaining in
  Ok (expired, foldl drop_summary state old_summaries).

(** The [PruneHistory] branch of [commit_command]. *)
Definition commit_retention state (c : Command) (limit : Z) : Outcome (events * State) :=
  if (limit =? 0) || (1024 <? limit) then fail! "retention batch must be 1..=1024"
  else
    _ ← verify_command_identity state (cmd_id c) None (cmd_id c) None;
    match commands state !! cmd_id c with
    | Some evs => Ok (evs, state)
    | None =>
        let time := Z.max (cmd_time c) (engine_time_watermark_ms state) in
        _ ← preflight_prune state time;
        let state := upd_watermark (λ _, time) state in
        '(evs, state) ← prune state (cmd_id c) time (Z.to_nat limit);
        Ok (evs, upd_command_times (insert (cmd_id c) time) (upd_commands (insert (cmd_id c) evs) state))
    end.
End Retention.
