(* ===== verification/Replica.v ===== *)
(** * A replicated member

    The state machine of [storage.rs]: [commit_command] ([domain.rs]), the store
    manifest with its format gates, the proof of installed readers, and
    [apply_one_entry], which applies one committed log entry to the domain state.

    The store keeps the domain state of the last applied entry: what
    [load_app_generation] reads back at an entry is the state the entry started
    from. The log of the store is in [LogStore], its rows in [RecordStore]; database
    transactions are not modelled. *)
From stdpp Require Import base option gmap strings list.
From Stdlib Require Import ZArith Ascii Lia.
From S2P Require Import Prelude Value Ids Policy Catalog Ir Equality Domain Eval Evolve History Steps Command Publication FormatUpgrade Schedule Retention.

(** ** The store manifest *)
Record StoreManifest := mkStoreManifest {
  sm_format : string;
  sm_reader_floor : Z;
  sm_writer_format : Z;
  sm_active_generation : Z;
  sm_cluster_id : option string;
  sm_member_id : option Z;
  sm_domain_format : string;
  sm_state_record_format : string;
  sm_fragment_format : string;
  sm_artifact_ref_format : string;
  sm_event_format : string;
  sm_checkpoint_format : string;
  sm_result_format : string;
  sm_enabled_domain_formats : list string;
  sm_enabled_event_formats : list string;
  sm_enabled_checkpoint_formats : list string;
  sm_enabled_command_formats : list Z;
  sm_enabled_state_record_formats : list string;
}.

Definition base_domain_formats : list string := ["graphrun.domain/v1"].
Definition base_event_formats : list string := [EVENT_FORMAT].
Definition base_checkpoint_formats : list string := [CHECKPOINT_FORMAT].
Definition base_command_formats : list Z := [4].
Definition base_record_formats : list string := [RECORD_FORMAT].

Definition manifest_new : StoreManifest :=
  mkStoreManifest "graphrun.member-store/v4" 4 4 1 None None "graphrun.domain/v1" RECORD_FORMAT FRAGMENT_FORMAT
    ARTIFACT_FORMAT EVENT_FORMAT CHECKPOINT_FORMAT RESULT_FORMAT base_domain_formats base_event_formats
    base_checkpoint_formats base_command_formats base_record_formats.

(** A storage error stops the member; its kind reaches no client. *)
Definition sto_err {A} (message : string) : Outcome A := Err (error_new Unavailable message).
Definition sto {A} (m : Outcome A) : Outcome A := map_err (λ e, error_new Unavailable (err_message e)) m.

Definition is_one_of (z a b : Z) : bool := (z =? a) || (z =? b).

Section Replica.
Context `{Platform} `{CatalogSerde} `{Serde} `{OperationSerde}.
Implicit Types (m : StoreManifest) (domain : State).

Definition manifest_validate m : Outcome unit :=
  let floor5 := sm_reader_floor m =? 5 in
  if negb (bool_decide (sm_format m = "graphrun.member-store/v4")
           || bool_decide (sm_format m = "graphrun.member-store/v5"))
     || negb (is_one_of (sm_reader_floor m) 4 5)
     || negb (is_one_of (sm_writer_format m) 4 5)
     || (sm_active_generation m =? 0)
     || negb (bool_decide (sm_domain_format m = "graphrun.domain/v1"))
     || ((sm_writer_format m =? 4) && negb (bool_decide (sm_state_record_format m = RECORD_FORMAT)))
     || ((sm_writer_format m =? 5) && negb (bool_decide (sm_state_record_format m = RECORD_NEXT_FORMAT)))
     || ((sm_writer_format m =? 5)
         && (negb (bool_decide (sm_format m = "graphrun.member-store/v5")) || negb floor5))
     || negb (bool_decide (sm_fragment_format m = FRAGMENT_FORMAT))
     || negb (bool_decide (sm_artifact_ref_format m = ARTIFACT_FORMAT))
     || negb (bool_decide (sm_event_format m = EVENT_FORMAT))
     || negb (bool_decide (sm_checkpoint_format m = CHECKPOINT_FORMAT))
     || negb (bool_decide (sm_result_format m = RESULT_FORMAT))
     || negb (bool_decide (sm_enabled_domain_formats m = base_domain_formats))
     || negb (bool_decide (sm_enabled_event_formats m = base_event_formats))
     || negb (bool_decide (sm_enabled_checkpoint_formats m = base_checkpoint_formats))
     || negb (bool_decide (sm_enabled_command_formats m = if floor5 then [4; 5] else [4]))
     || negb (bool_decide (sm_enabled_state_record_formats m =
                if floor5 then [RECORD_FORMAT; RECORD_NEXT_FORMAT] else base_record_formats))
     || negb (Bool.eqb (bool_decide (is_Some (sm_cluster_id m))) (bool_decide (is_Some (sm_member_id m))))
  then Err (failed_precondition "unsupported member store or retained record version; migrate explicitly")
  else if match sm_cluster_id m with
          | Some id => negb (is_ok (ClusterId.from_hex id)) || bool_decide (sm_member_id m = Some 0)
          | None => false
          end
  then Err (failed_precondition "member store has invalid immutable genesis identity")
  else Ok tt.

Definition manifest_with_readers m (target : Z) : StoreManifest :=
  mkStoreManifest (sm_format m) target (sm_writer_format m) (sm_active_generation m) (sm_cluster_id m)
    (sm_member_id m) (sm_domain_format m) (sm_state_record_format m) (sm_fragment_format m)
    (sm_artifact_ref_format m) (sm_event_format m) (sm_checkpoint_format m) (sm_result_format m)
    (sm_enabled_domain_formats m) (sm_enabled_event_formats m) (sm_enabled_checkpoint_formats m)
    [4; 5] [RECORD_FORMAT; RECORD_NEXT_FORMAT].

Definition install_reader m (target : Z) : Outcome StoreManifest :=
  if negb (is_one_of target BASE_FORMAT NEXT_FORMAT) || (CURRENT_READER <? target)
  then Err (failed_precondition "requested reader format is not installed in this binary")
  else
    let m := if (target =? NEXT_FORMAT) && (sm_reader_floor m <? target) then manifest_with_readers m target else m in
    _ ← manifest_validate m; Ok m.

Definition activate_writer m : Outcome StoreManifest :=
  if sm_reader_floor m <? NEXT_FORMAT
  then Err (failed_precondition "writer activation requires a durably installed reader")
  else
    let m := mkStoreManifest "graphrun.member-store/v5" (sm_reader_floor m) NEXT_FORMAT (sm_active_generation m)
      (sm_cluster_id m) (sm_member_id m) (sm_domain_format m) RECORD_NEXT_FORMAT (sm_fragment_format m)
      (sm_artifact_ref_format m) (sm_event_format m) (sm_checkpoint_format m) (sm_result_format m)
      (sm_enabled_domain_formats m) (sm_enabled_event_formats m) (sm_enabled_checkpoint_formats m)
      (sm_enabled_command_formats m) (sm_enabled_state_record_formats m) in
    _ ← manifest_validate m; Ok m.

(** ** Committing any command ([domain.rs], [commit_command])

    The outer outcome is an error after which the caller drops the state; the
    inner one is what the caller sees next to the state it keeps, since a
    rejected publication leaves its receipt. *)
Definition first_submission domain (key : CommandKey) : bool :=
  negb (bt_contains (storage_key key) (command_results domain)).

Definition invalid_key (key : CommandKey) (id : CommandId.t) : bool :=
  negb (bool_decide (ck_command_id key = id)) || bool_decide (ck_cluster_id key = "")
  || bool_decide (ck_principal_id key = "").

(** A first submission raises the watermark and carries it as its time. *)
Definition stamped domain (c : Command) : Command :=
  mkCommand (cmd_id c) (cmd_body c) (Z.max (cmd_time c) (engine_time_watermark_ms domain)).

Definition commit_publication domain (c : Command) (key : CommandKey) (operation : PublicationOperation) :
    Outcome (Outcome events * State) :=
  if invalid_key key (cmd_id c) then fail! "invalid authenticated command identity"
  else
    let '(c, domain) :=
      if first_submission domain key
      then (stamped domain c, upd_watermark (λ _, cmd_time (stamped domain c)) domain) else (c, domain) in
    '(receipt, domain) ← apply_publication domain c key operation;
    Ok ((_ ← ensure_applied receipt; Ok []), domain).

Definition commit_command domain (c : Command) : Outcome (Outcome events * State) :=
  '(c, actor) ← into_cause c;
  match cmd_body c with
  | Cmd_PruneHistory limit => '(evs, domain) ← commit_retention domain c limit; Ok (Ok evs, domain)
  | Cmd_Publication key operation => commit_publication domain c key operation
  | _ => '(evs, domain) ← commit_execution domain c actor; Ok (Ok evs, domain)
  end.

(** ** Log entries *)
Record RaftRequest := mkRaftRequest { rq_command : Command; rq_writer_format : Z }.

Inductive Payload :=
| Payload_Blank
| Payload_Normal (request : RaftRequest)
| Payload_Membership (joint_config : list (list Z)) (nodes : list (Z * string)).

Record Entry := mkEntry { en_log_id : Position; en_payload : Payload }.

Record RaftResponse := mkRaftResponse {
  rp_error : option string;
  rp_error_kind : option ErrorKind;
  rp_command_result : option CommandResult;
  rp_run_id : option RunId.t;
  rp_format_receipt : option FormatReceipt;
}.

Definition reply_default : RaftResponse := mkRaftResponse None None None None None.
Definition reply_error (kind : ErrorKind) (message : string) : RaftResponse :=
  mkRaftResponse (Some message) (Some kind) None None None.

(** [Display for Error]: the kind's name, the position and the message. *)
Definition kind_name (k : ErrorKind) : string :=
  match k with
  | InvalidArgument => "InvalidArgument" | AlreadyExists => "AlreadyExists"
  | FailedPrecondition => "FailedPrecondition" | Unauthenticated => "Unauthenticated"
  | PermissionDenied => "PermissionDenied" | NotFound => "NotFound" | Unavailable => "Unavailable"
  | ResourceExhausted => "ResourceExhausted" | DeadlineExceeded => "DeadlineExceeded"
  end.

Definition error_to_string (e : Error) : string :=
  kind_name (err_kind e) +:+
  match err_path e, err_line e, err_column e with
  | Some path, Some line, Some column => " at " +:+ path +:+ ":" +:+ show_Z line +:+ ":" +:+ show_Z column
  | Some path, _, _ => " at " +:+ path
  | None, Some line, Some column => " at " +:+ show_Z line +:+ ":" +:+ show_Z column
  | None, _, _ => ""
  end +:+ ": " +:+ err_message e.

(** What applying an entry's request does before anything is persisted. *)
Record Applied := mkApplied {
  ap_reply : RaftResponse;
  ap_domain : State;
  ap_affected : list (RunId.t * option bool);
  ap_events : events;
  ap_command_id : option CommandId.t;
  ap_pruned : bool;
  ap_format_applied : bool;
}.

Definition applied_nothing domain (reply : RaftResponse) : Applied :=
  mkApplied reply domain [] [] None false false.

(** The gate on the writer format of a request: refused, passed, or no reader. *)
Definition writer_gate m (writer : Z) : Outcome (option RaftResponse) :=
  if writer <? sm_writer_format m
  then Ok (Some (reply_error FailedPrecondition "old writer entry rejected at committed apply"))
  else if sm_writer_format m <? writer then
    if CURRENT_READER <? writer then sto_err "committed entry needs an unavailable command-format reader"
    else Ok (Some (reply_error FailedPrecondition "writer format is not activated"))
  else if negb (bool_decide (writer ∈ sm_enabled_command_formats m))
  then sto_err "committed entry needs an unavailable command-format reader"
  else Ok None.

Definition principal_of (body : CommandBody) : string :=
  match body with Cmd_Authenticated principal _ => principal | _ => "" end.

Definition inner_body (body : CommandBody) : CommandBody :=
  match body with Cmd_Authenticated _ body => body | body => body end.

Definition apply_format_entry domain (roster : Roster) (log_id : Position) (c : Command) : Outcome Applied :=
  match format_apply (format_policy domain) (format_receipts domain) c roster log_id
          (principal_of (cmd_body c)) (current_cluster_id domain) with
  | Ok (receipt, policy, receipts) =>
      let applied := fr_applied receipt && (fp_active_writer policy =? NEXT_FORMAT) in
      let '(err, kind) :=
        if fr_applied receipt then (None, None) else (Some (fr_message receipt), Some FailedPrecondition) in
      Ok (mkApplied (mkRaftResponse err kind None None (Some receipt))
            (upd_format_receipts (λ _, receipts) (upd_format_policy (λ _, policy) domain)) [] [] None false applied)
  | Err e => Ok (applied_nothing domain (reply_error (err_kind e) (err_message e)))
  | Panic why => Panic why
  end.

Definition retained_start domain (operation : PublicationOperation) : bool :=
  match operation with
  | PublicationOperation_Start workflow _ start_key _ =>
      bool_decide (is_Some (find_start_key domain workflow start_key))
  | _ => false
  end.

(** The replicated application works in place; when it fails, the stored state
    is read back and the command is applied again on a clone. *)
Definition publication_receipt (stored : State) (c : Command) (key : CommandKey) (operation : PublicationOperation) :
    Outcome (CommandResult * State) :=
  let '(c, domain) :=
    if first_submission stored key
    then (stamped stored c, upd_watermark (λ _, cmd_time (stamped stored c)) stored) else (c, stored) in
  match apply_replicated domain c key operation with
  | Ok done => Ok done
  | Err _ =>
      '(receipt, domain) ← apply_publication stored c key operation;
      if is_ok (ensure_applied receipt) then sto_err "publication replay changed an in-place rejection"
      else Ok (receipt, domain)
  | Panic why => Panic why
  end.

(** The run a first start admitted, with its history. *)
Definition started_run domain (key : CommandKey) (run : RunId.t) : Outcome (events * CommandId.t) :=
  let '(expected, _, progress_id) := published_start_ids key in
  if negb (bool_decide (expected = run)) || negb (bool_decide (is_Some (runs domain !! run)))
     || negb (bool_decide (is_Some (commands domain !! progress_id)))
  then sto_err "new published start is missing its run or internal receipt"
  else match history domain !! run with
  | Some evs => Ok (evs, progress_id)
  | None => sto_err "new published start has no retained history"
  end.

Definition apply_publication_entry (stored : State) (c : Command) (key : CommandKey)
    (operation : PublicationOperation) : Outcome Applied :=
  if invalid_key key (cmd_id c)
  then Ok (applied_nothing stored (reply_error InvalidArgument "invalid authenticated command identity"))
  else
    '(receipt, domain) ← publication_receipt stored c key operation;
    '(affected, evs, command_id) ←
      match applied_run receipt with
      | Ok run =>
          if first_submission stored key && negb (retained_start stored operation) && is_start operation
          then '(evs, progress_id) ← started_run domain key run; Ok ([(run, Some true)], evs, Some progress_id)
          else Ok ([], [], None)
      | Err _ => Ok ([], [], None)
      | Panic why => Panic why
      end;
    let '(err, kind) :=
      match ensure_applied receipt with Err e => (Some (error_to_string e), Some (err_kind e)) | _ => (None, None) end in
    Ok (mkApplied (mkRaftResponse err kind (Some receipt) None None) domain affected evs command_id false false).

Definition admitted_run (evs : events) : option RunId.t :=
  head (omap (λ e, match e with RunAdmitted run _ _ _ _ _ _ => Some run | _ => None end) evs).

(** [BTreeMap<RunId, Option<bool>>::insert]. *)
Definition runid_compare (a b : RunId.t) : comparison := String.compare (RunId.as_bytes a) (RunId.as_bytes b).
Definition affect (run : RunId.t) (progress : option bool) (l : list (RunId.t * option bool)) :
    list (RunId.t * option bool) := bt_insert runid_compare run progress l.

Definition apply_command_entry (stored : State) (c : Command) : Outcome Applied :=
  let body := inner_body (cmd_body c) in
  let prune := match body with Cmd_PruneHistory _ => true | _ => false end in
  match commit_command stored c with
  | Ok (Ok evs, domain) =>
      command_id ← match cmd_body c with
        | Cmd_Authenticated principal _ => sto (authenticated_command_id principal (cmd_id c))
        | _ => Ok (cmd_id c)
        end;
      let affected := match body with
        | Cmd_Progress run => affect run (Some (negb (bool_decide (evs = [])))) []
        | _ => []
        end in
      let affected := match body with
        | Cmd_AcknowledgeRecovery _ => foldl (λ l run, affect run (Some true) l) affected (active_runs domain)
        | _ => affected
        end in
      Ok (mkApplied (mkRaftResponse None None None (admitted_run evs) None) domain affected evs
            (Some command_id) prune false)
  | Ok (Err e, _) | Err e =>
      Ok (applied_nothing stored (reply_error (err_kind e) (error_to_string e)))
  | Ok (Panic why, _) | Panic why => Panic why
  end.

(** The runs whose schedule an event may change; claims leave the progress flag. *)
Definition event_progress (event : DomainEvent) : bool :=
  match event with
  | ClaimGranted _ _ _ _ _ _ _ _ _ _ _ _ _ _ | ClaimRenewed _ _ _ _ _ => false
  | _ => true
  end.

Definition affect_event (affected : list (RunId.t * option bool)) (run : RunId.t) (progress : bool) :
    list (RunId.t * option bool) :=
  match bt_get run affected with
  | Some _ => if progress then affect run (Some true) affected else affected
  | None => affect run (if progress then Some true else None) affected
  end.

Definition affect_events domain (affected : list (RunId.t * option bool)) (evs : events) :
    Outcome (list (RunId.t * option bool)) :=
  outcome_fold (λ affected event,
    owner ← sto (event_owner domain event);
    Ok (match owner with Some run => affect_event affected run (event_progress event) | None => affected end))
    affected evs.

(** ** The schedule index *)
Inductive RetentionUpdate := Retention_Candidate (candidate : option Z) | Retention_Rebuild (value : option Z).

Definition retention_candidate domain (evs : events) (command_id : option CommandId.t)
    (receipt : option CommandResult) : option Z :=
  let command := ms ← (id ← command_id; command_times domain !! id); Some (sat_add64 ms DAY_MS) in
  let receipt := r ← receipt; Some (sat_add64 (cr_recorded_ms r) DAY_MS) in
  let run_due run :=
    r ← runs domain !! run;
    if rs_terminal_ms r =? 0 then None
    else Some (sat_add64 (rs_terminal_ms r) (sat_mul64 (terminal_history_days (rs_policy r)) DAY_MS)) in
  let due event :=
    match event with
    | EventAccepted _ _ _ _ _ _ expires_ms _ => if expires_ms =? 0 then None else Some expires_ms
    | RunSucceeded run _ | RunFailed run _ => run_due run
    | _ => None
    end in
  list_min (option_list command ++ option_list receipt ++ omap due evs).

Record ScheduleIndex := mkScheduleIndex {
  si_rows : list (string * RunSchedule);
  si_retention : option Z;
  si_revision : Z;
}.

Definition row_changed (previous next : option RunSchedule) : bool :=
  match previous, next with
  | Some old, Some new => changed_from new old
  | None, None => false
  | _, _ => true
  end.

Definition update_row domain (now_ms generation applied_index : Z)
    (acc : list (string * RunSchedule) * bool) (entry : RunId.t * option bool) :
    Outcome (list (string * RunSchedule) * bool) :=
  let '(rows, changed) := acc in
  let '(run, progress) := entry in
  let key := RunId.to_hex run in
  let previous := bt_get key rows in
  if match previous with Some row => negb (sch_format row =? 1) | None => false end
  then sto_err "unsupported persisted schedule index format"
  else
    let progress := default (match previous with Some row => sch_progress row | None => false end) progress in
    let next := schedule_from_state domain run progress now_ms generation applied_index in
    if row_changed previous next
    then Ok (match next with
             | Some next => str_insert key next rows
             | None => List.filter (λ row, negb (bool_decide (row.1 = key))) rows
             end, true)
    else Ok (rows, changed).

Definition update_schedule (index : ScheduleIndex) domain (affected : list (RunId.t * option bool))
    (generation applied_index : Z) (update : RetentionUpdate) : Outcome ScheduleIndex :=
  '(rows, changed) ← outcome_fold (update_row domain (engine_time_watermark_ms domain) generation applied_index)
    (si_rows index, false) affected;
  let retention := match update with
    | Retention_Candidate candidate => list_min (option_list (si_retention index) ++ option_list candidate)
    | Retention_Rebuild value => value
    end in
  let changed := changed || negb (bool_decide (retention = si_retention index)) in
  if changed then
    if si_revision index =? u64_max then sto_err "schedule revision exhausted"
    else Ok (mkScheduleIndex rows retention (si_revision index + 1))
  else Ok (mkScheduleIndex rows retention (si_revision index)).

(** ** A member applies an entry *)
Record Member := mkMember {
  mb_manifest : StoreManifest;
  mb_last_applied : option Position;
  mb_membership : Roster;
  mb_domain : State;
  mb_schedule : ScheduleIndex;
}.

(** The request of an entry, up to the transaction. *)
Definition apply_request (member : Member) (log_id : Position) (request : RaftRequest) : Outcome Applied :=
  let domain := mb_domain member in
  gate ← writer_gate (mb_manifest member) (rq_writer_format request);
  let c := rq_command request in
  match gate with
  | Some refused => Ok (applied_nothing domain refused)
  | None =>
      match inner_body (cmd_body c), cmd_body c with
      | Cmd_PrepareWriterFormat _ _, _ | Cmd_ActivateWriterFormat _ _, _ =>
          apply_format_entry domain (mb_membership member) log_id c
      | _, Cmd_Publication key operation => apply_publication_entry domain c key operation
      | _, _ => apply_command_entry domain c
      end
  end.

(** The manifest a committed activation leaves. *)
Definition activated_manifest m (format_applied : bool) : Outcome StoreManifest :=
  if format_applied then
    if negb (sm_reader_floor m =? NEXT_FORMAT)
    then sto_err "committed activation cannot apply without durable local reader preparation"
    else sto (activate_writer m)
  else Ok m.

Definition apply_one_entry (member : Member) (entry : Entry) : Outcome (RaftResponse * Member) :=
  let domain := mb_domain member in
  let next_applied := Some (en_log_id entry) in
  if match en_payload entry with Payload_Normal _ => bool_decide (current_cluster_id domain = "") | _ => false end
  then sto_err "member artifact origin is unbound; open through Engine"
  else
    _ ← sto (manifest_validate (mb_manifest member));
    applied ← match en_payload entry with
      | Payload_Normal request => apply_request member (en_log_id entry) request
      | _ => Ok (applied_nothing domain reply_default)
      end;
    let domain := ap_domain applied in
    affected ← affect_events domain (ap_affected applied) (ap_events applied);
    manifest ← activated_manifest (mb_manifest member) (ap_format_applied applied);
    if pos_index (en_log_id entry) =? u64_max then sto_err "record revision exhausted"
    else
      schedule ← update_schedule (mb_schedule member) domain affected (sm_active_generation (mb_manifest member))
        (pos_index (en_log_id entry))
        (if ap_pruned applied then Retention_Rebuild (retention_deadline domain)
         else Retention_Candidate (retention_candidate domain (ap_events applied) (ap_command_id applied)
                (rp_command_result (ap_reply applied))));
      let membership := match en_payload entry with
        | Payload_Membership joint_config nodes => mkRoster next_applied joint_config nodes
        | _ => mb_membership member
        end in
      Ok (ap_reply applied, mkMember manifest next_applied membership domain schedule).

(** [apply_entries]. An entry that stops the member leaves persisted what was
    applied before it; the outcome of the batch is the error. *)
Definition apply_entries (member : Member) (entries : list Entry) : Outcome (list RaftResponse * Member) :=
  outcome_fold (λ '(replies, member) entry,
    '(reply, member) ← apply_one_entry member entry; Ok (replies ++ [reply], member)) ([], member) entries.

(** ** Preparing readers *)

(** [required_writer_format]: the activation may be pending in the visible log,
    given as the entries after the applied one. *)
Definition activates_next (entry : Entry) : bool :=
  match en_payload entry with
  | Payload_Normal request =>
      match inner_body (cmd_body (rq_command request)) with
      | Cmd_ActivateWriterFormat _ target => target =? NEXT_FORMAT
      | _ => false
      end
  | _ => false
  end.

Definition required_writer_format (member : Member) (pending : list Entry) : Outcome Z :=
  let m := mb_manifest member in
  _ ← sto (manifest_validate m);
  Ok (if sm_writer_format m =? NEXT_FORMAT then sm_writer_format m
      else if existsb activates_next pending then NEXT_FORMAT else sm_writer_format m).

(** [prepare_format_readers]; [retained_ok] is the verdict of the store on its own
    records and snapshots. *)
Definition prepare_format_readers (member : Member) (target : Z) (expected_roster : option Position)
    (durable : bool) (retained_ok : Outcome unit) : Outcome (ReaderProof * Member) :=
  let roster := mb_membership member in
  let m := mb_manifest member in
  let domain := mb_domain member in
  if negb (target =? NEXT_FORMAT) || (CURRENT_READER <? target) then sto_err "reader target is unsupported"
  else if negb (bool_decide (ro_log_id roster = expected_roster)) then sto_err "reader committed roster changed"
  else
    _ ← sto (manifest_validate m);
    member_id ← ok_or (sm_member_id m) (error_new Unavailable "member genesis is not bound");
    cluster ← ok_or (sm_cluster_id m) (error_new Unavailable "cluster genesis is not bound");
    if negb (bool_decide (member_id ∈ (ro_nodes roster).*1)) || negb (bool_decide (current_cluster_id domain = cluster))
       || negb (fp_active_writer (format_policy domain) =? sm_writer_format m)
    then sto_err "local state, writer policy, and committed roster disagree"
    else
      _ ← sto retained_ok;
      m ← (if durable && (sm_reader_floor m <? target) then sto (install_reader m target) else Ok m);
      Ok (mkReaderProof PROOF_FORMAT cluster member_id (ro_log_id roster) (sm_active_generation m)
            (mb_last_applied member) (sm_reader_floor m) (sm_enabled_command_formats m) (sm_enabled_domain_formats m)
            [1] (sm_enabled_state_record_formats m) (sm_enabled_event_formats m)
            (sm_enabled_checkpoint_formats m) [ARTIFACT_FORMAT] [1],
          mkMember m (mb_last_applied member) roster domain (mb_schedule member)).

Definition prepare_candidate_reader_floor (member : Member) (target : Z) : Outcome Member :=
  let m := mb_manifest member in
  let domain := mb_domain member in
  _ ← sto (manifest_validate m);
  if bool_decide (is_Some (mb_last_applied member)) || negb (bool_decide (ro_nodes (mb_membership member) = []))
     || negb (bool_decide (runs domain = ∅)) || negb (bool_decide (history domain = ∅))
     || negb (fp_active_writer (format_policy domain) =? BASE_FORMAT)
     || negb (bool_decide (sm_cluster_id m = Some (current_cluster_id domain)))
     || bool_decide (sm_member_id m = None)
  then sto_err "reader floor can be prepared before join only on a pristine bound member"
  else
    m ← sto (install_reader m target);
    Ok (mkMember m (mb_last_applied member) (mb_membership member) domain (mb_schedule member)).

(** [bind_store_identity]. *)
Definition bind_store_identity (member : Member) (cluster_id : string) (member_id : Z) : Outcome Member :=
  let m := mb_manifest member in
  let domain := mb_domain member in
  _ ← sto (manifest_validate m);
  match sm_cluster_id m with
  | Some existing =>
      if negb (bool_decide (existing = cluster_id)) || negb (bool_decide (sm_member_id m = Some member_id))
         || negb (bool_decide (current_cluster_id domain = cluster_id))
      then sto_err "immutable member genesis differs from requested identity"
      else Ok member
  | None =>
      let restoring := execution_suspended domain in
      if (negb (bool_decide (runs domain = ∅)) || negb (bool_decide (history domain = ∅))
          || negb (bool_decide (terminal_summaries domain = ∅))) && negb restoring
      then sto_err "unbound application history requires explicit migration or disaster restore"
      else if negb (bool_decide (current_cluster_id domain = "")) && negb (bool_decide (current_cluster_id domain = cluster_id))
              && negb restoring
      then sto_err "application origin differs from new member authority"
      else
        let domain := upd_artifact_origins (union {[ cluster_id ]}) (upd_cluster_id (λ _, cluster_id) domain) in
        let m := mkStoreManifest (sm_format m) (sm_reader_floor m) (sm_writer_format m) (sm_active_generation m)
          (Some cluster_id) (Some member_id) (sm_domain_format m) (sm_state_record_format m) (sm_fragment_format m)
          (sm_artifact_ref_format m) (sm_event_format m) (sm_checkpoint_format m) (sm_result_format m)
          (sm_enabled_domain_formats m) (sm_enabled_event_formats m) (sm_enabled_checkpoint_formats m)
          (sm_enabled_command_formats m) (sm_enabled_state_record_formats m) in
        Ok (mkMember m (mb_last_applied member) (mb_membership member) domain (mb_schedule member))
  end.
End Replica.
