(* ===== verification/Reopen.v ===== *)
(** * Checking a store before it is used

    [validate_history_store] of [storage.rs]: what is read from disk, from a
    snapshot or from a backup is accepted only when everything the engine retained
    hangs together: publications, receipts, run histories with their artifacts,
    checkpoints and the tombstones of signals. *)
From stdpp Require Import base option gmap strings list.
From Stdlib Require Import ZArith Ascii Lia.
From S2P Require Import Prelude Value Ids Policy Catalog Ir Analysis Domain Eval Evolve History Compiler Steps Command Publication Replica.

Section Reopen.
Context `{Platform} `{CatalogSerde} `{Serde}.
Implicit Types state : State.

(** The closure [verify_origin]: a store of a cluster names where its artifacts
    come from. *)
Definition verify_origin state (artifact : ArtifactRef) : Outcome unit :=
  if negb (bool_decide (current_cluster_id state = "")) then
    _ ← validate_identity artifact;
    if negb (bool_decide (ar_cluster_id artifact ∈ artifact_origins state))
    then Err (failed_precondition "retained artifact origin is missing from the generation")
    else Ok tt
  else Ok tt.

(** A loop over checks. *)
Definition check_each {A} (f : A → Outcome unit) (l : list A) : Outcome unit :=
  _ ← outcome_map f l; Ok tt.

(** ** Publications and their receipts *)
Definition validate_published_catalog (entry : Z * PublishedCatalog) : Outcome unit :=
  let '(version, catalog) := entry in
  if version =? 0 then Err (failed_precondition "published catalog has invalid version")
  else
    _ ← map_err (λ e, failed_precondition
          ("published catalog v" +:+ show_Z version +:+ " is unavailable: " +:+ error_to_string e))
        (published_catalog_verify catalog);
    map_err (λ e, failed_precondition
        ("published catalog v" +:+ show_Z version +:+ " has invalid contracts: " +:+ error_to_string e))
      (validate_for_publication (pc_catalog catalog)).

Definition validate_published_definition state (workflow : string) (entry : Z * PublishedDefinition) :
    Outcome unit :=
  let '(version, published) := entry in
  let name := "published definition " +:+ workflow +:+ "/v" +:+ show_Z version in
  if negb (bool_decide (def_id (pd_definition published) = workflow))
     || negb (def_version (pd_definition published) =? version)
  then Err (failed_precondition "published definition identity differs from its retained key")
  else
    _ ← map_err (λ e, failed_precondition (name +:+ " is unavailable: " +:+ error_to_string e))
        (published_definition_verify published);
    catalog ← ok_or (bt_get (pd_catalog_version published) (published_catalogs state))
      (failed_precondition (name +:+ " has no retained catalog"));
    map_err (λ e, failed_precondition (name +:+ " has invalid pinned schemas: " +:+ error_to_string e))
      (validate_definition (pd_definition published) (pc_catalog catalog)).

Definition validate_receipt (entry : string * CommandResult) : Outcome unit :=
  let '(key, receipt) := entry in
  if negb (bool_decide (key = storage_key (cr_key receipt)))
  then Err (failed_precondition "retained publication receipt identity differs from its key")
  else ensure_format receipt.

(** ** The rows of a run *)
Definition event_input (event : DomainEvent) : option Value :=
  match event with
  | RunAdmitted _ _ _ input _ _ _ | ClaimGranted _ _ _ _ _ input _ _ _ _ _ _ _ _ => Some input
  | EventAccepted _ _ _ _ payload _ _ _ => Some payload
  | _ => None
  end.

Definition event_output (event : DomainEvent) : option Value :=
  match event with
  | LeafSucceeded _ _ _ output _ | RunSucceeded _ output => Some output
  | ReconciliationRecorded _ _ _ (Some output) _ => Some output
  | _ => None
  end.

(** An input or output and the reference recorded for it. *)
Definition validate_io state (missing : string) (value : option Value) (reference : option ArtifactRef) :
    Outcome unit :=
  match value, reference with
  | Some value, Some reference =>
      _ ← verify_origin state reference;
      artifact_verify reference (ar_schema reference) (inr (to_json value))
  | None, None => Ok tt
  | _, _ => Err (failed_precondition missing)
  end.

Definition uses_schema (reference : option ArtifactRef) (expected wrong : string) : Outcome unit :=
  match reference with
  | Some reference =>
      if bool_decide (ar_schema reference = expected) then Ok tt else Err (failed_precondition wrong)
  | None => Err (failed_precondition wrong)
  end.

(** The last match of the loop: an event against the schemas its run is pinned to,
    with the output schemas of the claims seen so far. *)
Definition validate_pinned state (run : RunId.t) (run_state : RunState) (claimed : gmap ActivationId.t string)
    (record : HistoryEntry) (event : DomainEvent) : Outcome (gmap ActivationId.t string) :=
  let result activation :=
    expected ← ok_or (claimed !! activation)
      (failed_precondition "accepted activity result has no retained claim schema");
    _ ← uses_schema (he_output_ref record) expected "activity output does not use its pinned schema";
    Ok claimed in
  match event with
  | RunAdmitted _ _ _ _ _ _ _ =>
      expected ← schema_identity (def_input_schema (rs_definition run_state));
      _ ← uses_schema (he_input_ref record) expected "run admission input does not use its pinned schema";
      Ok claimed
  | ClaimGranted _ _ activation handler handler_version _ _ _ _ _ _ _ _ role =>
      '(expected_input, expected_output) ← activity_schema_identity state run handler handler_version role;
      _ ← uses_schema (he_input_ref record) expected_input "activity input does not use its pinned schema";
      Ok (<[activation := expected_output]> claimed)
  | EventAccepted _ _ signal _ _ _ _ _ =>
      declaration ← ok_or (bt_get signal (def_signals (rs_definition run_state)))
        (failed_precondition "accepted event has no pinned signal schema");
      expected ← schema_identity declaration;
      _ ← uses_schema (he_input_ref record) expected "signal input does not use its pinned schema";
      Ok claimed
  | LeafSucceeded _ activation _ _ _ => result activation
  | ReconciliationRecorded _ activation _ (Some _) _ => result activation
  | RunSucceeded _ _ =>
      expected ← schema_identity (def_output_schema (rs_definition run_state));
      _ ← uses_schema (he_output_ref record) expected "run output does not use its pinned schema";
      Ok claimed
  | _ => Ok claimed
  end.

Definition validate_row state (run : RunId.t) (run_state : RunState) (claimed : gmap ActivationId.t string)
    (row : HistoryEntry * DomainEvent) : Outcome (gmap ActivationId.t string) :=
  let '(record, event) := row in
  _ ← verify_origin state (he_payload record);
  _ ← artifact_verify (he_payload record) "graphrun.domain-event/v1" (event_to_value event);
  _ ← validate_io state "accepted input is missing its immutable payload reference"
        (event_input event) (he_input_ref record);
  _ ← validate_io state "accepted output is missing its immutable payload reference"
        (event_output event) (he_output_ref record);
  validate_pinned state run run_state claimed record event.

(** ** Runs *)
Definition run_history state (run : RunId.t) :
    option (list DomainEvent * list HistoryEntry * RequiredArtifacts) :=
  match history state !! run, history_records state !! run, history_dependencies state !! run with
  | Some evs, Some records, Some dependencies =>
      if negb (bool_decide (evs = [])) && (zlen records =? zlen evs)
      then Some (evs, records, dependencies) else None
  | _, _, _ => None
  end.

Definition wrong_record (run : RunId.t) (index : nat) (record : HistoryEntry) : bool :=
  negb (bool_decide (he_format record = EVENT_FORMAT)) || negb (bool_decide (he_run record = run))
  || negb (he_sequence record =? Z.of_nat index + 1).

Definition wrong_checkpoint (history_len : Z) (checkpoint : RunCheckpoint) : bool :=
  negb (bool_decide (cp_format checkpoint = CHECKPOINT_FORMAT))
  || (cp_through_run_sequence checkpoint =? 0) || (history_len <? cp_through_run_sequence checkpoint).

Definition required_references (r : RequiredArtifacts) : list ArtifactRef :=
  [ra_definition r; ra_catalog r; ra_policy r] ++ (ra_schemas r).*2 ++ (ra_contracts r).*2.

Definition validate_checkpoint state (run_state : RunState) (checkpoint : RunCheckpoint) : Outcome unit :=
  _ ← required_verify (cp_required checkpoint) run_state;
  _ ← artifact_verify (cp_projection_ref checkpoint) "graphrun.run-projection/v2"
        (projection_to_value (cp_through_run_sequence checkpoint, cp_projection checkpoint));
  verify_origin state (cp_projection_ref checkpoint).

Definition validate_run state (run : RunId.t) : Outcome unit :=
  let named what := "run " +:+ RunId.to_hex run +:+ what in
  '(evs, records, dependencies) ← ok_or (run_history state run) (failed_precondition
    (named " has incompatible pre-history records; migrate explicitly (directory left untouched)"));
  let checkpoint := checkpoints state !! run in
  if existsb (λ '(i, record), wrong_record run i record) (imap pair records)
     || match checkpoint with Some c => wrong_checkpoint (zlen evs) c | None => false end
  then Err (failed_precondition
    (named " has unsupported history or checkpoint format; migrate explicitly (directory left untouched)"))
  else
    run_state ← unwrap "index of runs" (runs state !! run);
    _ ← required_verify dependencies run_state;
    _ ← check_each (verify_origin state) (required_references dependencies);
    _ ← outcome_fold (validate_row state run run_state) ∅ (zip records evs);
    match checkpoint with
    | Some checkpoint => validate_checkpoint state run_state checkpoint
    | None => Ok tt
    end.

Definition validate_history_store state : Outcome unit :=
  _ ← check_each validate_published_catalog (published_catalogs state);
  _ ← check_each (λ '(workflow, versions),
        check_each (validate_published_definition state workflow) versions) (published_definitions state);
  _ ← check_each validate_receipt (command_results state);
  _ ← check_each (validate_run state) (hm_keys (runs state));
  check_each (λ tombstone, verify_origin state (st_payload tombstone)) (hm_values (signal_tombstones state)).
End Reopen.
