(* ===== verification/LogStore.v ===== *)
(** * The Raft log of a member store

    The log side of [storage.rs]: the table of serialised entries and the
    boundaries that decide which of them are visible, admission against the
    credits for entries not applied yet, truncation, purging, reading back, and
    the collection of rows that no boundary reaches any more. One operation is
    one transaction: on an [Err] nothing is written. *)
From stdpp Require Import base option gmap strings list.
From Stdlib Require Import ZArith Lia.
From S2P Require Import Prelude Value Ids Policy Catalog Ir Domain FormatUpgrade Replica.

Definition UNAPPLIED_BYTES : Z := 64 * 1024 * 1024.
Definition UNAPPLIED_ENTRIES : Z := 4096.
Definition GC_ROWS : Z := 4096.
Definition GC_BYTES : Z := 4 * 1024 * 1024.

(** What [serde_json] makes of an entry: bytes that only it reads. *)
Class EntrySerde := {
  Row : Type;
  row_len : Row → Z;
  entry_to_json : Entry → Outcome Row;
  entry_from_json : Row → Outcome Entry;
}.

Record PendingCredits := mkPendingCredits { pd_entries : Z; pd_bytes : Z }.
Definition no_credits : PendingCredits := mkPendingCredits 0 0.

(** [Option::or] and [map_or(0, |id| id.index.saturating_add(1))]. *)
Definition opt_or {A} (a b : option A) : option A := match a with Some _ => a | None => b end.
Definition after_index (id : option Position) : Z :=
  match id with Some id => sat_add64 (pos_index id) 1 | None => 0 end.
(** [id.is_some_and(|id| index <= id.index)]. *)
Definition reaches (id : option Position) (index : Z) : bool :=
  match id with Some id => index <=? pos_index id | None => false end.

Section LogStore.
Context `{EntrySerde}.

(** The tables [LOG] and the rows of [META] that speak of the log. [visible_log_end]
    and [unapplied_credits] must be there; an absent boundary of the other two and
    a null one read the same. *)
Record LogDb := mkLogDb {
  db_log : gmap Z Row;
  db_visible_log_end : option (option Position);
  db_last_purged : option Position;
  db_last_applied : option Position;
  db_unapplied_credits : option PendingCredits;
}.

(** [initialize_publication_store], as far as the log goes. *)
Definition log_db_new : LogDb := mkLogDb ∅ (Some None) None None (Some no_credits).

Definition read_credits (db : LogDb) : Outcome PendingCredits :=
  ok_or (db_unapplied_credits db) (error_new Unavailable "missing unapplied credit ledger").

(** The boundary is read from the database or inside a transaction; the model has
    no other writer, so that only the messages differ. *)
Definition visible_log_end (db : LogDb) : Outcome (option Position) :=
  ok_or (db_visible_log_end db) (error_new Unavailable "required visible_log_end missing; directory left untouched").

Definition visible_in_txn (db : LogDb) : Outcome (option Position) :=
  ok_or (db_visible_log_end db) (error_new Unavailable "visible log boundary missing").

(** [table.range(low..=high)]: the rows by increasing index. *)
Definition log_range (rows : gmap Z Row) (low high : Z) : list (Z * Row) :=
  sort_by (λ a b, a.1 <=? b.1) (filter (λ kv, low ≤ kv.1 ≤ high) (map_to_list rows)).

(** ** Credits *)
Definition remove_pending_credit (credits : PendingCredits) (bytes : Z) : Outcome PendingCredits :=
  if pd_entries credits <? 1 then sto_err "unapplied entry ledger mismatch"
  else if pd_bytes credits <? bytes then sto_err "unapplied byte ledger mismatch"
  else Ok (mkPendingCredits (pd_entries credits - 1) (pd_bytes credits - bytes)).

Definition remove_credits (credits : PendingCredits) (rows : list (Z * Row)) : Outcome PendingCredits :=
  outcome_fold (λ credits row, remove_pending_credit credits (row_len row.2)) credits rows.

(** The bookkeeping that appending and its preview share: [overwritten] holds the
    lengths already counted in this batch. *)
Definition charge (rows : gmap Z Row) (visible : option Position) (index length : Z)
    (acc : gmap Z Z * PendingCredits) : Outcome (gmap Z Z * PendingCredits) :=
  let '(overwritten, credits) := acc in
  let previous := match overwritten !! index with
    | Some previous => Some previous
    | None => if reaches visible index then row_len <$> rows !! index else None
    end in
  credits ← match previous with
    | Some previous =>
        if pd_bytes credits <? previous then sto_err "unapplied ledger mismatch"
        else Ok (mkPendingCredits (pd_entries credits) (pd_bytes credits - previous))
    | None =>
        if u32_max <=? pd_entries credits then sto_err "unapplied entry overflow"
        else Ok (mkPendingCredits (pd_entries credits + 1) (pd_bytes credits))
    end;
  if u64_max <? pd_bytes credits + length then sto_err "unapplied byte overflow"
  else Ok (<[index := length]> overwritten, mkPendingCredits (pd_entries credits) (pd_bytes credits + length)).

Definition projected_append_usage (db : LogDb) (applied : option Position) (entries : list (Z * Z)) :
    Outcome PendingCredits :=
  projected ← read_credits db;
  visible ← visible_log_end db;
  snd <$> outcome_fold (λ acc '(index, length),
    if reaches applied index || reaches (db_last_purged db) index then Ok acc
    else charge (db_log db) visible index length acc) (∅, projected) entries.

Definition release_applied_credits (db : LogDb) (from through : option Position) : Outcome LogDb :=
  match through with
  | None => Ok db
  | Some through =>
      let start := after_index from in
      visible ← visible_in_txn db;
      match visible with
      | None => Ok db
      | Some visible =>
          let last := Z.min (pos_index through) (pos_index visible) in
          if last <? start then Ok db
          else
            credits ← read_credits db;
            credits ← remove_credits credits (log_range (db_log db) start last);
            Ok (mkLogDb (db_log db) (db_visible_log_end db) (db_last_purged db) (db_last_applied db) (Some credits))
      end
  end.

Definition recount_row (credits : PendingCredits) (row : Z * Row) : Outcome PendingCredits :=
  if u32_max <=? pd_entries credits then sto_err "unapplied count overflow"
  else if u64_max <? pd_bytes credits + row_len row.2 then sto_err "unapplied byte overflow"
  else
    let credits := mkPendingCredits (pd_entries credits + 1) (pd_bytes credits + row_len row.2) in
    if (UNAPPLIED_ENTRIES <? pd_entries credits) || (UNAPPLIED_BYTES <? pd_bytes credits)
    then sto_err "snapshot leaves an over-limit unapplied log" else Ok credits.

Definition recount_unapplied_credits (db : LogDb) (applied : option Position) : Outcome LogDb :=
  let start := after_index applied in
  visible ← visible_in_txn db;
  credits ← match visible with
    | Some last =>
        if start <=? pos_index last then outcome_fold recount_row no_credits (log_range (db_log db) start (pos_index last))
        else Ok no_credits
    | None => Ok no_credits
    end;
  Ok (mkLogDb (db_log db) (db_visible_log_end db) (db_last_purged db) (db_last_applied db) (Some credits)).

(** ** Appending *)
Record Append := mkAppend {
  ad_visible : option Position;
  ad_appended : gmap Z Z;
  ad_credits : PendingCredits;
  ad_rows : gmap Z Row;
}.

Definition append_entry (previous_visible purged last_applied : option Position) (a : Append) (entry : Entry) :
    Outcome Append :=
  bytes ← sto (entry_to_json entry);
  let index := pos_index (en_log_id entry) in
  if match opt_or (ad_visible a) purged with Some last => sat_add64 (pos_index last) 1 <? index | None => false end
  then sto_err "append would expose a log gap"
  else
    let visible := if match ad_visible a with Some last => pos_index last <=? index | None => true end
      then Some (en_log_id entry) else ad_visible a in
    '(appended, credits) ← (if negb (reaches last_applied index) && negb (reaches purged index) then
        '(appended, credits) ← charge (ad_rows a) previous_visible index (row_len bytes) (ad_appended a, ad_credits a);
        if UNAPPLIED_ENTRIES <? pd_entries credits then sto_err "unapplied entry credit exhausted"
        else if UNAPPLIED_BYTES <? pd_bytes credits then sto_err "unapplied byte credit exhausted"
        else Ok (appended, credits)
      else Ok (ad_appended a, ad_credits a));
    Ok (mkAppend visible appended credits (<[index := bytes]> (ad_rows a))).

Definition admit_and_append (db : LogDb) (last_applied : option Position) (entries : list Entry) : Outcome LogDb :=
  previous_visible ← visible_log_end db;
  let purged := db_last_purged db in
  credits ← read_credits db;
  a ← outcome_fold (append_entry previous_visible purged last_applied)
        (mkAppend previous_visible ∅ credits (db_log db)) entries;
  Ok (mkLogDb (ad_rows a) (Some (ad_visible a)) purged (db_last_applied db) (Some (ad_credits a))).

(** ** Truncating and purging *)
Definition truncate_predecessor (db : LogDb) (from : Z) : Outcome (option Position) :=
  let purged := db_last_purged db in
  if from =? 0 then Ok purged
  else
    found ← match db_log db !! (from - 1) with
      | Some row => entry ← sto (entry_from_json row); Ok (Some (en_log_id entry))
      | None => Ok None
      end;
    Ok (opt_or found (match purged with
      | Some id => if pos_index id =? from - 1 then Some id else None
      | None => None
      end)).

Definition truncate_logs (db : LogDb) (from : Z) : Outcome LogDb :=
  visible ← visible_log_end db;
  match visible with
  | None => Ok db
  | Some old_visible =>
      if pos_index old_visible <? from then Ok db
      else if reaches (db_last_purged db) from then sto_err "truncate crosses durable purge"
      else
        credits ← read_credits db;
        predecessor ← truncate_predecessor db from;
        if negb (from =? 0) && negb (bool_decide (is_Some predecessor))
        then sto_err "visible log predecessor missing during truncate"
        else
          let start := Z.max from (after_index (db_last_applied db)) in
          credits ← (if start <=? pos_index old_visible
            then remove_credits credits (log_range (db_log db) start (pos_index old_visible)) else Ok credits);
          Ok (mkLogDb (db_log db) (Some predecessor) (db_last_purged db) (db_last_applied db) (Some credits))
  end.

(** Whether the purge has nothing to do. *)
Definition purge_is_done (previous_purged : option Position) (last_purged : Position) : Outcome bool :=
  let through := pos_index last_purged in
  match previous_purged with
  | Some old =>
      if through <? pos_index old then Ok true
      else if through =? pos_index old then
        if negb (bool_decide (last_purged = old)) then sto_err "purged log identity changed" else Ok true
      else Ok false
  | None => Ok false
  end.

Definition purge_logs (db : LogDb) (last_purged : Position) : Outcome LogDb :=
  let through := pos_index last_purged in
  old_visible ← visible_log_end db;
  let previous_purged := db_last_purged db in
  done ← purge_is_done previous_purged last_purged;
  if (done : bool) then Ok db
  else
    credits ← read_credits db;
    let first := Z.max (after_index previous_purged) (after_index (db_last_applied db)) in
    credits ← match old_visible with
      | Some visible =>
          let last := Z.min through (pos_index visible) in
          if first <=? last then remove_credits credits (log_range (db_log db) first last) else Ok credits
      | None => Ok credits
      end;
    let visible := match old_visible with
      | Some visible => if through <? pos_index visible then Some visible else Some last_purged
      | None => Some last_purged
      end in
    Ok (mkLogDb (db_log db) (Some visible) (Some last_purged) (db_last_applied db) (Some credits)).

(** ** Applying

    The log side of [apply_one_entry] and of [install_snapshot]: both run inside the
    transaction that moves [last_applied]. *)
Definition apply_log (db : LogDb) (next_applied : Position) : Outcome LogDb :=
  db' ← release_applied_credits db (db_last_applied db) (Some next_applied);
  Ok (mkLogDb (db_log db') (db_visible_log_end db') (db_last_purged db') (Some next_applied) (db_unapplied_credits db')).

Definition install_visible (old_visible applied : option Position) : option Position :=
  match old_visible, applied with
  | Some old, Some new => if pos_index old <? pos_index new then Some new else Some old
  | None, Some new => Some new
  | old, None => old
  end.

Definition install_log (db : LogDb) (applied : option Position) : Outcome LogDb :=
  old_visible ← visible_log_end db;
  recount_unapplied_credits
    (mkLogDb (db_log db) (Some (install_visible old_visible applied)) (db_last_purged db) applied (db_unapplied_credits db))
    applied.

(** ** Reading *)
Record LogState := mkLogState { ls_last_purged_log_id : option Position; ls_last_log_id : option Position }.

Definition log_state (db : LogDb) (last_purged : option Position) : Outcome LogState :=
  visible ← visible_log_end db;
  if match last_purged, visible with Some purged, Some last => pos_index last <? pos_index purged | _, _ => false end
  then sto_err "visible log precedes durable purge"
  else Ok (mkLogState last_purged (opt_or visible last_purged)).

Definition get_logs (db : LogDb) (start last : Z) : Outcome (list Entry) :=
  visible ← visible_log_end db;
  match visible with
  | None => Ok []
  | Some visible =>
      if last <=? start then Ok []
      else
        let purged := db_last_purged db in
        let first := match purged with Some id => Z.max start (sat_add64 (pos_index id) 1) | None => start end in
        let last := Z.min (pos_index visible) (last - 1) in
        if (last <? first) || match purged with Some id => pos_index id =? u64_max | None => false end then Ok []
        else outcome_map (λ row, sto (entry_from_json row.2)) (log_range (db_log db) first last)
  end.

(** [try_get_log_entries] turns the bounds of a range into a half-open one. *)
Inductive Bound := Included (v : Z) | Excluded (v : Z) | Unbounded.

Definition try_get_log_entries (db : LogDb) (low high : Bound) : Outcome (list Entry) :=
  get_logs db
    match low with Included v => v | Excluded v => sat_add64 v 1 | Unbounded => 0 end
    match high with Included v => sat_add64 v 1 | Excluded v => v | Unbounded => u64_max end.

(** ** Collecting invisible rows *)

(** [select_gc_key]: [None] when the batch is full. *)
Definition select_gc_key (batch : list Z * Z) (index size : Z) : option (list Z * Z) :=
  let '(keys, bytes) := batch in
  if (zlen keys =? GC_ROWS) || (negb (bool_decide (keys = [])) && (GC_BYTES <? sat_add64 bytes size)) then None
  else Some (keys ++ [index], sat_add64 bytes size).

(** Selects rows until the batch is full; the flag says whether it was. *)
Fixpoint select_rows (batch : list Z * Z) (rows : list (Z * Row)) : (list Z * Z) * bool :=
  match rows with
  | [] => (batch, false)
  | (index, row) :: rows =>
      match select_gc_key batch index (row_len row) with
      | Some batch => select_rows batch rows
      | None => (batch, true)
      end
  end.

Definition gc_invisible_logs (db : LogDb) : Outcome (bool * LogDb) :=
  visible ← visible_log_end db;
  let '(batch, more) := match db_last_purged db with
    | Some purged => select_rows ([], 0) (log_range (db_log db) 0 (pos_index purged))
    | None => (([], 0), false)
    end in
  let '(batch, more) :=
    if more then (batch, true)
    else match visible with
      | Some visible =>
          if pos_index visible =? u64_max then (batch, false)
          else select_rows batch (log_range (db_log db) (pos_index visible + 1) u64_max)
      | None => select_rows batch (log_range (db_log db) 0 u64_max)
      end in
  Ok (more, mkLogDb (foldr delete (db_log db) batch.1) (db_visible_log_end db) (db_last_purged db)
              (db_last_applied db) (db_unapplied_credits db)).
End LogStore.
