(* ===== verification/Snapshot.v ===== *)
(** * Snapshot files: [snapshot_framing.rs]

    A snapshot file is a magic string, a framed manifest, the payload in frames
    with a checksum each, an empty frame and a checksum over everything before
    it. Files are byte strings; opening, permissions and syncing are left out, and
    an I/O error carries its message. *)
From stdpp Require Import base option strings list.
From Stdlib Require Import ZArith Ascii Lia.
From S2P Require Import Prelude Value Ids Policy Catalog Ir Domain Eval Evolve History Steps.

Definition MAGIC : string := "graphrun.snapshot/v1" +:+ nul.
Definition FRAME_BYTES : Z := 1024 * 1024.
Definition MAX_SNAPSHOT_BYTES : Z := 128 * 1024 * 1024 * 1024.

Record SnapshotManifest := mkSnapshotManifest {
  sn_framing_version : Z;
  sn_generation : Z;
  sn_applied_json : string;
  sn_membership_json : string;
  sn_payload_bytes : Z;
  sn_record_formats : list string;
  sn_record_count : Z;
  sn_artifact_origin_ids : list string;
}.

(** What [prost] derives for the manifest. *)
Class ManifestCodec := {
  encode_to_vec : SnapshotManifest → string;
  decode_manifest : string → Outcome SnapshotManifest;
}.

Definition io_error {A} (message : string) : Outcome A := Err (error_new Unavailable message).

(** [u32::from_le_bytes]. *)
Fixpoint of_le_bytes (s : string) : Z :=
  match s with
  | String c s => Z.of_N (N_of_ascii c) + 256 * of_le_bytes s
  | EmptyString => 0
  end.

(** The first [n] bytes and the rest. *)
Fixpoint split_bytes (n : nat) (s : string) : option (string * string) :=
  match n, s with
  | O, _ => Some ("", s)
  | S n, String c s => '(taken, rest) ← split_bytes n s; Some (String c taken, rest)
  | S _, EmptyString => None
  end.

(** [Read::read_exact] on what is left of a file. *)
Definition read_exact (n : Z) : Run string string := λ input,
  match split_bytes (Z.to_nat n) input with
  | Some (taken, rest) => Ok (taken, rest)
  | None => io_error "failed to fill whole buffer"
  end.

Section Snapshot.
Context `{Platform} `{ManifestCodec}.

Definition unsupported_manifest (m : SnapshotManifest) : bool :=
  negb (sn_framing_version m =? 1) || (MAX_SNAPSHOT_BYTES <? sn_payload_bytes m).

(** ** Writing

    [source] is what the reads of the source return, up to [FRAME_BYTES] each; an
    empty read ends it. A [Sha256] that was updated piece by piece is the digest of
    the pieces in a row, so that the bytes written so far are also its state. *)
Fixpoint write_frames (payload_bytes : Z) (transferred : Z) (file : string) (source : list string) :
    Outcome (Z * string) :=
  match source with
  | [] => Ok (transferred, file)
  | data :: source =>
      let size := zlen_string data in
      if size =? 0 then Ok (transferred, file)
      else if u64_max <? transferred + size then io_error "snapshot length overflow"
      else
        let transferred := transferred + size in
        if payload_bytes <? transferred then io_error "snapshot exceeds declared payload length"
        else write_frames payload_bytes transferred (file +:+ le_bytes32 size +:+ data +:+ sha256 data) source
  end.

Definition write_snapshot (source : list string) (m : SnapshotManifest) : Outcome (string * string) :=
  if unsupported_manifest m then io_error "unsupported or oversized snapshot"
  else
    let metadata := encode_to_vec m in
    if (zlen_string metadata =? 0) || (FRAME_BYTES <? zlen_string metadata)
    then io_error "snapshot manifest exceeds framing limit"
    else
      '(transferred, file) ← write_frames (sn_payload_bytes m) 0
         (MAGIC +:+ le_bytes32 (zlen_string metadata) +:+ metadata) source;
      if negb (transferred =? sn_payload_bytes m) then io_error "snapshot payload is shorter than its manifest"
      else
        let file := file +:+ le_bytes32 0 in
        let footer := sha256 file in
        Ok (file +:+ footer, footer).

(** ** Reading *)

(** [read_manifest]: the manifest and the bytes the digest has seen. *)
Definition read_manifest : Run string (SnapshotManifest * string) :=
  magic ← read_exact (zlen_string MAGIC);
  if negb (bool_decide (magic = MAGIC)) then lift (io_error "unknown snapshot framing version")
  else
    size ← read_exact 4;
    let length := of_le_bytes size in
    if (length =? 0) || (FRAME_BYTES <? length) then lift (io_error "snapshot manifest exceeds framing limit")
    else
      bytes ← read_exact length;
      manifest ← lift (map_err (λ e, error_new Unavailable (err_message e)) (decode_manifest bytes));
      if unsupported_manifest manifest then lift (io_error "unsupported or oversized snapshot")
      else mret (manifest, MAGIC +:+ size +:+ bytes).

(** The loop over the frames: the bytes transferred, those the digest has seen,
    and the output. A frame takes four bytes at least, so the length of the input
    bounds it. *)
Fixpoint read_frames (fuel : nat) (payload_bytes transferred : Z) (digest output : string) :
    Run string (Z * string * string) :=
  match fuel with
  | O => lift (Panic "out of fuel")
  | S fuel =>
      length ← read_exact 4;
      let size := of_le_bytes length in
      let digest := digest +:+ length in
      if size =? 0 then mret (transferred, digest, output)
      else if FRAME_BYTES <? size then lift (io_error "snapshot frame exceeds 1 MiB")
      else
        data ← read_exact size;
        checksum ← read_exact 32;
        if negb (bool_decide (sha256 data = checksum)) then lift (io_error "snapshot frame checksum mismatch")
        else if u64_max <? transferred + size then lift (io_error "snapshot payload length overflow")
        else
          let transferred := transferred + size in
          if payload_bytes <? transferred then lift (io_error "snapshot payload exceeds manifest")
          else read_frames fuel payload_bytes transferred (digest +:+ data +:+ checksum) (output +:+ data)
  end.

(** [inspect_snapshot]: manifest, footer and the payload it writes out. *)
Definition inspect_snapshot (file : string) : Outcome (SnapshotManifest * string * string) :=
  fst <$> ('(manifest, digest) ← read_manifest;
    '(transferred, digest, output) ← read_frames (S (String.length file)) (sn_payload_bytes manifest) 0 digest "";
    if negb (transferred =? sn_payload_bytes manifest) then lift (io_error "snapshot payload is incomplete")
    else
      footer ← read_exact 32;
      if negb (bool_decide (sha256 digest = footer)) then lift (io_error "snapshot footer checksum mismatch")
      else λ rest,
        if negb (bool_decide (rest = "")) then io_error "snapshot has trailing bytes"
        else Ok ((manifest, footer, output), rest)) file.

Definition verify_snapshot (file : string) : Outcome (SnapshotManifest * string) := fst <$> inspect_snapshot file.
Definition copy_payload (file : string) : Outcome string := snd <$> inspect_snapshot file.
End Snapshot.
