(* ===== verification/Clock.v ===== *)
(** * Wall clock supervision: [clock.rs], and the worker's guard in [worker.rs]

    A member compares its wall clock with its boot clock and with the committed
    watermark; a fault is latched, stored, and cleared only by an operator. The
    readings of the two clocks, the replies of the storage thread and of the
    network are inputs. One call runs to its end before the next begins. *)
From stdpp Require Import base option gmap strings list sorting.
From Stdlib Require Import ZArith Ascii Lia.
From S2P Require Import Prelude Value Ids Policy Catalog Ir Domain Eval Evolve History FormatUpgrade.

Definition QUORUM_REFRESH_MS : Z := 5000.
Definition QUORUM_EXPIRY_MS : Z := 10000.

(** ** The monitor *)
Record Monitor := mkMonitor {
  mo_previous : option (Z * Z);
  mo_faulted : bool;
  mo_fault_recorded : bool;
  mo_healthy_since : option Z;
  mo_fault_reason : option string;
}.

Definition delta_reason (delta : ClockDeltaFault) : string :=
  match delta with
  | BootReversed => "boot clock reversed"
  | WatchdogGap elapsed => "watchdog gap " +:+ show_Z elapsed +:+ " ms exceeds 2000 ms"
  | WallBootSkew discrepancy elapsed =>
      "wall/boot delta differs by " +:+ show_Z discrepancy +:+ " ms over " +:+ show_Z elapsed +:+ " ms"
  end.

Definition fault_of (previous : option (Z * Z)) (wall boot watermark : Z) : option string :=
  let fault :=
    if sat_add64 wall 2000 <? watermark
    then Some ("persisted watermark " +:+ show_Z watermark +:+ " ms is ahead of wall " +:+ show_Z wall +:+ " ms by more than 2 s")
    else None in
  match previous with
  | Some (previous_wall, previous_boot) =>
      match clock_delta_fault previous_wall previous_boot wall boot with
      | Some delta => Some (delta_reason delta)
      | None => fault
      end
  | None => fault
  end.

(** [Monitor::observe]: whether this reading is a fault. *)
Definition observe (m : Monitor) (wall boot watermark : Z) : bool * Monitor :=
  match fault_of (mo_previous m) wall boot watermark with
  | Some reason => (true, mkMonitor (Some (wall, boot)) true (mo_fault_recorded m) None (Some reason))
  | None =>
      (false, mkMonitor (Some (wall, boot)) (mo_faulted m) (mo_fault_recorded m)
         (match mo_healthy_since m with None => Some boot | since => since end) (mo_fault_reason m))
  end.

(** ** The authority of a member *)
Inductive ClockFaultState := Signal_Healthy | Signal_Latched (reason : string).

Record FreshVoterQuorum := mkFreshVoterQuorum {
  fq_membership_log_id : option Position;
  fq_sampled_voters : gset Z;
  fq_checked_boot_ms : Z;
  fq_voter_configs : list (list Z);
}.

(** [ClusterNetwork]: the peers and their addresses. *)
Definition ClusterNetwork := gmap Z string.

Record ClockAuthority := mkClockAuthority {
  ca_monitor : Monitor;
  ca_network : option ClusterNetwork;
  ca_last_quorum : option FreshVoterQuorum;
  ca_fault_signal : ClockFaultState;
}.

(** With the flag ["clock_fault"] of the member's store. *)
Record ClockMember := mkClockMember { cm_authority : ClockAuthority; cm_stored : bool }.

Definition authority_new (faulted : bool) : ClockAuthority :=
  let reason := "clock fault persisted from previous process" in
  mkClockAuthority
    (mkMonitor None faulted faulted None (if faulted then Some reason else None))
    None None (if faulted then Signal_Latched reason else Signal_Healthy).

(** A member opens its store. *)
Definition member_started (stored : bool) : ClockMember := mkClockMember (authority_new stored) stored.

Definition set_monitor (f : Monitor → Monitor) (m : ClockMember) : ClockMember :=
  let a := cm_authority m in
  mkClockMember (mkClockAuthority (f (ca_monitor a)) (ca_network a) (ca_last_quorum a) (ca_fault_signal a)) (cm_stored m).
Definition set_signal (s : ClockFaultState) (m : ClockMember) : ClockMember :=
  let a := cm_authority m in
  mkClockMember (mkClockAuthority (ca_monitor a) (ca_network a) (ca_last_quorum a) s) (cm_stored m).
Definition set_quorum (q : option FreshVoterQuorum) (m : ClockMember) : ClockMember :=
  let a := cm_authority m in
  mkClockMember (mkClockAuthority (ca_monitor a) (ca_network a) q (ca_fault_signal a)) (cm_stored m).
Definition set_stored (stored : bool) (m : ClockMember) : ClockMember := mkClockMember (cm_authority m) stored.
Definition configure_network (network : ClusterNetwork) (m : ClockMember) : ClockMember :=
  let a := cm_authority m in
  mkClockMember (mkClockAuthority (ca_monitor a) (Some network) (ca_last_quorum a) (ca_fault_signal a)) (cm_stored m).

Definition monitor (m : ClockMember) : Monitor := ca_monitor (cm_authority m).

Definition fault_recorded (r : bool) (m : Monitor) : Monitor :=
  mkMonitor (mo_previous m) (mo_faulted m) r (mo_healthy_since m) (mo_fault_reason m).
(** The monitor once a clock source failed. *)
Definition source_failed (reason : string) (m : Monitor) : Monitor :=
  mkMonitor (mo_previous m) true (mo_fault_recorded m) None (Some reason).
Definition cleared (m : Monitor) : Monitor :=
  mkMonitor (mo_previous m) false false (mo_healthy_since m) None.

(** What the storage thread does with [SetClockFault]: the write and its report,
    neither, or the write alone when the reply is lost. *)
Inductive PersistReply := Persisted | NotPersisted (e : Error) | PersistedUnreported (e : Error).

Definition persist_clock_fault (faulted : bool) (reply : PersistReply) (m : ClockMember) : Outcome unit * ClockMember :=
  match reply with
  | Persisted => (Ok tt, set_stored faulted m)
  | NotPersisted e => (Err e, m)
  | PersistedUnreported e => (Err e, set_stored faulted m)
  end.

(** What a call reads: the clocks and the cached watermark. *)
Record ClockReading := mkClockReading { cr_wall : Outcome Z; cr_boot : Outcome Z; cr_watermark : Z }.

Definition read_clocks (r : ClockReading) : Outcome (Z * Z) :=
  match cr_wall r, cr_boot r with
  | Ok wall, Ok boot => Ok (wall, boot)
  | Err e, _ | _, Err e => Err e
  | Panic w, _ | _, Panic w => Panic w
  end.

(** A latched fault that is not stored yet is stored before anything else. *)
Definition record_fault (reply : PersistReply) (m : ClockMember) : Outcome unit * ClockMember :=
  if mo_faulted (monitor m) && negb (mo_fault_recorded (monitor m)) then
    match persist_clock_fault true reply m with
    | (Ok _, m) => (Ok tt, set_monitor (fault_recorded true) m)
    | (failed, m) => (failed, m)
    end
  else (Ok tt, m).

Definition clock_unsafe (m : ClockMember) : Error :=
  error_new FailedPrecondition ("clock unsafe (" +:+ default "unknown" (mo_fault_reason (monitor m)) +:+
    "); explicit acknowledgement after ten healthy seconds required").

(** [ClockAuthority::sample]. *)
Definition sample (m : ClockMember) (r : ClockReading) (reply : PersistReply) : Outcome (Z * Z) * ClockMember :=
  let was_faulted := mo_faulted (monitor m) in
  match read_clocks r with
  | Err e =>
      let m := set_monitor (source_failed (err_message e)) m in
      let m := if was_faulted then m else set_signal (Signal_Latched (err_message e)) m in
      match record_fault reply m with
      | (Ok _, m) => (Err e, m)
      | (Err failure, m) => (Err failure, m)
      | (Panic w, m) => (Panic w, m)
      end
  | Panic w => (Panic w, m)
  | Ok (wall, boot) =>
      let '(_, observed) := observe (monitor m) wall boot (cr_watermark r) in
      let m := set_monitor (λ _, observed) m in
      let m := if mo_faulted observed && negb was_faulted
               then set_signal (Signal_Latched (default "" (mo_fault_reason observed))) m else m in
      match record_fault reply m with
      | (Ok _, m) => if mo_faulted (monitor m) then (Err (clock_unsafe m), m) else (Ok (wall, boot), m)
      | (Err failure, m) => (Err failure, m)
      | (Panic w, m) => (Panic w, m)
      end
  end.

(** [str::trim] leaves nothing: every character is white space, in UTF-8. *)
Fixpoint is_blank (s : string) : bool :=
  match s with
  | EmptyString => true
  | String c s1 =>
      let b0 := Z.of_N (N_of_ascii c) in
      if (b0 =? 32) || ((9 <=? b0) && (b0 <=? 13)) then is_blank s1
      else
        match s1 with
        | String c1 s2 =>
            let b1 := Z.of_N (N_of_ascii c1) in
            if (b0 =? 0xC2) && ((b1 =? 0x85) || (b1 =? 0xA0)) then is_blank s2
            else
              match s2 with
              | String c2 s3 =>
                  let b2 := Z.of_N (N_of_ascii c2) in
                  if ((b0 =? 0xE1) && (b1 =? 0x9A) && (b2 =? 0x80)) ||
                     ((b0 =? 0xE2) && (b1 =? 0x80) &&
                       (((0x80 <=? b2) && (b2 <=? 0x8A)) || (b2 =? 0xA8) || (b2 =? 0xA9) || (b2 =? 0xAF))) ||
                     ((b0 =? 0xE2) && (b1 =? 0x81) && (b2 =? 0x9F)) ||
                     ((b0 =? 0xE3) && (b1 =? 0x80) && (b2 =? 0x80))
                  then is_blank s3 else false
              | EmptyString => false
              end
        | EmptyString => false
        end
  end.

(** [ClockAuthority::acknowledge] up to the reading it judges. *)
Definition acknowledge_reading (m : ClockMember) (reason : string) (wall boot watermark : Outcome Z) :
    Outcome (Z * Z * Z) :=
  if is_blank reason then fail! "clock acknowledgement requires a reason"
  else if negb (mo_faulted (monitor m)) then Err (failed_precondition "no clock fault to acknowledge")
  else if negb (mo_fault_recorded (monitor m))
  then Err (error_new Unavailable "clock fault must be persisted before acknowledgement")
  else wall ← wall; boot ← boot; watermark ← watermark; Ok (wall, boot, watermark).

Definition acknowledge (m : ClockMember) (reason : string) (wall boot watermark : Outcome Z) (reply : PersistReply) :
    Outcome unit * ClockMember :=
  match acknowledge_reading m reason wall boot watermark with
  | Err e => (Err e, m)
  | Panic w => (Panic w, m)
  | Ok (wall, boot, watermark) =>
      let '(fault, observed) := observe (monitor m) wall boot watermark in
      let m := set_monitor (λ _, observed) m in
      if fault || (sat_sub boot (default boot (mo_healthy_since observed)) <? 10000) || (sat_sub wall 1000 <? watermark)
      then (Err (failed_precondition "clock must be healthy for ten seconds and catch up to the committed watermark"), m)
      else
        match persist_clock_fault false reply m with
        | (Ok _, m) => (Ok tt, set_signal Signal_Healthy (set_quorum None (set_monitor cleared m)))
        | (failed, m) => (failed, m)
        end
  end.

(** ** The voters' clocks *)
Definition joint_quorum (configs : list (list Z)) (healthy : gset Z) : bool :=
  negb (bool_decide (configs = [])) &&
  forallb (λ voters,
    negb (bool_decide (voters = [])) &&
    (length voters / 2 <? length (filter (λ v, v ∈ healthy) voters))%nat) configs.

(** [Membership::voter_ids] and [Membership::get_node]. *)
Definition voter_ids (configs : list (list Z)) : list Z := merge_sort Z.le (elements (list_to_set (concat configs) : gset Z)).
Definition get_node (roster : Roster) (id : Z) : option string :=
  snd <$> lfind (λ node, bool_decide (node.1 = id)) (ro_nodes roster).

(** What a probe of a member meets: the boot clock before, the wall clock before the
    call with the answer (its member and wall time), and the two clocks after. *)
Record ProbeReply := mkProbeReply {
  pr_started : Outcome Z;
  pr_answer : Outcome (Z * (Z * Z));
  pr_finished : Outcome Z;
  pr_after_wall : Outcome Z;
}.

(** [ClusterNetwork::probe_clock] of [cluster.rs]. *)
Definition probe_clock (network : ClusterNetwork) (target : Z) (committed_endpoint : string) (reply : ProbeReply) :
    Outcome unit :=
  match network !! target with
  | None => Err (error_new Unavailable "clock member is not configured")
  | Some addr =>
      if negb (bool_decide (addr = committed_endpoint))
      then Err (error_new Unavailable "clock member endpoint differs from committed roster")
      else
        started ← pr_started reply;
        '(before_wall, (member_id, wall_ms)) ← pr_answer reply;
        finished ← pr_finished reply;
        after_wall ← pr_after_wall reply;
        if negb (member_id =? target)
           || (500 <? sat_sub finished started)
           || (wall_ms <? sat_sub before_wall 2000)
           || (sat_add64 after_wall 2000 <? wall_ms)
        then Err (error_new Unavailable "clock member returned stale or skewed sample")
        else Ok tt
  end.

(** The voters that answered, in their order and until they are a quorum. *)
Fixpoint probe_voters (network : ClusterNetwork) (roster : Roster) (configs : list (list Z)) (replies : Z → ProbeReply)
    (ids : list Z) (healthy : gset Z) (failures : list string) : gset Z * list string :=
  match ids with
  | [] => (healthy, failures)
  | id :: ids =>
      match get_node roster id with
      | None =>
          probe_voters network roster configs replies ids healthy
            (failures ++ ["member " +:+ show_Z id +:+ ": not in committed roster"])
      | Some endpoint =>
          match probe_clock network id endpoint (replies id) with
          | Ok _ =>
              let healthy := {[id]} ∪ healthy in
              if joint_quorum configs healthy then (healthy, failures)
              else probe_voters network roster configs replies ids healthy failures
          | Err e =>
              probe_voters network roster configs replies ids healthy
                (failures ++ ["member " +:+ show_Z id +:+ ": " +:+ err_message e])
          | Panic w => (healthy, failures ++ [w])
          end
      end
  end.

(** What [sample_quorum] meets on its way. [qe_polls] are the rosters read while the
    applied one is empty, until the deadline. *)
Record QuorumEnv := mkQuorumEnv {
  qe_before : ClockReading;
  qe_before_reply : PersistReply;
  qe_id : Z;
  qe_membership : Roster;
  qe_roster : Outcome Roster;
  qe_polls : list (Outcome Roster);
  qe_replies : Z → ProbeReply;
  qe_after : ClockReading;
  qe_after_reply : PersistReply;
  qe_membership_after : Roster;
}.

Fixpoint poll_roster (roster : Roster) (polls : list (Outcome Roster)) : Outcome Roster :=
  if negb (bool_decide (ro_joint_config roster = [])) then Ok roster
  else match polls with [] => Ok roster | next :: polls => roster ← next; poll_roster roster polls end.

#[export] Instance Roster_eq_dec : EqDecision Roster.
Proof. solve_decision. Defined.

(** The cached sample, when it is of these voters and younger than [age]. *)
Definition cached_quorum (allow_cached : bool) (last : option FreshVoterQuorum) (membership : Roster) (boot age : Z) :
    option FreshVoterQuorum :=
  match last with
  | Some s =>
      if allow_cached
         && bool_decide (fq_membership_log_id s = ro_log_id membership)
         && bool_decide (fq_voter_configs s = ro_joint_config membership)
         && (sat_sub boot (fq_checked_boot_ms s) <? age)
      then Some s else None
  | None => None
  end.


(** The probes, the second sample and the sample taken from them. *)
Definition probe_quorum (m : ClockMember) (env : QuorumEnv) (network : ClusterNetwork) (roster : Roster) (allow_cached : bool) :
    Outcome FreshVoterQuorum * ClockMember :=
  let configs := ro_joint_config (qe_membership env) in
  let others := filter (λ id, id ≠ qe_id env) (voter_ids configs) in
  let '(healthy, failures) := probe_voters network roster configs (qe_replies env) others {[qe_id env]} [] in
  match sample m (qe_after env) (qe_after_reply env) with
  | (Ok (_, after_boot), m) =>
      if negb (bool_decide (qe_membership_after env = roster))
      then (Err (unavailable "voting membership changed during clock probes"), m)
      else if joint_quorum configs healthy then
        let s := mkFreshVoterQuorum (ro_log_id (qe_membership env)) healthy after_boot configs in
        (Ok s, set_quorum (Some s) m)
      else
        match cached_quorum allow_cached (ca_last_quorum (cm_authority m)) (qe_membership env) after_boot QUORUM_EXPIRY_MS with
        | Some s => (Ok s, m)
        | None =>
            (Err (unavailable ("clock-health voting quorum unavailable (" +:+ String.concat "; " failures +:+ ")")), m)
        end
  | (Err e, m) => (Err e, m)
  | (Panic w, m) => (Panic w, m)
  end.

(** [sample_quorum] between the two samples: an answer without probes, or the network
    and the roster to probe. *)
Definition quorum_plan (m : ClockMember) (env : QuorumEnv) (allow_cached : bool) (before_boot : Z) :
    Outcome (FreshVoterQuorum + ClusterNetwork * Roster) :=
  let membership := qe_membership env in
  let configs := ro_joint_config membership in
  let voters := voter_ids configs in
  if bool_decide (configs = []) || bool_decide (voters = [])
  then Err (unavailable "committed voting membership unavailable")
  else if (length voters =? 1)%nat then
    if negb (joint_quorum configs {[qe_id env]}) then Err (unavailable "local member is not the voting quorum")
    else Ok (inl (mkFreshVoterQuorum (ro_log_id membership) {[qe_id env]} before_boot configs))
  else
    match cached_quorum allow_cached (ca_last_quorum (cm_authority m)) membership before_boot QUORUM_REFRESH_MS with
    | Some s => Ok (inl s)
    | None =>
        roster ← qe_roster env;
        roster ← poll_roster roster (qe_polls env);
        if negb (bool_decide (roster = membership))
        then Err (unavailable "applied voting membership differs from Raft membership")
        else if negb (bool_decide (qe_id env ∈ voters)) then Err (unavailable "local member is not a committed voter")
        else
          network ← ok_or (ca_network (cm_authority m)) (unavailable "cluster clock network unavailable");
          Ok (inr (network, roster))
    end.

(** [sample_quorum]; [authorize] allows the cached sample, [fresh_voter_quorum] does not. *)
Definition sample_quorum (m : ClockMember) (env : QuorumEnv) (allow_cached : bool) :
    Outcome FreshVoterQuorum * ClockMember :=
  match sample m (qe_before env) (qe_before_reply env) with
  | (Err e, m) => (Err e, m)
  | (Panic w, m) => (Panic w, m)
  | (Ok (_, before_boot), m) =>
      match quorum_plan m env allow_cached before_boot with
      | Err e => (Err e, m)
      | Panic w => (Panic w, m)
      | Ok (inl s) => (Ok s, m)
      | Ok (inr (network, roster)) => probe_quorum m env network roster allow_cached
      end
  end.

Definition clock_authorize (m : ClockMember) (env : QuorumEnv) : Outcome unit * ClockMember :=
  match sample_quorum m env true with
  | (Ok _, m) => (Ok tt, m)
  | (Err e, m) => (Err e, m)
  | (Panic w, m) => (Panic w, m)
  end.

Definition fresh_voter_quorum (m : ClockMember) (env : QuorumEnv) : Outcome FreshVoterQuorum * ClockMember :=
  sample_quorum m env false.

Definition fault_reason (m : ClockMember) : option string := mo_fault_reason (monitor m).

(** ** The worker's guard: [ClockGuard] of [worker.rs] *)
Record ClockGuard := mkClockGuard { cg_last : Z * Z; cg_safe : bool }.

Definition guard_new (now : Outcome (Z * Z)) : Outcome ClockGuard := last ← now; Ok (mkClockGuard last true).

(** [clock_fault]. *)
Definition worker_clock_fault (previous current : Z * Z) : option string :=
  match clock_delta_fault previous.1 previous.2 current.1 current.2 with
  | Some BootReversed => Some "worker boot clock reversed"
  | Some (WatchdogGap _) => Some "worker watchdog gap"
  | Some (WallBootSkew _ _) => Some "worker wall/boot clock skew"
  | None => None
  end.

(** [ClockGuard::check] with what [sample] reads. *)
Definition guard_check (g : ClockGuard) (now : Outcome (Z * Z)) : Outcome unit * ClockGuard :=
  if negb (cg_safe g) then (Err (failed_precondition "worker clock unsafe"), g)
  else
    match now with
    | Err e => (Err e, mkClockGuard (cg_last g) false)
    | Panic w => (Panic w, g)
    | Ok current =>
        match worker_clock_fault (cg_last g) current with
        | Some reason => (Err (failed_precondition reason), mkClockGuard (cg_last g) false)
        | None => (Ok tt, mkClockGuard current (cg_safe g))
        end
    end.
