(* ===== verification/RecordStore.v ===== *)
(** * State records: [record_store.rs]

    How the replicated state becomes the rows of a store and back: one record per
    entry of each collection, under a key that carries its generation and owner;
    records above a mebibyte are split into fragments; markers hide the rows of
    retired runs until they are removed. The JSON of a state and of a record is
    what [serde_json] makes of it and is a parameter; a [serde_json::Map] is the
    list of its entries in key order. *)
From stdpp Require Import base option gmap strings list.
From Stdlib Require Import ZArith Ascii Lia.
From S2P Require Import Prelude Value Ids Policy Catalog Ir Domain Eval Evolve History FormatUpgrade.

Definition NESTED_FIELDS : list string := ["published_definitions"; "start_keys"].
Definition HISTORY_FIELDS : list string := ["history"; "history_records"].
Definition LIST_FIELDS : list string := ["inbox"; "obligations"].
Definition RUN_MAP_FIELDS : list string := ["runs"; "history_dependencies"; "checkpoints"; "terminal_summaries"].
Definition RUN_OWNED_FIELDS : list string := ["scopes"; "activations"; "waits"; "inbox"; "obligations"; "signal_tombstones"].
Definition RUN_ACTIVATION_FIELDS : list string :=
  ["loop_carry"; "foreach_items"; "foreach_done"; "parallel_done"; "saga_errors"; "interventions"].
Definition OMITTED_EMPTY_MAP_FIELDS : list string :=
  ["format_receipts"; "command_actors"; "command_external_ids"; "authenticated_request_digests"].
Definition FRAGMENT_BYTES : Z := 1024 * 1024.
Definition MAX_RECORD_BYTES : Z := 65 * 1024 * 1024.

Record VersionedRecord := mkVersionedRecord {
  vr_format : string;
  vr_revision : Z;
  vr_order : option Z;
  vr_value : Json;
}.

Record FragmentHeader := mkFragmentHeader {
  fh_format : string;
  fh_bytes : Z;
  fh_chunks : Z;
  fh_sha256 : string;
}.

(** The JSON text of records and headers, and the JSON value of a state. *)
Class RecordSerde := {
  record_to_json : VersionedRecord → Outcome string;
  record_from_json : string → Outcome VersionedRecord;
  header_to_json : FragmentHeader → Outcome string;
  header_from_json : string → Outcome FragmentHeader;
}.

Class StateSerde := {
  state_to_value : State → Outcome Json;
  state_from_value : Json → Outcome State;
}.

Definition contains (fields : list string) (field : string) : bool := bool_decide (field ∈ fields).

(** [Value::get] of a member, and [and_then(Value::as_str)]. *)
Definition json_get (name : string) (value : Json) : option Json :=
  match value with JObject entries => bt_get name entries | _ => None end.
Definition json_str (value : Json) : option string := match value with JString s => Some s | _ => None end.
Definition json_u64 (value : Json) : option Z :=
  match value with JInt n => if (0 <=? n) && (n <=? u64_max) then Some n else None | _ => None end.
Definition json_is_object (value : Json) : bool := match value with JObject _ => true | _ => false end.

(** ** Texts *)

(** The last [width] digits of [n] in a base up to 16. *)
Fixpoint digits_of (base : Z) (width : nat) (n : Z) : string :=
  match width with
  | O => ""
  | S width =>
      let d := (n / base ^ Z.of_nat width) mod base in
      String (ascii_of_N (Z.to_N (if d <? 10 then 48 + d else 87 + d))) (digits_of base width n)
  end.

(** [{:016x}], [{:020}] of a [u64]; [{:08}] of the number of a fragment, of which
    there are 65 at most. *)
Definition hex16 (n : Z) : string := digits_of 16 16 n.
Definition dec20 (n : Z) : string := digits_of 10 20 n.
Definition dec8 (n : Z) : string := digits_of 10 8 n.

(** [String::from_utf8] accepts the bytes. *)
Definition utf8_tail (c : ascii) : bool := let b := Z.of_N (N_of_ascii c) in (0x80 <=? b) && (b <=? 0xBF).
Fixpoint utf8_valid (s : string) : bool :=
  match s with
  | EmptyString => true
  | String c0 s1 =>
      let b0 := Z.of_N (N_of_ascii c0) in
      if b0 <? 0x80 then utf8_valid s1
      else
        match s1 with
        | EmptyString => false
        | String c1 s2 =>
            let b1 := Z.of_N (N_of_ascii c1) in
            if (0xC2 <=? b0) && (b0 <=? 0xDF) then utf8_tail c1 && utf8_valid s2
            else
              match s2 with
              | EmptyString => false
              | String c2 s3 =>
                  if (b0 =? 0xE0) then (0xA0 <=? b1) && (b1 <=? 0xBF) && utf8_tail c2 && utf8_valid s3
                  else if (b0 =? 0xED) then (0x80 <=? b1) && (b1 <=? 0x9F) && utf8_tail c2 && utf8_valid s3
                  else if (0xE1 <=? b0) && (b0 <=? 0xEF) then utf8_tail c1 && utf8_tail c2 && utf8_valid s3
                  else
                    match s3 with
                    | EmptyString => false
                    | String c3 s4 =>
                        (if (b0 =? 0xF0) then (0x90 <=? b1) && (b1 <=? 0xBF)
                         else if (b0 =? 0xF4) then (0x80 <=? b1) && (b1 <=? 0x8F)
                         else (0xF1 <=? b0) && (b0 <=? 0xF3) && utf8_tail c1)
                        && utf8_tail c2 && utf8_tail c3 && utf8_valid s4
                    end
              end
        end
  end.

(** [BTreeMap<String, Vec<u8>>]. *)
Notation Rows := (gmap string string).

#[export] Instance ReaderProof_eq_dec : EqDecision ReaderProof.
Proof. solve_decision. Defined.

#[export] Instance FormatPolicy_eq_dec : EqDecision FormatPolicy.
Proof. solve_decision. Defined.

Section RecordStore.
Context `{Platform} `{RecordSerde} `{StateSerde}.

(** ** Keys *)

(** The arguments of [record_key] after the generation. *)
Record RowKey := mkRowKey {
  rk_run : option string;
  rk_field : string;
  rk_tag : string;
  rk_primary : string;
  rk_nested : option string;
}.

Definition record_key (generation : Z) (k : RowKey) : string :=
  hex16 generation +:+ "/" +:+ match rk_run k with None => "global" | Some run => "run-" +:+ run end
  +:+ "/" +:+ rk_field k +:+ "/" +:+ rk_tag k +:+ "/" +:+ hex_encode (rk_primary k)
  +:+ "/" +:+ match rk_nested k with Some nested => hex_encode nested | None => "" end.

Definition scalar_row (field : string) : RowKey := mkRowKey None field "scalar" "" None.
Definition order_row (field : string) : RowKey := scalar_row (field +:+ "_order").

Definition map_key (generation : Z) (field key : string) : string :=
  record_key generation (mkRowKey None field "map" key None).
Definition run_map_key (generation : Z) (run : RunId.t) (field : string) : string :=
  record_key generation (mkRowKey (Some (RunId.to_hex run)) field "map" (RunId.to_hex run) None).
Definition run_list_key (generation : Z) (run : RunId.t) (field id : string) : string :=
  record_key generation (mkRowKey (Some (RunId.to_hex run)) field "list" id None).
Definition nested_key (generation : Z) (run : option RunId.t) (field group child : string) : string :=
  record_key generation (mkRowKey (RunId.to_hex <$> run) field "nested" group (Some child)).
Definition retired_key (generation : Z) (run : RunId.t) : string :=
  record_key generation (mkRowKey None "retired_runs" "map" (RunId.to_hex run) None).
Definition order_key (generation : Z) (field : string) : string := record_key generation (order_row field).
Definition scalar_key (generation : Z) (field : string) : string := record_key generation (scalar_row field).

Definition decode_key (key : string) : Outcome string :=
  bytes ← ok_or (hex_decode key) (failed_precondition "bad record key");
  if utf8_valid bytes then Ok bytes else Err (failed_precondition "record key is not UTF-8").

(** ** Records *)
Definition supported_record (format : string) : bool := contains [RECORD_FORMAT; RECORD_NEXT_FORMAT] format.

(** [record_format]: which of the three formats a row is in. *)
Definition is_fragment_header (bytes : string) : bool :=
  match header_from_json bytes with Ok header => bool_decide (fh_format header = FRAGMENT_FORMAT) | _ => false end.

Definition record_format (bytes : string) : Outcome string :=
  if is_fragment_header bytes then Ok FRAGMENT_FORMAT
  else
    record ← map_err (λ e, failed_precondition ("corrupt state record inventory: " +:+ err_message e)) (record_from_json bytes);
    if vr_revision record =? 0 then Err (failed_precondition "state record inventory has zero revision")
    else if supported_record (vr_format record) then Ok (vr_format record)
    else Err (failed_precondition "snapshot contains an unsupported state record version").

Definition for_writer (bytes : string) (writer : Z) : Outcome string :=
  record ← map_err (λ e, failed_precondition ("cannot write malformed state record: " +:+ err_message e)) (record_from_json bytes);
  if negb (supported_record (vr_format record)) || (vr_revision record =? 0)
  then Err (failed_precondition "cannot write unsupported state record")
  else
    format ← (if writer =? 4 then Ok RECORD_FORMAT
              else if writer =? 5 then Ok RECORD_NEXT_FORMAT
              else Err (failed_precondition "unsupported writer format"));
    record_to_json (mkVersionedRecord format (vr_revision record) (vr_order record) (vr_value record)).

Fixpoint json_eqb (a b : Json) : bool :=
  match a, b with
  | JNull, JNull => true
  | JBool x, JBool y => Bool.eqb x y
  | JInt x, JInt y => x =? y
  | JFloat x, JFloat y => bool_decide (x = y)
  | JString x, JString y => bool_decide (x = y)
  | JArray xs, JArray ys =>
      (fix items xs ys := match xs, ys with
        | [], [] => true
        | x :: xs, y :: ys => json_eqb x y && items xs ys
        | _, _ => false
        end) xs ys
  | JObject xs, JObject ys =>
      (fix entries (xs ys : list (string * Json)) := match xs, ys with
        | [], [] => true
        | (k, x) :: xs, (l, y) :: ys => bool_decide (k = l) && json_eqb x y && entries xs ys
        | _, _ => false
        end) xs ys
  | _, _ => false
  end.

Definition same_value (left right : string) : Outcome bool :=
  left ← map_err (λ e, failed_precondition ("stored state record is corrupt: " +:+ err_message e)) (record_from_json left);
  right ← map_err (λ e, failed_precondition ("new state record is corrupt: " +:+ err_message e)) (record_from_json right);
  if negb (supported_record (vr_format left)) || negb (supported_record (vr_format right))
     || (vr_revision left =? 0) || (vr_revision right =? 0)
  then Err (failed_precondition "unsupported state record version")
  else Ok (json_eqb (vr_value left) (vr_value right) && bool_decide (vr_order left = vr_order right)).

(** ** Encoding *)
(** [insert] and [insert_ordered]. *)
Definition insert (generation revision : Z) (rows : Rows) (row : RowKey * option Z * Json) : Outcome Rows :=
  let '(key, order, value) := row in
  let key := record_key generation key in
  bytes ← record_to_json (mkVersionedRecord RECORD_FORMAT revision order value);
  if bool_decide (is_Some (rows !! key))
  then Err (failed_precondition match order with
         | None => "duplicate state record identity"
         | Some _ => "duplicate state list identity"
         end)
  else Ok (<[key := bytes]> rows).

(** A loop that turns each entry into a row and inserts it. *)
Definition insert_all {A} (generation revision : Z) (row_of : A → Outcome (RowKey * option Z * Json))
    (rows : Rows) (entries : list A) : Outcome Rows :=
  outcome_fold (λ rows entry, row ← row_of entry; insert generation revision rows row) rows entries.

Definition owner (field : string) (key : option string) (value : Json) (state : State) : Outcome (option string) :=
  if contains RUN_MAP_FIELDS field then Ok key
  else if contains RUN_OWNED_FIELDS field then
    run ← ok_or (v ← json_get "run" value; json_str v) (failed_precondition (field +:+ " record has no run owner"));
    Ok (Some run)
  else if contains RUN_ACTIVATION_FIELDS field then
    id ← ok_or key (failed_precondition (field +:+ " has no activation identity"));
    activation ← map_err (λ e, failed_precondition ("invalid " +:+ field +:+ " activation: " +:+ err_message e))
                   (ActivationId.from_hex id);
    act ← ok_or (activations state !! activation) (failed_precondition (field +:+ " activation owner missing"));
    Ok (Some (RunId.to_hex (as_run act)))
  else Ok None.

Definition list_identity (field : string) (value : Json) : Outcome (string * string) :=
  run ← ok_or (v ← json_get "run" value; json_str v) (failed_precondition (field +:+ " entry has no run identity"));
  identity ← (if bool_decide (field = "inbox") then Ok "event_id"
              else if bool_decide (field = "obligations") then Ok "forward"
              else Err (failed_precondition "unsupported state list"));
  id ← ok_or (v ← json_get identity value; json_str v) (failed_precondition (field +:+ " entry has no " +:+ identity));
  Ok (run, id).

Definition history_row (field run : string) (entry : nat * Json) : Outcome (RowKey * option Z * Json) :=
  let sequence := Z.of_nat entry.1 + 1 in
  Ok (mkRowKey (Some run) field "sequence" (dec20 sequence) None, None, entry.2).

Definition nested_row (field group : string) (entry : string * Json) : Outcome (RowKey * option Z * Json) :=
  let '(child, value) := entry in
  run ← (if bool_decide (field = "start_keys")
         then run ← ok_or (v ← json_get "run" value; json_str v) (failed_precondition "start key has no run identity"); Ok (Some run)
         else Ok None);
  Ok (mkRowKey run field "nested" group (Some child), None, value).

Definition list_row (field : string) (entry : nat * Json) : Outcome (RowKey * option Z * Json) :=
  '(run, identity) ← list_identity field entry.2;
  Ok (mkRowKey (Some run) field "list" identity None, Some (Z.of_nat entry.1), entry.2).

Definition map_row (state : State) (field : string) (entry : string * Json) : Outcome (RowKey * option Z * Json) :=
  let '(key, value) := entry in
  run ← owner field (Some key) value state;
  Ok (mkRowKey run field "map" key None, None, value).

Definition enumerate {A} (l : list A) : list (nat * A) := imap pair l.

Definition is_map_field (defaults : list (string * Json)) (field : string) : bool :=
  match bt_get field defaults with Some value => json_is_object value | None => false end
  || contains OMITTED_EMPTY_MAP_FIELDS field.

(** The loop over the fields of the state's JSON object. *)
Definition encode_field (state : State) (defaults : list (string * Json)) (generation revision : Z)
    (rows : Rows) (entry : string * Json) : Outcome Rows :=
  let '(field, value) := entry in
  if bool_decide (field = "format_policy") && bool_decide (format_policy state = format_policy_default) then Ok rows
  else if bool_decide (field = "format_policy") then insert generation revision rows (scalar_row field, None, value)
  else if contains HISTORY_FIELDS field then
    match value with
    | JObject runs =>
        outcome_fold (λ rows '(run, entries),
          match entries with
          | JArray entries => insert_all generation revision (history_row field run) rows (enumerate entries)
          | _ => Err (failed_precondition (field +:+ " must contain ordered events"))
          end) rows runs
    | _ => Err (failed_precondition (field +:+ " must be indexed by run"))
    end
  else if contains NESTED_FIELDS field then
    match value with
    | JObject groups =>
        outcome_fold (λ rows '(group, children),
          match children with
          | JObject children => insert_all generation revision (nested_row field group) rows children
          | _ => Err (failed_precondition (field +:+ " group must be an object"))
          end) rows groups
    | _ => Err (failed_precondition (field +:+ " must be an object"))
    end
  else if contains LIST_FIELDS field then
    match value with
    | JArray entries =>
        rows ← insert_all generation revision (list_row field) rows (enumerate entries);
        insert generation revision rows (order_row field, None, JInt (zlen entries))
    | _ => Err (failed_precondition (field +:+ " must be an array"))
    end
  else if is_map_field defaults field then
    match value with
    | JObject entries => insert_all generation revision (map_row state field) rows entries
    | _ => Err (failed_precondition (field +:+ " must be an object"))
    end
  else insert generation revision rows (scalar_row field, None, value).

Definition object_fields (message : string) (value : Json) : Outcome (list (string * Json)) :=
  match value with JObject fields => Ok fields | _ => Err (failed_precondition message) end.

Definition encode (state : State) (generation revision : Z) : Outcome Rows :=
  defaults ← state_to_value state_default;
  defaults ← object_fields "default state must be an object" defaults;
  fields ← state_to_value state;
  fields ← object_fields "state must be an object" fields;
  outcome_fold (encode_field state defaults generation revision) ∅ fields.

(** [encode_value], [encode_nested_value], [encode_scalar] and [retired_marker]: one record. *)
Definition encode_one (generation revision : Z) (key : RowKey) (value : Json) : Outcome (string * string) :=
  bytes ← record_to_json (mkVersionedRecord RECORD_FORMAT revision None value);
  Ok (record_key generation key, bytes).

Definition encode_nested_value (generation revision : Z) (run : option RunId.t) (field group child : string) (value : Json) :
    Outcome (string * string) :=
  encode_one generation revision (mkRowKey (RunId.to_hex <$> run) field "nested" group (Some child)) value.
Definition encode_value (generation revision : Z) (run : option RunId.t) (field tag id : string) (value : Json) :
    Outcome (string * string) :=
  encode_one generation revision (mkRowKey (RunId.to_hex <$> run) field tag id None) value.
Definition encode_scalar (generation revision : Z) (field : string) (value : Json) : Outcome (string * string) :=
  if negb (bool_decide (field = "engine_time_watermark_ms")) then Err (failed_precondition "unsupported scalar update")
  else encode_one generation revision (scalar_row field) value.
Definition retired_marker (generation revision : Z) (run : RunId.t) : Outcome (string * string) :=
  encode_one generation revision (mkRowKey None "retired_runs" "map" (RunId.to_hex run) None) (JBool true).

Definition decode_scalar (field bytes : string) : Outcome Json :=
  if negb (contains ["artifact_origins"; "current_cluster_id"] field) then Err (failed_precondition "unsupported scalar read")
  else
    record ← map_err (λ e, failed_precondition ("corrupt " +:+ field +:+ " scalar: " +:+ err_message e)) (record_from_json bytes);
    if negb (supported_record (vr_format record)) || (vr_revision record =? 0)
    then Err (failed_precondition ("unsupported " +:+ field +:+ " scalar version"))
    else Ok (vr_value record).

(** ** Retired runs *)
Definition piece (pieces : list string) (i : nat) : string := default "" (pieces !! i).

(** [pieces[1].strip_prefix("run-")] and [RunId::from_hex]. *)
Definition run_piece (pieces : list string) : option RunId.t :=
  run ← strip_prefix "run-" (piece pieces 1);
  match RunId.from_hex run with Ok run => Some run | _ => None end.

Definition is_retired_marker (key bytes : string) (generation : Z) : Outcome (option RunId.t) :=
  let pieces := split_slash key in
  if negb (length pieces =? 6)%nat || negb (bool_decide (piece pieces 0 = hex16 generation))
  then Err (failed_precondition "invalid retired run marker generation")
  else if negb (bool_decide (piece pieces 2 = "retired_runs")) then Ok None
  else if negb (bool_decide (piece pieces 1 = "global")) || negb (bool_decide (piece pieces 3 = "map"))
          || negb (bool_decide (piece pieces 5 = ""))
  then Err (failed_precondition "malformed retired run marker")
  else
    name ← decode_key (piece pieces 4);
    run ← map_err (λ e, failed_precondition (err_message e)) (RunId.from_hex name);
    record ← map_err (λ e, failed_precondition ("corrupt retired run marker: " +:+ err_message e)) (record_from_json bytes);
    if negb (supported_record (vr_format record)) || (vr_revision record =? 0)
       || bool_decide (is_Some (vr_order record)) || negb (json_eqb (vr_value record) (JBool true))
    then Err (failed_precondition "unsupported retired run marker")
    else Ok (Some run).

Definition hidden_retired_row (key : string) (retired summarized : gset RunId.t) : bool :=
  let pieces := split_slash key in
  (length pieces =? 6)%nat &&
  match run_piece pieces with
  | Some run =>
      bool_decide (run ∈ retired) && negb (bool_decide (piece pieces 2 = "terminal_summaries")) &&
      (negb (contains ["start_keys"; "signal_tombstones"] (piece pieces 2)) || negb (bool_decide (run ∈ summarized)))
  | None => false
  end.

(** [hidden_retired_physical], with the retired runs that have a summary told apart. *)
Definition hidden_retired_physical (key : string) (retired : gmap RunId.t bool) : bool :=
  let pieces := split_slash key in
  (6 <=? length pieces)%nat &&
  match run ← run_piece pieces; retired !! run with
  | Some has_summary =>
      negb (bool_decide (piece pieces 2 = "terminal_summaries")) &&
      (negb (contains ["start_keys"; "signal_tombstones"] (piece pieces 2)) || negb has_summary)
  | None => false
  end.

Definition history_sequence (key : string) : Outcome Z :=
  let parts := split_slash key in
  if (length parts <? 6)%nat || negb (contains HISTORY_FIELDS (piece parts 2)) || negb (bool_decide (piece parts 3 = "sequence"))
  then Err (failed_precondition "invalid history record key")
  else
    sequence ← decode_key (piece parts 4);
    ok_or (parse_uint u64_max sequence) (failed_precondition "invalid history sequence").

(** The run of a row that holds a terminal summary. *)
Definition summarized_run (key : string) : option RunId.t :=
  let pieces := split_slash key in
  if (length pieces =? 6)%nat && bool_decide (piece pieces 2 = "terminal_summaries") then run_piece pieces else None.

(** ** Decoding *)
Record Decoding := mkDecoding {
  de_root : list (string * Json);
  de_arrays : gmap (string * string) (gmap Z Json);
  de_counters : gmap string Z;
}.

Definition set_root (root : list (string * Json)) (d : Decoding) : Decoding :=
  mkDecoding root (de_arrays d) (de_counters d).

Definition add_to_array (d : Decoding) (field group sequence : string) (value : Json) : Outcome Decoding :=
  sequence ← ok_or (parse_uint u64_max sequence) (failed_precondition ("invalid " +:+ field +:+ " sequence"));
  let values := default ∅ (de_arrays d !! (field, group)) in
  if bool_decide (is_Some (values !! sequence)) then Err (failed_precondition "duplicate state array sequence")
  else Ok (mkDecoding (de_root d) (<[(field, group) := <[sequence := value]> values]> (de_arrays d)) (de_counters d)).

(** [as_object_mut] of a field that is there, or made empty. *)
Definition object_of (message : string) (value : option Json) : Outcome (list (string * Json)) :=
  match value with Some (JObject entries) => Ok entries | _ => Err (failed_precondition message) end.

Definition decode_scalar_row (d : Decoding) (field : string) (value : Json) : Decoding :=
  set_root (str_insert field value (de_root d)) d.

Definition decode_map_row (d : Decoding) (field primary : string) (value : Json) : Outcome Decoding :=
  map ← object_of (field +:+ " is not a map") (Some (default (JObject []) (bt_get field (de_root d))));
  if bt_contains primary map then Err (failed_precondition "duplicate state map record")
  else Ok (set_root (str_insert field (JObject (str_insert primary value map)) (de_root d)) d).

Definition decode_nested_row (d : Decoding) (run : option string) (field primary nested : string) (value : Json) :
    Outcome Decoding :=
  if bool_decide (field = "start_keys") && negb (bool_decide ((v ← json_get "run" value; json_str v) = run))
  then Err (failed_precondition "start key run owner differs from value")
  else
    nested ← decode_key nested;
    group ← object_of (field +:+ " is not a nested map") (bt_get field (de_root d));
    members ← object_of "nested state record group has wrong type" (Some (default (JObject []) (bt_get primary group)));
    if bt_contains nested members then Err (failed_precondition "duplicate nested state record")
    else
      Ok (set_root (str_insert field (JObject (str_insert primary (JObject (str_insert nested value members)) group)) (de_root d)) d).

Definition decode_list_row (d : Decoding) (run : option string) (field primary : string) (order : option Z) (value : Json) :
    Outcome Decoding :=
  order ← ok_or order (failed_precondition (field +:+ " entry has no ordering value"));
  '(owner, identity) ← list_identity field value;
  if negb (bool_decide (run = Some owner)) || negb (bool_decide (identity = primary))
  then Err (failed_precondition (field +:+ " record identity differs from value"))
  else add_to_array d field "" (show_Z order) value.

Definition decode_counter (d : Decoding) (scope field tag primary nested : string) (record : VersionedRecord) : Outcome Decoding :=
  if negb (bool_decide (scope = "global")) || negb (bool_decide (tag = "scalar")) || negb (bool_decide (primary = ""))
     || negb (bool_decide (nested = "")) || bool_decide (is_Some (vr_order record))
  then Err (failed_precondition "malformed list order counter")
  else
    counter ← ok_or (json_u64 (vr_value record)) (failed_precondition "invalid list order counter");
    Ok (mkDecoding (de_root d) (de_arrays d) (<[field := counter]> (de_counters d))).

(** The match on the tag of a row. *)
Definition decode_tag (d : Decoding) (scope field tag primary nested : string) (record : VersionedRecord) : Outcome Decoding :=
  let run := strip_prefix "run-" scope in
  let unordered := negb (bool_decide (is_Some (vr_order record))) in
  if bool_decide (tag = "scalar") && bool_decide (scope = "global") && bool_decide (primary = "") && unordered
  then Ok (decode_scalar_row d field (vr_value record))
  else if bool_decide (tag = "map") && bool_decide (nested = "") && unordered
  then decode_map_row d field primary (vr_value record)
  else if bool_decide (tag = "nested")
          && (bool_decide (scope = "global") || (bool_decide (field = "start_keys") && bool_decide (is_Some run))) && unordered
  then decode_nested_row d run field primary nested (vr_value record)
  else if bool_decide (tag = "sequence") && contains HISTORY_FIELDS field && bool_decide (is_Some run) && unordered
  then add_to_array d field (default "" run) primary (vr_value record)
  else if bool_decide (tag = "list") && contains LIST_FIELDS field && bool_decide (is_Some run)
  then decode_list_row d run field primary (vr_order record) (vr_value record)
  else Err (failed_precondition "malformed state record key").

Definition ORDER_FIELDS : list string := ["inbox_order"; "obligations_order"].

(** What the loop over the rows carries: the keys seen and the document so far. *)
Definition decode_row (generation : Z) (retired summarized : gset RunId.t)
    (acc : gset string * Decoding) (row : string * string) : Outcome (gset string * Decoding) :=
  let '(seen, d) := acc in
  let '(key, bytes) := row in
  if bool_decide (key ∈ seen) then Err (failed_precondition "duplicate state record key")
  else
    let seen := {[key]} ∪ seen in
    let pieces := split_slash key in
    if (length pieces =? 6)%nat && bool_decide (piece pieces 2 = "retired_runs") then Ok (seen, d)
    else if hidden_retired_row key retired summarized then Ok (seen, d)
    else
      let field := piece pieces 2 in
      if negb (length pieces =? 6)%nat || negb (bool_decide (piece pieces 0 = hex16 generation))
         || (negb (bt_contains field (de_root d)) && negb (contains OMITTED_EMPTY_MAP_FIELDS field)
             && negb (contains ORDER_FIELDS field))
      then Err (failed_precondition "unknown or cross-generation state record key")
      else
        record ← map_err (λ e, failed_precondition ("corrupt state record: " +:+ err_message e)) (record_from_json bytes);
        if negb (supported_record (vr_format record)) || (vr_revision record =? 0)
        then Err (failed_precondition "unsupported state record format or revision")
        else
          primary ← decode_key (piece pieces 4);
          d ← (if contains ORDER_FIELDS field
               then decode_counter d (piece pieces 1) field (piece pieces 3) primary (piece pieces 5) record
               else decode_tag d (piece pieces 1) field (piece pieces 3) primary (piece pieces 5) record);
          Ok (seen, d).

(** One value of an array, in the loop over them in order. *)
Definition order_value (field : string) (counters : gmap string Z) (ordered : list Json) (entry : Z * Json) : Outcome (list Json) :=
  let '(sequence, value) := entry in
  if contains HISTORY_FIELDS field then
    if negb (sequence =? 1 + zlen ordered) then Err (failed_precondition (field +:+ " has a missing sequence"))
    else Ok (ordered ++ [value])
  else
    counter ← ok_or (counters !! (field +:+ "_order")) (failed_precondition (field +:+ " order counter missing"));
    if counter <=? sequence then Err (failed_precondition (field +:+ " entry exceeds order counter"))
    else Ok (ordered ++ [value]).

Definition order_values (field : string) (counters : gmap string Z) (values : gmap Z Json) : Outcome (list Json) :=
  outcome_fold (order_value field counters) [] (sort_by (λ a b, a.1 <=? b.1) (map_to_list values)).

Definition place_array (counters : gmap string Z) (root : list (string * Json))
    (array : string * string * gmap Z Json) : Outcome (list (string * Json)) :=
  let '(field, group, values) := array in
  ordered ← order_values field counters values;
  if bool_decide (group = "") then Ok (str_insert field (JArray ordered) root)
  else
    runs ← object_of "history field is not a map" (bt_get field root);
    Ok (str_insert field (JObject (str_insert group (JArray ordered) runs)) root).

(** [(String, String)] in lexicographic order. *)
Definition pair_leb (a b : string * string) : bool :=
  match String.compare a.1 b.1 with Lt => true | Gt => false | Eq => String.leb a.2 b.2 end.

(** The rows that [decode] counts: neither markers nor hidden. *)
Definition visible_row (retired summarized : gset RunId.t) (key : string) : bool :=
  negb (bool_decide (piece (split_slash key) 2 = "retired_runs")) && negb (hidden_retired_row key retired summarized).

Definition retired_of (generation : Z) (rows : list (string * string)) : Outcome (gset RunId.t) :=
  outcome_fold (λ retired '(key, bytes),
    marker ← is_retired_marker key bytes generation;
    match marker with
    | Some run =>
        if bool_decide (run ∈ retired) then Err (failed_precondition "duplicate retired run marker") else Ok ({[run]} ∪ retired)
    | None => Ok retired
    end) ∅ rows.

Definition decode (rows : list (string * string)) (generation : Z) : Outcome State :=
  defaults ← state_to_value state_default;
  root ← object_fields "default state must be an object" defaults;
  retired ← retired_of generation rows;
  let summarized : gset RunId.t := list_to_set (omap (λ row, summarized_run row.1) rows) in
  '(seen, d) ← outcome_fold (decode_row generation retired summarized) (∅, mkDecoding root ∅ ∅) rows;
  root ← outcome_fold (place_array (de_counters d)) (de_root d)
           (sort_by (λ a b, pair_leb a.1 b.1) (map_to_list (de_arrays d)));
  if negb (forallb (λ field, bool_decide (is_Some (de_counters d !! (field +:+ "_order")))) LIST_FIELDS)
  then Err (failed_precondition "order counter missing")
  else
    state ← map_err (λ e, failed_precondition ("state records cannot be assembled: " +:+ err_message e))
              (state_from_value (JObject root));
    expected ← encode state generation 1;
    if negb (bool_decide (dom expected ⊆ seen))
       || negb (size expected =? length (filter (λ key, visible_row retired summarized key = true) (elements seen)))%nat
    then Err (failed_precondition "state record owner or identity does not match its value")
    else Ok state.

(** ** Fragments *)

(** [bytes.chunks(limit)]: what fills the [room] left in a chunk, and the chunks after it. *)
Fixpoint chunks_from (limit room : Z) (s : string) : string * list string :=
  match s with
  | EmptyString => ("", [])
  | String c s =>
      if room =? 0 then
        let '(current, rest) := chunks_from limit (limit - 1) s in ("", String c current :: rest)
      else
        let '(current, rest) := chunks_from limit (room - 1) s in (String c current, rest)
  end.
Definition chunks (limit : Z) (s : string) : list string := (chunks_from limit 0 s).2.

Definition fragment_key (key : string) (index : Z) : string := key +:+ "/fragment/" +:+ dec8 index.

Definition insert_physical (message key bytes : string) (physical : Rows) : Outcome Rows :=
  if bool_decide (is_Some (physical !! key)) then Err (failed_precondition message) else Ok (<[key := bytes]> physical).

Definition frame_record (physical : Rows) (row : string * string) : Outcome Rows :=
  let '(key, bytes) := row in
  let length := zlen_string bytes in
  if MAX_RECORD_BYTES <? length then Err (failed_precondition "state record exceeds the 65 MiB per-record limit")
  else if length <=? FRAGMENT_BYTES then insert_physical "duplicate physical state record" key bytes physical
  else
    let count := (length + FRAGMENT_BYTES - 1) / FRAGMENT_BYTES in
    if u32_max <? count then Err (failed_precondition "too many record fragments")
    else
      head ← header_to_json (mkFragmentHeader FRAGMENT_FORMAT length count (hex_encode (sha256 bytes)));
      physical ← insert_physical "duplicate physical state record" key head physical;
      outcome_fold (λ physical '(index, fragment),
        insert_physical "duplicate state record fragment" (fragment_key key (Z.of_nat index)) fragment physical)
        physical (enumerate (chunks FRAGMENT_BYTES bytes)).

Definition frame_records (logical : list (string * string)) : Outcome Rows := outcome_fold frame_record ∅ logical.

(** The rows sorted into heads and fragments. *)
Definition sort_physical (acc : Rows * gmap string (gmap Z string)) (row : string * string) :
    Outcome (Rows * gmap string (gmap Z string)) :=
  let '(heads, fragments) := acc in
  let '(key, value) := row in
  let segments := split_slash key in
  if (length segments =? 6)%nat then
    heads ← insert_physical "duplicate state record" key value heads;
    Ok (heads, fragments)
  else if (length segments =? 8)%nat && bool_decide (piece segments 6 = "fragment") then
    index ← ok_or (parse_uint u32_max (piece segments 7)) (failed_precondition "invalid fragment index");
    let base := join_with "/" (take 6 segments) in
    let chunks := default ∅ (fragments !! base) in
    if bool_decide (is_Some (chunks !! index)) then Err (failed_precondition "duplicate state record fragment")
    else Ok (heads, <[base := <[index := value]> chunks]> fragments)
  else Err (failed_precondition "unsupported physical state record key").

Definition assemble (heads : Rows) (entry : string * gmap Z string) : Outcome Rows :=
  let '(key, chunks) := entry in
  header ← ok_or (heads !! key) (failed_precondition "state record fragments have no header");
  manifest ← map_err (λ e, failed_precondition ("invalid state record fragment header: " +:+ err_message e)) (header_from_json header);
  if negb (bool_decide (fh_format manifest = FRAGMENT_FORMAT)) || (MAX_RECORD_BYTES <? fh_bytes manifest)
     || negb (fh_chunks manifest =? Z.of_nat (size chunks)) || (fh_chunks manifest =? 0)
  then Err (failed_precondition "unsupported or incomplete state record fragments")
  else
    assembled ← outcome_fold (λ assembled index,
      fragment ← ok_or (chunks !! index) (failed_precondition "state record fragment sequence has a gap");
      if bool_decide (fragment = "") || (FRAGMENT_BYTES <? zlen_string fragment)
      then Err (failed_precondition "state record fragment has invalid length")
      else Ok (assembled +:+ fragment)) "" (seqZ 0 (fh_chunks manifest));
    if negb (zlen_string assembled =? fh_bytes manifest) || negb (bool_decide (hex_encode (sha256 assembled) = fh_sha256 manifest))
    then Err (failed_precondition "state record fragment checksum mismatch")
    else Ok (<[key := assembled]> heads).

Definition restore_records (physical : list (string * string)) : Outcome Rows :=
  '(heads, fragments) ← outcome_fold sort_physical (∅, ∅) physical;
  heads ← outcome_fold assemble heads (sort_by (λ a b, String.leb a.1 b.1) (map_to_list fragments));
  if existsb (λ row, is_fragment_header row.2) (map_to_list heads)
  then Err (failed_precondition "state record fragments are missing")
  else Ok heads.
End RecordStore.
