(* ===== verification/RowDelta.v ===== *)
(** * Writing what changed: the rows of one log entry

    The delta writers of [storage.rs] with [encode_applied] of [record_store.rs].
    An entry is not persisted by writing the whole state: the rows it may have
    changed are read back, encoded again, and the difference is written, checked
    against what is stored. The physical table of application rows is the map of
    its keys to their bytes, whose cursors run in key order; a redb transaction is
    the table it leaves behind. *)
From stdpp Require Import base option gmap strings list.
From Stdlib Require Import ZArith Ascii Lia.
From S2P Require Import Prelude Value Ids Policy Catalog Ir Domain Eval Evolve History Publication FormatUpgrade Retention Replica RecordStore.

Section RowDelta.
Context `{Platform} `{RecordSerde} `{StateSerde}.
Implicit Types (table previous next : Rows) (generation revision writer : Z).

(** ** Cursors *)

(** [table.range(start..)]. *)
Definition table_from table (start : string) : list (string * string) :=
  filter (λ row, String.leb start row.1 = true) (sort_by (λ a b, String.leb a.1 b.1) (map_to_list table)).

Fixpoint take_while {A} (p : A → bool) (l : list A) : list A :=
  match l with
  | [] => []
  | x :: l => if p x then x :: take_while p l else []
  end.

(** The loops that start at a prefix and [break] at the first key without it. *)
Definition collect_app_prefix table (prefix : string) : list (string * string) :=
  take_while (λ row, String.prefix prefix row.1) (table_from table prefix).

(** The map's entries in key order. *)
Definition in_key_order (rows : Rows) : list (string * string) :=
  sort_by (λ a b, String.leb a.1 b.1) (map_to_list rows).

(** ** One record *)
Record StoredAppRecord := mkStoredAppRecord { sa_value : string; sa_keys : list string }.

Definition stored_app_record table (key : string) : Outcome (option StoredAppRecord) :=
  match table !! key with
  | None => Ok None
  | Some header =>
      let rows := (key, header) :: collect_app_prefix table (key +:+ "/fragment/") in
      logical ← sto (restore_records rows);
      value ← match logical !! key with Some value => Ok value | None => sto_err "state record identity missing" end;
      Ok (Some (mkStoredAppRecord value rows.*1))
  end.

Definition remove_all table (keys : list string) : Rows := foldl (λ table key, delete key table) table keys.
Definition insert_rows table (rows : list (string * string)) : Rows := foldl (λ table row, <[row.1 := row.2]> table) table rows.

(** ** The difference of two sets of records *)

(** A record of [previous] that [next] does not have is removed. *)
Definition remove_record next table (entry : string * string) : Outcome Rows :=
  let '(key, old) := entry in
  if bool_decide (is_Some (next !! key)) then Ok table
  else
    stored ← stored_app_record table key;
    match stored with
    | None => sto_err "required application record missing"
    | Some stored =>
        same ← sto (same_value (sa_value stored) old);
        if negb same then sto_err "application record changed unexpectedly"
        else Ok (remove_all table (sa_keys stored))
    end.

(** A record of [next] replaces the one of [previous], when it differs. *)
Definition write_record previous writer table (entry : string * string) : Outcome Rows :=
  let '(key, value) := entry in
  unchanged ← match previous !! key with Some old => sto (same_value old value) | None => Ok false end;
  if unchanged : bool then Ok table
  else
    stored ← stored_app_record table key;
    table ← match stored, previous !! key with
      | Some stored, Some old =>
          same ← sto (same_value (sa_value stored) old);
          if same : bool then Ok (remove_all table (sa_keys stored))
          else sto_err "application record changed or disappeared"
      | None, None => Ok table
      | _, _ => sto_err "application record changed or disappeared"
      end;
    value ← sto (for_writer value writer);
    framed ← sto (frame_records [(key, value)]);
    Ok (insert_rows table (in_key_order framed)).

(** [writer] is the writer format of the store manifest. *)
Definition write_record_delta writer table previous next : Outcome Rows :=
  table ← outcome_fold (remove_record next) table (in_key_order previous);
  outcome_fold (write_record previous writer) table (in_key_order next).

Definition write_app_delta writer table (before after : State) generation revision : Outcome Rows :=
  previous ← sto (encode before generation 1);
  next ← sto (encode after generation (Z.max revision 1));
  write_record_delta writer table previous next.

(** ** Reading a generation *)
Definition generation_prefix generation : string := hex16 generation +:+ "/".

Definition retired_record_visibility table generation : Outcome (gmap RunId.t bool) :=
  outcome_fold (λ retired '(key, value),
    marker ← sto (is_retired_marker key value generation);
    match marker with
    | None => sto_err "invalid retired marker index"
    | Some run =>
        let summary := run_map_key generation run "terminal_summaries" in
        Ok (<[run := bool_decide (is_Some (table !! summary))]> retired)
    end) ∅ (collect_app_prefix table (generation_prefix generation +:+ "global/retired_runs/map/")).

Definition load_app_generation table generation : Outcome State :=
  retired ← retired_record_visibility table generation;
  let rows := List.filter (λ row, negb (hidden_retired_physical row.1 retired))
    (collect_app_prefix table (generation_prefix generation)) in
  logical ← sto (restore_records rows);
  state ← sto (decode (in_key_order logical) generation);
  _ ← sto (validate_persisted_state state);
  Ok state.
End RowDelta.
