(* ===== verification/Applied.v ===== *)
(** * The rows of one log entry

    [encode_applied] of [record_store.rs] and the delta writers of [storage.rs] that
    [apply_one_entry] runs: the rows an entry may have changed are read back, the
    same rows of the new state are encoded, and [RowDelta] writes the difference.
    The JSON of a single record is a parameter ([ItemSerde]). *)
From stdpp Require Import base option gmap strings list.
From Stdlib Require Import ZArith Ascii Lia.
From S2P Require Import Prelude Value Ids Policy Catalog Ir Domain Eval Evolve History Publication FormatUpgrade Retention Replica RecordStore RowDelta.

(** [serde_json::to_value] of what a row holds; identities are written as strings
    and integers as numbers. *)
Class ItemSerde := {
  event_json : DomainEvent → Outcome Json;
  history_entry_json : HistoryEntry → Outcome Json;
  inbox_json : InboxEntry → Outcome Json;
  obligation_json : Obligation → Outcome Json;
  command_result_json : CommandResult → Outcome Json;
  published_catalog_json : PublishedCatalog → Outcome Json;
  published_definition_json : PublishedDefinition → Outcome Json;
  start_key_json : StartKeyRecord → Outcome Json;
  format_policy_json : FormatPolicy → Outcome Json;
  format_receipt_json : FormatReceipt → Outcome Json;
  terminal_summary_json : TerminalSummary → Outcome Json;
}.

Section Applied.
Context `{Platform} `{Serde} `{OperationSerde} `{RecordSerde} `{StateSerde} `{ItemSerde}.
Implicit Types (state selected domain : State) (table previous next rows : Rows) (generation revision writer : Z)
  (runs : list RunId.t) (evs : list DomainEvent).

(** ** The part of the state that is encoded again *)

(** [if let Some(value) = source.get(&id) { target.insert(id, value.clone()); }] *)
Definition copy_entry {K V} `{Countable K} (source : gmap K V) (id : K) (target : gmap K V) : gmap K V :=
  match source !! id with Some value => <[id := value]> target | None => target end.

Definition select_globals state : State :=
  upd_recovery (λ _, recovery state) (upd_fair_cursor (λ _, fair_cursor state)
    (upd_next_generation (λ _, next_generation state) (upd_watermark (λ _, engine_time_watermark_ms state)
      (upd_artifact_origins (λ _, artifact_origins state) (upd_cluster_id (λ _, current_cluster_id state) state_default))))).

Definition select_command state (id : CommandId.t) selected : State :=
  upd_command_times (copy_entry (command_times state) id)
    (upd_worker_digests (copy_entry (worker_command_digests state) id)
      (upd_legacy_start_digests (copy_entry (legacy_start_digests state) id)
        (upd_request_digests (copy_entry (authenticated_request_digests state) id)
          (upd_command_actors (copy_entry (command_actors state) id)
            (upd_command_external_ids (copy_entry (command_external_ids state) id)
              (upd_commands (copy_entry (commands state) id) selected)))))).

Definition select_session state selected (id : WorkerSessionId.t) : State :=
  upd_sessions (copy_entry (sessions state) id) selected.

Definition select_tombstone state (key : string) selected : State :=
  upd_signal_tombstones (copy_entry (signal_tombstones state) key) selected.

Definition select_accepted state selected (event : DomainEvent) : State :=
  match event with
  | EventAccepted run event_id _ _ _ _ _ _ => select_tombstone state (tombstone_key run event_id) selected
  | _ => selected
  end.

(** The scopes, activations and waits of a run whose records are encoded again. *)
Record Touched := mkTouched {
  to_scopes : gset ScopeId.t;
  to_activations : gset ActivationId.t;
  to_waits : gset WaitId.t;
}.
Definition touch_scope (id : ScopeId.t) (t : Touched) : Touched := mkTouched ({[id]} ∪ to_scopes t) (to_activations t) (to_waits t).
Definition touch_activation (id : ActivationId.t) (t : Touched) : Touched := mkTouched (to_scopes t) ({[id]} ∪ to_activations t) (to_waits t).
Definition touch_wait (id : WaitId.t) (t : Touched) : Touched := mkTouched (to_scopes t) (to_activations t) ({[id]} ∪ to_waits t).

Definition parsed {A} (m : Outcome A) : Outcome A := map_err (λ e, failed_precondition (err_message e)) m.

(** A row of the run that was stored before. *)
Definition touch_row state (acc : Touched * State) (key : string) : Outcome (Touched * State) :=
  let '(touched, selected) := acc in
  let parts := split_slash key in
  encoded ← unwrap "index out of bounds" (parts !! 4%nat);
  primary ← decode_key encoded;
  if bool_decide (piece parts 2 = "scopes") then id ← parsed (ScopeId.from_hex primary); Ok (touch_scope id touched, selected)
  else if bool_decide (piece parts 2 = "activations") then
    id ← parsed (ActivationId.from_hex primary); Ok (touch_activation id touched, selected)
  else if bool_decide (piece parts 2 = "waits") then id ← parsed (WaitId.from_hex primary); Ok (touch_wait id touched, selected)
  else if bool_decide (piece parts 2 = "signal_tombstones") then Ok (touched, select_tombstone state primary selected)
  else Ok (touched, selected).

(** What an event of the run opened. *)
Definition touch_event state (run : RunId.t) (touched : Touched) (event : DomainEvent) : Outcome Touched :=
  owner ← event_owner state event;
  if bool_decide (owner = Some run) then
    Ok match event with
       | ScopeOpened _ scope _ _ _ => touch_scope scope touched
       | ActivationOpened _ _ activation _ => touch_activation activation touched
       | CompensationStarted _ _ _ activation _ _ _ _ => touch_activation activation touched
       | WaitOpened _ wait _ _ _ _ _ => touch_wait wait touched
       | _ => touched
       end
  else Ok touched.

Definition select_activation state selected (id : ActivationId.t) : State :=
  upd_interventions (copy_entry (interventions state) id)
    (upd_saga_errors (copy_entry (saga_errors state) id)
      (upd_parallel_done (copy_entry (parallel_done state) id)
        (upd_foreach_done (copy_entry (foreach_done state) id)
          (upd_foreach_items (copy_entry (foreach_items state) id)
            (upd_loop_carry (copy_entry (loop_carry state) id)
              (upd_activations (copy_entry (activations state) id) selected)))))).

Definition run_prefix generation (run : RunId.t) : string := hex16 generation +:+ "/run-" +:+ RunId.to_hex run +:+ "/".

Definition select_run state generation previous evs selected (run : RunId.t) : Outcome State :=
  let keys := List.filter (String.prefix (run_prefix generation run)) (in_key_order previous).*1 in
  '(touched, selected) ← outcome_fold (touch_row state) (mkTouched ∅ ∅ ∅, selected) keys;
  touched ← outcome_fold (touch_event state run) touched evs;
  let selected := upd_terminal_summaries (copy_entry (terminal_summaries state) run)
    (upd_checkpoints (copy_entry (checkpoints state) run)
      (upd_history_dependencies (copy_entry (history_dependencies state) run)
        (upd_runs (copy_entry (Domain.runs state) run) selected))) in
  let selected := foldl (λ selected id, upd_scopes (copy_entry (scopes state) id) selected) selected (elements (to_scopes touched)) in
  let selected := foldl (select_activation state) selected (elements (to_activations touched)) in
  Ok (foldl (λ selected id, upd_waits (copy_entry (waits state) id) selected) selected (elements (to_waits touched))).

Definition select_applied state generation runs evs (command_id : option CommandId.t) (sessions : list WorkerSessionId.t)
    previous : Outcome State :=
  let selected := select_globals state in
  let selected := match command_id with Some id => select_command state id selected | None => selected end in
  let selected := foldl (select_session state) selected sessions in
  let selected := foldl (select_accepted state) selected evs in
  outcome_fold (select_run state generation previous evs) selected runs.

(** ** The rows of that part *)
Definition GLOBAL_FIELDS : list string :=
  ["current_cluster_id"; "artifact_origins"; "engine_time_watermark_ms"; "next_generation"; "fair_cursor"; "recovery"].
Definition COMMAND_FIELDS : list string :=
  ["commands"; "command_actors"; "command_external_ids"; "authenticated_request_digests"; "legacy_start_digests";
   "worker_command_digests"; "command_times"].

Definition keep_row runs (command_id : option CommandId.t) (sessions : list WorkerSessionId.t) (key : string) : Outcome bool :=
  let parts := split_slash key in
  let field := piece parts 2 in
  if negb (bool_decide (piece parts 1 = "global"))
  then Ok (existsb (λ run, bool_decide (piece parts 1 = "run-" +:+ RunId.to_hex run)) runs)
  else if contains GLOBAL_FIELDS field then Ok true
  else if bool_decide (field = "sessions") then
    id ← decode_key (piece parts 4); Ok (bool_decide (id ∈ WorkerSessionId.to_hex <$> sessions))
  else if contains COMMAND_FIELDS field then
    id ← decode_key (piece parts 4); Ok (bool_decide (CommandId.to_hex <$> command_id = Some id))
  else Ok false.

Definition kept_rows runs (command_id : option CommandId.t) (sessions : list WorkerSessionId.t) (encoded : Rows) : Outcome Rows :=
  outcome_fold (λ result '(key, value),
    keep ← keep_row runs command_id sessions key;
    Ok (if keep : bool then <[key := value]> result else result)) ∅ (in_key_order encoded).

(** The history rows of a run after those that are stored. *)
Definition append_sequence generation revision (run : RunId.t) (field : string) (first : Z) rows (entries : list Json) : Outcome Rows :=
  insert_all generation revision (λ '(offset, value),
    Ok (mkRowKey (Some (RunId.to_hex run)) field "sequence" (dec20 (first + Z.of_nat offset + 1)) None, None, value)) rows (enumerate entries).

Definition append_history state generation revision (history_from : gmap RunId.t Z) rows (run : RunId.t) : Outcome Rows :=
  let first := default 0 (history_from !! run) in
  let evs := default [] (history state !! run) in
  let records := default [] (history_records state !! run) in
  if negb (length evs =? length records)%nat || (zlen evs <? first)
  then Err (failed_precondition "retained history sequence cannot be appended")
  else
    let encoding {A} (m : Outcome A) := map_err (λ e, failed_precondition ("cannot encode history record: " +:+ err_message e)) m in
    evs ← encoding (outcome_map event_json (drop (Z.to_nat first) evs));
    rows ← append_sequence generation revision run "history" first rows evs;
    records ← encoding (outcome_map history_entry_json (drop (Z.to_nat first) records));
    append_sequence generation revision run "history_records" first rows records.

(** One entry of a list: it keeps the number it has or gets the next one. *)
Definition number_entry generation revision runs previous (field : string) (acc : Rows * Z) (value : Json) : Outcome (Rows * Z) :=
  let '(rows, next_order) := acc in
  '(run, identity) ← list_identity field value;
  if negb (bool_decide (run ∈ RunId.to_hex <$> runs)) then Ok (rows, next_order)
  else
    let key := mkRowKey (Some run) field "list" identity None in
    '(order, next_order) ← match previous !! record_key generation key with
      | Some old =>
          old ← map_err (λ e, failed_precondition ("corrupt " +:+ field +:+ " entry: " +:+ err_message e)) (record_from_json old);
          if negb (supported_record (vr_format old)) then Err (failed_precondition ("unsupported " +:+ field +:+ " entry"))
          else order ← ok_or (vr_order old) (failed_precondition (field +:+ " entry has no order")); Ok (order, next_order)
      | None =>
          if next_order =? u64_max then Err (failed_precondition (field +:+ " order exhausted")) else Ok (next_order, next_order + 1)
      end;
    rows ← insert generation revision rows (key, Some order, value);
    Ok (rows, next_order).

(** The counter of a list, as stored. *)
Definition stored_counter generation previous (field : string) : Outcome Z :=
  counter ← ok_or (previous !! order_key generation field) (failed_precondition (field +:+ " order counter is missing"));
  counter ← map_err (λ e, failed_precondition ("invalid " +:+ field +:+ " order counter: " +:+ err_message e)) (record_from_json counter);
  if negb (supported_record (vr_format counter)) || bool_decide (is_Some (vr_order counter))
  then Err (failed_precondition ("unsupported " +:+ field +:+ " order counter"))
  else ok_or (json_u64 (vr_value counter)) (failed_precondition (field +:+ " order counter is not an integer")).

Definition append_list generation revision runs previous rows (list : string * Outcome (list Json)) : Outcome Rows :=
  let '(field, entries) := list in
  entries ← map_err (λ e, failed_precondition ("cannot encode " +:+ field +:+ ": " +:+ err_message e)) entries;
  counter ← stored_counter generation previous field;
  '(rows, next_order) ← outcome_fold (number_entry generation revision runs previous field) (rows, counter) entries;
  insert generation revision rows (order_row field, None, JInt next_order).

Definition encode_applied state generation revision runs evs (command_id : option CommandId.t)
    (sessions : list WorkerSessionId.t) previous (history_from : gmap RunId.t Z) : Outcome (Rows * State) :=
  selected ← select_applied state generation runs evs command_id sessions previous;
  encoded ← encode selected generation revision;
  result ← kept_rows runs command_id sessions encoded;
  result ← outcome_fold (append_history state generation revision history_from) result runs;
  result ← outcome_fold (append_list generation revision runs previous) result
    [("inbox", outcome_map inbox_json (List.filter (λ e, match ie_run e with Some run => bool_decide (run ∈ runs) | None => false end) (inbox state)));
     ("obligations", outcome_map obligation_json (List.filter (λ o, bool_decide (ob_run o ∈ runs)) (obligations state)))];
  Ok (result, selected).
End Applied.
