(* ===== verification/EntryRows.v ===== *)
(** * The delta writers of a log entry

    The functions of [storage.rs] that [apply_one_entry] calls on the physical
    table: reading the rows an entry may have changed, and writing what the
    command, a publication, a writer-format operation and a retention batch
    changed. A transaction is the table it leaves behind. *)
From stdpp Require Import base option gmap strings list.
From Stdlib Require Import ZArith Ascii Lia.
From S2P Require Import Prelude Value Ids Policy Catalog Ir Domain Eval Evolve History Publication FormatUpgrade Retention Replica RecordStore RowDelta Applied.

Section EntryRows.
Context `{Platform} `{Serde} `{OperationSerde} `{RecordSerde} `{StateSerde} `{ItemSerde}.
Implicit Types (state domain : State) (table : Rows) (generation revision writer : Z) (runs : list RunId.t) (evs : list DomainEvent).

(** ** Reading *)

(** [table.range(prefix..prefix~).next_back()]. *)
Definition last_history_sequence table generation (run : RunId.t) (field : string) : Outcome Z :=
  let prefix := run_prefix generation run +:+ field +:+ "/sequence/" in
  match last (List.filter (λ row, String.ltb row.1 (prefix +:+ "~")) (table_from table prefix)) with
  | Some (key, _) => sto (history_sequence key)
  | None => Ok 0
  end.

Record AppliedRecordView := mkAppliedRecordView { av_rows : Rows; av_history_from : gmap RunId.t Z }.

Definition run_record_fields : list string := RUN_MAP_FIELDS ++ RUN_OWNED_FIELDS ++ RUN_ACTIVATION_FIELDS.

Definition read_run table generation (acc : list (string * string) * gmap RunId.t Z) (run : RunId.t) :
    Outcome (list (string * string) * gmap RunId.t Z) :=
  let '(physical, history_from) := acc in
  let physical := physical ++ concat ((λ field, collect_app_prefix table (run_prefix generation run +:+ field +:+ "/")) <$> run_record_fields) in
  evs ← last_history_sequence table generation run "history";
  records ← last_history_sequence table generation run "history_records";
  if negb (evs =? records) then sto_err "stored history and provenance sequences differ"
  else Ok (physical, <[run := evs]> history_from).

Definition required_fields : list string := GLOBAL_FIELDS ++ ["inbox_order"; "obligations_order"].

Definition read_required table generation (physical : list (string * string)) (field : string) : Outcome (list (string * string)) :=
  if bool_decide (table !! scalar_key generation field = None)
  then sto_err ("required " +:+ field +:+ " application record is missing")
  else Ok (physical ++ collect_app_prefix table (generation_prefix generation +:+ "global/" +:+ field +:+ "/scalar/")).

Definition read_one table (physical : list (string * string)) (key : string) : Outcome (list (string * string)) :=
  stored ← stored_app_record table key;
  Ok match stored with Some stored => physical ++ [(key, sa_value stored)] | None => physical end.

Definition read_applied_records table generation runs (command_id : option CommandId.t) (sessions : list WorkerSessionId.t) :
    Outcome AppliedRecordView :=
  '(physical, history_from) ← outcome_fold (read_run table generation) ([], ∅) runs;
  physical ← outcome_fold (read_required table generation) physical required_fields;
  physical ← match command_id with
    | Some id => outcome_fold (read_one table) physical ((λ field, map_key generation field (CommandId.to_hex id)) <$> COMMAND_FIELDS)
    | None => Ok physical
    end;
  physical ← outcome_fold (read_one table) physical ((λ session, map_key generation "sessions" (WorkerSessionId.to_hex session)) <$> sessions);
  rows ← sto (restore_records physical);
  Ok (mkAppliedRecordView rows history_from).

(** ** What a command changed *)

(** The new table and the part of the state that was encoded. *)
Definition write_applied_delta writer table state generation revision runs evs (command_id : option CommandId.t)
    (sessions : list WorkerSessionId.t) : Outcome (Rows * State) :=
  if existsb (λ run, bool_decide (is_Some (Domain.runs state !! run)) && bool_decide (is_Some (table !! retired_key generation run))) runs
  then sto_err "retired run identity cannot be reused before bounded cleanup"
  else
    previous ← read_applied_records table generation runs command_id sessions;
    '(next, selected) ← sto (encode_applied state generation revision runs evs command_id sessions (av_rows previous) (av_history_from previous));
    table ← write_record_delta writer table (av_rows previous) next;
    Ok (table, selected).

(** ** One record more *)
Implicit Types (acc : Rows * Rows).

(** The record as stored, if it is, joins [previous]. *)
Definition retain_stored table acc (key : string) : Outcome (Rows * Rows) :=
  let '(previous, next) := acc in
  stored ← stored_app_record table key;
  Ok (match stored with Some stored => <[key := sa_value stored]> previous | None => previous end, next).

Definition retain_map_item table generation revision (run : option RunId.t) (field key : string) (value : option (Outcome Json)) acc :
    Outcome (Rows * Rows) :=
  let full_key := match run with Some run => run_map_key generation run field | None => map_key generation field key end in
  '(previous, next) ← retain_stored table acc full_key;
  match value with
  | None => Ok (previous, next)
  | Some value =>
      value ← sto value;
      '(encoded_key, encoded) ← sto (encode_value generation revision run field "map" key value);
      if negb (bool_decide (encoded_key = full_key)) then sto_err "record key differs from retained identity"
      else Ok (previous, <[full_key := encoded]> next)
  end.

Definition retain_nested_item table generation revision (run : option RunId.t) (field group child : string) (value : option (Outcome Json)) acc :
    Outcome (Rows * Rows) :=
  let key := nested_key generation run field group child in
  '(previous, next) ← retain_stored table acc key;
  match value with
  | None => Ok (previous, next)
  | Some value =>
      value ← sto value;
      '(encoded_key, bytes) ← sto (encode_nested_value generation revision run field group child value);
      Ok (previous, <[encoded_key := bytes]> next)
  end.

(** ** What a publication changed *)
Definition write_publication_delta writer table domain (key : CommandKey) (operation : PublicationOperation) generation revision :
    Outcome Rows :=
  let receipt_key := storage_key key in
  receipt ← match bt_get receipt_key (command_results domain) with
    | Some receipt => Ok receipt
    | None => sto_err "publication receipt missing after apply"
    end;
  acc ← retain_map_item table generation revision None "command_results" receipt_key (Some (command_result_json receipt)) (∅, ∅);
  '(previous, next) ← match operation with
    | PublicationOperation_Catalog version _ =>
        retain_map_item table generation revision None "published_catalogs" (show_Z version)
          (published_catalog_json <$> bt_get version (published_catalogs domain)) acc
    | PublicationOperation_Definition definition _ =>
        retain_nested_item table generation revision None "published_definitions" (def_id definition) (show_Z (def_version definition))
          (published_definition_json <$> (versions ← bt_get (def_id definition) (published_definitions domain);
            bt_get (def_version definition) versions)) acc
    | PublicationOperation_Start workflow _ start_key _ =>
        match find_start_key domain workflow start_key with
        | Some start =>
            retain_nested_item table generation revision (Some (sr_run start)) "start_keys" workflow start_key
              (Some (start_key_json start)) acc
        | None => Ok acc
        end
    end;
  write_record_delta writer table previous next.

(** ** What a writer-format operation changed *)
Definition write_format_record table domain generation revision acc (row : string * string * string * Json) : Outcome (Rows * Rows) :=
  let '(field, tag, id, value) := row in
  '(key, bytes) ← sto (encode_value generation revision None field tag id value);
  '(previous, next) ← retain_stored table acc key;
  Ok (previous, if negb (bool_decide (field = "format_policy")) || negb (bool_decide (format_policy domain = format_policy_default))
                then <[key := bytes]> next else next).

Definition write_format_delta writer table domain generation revision (receipt : FormatReceipt) : Outcome Rows :=
  let key := receipt_key (fr_cluster_id receipt) (fr_principal_id receipt) (fr_command_id receipt) in
  policy ← sto (format_policy_json (format_policy domain));
  value ← sto (format_receipt_json receipt);
  '(previous, next) ← outcome_fold (write_format_record table domain generation revision) (∅, ∅)
    [("format_policy", "scalar", "", policy); ("format_receipts", "map", key, value)];
  write_record_delta writer table previous next.

(** ** What a retention batch changed *)
Record PruneSelection := mkPruneSelection {
  ps_command_ids : list CommandId.t;
  ps_result_keys : list string;
  ps_inbox : list (RunId.t * EventId.t);
  ps_runs : list RunId.t;
  ps_summaries : list RunId.t;
}.

Definition selected_input state (input : option RunId.t * EventId.t) : Outcome (RunId.t * EventId.t) :=
  match lfind (same_input input) (inbox state) with
  | None => sto_err "selected inbox entry disappeared"
  | Some entry =>
      match ie_run entry with
      | Some run => Ok (run, input.2)
      | None => sto_err "retained inbox entry has no run"
      end
  end.

Definition select_prune_records state (time_ms : Z) (limit : nat) : Outcome PruneSelection :=
  inputs ← outcome_map (selected_input state) (earliest_due input_leb (due_inputs state time_ms) limit);
  Ok (mkPruneSelection
    (earliest_due CommandId.leb (due_commands state time_ms) limit)
    (earliest_due String.leb (due_results state time_ms) limit)
    inputs
    (earliest_due RunId.leb (due_runs state time_ms) limit)
    (earliest_due RunId.leb (due_summaries state time_ms) limit)).

Definition events_json evs : Outcome Json := items ← outcome_map event_json evs; Ok (JArray items).

(** The entries of a command, in the order of the calls. *)
Definition command_entries domain (id : CommandId.t) : list (string * option (Outcome Json)) :=
  [("commands", events_json <$> commands domain !! id);
   ("command_times", (λ ms, Ok (JInt ms)) <$> command_times domain !! id);
   ("command_actors", (λ actor, Ok (JString actor)) <$> command_actors domain !! id);
   ("command_external_ids", (λ external, Ok (JString (CommandId.to_hex external))) <$> command_external_ids domain !! id);
   ("authenticated_request_digests", (λ digest, Ok (JString digest)) <$> authenticated_request_digests domain !! id);
   ("legacy_start_digests", (λ digest, Ok (JString digest)) <$> legacy_start_digests domain !! id);
   ("worker_command_digests", (λ digest, Ok (JString digest)) <$> worker_command_digests domain !! id)].

Definition retain_command table domain generation revision acc (id : CommandId.t) : Outcome (Rows * Rows) :=
  outcome_fold (λ acc '(field, value), retain_map_item table generation revision None field (CommandId.to_hex id) value acc)
    acc (command_entries domain id).

Definition retain_input table domain generation acc (input : RunId.t * EventId.t) : Outcome (Rows * Rows) :=
  let '(previous, next) := acc in
  let '(run, id) := input in
  let key := run_list_key generation run "inbox" (EventId.to_hex id) in
  stored ← stored_app_record table key;
  Ok match stored with
     | None => (previous, next)
     | Some stored =>
         (<[key := sa_value stored]> previous,
          if existsb (same_input (Some run, id)) (inbox domain) then <[key := sa_value stored]> next else next)
     end.

(** A run that is gone gets a marker, which hides its rows until they are collected. *)
Definition retain_run table domain (selection : PruneSelection) generation revision (acc : Rows * Rows * bool) (run : RunId.t) :
    Outcome (Rows * Rows * bool) :=
  let '(previous, next, retired) := acc in
  '(previous, next, retired) ←
    (if bool_decide (is_Some (Domain.runs domain !! run)) then Ok (previous, next, retired)
     else
       let marker := retired_key generation run in
       stored ← stored_app_record table marker;
       match stored with
       | Some stored => Ok (<[marker := sa_value stored]> previous, <[marker := sa_value stored]> next, retired)
       | None =>
           if bool_decide (run ∈ ps_runs selection) then
             '(key, value) ← sto (retired_marker generation revision run);
             Ok (previous, <[key := value]> next, true)
           else sto_err "expired summary has no retired run marker"
       end);
  acc ← retain_map_item table generation revision (Some run) "terminal_summaries" (RunId.to_hex run)
    (terminal_summary_json <$> terminal_summaries domain !! run) (previous, next);
  Ok (acc, retired).

(** The new table, and whether a run was retired. *)
Definition write_prune_delta writer table domain (selection : PruneSelection) generation revision : Outcome (Rows * bool) :=
  acc ← outcome_fold (retain_command table domain generation revision) (∅, ∅) (ps_command_ids selection);
  acc ← outcome_fold (λ acc key, retain_map_item table generation revision None "command_results" key
    (command_result_json <$> bt_get key (command_results domain)) acc) acc (ps_result_keys selection);
  acc ← outcome_fold (retain_input table domain generation) acc (ps_inbox selection);
  '(previous, next, retired) ← outcome_fold (retain_run table domain selection generation revision) (acc, false)
    (ps_runs selection ++ ps_summaries selection);
  table ← write_record_delta writer table previous next;
  Ok (table, retired).

(** ** The rows of an entry *)

(** What [apply_one_entry] knows of an entry when it writes its rows. *)
Record EntryWrites := mkEntryWrites {
  ew_runs : list RunId.t;
  ew_events : list DomainEvent;
  ew_command_id : option CommandId.t;
  ew_sessions : list WorkerSessionId.t;
  ew_format_receipt : option FormatReceipt;
  ew_publication : option (CommandKey * PublicationOperation);
  ew_prune : option PruneSelection;
}.

(** The application rows of the transaction of one entry, with the part of the state
    its schedule is computed from. *)
Definition write_entry_rows writer table domain generation revision (w : EntryWrites) : Outcome (Rows * State) :=
  '(table, schedule_state) ← write_applied_delta writer table domain generation revision
    (List.filter (λ run, bool_decide (is_Some (Domain.runs domain !! run))) (ew_runs w)) (ew_events w) (ew_command_id w) (ew_sessions w);
  table ← match ew_format_receipt w with
    | Some receipt => write_format_delta writer table domain generation revision receipt
    | None => Ok table
    end;
  table ← match ew_publication w with
    | Some (key, operation) => write_publication_delta writer table domain key operation generation revision
    | None => Ok table
    end;
  table ← match ew_prune w with
    | Some selection => '(table, _) ← write_prune_delta writer table domain selection generation revision; Ok table
    | None => Ok table
    end;
  Ok (table, schedule_state).
End EntryRows.
