(* ===== verification/Builder.v ===== *)
(** * The typed graph builders

    [builder.rs], the constructors of [binding.rs] it goes with, and [flow.rs], whose
    sequences append to one region and hand the output of a step to the next. All
    the builder uses of a payload type is its [schema_ref()], so a handle is indexed
    by a schema: [Vec<T>], a tuple and [()] are the array, tuple and unit schemas.
    Two Rust types with one schema are not told apart; what is proved of handles
    holds for finer types too. A method that takes [&mut self] is a [Build]: it
    returns the draft it leaves behind also when it fails. *)
From stdpp Require Import base option gmap strings list.
From Stdlib Require Import ZArith Ascii Lia.
From S2P Require Import Prelude Value Ids Policy Catalog Ir Analysis Equality Domain Eval Evolve History.

(** ** Payload types *)
Definition unit_schema : SchemaRef := SchemaRef_Named (mkSchemaKey "unit" 1).

(** ** [binding.rs] *)
Definition from_ref (reference : Reference) : Binding := Binding_From reference None.
Definition from_path (reference : Reference) (path : string) : Binding := Binding_From reference (Some path).
Definition eq_input (path : string) (value : Value) : Condition :=
  Condition_Eq (from_path Reference_WorkflowInput path) (Binding_Literal value).
Definition lt_loop (path : string) (value : Z) : Condition :=
  Condition_Lt (from_path Reference_LoopState path) (Binding_Literal (VInt value)).
Definition flag_true (path : string) : Condition :=
  Condition_All [Condition_Exists (from_path Reference_WorkflowInput path); eq_input path (VBool true)].

Fixpoint check_binding_paths (b : Binding) : Outcome unit :=
  match b with
  | Binding_From _ (Some path) =>
      if negb (String.prefix "/" path) then fail! ("JSON Pointer " +:+ path +:+ " must start with /") else Ok tt
  | Binding_Object fields => _ ← outcome_map (λ '(_, b), check_binding_paths b) fields; Ok tt
  | Binding_Array items => _ ← outcome_map check_binding_paths items; Ok tt
  | _ => Ok tt
  end.

(** ** Handles *)
Record ActivityRef (I O : SchemaRef) := mkActivityRef { ar_key : ActivityKey; ar_retryable_codes : list string }.
Record SignalRef (T : SchemaRef) := mkSignalRef { sg_name : string; sg_schema : SchemaRef }.
Record ValueRef (T : SchemaRef) := mkValueRef { vl_binding : Binding; vl_scope : Z }.
Record InputMapping (T : SchemaRef) := mkInputMapping { im_binding : Binding }.
Record NodeRef (O : SchemaRef) := mkNodeRef { nr_key : string; nr_scope : Z }.
Record TimedWaitRef (T : SchemaRef) := mkTimedWaitRef { tw_key : string; tw_scope : Z }.
Record TerminalRef (O : SchemaRef) := mkTerminalRef { te_key : string; te_scope : Z }.
Record EntryPort := mkEntryPort { en_node : string; en_scope : Z }.
Record ExitPort := mkExitPort { ex_node : string; ex_scope : Z; ex_timeout : bool }.
Arguments mkActivityRef {_ _}. Arguments ar_key {_ _}. Arguments ar_retryable_codes {_ _}.
Arguments mkSignalRef {_}. Arguments sg_name {_}. Arguments sg_schema {_}.
Arguments mkValueRef {_}. Arguments vl_binding {_}. Arguments vl_scope {_}.
Arguments mkInputMapping {_}. Arguments im_binding {_}.
Arguments mkNodeRef {_}. Arguments nr_key {_}. Arguments nr_scope {_}.
Arguments mkTimedWaitRef {_}. Arguments tw_key {_}. Arguments tw_scope {_}.
Arguments mkTerminalRef {_}. Arguments te_key {_}. Arguments te_scope {_}.

Definition activity_from_catalog (catalog : Catalog) (I O : SchemaRef) (name : string) (version : Z) : Outcome (ActivityRef I O) :=
  let key := mkActivityKey name version in
  contract ← catalog_activity catalog key;
  if negb (bool_decide (ac_input_schema contract = I)) || negb (bool_decide (ac_output_schema contract = O))
  then fail! ("activity " +:+ name +:+ "/v" +:+ show_Z version +:+ " does not match the requested payload schemas")
  else Ok (mkActivityRef key (retryable_codes contract)).

Definition signal_new (T : SchemaRef) (name : string) : Outcome (SignalRef T) :=
  if negb (valid_ascii_name name) then fail! ("invalid signal name " +:+ name) else Ok (mkSignalRef name T).

(** [IntoInput<T>]. *)
Class IntoInput (F : SchemaRef → Set) := into_binding : ∀ {T}, F T → Binding.
#[global] Instance ValueRef_input : IntoInput ValueRef := λ T v, vl_binding v.
#[global] Instance InputMapping_input : IntoInput InputMapping := λ T m, im_binding m.

Definition node_output {O} (n : NodeRef O) : ValueRef O := mkValueRef (from_ref (Reference_NodeOutput (nr_key n))) (nr_scope n).
Definition node_entry {O} (n : NodeRef O) : EntryPort := mkEntryPort (nr_key n) (nr_scope n).
Definition node_exit {O} (n : NodeRef O) : ExitPort := mkExitPort (nr_key n) (nr_scope n) false.
Definition wait_entry {T} (w : TimedWaitRef T) : EntryPort := mkEntryPort (tw_key w) (tw_scope w).
Definition success_port {T} (w : TimedWaitRef T) : ExitPort := mkExitPort (tw_key w) (tw_scope w) false.
Definition timeout_port {T} (w : TimedWaitRef T) : ExitPort := mkExitPort (tw_key w) (tw_scope w) true.
Definition wait_output {T} (w : TimedWaitRef T) : ValueRef T := mkValueRef (from_ref (Reference_NodeOutput (tw_key w))) (tw_scope w).
Definition terminal_entry {O} (t : TerminalRef O) : EntryPort := mkEntryPort (te_key t) (te_scope t).

(** ** Regions and drafts *)
Record TypedRegion (I O : SchemaRef) := mkTypedRegion { tr_ir : Region; tr_signals : list (string * SchemaRef) }.
Arguments mkTypedRegion {_ _}. Arguments tr_ir {_ _}. Arguments tr_signals {_ _}.
Record Branch (I O : SchemaRef) := mkBranch { bn_name : string; bn_input : Binding; bn_body : TypedRegion I O }.
Arguments mkBranch {_ _}. Arguments bn_name {_ _}. Arguments bn_input {_ _}. Arguments bn_body {_ _}.
Record Case (I O : SchemaRef) := mkCase { ca_name : string; ca_when : Condition; ca_body : TypedRegion I O }.
Arguments mkCase {_ _}. Arguments ca_name {_ _}. Arguments ca_when {_ _}. Arguments ca_body {_ _}.

(** A tuple of branches; the trait is there for tuples of one to sixteen. *)
Inductive ParallelBranches : list SchemaRef → Set :=
| branches_nil : ParallelBranches []
| branches_cons {I O Os} (b : Branch I O) (rest : ParallelBranches Os) : ParallelBranches (O :: Os).

(** [map.extend(other)]. *)
Definition extend {V} (m other : list (string * V)) : list (string * V) := foldl (λ m e, str_insert e.1 e.2 m) m other.

(** [into_parts]: the signals are collected in the order of the branches. *)
Fixpoint into_parts {Os} (branches : ParallelBranches Os) : list ParallelBranch * list (list (string * SchemaRef)) :=
  match branches with
  | branches_nil => ([], [])
  | branches_cons b rest =>
      let '(parts, signals) := into_parts rest in
      (mkParallelBranch (bn_name b) (bn_input b) (tr_ir (bn_body b)) :: parts, tr_signals (bn_body b) :: signals)
  end.

Record Draft := mkDraft {
  dr_scope : Z;
  dr_input_schema : SchemaRef;
  dr_nodes : list (string * Node);
  dr_start : option string;
  dr_tail : option string;
  dr_signals : list (string * SchemaRef);
}.

(** [RegionGraphBuilder<I>] and [RegionBuilder<I>], which wraps it. *)
Definition RegionGraphBuilder (I : SchemaRef) : Set := Draft.
Definition RegionBuilder (I : SchemaRef) : Set := RegionGraphBuilder I.

Definition set_dr_nodes (f : list (string * Node) → list (string * Node)) (d : Draft) : Draft :=
  mkDraft (dr_scope d) (dr_input_schema d) (f (dr_nodes d)) (dr_start d) (dr_tail d) (dr_signals d).
Definition set_dr_start (start : string) (d : Draft) : Draft :=
  mkDraft (dr_scope d) (dr_input_schema d) (dr_nodes d) (Some start) (dr_tail d) (dr_signals d).
Definition set_dr_tail (tail : string) (d : Draft) : Draft :=
  mkDraft (dr_scope d) (dr_input_schema d) (dr_nodes d) (dr_start d) (Some tail) (dr_signals d).
Definition set_dr_signals (f : list (string * SchemaRef) → list (string * SchemaRef)) (d : Draft) : Draft :=
  mkDraft (dr_scope d) (dr_input_schema d) (dr_nodes d) (dr_start d) (dr_tail d) (f (dr_signals d)).

(** ** Computations on a draft *)
Definition Build (A : Type) : Type := Draft → Draft * Outcome A.

#[global] Instance Build_ret : MRet Build := λ A a d, (d, Ok a).
#[global] Instance Build_bind : MBind Build := λ A B k m d,
  let '(d', r) := m d in
  match r with Ok a => k a d' | Err e => (d', Err e) | Panic w => (d', Panic w) end.

Definition raise {A} (m : Outcome A) : Build A := λ d, (d, m).
Definition update (f : Draft → Draft) : Build unit := λ d, (f d, Ok tt).
Definition current : Build Draft := λ d, (d, Ok d).

(** [next_builder_scope]: the process-wide counter is read and incremented. *)
Definition graph_builder_new (I : SchemaRef) (next : Z) : RegionGraphBuilder I * Z :=
  (mkDraft next I [] None None [], wrap64 (next + 1)).

(** ** [RegionGraphBuilder] *)
Definition graph_input {I} (g : RegionGraphBuilder I) : ValueRef I := mkValueRef (from_ref Reference_ScopeInput) (dr_scope g).
Definition graph_workflow_input {I} (g : RegionGraphBuilder I) : ValueRef I :=
  mkValueRef (from_ref Reference_WorkflowInput) (dr_scope g).

(** [value] is what [serde_json::to_value] returns for the literal. *)
Definition graph_literal (T : SchemaRef) (value : string + Json) : Build (ValueRef T) :=
  d ← current;
  json ← raise (from_serde (λ e, error_invalid ("literal encode: " +:+ e)) value);
  value ← raise (from_json json);
  mret (mkValueRef (Binding_Literal value) (dr_scope d)).

Definition map_input (T : SchemaRef) (b : Binding) : Outcome (InputMapping T) :=
  if MAX_DATA_DEPTH <? binding_depth b then fail! "binding exceeds maximum depth"
  else _ ← check_binding_paths b; Ok (mkInputMapping b).

Definition same_scope (scope : Z) : Build unit :=
  d ← current; if negb (scope =? dr_scope d) then raise (fail! "cross-region handle is not allowed") else mret tt.

Definition insert_key (key : string) : Build string :=
  d ← current;
  node_key ← raise (node_key_parse key);
  if bt_contains node_key (dr_nodes d) then raise (fail! ("duplicate node key " +:+ key)) else mret node_key.

Definition put_node (key : string) (node : Node) : Build unit := update (set_dr_nodes (str_insert key node)).
Definition add_signals (signals : list (string * SchemaRef)) : Build unit := update (set_dr_signals (λ m, extend m signals)).

Definition start_at (entry : EntryPort) : Build unit :=
  _ ← same_scope (en_scope entry);
  d ← current;
  if bool_decide (is_Some (dr_start d)) then raise (fail! "start_at already set")
  else update (set_dr_start (en_node entry)).

(** A node whose success exit leads to [next]; terminal nodes have none. *)
Definition with_next (node : Node) (next : string) : option Node :=
  match node with
  | Node_Activity activity input timeout_ms retry compensation _ => Some (Node_Activity activity input timeout_ms retry compensation next)
  | Node_Choose input cases default _ => Some (Node_Choose input cases default next)
  | Node_Delay duration _ => Some (Node_Delay duration next)
  | Node_WaitUntil at_ _ => Some (Node_WaitUntil at_ next)
  | Node_WaitSignal signal key timeout_ms from _ on_timeout => Some (Node_WaitSignal signal key timeout_ms from next on_timeout)
  | Node_While state schema condition max body _ => Some (Node_While state schema condition max body next)
  | Node_DoWhile state schema condition max body _ => Some (Node_DoWhile state schema condition max body next)
  | Node_Repeat count state schema max body _ => Some (Node_Repeat count state schema max body next)
  | Node_Foreach items schema max_items max body _ => Some (Node_Foreach items schema max_items max body next)
  | Node_Parallel branches _ => Some (Node_Parallel branches next)
  | Node_Saga input body _ => Some (Node_Saga input body next)
  | Node_Complete _ | Node_Fail _ => None
  end.

Definition connect_node (node : Node) (timeout : bool) (target : string) : Outcome Node :=
  match node with
  | Node_WaitSignal signal key timeout_ms from next on_timeout =>
      if timeout then
        if bool_decide (is_Some on_timeout) then fail! "timeout port is already connected"
        else Ok (Node_WaitSignal signal key timeout_ms from next (Some target))
      else Ok (Node_WaitSignal signal key timeout_ms from target on_timeout)
  | Node_Complete _ | Node_Fail _ => fail! "terminal nodes have no exit port"
  | _ => if timeout then fail! "node has no timeout port" else Ok (default node (with_next node target))
  end.

Definition connect (exit : ExitPort) (entry : EntryPort) : Build unit :=
  _ ← same_scope (ex_scope exit);
  _ ← same_scope (en_scope entry);
  d ← current;
  node ← raise (ok_or (bt_get (ex_node exit) (dr_nodes d)) (error_invalid "connect source does not exist"));
  node ← raise (connect_node node (ex_timeout exit) (en_node entry));
  put_node (ex_node exit) node.

(** Every declaration ends with a handle of the new node. *)
Definition new_node {O} (key : string) : Build (NodeRef O) := d ← current; mret (mkNodeRef key (dr_scope d)).

Definition declare_activity {F} `{!IntoInput F} {A B} (key : string) (activity : ActivityRef A B) (input : F A) : Build (NodeRef B) :=
  node_key ← insert_key key;
  timeout_ms ← raise (duration_to_millis FORWARD_ATTEMPT_TIMEOUT);
  _ ← put_node node_key (Node_Activity (ar_key activity) (into_binding input) (Some timeout_ms) retry_forward_default None node_key);
  new_node node_key.

Definition declare_timed_wait {T} (key : string) (signal : SignalRef T) (correlation : ValueRef SchemaRef_String) (timeout : Z) :
    Build (TimedWaitRef T) :=
  _ ← same_scope (vl_scope correlation);
  node_key ← insert_key key;
  _ ← add_signals [(sg_name signal, sg_schema signal)];
  timeout_ms ← raise (duration_to_millis timeout);
  _ ← put_node node_key (Node_WaitSignal (sg_name signal) (vl_binding correlation) (Some timeout_ms) ConsumeFrom_Buffered node_key None);
  d ← current; mret (mkTimedWaitRef node_key (dr_scope d)).

Definition declare_wait_signal {T} (key : string) (signal : SignalRef T) (correlation : ValueRef SchemaRef_String) : Build (NodeRef T) :=
  _ ← same_scope (vl_scope correlation);
  node_key ← insert_key key;
  _ ← add_signals [(sg_name signal, sg_schema signal)];
  _ ← put_node node_key (Node_WaitSignal (sg_name signal) (vl_binding correlation) None ConsumeFrom_Buffered node_key None);
  new_node node_key.

Definition declare_repeat {S} (key : string) (count : ValueRef SchemaRef_Integer) (state : ValueRef S) (body : TypedRegion S S)
    (max_iterations : Z) : Build (NodeRef S) :=
  node_key ← insert_key key;
  _ ← put_node node_key (Node_Repeat (vl_binding count) (vl_binding state) S max_iterations (tr_ir body) node_key);
  _ ← add_signals (tr_signals body);
  new_node node_key.

Definition declare_while {S} (key : string) (state : ValueRef S) (condition : Condition) (body : TypedRegion S S)
    (max_iterations : Z) : Build (NodeRef S) :=
  node_key ← insert_key key;
  _ ← put_node node_key (Node_While (vl_binding state) S condition max_iterations (tr_ir body) node_key);
  _ ← add_signals (tr_signals body);
  new_node node_key.

Definition declare_do_while {S} (key : string) (state : ValueRef S) (condition : Condition) (body : TypedRegion S S)
    (max_iterations : Z) : Build (NodeRef S) :=
  node_key ← insert_key key;
  _ ← put_node node_key (Node_DoWhile (vl_binding state) S condition max_iterations (tr_ir body) node_key);
  _ ← add_signals (tr_signals body);
  new_node node_key.

(** The loop over the cases: the names so far and the cases of the node. *)
Definition add_case {A B} (acc : gset string * list ChooseCase) (case : Case A B) : Build (gset string * list ChooseCase) :=
  let '(names, cases) := acc in
  if negb (valid_ascii_name (ca_name case)) || bool_decide (ca_name case ∈ names)
  then raise (fail! ("invalid or duplicate case name " +:+ ca_name case))
  else
    _ ← add_signals (tr_signals (ca_body case));
    mret ({[ca_name case]} ∪ names, cases ++ [mkChooseCase (ca_name case) (ca_when case) (tr_ir (ca_body case))]).

Fixpoint build_fold {A B} (f : B → A → Build B) (acc : B) (l : list A) : Build B :=
  match l with [] => mret acc | x :: l => acc ← f acc x; build_fold f acc l end.

Definition declare_choose {F} `{!IntoInput F} {A B} (key : string) (input : F A) (cases : list (Case A B)) (default_ : TypedRegion A B) :
    Build (NodeRef B) :=
  if bool_decide (length cases = 0%nat) then raise (fail! "choose requires a nonempty cases list")
  else
    '(_, ir_cases) ← build_fold add_case (∅, []) cases;
    _ ← add_signals (tr_signals default_);
    node_key ← insert_key key;
    _ ← put_node node_key (Node_Choose (into_binding input) ir_cases (tr_ir default_) node_key);
    new_node node_key.

Definition declare_foreach {A B} (key : string) (items : ValueRef (SchemaRef_Array A)) (body : TypedRegion A B)
    (max_items max_concurrency : Z) : Build (NodeRef (SchemaRef_Array B)) :=
  node_key ← insert_key key;
  _ ← put_node node_key (Node_Foreach (vl_binding items) A max_items max_concurrency (tr_ir body) node_key);
  _ ← add_signals (tr_signals body);
  new_node node_key.

Definition declare_saga {A B} (key : string) (input : ValueRef A) (body : TypedRegion A B) : Build (NodeRef B) :=
  node_key ← insert_key key;
  _ ← put_node node_key (Node_Saga (vl_binding input) (tr_ir body) node_key);
  _ ← add_signals (tr_signals body);
  new_node node_key.

Definition declare_delay (key : string) (duration : Z) : Build (NodeRef unit_schema) :=
  node_key ← insert_key key;
  ms ← raise (duration_to_millis duration);
  _ ← put_node node_key (Node_Delay (Binding_Literal (VString (show_Z ms +:+ "ms"))) node_key);
  new_node node_key.

Definition declare_wait_until (key : string) (at_ms : Z) : Build (NodeRef unit_schema) :=
  node_key ← insert_key key;
  _ ← put_node node_key (Node_WaitUntil (Binding_Literal (VInt at_ms)) node_key);
  new_node node_key.

Definition declare_complete {O} (key : string) (output : ValueRef O) : Build (TerminalRef O) :=
  _ ← same_scope (vl_scope output);
  node_key ← insert_key key;
  _ ← put_node node_key (Node_Complete (vl_binding output));
  d ← current; mret (mkTerminalRef node_key (dr_scope d)).

Definition declare_fail (O : SchemaRef) (key code message : string) : Build (TerminalRef O) :=
  node_key ← insert_key key;
  _ ← put_node node_key (Node_Fail (mkFailError code message));
  d ← current; mret (mkTerminalRef node_key (dr_scope d)).

(** The loop over the branches: the names so far. *)
Definition check_branch (names : gset string) (branch : ParallelBranch) : Outcome (gset string) :=
  if negb (valid_ascii_name (branch_name branch)) || bool_decide (branch_name branch ∈ names)
  then fail! ("invalid or duplicate branch name " +:+ branch_name branch) else Ok ({[branch_name branch]} ∪ names).

Definition declare_parallel {Os} (key : string) (branches : ParallelBranches Os) : Build (NodeRef (SchemaRef_Tuple Os)) :=
  node_key ← insert_key key;
  let '(parts, signals) := into_parts branches in
  _ ← raise (outcome_fold check_branch ∅ parts);
  _ ← put_node node_key (Node_Parallel parts node_key);
  _ ← add_signals (foldl extend [] signals);
  new_node node_key.

Definition set_compensation (key : string) (compensation : Compensation) : Build unit :=
  d ← current;
  match bt_get key (dr_nodes d) with
  | Some (Node_Activity activity input timeout_ms retry _ next) =>
      put_node key (Node_Activity activity input timeout_ms retry (Some compensation) next)
  | _ => raise (fail! "compensation must attach to an activity node")
  end.

Definition attach_compensation {O U} (node : NodeRef O) (compensator : ActivityRef O U) : Build unit :=
  timeout_ms ← raise (duration_to_millis COMPENSATION_ATTEMPT_TIMEOUT);
  set_compensation (nr_key node) (Compensation_Activity (ar_key compensator) (from_ref Reference_ForwardOutput)
    (Some timeout_ms) (Some (retry_compensation_default (ar_retryable_codes compensator)))).

Definition attach_compensation_with_retry {O U} (node : NodeRef O) (compensator : ActivityRef O U) (retry : RetryPolicy) (timeout : Z) :
    Build unit :=
  _ ← raise (retry_validate retry);
  if existsb (λ code, negb (bool_decide (code ∈ ar_retryable_codes compensator))) (rp_errors retry)
  then raise (fail! "compensation retry lists terminal or unknown code")
  else if negb ((MIN_ATTEMPT_TIMEOUT <=? timeout) && (timeout <=? MAX_ATTEMPT_TIMEOUT))
  then raise (fail! "compensation timeout is out of range")
  else
    timeout_ms ← raise (duration_to_millis timeout);
    set_compensation (nr_key node) (Compensation_Activity (ar_key compensator) (from_ref Reference_ForwardOutput)
      (Some timeout_ms) (Some retry)).

Definition graph_finish {I} (O : SchemaRef) (g : RegionGraphBuilder I) : Outcome (TypedRegion I O) :=
  start ← ok_or (dr_start g) (error_invalid "region is missing start_at");
  Ok (mkTypedRegion (mkRegion region_path_root I O start (dr_nodes g)) (dr_signals g)).

(** ** [RegionBuilder]: appends to the tail *)
Definition tail_exit (d : Draft) (tail : string) : ExitPort := mkExitPort tail (dr_scope d) false.

Definition link_tail (entry : EntryPort) : Build unit :=
  d ← current;
  match dr_tail d with Some tail => connect (tail_exit d tail) entry | None => start_at entry end.

(** What every appending method does with the node it declares. *)
Definition append {O} (declare : Build (NodeRef O)) : Build (NodeRef O) :=
  node ← declare;
  _ ← link_tail (node_entry node);
  _ ← update (set_dr_tail (nr_key node));
  mret node.

Definition region_activity {F} `{!IntoInput F} {A B} key (activity : ActivityRef A B) (input : F A) : Build (NodeRef B) :=
  append (declare_activity key activity input).
Definition region_repeat {S} key count (state : ValueRef S) body max_iterations : Build (NodeRef S) :=
  append (declare_repeat key count state body max_iterations).
Definition region_while_loop {S} key (state : ValueRef S) condition body max_iterations : Build (NodeRef S) :=
  append (declare_while key state condition body max_iterations).
Definition region_do_while {S} key (state : ValueRef S) condition body max_iterations : Build (NodeRef S) :=
  append (declare_do_while key state condition body max_iterations).
Definition region_foreach {A B} key items (body : TypedRegion A B) max_items max_concurrency : Build (NodeRef (SchemaRef_Array B)) :=
  append (declare_foreach key items body max_items max_concurrency).
Definition region_choose {F} `{!IntoInput F} {A B} key (input : F A) cases (default_ : TypedRegion A B) : Build (NodeRef B) :=
  append (declare_choose key input cases default_).
Definition region_saga {A B} key (input : ValueRef A) (body : TypedRegion A B) : Build (NodeRef B) :=
  append (declare_saga key input body).
Definition region_delay key duration : Build (NodeRef unit_schema) := append (declare_delay key duration).
Definition region_wait_until key at_ms : Build (NodeRef unit_schema) := append (declare_wait_until key at_ms).
Definition region_wait_signal {T} key (signal : SignalRef T) correlation : Build (NodeRef T) :=
  append (declare_wait_signal key signal correlation).
Definition region_parallel {Os} key (branches : ParallelBranches Os) : Build (NodeRef (SchemaRef_Tuple Os)) :=
  append (declare_parallel key branches).
Definition region_compensate {O U} (node : NodeRef O) (compensator : ActivityRef O U) : Build unit :=
  attach_compensation node compensator.
Definition region_compensate_with_retry {O U} (node : NodeRef O) (compensator : ActivityRef O U) retry timeout : Build unit :=
  attach_compensation_with_retry node compensator retry timeout.

(** [complete] and [fail] consume the builder. *)
Definition end_with {I O} (declare : Build (TerminalRef O)) (b : RegionBuilder I) : Outcome (TypedRegion I O) :=
  let '(g, r) := (terminal ← declare; link_tail (terminal_entry terminal)) b in
  _ ← r; graph_finish O g.
Definition region_complete {I O} (b : RegionBuilder I) key (output : ValueRef O) : Outcome (TypedRegion I O) :=
  end_with (declare_complete key output) b.
Definition region_fail {I} (O : SchemaRef) (b : RegionBuilder I) key code message : Outcome (TypedRegion I O) :=
  end_with (declare_fail O key code message) b.

(** ** [WorkflowBuilder] *)
Section Build.
Context `{Platform} `{Serde}.

Definition workflow_definition {I O} (name : string) (version : Z) (root : TypedRegion I O) (digest : string) : Definition_ :=
  mkDefinition FORMAT_VERSION DSL name version I O (tr_signals root) None (tr_ir root) digest.

Definition workflow_build {I O} (catalog : Catalog) (name : string) (version : Z) (root : TypedRegion I O) : Outcome Definition_ :=
  _ ← require_schema catalog I;
  _ ← require_schema catalog O;
  let definition := workflow_definition name version root "" in
  _ ← validate_definition definition catalog;
  digest ← digest_of definition;
  Ok (workflow_definition name version root digest).
End Build.

(** ** The fluent builder ([flow.rs]) *)
Record Sequence (I Cur : SchemaRef) := mkSequence {
  sq_inner : RegionBuilder I;
  sq_last : ValueRef Cur;
  sq_last_activity : option (NodeRef Cur);
}.
Arguments mkSequence {_ _}. Arguments sq_inner {_ _}. Arguments sq_last {_ _}. Arguments sq_last_activity {_ _}.

Record Workflow (I Cur : SchemaRef) := mkWorkflow { wf_name : string; wf_seq : Sequence I Cur }.
Arguments mkWorkflow {_ _}. Arguments wf_name {_ _}. Arguments wf_seq {_ _}.

(** [region()] and [workflow(id)]; [next] is the scope counter of the builders. *)
Definition region_new (I : SchemaRef) (next : Z) : Sequence I I * Z :=
  let '(inner, next) := graph_builder_new I next in (mkSequence inner (graph_input inner) None, next).
Definition workflow_new (I : SchemaRef) (id : string) (next : Z) : Workflow I I * Z :=
  let '(inner, next) := graph_builder_new I next in (mkWorkflow id (mkSequence inner (graph_workflow_input inner) None), next).

(** A builder call whose error ends the chain of calls. *)
Definition built {A} (m : Build A) (g : Draft) : Outcome (A * Draft) := let '(g, r) := m g in a ← r; Ok (a, g).

(** A sequence whose last step is [node]. *)
Definition after_node {I Cur} (r : NodeRef Cur * Draft) : Sequence I Cur := mkSequence r.2 (node_output r.1) None.

(** ** [Sequence] *)
Section Sequence.
Context {I Cur : SchemaRef}.

Definition seq_activity {O} (s : Sequence I Cur) (key : string) (activity : ActivityRef Cur O) : Outcome (Sequence I O) :=
  '(node, inner) ← built (region_activity key activity (sq_last s)) (sq_inner s);
  Ok (mkSequence inner (node_output node) (Some node)).

Definition seq_compensate {U} (s : Sequence I Cur) (activity : ActivityRef Cur U) : Outcome (Sequence I Cur) :=
  node ← ok_or (sq_last_activity s) (error_invalid "compensate must follow an activity");
  '(_, inner) ← built (region_compensate node activity) (sq_inner s);
  Ok (mkSequence inner (sq_last s) (sq_last_activity s)).

Definition seq_compensate_with_retry {U} (s : Sequence I Cur) (activity : ActivityRef Cur U) (retry : RetryPolicy) (timeout : Z) :
    Outcome (Sequence I Cur) :=
  node ← ok_or (sq_last_activity s) (error_invalid "compensate must follow an activity");
  '(_, inner) ← built (region_compensate_with_retry node activity retry timeout) (sq_inner s);
  Ok (mkSequence inner (sq_last s) (sq_last_activity s)).

Definition seq_wait_signal {T} (s : Sequence I Cur) (key : string) (signal : SignalRef T) (correlation : string) : Outcome (Sequence I T) :=
  '(corr, inner) ← built (graph_literal SchemaRef_String (inr (JString correlation))) (sq_inner s);
  r ← built (region_wait_signal key signal corr) inner;
  Ok (after_node r).

Definition seq_while_lt (s : Sequence I Cur) (key path : string) (value : Z) (body : TypedRegion Cur Cur) (max_iterations : Z) :
    Outcome (Sequence I Cur) :=
  r ← built (region_while_loop key (sq_last s) (lt_loop path value) body max_iterations) (sq_inner s);
  Ok (after_node r).

Definition seq_repeat (s : Sequence I Cur) (key : string) (count : Z) (body : TypedRegion Cur Cur) (max_iterations : Z) :
    Outcome (Sequence I Cur) :=
  '(n, inner) ← built (graph_literal SchemaRef_Integer (inr (JInt count))) (sq_inner s);
  r ← built (region_repeat key n (sq_last s) body max_iterations) inner;
  Ok (after_node r).

Definition seq_saga {B} (s : Sequence I Cur) (key : string) (body : TypedRegion Cur B) : Outcome (Sequence I B) :=
  r ← built (region_saga key (sq_last s) body) (sq_inner s);
  Ok (after_node r).

Definition seq_fail (O : SchemaRef) (s : Sequence I Cur) (key code message : string) : Outcome (TypedRegion I O) :=
  region_fail O (sq_inner s) key code message.

Definition seq_complete (s : Sequence I Cur) (key : string) : Outcome (TypedRegion I Cur) :=
  region_complete (sq_inner s) key (sq_last s).

Definition seq_finish (s : Sequence I Cur) : Outcome (TypedRegion I Cur) := seq_complete s "done".
End Sequence.

Definition seq_foreach {I A B} (s : Sequence I (SchemaRef_Array A)) (key : string) (body : TypedRegion A B)
    (max_items max_concurrency : Z) : Outcome (Sequence I (SchemaRef_Array B)) :=
  r ← built (region_foreach key (sq_last s) body max_items max_concurrency) (sq_inner s);
  Ok (after_node r).

(** ** [Choose] *)
Record Choose (I A B : SchemaRef) := mkChoose {
  ch_name : option string;
  ch_seq : Sequence I A;
  ch_key : string;
  ch_cases : list (Case A B);
}.
Arguments mkChoose {_ _ _}. Arguments ch_name {_ _ _}. Arguments ch_seq {_ _ _}. Arguments ch_key {_ _ _}. Arguments ch_cases {_ _ _}.

(** A step that branches; the name is there when a workflow started it. *)
Record After (I Cur : SchemaRef) := mkAfter { af_name : option string; af_seq : Sequence I Cur }.
Arguments mkAfter {_ _}. Arguments af_name {_ _}. Arguments af_seq {_ _}.

(** The code has [Choose<I, Cur, Cur>] here and on each [when]: the cases of a
    fluent choose have the schema of its input as their output. *)
Definition seq_choose {I Cur} (s : Sequence I Cur) (key : string) : Choose I Cur Cur := mkChoose None s key [].
Definition choose_when {I A B} (c : Choose I A B) (case : string) (condition : Condition) (body : TypedRegion A B) : Choose I A B :=
  mkChoose (ch_name c) (ch_seq c) (ch_key c) (ch_cases c ++ [mkCase case condition body]).
Definition choose_when_eq {I A B} (c : Choose I A B) (case path : string) (value : Value) (body : TypedRegion A B) : Choose I A B :=
  choose_when c case (eq_input path value) body.
Definition choose_when_true {I A B} (c : Choose I A B) (case path : string) (body : TypedRegion A B) : Choose I A B :=
  choose_when c case (flag_true path) body.
Definition choose_otherwise {I A B} (c : Choose I A B) (default_ : TypedRegion A B) : Outcome (After I B) :=
  r ← built (region_choose (ch_key c) (sq_last (ch_seq c)) (ch_cases c) default_) (sq_inner (ch_seq c));
  Ok (mkAfter (ch_name c) (after_node r)).

(** ** [ParallelStart] *)
Record ParallelStart (I Cur : SchemaRef) := mkParallelStart { pl_name : option string; pl_seq : Sequence I Cur; pl_key : string }.
Arguments mkParallelStart {_ _}. Arguments pl_name {_ _}. Arguments pl_seq {_ _}. Arguments pl_key {_ _}.

(** A tuple of named regions; the trait is there for tuples of one to sixteen. *)
Inductive ParallelBodies (Cur : SchemaRef) : list SchemaRef → Set :=
| bodies_nil : ParallelBodies Cur []
| bodies_cons {O Os} (name : string) (body : TypedRegion Cur O) (rest : ParallelBodies Cur Os) : ParallelBodies Cur (O :: Os).
Arguments bodies_nil {_}. Arguments bodies_cons {_ _ _}.

Fixpoint bind_bodies {Cur Os} (bodies : ParallelBodies Cur Os) (input : Binding) : ParallelBranches Os :=
  match bodies with
  | bodies_nil => branches_nil
  | bodies_cons name body rest => branches_cons (mkBranch name input body) (bind_bodies rest input)
  end.

Definition seq_parallel {I Cur} (s : Sequence I Cur) (key : string) : ParallelStart I Cur := mkParallelStart None s key.
Definition parallel_branches {I Cur Os} (p : ParallelStart I Cur) (bodies : ParallelBodies Cur Os) : Outcome (After I (SchemaRef_Tuple Os)) :=
  let branches := bind_bodies bodies (vl_binding (sq_last (pl_seq p))) in
  r ← built (region_parallel (pl_key p) branches) (sq_inner (pl_seq p));
  Ok (mkAfter (pl_name p) (after_node r)).
(** [ParallelOne::branch]. *)
Definition parallel_two {I Cur A B} (p : ParallelStart I Cur) (left_name : string) (left : TypedRegion Cur A) (name : string)
    (body : TypedRegion Cur B) : Outcome (After I (SchemaRef_Tuple [A; B])) :=
  parallel_branches p (bodies_cons left_name left (bodies_cons name body bodies_nil)).

Definition after_finish_region {I Cur} (a : After I Cur) : Outcome (TypedRegion I Cur) := seq_finish (af_seq a).
Definition after_complete {I Cur} (a : After I Cur) (key : string) : Outcome (TypedRegion I Cur) := seq_complete (af_seq a) key.
Definition into_sequence {I Cur} (a : After I Cur) : Sequence I Cur := af_seq a.

(** ** [Workflow]: the methods of its sequence, with the name kept *)
Definition on_seq {I Cur Cur'} (f : Sequence I Cur → Outcome (Sequence I Cur')) (w : Workflow I Cur) : Outcome (Workflow I Cur') :=
  s ← f (wf_seq w); Ok (mkWorkflow (wf_name w) s).

Definition workflow_choose {I Cur} (w : Workflow I Cur) (key : string) : Choose I Cur Cur :=
  let c := seq_choose (wf_seq w) key in mkChoose (Some (wf_name w)) (ch_seq c) (ch_key c) (ch_cases c).
Definition workflow_parallel {I Cur} (w : Workflow I Cur) (key : string) : ParallelStart I Cur :=
  let p := seq_parallel (wf_seq w) key in mkParallelStart (Some (wf_name w)) (pl_seq p) (pl_key p).

Record TimedWaitFlow (I T : SchemaRef) := mkTimedWaitFlow {
  tf_name : string;
  tf_graph : RegionGraphBuilder I;
  tf_wait : TimedWaitRef T;
  tf_input : ValueRef I;
}.
Arguments mkTimedWaitFlow {_ _}. Arguments tf_name {_ _}. Arguments tf_graph {_ _}. Arguments tf_wait {_ _}. Arguments tf_input {_ _}.
Record TimedWaitDone (I : SchemaRef) := mkTimedWaitDone { td_name : string; td_graph : RegionGraphBuilder I }.
Arguments mkTimedWaitDone {_}. Arguments td_name {_}. Arguments td_graph {_}.

(** A new graph is begun: of the workflow, only the name is used. *)
Definition timed_wait {I T} (w : Workflow I I) (key : string) (signal : SignalRef T) (correlation : string) (timeout next : Z) :
    Outcome (TimedWaitFlow I T * Z) :=
  let '(graph, next) := graph_builder_new I next in
  let input := graph_workflow_input (I := I) graph in
  '(corr, graph) ← built (graph_literal SchemaRef_String (inr (JString correlation))) graph;
  '(wait, graph) ← built (declare_timed_wait key signal corr timeout) graph;
  Ok (mkTimedWaitFlow (wf_name w) graph wait input, next).

Definition on_timeout {I T R} (f : TimedWaitFlow I T) (key : string) (activity : ActivityRef I R) : Outcome (TimedWaitDone I) :=
  '(_, graph) ← built (
      recover ← declare_activity key activity (tf_input f);
      finish ← declare_complete "finish" (tf_input f);
      _ ← start_at (wait_entry (tf_wait f));
      _ ← connect (success_port (tf_wait f)) (terminal_entry finish);
      _ ← connect (timeout_port (tf_wait f)) (node_entry recover);
      connect (node_exit recover) (terminal_entry finish)) (tf_graph f);
  Ok (mkTimedWaitDone (tf_name f) graph).

Section Finish.
Context `{Platform} `{Serde}.

Definition workflow_finish {I Cur} (catalog : Catalog) (w : Workflow I Cur) : Outcome Definition_ :=
  region ← seq_complete (wf_seq w) "finish";
  workflow_build catalog (wf_name w) 1 region.

(** [AfterChoose::finish] and [AfterParallel::finish], which differ in their message. *)
Definition after_finish {I Cur} (message : string) (catalog : Catalog) (a : After I Cur) : Outcome Definition_ :=
  name ← ok_or (af_name a) (error_invalid message);
  region ← seq_complete (af_seq a) "finish";
  workflow_build catalog name 1 region.

Definition timed_wait_finish {I} (catalog : Catalog) (d : TimedWaitDone I) : Outcome Definition_ :=
  region ← graph_finish I (td_graph d);
  workflow_build catalog (td_name d) 1 region.
End Finish.
