(* ===== verification/YamlFacts.v ===== *)
(** * Reading YAML

    The parsers never panic, a document that was read has distinct sorted keys,
    and what the events of a document spell is read back. *)
From stdpp Require Import base option gmap strings list.
From Stdlib Require Import ZArith Ascii Lia.
From S2P Require Import Prelude Value Ids Policy Catalog Ir Yaml.

(** ** Documents *)
Section SpannedInd.
Variable P : Spanned → Prop.
Hypothesis P_spanned : ∀ span doc,
  match doc with
  | Doc_Array items => Forall P items
  | Doc_Map map => Forall P (snd <$> map)
  | _ => True
  end → P (mkSpanned span doc).

Fixpoint spanned_ind' (s : Spanned) : P s.
Proof.
  destruct s as [span doc]. apply P_spanned. destruct doc as [| | | |items|map]; [exact I..| |].
  - induction items as [|x items IH]; constructor; [apply spanned_ind'|exact IH].
  - induction map as [|[k x] map IH]; constructor; [apply spanned_ind'|exact IH].
Defined.
End SpannedInd.

(** The children of a document. *)
Definition spanned_children (s : Spanned) : list Spanned :=
  match spanned_doc s with Doc_Array items => items | Doc_Map map => map.*2 | _ => [] end.

(** Induction with the children of the children at hand. *)
Lemma spanned_ind_deep (P : Spanned → Prop) :
  (∀ s, (∀ c, c ∈ spanned_children s → P c ∧ ∀ g, g ∈ spanned_children c → P g) → P s) → ∀ s, P s.
Proof.
  intros HP s. enough (P s ∧ ∀ c, c ∈ spanned_children s → P c) as [? _] by done.
  induction s as [span doc IH] using spanned_ind'.
  assert (∀ c, c ∈ spanned_children (mkSpanned span doc) → P c ∧ ∀ g, g ∈ spanned_children c → P g) as Hc.
  { intros c Hc. destruct doc as [| | | |items|map]; unfold spanned_children in Hc; simpl in Hc; try by apply elem_of_nil in Hc.
    all: rewrite Forall_forall in IH; by apply IH. }
  split; [by apply HP|]. intros c Hin. by apply Hc.
Qed.

Lemma with_field_eq {A} key span (k : Spanned → Outcome A) map :
  with_field key span k map = (node ← required map key span; k node).
Proof.
  unfold required. induction map as [|[key' node] map IH]; simpl; [done|].
  destruct (decide (key = key')); [done|]. exact IH.
Qed.

Lemma required_elem map key span node : required map key span = Ok node → (key, node) ∈ map.
Proof. unfold required, missing_field, invalid_at. destruct (bt_get key map) eqn:Hg; [|done]. intros [= <-]. by apply bt_get_elem. Qed.

(** ** Freedom of panics *)
Lemma invalid_at_no_panic {A} message span : is_panic (@invalid_at A message span) = false.
Proof. done. Qed.
#[export] Hint Resolve invalid_at_no_panic : nopanic.

Lemma required_no_panic map key span : is_panic (required map key span) = false.
Proof. unfold required, missing_field. no_panic. Qed.
Lemma reject_unknown_no_panic map allowed span : is_panic (reject_unknown map allowed span) = false.
Proof. unfold reject_unknown. no_panic. Qed.
Lemma as_map_no_panic s : is_panic (as_map s) = false.
Proof. unfold as_map. no_panic. Qed.
Lemma doc_as_str_no_panic s : is_panic (doc_as_str s) = false.
Proof. unfold doc_as_str. no_panic. Qed.
Lemma as_u32_no_panic s : is_panic (as_u32 s) = false.
Proof. unfold as_u32. no_panic. Qed.
Lemma doc_as_i64_no_panic s : is_panic (doc_as_i64 s) = false.
Proof. unfold doc_as_i64. no_panic. Qed.
Lemma node_key_parse_no_panic s : is_panic (node_key_parse s) = false.
Proof. unfold node_key_parse. no_panic. Qed.
#[export] Hint Resolve required_no_panic reject_unknown_no_panic as_map_no_panic doc_as_str_no_panic
  as_u32_no_panic doc_as_i64_no_panic node_key_parse_no_panic : nopanic.

Lemma reference_parse_no_panic s : is_panic (reference_parse s) = false.
Proof. unfold reference_parse. no_panic. Qed.
Lemma schema_key_parse_no_panic s : is_panic (schema_key_parse s) = false.
Proof. unfold schema_key_parse, schema_key_new. no_panic. Qed.
#[export] Hint Resolve reference_parse_no_panic schema_key_parse_no_panic : nopanic.

Lemma elem_children_map span map key node : (key, node) ∈ map → node ∈ spanned_children (mkSpanned span (Doc_Map map)).
Proof. intros Hin. by apply (list_elem_of_fmap_2 snd) in Hin. Qed.

Lemma to_value_no_panic s : is_panic (to_value s) = false.
Proof.
  induction s as [[span doc] IH] using spanned_ind_deep. destruct doc as [| | | |items|map]; simpl; no_panic.
  - by apply IH.
  - apply IH. by eapply elem_children_map.
Qed.
#[export] Hint Resolve to_value_no_panic : nopanic.

(** A field of a map, and what is inside it, by induction. *)
Lemma required_child span map key field node : required map key field = Ok node → node ∈ spanned_children (mkSpanned span (Doc_Map map)).
Proof. intros Hn. by eapply elem_children_map, required_elem. Qed.

Lemma parse_schema_ref_no_panic s : is_panic (parse_schema_ref s) = false.
Proof.
  induction s as [[span doc] IH] using spanned_ind_deep. destruct doc as [| | | |items|map]; simpl; no_panic;
    rewrite with_field_eq; (apply np_bind; [apply required_no_panic|]); intros node Hnode%(required_child span);
    apply IH in Hnode as [Hnode Hg]; no_panic; first [by apply Hg|unfold schema_ref_tuple; no_panic].
Qed.

Lemma parse_binding_no_panic s : is_panic (parse_binding s) = false.
Proof.
  induction s as [[span doc] IH] using spanned_ind_deep. destruct doc as [| | | |items|map]; simpl; no_panic;
    rewrite with_field_eq; (apply np_bind; [apply required_no_panic|]); intros node Hnode%(required_child span);
    apply IH in Hnode as [Hnode Hg]; no_panic; apply Hg; first [done|by eapply elem_children_map].
Qed.
#[export] Hint Resolve parse_schema_ref_no_panic parse_binding_no_panic : nopanic.

Lemma parse_condition_no_panic s : is_panic (parse_condition s) = false.
Proof.
  induction s as [[span doc] IH] using spanned_ind_deep.
  destruct doc as [| | | |items|[|[op value] [|]]]; try done.
  assert (value ∈ spanned_children (mkSpanned span (Doc_Map [(op, value)]))) as Hv by (simpl; by left).
  apply IH in Hv as [Hv Hg]. simpl in *. destruct value as [value_span value_doc]. no_panic; by apply Hg.
Qed.
Lemma parse_node_key_no_panic s : is_panic (parse_node_key s) = false.
Proof. unfold parse_node_key. no_panic. Qed.
#[export] Hint Resolve parse_condition_no_panic parse_node_key_no_panic : nopanic.

(** ** The grammar of documents

    The events that spell a document: no anchor, no tag, no alias, and the keys
    of a mapping are distinct strings in any order. *)
Notation token := (YamlEvent * (Z * Z))%type.

Inductive spells : Spanned → list token → Prop :=
| spells_scalar text style mark :
    spells (mkSpanned (marker_span mark) (parse_scalar text style)) [(Event_Scalar text style 0 None, mark)]
| spells_sequence mark items tokens end_mark :
    spells_items items tokens →
    spells (mkSpanned (marker_span mark) (Doc_Array items))
      ((Event_SequenceStart 0 None, mark) :: tokens ++ [(Event_SequenceEnd, end_mark)])
| spells_mapping mark entries tokens end_mark :
    spells_entries entries tokens → NoDup entries.*1 →
    spells (mkSpanned (marker_span mark) (Doc_Map (bt_collect entries)))
      ((Event_MappingStart 0 None, mark) :: tokens ++ [(Event_MappingEnd, end_mark)])
with spells_items : list Spanned → list token → Prop :=
| spells_no_items : spells_items [] []
| spells_item item items tokens1 tokens2 :
    spells item tokens1 → spells_items items tokens2 → spells_items (item :: items) (tokens1 ++ tokens2)
with spells_entries : list (string * Spanned) → list token → Prop :=
| spells_no_entries : spells_entries [] []
| spells_entry key k value entries tokens1 tokens2 tokens3 :
    spells key tokens1 → spanned_doc key = Doc_String k → spells value tokens2 → spells_entries entries tokens3 →
    spells_entries ((k, value) :: entries) (tokens1 ++ tokens2 ++ tokens3).

Scheme spells_mind := Induction for spells Sort Prop
  with spells_items_mind := Induction for spells_items Sort Prop
  with spells_entries_mind := Induction for spells_entries Sort Prop.
Combined Scheme spells_mutind from spells_mind, spells_items_mind, spells_entries_mind.

Definition starts_node (e : YamlEvent) : Prop :=
  match e with
  | Event_Scalar _ _ 0 None | Event_SequenceStart 0 None | Event_MappingStart 0 None => True
  | _ => False
  end.

Lemma spells_head s tokens : spells s tokens → ∃ e mark rest, tokens = (e, mark) :: rest ∧ starts_node e.
Proof. destruct 1; eexists _, _, _; (split; [reflexivity|done]). Qed.

Lemma spells_nonempty s tokens : spells s tokens → (0 < length tokens)%nat.
Proof. intros (e & mark & rest & -> & _)%spells_head. simpl. lia. Qed.

Section Grammar.
Context `{YamlParser} (text : string).

Lemma next_token_ok tokens token rest : next_token text tokens = Ok (token, rest) ↔ tokens = token :: rest.
Proof. destruct tokens; simpl; naive_solver. Qed.

(** One turn of each loop. *)
Lemma parse_items_end (parse : Run (list token) Spanned) fuel items mark rest :
  parse_items text parse (S fuel) items ((Event_SequenceEnd, mark) :: rest) = Ok (items, rest).
Proof. done. Qed.

Lemma parse_items_next (parse : Run (list token) Spanned) fuel items e mark rest :
  starts_node e →
  parse_items text parse (S fuel) items ((e, mark) :: rest) =
    (item ← parse; parse_items text parse fuel (items ++ [item])) ((e, mark) :: rest).
Proof. by destruct e. Qed.

Lemma parse_fields_next (parse : Run (list token) Spanned) fuel map e mark rest :
  starts_node e →
  parse_fields text parse (S fuel) map ((e, mark) :: rest) =
    (key ← parse; key_text ← lift (doc_as_str key);
     if bt_contains key_text map then lift (invalid_at ("duplicate key " +:+ key_text) (spanned_span key))
     else value ← parse; parse_fields text parse fuel (str_insert key_text value map)) ((e, mark) :: rest).
Proof. by destruct e. Qed.

Lemma bt_contains_collect {V} (entries : list (string * V)) k acc :
  bt_contains k (foldl (λ m '(k, v), str_insert k v m) acc entries) = bool_decide (k ∈ entries.*1) || bt_contains k acc.
Proof.
  revert acc. induction entries as [|[k' v] entries IH]; intros acc; simpl; [done|]. rewrite IH.
  unfold bt_contains. rewrite bt_get_insert. apply eq_true_iff_eq. rewrite !orb_true_iff, !bool_decide_eq_true. simpl.
  rewrite elem_of_cons. destruct (decide (k' = k)) as [->|Hk]; [|naive_solver].
  split; intros _; [by left; left|by right].
Qed.

(** Every spelling is read back, given fuel for its events. *)
Lemma spells_complete :
  (∀ s tokens, spells s tokens → ∀ fuel rest, (length tokens < fuel)%nat →
    parse_node text fuel (tokens ++ rest) = Ok (s, rest)) ∧
  (∀ items tokens, spells_items items tokens → ∀ fuel n acc mark rest, (length tokens < fuel)%nat → (length tokens < n)%nat →
    parse_items text (parse_node text fuel) n acc (tokens ++ (Event_SequenceEnd, mark) :: rest) = Ok (acc ++ items, rest)) ∧
  (∀ entries tokens, spells_entries entries tokens → ∀ fuel n before mark rest,
    (length tokens < fuel)%nat → (length tokens < n)%nat → NoDup (before ++ entries).*1 →
    parse_fields text (parse_node text fuel) n (bt_collect before) (tokens ++ (Event_MappingEnd, mark) :: rest)
      = Ok (bt_collect (before ++ entries), rest)).
Proof.
  apply spells_mutind.
  - intros txt style mark [|fuel] rest Hf; [simpl in Hf; lia|done].
  - intros mark items tokens end_mark _ IH [|fuel] rest Hf; [simpl in Hf; lia|].
    simpl in *. rewrite length_app in Hf. simpl in Hf. unfold mbind, Run_bind. simpl.
    rewrite <-app_assoc. simpl. by rewrite (IH fuel fuel [] end_mark rest) by lia.
  - intros mark entries tokens end_mark _ IH Hnd [|fuel] rest Hf; [simpl in Hf; lia|].
    simpl in *. rewrite length_app in Hf. simpl in Hf. unfold mbind, Run_bind. simpl.
    rewrite <-app_assoc. simpl. specialize (IH fuel fuel [] end_mark rest). cbn [bt_collect foldl app] in IH.
    by rewrite IH by (done || lia).
  - intros fuel [|n] acc mark rest _ Hn; [simpl in Hn; lia|]. by rewrite app_nil_r.
  - intros item items tokens1 tokens2 Hs IH1 _ IH2 fuel [|n] acc mark rest Hf Hn; [simpl in Hn; lia|].
    rewrite length_app in *. pose proof (spells_nonempty _ _ Hs).
    destruct (spells_head _ _ Hs) as (e & m & tl & -> & He). rewrite <-app_assoc. rewrite <-app_comm_cons in *.
    rewrite parse_items_next by done. unfold mbind, Run_bind. rewrite app_comm_cons.
    rewrite IH1 by lia. rewrite IH2 by lia. by rewrite <-app_assoc.
  - intros fuel [|n] before mark rest _ Hn _; [simpl in Hn; lia|]. by rewrite app_nil_r.
  - intros key k value entries tokens1 tokens2 tokens3 Hs IH1 Hk Hv IH2 _ IH3 fuel [|n] before mark rest Hf Hn Hnd; [simpl in Hn; lia|].
    rewrite !length_app in *. pose proof (spells_nonempty _ _ Hs).
    destruct (spells_head _ _ Hs) as (e & m & tl & -> & He). rewrite <-!app_assoc. rewrite <-app_comm_cons in *.
    rewrite parse_fields_next by done. unfold mbind, Run_bind. rewrite app_comm_cons.
    rewrite IH1 by lia. unfold lift, doc_as_str. rewrite Hk. unfold bt_collect at 1. rewrite bt_contains_collect.
    rewrite fmap_app in Hnd. apply NoDup_app in Hnd as (Hb & Hdis & He').
    rewrite bool_decide_eq_false_2 by (intros Hin; apply (Hdis _ Hin); by left). simpl.
    rewrite IH2 by lia.
    assert (str_insert k value (bt_collect before) = bt_collect (before ++ [(k, value)])) as ->.
    { unfold bt_collect. by rewrite foldl_app. }
    rewrite IH3; [by rewrite <-app_assoc|lia..|].
    rewrite <-app_assoc, fmap_app. by apply NoDup_app.
Qed.

(** What is read was spelled by the events it took. *)
Section Loops.
Variable parse : Run (list token) Spanned.
Hypothesis parse_sound : ∀ tokens s rest, parse tokens = Ok (s, rest) → ∃ ts, tokens = ts ++ rest ∧ spells s ts.

Lemma parse_items_sound n acc tokens items rest :
  parse_items text parse n acc tokens = Ok (items, rest) →
  ∃ l ts mark, items = acc ++ l ∧ tokens = ts ++ (Event_SequenceEnd, mark) :: rest ∧ spells_items l ts.
Proof.
  revert acc tokens. induction n as [|n IH]; intros acc tokens Hp; [done|]. cbn [parse_items] in Hp.
  apply run_bind_ok in Hp as ([e mark] & tokens' & Hpeek & Hp).
  destruct tokens as [|token tokens]; [done|]. injection Hpeek as -> <-. simpl in Hp.
  assert ((e = Event_SequenceEnd ∧ Ok (acc, tokens) = Ok (items, rest)) ∨
    (item ← parse; parse_items text parse n (acc ++ [item])) ((e, mark) :: tokens) = Ok (items, rest)) as [[-> [= <- <-]]|Hnext].
  { destruct e; try (by right); by left. }
  - exists [], [], mark. rewrite app_nil_r. repeat split; constructor.
  - apply run_bind_ok in Hnext as (item & tokens' & (ts1 & Hts & Hs)%parse_sound & Hr).
    apply IH in Hr as (l & ts2 & mark' & -> & -> & Hl). exists (item :: l), (ts1 ++ ts2), mark'.
    rewrite Hts, <-!app_assoc. repeat split. by constructor.
Qed.

Lemma parse_fields_sound n before tokens map rest :
  NoDup before.*1 → parse_fields text parse n (bt_collect before) tokens = Ok (map, rest) →
  ∃ entries ts mark, map = bt_collect (before ++ entries) ∧ NoDup (before ++ entries).*1 ∧
    tokens = ts ++ (Event_MappingEnd, mark) :: rest ∧ spells_entries entries ts.
Proof.
  revert before tokens. induction n as [|n IH]; intros before tokens Hnd Hp; [done|]. cbn [parse_fields] in Hp.
  apply run_bind_ok in Hp as ([e mark] & tokens' & Hpeek & Hp).
  destruct tokens as [|token tokens]; [done|]. injection Hpeek as -> <-. simpl in Hp.
  assert ((e = Event_MappingEnd ∧ Ok (bt_collect before, tokens) = Ok (map, rest)) ∨
    (key ← parse; key_text ← lift (doc_as_str key);
     if bt_contains key_text (bt_collect before) then lift (invalid_at ("duplicate key " +:+ key_text) (spanned_span key))
     else value ← parse; parse_fields text parse n (str_insert key_text value (bt_collect before)))
      ((e, mark) :: tokens) = Ok (map, rest)) as [[-> [= <- <-]]|Hnext].
  { destruct e; try (by right); by left. }
  - exists [], [], mark. rewrite app_nil_r. by repeat split; try constructor.
  - apply run_bind_ok in Hnext as (key & tokens1 & (ts1 & Hts & Hk)%parse_sound & Hp').
    apply run_bind_ok in Hp' as (k & ? & [Hstr ->]%lift_ok & Hp'). unfold doc_as_str in Hstr.
    destruct (spanned_doc key) eqn:Hdoc; try done. injection Hstr as <-.
    destruct (bt_contains _ _) eqn:Hc in Hp'; [done|]. unfold bt_collect in Hc. rewrite bt_contains_collect in Hc.
    apply orb_false_iff in Hc as [Hc%bool_decide_eq_false _].
    apply run_bind_ok in Hp' as (value & tokens2 & (ts2 & -> & Hv)%parse_sound & Hr).
    assert (str_insert text0 value (bt_collect before) = bt_collect (before ++ [(text0, value)])) as Hins.
    { unfold bt_collect. by rewrite foldl_app. }
    rewrite Hins in Hr. apply IH in Hr as (entries & ts3 & mark' & -> & Hnd' & -> & He).
    + rewrite <-app_assoc in Hnd' |- *. exists ((text0, value) :: entries), (ts1 ++ ts2 ++ ts3), mark'.
      rewrite Hts, <-!app_assoc. repeat split; [done|]. by econstructor.
    + rewrite fmap_app. apply NoDup_app. split; [done|]. split; [|apply NoDup_singleton].
      intros x Hx ->%list_elem_of_singleton. by apply Hc.
Qed.
End Loops.

Lemma reject_anchor_tag_ok anchor tag span : reject_anchor_tag anchor tag span = Ok tt → anchor = 0 ∧ tag = None.
Proof. unfold reject_anchor_tag, invalid_at. destruct (anchor =? 0) eqn:Ha; [|done]. destruct tag as [[]|]; [done|]. by to_prop. Qed.

Lemma parse_node_sound fuel tokens s rest :
  parse_node text fuel tokens = Ok (s, rest) → ∃ ts, tokens = ts ++ rest ∧ spells s ts.
Proof.
  revert tokens s rest. induction fuel as [|fuel IH]; intros tokens s rest Hp; [done|]. cbn [parse_node] in Hp.
  apply run_bind_ok in Hp as ([e mark] & tokens' & Ht & Hp).
  destruct tokens as [|token tokens]; [done|]. injection Ht as -> <-.
  destruct e; try done; apply run_bind_ok in Hp as ([] & ? & [[-> ->]%reject_anchor_tag_ok ->]%lift_ok & Hp).
  - apply run_ret_ok in Hp as [-> ->]. eexists [_]. split; [done|constructor].
  - apply run_bind_ok in Hp as (items & tokens' & Hi & [-> ->]%run_ret_ok).
    apply parse_items_sound in Hi as (l & ts & mark' & -> & -> & Hl); [|done].
    eexists (_ :: ts ++ [_]). split; [by rewrite <-app_comm_cons, <-app_assoc|by constructor].
  - apply run_bind_ok in Hp as (map & tokens' & Hi & [-> ->]%run_ret_ok).
    apply (parse_fields_sound _ IH _ []) in Hi as (entries & ts & mark' & -> & Hnd & -> & Hl); [|apply NoDup_nil_2].
    eexists (_ :: ts ++ [_]). split; [by rewrite <-app_comm_cons, <-app_assoc|by constructor].
Qed.

(** Every node takes an event, so the fuel is enough. *)
Section Enough.
Variable parse : Run (list token) Spanned.
Variable limit : nat.
Hypothesis parse_no_panic : ∀ tokens, (length tokens < limit)%nat → is_panic (parse tokens) = false.
Hypothesis parse_takes : ∀ tokens s rest, parse tokens = Ok (s, rest) → (length rest < length tokens)%nat.

Lemma parse_items_no_panic n acc tokens :
  (length tokens < n)%nat → (length tokens < limit)%nat → is_panic (parse_items text parse n acc tokens) = false.
Proof.
  revert acc tokens. induction n as [|n IH]; intros acc tokens Hn Hl; [lia|]. cbn [parse_items].
  assert (is_panic ((item ← parse; parse_items text parse n (acc ++ [item])) tokens) = false) as Hnext.
  { apply np_run_bind; [by apply parse_no_panic|]. intros item rest Ht%parse_takes. apply IH; lia. }
  destruct tokens as [|[e mark] tokens]; [done|]. by destruct e.
Qed.

Lemma parse_fields_no_panic n map tokens :
  (length tokens < n)%nat → (length tokens < limit)%nat → is_panic (parse_fields text parse n map tokens) = false.
Proof.
  revert map tokens. induction n as [|n IH]; intros map tokens Hn Hl; [lia|]. cbn [parse_fields].
  assert (is_panic ((key ← parse; key_text ← lift (doc_as_str key);
     if bt_contains key_text map then lift (invalid_at ("duplicate key " +:+ key_text) (spanned_span key))
     else value ← parse; parse_fields text parse n (str_insert key_text value map)) tokens) = false) as Hnext.
  { apply np_run_bind; [by apply parse_no_panic|]. intros key rest Hk%parse_takes. no_panic.
    - match goal with H : lift _ _ = Ok _ |- _ => apply lift_ok in H as [_ ->] end. apply parse_no_panic. lia.
    - match goal with H : lift _ _ = Ok _ |- _ => apply lift_ok in H as [_ ->] end.
      match goal with H : parse _ = Ok _ |- _ => apply parse_takes in H end. apply IH; lia. }
  destruct tokens as [|[e mark] tokens]; [done|]. by destruct e.
Qed.
End Enough.

Lemma parse_node_takes fuel tokens s rest :
  parse_node text fuel tokens = Ok (s, rest) → (length rest < length tokens)%nat.
Proof. intros (ts & -> & Hs%spells_nonempty)%parse_node_sound. rewrite length_app. lia. Qed.

Lemma reject_anchor_tag_no_panic anchor tag span : is_panic (reject_anchor_tag anchor tag span) = false.
Proof. unfold reject_anchor_tag. no_panic. Qed.

Lemma parse_node_no_panic fuel tokens : (length tokens < fuel)%nat → is_panic (parse_node text fuel tokens) = false.
Proof.
  revert tokens. induction fuel as [|fuel IH]; intros tokens Hf; [lia|]. cbn [parse_node].
  destruct tokens as [|[e mark] tokens]; [done|]. unfold mbind at 1, Run_bind at 1. cbn [next_token].
  simpl in Hf. destruct e; try done.
  all: apply np_run_bind; [apply np_lift, reject_anchor_tag_no_panic|intros _ ? [_ ->]%lift_ok]; try done.
  all: apply np_run_bind; [|done].
  - by eapply parse_items_no_panic; [exact IH|apply parse_node_takes|lia..].
  - by eapply parse_fields_no_panic; [exact IH|apply parse_node_takes|lia..].
Qed.

Lemma expect_event_ok pred tokens e rest :
  expect_event text pred tokens = Ok (e, rest) ↔ ∃ mark, tokens = (e, mark) :: rest ∧ pred e = true.
Proof.
  unfold expect_event, unexpected, invalid_at. destruct tokens as [|[e' mark] tokens]; [by split; [|intros (? & ? & _)]|].
  unfold mbind, Run_bind. simpl. destruct (pred e') eqn:Hp; split; try done.
  - intros [= <- <-]. by exists mark.
  - by intros (mark' & [= -> -> ->] & _).
  - intros (mark' & [= -> -> ->] & Hp'). congruence.
Qed.

Lemma parse_yaml_no_panic : is_panic (parse_yaml text) = false.
Proof.
  unfold parse_yaml. destruct (_ <? _); [done|]. apply np_fmap. unfold parse_document.
  assert (∀ pred tokens, is_panic (expect_event text pred tokens) = false) as Hexpect.
  { intros pred [|[e mark] tokens]; [done|]. unfold expect_event, mbind, Run_bind. simpl. by destruct (pred e). }
  apply np_run_bind; [apply Hexpect|]. intros e1 t1 (m1 & Ht1 & _)%expect_event_ok.
  apply np_run_bind; [apply Hexpect|]. intros e2 t2 (m2 & Ht2 & _)%expect_event_ok.
  apply np_run_bind; [apply parse_node_no_panic; rewrite Ht1, Ht2; simpl; lia|]. intros s t3 _.
  apply np_run_bind; [apply Hexpect|]. intros _ t4 _.
  apply np_run_bind; [by destruct t4|]. intros [e m] t5 _. by destruct e.
Qed.

(** C33: reading YAML is exact. A text is read as a document exactly when it is
    within the limit and its events are those of one stream with one document
    that spell it, without anchors, tags and aliases and with distinct string
    keys in every mapping. *)
Theorem yaml_reading_is_exact s :
  parse_yaml text = Ok s ↔
  Z.of_nat (String.length text) ≤ MAX_YAML_BYTES ∧ ∃ m1 m2 m3 m4 tokens rest,
    yaml_events text = (Event_StreamStart, m1) :: (Event_DocumentStart, m2) ::
      tokens ++ (Event_DocumentEnd, m3) :: (Event_StreamEnd, m4) :: rest ∧ spells s tokens.
Proof.
  unfold parse_yaml. destruct (_ <? _) eqn:Hlen; to_prop; [split; [done|intros [? _]; lia]|].
  transitivity (∃ rest, parse_document text (yaml_events text) = Ok (s, rest)).
  { destruct (parse_document text (yaml_events text)) as [[s' rest]| |]; simpl; naive_solver. }
  unfold parse_document. split.
  - intros (rest & Hp). split; [done|].
    apply run_bind_ok in Hp as (e1 & t1 & (m1 & Ht1 & H1)%expect_event_ok & Hp).
    apply run_bind_ok in Hp as (e2 & t2 & (m2 & Ht2 & H2)%expect_event_ok & Hp).
    apply run_bind_ok in Hp as (doc & t3 & (ts & Ht3 & Hs)%parse_node_sound & Hp).
    apply run_bind_ok in Hp as (e3 & t4 & (m3 & Ht4 & H3)%expect_event_ok & Hp).
    apply run_bind_ok in Hp as ([e4 m4] & t5 & Ht5%next_token_ok & Hp). subst.
    destruct e1, e2, e3, e4; try done. injection Hp as <- <-. exists m1, m2, m3, m4, ts, t5. by rewrite Ht1.
  - intros (_ & m1 & m2 & m3 & m4 & ts & rest & -> & Hs). exists rest.
    apply run_bind_ok. eexists _, _. split; [apply expect_event_ok; by exists m1|].
    apply run_bind_ok. eexists _, _. split; [apply expect_event_ok; by exists m2|].
    apply run_bind_ok. exists s, ((Event_DocumentEnd, m3) :: (Event_StreamEnd, m4) :: rest).
    split; [apply spells_complete; [done|simpl; rewrite length_app; lia]|].
    apply run_bind_ok. eexists _, _. split; [apply expect_event_ok; by exists m3|done].
Qed.
End Grammar.
