(* ===== verification/AnalysisFacts.v ===== *)
(** * What the check of a definition establishes *)
From stdpp Require Import base option gmap strings list fin_maps fin_sets.
From Stdlib Require Import ZArith Ascii Lia.
From S2P Require Import Prelude Value Ids Policy Catalog Ir Analysis.

(** ** Folds that may fail *)
Lemma outcome_map_then {A B} (f : A → Outcome unit) l (k : Outcome B) b :
  (_ ← outcome_map f l; k) = Ok b ↔ Forall (λ x, f x = Ok tt) l ∧ k = Ok b.
Proof.
  induction l as [|x l IH]; simpl; [by split; [split; [constructor|]|intros [_ ?]]|].
  rewrite Forall_cons. destruct (f x) as [[]| |]; simpl; [|naive_solver..].
  transitivity ((_ ← outcome_map f l; k) = Ok b); [by destruct (outcome_map f l)|]. rewrite IH. naive_solver.
Qed.

Lemma outcome_map_unit {A} (f : A → Outcome unit) l :
  (_ ← outcome_map f l; Ok tt) = Ok tt ↔ Forall (λ x, f x = Ok tt) l.
Proof. rewrite outcome_map_then. naive_solver. Qed.

(** ** The edges of a region *)
Definition edges_of (node : Node) : list (Edge * string) :=
  (λ s, (edge_kind s.1, s.2)) <$> node_successors node.

Definition edge (outgoing : outgoing_map) (a b : string) : Prop :=
  ∃ e, (e, b) ∈ default [] (outgoing !! a).

Definition out_edges (nodes : list (string * Node)) (key : string) : list (Edge * string) :=
  concat ((λ e : string * Node, if decide (e.1 = key) then edges_of e.2 else []) <$> nodes).

Lemma add_edges nodes key succs outgoing outgoing' :
  outcome_fold (add_edge nodes key) outgoing succs = Ok outgoing' →
  Forall (λ s, bt_contains s.2 nodes = true) succs ∧
  ∀ k, default [] (outgoing' !! k) =
    default [] (outgoing !! k) ++ (if decide (key = k) then (λ s, (edge_kind s.1, s.2)) <$> succs else []).
Proof.
  revert outgoing. induction succs as [|[name target] succs IH]; simpl; intros outgoing Hf.
  { simplify_eq. split; [constructor|]. intros k. case_decide; by rewrite app_nil_r. }
  destruct (bt_contains target nodes) eqn:Ht; simpl in Hf; [|done].
  apply IH in Hf as [Hall Hk]. split; [by constructor|]. intros k. rewrite Hk, lookup_insert.
  case_decide; [subst|by rewrite app_nil_r]. simpl. by rewrite <-app_assoc.
Qed.

Lemma scan_nodes nodes entries outgoing outgoing' :
  outcome_fold (scan_node nodes) outgoing entries = Ok outgoing' →
  Forall (λ e, Forall (λ s, bt_contains s.2 nodes = true) (node_successors e.2) ∧
               check_node_limits e.2 = Ok tt) entries ∧
  ∀ k, default [] (outgoing' !! k) = default [] (outgoing !! k) ++ out_edges entries k.
Proof.
  revert outgoing. induction entries as [|[key node] entries IH]; simpl; intros outgoing Hf.
  { simplify_eq. split; [constructor|]. intros k. by rewrite app_nil_r. }
  apply outcome_bind_ok in Hf as (o1 & Ho1 & Hf). apply outcome_bind_ok in Ho1 as (o2 & [Hs Ho2]%add_edges & Ho1).
  apply outcome_bind_ok in Ho1 as ([] & Hlim & [= <-]). apply IH in Hf as [Hall Hk].
  split; [by constructor|]. intros k. by rewrite Hk, Ho2, <-app_assoc.
Qed.

(** ** The search for cycles

    [acyclic_from] says that every path from a node ends. *)
Definition acyclic_from (outgoing : outgoing_map) : string → Prop := Acc (λ b a, edge outgoing a b).

(** Every finished node is one that no cycle is reachable from. *)
Definition finished (outgoing : outgoing_map) (state : gset string * gset string) : Prop :=
  ∀ v, v ∈ state.2 → v ∉ state.1 → acyclic_from outgoing v.

Lemma visit_sound fuel outgoing key state state' :
  finished outgoing state → visit fuel outgoing key state = Ok state' →
  state'.1 = state.1 ∧ finished outgoing state' ∧ acyclic_from outgoing key.
Proof.
  revert key state state'. induction fuel as [|fuel IH]; intros key [st seen] state' Hfin Hv; [done|]. simpl in Hv.
  case_bool_decide as Hst; [done|]. apply outcome_bind_ok in Hv as ([st2 seen2] & Hv & [= <-]). simpl.
  assert (Hrest : st2 = {[key]} ∪ st ∧ finished outgoing (st2, seen2) ∧ acyclic_from outgoing key).
  { case_bool_decide as Hseen.
    - injection Hv as <- <-. split_and!; [done| |by apply Hfin].
      intros v Hv Hn. apply Hfin; [done|]. simpl in *. set_solver.
    - apply (outcome_fold_each (λ s, s.1 = {[key]} ∪ st ∧ finished outgoing s)
        (λ x, acyclic_from outgoing x.2)) in Hv as [[? ?] Hall].
      + split_and!; [done..|]. constructor. intros b [e Hb]. rewrite Forall_forall in Hall. by apply (Hall (e, b)).
      + intros s [e target] s' _ [Hs Hf] Ht. apply IH in Ht as (-> & ? & ?); auto.
      + split; [done|]. intros v Hv' Hn. apply Hfin; simpl in *; set_solver. }
  destruct Hrest as (-> & Hfin2 & Hkey). split_and!; [set_solver| |done].
  intros v Hv' Hn. simpl in *. destruct (decide (v = key)) as [->|]; [done|]. apply Hfin2; simpl; set_solver.
Qed.

(** A path of zero or more edges. *)
Definition reaches (outgoing : outgoing_map) : string → string → Prop := rtc (edge outgoing).

Lemma acc_no_return {A} (R : relation A) a b : Acc (λ b a, R a b) a → R a b → rtc R b a → False.
Proof.
  intros Hacc. revert b. induction Hacc as [a _ IH]. intros b Hab Hba.
  destruct (rtc_inv _ _ Hba) as [->|(c & Hbc & Hca)]; [by apply (IH a Hab a)|].
  apply (IH b Hab c Hbc). eapply rtc_r; [exact Hca|exact Hab].
Qed.

(** The search succeeds where there is no cycle, and never runs out of fuel. *)
Lemma visit_complete outgoing key :
  acyclic_from outgoing key → ∀ fuel st seen,
  (∀ v, reaches outgoing key v → v ∉ st) →
  st ⊆ dom outgoing → (size outgoing + 1 < size st + fuel)%nat →
  ∃ seen', visit fuel outgoing key (st, seen) = Ok (st, seen').
Proof.
  induction 1 as [key Hacc IH]. intros fuel st seen Hfree Hsub Hfuel.
  pose proof (subseteq_size _ _ Hsub) as Hsz. rewrite size_dom in Hsz.
  destruct fuel as [|fuel]; [lia|]. simpl.
  assert (Hkey : key ∉ st) by (apply Hfree, rtc_refl). rewrite (bool_decide_eq_false_2 _ Hkey).
  assert (Hback : ({[key]} ∪ st) ∖ {[key]} = st) by set_solver.
  case_bool_decide as Hseen; simpl; [eexists; by rewrite Hback|].
  assert (Hfold : ∀ edges seen, (∀ e b, (e, b) ∈ edges → (e, b) ∈ default [] (outgoing !! key)) →
    ∃ seen', outcome_fold (λ state '(_, target), visit fuel outgoing target state) ({[key]} ∪ st, seen) edges
      = Ok ({[key]} ∪ st, seen')).
  { induction edges as [|[e b] edges IHe]; intros seen1 Hin; [by eexists|]. simpl.
    assert (Hb : (e, b) ∈ default [] (outgoing !! key)) by (apply Hin; set_solver).
    assert (Hdom : key ∈ dom outgoing).
    { apply elem_of_dom. destruct (outgoing !! key); [eauto|set_solver]. }
    destruct (IH b) with (fuel := fuel) (st := {[key]} ∪ st) (seen := seen1) as [seen2 ->].
    - by exists e.
    - intros v Hv [->%elem_of_singleton|Hv']%elem_of_union.
      + apply (acc_no_return (edge outgoing) key b); [by constructor|by exists e|done].
      + eapply Hfree; [|done]. eapply rtc_l; [by exists e|done].
    - set_solver.
    - rewrite size_union, size_singleton by set_solver. lia.
    - simpl. apply IHe. set_solver. }
  destruct (Hfold (default [] (outgoing !! key)) ({[key]} ∪ seen)) as [seen' ->]; [done|].
  simpl. rewrite Hback. eauto.
Qed.

Lemma detect_cycle_ok start outgoing : detect_cycle start outgoing = Ok tt ↔ acyclic_from outgoing start.
Proof.
  unfold detect_cycle. split.
  - intros (st & Hv & _)%outcome_bind_ok. by apply visit_sound in Hv as (_ & _ & ?).
  - intros Hacc. destruct (visit_complete outgoing start Hacc (2 + size outgoing) ∅ ∅) as [seen ->]; try done.
    rewrite size_empty. lia.
Qed.

Lemma outcome_fold_no_panic {A B} (I : B → Prop) (f : B → A → Outcome B) l acc :
  (∀ b x, x ∈ l → I b → is_panic (f b x) = false ∧ ∀ b', f b x = Ok b' → I b') →
  I acc → is_panic (outcome_fold f acc l) = false.
Proof.
  revert acc. induction l as [|x l IH]; simpl; intros acc Hf Hacc; [done|].
  destruct (Hf acc x) as [Hp Hi]; [set_solver|done|]. destruct (f acc x) as [b| |]; simpl; [|done..].
  apply IH; [|by apply Hi]. intros; apply Hf; [set_solver|done].
Qed.

Lemma visit_stack fuel outgoing key state state' :
  visit fuel outgoing key state = Ok state' → state'.1 = state.1.
Proof.
  revert key state state'. induction fuel as [|fuel IH]; intros key [st seen] state' Hv; [done|]. simpl in Hv.
  case_bool_decide as Hst; [done|]. apply outcome_bind_ok in Hv as ([st2 seen2] & Hv & [= <-]). simpl.
  assert (st2 = {[key]} ∪ st) as ->; [|set_solver].
  case_bool_decide; [by injection Hv as <- <-|].
  apply (outcome_fold_each (λ s, s.1 = {[key]} ∪ st) (λ _, True)) in Hv as [? _]; [done| |done].
  intros s [e target] s' _ Hs Ht%IH. by rewrite Ht.
Qed.

Lemma visit_no_panic fuel outgoing key st seen :
  st ⊆ dom outgoing → (size outgoing + 1 < size st + fuel)%nat →
  is_panic (visit fuel outgoing key (st, seen)) = false.
Proof.
  revert key st seen. induction fuel as [|fuel IH]; intros key st seen Hsub Hfuel.
  { pose proof (subseteq_size _ _ Hsub) as Hsz. rewrite size_dom in Hsz. lia. }
  simpl. case_bool_decide as Hst; [done|]. case_bool_decide as Hseen; [done|].
  assert (Hp : is_panic (outcome_fold (λ state '(_, target), visit fuel outgoing target state)
    ({[key]} ∪ st, {[key]} ∪ seen) (default [] (outgoing !! key))) = false).
  { apply (outcome_fold_no_panic (λ s, s.1 = {[key]} ∪ st)); [|done].
    intros [st' seen'] [e target] Hin Hs. simpl in Hs. subst. split.
    - apply IH.
      + assert (key ∈ dom outgoing); [|set_solver].
        apply elem_of_dom. destruct (outgoing !! key); [eauto|set_solver].
      + rewrite size_union, size_singleton by set_solver. lia.
    - intros b' Hb. by apply visit_stack in Hb. }
  destruct (outcome_fold _ _ _) as [[? ?]| |]; done.
Qed.

Lemma detect_cycle_no_panic start outgoing : is_panic (detect_cycle start outgoing) = false.
Proof.
  unfold detect_cycle. pose proof (visit_no_panic (2 + size outgoing) outgoing start ∅ ∅) as Hp.
  destruct (visit _ _ _ _); try done. apply Hp; [set_solver|]. lia.
Qed.

(** The search for cycles is exact and total. It accepts a graph when every
    path from the start node ends, reports an error when some path does not, and
    never runs out of its bound. *)
Theorem detect_cycle_exact start outgoing :
  match detect_cycle start outgoing with
  | Ok _ => acyclic_from outgoing start
  | Err _ => ¬ acyclic_from outgoing start
  | Panic _ => False
  end.
Proof.
  pose proof (detect_cycle_no_panic start outgoing) as Hp. pose proof (detect_cycle_ok start outgoing) as Hok.
  destruct (detect_cycle start outgoing) as [[]| |]; [by apply Hok| |done]. by intros Ha%Hok.
Qed.

(** ** The analysis of available outputs *)
Section Flow.
Context (nodes : list (string * Node)) (outgoing : outgoing_map) (ctx : RegionCtx) (start : string).
Implicit Types flow : Flow.
Notation base := (base_references ctx).

(** The output of [m] is there on some way from the start to [k]. *)
Definition provides (m k : string) : Prop :=
  ∃ node x, reaches outgoing start m ∧ bt_get m nodes = Some node ∧ is_Some (success_output m node) ∧
    (Edge_Next, x) ∈ default [] (outgoing !! m) ∧ reaches outgoing x k.

Definition reference_ok (k : string) (node : Node) (r : Reference) : Prop :=
  match r with
  | Reference_LoopState | Reference_LoopIndex => rc_in_loop ctx || is_loop_node node = true
  | Reference_ItemValue | Reference_ItemIndex => rc_in_foreach ctx || is_foreach_node node = true
  | Reference_ForwardInput | Reference_ForwardOutput =>
      rc_in_compensation ctx || has_compensation node = true
  | Reference_NodeOutput m => provides m k
  | _ => True
  end.

Definition bindings_ok (k : string) (node : Node) : Prop :=
  ∀ b, b ∈ node_bindings node → binding_depth b ≤ MAX_DATA_DEPTH ∧
    ∀ r, r ∈ binding_references b → reference_ok k node r.

Definition waiting_or_seen flow (k : string) : Prop := k ∈ fl_pending flow ∨ k ∈ fl_seen flow.

Record flow_ok flow : Prop := mkFlowOk {
  fo_start : waiting_or_seen flow start;
  fo_reach : ∀ k, waiting_or_seen flow k → reaches outgoing start k;
  fo_closed : ∀ a b, a ∈ fl_seen flow → edge outgoing a b → waiting_or_seen flow b;
  fo_available : ∀ k refs m, fl_at_node flow !! k = Some refs → Reference_NodeOutput m ∈ refs → provides m k;
  fo_checked : ∀ k, k ∈ fl_seen flow → ∃ node, bt_get k nodes = Some node ∧ bindings_ok k node;
}.

Lemma base_no_output m : Reference_NodeOutput m ∉ base.
Proof. unfold base_references. destruct (rc_in_loop ctx), (rc_in_foreach ctx), (rc_in_compensation ctx); set_solver. Qed.

Lemma check_bindings_ok k node available :
  (∀ m, Reference_NodeOutput m ∈ available → provides m k) →
  check_bindings node available ctx = Ok tt → bindings_ok k node.
Proof.
  unfold check_bindings. rewrite outcome_map_unit, Forall_forall. intros Hav Hc b Hb. specialize (Hc b Hb).
  unfold check_binding in Hc. destruct (_ <? _) eqn:Hd; [done|]. to_prop. split; [done|].
  rewrite outcome_map_unit, Forall_forall in Hc. intros r Hr. specialize (Hc r Hr).
  destruct r; simpl in *; try done; try (destruct (_ && _) eqn:Hg in Hc; [done|]; apply negb_false_iff; by rewrite negb_orb).
  destruct (negb _) eqn:Hg; [done|]. to_prop. by apply Hav.
Qed.

Lemma provides_step m a b : provides m a → edge outgoing a b → provides m b.
Proof.
  intros (node & x & ? & ? & ? & ? & Hx) Hab. exists node, x. split_and!; try done.
  eapply rtc_r; [exact Hx|exact Hab].
Qed.

(** What holds of the references a node passes on holds at its target. *)
Lemma follow_edge_ok key node flow e :
  bt_get key nodes = Some node → reaches outgoing start key → e ∈ default [] (outgoing !! key) →
  (∀ k refs m, fl_at_node flow !! k = Some refs → Reference_NodeOutput m ∈ refs → provides m k) →
  let flow' := follow_edge base key node flow e in
  fl_pending flow' = e.2 :: fl_pending flow ∧ fl_seen flow' = fl_seen flow ∧
  ∀ k refs m, fl_at_node flow' !! k = Some refs → Reference_NodeOutput m ∈ refs → provides m k.
Proof.
  intros Hnode Hreach He Hav. destruct e as [kind target]. unfold follow_edge. simpl.
  split_and!; [done..|]. intros k refs m. rewrite lookup_insert. case_decide as Hk; [subst|by apply Hav].
  intros [= <-] [_ Hm]%elem_of_intersection.
  assert (Hprev : Reference_NodeOutput m ∈ default base (fl_at_node flow !! key) → provides m k).
  { intros Hin. eapply provides_step; [|by exists kind]. destruct (fl_at_node flow !! key) eqn:Hk; simpl in Hin.
    - by eapply Hav.
    - by apply base_no_output in Hin. }
  destruct kind; [|by apply Hprev]. destruct (success_output key node) as [out|] eqn:Hout; [|by apply Hprev].
  apply elem_of_union in Hm as [Hm%elem_of_singleton|Hm]; [|by apply Hprev].
  assert (m = key) as -> by (unfold success_output in Hout; destruct node; simplify_eq; done).
  exists node, k. split_and!; [done|done|by rewrite Hout|done|apply rtc_refl].
Qed.

Lemma follow_edges_ok key node edges flow :
  bt_get key nodes = Some node → reaches outgoing start key →
  (∀ e, e ∈ edges → e ∈ default [] (outgoing !! key)) →
  (∀ k refs m, fl_at_node flow !! k = Some refs → Reference_NodeOutput m ∈ refs → provides m k) →
  let flow' := foldl (follow_edge base key node) flow edges in
  fl_pending flow' = reverse edges.*2 ++ fl_pending flow ∧ fl_seen flow' = fl_seen flow ∧
  ∀ k refs m, fl_at_node flow' !! k = Some refs → Reference_NodeOutput m ∈ refs → provides m k.
Proof.
  intros Hnode Hreach. revert flow. induction edges as [|e edges IH]; intros flow Hin Hav; [done|]. simpl.
  destruct (follow_edge_ok key node flow e) as (Hp & Hs & Hav1); [done|done|apply Hin; set_solver|done|].
  destruct (IH (follow_edge base key node flow e)) as (-> & -> & ?); [intros; apply Hin; set_solver|done|].
  split_and!; [|done|done]. by rewrite Hp, reverse_cons, <-app_assoc.
Qed.

Lemma analyze_step_ok flow flow' :
  flow_ok flow → analyze_step nodes outgoing base ctx flow = Ok (Some flow') → flow_ok flow'.
Proof.
  intros [Hs Hr Hc Ha Hch] Hstep. unfold analyze_step in Hstep. unfold waiting_or_seen in *.
  destruct (fl_pending flow) as [|key pending] eqn:Hpend; [done|].
  case_bool_decide as Hseen.
  { injection Hstep as <-. split; unfold waiting_or_seen; simpl; try done.
    - set_solver.
    - intros k Hk. apply Hr. set_solver.
    - intros a b Ha' Hb. specialize (Hc a b Ha' Hb). set_solver. }
  apply outcome_bind_ok in Hstep as (node & Hnode%unwrap_ok & Hstep).
  apply outcome_bind_ok in Hstep as ([] & Hchk & [= <-]). simpl in Hchk.
  assert (Hreach : reaches outgoing start key) by (apply Hr; set_solver).
  destruct (follow_edges_ok key node (default [] (outgoing !! key))
    (mkFlow pending ({[key]} ∪ fl_seen flow) (fl_at_node flow))) as (Hp' & Hs' & Ha'); [done..|].
  set (flow' := foldl _ _ _) in *. simpl in Hp', Hs'.
  assert (Htargets : ∀ b, edge outgoing key b → b ∈ fl_pending flow').
  { intros b [e Hb]. rewrite Hp'. apply elem_of_app. left. rewrite elem_of_reverse.
    apply list_elem_of_fmap. by exists (e, b). }
  split; unfold waiting_or_seen; rewrite ?Hs'.
  - rewrite Hp'. set_solver.
  - intros k. rewrite Hp', elem_of_app, elem_of_reverse, elem_of_union, elem_of_singleton.
    intros [[Hk|Hk]|[->|Hk]]; [|apply Hr; set_solver|done|apply Hr; set_solver].
    apply list_elem_of_fmap in Hk as ([e b] & -> & Hb). eapply rtc_r; [done|by exists e].
  - intros a b [->%elem_of_singleton|Hin]%elem_of_union Hab; [left; by apply Htargets|].
    specialize (Hc a b Hin Hab). rewrite Hp'. set_solver.
  - exact Ha'.
  - intros k [->%elem_of_singleton|Hk]%elem_of_union; [|by apply Hch].
    exists node. split; [done|]. eapply check_bindings_ok; [|done].
    intros m. destruct (fl_at_node flow !! key) eqn:Hk; simpl; [by eapply Ha|]. intros Hm%base_no_output. done.
Qed.

Lemma analyze_loop_ok fuel flow flow' :
  flow_ok flow → analyze_loop fuel nodes outgoing base ctx flow = Ok flow' →
  flow_ok flow' ∧ fl_pending flow' = [].
Proof.
  revert flow. induction fuel as [|fuel IH]; simpl; intros flow Hok Hl; [done|].
  apply outcome_bind_ok in Hl as ([flow1|] & Hstep & Hl); [by eapply IH, Hl; eapply analyze_step_ok|].
  simplify_eq. split; [done|]. unfold analyze_step in Hstep. destruct (fl_pending flow'); [done|].
  case_bool_decide; [done|]. ok_inv.
Qed.

Lemma initial_flow_ok : flow_ok (mkFlow [start] ∅ {[start := base]}).
Proof.
  split; unfold waiting_or_seen; simpl.
  - set_solver.
  - intros k [->%list_elem_of_singleton|Hk]; [apply rtc_refl|set_solver].
  - set_solver.
  - intros k refs m [<- <-]%lookup_singleton_Some Hm. by apply base_no_output in Hm.
  - set_solver.
Qed.

(** *** The loop ends *)
Definition to_follow (seen : gset string) (entries : list (string * Node)) : nat :=
  sum_list ((λ e : string * Node, if decide (e.1 ∈ seen) then 0%nat else length (node_successors e.2)) <$> entries).

Lemma to_follow_cons seen e entries :
  to_follow seen (e :: entries) =
    ((if decide (e.1 ∈ seen) then 0 else length (node_successors e.2)) + to_follow seen entries)%nat.
Proof. done. Qed.

Lemma out_edges_cons e entries key :
  out_edges (e :: entries) key = (if decide (e.1 = key) then edges_of e.2 else []) ++ out_edges entries key.
Proof. done. Qed.

Lemma elem_of_out_edges entries key e :
  e ∈ out_edges entries key ↔ ∃ node, (key, node) ∈ entries ∧ e ∈ edges_of node.
Proof.
  induction entries as [|[k node] entries IH]; [set_solver|]. rewrite out_edges_cons, elem_of_app, IH. simpl.
  setoid_rewrite elem_of_cons. case_decide; set_solver.
Qed.

Lemma to_follow_seen seen key entries :
  key ∉ seen →
  (to_follow ({[key]} ∪ seen) entries + length (out_edges entries key) = to_follow seen entries)%nat.
Proof.
  intros Hkey. induction entries as [|[k node] entries IH]; [done|].
  rewrite !to_follow_cons, out_edges_cons, length_app. simpl.
  assert (length (edges_of node) = length (node_successors node)) by apply length_fmap.
  destruct (decide (k ∈ {[key]} ∪ seen)), (decide (k ∈ seen)), (decide (k = key)); try set_solver; simpl; lia.
Qed.

Definition budget flow : nat := (length (fl_pending flow) + to_follow (fl_seen flow) nodes)%nat.

Context (Hout : ∀ k, default [] (outgoing !! k) = out_edges nodes k).

Lemma analyze_step_budget flow flow' :
  analyze_step nodes outgoing base ctx flow = Ok (Some flow') → (budget flow' < budget flow)%nat.
Proof.
  unfold analyze_step, budget. destruct (fl_pending flow) as [|key pending]; [done|].
  case_bool_decide as Hseen; [intros [= <-]; simpl; lia|].
  intros (node & Hnode & Hstep)%outcome_bind_ok. apply outcome_bind_ok in Hstep as ([] & _ & [= <-]).
  assert (Hfold : ∀ edges f, length (fl_pending (foldl (follow_edge base key node) f edges)) =
    (length edges + length (fl_pending f))%nat ∧ fl_seen (foldl (follow_edge base key node) f edges) = fl_seen f).
  { induction edges as [|[e b] edges IH]; intros f; [done|]. cbn [foldl].
    destruct (IH (follow_edge base key node f (e, b))) as [-> ->]. simpl. split; [lia|done]. }
  destruct (Hfold (default [] (outgoing !! key)) (mkFlow pending ({[key]} ∪ fl_seen flow) (fl_at_node flow))) as [-> ->].
  simpl. rewrite Hout. pose proof (to_follow_seen _ key nodes Hseen). lia.
Qed.

Context (Hstart : is_Some (bt_get start nodes)).
Context (Hclosed : ∀ k e b, (e, b) ∈ out_edges nodes k → is_Some (bt_get b nodes)).

Lemma analyze_loop_no_panic fuel flow :
  (∀ k, k ∈ fl_pending flow → is_Some (bt_get k nodes)) → (budget flow < fuel)%nat →
  is_panic (analyze_loop fuel nodes outgoing base ctx flow) = false.
Proof.
  revert flow. induction fuel as [|fuel IH]; intros flow Hpend Hfuel; [lia|]. simpl.
  destruct (analyze_step nodes outgoing base ctx flow) as [[flow'|]| |] eqn:Hstep; simpl; [|done|done|].
  - apply IH.
    + unfold analyze_step in Hstep. destruct (fl_pending flow) as [|key pending]; [done|].
      case_bool_decide; [injection Hstep as <-; intros; apply Hpend; set_solver|].
      apply outcome_bind_ok in Hstep as (node & _ & Hstep). apply outcome_bind_ok in Hstep as ([] & _ & [= <-]).
      assert (Hfold : ∀ edges f k, k ∈ fl_pending (foldl (follow_edge base key node) f edges) →
        k ∈ edges.*2 ∨ k ∈ fl_pending f).
      { induction edges as [|[e b] edges IHe]; simpl; [tauto|]. intros f k [?|Hk]%IHe; [set_solver|].
        simpl in Hk. set_solver. }
      intros k [Hk|Hk]%Hfold; [|apply Hpend; set_solver].
      apply list_elem_of_fmap in Hk as ([e b] & -> & Hb). eapply Hclosed. by rewrite <-Hout.
    + apply analyze_step_budget in Hstep. lia.
  - exfalso. unfold analyze_step in Hstep. destruct (fl_pending flow) as [|key pending]; [done|].
    case_bool_decide; [done|]. destruct (Hpend key) as [node Hnode]; [set_solver|]. rewrite Hnode in Hstep. simpl in Hstep.
    destruct (check_bindings node _ ctx) as [[]| |] eqn:Hc; simpl in Hstep; [done..|].
    enough (is_panic (check_bindings node (default base (fl_at_node flow !! key)) ctx) = false) as Hn by (rewrite Hc in Hn; done).
    unfold check_bindings, check_binding, check_reference. no_panic.
Qed.
End Flow.

(** ** Regions *)
Definition region_edge (r : Region) (a b : string) : Prop :=
  ∃ node name, region_node r a = Some node ∧ (name, b) ∈ node_successors node.

(** The output of [m] is recorded on some path from the start to [k]: the path
    leaves [m] by another edge than its timeout. *)
Definition output_reaches (r : Region) (m k : string) : Prop :=
  ∃ node name x, rtc (region_edge r) (region_start r) m ∧ region_node r m = Some node ∧
    is_Some (success_output m node) ∧ (name, x) ∈ node_successors node ∧ name ≠ "on_timeout" ∧
    rtc (region_edge r) x k.

Definition reference_sound (r : Region) (ctx : RegionCtx) (k : string) (node : Node) (ref : Reference) : Prop :=
  match ref with
  | Reference_LoopState | Reference_LoopIndex => rc_in_loop ctx || is_loop_node node = true
  | Reference_ItemValue | Reference_ItemIndex => rc_in_foreach ctx || is_foreach_node node = true
  | Reference_ForwardInput | Reference_ForwardOutput =>
      rc_in_compensation ctx || has_compensation node = true
  | Reference_NodeOutput m => output_reaches r m k
  | _ => True
  end.

Record region_sound (r : Region) (ctx : RegionCtx) : Prop := mkRegionSound {
  rg_keys : NoDup (region_nodes r).*1;
  rg_start : is_Some (region_node r (region_start r));
  rg_closed : ∀ a b, region_edge r a b → is_Some (region_node r b);
  rg_ends : ∀ k, Acc (λ b a, region_edge r a b) k;
  rg_reached : ∀ k, is_Some (region_node r k) → rtc (region_edge r) (region_start r) k;
  rg_limits : ∀ k node, region_node r k = Some node → check_node_limits node = Ok tt;
  rg_bindings : ∀ k node b, region_node r k = Some node → b ∈ node_bindings node →
    binding_depth b ≤ MAX_DATA_DEPTH ∧ ∀ ref, ref ∈ binding_references b → reference_sound r ctx k node ref;
}.

Lemma bt_get_is_Some {V} k (m : list (string * V)) : is_Some (bt_get k m) ↔ k ∈ m.*1.
Proof.
  induction m as [|[k' v] m IH]; simpl; [rewrite <-not_eq_None_Some; set_solver|].
  rewrite elem_of_cons. case_decide; [subst; split; eauto|]. rewrite IH. naive_solver.
Qed.

Lemma bt_contains_is_Some {V} k (m : list (string * V)) : bt_contains k m = true ↔ is_Some (bt_get k m).
Proof. apply bool_decide_eq_true. Qed.

Lemma covering_set (seen : gset string) l :
  (∀ k, k ∈ seen → k ∈ l) → size seen = length l → NoDup l ∧ ∀ k, k ∈ l → k ∈ seen.
Proof.
  intros Hsub Hsz. assert (elements seen ≡ₚ l) as Hp.
  { apply submseteq_length_Permutation; [|unfold size, set_size in Hsz; simpl in Hsz; lia].
    apply NoDup_submseteq; [apply NoDup_elements|]. intros k. rewrite elem_of_elements. apply Hsub. }
  split; [rewrite <-Hp; apply NoDup_elements|]. intros k. by rewrite <-Hp, elem_of_elements.
Qed.

Lemma out_edges_NoDup nodes k node :
  NoDup nodes.*1 → bt_get k nodes = Some node → out_edges nodes k = edges_of node.
Proof.
  assert (Hnone : ∀ l, k ∉ l.*1 → out_edges l k = []).
  { induction l as [|[k' n] l IH]; [done|]. rewrite out_edges_cons. simpl.
    intros [? ?]%not_elem_of_cons. rewrite decide_False by done. by apply IH. }
  induction nodes as [|[k' n] nodes IH]; [done|]. rewrite out_edges_cons. simpl.
  intros [Hnin Hnd]%NoDup_cons Hget. case_decide as Hk.
  - injection Hget as ->. subst k'. rewrite decide_True, Hnone, app_nil_r by done. done.
  - rewrite decide_False by congruence. by apply IH.
Qed.

(** Before the last check of [analyze_region]: what its loops give. *)
Lemma analyze_region_split r ctx catalog :
  analyze_region r ctx catalog = Ok tt →
  ∃ outgoing flow,
    Forall (λ e, Forall (λ s, bt_contains s.2 (region_nodes r) = true) (node_successors e.2) ∧
                 check_node_limits e.2 = Ok tt) (region_nodes r) ∧
    (∀ k, default [] (outgoing !! k) = out_edges (region_nodes r) k) ∧
    acyclic_from outgoing (region_start r) ∧
    flow_ok (region_nodes r) outgoing ctx (region_start r) flow ∧ fl_pending flow = [] ∧
    size (fl_seen flow) = length (region_nodes r).
Proof.
  unfold analyze_region. intros (outgoing & [Hscan Hout]%scan_nodes & Ha)%outcome_bind_ok.
  apply outcome_bind_ok in Ha as ([] & Hcyc%detect_cycle_ok & Ha).
  apply outcome_bind_ok in Ha as (flow & Hloop & Ha).
  destruct (negb _) eqn:Hsz; [done|]. to_prop. unfold zlen in Hsz.
  apply (analyze_loop_ok _ _ _ (region_start r)) in Hloop as [Hok Hpend]; [|apply initial_flow_ok].
  exists outgoing, flow. split_and!; try done. lia.
Qed.

(** An accepted region is a graph that can be run. Its node keys are
    distinct, its start and every target of an edge exist, no path is infinite,
    every node is reached from the start, and every reference to a node's output
    is to a node whose output is recorded on some path to the reader; loop, item
    and compensation references appear only where the context provides them. *)
Theorem accepted_region_is_sound r ctx catalog :
  analyze_region r ctx catalog = Ok tt → region_sound r ctx.
Proof.
  intros (outgoing & flow & Hscan & Hout & Hacyc & [Hs Hr Hc _ Hch] & Hpend & Hsz)%analyze_region_split.
  unfold waiting_or_seen in *. rewrite Hpend in *.
  assert (Hkeys : NoDup (region_nodes r).*1 ∧ ∀ k, k ∈ (region_nodes r).*1 → k ∈ fl_seen flow).
  { apply covering_set; [|by rewrite length_fmap]. intros k (node & Hnode & _)%Hch. apply bt_get_is_Some. eauto. }
  destruct Hkeys as [Hnd Hall].
  assert (Hedge : ∀ a b, edge outgoing a b → region_edge r a b).
  { intros a b [e Hin]. rewrite Hout in Hin.
    assert (a ∈ fl_seen flow ∨ a ∉ (region_nodes r).*1) as [(node & Hnode & _)%Hch|Hno].
    { destruct (decide (a ∈ (region_nodes r).*1)); eauto. }
    - rewrite (out_edges_NoDup _ _ node) in Hin by done. apply list_elem_of_fmap in Hin as ([name t] & [= -> ->] & Hin).
      by exists node, name.
    - apply elem_of_out_edges in Hin as (node & Hin & _). destruct Hno. apply list_elem_of_fmap. by exists (a, node). }
  assert (Hedge' : ∀ a b name node, region_node r a = Some node → (name, b) ∈ node_successors node →
    (edge_kind name, b) ∈ default [] (outgoing !! a)).
  { intros a b name node Hnode Hin. rewrite Hout, (out_edges_NoDup _ _ node) by done.
    apply list_elem_of_fmap. by exists (name, b). }
  assert (Hrtc : ∀ a b, reaches outgoing a b → rtc (region_edge r) a b).
  { intros a b. apply rtc_subrel. exact Hedge. }
  split.
  - done.
  - destruct Hs as [Hs|(node & Hnode & _)%Hch]; [set_solver|]. by exists node.
  - intros a b (node & name & Hnode & Hin). rewrite Forall_forall in Hscan.
    destruct (Hscan (a, node)) as [Hsucc _]; [by apply bt_get_elem|].
    rewrite Forall_forall in Hsucc. apply bt_contains_is_Some. by apply (Hsucc (name, b)).
  - intros k. destruct (region_node r k) as [node|] eqn:Hk.
    + assert (Hreach : rtc (region_edge r) (region_start r) k).
      { apply Hrtc, Hr. right. apply Hall, bt_get_is_Some. by exists node. }
      assert (Hstart : Acc (λ b a, region_edge r a b) (region_start r)).
      { clear -Hacyc Hedge'. induction Hacyc as [a _ IH]. constructor. intros b (node & name & Hn & Hin).
        apply IH. exists (edge_kind name). by eapply Hedge'. }
      clear -Hreach Hstart. induction Hreach as [|a b c Hab _ IH]; [done|]. by apply IH, (Acc_inv Hstart).
    + constructor. intros b (node & name & Hn & _). congruence.
  - intros k Hk%bt_get_is_Some. apply Hrtc, Hr. right. by apply Hall.
  - intros k node Hk%bt_get_elem. rewrite Forall_forall in Hscan. by destruct (Hscan _ Hk).
  - intros k node b Hk Hb. destruct (Hch k) as (node' & Hk' & Hok); [apply Hall, bt_get_is_Some; by exists node|].
    unfold region_node in Hk. rewrite Hk in Hk'. injection Hk' as <-. destruct (Hok b Hb) as [? Hrefs].
    split; [done|]. intros ref Href. specialize (Hrefs ref Href).
    destruct ref as [| | |m| | | | | |]; try done. simpl in Hrefs.
    destruct Hrefs as (node' & x & Hm & Hnode' & Hout' & Hin & Hx). simpl.
    rewrite Hout, (out_edges_NoDup _ _ node') in Hin by done.
    apply list_elem_of_fmap in Hin as ([name t] & [= Hkind ->] & Hin).
    exists node', name, t. split_and!; try done; [by apply Hrtc| |by apply Hrtc].
    intros ->. unfold edge_kind in Hkind. by rewrite bool_decide_eq_true_2 in Hkind.
Qed.

(** ** When the check panics *)
Lemma scan_nodes_no_panic nodes entries outgoing : is_panic (outcome_fold (scan_node nodes) outgoing entries) = false.
Proof.
  apply (outcome_fold_no_panic (λ _, True)); [|done]. intros o [key node] _ _. split; [|done]. simpl.
  assert (is_panic (outcome_fold (add_edge nodes key) o (node_successors node)) = false) as Hadd.
  { apply (outcome_fold_no_panic (λ _, True)); [|done]. intros b [name t] _ _. split; [|done]. simpl.
    by destruct (negb _). }
  destruct (outcome_fold (add_edge nodes key) o (node_successors node)); simpl; [|done..].
  apply np_bind; [|done]. unfold check_node_limits, check_condition. no_panic.
Qed.

(** What the scan of the edges gives the rest of the check. *)
Lemma scan_nodes_closed nodes outgoing k e b :
  outcome_fold (scan_node nodes) ∅ nodes = Ok outgoing → (e, b) ∈ out_edges nodes k → is_Some (bt_get b nodes).
Proof.
  intros [Hall _]%scan_nodes (node & Hnode & Hin)%elem_of_out_edges. rewrite Forall_forall in Hall.
  destruct (Hall _ Hnode) as [Hs _]. apply list_elem_of_fmap in Hin as ([name t] & [= _ ->] & Hin).
  rewrite Forall_forall in Hs. apply bt_contains_is_Some. by apply (Hs (name, t)).
Qed.

Lemma analyze_region_no_panic r ctx catalog :
  is_Some (region_node r (region_start r)) → is_panic (analyze_region r ctx catalog) = false.
Proof.
  unfold analyze_region, region_node. set (nodes := region_nodes r). set (start := region_start r).
  remember (2 + edge_count nodes)%nat as fuel eqn:Hfuel. intros [node Hstart].
  apply np_bind; [apply scan_nodes_no_panic|]. intros outgoing Hscan.
  apply np_bind; [apply detect_cycle_no_panic|]. intros _ _. apply np_bind; [|intros flow _; by destruct (negb _)].
  eapply analyze_loop_no_panic; [by apply scan_nodes in Hscan as [_ Hout]|by eexists| | |].
  - intros k e b. by eapply scan_nodes_closed.
  - intros k ->%list_elem_of_singleton. by exists node.
  - unfold budget. simpl. assert (to_follow ∅ nodes = edge_count nodes) as ->; [|lia].
    clear. induction nodes as [|e l IH]; [done|]. rewrite to_follow_cons, IH. done.
Qed.

(** The check of a region panics exactly when its start node is missing.
    Every other defect is an error. *)
Theorem analyze_region_panics_iff r ctx catalog :
  is_panic (analyze_region r ctx catalog) = true ↔
  region_node r (region_start r) = None ∧ is_ok (outcome_fold (scan_node (region_nodes r)) ∅ (region_nodes r)) = true.
Proof.
  destruct (region_node r (region_start r)) as [node|] eqn:Hstart.
  { rewrite analyze_region_no_panic by (rewrite Hstart; by eexists). naive_solver. }
  unfold analyze_region, region_node in *. set (nodes := region_nodes r) in *. set (start := region_start r) in *.
  pose proof (scan_nodes_no_panic nodes nodes ∅) as Hnp.
  destruct (outcome_fold (scan_node nodes) ∅ nodes) as [outgoing| |] eqn:Hscan; simpl; [|naive_solver..].
  split; [done|]. intros _. apply scan_nodes in Hscan as [Hall Hout].
  assert (Hnone : default [] (outgoing !! start) = []).
  { rewrite Hout. apply elem_of_nil_inv. intros [e b] (node & Hnode & _)%elem_of_out_edges.
    assert (start ∈ nodes.*1) as [node' Hget]%bt_get_is_Some; [|congruence].
    apply list_elem_of_fmap. by exists (start, node). }
  assert (detect_cycle start outgoing = Ok tt) as ->.
  { apply detect_cycle_ok. constructor. intros b [e Hb]. rewrite Hnone in Hb. set_solver. }
  cbn [analyze_loop Nat.add]. unfold analyze_step. simpl. by rewrite bool_decide_eq_false_2, Hstart by set_solver.
Qed.

(** ** The tree of regions *)
Definition child_contexts (ctx : RegionCtx) (node : Node) : list (Region * RegionCtx) :=
  match node with
  | Node_While _ _ _ _ body _ | Node_DoWhile _ _ _ _ body _ | Node_Repeat _ _ _ _ body _ =>
      [(body, ctx_for (ctx_in_loop ctx) body)]
  | Node_Foreach _ _ _ _ body _ => [(body, ctx_for (ctx_in_foreach ctx) body)]
  | Node_Saga _ body _ => [(body, ctx_for (ctx_in_saga ctx) body)]
  | Node_Parallel branches _ => (λ b, (branch_body b, ctx_for ctx (branch_body b))) <$> branches
  | Node_Choose _ cases default _ =>
      ((λ c, (case_body c, ctx_for ctx (case_body c))) <$> cases) ++ [(default, ctx_for ctx default)]
  | _ => []
  end.

Inductive sub_region (r : Region) (ctx : RegionCtx) : Region → RegionCtx → Prop :=
| sub_region_refl : sub_region r ctx r ctx
| sub_region_child r' ctx' k node child child_ctx :
    sub_region r ctx r' ctx' → (k, node) ∈ region_nodes r' →
    (child, child_ctx) ∈ child_contexts ctx' node → sub_region r ctx child child_ctx.

Lemma analyze_children_ok node ctx catalog :
  analyze_children node ctx catalog = Ok tt ↔
  Forall (λ p, analyze_tree p.1 p.2 catalog = Ok tt) (child_contexts ctx node).
Proof.
  destruct node; simpl; rewrite ?Forall_singleton; try (by split; [constructor|]); try done.
  - rewrite outcome_map_then, Forall_app, Forall_fmap, Forall_singleton.
    rewrite (Forall_iff _ _ (λ c, analyze_tree (case_body c) (ctx_for ctx (case_body c)) catalog = Ok tt));
      [done|by intros []].
  - rewrite outcome_map_unit, Forall_fmap. apply Forall_iff. by intros [].
Qed.

Lemma analyze_tree_ok r ctx catalog :
  analyze_tree r ctx catalog = Ok tt ↔
  analyze_region r ctx catalog = Ok tt ∧
  Forall (λ e, analyze_children e.2 ctx catalog = Ok tt) (region_nodes r).
Proof.
  destruct r as [path input output start nodes]. cbn [analyze_tree region_nodes].
  assert (Hnodes : (_ ← outcome_map (λ '(_, node), analyze_children node ctx catalog) nodes; Ok tt) = Ok tt ↔
    Forall (λ e, analyze_children e.2 ctx catalog = Ok tt) nodes).
  { rewrite outcome_map_unit. apply Forall_iff. by intros []. }
  rewrite <-Hnodes, outcome_bind_ok. split; [by intros ([] & ? & ?)|]. intros [? ?]. by exists tt.
Qed.

Lemma sub_region_analyzed r ctx r' ctx' catalog :
  analyze_tree r ctx catalog = Ok tt → sub_region r ctx r' ctx' → analyze_tree r' ctx' catalog = Ok tt.
Proof.
  intros Hr. induction 1 as [|r' ctx' k node child child_ctx _ IH Hnode Hchild]; [done|].
  apply analyze_tree_ok in IH as [_ Hall]. rewrite Forall_forall in Hall.
  apply Hall, analyze_children_ok in Hnode. rewrite Forall_forall in Hnode. by apply (Hnode (child, child_ctx)).
Qed.

(** C26: an accepted definition is sound all the way down. Every region of its
    tree, in the context the path to it gives, is a graph that can be run. *)
Theorem valid_definition_is_sound d catalog r ctx :
  validate_definition d catalog = Ok tt →
  sub_region (def_root d) (root_ctx (def_input_schema d) (def_output_schema d)) r ctx →
  region_sound r ctx.
Proof.
  intros Hv Hsub. apply (accepted_region_is_sound _ _ catalog).
  by apply (sub_region_analyzed _ _ _ _ _ Hv), analyze_tree_ok in Hsub as [? _].
Qed.

(** ** Outputs on every path

    Where no node has two ways out, what is available on some path is available
    on the only one. *)
Inductive path (r : Region) : string → list string → string → Prop :=
| path_here a : path r a [] a
| path_edge a b c l : region_edge r a b → path r b l c → path r a (a :: l) c.

Definition single_way (r : Region) : Prop :=
  ∀ k node, region_node r k = Some node → (length (node_successors node) ≤ 1)%nat.

Lemma single_way_edge r a b c : single_way r → region_edge r a b → region_edge r a c → b = c.
Proof.
  intros Hs (node & n1 & Hn & H1) (node' & n2 & Hn' & H2). rewrite Hn in Hn'. injection Hn' as <-.
  specialize (Hs _ _ Hn). destruct (node_successors node) as [|s [|]]; simpl in *; [set_solver| |lia].
  apply list_elem_of_singleton in H1, H2. congruence.
Qed.

(** In a region without timeouts, a reference is to an output that every
    incoming path provides. Whatever way a run takes from the start to a node, it
    has completed each node whose output this node refers to. *)
Theorem outputs_on_every_path r ctx k node b m l :
  region_sound r ctx → single_way r →
  region_node r k = Some node → b ∈ node_bindings node → Reference_NodeOutput m ∈ binding_references b →
  path r (region_start r) l k → m ∈ l.
Proof.
  intros Hsound Hsingle Hk Hb Hm Hpath. destruct (rg_bindings _ _ Hsound _ _ _ Hk Hb) as [_ Hrefs].
  destruct (Hrefs _ Hm) as (src & name & x & Hreach & Hsrc & _ & Hin & _ & Hx).
  assert (Hmx : region_edge r m x) by (by exists src, name). clear -Hsound Hsingle Hpath Hreach Hmx Hx.
  assert (Hcycle : ∀ a, rtc (region_edge r) a m → k = a → False).
  { intros a Ha ->. apply (acc_no_return (region_edge r) m x); [apply (rg_ends _ _ Hsound)|done|].
    by etrans. }
  revert l Hpath. generalize dependent (region_start r). intros s Hreach.
  induction Hreach as [a|a c a' Hac Hca IH]; intros l Hpath.
  - inversion Hpath as [|? ? ? ? ? ?]; subst; [exfalso; by eapply Hcycle; [apply rtc_refl|]|set_solver].
  - inversion Hpath as [|? c' ? l' Hac' Hl']; subst; [exfalso; eapply Hcycle; [by eapply rtc_l|done]|].
    rewrite (single_way_edge _ _ _ _ Hsingle Hac' Hac) in Hl'. apply elem_of_cons. right. by apply IH.
Qed.
