(* ===== verification/CompilerFacts.v ===== *)
(** * What the compiler accepts

    A compiled definition is legal node by node, passes the check of
    publications, stays within the limits, and its regions are addressed by
    their paths. The compiler never panics. *)
From stdpp Require Import base option gmap strings list relations.
From Stdlib Require Import ZArith Ascii Lia.
From S2P Require Import Prelude Value ValueFacts Ids Policy Catalog Ir Analysis Yaml Equality Domain Eval Evolve History Compiler Steps Command Publication YamlFacts AnalysisFacts.

(** ** Legal nodes *)
Definition region_path (r : Region) : list PathSeg := let 'mkRegion path _ _ _ _ := r in path.
Definition region_schemas (r : Region) : SchemaRef * SchemaRef :=
  let 'mkRegion _ input output _ _ := r in (input, output).

(** The bodies of a node: their segment, region and context. *)
Definition bodies (ctx : RegionCtx) (n : Node) : list (PathSeg * Region * RegionCtx) :=
  match n with
  | Node_While _ _ _ _ body _ | Node_DoWhile _ _ _ _ body _ | Node_Repeat _ _ _ _ body _ =>
      [(PathSeg_Body, body, ctx_for (ctx_in_loop ctx) body)]
  | Node_Foreach _ _ _ _ body _ => [(PathSeg_Body, body, ctx_for (ctx_in_foreach ctx) body)]
  | Node_Saga _ body _ => [(PathSeg_Body, body, ctx_for (ctx_in_saga ctx) body)]
  | Node_Parallel branches _ =>
      (λ b, (PathSeg_Branch (branch_name b), branch_body b, ctx_for ctx (branch_body b))) <$> branches
  | Node_Choose _ cases default _ =>
      ((λ c, (PathSeg_Case (case_name c), case_body c, ctx_for ctx (case_body c))) <$> cases)
      ++ [(PathSeg_Default, default, ctx_for ctx default)]
  | _ => []
  end.

Lemma child_contexts_bodies ctx n : child_contexts ctx n = (λ b, (b.1.2, b.2)) <$> bodies ctx n.
Proof. destruct n; try done; simpl; by rewrite ?fmap_app, <-?list_fmap_compose. Qed.

Definition timeout_legal (timeout_ms : option Z) : Prop :=
  ∃ ms, timeout_ms = Some ms ∧ MIN_ATTEMPT_TIMEOUT ≤ ms ≤ MAX_ATTEMPT_TIMEOUT.

Definition retry_legal (contract : ActivityContract) (retry : RetryPolicy) : Prop :=
  1 ≤ rp_max_attempts retry ≤ MAX_ATTEMPT_BUDGET ∧
  0 < initial_ms (rp_backoff retry) ≤ max_ms (rp_backoff retry) ∧
  1000 ≤ multiplier_millis (rp_backoff retry) ≤ 10000 ∧
  ∀ code, code ∈ rp_errors retry → ∃ spec, spec ∈ ac_error_codes contract ∧ ec_code spec = code ∧ ec_retryable spec = true.

Definition names_legal (names : list string) : Prop :=
  NoDup names ∧ Forall (λ name, valid_ascii_name name = true) names.

Section Legal.
Context (catalog : Catalog) (signals : list (string * SchemaRef)).

Definition compensation_legal (c : Compensation) : Prop :=
  match c with
  | Compensation_Irreversible _ => True
  | Compensation_Activity activity input timeout_ms retry =>
      ∃ contract policy, catalog_activity catalog activity = Ok contract ∧ timeout_legal timeout_ms ∧
        retry = Some policy ∧ retry_legal contract policy ∧
        ∀ ref, ref ∈ binding_references input → is_forward_reference ref = true
  end.

Definition loop_legal (schema : SchemaRef) (max_iterations : Z) (body : Region) : Prop :=
  require_schema catalog schema = Ok tt ∧ 1 ≤ max_iterations ≤ MAX_LOOP_ITERATIONS ∧
  region_schemas body = (schema, schema).

Definition node_legal (ctx : RegionCtx) (n : Node) : Prop :=
  match n with
  | Node_Activity activity _ timeout_ms retry compensation _ =>
      ∃ contract, catalog_activity catalog activity = Ok contract ∧ timeout_legal timeout_ms ∧
        retry_legal contract retry ∧
        match compensation with
        | Some c => rc_in_saga ctx = true ∧ compensation_legal c
        | None => rc_in_saga ctx = true → ac_effects contract ≠ EffectKind_External
        end
  | Node_Choose _ cases default _ =>
      cases ≠ [] ∧ names_legal (case_name <$> cases) ∧
      Forall (λ c, (region_schemas (case_body c)).2 = (region_schemas default).2) cases
  | Node_WaitSignal signal _ timeout_ms _ _ on_timeout =>
      is_Some (bt_get signal signals) ∧ (is_Some timeout_ms ↔ is_Some on_timeout) ∧
      ∀ ms, timeout_ms = Some ms → 0 < ms ≤ u64_max
  | Node_While _ schema _ max body _ | Node_DoWhile _ schema _ max body _ | Node_Repeat _ _ schema max body _ =>
      loop_legal schema max body
  | Node_Foreach _ schema max_items max_concurrency body _ =>
      require_schema catalog schema = Ok tt ∧ (region_schemas body).1 = schema ∧
      1 ≤ max_items ≤ MAX_LOOP_ITERATIONS ∧ 1 ≤ max_concurrency ≤ MAX_FOREACH_CONCURRENCY
  | Node_Parallel branches _ =>
      1 ≤ zlen branches ≤ MAX_PARALLEL_BRANCHES ∧ names_legal (branch_name <$> branches)
  | _ => True
  end.

(** A compiled region: its context, its path and its depth. *)
Inductive compiled : RegionCtx → list PathSeg → Z → Region → Prop :=
| compiled_region ctx path depth start nodes :
    depth ≤ MAX_NESTING →
    analyze_region (mkRegion path (rc_input_schema ctx) (rc_output_schema ctx) start nodes) ctx catalog = Ok tt →
    (∀ k n, (k, n) ∈ nodes → node_key_parse k = Ok k ∧ node_legal ctx n) →
    (∀ k n seg body ctx', (k, n) ∈ nodes → (seg, body, ctx') ∈ bodies ctx n →
      compiled ctx' (path ++ [PathSeg_Node k; seg]) (depth + 1) body) →
    compiled ctx path depth (mkRegion path (rc_input_schema ctx) (rc_output_schema ctx) start nodes).

Lemma compiled_schemas ctx path depth r :
  compiled ctx path depth r → region_schemas r = (rc_input_schema ctx, rc_output_schema ctx).
Proof. by destruct 1. Qed.

Lemma compiled_ctx_for c ctx path depth r :
  compiled ctx path depth r → ctx = ctx_with (rc_input_schema ctx) (rc_output_schema ctx) c → ctx_for c r = ctx.
Proof. destruct 1. by intros ->. Qed.
End Legal.

(** ** Sizes *)
Fixpoint region_count (r : Region) : Z :=
  let 'mkRegion _ _ _ _ nodes := r in foldr (λ '(_, n) total, 1 + node_count n + total) 0 nodes
with node_count (n : Node) : Z :=
  match n with
  | Node_While _ _ _ _ body _ | Node_DoWhile _ _ _ _ body _ | Node_Repeat _ _ _ _ body _
  | Node_Foreach _ _ _ _ body _ | Node_Saga _ body _ => region_count body
  | Node_Parallel branches _ =>
      foldr (λ b total, region_count (let 'mkParallelBranch _ _ body := b in body) + total) 0 branches
  | Node_Choose _ cases default _ =>
      foldr (λ c total, region_count (let 'mkChooseCase _ _ body := c in body) + total) (region_count default) cases
  | _ => 0
  end.

Fixpoint region_depth (r : Region) : Z :=
  let 'mkRegion _ _ _ _ nodes := r in 1 + foldr (λ '(_, n) deepest, Z.max (node_depth n) deepest) 0 nodes
with node_depth (n : Node) : Z :=
  match n with
  | Node_While _ _ _ _ body _ | Node_DoWhile _ _ _ _ body _ | Node_Repeat _ _ _ _ body _
  | Node_Foreach _ _ _ _ body _ | Node_Saga _ body _ => region_depth body
  | Node_Parallel branches _ =>
      foldr (λ b deepest, Z.max (region_depth (let 'mkParallelBranch _ _ body := b in body)) deepest) 0 branches
  | Node_Choose _ cases default _ =>
      foldr (λ c deepest, Z.max (region_depth (let 'mkChooseCase _ _ body := c in body)) deepest)
        (region_depth default) cases
  | _ => 0
  end.

(** ** Fields

    One field of a compilation step: its value and how it was read. *)
Tactic Notation "field" hyp(Hc) simple_intropattern(x) "as" simple_intropattern(Hx) :=
  first [apply run_bind_ok in Hc as (x & ? & [Hx ->]%lift_ok & Hc) | apply outcome_bind_ok in Hc as (x & Hx & Hc)].
Ltac skip Hc := let unused := fresh "unused" in field Hc unused as _.

Lemma parse_digits_nonneg acc s n : 0 ≤ acc → parse_digits acc s = Some n → 0 ≤ n.
Proof.
  revert acc. induction s as [|c s IH]; simpl; intros acc Hacc Hp; [by simplify_eq|].
  unfold digit_of in Hp. destruct (_ && _) eqn:Hc; [|done]. to_prop. eapply IH; [|exact Hp]. lia.
Qed.

Lemma parse_uint_range max s n : parse_uint max s = Some n → 0 ≤ n ≤ max.
Proof.
  unfold parse_uint. generalize (match s with String "+" rest => rest | _ => s end). intros body Hp.
  destruct (parse_digits 0 body) as [m|] eqn:Hd; [|by destruct body].
  assert (0 ≤ m) by (by eapply parse_digits_nonneg; [|exact Hd]).
  destruct body; [done|]. destruct (m <=? max) eqn:Hm; [|done]. to_prop. simplify_eq. lia.
Qed.

Lemma parse_duration_nonneg text n : parse_duration text = Ok n → 0 ≤ n.
Proof.
  unfold parse_duration, from_secs. destruct (split_digits text) as [digits unit]. intros Hp. ok_inv;
  match goal with H : parse_uint _ _ = Some _ |- _ => apply parse_uint_range in H end; unfold sat_mul64; lia.
Qed.

Lemma duration_to_millis_ok d ms : 0 ≤ d → duration_to_millis d = Ok ms → ms = d ∧ 0 < ms ≤ u64_max.
Proof. unfold duration_to_millis. intros Hd Hm. ok_inv. to_prop. lia. Qed.

Lemma millis_field_ok map key span ms : millis_field map key span = Ok ms → 0 < ms ≤ u64_max.
Proof.
  unfold millis_field. intros Hm. ok_inv. eapply duration_to_millis_ok; [|done]. by eapply parse_duration_nonneg.
Qed.

Lemma as_u32_ok node n : as_u32 node = Ok n → 0 ≤ n ≤ u32_max.
Proof. unfold as_u32, invalid_at. intros Ha. ok_inv. to_prop. lia. Qed.

Lemma u32_field_ok map key span n : u32_field map key span = Ok n → 0 ≤ n ≤ u32_max.
Proof. unfold u32_field. intros Hu. apply outcome_bind_ok in Hu as (? & _ & Hu). by eapply as_u32_ok. Qed.

Lemma parse_attempt_timeout_ok node timeout : parse_attempt_timeout node = Ok timeout → timeout_legal timeout.
Proof.
  unfold parse_attempt_timeout. intros (text & _ & (d & Hd & Ht)%outcome_bind_ok)%outcome_bind_ok.
  apply outcome_bind_ok in Ht as ([] & Hv & Ht). destruct (duration_to_millis d) as [ms| |] eqn:Hms; [|done..].
  simpl in Ht. injection Ht as <-. apply parse_duration_nonneg in Hd.
  apply duration_to_millis_ok in Hms as [-> _]; [|done]. unfold validate_attempt_timeout in Hv.
  destruct (_ || _) eqn:Hr; [done|]. to_prop. exists d. split; [done|lia].
Qed.

Lemma parse_optional_timeout_ok map field default timeout :
  MIN_ATTEMPT_TIMEOUT ≤ default ≤ MAX_ATTEMPT_TIMEOUT →
  parse_optional_timeout map field default = Ok timeout → timeout_legal timeout.
Proof.
  unfold parse_optional_timeout. intros Hd. destruct (bt_get field map); [apply parse_attempt_timeout_ok|].
  unfold duration_to_millis. destruct (_ || _); [done|]. intros [= <-]. by exists default.
Qed.

(** ** Retry policies *)
Lemma retry_validate_ok policy :
  0 ≤ rp_max_attempts policy → 0 ≤ initial_ms (rp_backoff policy) → retry_validate policy = Ok tt →
  1 ≤ rp_max_attempts policy ≤ MAX_ATTEMPT_BUDGET ∧
  0 < initial_ms (rp_backoff policy) ≤ max_ms (rp_backoff policy) ∧
  1000 ≤ multiplier_millis (rp_backoff policy) ≤ 10000.
Proof.
  unfold retry_validate, backoff_validate. intros Ha Hi Hv. ok_inv. to_prop. lia.
Qed.

Lemma check_retry_code_ok contract code :
  check_retry_code contract code = Ok tt →
  ∃ spec, spec ∈ ac_error_codes contract ∧ ec_code spec = code ∧ ec_retryable spec = true.
Proof.
  unfold check_retry_code, known_code. intros Hc.
  destruct (lfind _ _) as [spec|] eqn:Hf; [|done]. destruct (ec_retryable spec) eqn:Hr; [|done].
  apply lfind_Some in Hf as (l1 & l2 & Hl & Hp & _). to_prop. exists spec. rewrite Hl. set_solver.
Qed.

Lemma retryable_codes_known contract code :
  code ∈ retryable_codes contract → ∃ spec, spec ∈ ac_error_codes contract ∧ ec_code spec = code ∧ ec_retryable spec = true.
Proof.
  unfold retryable_codes. intros (spec & -> & Hs)%list_elem_of_fmap. exists spec.
  apply list_elem_of_In, filter_In in Hs as [Hs Hr]. by apply list_elem_of_In in Hs.
Qed.

Lemma parse_retry_errors_ok map contract default codes :
  parse_retry_errors map contract default = Ok codes →
  codes = default ∨ ∀ code, code ∈ codes →
    ∃ spec, spec ∈ ac_error_codes contract ∧ ec_code spec = code ∧ ec_retryable spec = true.
Proof.
  unfold parse_retry_errors. destruct (bt_get "errors" map) as [errors|]; [|intros [= <-]; by left].
  destruct (spanned_doc errors); try done. intros (codes' & _ & Hc)%outcome_bind_ok.
  apply outcome_map_then in Hc as [Hall [= <-]]. right. rewrite Forall_forall in Hall.
  intros code Hin. by apply check_retry_code_ok, Hall.
Qed.

Lemma parse_backoff_ok map default backoff :
  0 ≤ initial_ms default → parse_backoff map default = Ok backoff → 0 ≤ initial_ms backoff.
Proof.
  unfold parse_backoff. intros Hd. destruct (bt_get "backoff" map); [|by intros [= <-]]. intros Hb. ok_inv.
  match goal with H : millis_field _ "initial" _ = Ok _ |- _ => apply millis_field_ok in H end. lia.
Qed.

Lemma parse_retry_legal map contract compensation retry :
  parse_retry map contract compensation = Ok retry → retry_legal contract retry.
Proof.
  unfold parse_retry. set (d := if compensation then _ else _). intros Hr.
  assert (0 ≤ rp_max_attempts d ∧ 0 ≤ initial_ms (rp_backoff d) ∧ ∀ code, code ∈ rp_errors d →
    ∃ spec, spec ∈ ac_error_codes contract ∧ ec_code spec = code ∧ ec_retryable spec = true) as (Ha & Hi & He).
  { subst d. destruct compensation; (split; [by vm_compute|split; [by vm_compute|]]); [apply retryable_codes_known|].
    intros code Hin. by apply elem_of_nil in Hin. }
  clearbody d. apply outcome_bind_ok in Hr as (policy & Hp & ([] & Hv & [= <-])%outcome_bind_ok).
  assert (0 ≤ rp_max_attempts policy ∧ 0 ≤ initial_ms (rp_backoff policy) ∧ ∀ code, code ∈ rp_errors policy →
    ∃ spec, spec ∈ ac_error_codes contract ∧ ec_code spec = code ∧ ec_retryable spec = true) as (Ha' & Hi' & He').
  { destruct (bt_get "retry" map) as [node|]; [|by simplify_eq].
    apply outcome_bind_ok in Hp as (retry_map & _ & (_ & _ & (errors & Her & Hp)%outcome_bind_ok)%outcome_bind_ok).
    apply outcome_bind_ok in Hp as (max & Hm & (backoff & Hb & [= <-])%outcome_bind_ok). simpl. split_and!.
    - destruct (bt_get "max_attempts" retry_map); [by apply as_u32_ok in Hm as [? _]|by simplify_eq].
    - by eapply parse_backoff_ok.
    - by apply parse_retry_errors_ok in Her as [->|Her]. }
  apply retry_validate_ok in Hv as (Hm & Hb & Hx); [|done..]. exact (conj Hm (conj Hb (conj Hx He'))).
Qed.

(** ** Activities and leaves *)
Section Sound.
Context `{Platform} `{CatalogSerde} `{Serde}.
Variables (catalog : Catalog) (signals : list (string * SchemaRef)).

Lemma parse_compensation_legal node c : parse_compensation catalog node = Ok c → compensation_legal catalog c.
Proof.
  unfold parse_compensation, invalid_at. intros Hc. apply outcome_bind_ok in Hc as (map & _ & (kind & _ & Hc)%outcome_bind_ok).
  case_bool_decide; [by ok_inv|]. case_bool_decide; [|done].
  apply outcome_bind_ok in Hc as (_ & _ & (activity & _ & (contract & Hk & (input & _ & Hc)%outcome_bind_ok)%outcome_bind_ok)%outcome_bind_ok).
  destruct (negb (forallb _ _)) eqn:Hf; [done|].
  apply outcome_bind_ok in Hc as (timeout & Ht & (retry & Hr & [= <-])%outcome_bind_ok). exists contract, retry.
  split; [done|]. split; [by eapply parse_optional_timeout_ok; [|exact Ht]|]. split; [done|].
  split; [by eapply parse_retry_legal|]. intros ref Href. apply negb_false_iff, forallb_forall with (x := ref) in Hf; [done|].
  by apply list_elem_of_In.
Qed.

Lemma compile_activity_legal map span ctx n :
  compile_activity catalog map span ctx = Ok n → node_legal catalog signals ctx n ∧ bodies ctx n = [] ∧ node_count n = 0.
Proof.
  unfold compile_activity, invalid_at. intros (_ & _ & (activity & _ & (contract & Hk & Hc)%outcome_bind_ok)%outcome_bind_ok)%outcome_bind_ok.
  apply outcome_bind_ok in Hc as (input & _ & (next & _ & (timeout & Ht & Hc)%outcome_bind_ok)%outcome_bind_ok).
  apply outcome_bind_ok in Hc as (retry & Hr & (compensation & Hx & [= <-])%outcome_bind_ok).
  split; [|done]. exists contract. split; [done|]. split; [by eapply parse_optional_timeout_ok; [|exact Ht]|].
  split; [by eapply parse_retry_legal|]. destruct (bt_get "compensation" map) as [node|].
  - destruct (rc_in_saga ctx); [|done]. simpl in Hx. destruct (parse_compensation _ _) as [c| |] eqn:Hp; [|done..].
    injection Hx as <-. split; [done|]. by apply parse_compensation_legal in Hp.
  - destruct (rc_in_saga ctx && _) eqn:Hs; [done|]. injection Hx as <-. intros Hsaga. rewrite Hsaga in Hs.
    by apply bool_decide_eq_false in Hs.
Qed.

Lemma compile_wait_signal_legal map span ctx n :
  compile_wait_signal map span signals = Ok n → node_legal catalog signals ctx n ∧ bodies ctx n = [] ∧ node_count n = 0.
Proof.
  unfold compile_wait_signal, invalid_at. intros (_ & _ & (signal & _ & Hc)%outcome_bind_ok)%outcome_bind_ok.
  destruct (bt_contains signal signals) eqn:Hs; [|done]. apply bool_decide_eq_true in Hs. simpl in Hc.
  apply outcome_bind_ok in Hc as (node & _ & (timeout & Ht & (on_timeout & _ & Hc)%outcome_bind_ok)%outcome_bind_ok).
  assert (∀ ms, timeout = Some ms → 0 < ms ≤ u64_max) as Hms.
  { intros ms ->. destruct (spanned_doc node); try done. apply outcome_bind_ok in Ht as (d & Hd & Ht).
    destruct (duration_to_millis d) as [ms'| |] eqn:Hm; simplify_eq/=. apply parse_duration_nonneg in Hd.
    by eapply duration_to_millis_ok. }
  assert (is_Some timeout ↔ is_Some on_timeout) as Hboth.
  { destruct timeout, on_timeout; try done; by split. }
  destruct timeout, on_timeout; try done;
    apply outcome_bind_ok in Hc as (from & _ & (key & _ & (next & _ & [= <-])%outcome_bind_ok)%outcome_bind_ok); done.
Qed.

Lemma compile_delay_legal map span ctx n :
  compile_delay map span = Ok n → node_legal catalog signals ctx n ∧ bodies ctx n = [] ∧ node_count n = 0.
Proof.
  unfold compile_delay. intros (_ & _ & (node & _ & (duration & _ & (next & _ & [= <-])%outcome_bind_ok)%outcome_bind_ok)%outcome_bind_ok)%outcome_bind_ok.
  done.
Qed.

Lemma compile_wait_until_legal map span ctx n :
  compile_wait_until map span = Ok n → node_legal catalog signals ctx n ∧ bodies ctx n = [] ∧ node_count n = 0.
Proof.
  unfold compile_wait_until. by intros (_ & _ & (at_ & _ & (next & _ & [= <-])%outcome_bind_ok)%outcome_bind_ok)%outcome_bind_ok.
Qed.

Lemma compile_complete_legal map span ctx n :
  compile_complete map span = Ok n → node_legal catalog signals ctx n ∧ bodies ctx n = [] ∧ node_count n = 0.
Proof. unfold compile_complete. by intros (_ & _ & (output & _ & [= <-])%outcome_bind_ok)%outcome_bind_ok. Qed.

Lemma compile_fail_legal map span ctx n :
  compile_fail map span = Ok n → node_legal catalog signals ctx n ∧ bodies ctx n = [] ∧ node_count n = 0.
Proof.
  unfold compile_fail. intros (_ & _ & (error & _ & (error_map & _ & Hc)%outcome_bind_ok)%outcome_bind_ok)%outcome_bind_ok.
  by apply outcome_bind_ok in Hc as (_ & _ & (code & _ & (message & _ & [= <-])%outcome_bind_ok)%outcome_bind_ok).
Qed.

(** ** Nodes with regions *)

(** What the compilation of a node gives: it is legal, its bodies are compiled
    one level deeper, and the counter covers their nodes. *)
Definition node_compiled (path : list PathSeg) (ctx : RegionCtx) (depth : Z) (c : Z) (n : Node) (c' : Z) : Prop :=
  node_legal catalog signals ctx n ∧ c + node_count n ≤ c' ∧
  ∀ seg body ctx', (seg, body, ctx') ∈ bodies ctx n → compiled catalog signals ctx' (path ++ [seg]) (depth + 1) body.

Section Bodies.
Variable compile_body : fields → Span → list PathSeg → RegionCtx → Z → Run Z Region.
Hypothesis compile_body_ok : ∀ map span path ctx depth c r c',
  compile_body map span path ctx depth c = Ok (r, c') →
  compiled catalog signals ctx path depth r ∧ c + region_count r ≤ c'.

Lemma compile_loop_ok map span path ctx depth kind c n c' :
  compile_loop catalog compile_body map span path ctx depth kind c = Ok (n, c') → node_compiled path ctx depth c n c'.
Proof.
  unfold compile_loop, invalid_at. intros Hc.
  skip Hc.
  field Hc schema as _.
  field Hc [] as Hschema.
  field Hc max as Hmax%u32_field_ok.
  destruct (_ || _) eqn:Hrange in Hc; [done|]. destruct (is_do_while kind && _); [done|].
  field Hc node as _.
  field Hc body_map as _. cbv zeta in Hc.
  field Hc input as _.
  field Hc output as _.
  destruct (_ || _) eqn:Hsame in Hc; [done|]. to_prop. subst.
  apply run_bind_ok in Hc as (body & c1 & Hbody & Hc). apply compile_body_ok in Hbody as [Hbody Hcount].
  field Hc next as _.
  field Hc state as _.
  assert (loop_legal catalog schema max body) as Hlegal.
  { split; [done|]. split; [lia|]. by rewrite (compiled_schemas _ _ _ _ _ _ Hbody). }
  assert (∀ seg b ctx', (seg, b, ctx') ∈ [(PathSeg_Body, body, ctx_for (ctx_in_loop ctx) body)] →
    compiled catalog signals ctx' (path ++ [seg]) (depth + 1) b) as Hbodies.
  { intros seg b ctx' [= -> -> ->]%list_elem_of_singleton. erewrite compiled_ctx_for; [exact Hbody|exact Hbody|done]. }
  destruct kind; skip Hc; apply run_ret_ok in Hc as [-> ->]; by split_and!.
Qed.

Lemma compile_foreach_ok map span path ctx depth c n c' :
  compile_foreach catalog compile_body map span path ctx depth c = Ok (n, c') → node_compiled path ctx depth c n c'.
Proof.
  unfold compile_foreach, invalid_at. intros Hc.
  skip Hc.
  field Hc schema as _.
  field Hc [] as Hschema.
  field Hc max as Hmax%u32_field_ok.
  destruct (_ || _) eqn:Hrange in Hc; [done|].
  field Hc conc as Hconc%u32_field_ok.
  destruct (_ || _) eqn:Hcr in Hc; [done|]. to_prop.
  field Hc node as _.
  field Hc body_map as _. cbv zeta in Hc.
  field Hc input as _. destruct (negb _) eqn:Hsame in Hc; [done|]. to_prop. subst.
  field Hc output as _.
  skip Hc.
  apply run_bind_ok in Hc as (body & c1 & Hbody & Hc). apply compile_body_ok in Hbody as [Hbody Hcount].
  field Hc items as _.
  apply run_bind_ok in Hc as (next & ? & [_ ->]%lift_ok & [-> ->]%run_ret_ok).
  split; [|split; [done|]].
  - split; [done|]. split; [by rewrite (compiled_schemas _ _ _ _ _ _ Hbody)|]. lia.
  - intros seg b ctx' [= -> -> ->]%list_elem_of_singleton. erewrite compiled_ctx_for; [exact Hbody|exact Hbody|done].
Qed.

Lemma compile_saga_ok map span path ctx depth c n c' :
  compile_saga catalog compile_body map span path ctx depth c = Ok (n, c') → node_compiled path ctx depth c n c'.
Proof.
  unfold compile_saga. intros Hc.
  skip Hc.
  field Hc node as _.
  field Hc body_map as _.
  field Hc schemas as _.
  apply run_bind_ok in Hc as (body & c1 & Hbody & Hc). apply compile_body_ok in Hbody as [Hbody Hcount].
  field Hc input as _.
  apply run_bind_ok in Hc as (next & ? & [_ ->]%lift_ok & [-> ->]%run_ret_ok).
  split; [done|]. split; [done|].
  intros seg b ctx' [= -> -> ->]%list_elem_of_singleton. erewrite compiled_ctx_for; [exact Hbody|exact Hbody|done].
Qed.

Lemma foldr_total_snoc {A} (f : A → Z) start l x :
  foldr (λ x total, f x + total) start (l ++ [x]) = foldr (λ x total, f x + total) start l + f x.
Proof. induction l; simpl; lia. Qed.

Definition branches_count (branches : list ParallelBranch) : Z :=
  foldr (λ b total, region_count (branch_body b) + total) 0 branches.
Definition cases_count (start : Z) (cases : list ChooseCase) : Z :=
  foldr (λ c total, region_count (case_body c) + total) start cases.

Lemma compile_branch_ok path ctx depth branches names item c acc c' :
  compile_branch catalog compile_body path ctx depth (branches, names) item c = Ok (acc, c') →
  ∃ b, acc = (branches ++ [b], branch_name b :: names) ∧ branch_name b ∉ names ∧
    valid_ascii_name (branch_name b) = true ∧ c + region_count (branch_body b) ≤ c' ∧
    compiled catalog signals (ctx_for ctx (branch_body b)) (path ++ [PathSeg_Branch (branch_name b)]) (depth + 1)
      (branch_body b).
Proof.
  unfold compile_branch, invalid_at. intros Hc.
  field Hc branch_map as _. skip Hc. field Hc name as _. destruct (_ || _) eqn:Hname in Hc; [done|]. to_prop.
  field Hc node as _. field Hc body_map as _. field Hc schemas as _.
  apply run_bind_ok in Hc as (body & c1 & Hbody & Hc). apply compile_body_ok in Hbody as [Hbody Hcount].
  field Hc input as _. apply run_ret_ok in Hc as [-> ->]. exists (mkParallelBranch name input body). simpl.
  split_and!; try done. erewrite compiled_ctx_for; [exact Hbody|exact Hbody|done].
Qed.

Lemma compile_case_ok path ctx depth cases names output item c acc c' :
  compile_case catalog compile_body path ctx depth (cases, names, output) item c = Ok (acc, c') →
  ∃ x, acc = (cases ++ [x], case_name x :: names, Some (region_schemas (case_body x)).2) ∧ case_name x ∉ names ∧
    (∀ o, output = Some o → (region_schemas (case_body x)).2 = o) ∧
    valid_ascii_name (case_name x) = true ∧ c + region_count (case_body x) ≤ c' ∧
    compiled catalog signals (ctx_for ctx (case_body x)) (path ++ [PathSeg_Case (case_name x)]) (depth + 1)
      (case_body x).
Proof.
  unfold compile_case, invalid_at. intros Hc.
  field Hc case_map as _. skip Hc. field Hc name as _. destruct (_ || _) eqn:Hname in Hc; [done|]. to_prop.
  field Hc node as _. field Hc body_map as _. field Hc schemas as _.
  destruct (match output with Some _ => _ | None => _ end) eqn:Hout in Hc; [done|].
  apply run_bind_ok in Hc as (body & c1 & Hbody & Hc). apply compile_body_ok in Hbody as [Hbody Hcount].
  field Hc when as _. apply run_ret_ok in Hc as [-> ->]. exists (mkChooseCase name when body). simpl.
  rewrite (compiled_schemas _ _ _ _ _ _ Hbody). simpl.
  assert (∀ o, output = Some o → schemas.2 = o) as Ho by (intros o ->; to_prop; done).
  split_and!; try done.
  - destruct output as [o|]; simpl; [|done]. by rewrite (Ho o).
  - erewrite compiled_ctx_for; [exact Hbody|exact Hbody|done].
Qed.

Lemma names_legal_nil : names_legal [].
Proof. split; [apply NoDup_nil_2|constructor]. Qed.

Lemma names_legal_snoc (names l : list string) name :
  reverse names = l → name ∉ names → valid_ascii_name name = true → names_legal l → names_legal (l ++ [name]).
Proof.
  intros <- Hn Hv [Hnd Hall]. split.
  - apply NoDup_app. split; [done|]. split; [|apply NoDup_singleton]. intros x Hx ->%list_elem_of_singleton.
    by rewrite elem_of_reverse in Hx.
  - apply Forall_app. by split; [|constructor].
Qed.

Lemma compile_parallel_ok map span path ctx depth c n c' :
  compile_parallel catalog compile_body map span path ctx depth c = Ok (n, c') → node_compiled path ctx depth c n c'.
Proof.
  unfold compile_parallel, invalid_at. intros Hc.
  skip Hc. field Hc node as _. destruct (spanned_doc node) as [| | | |items|]; try done.
  destruct (_ || _) eqn:Hlen in Hc; [done|]. to_prop. apply run_bind_ok in Hc as ([branches names] & c1 & Hf & Hc).
  field Hc next as _. apply run_ret_ok in Hc as [-> ->].
  apply (run_fold_ind (λ done_ acc c1, length acc.1 = length done_ ∧ reverse acc.2 = branch_name <$> acc.1 ∧
    names_legal (branch_name <$> acc.1) ∧ c + branches_count acc.1 ≤ c1 ∧
    Forall (λ b, compiled catalog signals (ctx_for ctx (branch_body b)) (path ++ [PathSeg_Branch (branch_name b)])
      (depth + 1) (branch_body b)) acc.1)) in Hf.
  - simpl in *. destruct Hf as (Hl & _ & Hnames & Hcount & Hall). split.
    + split; [|done]. unfold zlen in *. rewrite Hl. destruct items; [done|]. simpl in *. lia.
    + split; [done|]. intros seg body ctx' (b & [= -> -> ->] & Hb)%list_elem_of_fmap.
      rewrite Forall_forall in Hall. by apply Hall.
  - intros l1 [bs ns] c2 item acc c3 _ (Hl & Hr & Hnames & Hcount & Hall) Hb. clear Hf.
    apply compile_branch_ok in Hb as (b & -> & Hn & Hv & Hcb & Hcomp). simpl in *.
    split; [rewrite !length_app; simpl; lia|]. rewrite fmap_app, reverse_cons, Hr. split; [done|].
    split; [by apply (names_legal_snoc ns)|]. split; [|by apply Forall_app; split; [|constructor]].
    unfold branches_count in *. rewrite foldr_total_snoc. lia.
  - simpl. split_and!; try done; [apply names_legal_nil|unfold branches_count; simpl; lia].
Qed.

Lemma compile_choose_ok map span path ctx depth c n c' :
  compile_choose catalog compile_body map span path ctx depth c = Ok (n, c') → node_compiled path ctx depth c n c'.
Proof.
  unfold compile_choose, invalid_at. intros Hc.
  skip Hc. field Hc node as _. destruct (spanned_doc node) as [| | | |items|]; try done.
  destruct (bool_decide (items = [])) eqn:Hempty; [done|]. to_prop.
  apply run_bind_ok in Hc as ([[cases names] output] & c1 & Hf & Hc).
  field Hc default_node as _. field Hc default_map as _. cbv zeta in Hc.
  field Hc input as _. field Hc out as _. destruct (negb _) eqn:Hout in Hc; [done|]. to_prop. simpl in Hout. subst output.
  apply run_bind_ok in Hc as (default & c2 & Hdef & Hc). apply compile_body_ok in Hdef as [Hdef Hcount].
  field Hc binding as _. field Hc next as _. apply run_ret_ok in Hc as [-> ->].
  apply (run_fold_ind (λ done_ acc c1, length acc.1.1 = length done_ ∧ reverse acc.1.2 = case_name <$> acc.1.1 ∧
    names_legal (case_name <$> acc.1.1) ∧ c + cases_count 0 acc.1.1 ≤ c1 ∧
    Forall (λ x, acc.2 = Some (region_schemas (case_body x)).2) acc.1.1 ∧
    Forall (λ x, compiled catalog signals (ctx_for ctx (case_body x)) (path ++ [PathSeg_Case (case_name x)])
      (depth + 1) (case_body x)) acc.1.1)) in Hf.
  - cbn [fst snd] in *. destruct Hf as (Hl & _ & Hnames & Hcc & Hsame & Hall). split; [|split].
    + split; [intros ->; by destruct items|]. split; [done|]. rewrite (compiled_schemas _ _ _ _ _ _ Hdef).
      eapply Forall_impl; [exact Hsame|]. by intros ? [= <-].
    + clear -Hcount Hcc. enough (node_count (Node_Choose binding cases default next) =
        cases_count 0 cases + region_count default) as -> by lia.
      cbn [node_count cases_count foldr]. unfold cases_count. clear. induction cases as [|[] cases IH]; simpl in *; lia.
    + intros seg body ctx' [(case & [= -> -> ->] & Hcase)%list_elem_of_fmap|[= -> -> ->]%list_elem_of_singleton]%elem_of_app.
      * rewrite Forall_forall in Hall. by apply Hall.
      * erewrite compiled_ctx_for; [exact Hdef|exact Hdef|done].
  - intros l1 [[xs ns] o] c3 item acc c4 _ (Hl & Hr & Hnames & Hcc & Hsame & Hall) Hb. clear Hf.
    apply compile_case_ok in Hb as (x & -> & Hn & Ho & Hv & Hcb & Hcomp). simpl in *.
    split; [rewrite !length_app; simpl; lia|]. rewrite fmap_app, reverse_cons, Hr. split; [done|].
    split; [by apply (names_legal_snoc ns)|]. split; [unfold cases_count in *; rewrite foldr_total_snoc; lia|].
    split; apply Forall_app; (split; [|by constructor]); [|done].
    eapply Forall_impl; [exact Hsame|]. simpl. intros y Hy. by rewrite (Ho _ Hy).
  - simpl. split_and!; try done; [apply names_legal_nil|unfold cases_count; simpl; lia].
Qed.

Lemma leaf_compiled path ctx depth c n :
  node_legal catalog signals ctx n ∧ bodies ctx n = [] ∧ node_count n = 0 → node_compiled path ctx depth c n c.
Proof. intros (? & Hb & Hn). split; [done|]. rewrite Hn, Hb. split; [lia|]. intros ? ? ? []%elem_of_nil. Qed.

Lemma compile_node_ok node path ctx depth c n c' :
  compile_node catalog signals compile_body node path ctx depth c = Ok (n, c') → node_compiled path ctx depth c n c'.
Proof.
  unfold compile_node, invalid_at. intros Hc. field Hc map as _. cbv zeta in Hc. field Hc kind as _.
  repeat (case_bool_decide; [first
    [ by apply compile_choose_ok in Hc | by apply compile_loop_ok in Hc | by apply compile_foreach_ok in Hc
    | by apply compile_parallel_ok in Hc | by apply compile_saga_ok in Hc
    | apply lift_ok in Hc as [Hc ->]; apply leaf_compiled; first
        [ by eapply compile_activity_legal | by eapply compile_delay_legal | by eapply compile_wait_until_legal
        | by eapply compile_wait_signal_legal | by eapply compile_complete_legal | by eapply compile_fail_legal ] ]
    |clear H2]).
  done.
Qed.
End Bodies.

(** ** Regions *)
Lemma node_count_bodies ctx n :
  (∀ seg body ctx', (seg, body, ctx') ∈ bodies ctx n → 0 ≤ region_count body) → 0 ≤ node_count n.
Proof.
  destruct n as [|? cases default ?| | | | | | | | | |branches ?|]; simpl; intros Hb; try done;
    try by eapply Hb, list_elem_of_singleton.
  - assert (0 ≤ region_count default) as Hd by (eapply Hb, elem_of_app; right; by apply list_elem_of_singleton).
    assert (∀ c, c ∈ cases → 0 ≤ region_count (case_body c)) as Hc.
    { intros c Hc. eapply Hb, elem_of_app. left. apply list_elem_of_fmap. by exists c. }
    clear Hb. induction cases as [|[name when body] cases IH]; simpl; [done|].
    pose proof (Hc (mkChooseCase name when body)) as Hx. simpl in Hx.
    assert (0 ≤ region_count body) by (apply Hx; by left). specialize (IH (λ c H, Hc c (list_elem_of_further _ _ _ H))). lia.
  - assert (∀ b, b ∈ branches → 0 ≤ region_count (branch_body b)) as Hc.
    { intros b Hin. eapply Hb. apply list_elem_of_fmap. by exists b. }
    clear Hb. induction branches as [|[name input body] branches IH]; simpl; [done|].
    pose proof (Hc (mkParallelBranch name input body)) as Hx. simpl in Hx.
    assert (0 ≤ region_count body) by (apply Hx; by left). specialize (IH (λ c H, Hc c (list_elem_of_further _ _ _ H))). lia.
Qed.

Definition nodes_count (nodes : list (string * Node)) : Z := foldr (λ '(_, n) total, 1 + node_count n + total) 0 nodes.

Lemma compiled_count ctx path depth r : compiled catalog signals ctx path depth r → 0 ≤ region_count r.
Proof.
  induction 1 as [ctx path depth start nodes _ _ _ _ IH]. simpl.
  assert (∀ k n, (k, n) ∈ nodes → 0 ≤ node_count n) as Hn.
  { intros k n Hin. apply (node_count_bodies ctx). intros seg body ctx'. by apply IH with (k := k). }
  clear IH. induction nodes as [|[k n] nodes IHn]; simpl; [done|].
  assert (0 ≤ node_count n) by (apply (Hn k); by left).
  specialize (IHn (λ k n H, Hn k n (list_elem_of_further _ _ _ H))). lia.
Qed.

Lemma nodes_count_insert k n nodes :
  (∀ k n, (k, n) ∈ nodes → 0 ≤ node_count n) → nodes_count (str_insert k n nodes) ≤ 1 + node_count n + nodes_count nodes.
Proof.
  unfold str_insert. induction nodes as [|[k' n'] nodes IH]; simpl; intros Hn; [lia|].
  assert (0 ≤ node_count n') by (apply (Hn k'); by left).
  specialize (IH (λ k n H, Hn k n (list_elem_of_further _ _ _ H))).
  destruct (String.compare k k'); simpl; lia.
Qed.

Lemma compile_region_ok fuel is_root map span path ctx depth c r c' :
  compile_region catalog fuel signals is_root map span path ctx depth c = Ok (r, c') →
  compiled catalog signals ctx path depth r ∧ c + region_count r ≤ c'.
Proof.
  revert is_root map span path ctx depth c r c'. induction fuel as [|fuel IH];
    intros is_root map span path ctx depth c r c' Hc; [done|]. cbn [compile_region] in Hc. unfold invalid_at in Hc.
  destruct (MAX_NESTING <? depth) eqn:Hdepth; [done|]. to_prop.
  skip Hc. field Hc start as _. field Hc nodes_node as _. field Hc nodes_map as _.
  apply run_bind_ok in Hc as (nodes & c1 & Hf & Hc). destruct (negb _); [done|].
  field Hc checked as Hcheck. apply run_ret_ok in Hc as [-> ->]. destruct checked.
  apply (run_fold_ind (λ _ nodes c1, c + nodes_count nodes ≤ c1 ∧ ∀ k n, (k, n) ∈ nodes →
    node_key_parse k = Ok k ∧ node_compiled (path ++ [PathSeg_Node k]) ctx depth 0 n (node_count n))) in Hf.
  - destruct Hf as [Hcount Hall]. split; [|exact Hcount]. constructor; [done|done| |].
    + intros k n Hin. apply Hall in Hin as [? [? _]]. done.
    + intros k n seg body ctx' Hin Hb. apply Hall in Hin as [_ (_ & _ & Hin)]. apply Hin in Hb.
      by rewrite <-app_assoc in Hb.
  - clear Hf Hcheck. intros _ nodes' c2 [key node] nodes'' c3 _ [Hcount Hall] He.
    unfold compile_entry in He. field He parsed as Hk.
    assert (parsed = key) as -> by (unfold node_key_parse in Hk; ok_inv; done).
    apply run_bind_ok in He as ([] & c4 & [= <-] & He). apply run_bind_ok in He as (n & c5 & Hn & He).
    apply run_ret_ok in He as [-> ->].
    apply compile_node_ok in Hn as (Hlegal & Hnc & Hbodies); [|intros *; apply IH]. split.
    + assert (nodes_count (str_insert key n nodes') ≤ 1 + node_count n + nodes_count nodes'); [|lia].
      apply nodes_count_insert. intros k n' Hin. apply Hall in Hin as [_ (_ & _ & Hin)].
      apply (node_count_bodies ctx). intros seg body ctx' Hb. by eapply compiled_count, Hin.
    + intros k n' [[= -> ->]|Hin]%bt_insert_elem; [|by apply Hall].
      split; [done|]. split; [done|]. split; [lia|done].
  - split; [by unfold nodes_count; simpl; lia|]. intros k n []%elem_of_nil.
Qed.
End Sound.

(** ** Compiled definitions *)
Section Compiled.
Context `{Platform} `{CatalogSerde} `{Serde}.
Variable catalog : Catalog.

Record definition_compiled (d : Definition_) : Prop := mkDefinitionCompiled {
  dc_format : def_format_version d = FORMAT_VERSION ∧ def_dsl d = DSL;
  dc_id : valid_ascii_name (def_id d) = true;
  dc_version : 0 < def_version d ≤ u32_max;
  dc_schemas : require_schema catalog (def_input_schema d) = Ok tt ∧ require_schema catalog (def_output_schema d) = Ok tt;
  dc_timeout : ∀ ms, def_run_timeout_ms d = Some ms → ms ≤ MAX_RUN_TIMEOUT;
  dc_root : compiled catalog (def_signals d) (root_ctx (def_input_schema d) (def_output_schema d)) region_path_root 1
    (def_root d);
  dc_count : region_count (def_root d) ≤ MAX_NODES;
  dc_digest : digest_of (with_digest d "") = Ok (def_digest d);
}.

Lemma compile_spanned_ok root d : compile_spanned catalog root = Ok d → definition_compiled d.
Proof.
  unfold compile_spanned, invalid_at. cbv zeta. intros Hc. field Hc map as _. skip Hc. field Hc dsl as _.
  destruct (negb _); [done|]. field Hc id as _. destruct (negb (valid_ascii_name id)) eqn:Hid; [done|].
  field Hc version as Hversion%u32_field_ok. destruct (version =? 0) eqn:Hzero; [done|].
  field Hc input as _. field Hc output as _. field Hc checked as Hin. field Hc checked' as Hout.
  field Hc timeout as _. destruct (match timeout with Some _ => _ | None => _ end) eqn:Ht; [done|].
  field Hc signals as _. field Hc compiled_root as Hr. destruct compiled_root as [region nodes].
  destruct (MAX_NODES <? nodes) eqn:Hcount; [done|]. field Hc digest as Hdigest. injection Hc as <-. to_prop.
  apply compile_region_ok in Hr as [Hr Hn]. destruct checked, checked'.
  split; simpl; try done; try lia. by intros ms ->; to_prop.
Qed.

(** *** The check of publications *)
Lemma compiled_analyzed signals ctx path depth r :
  compiled catalog signals ctx path depth r → analyze_tree r ctx catalog = Ok tt.
Proof.
  induction 1 as [ctx path depth start nodes _ Ha _ _ IH]. apply analyze_tree_ok. split; [done|].
  apply Forall_forall. intros [k n] Hin. simpl. apply analyze_children_ok. rewrite child_contexts_bodies, Forall_fmap.
  apply Forall_forall. intros [[seg body] ctx'] Hb. simpl. by eapply IH.
Qed.

(** C27: the nodes of a compiled definition are legal. In every region of its
    tree and for every node there: the key is a node key; an activity is in the
    catalog, its timeout and its retry policy are within their limits, it only
    retries codes its contract calls retryable, it has a compensation only in a
    saga, and always there when its effects are external; a wait names a
    declared signal and has a timeout exactly when it has a way out for it; loops
    and foreach are within their limits and their bodies have the right schemas;
    branches and cases have distinct valid names, and cases one output schema. *)
Theorem compiled_nodes_are_legal root d r ctx k n :
  compile_spanned catalog root = Ok d →
  sub_region (def_root d) (root_ctx (def_input_schema d) (def_output_schema d)) r ctx → (k, n) ∈ region_nodes r →
  node_key_parse k = Ok k ∧ node_legal catalog (def_signals d) ctx n.
Proof.
  intros Hd%compile_spanned_ok Hsub. assert (∃ path depth, compiled catalog (def_signals d) ctx path depth r) as (path & depth & Hr).
  { induction Hsub as [|r ctx k' node child child_ctx _ (path & depth & IH) Hnode Hchild].
    - eexists _, _. apply (dc_root _ Hd).
    - rewrite child_contexts_bodies in Hchild. apply list_elem_of_fmap in Hchild as ([[seg body] ctx'] & [= -> ->] & Hb).
      inversion IH as [? ? ? ? ? _ _ _ Hbodies]; subst. eexists _, _. by eapply Hbodies. }
  inversion Hr as [? ? ? ? ? _ _ Hnodes _]; subst. simpl. apply Hnodes.
Qed.

(** *** Limits *)
Lemma node_depth_bodies ctx n limit :
  0 ≤ limit → (∀ seg body ctx', (seg, body, ctx') ∈ bodies ctx n → region_depth body ≤ limit) → node_depth n ≤ limit.
Proof.
  intros Hlimit. destruct n as [|? cases default ?| | | | | | | | | |branches ?|]; simpl; intros Hb; try done;
    try by eapply Hb, list_elem_of_singleton.
  - assert (region_depth default ≤ limit) as Hd by (eapply Hb, elem_of_app; right; by apply list_elem_of_singleton).
    assert (Forall (λ c, region_depth (case_body c) ≤ limit) cases) as Hc.
    { apply Forall_forall. intros c Hc. eapply Hb, elem_of_app. left. apply list_elem_of_fmap. by exists c. }
    clear Hb. induction Hc as [|[name when body] cases Hx _ IH]; simpl in *; lia.
  - assert (Forall (λ b, region_depth (branch_body b) ≤ limit) branches) as Hc.
    { apply Forall_forall. intros b Hin. eapply Hb. apply list_elem_of_fmap. by exists b. }
    clear Hb. induction Hc as [|[name input body] branches Hx _ IH]; simpl in *; lia.
Qed.

Lemma compiled_depth signals ctx path depth r :
  compiled catalog signals ctx path depth r → region_depth r ≤ MAX_NESTING - depth + 1.
Proof.
  induction 1 as [ctx path depth start nodes Hdepth _ _ _ IH]. simpl.
  assert (Forall (λ e, node_depth e.2 ≤ MAX_NESTING - depth) nodes) as Hn.
  { apply Forall_forall. intros [k n] Hin. apply (node_depth_bodies ctx); [lia|]. intros seg body ctx' Hb.
    specialize (IH k n seg body ctx' Hin Hb). simpl. lia. }
  clear IH. induction Hn as [|[k n] nodes Hx _ IHn]; simpl in *; lia.
Qed.

(** A compiled definition is bounded. Its regions nest at most eight deep,
    it has at most 512 nodes over all of them, and a run of it at most a year. *)
Theorem compiled_definition_is_bounded root d :
  compile_spanned catalog root = Ok d →
  region_depth (def_root d) ≤ MAX_NESTING ∧ 0 ≤ region_count (def_root d) ≤ MAX_NODES ∧
  ∀ ms, def_run_timeout_ms d = Some ms → ms ≤ 365 * 24 * 60 * 60 * 1000.
Proof.
  intros Hd%compile_spanned_ok. pose proof (dc_root _ Hd) as Hr. split; [|split; [split|]].
  - apply compiled_depth in Hr. lia.
  - by eapply compiled_count.
  - apply (dc_count _ Hd).
  - intros ms Hms%(dc_timeout _ Hd). exact Hms.
Qed.

(** *** Addresses *)
Definition body_at (n : Node) (seg : PathSeg) : option Region :=
  match n, seg with
  | Node_While _ _ _ _ body _, PathSeg_Body | Node_DoWhile _ _ _ _ body _, PathSeg_Body
  | Node_Repeat _ _ _ _ body _, PathSeg_Body | Node_Foreach _ _ _ _ body _, PathSeg_Body
  | Node_Saga _ body _, PathSeg_Body => Some body
  | Node_Parallel branches _, PathSeg_Branch name => branch_body <$> lfind (λ b, bool_decide (branch_name b = name)) branches
  | Node_Choose _ cases _ _, PathSeg_Case name => case_body <$> lfind (λ c, bool_decide (case_name c = name)) cases
  | Node_Choose _ _ default _, PathSeg_Default => Some default
  | _, _ => None
  end.

(** Following a path down from a region. *)
Fixpoint region_at (path : list PathSeg) (r : Region) : option Region :=
  match path with
  | [] => Some r
  | PathSeg_Node k :: seg :: path => n ← region_node r k; body ← body_at n seg; region_at path body
  | _ => None
  end.

Lemma region_at_app path1 path2 r r' : region_at path1 r = Some r' → region_at (path1 ++ path2) r = region_at path2 r'.
Proof.
  revert r. induction path1 as [path1 IH] using (well_founded_induction (well_founded_ltof _ (@length PathSeg))).
  intros r. destruct path1 as [|[] path1]; simpl; try done; [by intros [= <-]|].
  destruct path1 as [|seg path1]; [done|]. simpl. destruct (region_node r name) as [n|]; [|done]. simpl.
  destruct (body_at n seg) as [body|]; [|done]. simpl. apply IH. unfold ltof. simpl. lia.
Qed.

Lemma lfind_NoDup {A} (name : A → string) l x :
  NoDup (name <$> l) → x ∈ l → lfind (λ y, bool_decide (name y = name x)) l = Some x.
Proof.
  induction l as [|y l IH]; unfold lfind in *; simpl; intros Hnd Hx; [by apply elem_of_nil in Hx|].
  apply NoDup_cons in Hnd as [Hy Hnd]. apply elem_of_cons in Hx as [->|Hx].
  - by rewrite bool_decide_eq_true_2.
  - rewrite bool_decide_eq_false_2; [by apply IH|]. intros Heq. apply Hy. rewrite Heq. by apply list_elem_of_fmap_2.
Qed.

Lemma body_at_bodies signals ctx n seg body ctx' :
  node_legal catalog signals ctx n → (seg, body, ctx') ∈ bodies ctx n → body_at n seg = Some body.
Proof.
  destruct n; simpl; intros Hl Hb; try (by apply elem_of_nil in Hb);
    try (by apply list_elem_of_singleton in Hb as [= -> -> ->]).
  - destruct Hl as (_ & [Hnd _] & _).
    apply elem_of_app in Hb as [(c & [= -> -> ->] & Hc)%list_elem_of_fmap|[= -> -> ->]%list_elem_of_singleton]; [|done].
    by rewrite (lfind_NoDup case_name).
  - destruct Hl as (_ & [Hnd _]). apply list_elem_of_fmap in Hb as (b & [= -> -> ->] & Hb).
    by rewrite (lfind_NoDup branch_name).
Qed.

Lemma bt_get_NoDup {V} (m : list (string * V)) k v : NoDup m.*1 → (k, v) ∈ m → bt_get k m = Some v.
Proof.
  induction m as [|[k' v'] m IH]; simpl; intros Hnd Hin; [by apply elem_of_nil in Hin|].
  apply NoDup_cons in Hnd as [Hk Hnd]. apply elem_of_cons in Hin as [[= -> ->]|Hin]; [by rewrite decide_True|].
  rewrite decide_False; [by apply IH|]. intros ->. apply Hk. by apply (list_elem_of_fmap_2 fst) in Hin.
Qed.

(** The path of a compiled region is its address. Every region of the tree
    of a compiled definition is the one found by following its own path from the
    root, so that no two regions share a path. *)
Theorem compiled_paths_are_addresses root d r ctx :
  compile_spanned catalog root = Ok d →
  sub_region (def_root d) (root_ctx (def_input_schema d) (def_output_schema d)) r ctx →
  ∃ path, region_path r = PathSeg_Root :: path ∧ region_at path (def_root d) = Some r.
Proof.
  intros Hd%compile_spanned_ok Hsub. assert (∃ path depth, compiled catalog (def_signals d) ctx (PathSeg_Root :: path) depth r ∧
    region_at path (def_root d) = Some r) as (path & depth & Hr & Hat).
  { induction Hsub as [|r ctx k n child child_ctx _ (path & depth & Hr & Hat) Hnode Hchild].
    - exists [], 1. split; [apply (dc_root _ Hd)|done].
    - rewrite child_contexts_bodies in Hchild. apply list_elem_of_fmap in Hchild as ([[seg body] ctx'] & [= -> ->] & Hb).
      inversion Hr as [? ? ? ? nodes _ Ha Hlegal Hbodies]; subst. exists (path ++ [PathSeg_Node k; seg]), (depth + 1).
      split; [by eapply Hbodies|]. rewrite (region_at_app _ _ _ _ Hat). simpl.
      apply accepted_region_is_sound, rg_keys in Ha. unfold region_node. simpl in *.
      rewrite (bt_get_NoDup _ _ _ Ha Hnode). simpl. apply Hlegal in Hnode as [_ Hnode].
      by rewrite (body_at_bodies _ _ _ _ _ _ Hnode Hb). }
  exists path. split; [|done]. by inversion Hr.
Qed.
End Compiled.

(** ** From the compiler to a run

    [serde] writes the digest of a definition under its own field. *)
Definition without_digest (j : string + Json) : string + Json :=
  match j with
  | inr (JObject m) => inr (JObject (List.filter (λ kv, negb (bool_decide (kv.1 = "digest"))) m))
  | j => j
  end.

Definition digest_is_a_field `{Serde} : Prop := ∀ d digest,
  without_digest (definition_to_value (with_digest d digest)) = without_digest (definition_to_value d).

Section Published.
Context `{Platform} `{CatalogSerde} `{Serde}.
Hypothesis digest_field : digest_is_a_field.

Lemma digest_of_with_digest d digest : digest_of (with_digest d digest) = digest_of d.
Proof.
  unfold digest_of. generalize (digest_field d digest).
  destruct (definition_to_value d) as [e|j], (definition_to_value (with_digest d digest)) as [e'|j']; simpl.
  - by intros [= ->].
  - intros Hd. destruct j'; discriminate Hd.
  - intros Hd. destruct j; discriminate Hd.
  - intros Hd. destruct j, j'; simplify_eq; [done..|by match goal with H : List.filter _ _ = _ |- _ => rewrite H end].
Qed.

(** C29: what the compiler accepts can be published and started. Published under
    a fresh identity next to the retained catalog it was compiled for, a compiled definition is
    applied, and a start of this workflow then pins exactly this definition and
    this catalog. *)
Theorem compiled_definition_publishes root d s version published :
  compile_spanned (pc_catalog published) root = Ok d →
  bt_get version (published_catalogs s) = Some published → published_catalog_verify published = Ok tt →
  bt_get (def_version d) (default [] (bt_get (def_id d) (published_definitions s))) = None →
  ∃ s', apply_definition s d version =
      Ok (Disposition_Applied None (Some (def_digest d)) (Some (def_version d)), None, s') ∧
    pinned_for s' (def_id d) (Some (def_version d)) =
      Ok (mkPublishedDefinition DEFINITION_FORMAT FORMAT_VERSION (def_digest d) version d, published).
Proof.
  intros Hd%compile_spanned_ok Hcat Hverify Hnew. destruct (dc_format _ _ Hd) as [Hformat _].
  pose proof (dc_digest _ _ Hd) as Hdigest. rewrite digest_of_with_digest in Hdigest.
  pose proof (compiled_analyzed _ _ _ _ _ _ (dc_root _ _ Hd)) as Hvalid. pose proof (dc_version _ _ Hd) as Hversion.
  eexists. split.
  - unfold apply_definition, validate_definition. rewrite Hcat. cbn [ok_or mbind Outcome_bind]. rewrite Hverify.
    cbn [mbind Outcome_bind]. rewrite (dc_id _ _ Hd), Hformat, Z.eqb_refl, Hdigest.
    rewrite (proj2 (Z.eqb_neq _ _)) by lia. cbn [orb negb mbind Outcome_bind].
    rewrite bool_decide_eq_true_2 by done. cbn [negb mbind Outcome_bind]. rewrite Hvalid. cbn [mbind Outcome_bind].
    by rewrite Hnew.
  - unfold pinned_for. simpl. rewrite bt_get_insert, decide_True by done. cbn [ok_or mbind Outcome_bind].
    rewrite bt_get_insert_Z, decide_True by done. cbn [ok_or mbind Outcome_bind].
    unfold published_definition_verify. simpl. rewrite Hformat, Hdigest. cbn.
    rewrite !bool_decide_eq_true_2 by done. simpl. rewrite Hcat. simpl. by rewrite Hverify.
Qed.
End Published.

(** ** Freedom of panics *)
Lemma validate_attempt_timeout_no_panic d : is_panic (validate_attempt_timeout d) = false.
Proof. unfold validate_attempt_timeout. no_panic. Qed.
Lemma parse_duration_no_panic text : is_panic (parse_duration text) = false.
Proof. unfold parse_duration. no_panic. Qed.
Lemma duration_to_millis_no_panic d : is_panic (duration_to_millis d) = false.
Proof. unfold duration_to_millis. no_panic. Qed.
Lemma retry_validate_no_panic r : is_panic (retry_validate r) = false.
Proof. unfold retry_validate, backoff_validate. no_panic. Qed.
Lemma catalog_activity_no_panic c k : is_panic (catalog_activity c k) = false.
Proof. unfold catalog_activity. no_panic. Qed.
#[export] Hint Resolve validate_attempt_timeout_no_panic parse_duration_no_panic duration_to_millis_no_panic
  retry_validate_no_panic catalog_activity_no_panic : nopanic.

Lemma schema_ref_ind' (P : SchemaRef → Prop) :
  (∀ key, P (SchemaRef_Named key)) → (∀ e, P e → P (SchemaRef_Array e)) →
  (∀ l, Forall P l → P (SchemaRef_Tuple l)) → P SchemaRef_Integer → P SchemaRef_String → P SchemaRef_Boolean →
  P SchemaRef_Null → ∀ s, P s.
Proof.
  intros Hn Ha Ht Hi Hs Hb Hu. fix IH 1. intros [key|e|l| | | |]; [apply Hn|apply Ha, IH| |done..].
  apply Ht. induction l; constructor; [apply IH|done].
Qed.

Lemma require_schema_no_panic c s : is_panic (require_schema c s) = false.
Proof.
  induction s as [| |l IH| | | |] using schema_ref_ind'; simpl; no_panic. rewrite Forall_forall in IH. by apply IH.
Qed.
Lemma str_field_no_panic map key span : is_panic (str_field map key span) = false.
Proof. unfold str_field. no_panic. Qed.
Lemma u32_field_no_panic map key span : is_panic (u32_field map key span) = false.
Proof. unfold u32_field. no_panic. Qed.
Lemma schema_field_no_panic map key span : is_panic (schema_field map key span) = false.
Proof. unfold schema_field. no_panic. Qed.
Lemma binding_field_no_panic map key span : is_panic (binding_field map key span) = false.
Proof. unfold binding_field. no_panic. Qed.
Lemma condition_field_no_panic map key span : is_panic (condition_field map key span) = false.
Proof. unfold condition_field. no_panic. Qed.
Lemma key_field_no_panic map key span : is_panic (key_field map key span) = false.
Proof. unfold key_field. no_panic. Qed.
#[export] Hint Resolve require_schema_no_panic str_field_no_panic u32_field_no_panic schema_field_no_panic
  binding_field_no_panic condition_field_no_panic key_field_no_panic : nopanic.

Lemma millis_field_no_panic map key span : is_panic (millis_field map key span) = false.
Proof. unfold millis_field. no_panic. Qed.
Lemma parse_activity_key_no_panic node : is_panic (parse_activity_key node) = false.
Proof. unfold parse_activity_key. no_panic. Qed.
Lemma parse_attempt_timeout_no_panic node : is_panic (parse_attempt_timeout node) = false.
Proof. unfold parse_attempt_timeout. no_panic. Qed.
#[export] Hint Resolve millis_field_no_panic parse_activity_key_no_panic parse_attempt_timeout_no_panic : nopanic.

Lemma parse_optional_timeout_no_panic map field d : is_panic (parse_optional_timeout map field d) = false.
Proof. unfold parse_optional_timeout. no_panic. Qed.
Lemma parse_retry_errors_no_panic map contract d : is_panic (parse_retry_errors map contract d) = false.
Proof. unfold parse_retry_errors, check_retry_code. no_panic. Qed.
Lemma parse_backoff_no_panic map d : is_panic (parse_backoff map d) = false.
Proof. unfold parse_backoff. no_panic. Qed.
#[export] Hint Resolve parse_optional_timeout_no_panic parse_retry_errors_no_panic parse_backoff_no_panic : nopanic.

Lemma parse_retry_no_panic map contract compensation : is_panic (parse_retry map contract compensation) = false.
Proof. unfold parse_retry. destruct compensation; no_panic. Qed.
#[export] Hint Resolve parse_retry_no_panic : nopanic.

Section NoPanic.
Context `{Platform} `{CatalogSerde} `{Serde}.
Variable catalog : Catalog.

Lemma compile_activity_no_panic map span ctx : is_panic (compile_activity catalog map span ctx) = false.
Proof. unfold compile_activity, parse_compensation. no_panic. Qed.
Lemma compile_delay_no_panic map span : is_panic (compile_delay map span) = false.
Proof. unfold compile_delay. no_panic. Qed.
Lemma compile_wait_until_no_panic map span : is_panic (compile_wait_until map span) = false.
Proof. unfold compile_wait_until. no_panic. Qed.
Lemma compile_wait_signal_no_panic map span signals : is_panic (compile_wait_signal map span signals) = false.
Proof. unfold compile_wait_signal. no_panic. Qed.
Lemma compile_complete_no_panic map span : is_panic (compile_complete map span) = false.
Proof. unfold compile_complete. no_panic. Qed.
Lemma compile_fail_no_panic map span : is_panic (compile_fail map span) = false.
Proof. unfold compile_fail. no_panic. Qed.
#[local] Hint Resolve compile_activity_no_panic compile_delay_no_panic compile_wait_until_no_panic
  compile_wait_signal_no_panic compile_complete_no_panic compile_fail_no_panic : nopanic.

Section Bodies.
Variables (signals : list (string * SchemaRef)) (depth : Z).
Variable compile_body : fields → Span → list PathSeg → RegionCtx → Z → Run Z Region.
Hypothesis body_no_panic : ∀ map span path ctx c, is_panic (compile_body map span path ctx (depth + 1) c) = false.
#[local] Hint Resolve body_no_panic : nopanic.

Lemma body_schemas_no_panic map span : is_panic (body_schemas catalog map span) = false.
Proof. unfold body_schemas. no_panic. Qed.
#[local] Hint Resolve body_schemas_no_panic : nopanic.

Lemma compile_loop_no_panic map span path ctx kind c :
  is_panic (compile_loop catalog compile_body map span path ctx depth kind c) = false.
Proof. unfold compile_loop. no_panic. Qed.

Lemma compile_foreach_no_panic map span path ctx c :
  is_panic (compile_foreach catalog compile_body map span path ctx depth c) = false.
Proof. unfold compile_foreach. no_panic. Qed.

Lemma compile_saga_no_panic map span path ctx c :
  is_panic (compile_saga catalog compile_body map span path ctx depth c) = false.
Proof. unfold compile_saga. no_panic. Qed.

Lemma compile_parallel_no_panic map span path ctx c :
  is_panic (compile_parallel catalog compile_body map span path ctx depth c) = false.
Proof.
  unfold compile_parallel. no_panic. apply (np_run_fold (λ _ _, True)); [|done].
  intros b s item _ _. split; [|done]. unfold compile_branch. no_panic.
Qed.

Lemma compile_choose_no_panic map span path ctx c :
  is_panic (compile_choose catalog compile_body map span path ctx depth c) = false.
Proof.
  unfold compile_choose. no_panic. apply (np_run_fold (λ _ _, True)); [|done].
  intros b s item _ _. split; [|done]. unfold compile_case. no_panic.
Qed.
#[local] Hint Resolve compile_loop_no_panic compile_foreach_no_panic compile_saga_no_panic compile_parallel_no_panic
  compile_choose_no_panic : nopanic.

Lemma compile_entry_no_panic path ctx nodes entry c :
  is_panic (compile_entry catalog signals compile_body path ctx depth nodes entry c) = false.
Proof.
  unfold compile_entry, compile_node. destruct entry as [key node]. no_panic. done.
Qed.
End Bodies.

(** The fuel left covers the levels a region may still open. *)
Lemma compile_region_no_panic fuel signals is_root map span path ctx depth c :
  MAX_NESTING - depth + 1 < Z.of_nat fuel → (0 < fuel)%nat →
  is_panic (compile_region catalog fuel signals is_root map span path ctx depth c) = false.
Proof.
  revert is_root map span path ctx depth c. induction fuel as [|fuel IH]; intros is_root map span path ctx depth c Hfuel Hpos; [lia|].
  cbn [compile_region]. destruct (MAX_NESTING <? depth) eqn:Hdepth; [done|]. to_prop.
  assert (∀ map span path ctx c,
    is_panic (compile_region catalog fuel signals false map span path ctx (depth + 1) c) = false) as Hbody.
  { intros. apply IH; lia. }
  no_panic.
  - apply (np_run_fold (λ _ _, True)); [|done]. intros b s item _ _. split; [|done]. by apply compile_entry_no_panic.
  - apply analyze_region_no_panic. unfold region_node. simpl. by apply bt_contains_is_Some, negb_false_iff.
Qed.

Lemma write_canonical_no_panic j depth : is_panic (write_canonical j depth) = false.
Proof.
  revert depth. apply (json_ind' (λ j, ∀ depth, is_panic (write_canonical j depth) = false)); clear j.
  { intros [| | | | | |]; try done; intros depth; simpl; no_panic. }
  all: intros l IH depth; simpl; no_panic.
  - rewrite Forall_forall in IH. by apply IH.
  - match goal with H : _ ∈ sort_by _ _ |- _ => rewrite sort_by_perm in H; apply list_elem_of_fmap in H as ([k' j] & ? & Hj) end.
    simplify_eq. rewrite Forall_forall in IH. apply IH. by apply (list_elem_of_fmap_2 snd) in Hj.
Qed.

Lemma digest_of_no_panic d : is_panic (digest_of d) = false.
Proof. unfold digest_of, from_serde, canonical_json. no_panic. apply write_canonical_no_panic. Qed.

Lemma compile_spanned_no_panic root : is_panic (compile_spanned catalog root) = false.
Proof.
  unfold compile_spanned, compile_signal. no_panic; [|apply digest_of_no_panic].
  apply compile_region_no_panic; [vm_compute; done|lia].
Qed.

(** C28: the compiler never panics. Whatever the text, its events and the
    catalog: the lookups that the code marks as infallible succeed, the bounds
    of the loops and of the nesting are enough, and every defect is an error. *)
Theorem compiler_never_panics `{YamlParser} text : is_panic (compile_yaml catalog text) = false.
Proof. unfold compile_yaml. no_panic; [apply parse_yaml_no_panic|apply compile_spanned_no_panic]. Qed.
End NoPanic.
