(* ===== verification/EvolveFacts.v ===== *)
(** * What applying an event preserves

    The frame of [evolve] (it never touches receipts, digests, history or
    checkpoints), the interface [EventInvariant] for invariants of the replicated
    state, and the invariants on identities that every component relies on. *)
From stdpp Require Import base option gmap strings list.
From Stdlib Require Import ZArith Ascii Lia.
From S2P Require Import Prelude Value Ids Policy Catalog Ir Domain Eval Evolve History.

(** ** The frame of [evolve] *)

(** The receipts and identities of applied commands. *)
Record Receipts := mkReceipts {
  rc_commands : gmap CommandId.t (list DomainEvent);
  rc_actors : gmap CommandId.t string;
  rc_external_ids : gmap CommandId.t CommandId.t;
  rc_request_digests : gmap CommandId.t string;
  rc_worker_digests : gmap CommandId.t string;
  rc_start_digests : gmap CommandId.t string;
  rc_times : gmap CommandId.t Z;
  rc_watermark : Z;
}.

Definition receipts (s : State) : Receipts :=
  mkReceipts (commands s) (command_actors s) (command_external_ids s) (authenticated_request_digests s)
    (worker_command_digests s) (legacy_start_digests s) (command_times s) (engine_time_watermark_ms s).

(** The recorded history and what it depends on. *)
Definition recorded (s : State) :=
  (history s, history_records s, history_dependencies s, checkpoints s, signal_tombstones s,
   current_cluster_id s).

(** One goal per event and branch of [evolve], with the new state written out. *)
Ltac evolve_cases Hev :=
  match type of Hev with evolve _ ?e = Ok _ => destruct e end;
  simpl in Hev; unfold evolve_activation_opened, evolve_compensation_started in Hev; ok_inv;
  unfold evolve_scope_opened, evolve_scope_completed, evolve_leaf_succeeded, evolve_wait_satisfied,
    evolve_wait_timed_out, evolve_wait_cancelled, evolve_obligation_registered,
    evolve_obligation_blocked; simpl; repeat case_match; simpl.

Section Frame.
Context `{Platform}.

Lemma evolve_frame s e s' :
  evolve s e = Ok s' → receipts s' = receipts s ∧ recorded s' = recorded s.
Proof. intros Hev. evolve_cases Hev; done. Qed.

(** ** Invariants of the projected state

    [projected] is what events act on and the rest of the engine only reads. *)
Definition run_identity (r : RunState) : RunId.t * Z := (rs_id r, rs_next_sequence r).

Definition projected (s : State) :=
  (run_identity <$> runs s, scopes s, activations s, waits s, inbox s, obligations s, sessions s,
   next_generation s).

(** An invariant of the projected state that holds after every event which
    satisfies the guard [pre] in the state it is applied to. *)
Class EventInvariant (pre : State → DomainEvent → Prop) (I : State → Prop) : Prop := {
  inv_evolve : ∀ s e s', pre s e → I s → evolve s e = Ok s' → I s';
  inv_frame : ∀ s s', projected s' = projected s → I s → I s';
}.

(** The guard that asks for nothing. *)
Definition unguarded (s : State) (e : DomainEvent) : Prop := True.

#[export] Instance event_invariant_and pre1 pre2 (I1 I2 : State → Prop) :
  EventInvariant pre1 I1 → EventInvariant pre2 I2 →
  EventInvariant (λ s e, pre1 s e ∧ pre2 s e) (λ s, I1 s ∧ I2 s).
Proof.
  intros [He1 Hf1] [He2 Hf2]. split.
  - intros s e s' [? ?] [? ?] ?. eauto.
  - intros s s' ? [? ?]. eauto.
Qed.

(** ** Identities: every record is stored under its own identity. *)
Record ids_wf (s : State) : Prop := mkIdsWf {
  idw_activations : map_Forall (λ k a, as_id a = k) (activations s);
  idw_scopes : map_Forall (λ k x, ss_id x = k) (scopes s);
  idw_waits : map_Forall (λ k w, wt_id w = k) (waits s);
  idw_sessions : map_Forall (λ k w, ws_id w = k) (sessions s);
  idw_runs : map_Forall (λ k r, rs_id r = k) (runs s);
}.

(** ** Obligations: at most one per forward activation. *)
Definition obligations_unique (s : State) : Prop := NoDup (ob_forward <$> obligations s).

#[export] Instance ids_wf_invariant : EventInvariant unguarded ids_wf.
Proof.
  split.
  - intros s e s' _ [Ha Hs Hw Hx Hr] Hev. evolve_cases Hev; split; simpl;
      repeat first [assumption | apply map_Forall_insert_2 | apply map_Forall_alter_2
                   | apply map_Forall_fmap_2];
      intros; simpl in *; repeat case_match; eauto.
  - intros s s' [= Hr Hs Ha Hw _ _ Hx _] [? ? ? ? Hruns]. split; rewrite ?Ha, ?Hs, ?Hw, ?Hx; try done.
    intros k r Hk. assert ((run_identity <$> runs s) !! k = Some (run_identity r)) as Hid.
    { by rewrite <-Hr, lookup_fmap, Hk. }
    rewrite lookup_fmap in Hid. apply fmap_Some in Hid as (r' & Hr' & Heq).
    apply Hruns in Hr'. unfold run_identity in Heq. congruence.
Qed.

Lemma update_first_forwards p f l :
  (∀ o, ob_forward (f o) = ob_forward o) → ob_forward <$> update_first p f l = ob_forward <$> l.
Proof. apply update_first_fmap. Qed.

Lemma existsb_for_forward forward l :
  existsb (for_forward forward) l = false ↔ forward ∉ ob_forward <$> l.
Proof.
  rewrite existsb_false, list_elem_of_fmap. unfold for_forward. setoid_rewrite bool_decide_eq_false.
  naive_solver.
Qed.

#[export] Instance obligations_unique_invariant : EventInvariant unguarded obligations_unique.
Proof.
  unfold obligations_unique. split.
  - intros s e s' _ Hn Hev. evolve_cases Hev; rewrite ?update_first_forwards by done; try done.
    all: try (rewrite fmap_app; apply NoDup_app; split_and!; [done| |apply NoDup_singleton];
              intros x Hx ->%list_elem_of_singleton; by apply existsb_for_forward in Hx).
    rewrite <-list_fmap_compose. erewrite list_fmap_ext; [done|].
    intros i o _. simpl. by repeat case_match.
  - intros s s' [= _ _ _ _ _ -> _ _]. done.
Qed.
End Frame.

(** ** Sequences of events *)
Lemma outcome_fold_app {A B} (f : B → A → Outcome B) acc l1 l2 r :
  outcome_fold f acc (l1 ++ l2) = Ok r ↔ ∃ m, outcome_fold f acc l1 = Ok m ∧ outcome_fold f m l2 = Ok r.
Proof.
  revert acc. induction l1 as [|x l1 IH]; simpl; intros acc; [naive_solver|].
  rewrite outcome_bind_ok. setoid_rewrite outcome_bind_ok. setoid_rewrite IH. naive_solver.
Qed.

Section Guarded.
Context `{Platform} `{CatalogSerde} `{Serde}.

(** Every event satisfies the guard in the state it meets, whatever the
    bookkeeping between two events does outside the projected state. *)
Inductive guarded (pre : State → DomainEvent → Prop) : State → list DomainEvent → Prop :=
| guarded_nil s : guarded pre s []
| guarded_cons s e evs :
    pre s e →
    (∀ s1 s2, evolve s e = Ok s1 → projected s2 = projected s1 → guarded pre s2 evs) →
    guarded pre s (e :: evs).

Lemma guarded_all pre evs s :
  Forall (λ e, ∀ s, pre s e) evs → guarded pre s evs.
Proof. intros Hall. revert s. induction Hall; constructor; eauto. Qed.

Lemma guarded_app pre s evs1 evs2 :
  guarded pre s evs1 → Forall (λ e, ∀ s, pre s e) evs2 → guarded pre s (evs1 ++ evs2).
Proof.
  induction 1; simpl; intros Hall; [by apply guarded_all|]. constructor; eauto.
Qed.

Lemma append_event_frame s run e cid pid t refs s' :
  append_event s run e cid pid t refs = Ok s' → projected s' = projected s ∧ receipts s' = receipts s.
Proof.
  unfold append_event. intros Happ. ok_inv; by repeat case_match.
Qed.

Lemma apply_event_split cid pid t s e s' :
  apply_event_with_cause cid pid t s e = Ok s' →
  ∃ s1, evolve s e = Ok s1 ∧ projected s' = projected s1 ∧ receipts s' = receipts s.
Proof.
  unfold apply_event_with_cause. intros Happ. ok_inv.
  all: match goal with Hev : evolve _ _ = Ok ?s1 |- _ => exists s1; pose proof (evolve_frame _ _ _ Hev) as [? ?] end.
  all: split_and!; try done.
  all: match goal with Happ : append_event _ _ _ _ _ _ _ = Ok _ |- _ =>
    apply append_event_frame in Happ as [? ?] end; congruence.
Qed.

(** The lifting that every client of [EventInvariant] uses. *)
Lemma apply_events_inv pre I `{!EventInvariant pre I} s evs cid pid t s' :
  guarded pre s evs → I s → apply_events_with_cause s evs cid pid t = Ok s' → I s'.
Proof.
  unfold apply_events_with_cause. intros Hg. revert s'.
  induction Hg as [s|s e evs Hpre _ IH]; simpl; intros s' HI Happ; ok_inv; [done|].
  match goal with H : apply_event_with_cause _ _ _ _ _ = Ok _ |- _ =>
    apply apply_event_split in H as (s1 & Hev & Hp & _) end.
  eapply IH; [done|done| |done]. eapply inv_frame; [done|]. by eapply inv_evolve.
Qed.

Lemma apply_events_receipts s evs cid pid t s' :
  apply_events_with_cause s evs cid pid t = Ok s' → receipts s' = receipts s.
Proof.
  unfold apply_events_with_cause. revert s.
  induction evs as [|e evs IH]; simpl; intros s Happ; ok_inv; [done|].
  match goal with H : apply_event_with_cause _ _ _ _ _ = Ok _ |- _ =>
    apply apply_event_split in H as (s1 & _ & _ & <-) end. eauto.
Qed.
End Guarded.
