(* ===== verification/StepFacts.v ===== *)
(** * Which events a decision may emit

    Three kinds of event bring something new into the engine: the admission of
    a run, an accepted input and a granted claim. [decide_start] is the only
    source of the first, [decide_signal] of the second and [decide_claim] of the
    third; every other decision emits [plain] events. *)
From stdpp Require Import base option gmap strings list.
From Stdlib Require Import ZArith Ascii Lia.
From S2P Require Import Prelude Value Ids Policy Catalog Ir Domain Eval Evolve History Steps Saga Signals Claims Progress Command.

Definition plain_event (e : DomainEvent) : Prop :=
  match e with
  | RunAdmitted _ _ _ _ _ _ _ | EventAccepted _ _ _ _ _ _ _ _ | ClaimGranted _ _ _ _ _ _ _ _ _ _ _ _ _ _ => False
  | _ => True
  end.

Notation plain := (Forall plain_event).

(** Splits a list of events and closes what the hint database knows. *)
Ltac plain_split :=
  repeat (simpl; match goal with
  | |- Forall _ (_ ++ _) => apply Forall_app; split
  | |- Forall _ (_ :: _) => apply Forall_cons; split
  | |- Forall _ [] => constructor
  | |- Forall _ (if ?b then _ else _) => destruct b
  | |- Forall _ (match ?x with _ => _ end) => destruct x eqn:?
  | |- plain_event _ => exact Logic.I
  | |- True => exact Logic.I
  end).
Ltac solve_plain := ok_inv; plain_split; eauto with graphrun.

Section Plain.
Context `{Platform} `{CatalogSerde} `{Serde}.
Implicit Types s : State.

Lemma open_node_plain s scope node ids evs ids' :
  open_node s scope node ids = Ok (evs, ids') → plain evs.
Proof. unfold open_node. intros. solve_plain. Qed.
#[local] Hint Resolve open_node_plain : graphrun.

Lemma follow_next_plain s scope node ids evs ids' :
  follow_next s scope node ids = Ok (evs, ids') → plain evs.
Proof. unfold follow_next. intros. solve_plain. Qed.
#[local] Hint Resolve follow_next_plain : graphrun.

Lemma follow_timeout_plain s act ids evs ids' :
  follow_timeout s act ids = Ok (evs, ids') → plain evs.
Proof. unfold follow_timeout. intros. solve_plain. Qed.
#[local] Hint Resolve follow_timeout_plain : graphrun.

Lemma close_pending_waits_plain s run : plain (close_pending_waits s run).
Proof.
  unfold close_pending_waits. apply Forall_bind, Forall_true. intros w. unfold close_wait. plain_split.
Qed.
#[local] Hint Resolve close_pending_waits_plain : graphrun.

Lemma fail_scope_plain s scope error evs : fail_scope s scope error = Ok evs → plain evs.
Proof. unfold fail_scope. intros. solve_plain. Qed.
#[local] Hint Resolve fail_scope_plain : graphrun.

Lemma complete_scope_plain scope output : plain (complete_scope scope output).
Proof. unfold complete_scope. plain_split. Qed.
#[local] Hint Resolve complete_scope_plain : graphrun.

Lemma compensation_events_plain s act output evs :
  compensation_events s act output = Ok evs → plain evs.
Proof. unfold compensation_events. intros. solve_plain. Qed.
#[local] Hint Resolve compensation_events_plain : graphrun.

Lemma report_success_plain s run activation output ids evs ids' :
  report_success s run activation output ids = Ok (evs, ids') → plain evs.
Proof. unfold report_success, decide_compensation_result. intros. solve_plain. Qed.
#[local] Hint Resolve report_success_plain : graphrun.

Lemma decide_report_error_plain s run activation code message evs :
  decide_report_error s run activation code message = Ok evs → plain evs.
Proof. unfold decide_report_error. intros. solve_plain. Qed.
#[local] Hint Resolve decide_report_error_plain : graphrun.

Lemma decide_report_assigned_plain s run activation output session generation revision time ids evs ids' :
  decide_report_assigned s run activation output session generation revision time ids = Ok (evs, ids') →
  plain evs.
Proof. unfold decide_report_assigned. intros. solve_plain. Qed.
#[local] Hint Resolve decide_report_assigned_plain : graphrun.

Lemma decide_reconcile_plain s run activation session generation revision outcome output time ids evs ids' :
  decide_reconcile s run activation session generation revision outcome output time ids = Ok (evs, ids') →
  plain evs.
Proof. unfold decide_reconcile. intros. solve_plain. Qed.
#[local] Hint Resolve decide_reconcile_plain : graphrun.

(** *** Sagas *)
Lemma compensate_or_fail_plain s saga error ids evs ids' :
  compensate_or_fail s saga error ids = Ok (evs, ids') → plain evs.
Proof. unfold compensate_or_fail. intros. solve_plain. Qed.
#[local] Hint Resolve compensate_or_fail_plain : graphrun.

Lemma settle_saga_success_plain s saga : plain (settle_saga_success s saga).
Proof.
  unfold settle_saga_success. plain_split; apply Forall_fmap, Forall_true; by intros.
Qed.
#[local] Hint Resolve settle_saga_success_plain : graphrun.

Lemma progress_saga_plain s act input body ids evs ids' :
  progress_saga s act input body ids = Ok (evs, ids') → plain evs.
Proof. unfold progress_saga. intros. solve_plain. Qed.
#[local] Hint Resolve progress_saga_plain : graphrun.

Lemma compensate_each_plain s sagas error ids evs ids' :
  compensate_each s sagas error ids = Ok (evs, ids') → plain evs.
Proof. revert ids evs ids'. induction sagas; simpl; intros; solve_plain. Qed.
#[local] Hint Resolve compensate_each_plain : graphrun.

Lemma decide_cancel_plain s run reason ids evs ids' :
  decide_cancel s run reason ids = Ok (evs, ids') → plain evs.
Proof. unfold decide_cancel. intros. solve_plain. Qed.
#[local] Hint Resolve decide_cancel_plain : graphrun.

Lemma decide_abandon_compensation_plain s run reason evs :
  decide_abandon_compensation s run reason = Ok evs → plain evs.
Proof. unfold decide_abandon_compensation. intros. solve_plain. Qed.
#[local] Hint Resolve decide_abandon_compensation_plain : graphrun.

(** *** Waits *)
Lemma satisfy_plain s run wait act entry ids evs ids' :
  satisfy s run wait act entry ids = Ok (evs, ids') → plain evs.
Proof. unfold satisfy. intros. solve_plain. Qed.
#[local] Hint Resolve satisfy_plain : graphrun.

Lemma decide_timer_plain s run wait time ids evs ids' :
  decide_timer s run wait time ids = Ok (evs, ids') → plain evs.
Proof. unfold decide_timer. intros. solve_plain. Qed.
#[local] Hint Resolve decide_timer_plain : graphrun.

Lemma due_wait_plain s run time ids evs ids' :
  due_wait s run time ids = Ok (Some evs, ids') → plain evs.
Proof. unfold due_wait. intros. solve_plain. Qed.
#[local] Hint Resolve due_wait_plain : graphrun.

Lemma open_wait_plain s act time ids evs ids' :
  open_wait s act time ids = Ok (evs, ids') → plain evs.
Proof. unfold open_wait. intros. solve_plain. Qed.
#[local] Hint Resolve open_wait_plain : graphrun.

(** *** Control flow *)
Lemma finish_node_plain s act output ids evs ids' :
  finish_node s act output ids = Ok (evs, ids') → plain evs.
Proof. unfold finish_node. intros. solve_plain. Qed.
#[local] Hint Resolve finish_node_plain : graphrun.

Lemma open_child_plain act role body input ids evs ids' :
  open_child act role body input ids = Ok (evs, ids') → plain evs.
Proof. unfold open_child. intros. solve_plain. Qed.
#[local] Hint Resolve open_child_plain : graphrun.

Lemma open_loop_body_plain act body carry index ids evs ids' :
  open_loop_body act body carry index ids = Ok (evs, ids') → plain evs.
Proof. apply open_child_plain. Qed.
#[local] Hint Resolve open_loop_body_plain : graphrun.

Lemma progress_while_plain s act st cond max body dw ids evs ids' :
  progress_while s act st cond max body dw ids = Ok (evs, ids') → plain evs.
Proof. unfold progress_while. intros. solve_plain. Qed.
#[local] Hint Resolve progress_while_plain : graphrun.

Lemma progress_repeat_plain s act count st max body ids evs ids' :
  progress_repeat s act count st max body ids = Ok (evs, ids') → plain evs.
Proof. unfold progress_repeat. intros. solve_plain. Qed.
#[local] Hint Resolve progress_repeat_plain : graphrun.

Lemma cancel_siblings_plain s failed keep error siblings evs :
  cancel_siblings s failed keep error siblings = Ok evs → plain evs.
Proof. revert evs. induction siblings; simpl; intros; solve_plain. Qed.
#[local] Hint Resolve cancel_siblings_plain : graphrun.

Lemma progress_foreach_plain s act items max conc body ids evs ids' :
  progress_foreach s act items max conc body ids = Ok (evs, ids') → plain evs.
Proof. unfold progress_foreach. intros. solve_plain. Qed.
#[local] Hint Resolve progress_foreach_plain : graphrun.

Lemma progress_parallel_plain s act branches ids evs ids' :
  progress_parallel s act branches ids = Ok (evs, ids') → plain evs.
Proof. unfold progress_parallel, parallel_failure. intros. solve_plain. Qed.
#[local] Hint Resolve progress_parallel_plain : graphrun.

Lemma progress_choose_plain s act input cases default ids evs ids' :
  progress_choose s act input cases default ids = Ok (evs, ids') → plain evs.
Proof. unfold progress_choose. intros. solve_plain. Qed.
#[local] Hint Resolve progress_choose_plain : graphrun.

Lemma progress_node_plain s run time act node ids evs ids' :
  progress_node s run time act node ids = Ok (Some evs, ids') → plain evs.
Proof. unfold progress_node, timer_wait. destruct node; intros; solve_plain; case_match; simplify_eq; eauto with graphrun. Qed.
#[local] Hint Resolve progress_node_plain : graphrun.

Lemma scan_activations_plain s run time acts ids evs ids' :
  scan_activations s run time acts ids = Ok (Some evs, ids') → plain evs.
Proof. revert ids. induction acts; simpl; intros; solve_plain. Qed.
#[local] Hint Resolve scan_activations_plain : graphrun.

Lemma next_progress_plain s run time ids evs ids' :
  next_progress s run time ids = Ok (Some evs, ids') → plain evs.
Proof. unfold next_progress. intros. solve_plain. Qed.
#[local] Hint Resolve next_progress_plain : graphrun.

Lemma progress_batch_plain n s run time acc ids evs ids' :
  plain acc → progress_batch n s run time acc ids = Ok (evs, ids') → plain evs.
Proof.
  revert s acc ids. induction n as [|n IH]; simpl; intros s acc ids Hacc Hrun; ok_inv; try done.
  eapply IH; [|done]. apply Forall_app. eauto with graphrun.
Qed.

Lemma decide_progress_plain s run time ids evs ids' :
  decide_progress s run time ids = Ok (evs, ids') → plain evs.
Proof. apply progress_batch_plain. constructor. Qed.
#[local] Hint Resolve decide_progress_plain : graphrun.

(** *** The dispatch: only starts, signals and claims emit anything else. *)
Lemma decide_body_plain s c ids evs ids' :
  decide_body s c ids = Ok (evs, ids') →
  plain evs ∨
  (∃ run definition input catalog, cmd_body c = Cmd_Start run definition input catalog ∧
     execution_suspended s = false ∧ decide_start run definition input (cmd_time c) ids = Ok (evs, ids')) ∨
  (∃ run event_id signal key payload, cmd_body c = Cmd_Signal run event_id signal key payload ∧
     decide_signal s run event_id signal key payload (cmd_time c) = Ok evs) ∨
  (∃ session capacity, cmd_body c = Cmd_Claim session capacity ∧ execution_suspended s = false ∧
     decide_claim s session capacity (cmd_time c) = Ok evs).
Proof.
  unfold decide_body. destruct (cmd_body c) eqn:Hbody; intros Hd; try done.
  all: try (left; unfold decide_report, decide_resolve_blocked, decide_register,
    decide_renew_local_session, decide_register_worker, decide_renew_worker_session, decide_renew,
    decide_report_worker, decide_acknowledge_recovery, decide_reconcile_worker in *; solve_plain; fail).
  - destruct (execution_suspended s); [by ok_inv|]. right; left. do 4 eexists. eauto.
  - ok_inv. right; right; left. do 5 eexists. eauto.
  - ok_inv; [by left|]. do 3 right. eauto 6.
Qed.
End Plain.
