(* ===== verification/ClaimFacts.v ===== *)
(** * Claims: who may run what, and who may report

    The claim loop ([decide_claim]) terminates, respects every capacity, grants
    only free activations, in order; owner generations are unique tokens, and a
    report is accepted from the current owner only. *)
From stdpp Require Import base option gmap strings list sorting.
From Stdlib Require Import ZArith Ascii Lia.
From S2P Require Import Prelude Value Ids Policy Catalog Ir Domain Eval Evolve History Steps Claims EvolveFacts.

(** ** Orders *)
Lemma ready_leb_total s a b : ready_leb s a b = true ∨ ready_leb s b a = true.
Proof.
  unfold ready_leb, ActivationId.leb.
  destruct (Z.lt_trichotomy (ready_order_of s a) (ready_order_of s b)) as [Hlt|[Heq|Hgt]].
  - left. apply orb_true_iff. left. by apply Z.ltb_lt.
  - rewrite Heq, Z.eqb_refl, Z.ltb_irrefl. simpl. apply String.leb_total.
  - right. apply orb_true_iff. left. by apply Z.ltb_lt.
Qed.

Lemma ready_leb_iff s a b :
  ready_leb s a b = true ↔
  ready_order_of s a < ready_order_of s b ∨
  (ready_order_of s a = ready_order_of s b ∧ String.le (ActivationId.as_bytes a) (ActivationId.as_bytes b)).
Proof.
  unfold ready_leb, ActivationId.leb, String.le.
  by rewrite orb_true_iff, andb_true_iff, Z.ltb_lt, Z.eqb_eq, Is_true_true.
Qed.

#[export] Instance ready_leb_trans s : Transitive (λ a b, ready_leb s a b = true).
Proof.
  intros a b c. rewrite !ready_leb_iff. intros [?|[? ?]] [?|[? ?]]; [left; lia..|].
  right. split; [congruence|]. by etrans.
Qed.

Lemma ready_leb_antisym s a b : ready_leb s a b = true → ready_leb s b a = true → a = b.
Proof.
  rewrite !ready_leb_iff. intros [?|[? Hab]] [?|[? Hba]]; [lia..|].
  destruct a, b; simpl in *. f_equal. by apply (anti_symm String.le).
Qed.

Section ClaimFacts.
Context `{Platform} `{CatalogSerde} `{Serde}.
Implicit Types s : State.

(** ** What one grant is *)
Definition grant_activation (e : DomainEvent) : option ActivationId.t :=
  match e with ClaimGranted _ _ activation _ _ _ _ _ _ _ _ _ _ _ => Some activation | _ => None end.

(** The key the worker gives its external effect: a reconciliation probe asks
    about the effect of the claim it follows, any other attempt uses the key that
    is a function of the run, the activation and the role. *)
Definition grant_effect_key (run : RunId.t) (activation : ActivationId.t) (act : ActivationState)
    (role : ExecutionRole) : EffectKey.t :=
  default (stable_effect_key run activation role)
    (if is_reconciliation role then cl_effect_key <$> as_claim act else None).

(** The [i]-th grant of a decision is made on a free activation that the worker
    can run, with the next owner generation and a fresh lease. *)
Definition grant_ok s (worker : WorkerSession) (session : WorkerSessionId.t) (time : Z) (i : Z)
    (e : DomainEvent) : Prop :=
  match e with
  | ClaimGranted run scope activation _ _ _ attempt session' generation revision lease deadline key role =>
      run ∈ active_runs s ∧ activation ∈ unclaimed_ready s run time ∧
      session' = session ∧ generation = sat_add64 (next_generation s) (i + 1) ∧ revision = 1 ∧
      lease = lease_from time ∧ deadline = sat_add64 time (attempt_timeout role) ∧
      forward_withheld s run role time = false ∧
      worker_matches s worker activation role = Ok true ∧
      ∃ act, activations s !! activation = Some act ∧ scope = as_scope act ∧
             attempt = sat_add32 (as_attempts act) 1 ∧ role = grant_role s act time ∧
             key = grant_effect_key run activation act role
  | _ => False
  end.

(** A candidate the loop passed over: granted already, withheld or not matched. *)
Definition passed_over s (worker : WorkerSession) (run : RunId.t) (time : Z)
    (granted : list ActivationId.t) (id : ActivationId.t) : Prop :=
  id ∈ granted ∨ activations s !! id = None ∨
  ∃ act, activations s !! id = Some act ∧
    (forward_withheld s run (grant_role s act time) time = true ∨
     worker_matches s worker id (grant_role s act time) = Ok false).

(** The first candidate of the list that can be granted. *)
Definition selected s worker run time granted ready id : Prop :=
  ∃ before after act, ready = before ++ id :: after ∧ id ∉ granted ∧
    Forall (passed_over s worker run time granted) before ∧
    activations s !! id = Some act ∧
    forward_withheld s run (grant_role s act time) time = false ∧
    worker_matches s worker id (grant_role s act time) = Ok true.

Lemma selected_skip s worker run time granted x ready id :
  passed_over s worker run time granted x →
  selected s worker run time granted ready id → selected s worker run time granted (x :: ready) id.
Proof.
  intros Hx (before & after & act & -> & ? & ? & ?).
  exists (x :: before), after, act. split_and!; [done|done|by constructor|naive_solver..].
Qed.

Lemma select_ready_spec s worker run time granted ready id :
  select_ready s worker run time granted ready = Ok (Some id) →
  selected s worker run time granted ready id.
Proof.
  induction ready as [|x ready IH]; simpl; [done|]. intros Hsel.
  case_bool_decide; [by apply selected_skip; [left|auto]|].
  destruct (activations s !! x) as [act|] eqn:Hact; [|by apply selected_skip; [right; left|auto]].
  destruct (forward_withheld _ _ _ _) eqn:Hw; [by apply selected_skip; [right; right; eauto|auto]|].
  apply outcome_bind_ok in Hsel as ([] & Hm & Hsel); [|by apply selected_skip; [right; right; eauto|auto]].
  simplify_eq. exists [], ready, act. split_and!; [done|done|constructor|done..].
Qed.

(** ** The loop *)

(** Everything that became ready before the granted activation in its run was
    granted as well, or could not be granted to this worker. *)
Definition fifo_ok s (worker : WorkerSession) (time : Z) (granted : list ActivationId.t)
    (e : DomainEvent) : Prop :=
  match e with
  | ClaimGranted run _ activation _ _ _ _ _ _ _ _ _ _ _ =>
      ∀ b, b ∈ unclaimed_ready s run time → ready_leb s b activation = true → b ≠ activation →
        passed_over s worker run time granted b
  | _ => True
  end.

Lemma passed_over_mono s worker run time granted more id :
  passed_over s worker run time granted id → passed_over s worker run time (granted ++ more) id.
Proof. unfold passed_over. rewrite elem_of_app. tauto. Qed.

Lemma fifo_ok_mono s worker time granted more e :
  fifo_ok s worker time granted e → fifo_ok s worker time (granted ++ more) e.
Proof. destruct e; simpl; eauto using passed_over_mono. Qed.

(** What the loop has granted so far, after the renewal event [renewed]. *)
Definition loop_inv s worker session time (cap : Z) (renewed : list DomainEvent) (acc : ClaimLoop) : Prop :=
  ∃ grants, cll_events acc = renewed ++ grants ∧ cll_granted acc = zlen grants ∧
    grant_activation <$> grants = Some <$> cll_ids acc ∧ NoDup (cll_ids acc) ∧
    zlen grants ≤ Z.max cap 0 ∧
    (∀ i g, grants !! i = Some g → grant_ok s worker session time (Z.of_nat i) g) ∧
    Forall (fifo_ok s worker time (cll_ids acc)) grants.

Lemma grant_event_ok s worker run activation act session granted time e :
  grant_event s run activation act session granted time = Ok e →
  run ∈ active_runs s → activation ∈ unclaimed_ready s run time →
  activations s !! activation = Some act →
  forward_withheld s run (grant_role s act time) time = false →
  worker_matches s worker activation (grant_role s act time) = Ok true →
  grant_activation e = Some activation ∧ grant_ok s worker session time granted e.
Proof.
  unfold grant_event. intros Hg. ok_inv. simpl. intros. split; [done|]. split_and!; try done. by exists act.
Qed.

Lemma grant_event_fifo s worker run activation act session granted time ids e :
  grant_event s run activation act session granted time = Ok e →
  (∀ b, b ∈ unclaimed_ready s run time → ready_leb s b activation = true → b ≠ activation →
        passed_over s worker run time ids b) →
  fifo_ok s worker time ids e.
Proof. unfold grant_event. intros Hg. by ok_inv. Qed.

Lemma claim_candidates_elem s run time id :
  id ∈ claim_candidates s run time ↔ id ∈ unclaimed_ready s run time.
Proof. unfold claim_candidates. by rewrite sort_by_perm. Qed.

Lemma claim_candidates_sorted s run time :
  StronglySorted (λ a b, ready_leb s a b = true) (claim_candidates s run time).
Proof. apply Sorted_StronglySorted; [apply _|]. apply sort_by_sorted, ready_leb_total. Qed.

Lemma candidates_before s run time before id after b :
  claim_candidates s run time = before ++ id :: after →
  b ∈ unclaimed_ready s run time → ready_leb s b id = true → b ≠ id → b ∈ before.
Proof.
  intros Hc Hb Hle Hne. apply claim_candidates_elem in Hb. rewrite Hc in Hb.
  apply elem_of_app in Hb as [?|[?|Hb]%elem_of_cons]; [done|done|].
  pose proof (claim_candidates_sorted s run time) as Hs. rewrite Hc in Hs.
  rewrite cons_middle, app_assoc in Hs.
  apply StronglySorted_app_1_elem_of with (x1 := id) (x2 := b) in Hs; [|set_solver..].
  by destruct Hne; eapply ready_leb_antisym.
Qed.

Lemma claim_pass_inv s worker session cap time renewed runs acc progressed acc' progressed' :
  (∀ run, run ∈ runs → run ∈ active_runs s) →
  loop_inv s worker session time cap renewed acc →
  claim_pass s worker session cap time runs acc progressed = Ok (acc', progressed') →
  loop_inv s worker session time cap renewed acc'.
Proof.
  revert acc progressed. induction runs as [|run runs IH]; simpl; intros acc progressed Hruns Hinv Hp; ok_inv;
    try done; try (eapply IH; [set_solver| |done]; done).
  apply select_ready_spec in H2 as (before & after & act' & Hc & Hnew & Hpass & Hact' & Hw & Hm).
  simplify_eq. to_prop.
  destruct Hinv as (grants & Hev & Hg & Hids & Hnd & Hle & Hok & Hfifo).
  match goal with Hge : grant_event _ _ _ _ _ _ _ = Ok _ |- _ =>
    pose proof (grant_event_fifo _ worker _ _ _ _ _ _ (cll_ids acc) _ Hge) as Hfe;
    eapply grant_event_ok in Hge as [Hga Hgok] end; [|set_solver| |done..].
  2: { apply claim_candidates_elem. rewrite Hc. set_solver. }
  eapply IH; [set_solver| |done]. eexists (grants ++ [_]). simpl. unfold zlen in *.
  split_and!.
  - by rewrite Hev, <-app_assoc.
  - rewrite Hg, length_app. simpl. lia.
  - rewrite !fmap_app, Hids. simpl. by rewrite Hga.
  - apply NoDup_app. split_and!; [done|set_solver|apply NoDup_singleton].
  - rewrite length_app. simpl. lia.
  - intros i g [Hi|[Hi Hg1]]%lookup_app_Some; [by apply Hok|].
    destruct (i - length grants)%nat eqn:Hn; simpl in Hg1; simplify_eq.
    rewrite Hg in Hgok. by replace i with (length grants) by lia.
  - apply Forall_app. split; [eapply Forall_impl; [done|]; by apply fifo_ok_mono|].
    apply Forall_singleton, fifo_ok_mono, Hfe. intros b ? ? ?.
    rewrite Forall_forall in Hpass. eapply Hpass, candidates_before; done.
Qed.

Lemma claim_rounds_inv fuel s worker session cap time renewed runs acc acc' :
  (∀ run, run ∈ runs → run ∈ active_runs s) →
  loop_inv s worker session time cap renewed acc →
  claim_rounds fuel s worker session cap time runs acc = Some (Ok acc') →
  loop_inv s worker session time cap renewed acc'.
Proof.
  intros Hruns. revert acc. induction fuel as [|fuel IH]; simpl; intros acc Hinv Hr; [done|].
  case_match; [by simplify_eq|].
  destruct (claim_pass _ _ _ _ _ _ _ _) as [[acc1 []]|e|w] eqn:Hp; simplify_eq;
    eapply claim_pass_inv in Hp; eauto.
Qed.

Lemma fair_runs_elem s run : run ∈ fair_runs s → run ∈ active_runs s.
Proof.
  unfold fair_runs. intros Hrun. rewrite <-(sort_by_perm RunId.leb (active_runs s)).
  case_match; [|done]. rewrite elem_of_app in Hrun. rewrite <-(take_drop (Nat.modulo
    (length (List.filter (λ r, RunId.leb r t) (sort_by RunId.leb (active_runs s))))
    (length (sort_by RunId.leb (active_runs s)))) (sort_by RunId.leb (active_runs s))).
  rewrite elem_of_app. tauto.
Qed.

(** The renewal of a local session that precedes the grants. *)
Definition session_renewal (session : WorkerSessionId.t) (worker : WorkerSession) (time : Z) :
    list DomainEvent :=
  if bool_decide (ws_principal_id worker = "")
  then [SessionRegistered session (ws_activities worker) (ws_capacity worker) (lease_from time)] else [].

Lemma omap_of_fmap {A B} (f : A → option B) (l : list A) (ids : list B) :
  f <$> l = Some <$> ids → omap f l = ids.
Proof.
  revert ids. induction l as [|x l IH]; intros [|y ids] Heq; csimpl in *; try done.
  injection Heq as Hx Hl. rewrite Hx. f_equal. auto.
Qed.

(** Everything the theorems on [decide_claim] need. *)
Lemma decide_claim_grants s session capacity time evs :
  decide_claim s session capacity time = Ok evs →
  ∃ worker grants, sessions s !! session = Some worker ∧ time < ws_expires_ms worker ∧
    evs = session_renewal session worker time ++ grants ∧
    zlen grants ≤ Z.max (claim_cap s worker session capacity time) 0 ∧
    NoDup (omap grant_activation grants) ∧
    (∀ i g, grants !! i = Some g → grant_ok s worker session time (Z.of_nat i) g) ∧
    Forall (fifo_ok s worker time (omap grant_activation grants)) grants.
Proof.
  unfold decide_claim. intros (worker & Hw%ok_or_ok & Hd)%outcome_bind_ok.
  destruct (ws_expires_ms worker <=? time) eqn:Hexp; [done|]. to_prop. exists worker. case_bool_decide.
  - injection Hd as <-. exists []. rewrite app_nil_r. split_and!; unfold zlen; simpl; try done; try lia;
      try apply NoDup_nil_2; by apply Forall_nil_2.
  - apply outcome_bind_ok in Hd as (acc & Hacc & [= <-]).
    destruct (claim_rounds _ _ _ _ _ _ _ _) as [r|] eqn:Hr; simpl in Hacc; [subst r|done].
    eapply claim_rounds_inv in Hr as (grants & -> & _ & Hids & Hnd & Hlen & Hok & Hfifo).
    + exists grants. apply omap_of_fmap in Hids. rewrite <-Hids in Hnd, Hfifo. by split_and!.
    + apply fair_runs_elem.
    + exists []. simpl. rewrite app_nil_r. split_and!; unfold zlen; simpl; try done; try lia;
        try apply NoDup_nil_2; by apply Forall_nil_2.
Qed.

(** ** Theorems *)

(** C4: safety of claims. Every claim that [decide_claim] grants goes to the
    asking session on an active run, on an activation that is ready, free (no
    claim, or one whose lease has run out), not held for intervention and not
    withheld, that the worker can run; no activation is granted twice, the owner
    generations are the next ones in order, and there are no more grants than the
    request, the spare capacity of the session and the batch limit allow. *)
Theorem decide_claim_safe s session capacity time evs :
  decide_claim s session capacity time = Ok evs →
  ∃ worker grants, sessions s !! session = Some worker ∧ time < ws_expires_ms worker ∧
    evs = session_renewal session worker time ++ grants ∧
    zlen grants ≤ Z.max (claim_cap s worker session capacity time) 0 ∧
    NoDup (omap grant_activation grants) ∧
    ∀ i g, grants !! i = Some g → grant_ok s worker session time (Z.of_nat i) g.
Proof.
  intros (worker & grants & ? & ? & ? & ? & ? & ? & _)%decide_claim_grants.
  exists worker, grants. by split_and!.
Qed.

(** Claims are first come, first served within a run. An activation that
    became ready before a granted one (or at the same time with a smaller
    identity) and is free as well was granted in the same decision, or was
    withheld, or cannot be run by this worker. *)
Theorem decide_claim_fifo s session capacity time evs :
  decide_claim s session capacity time = Ok evs →
  ∃ worker, sessions s !! session = Some worker ∧
    Forall (fifo_ok s worker time (omap grant_activation evs)) evs.
Proof.
  intros (worker & grants & ? & _ & -> & _ & _ & _ & Hfifo)%decide_claim_grants.
  exists worker. split; [done|]. rewrite omap_app.
  assert (omap grant_activation (session_renewal session worker time) = []) as ->.
  { unfold session_renewal. by case_bool_decide. }
  apply Forall_app. split; [|done]. unfold session_renewal. case_bool_decide; repeat constructor.
Qed.

Lemma claim_pass_granted s worker session cap time runs acc p acc' p' :
  claim_pass s worker session cap time runs acc p = Ok (acc', p') →
  cll_granted acc ≤ cll_granted acc' ∧ (p' = true → p = true ∨ cll_granted acc < cll_granted acc').
Proof.
  revert acc p. induction runs as [|run runs IH]; simpl; intros acc p Hp; ok_inv; try (split; [lia|auto]; fail).
  all: match goal with Hp : claim_pass _ _ _ _ _ _ _ _ = Ok _ |- _ => apply IH in Hp as [? ?] end;
    simpl in *; split; [lia|]; intuition lia.
Qed.

Lemma claim_rounds_fuel fuel s worker session cap time runs acc :
  (Z.to_nat (cap - cll_granted acc) < fuel)%nat →
  is_Some (claim_rounds fuel s worker session cap time runs acc).
Proof.
  revert acc. induction fuel as [|fuel IH]; intros acc Hf; [lia|]. simpl.
  case_match; [eauto|]. to_prop.
  destruct (claim_pass _ _ _ _ _ _ _ _) as [[acc1 []]|e|w] eqn:Hp; eauto.
  apply IH. apply claim_pass_granted in Hp as [_ [?|?]]; [done|done|lia].
Qed.

(** The claim loop terminates. The [cap + 1] passes that the model allows
    for [while granted < cap] are always enough, from any point of the loop. *)
Theorem claim_loop_terminates s worker session cap time runs acc :
  0 ≤ cll_granted acc →
  is_Some (claim_rounds (S (Z.to_nat cap)) s worker session cap time runs acc).
Proof. intros. apply claim_rounds_fuel. lia. Qed.

(** ** Capacity *)
Definition is_grant (e : DomainEvent) : bool := bool_decide (is_Some (grant_activation e)).

Lemma apply_event_activations cid pid t s e s' :
  apply_event_with_cause cid pid t s e = Ok s' →
  ∃ s1, evolve s e = Ok s1 ∧ activations s' = activations s1.
Proof. intros (s1 & ? & Hp & _)%apply_event_split. exists s1. split; [done|]. by injection Hp. Qed.

Section Capacity.
Context `{!PlatformLaws _}.

Lemma grants_count s evs cid pid t s' session time :
  Forall (λ e, is_grant e = true) evs →
  apply_events_with_cause s evs cid pid t = Ok s' →
  hm_count (in_flight session time) (activations s') ≤
    hm_count (in_flight session time) (activations s) + zlen evs ∧
  size (activations s') = size (activations s).
Proof.
  unfold apply_events_with_cause. intros Hall. revert s.
  induction Hall as [|e evs He _ IH]; simpl; intros s Happ; ok_inv; [unfold zlen; simpl; split; [lia|done]|].
  match goal with H : apply_event_with_cause _ _ _ _ _ = Ok _ |- _ =>
    apply apply_event_activations in H as (s1 & Hev & Ha) end.
  destruct (IH _ Happ) as [Hc Hsz]. rewrite Ha in Hc, Hsz. destruct e; simpl in *; try done; ok_inv.
  unfold evolve_claim_granted in *. simpl in *. unfold zlen in *. simpl.
  rewrite size_alter in Hsz. split; [|done].
  pose proof (hm_count_alter (in_flight session time) (activations s) activation).
  etrans; [exact Hc|]. etrans; [apply Z.add_le_mono_r, hm_count_alter|]. lia.
Qed.

Lemma worker_in_flight_count s session time :
  Z.of_nat (size (activations s)) < 2 ^ 32 →
  worker_in_flight s session time = hm_count (in_flight session time) (activations s).
Proof.
  intros Hsz. unfold worker_in_flight. fold (hm_count (in_flight session time) (activations s)).
  unfold wrap32. apply Z.mod_small. pose proof (hm_count_size (in_flight session time) (activations s)).
  unfold hm_count, zlen in *. lia.
Qed.

Lemma grant_ok_is_grant s worker session time i e :
  grant_ok s worker session time i e → is_grant e = true.
Proof. by destruct e. Qed.

(** C5: a session never holds more live claims than its capacity. When the
    events of a claim decision are applied, the number of live claims of the
    session stays within the capacity it registered. *)
Theorem claims_within_capacity s session capacity time evs worker cid pid t s' :
  decide_claim s session capacity time = Ok evs →
  sessions s !! session = Some worker →
  Z.of_nat (size (activations s)) < 2 ^ 32 →
  worker_in_flight s session time ≤ ws_capacity worker →
  apply_events_with_cause s evs cid pid t = Ok s' →
  worker_in_flight s' session time ≤ ws_capacity worker.
Proof.
  intros (w & grants & ? & _ & -> & Hlen & _ & Hok & _)%decide_claim_grants Hw Hsz Hcap Happ. simplify_eq.
  assert (Forall (λ e, is_grant e = true) grants) as Hall.
  { apply Forall_lookup. intros i e He. eapply grant_ok_is_grant, Hok, He. }
  assert (∃ s1, activations s1 = activations s ∧
    apply_events_with_cause s1 grants cid pid t = Ok s') as (s1 & Ha & Happ1).
  { unfold session_renewal in Happ. case_bool_decide; [|by exists s]. simpl in Happ.
    apply outcome_bind_ok in Happ as (s1 & Hs1 & Happ). exists s1. split; [|done].
    apply apply_event_activations in Hs1 as (s2 & Hev & ->). simpl in Hev. by simplify_eq. }
  eapply grants_count with (session := session) (time := time) in Happ1 as [Hc Hsz']; [|done].
  rewrite Ha in Hc, Hsz'. rewrite worker_in_flight_count in * by lia.
  unfold claim_cap, sat_sub in Hlen. rewrite worker_in_flight_count in Hlen by lia. lia.
Qed.
End Capacity.

(** ** Owner generations are unique tokens *)
Definition token s (k : ActivationId.t) : option Z :=
  cl_generation <$> (activations s !! k ≫= as_claim).

(** Until the counter saturates, no token is ahead of it and none is shared. *)
Definition claims_wf s : Prop :=
  next_generation s < u64_max →
  (∀ k g, token s k = Some g → g ≤ next_generation s) ∧
  (∀ k1 k2 g, token s k1 = Some g → token s k2 = Some g → k1 = k2).

(** A grant takes the next generation. *)
Definition grant_guard s (e : DomainEvent) : Prop :=
  match e with
  | ClaimGranted _ _ _ _ _ _ _ _ generation _ _ _ _ _ => generation = sat_add64 (next_generation s) 1
  | _ => True
  end.

Lemma token_evolve s e s' :
  evolve s e = Ok s' → is_grant e = false →
  next_generation s' = next_generation s ∧ ∀ k g, token s' k = Some g → token s k = Some g.
Proof.
  intros Hev Hng. unfold token. evolve_cases Hev; try done; (split; [done|]); intros k g; try done.
  all: rewrite ?lookup_alter, ?lookup_insert, ?lookup_fmap; repeat case_decide; subst; simpl; try done.
  all: destruct (activations s !! _) as [a|]; simpl; try done; repeat case_match; simpl; try done.
  all: destruct (as_claim a); simpl; done.
Qed.

Lemma token_granted s e s' a g :
  evolve s e = Ok s' → grant_activation e = Some a → grant_guard s e →
  g = sat_add64 (next_generation s) 1 →
  next_generation s' = g ∧
  ∀ k, token s' k = if decide (a = k) then (λ _, g) <$> activations s !! a else token s k.
Proof.
  intros Hev Ha Hg ->. destruct e; simplify_eq/=. split; [done|]. intros k. unfold token. simpl.
  rewrite lookup_alter. case_decide; subst; [|done]. by destruct (activations s !! k).
Qed.

Lemma sat_add64_unsaturated n k : sat_add64 n k < u64_max → sat_add64 n k = n + k.
Proof. unfold sat_add64. lia. Qed.

#[export] Instance claims_wf_invariant : EventInvariant grant_guard claims_wf.
Proof.
  split.
  - intros s e s' Hg Hwf Hev Hlt. destruct (grant_activation e) as [a|] eqn:Ha.
    + destruct (token_granted _ _ _ _ _ Hev Ha Hg eq_refl) as [Hn Htok].
      rewrite Hn in *. rewrite sat_add64_unsaturated in * by done. destruct Hwf as [Hle Huniq]; [lia|].
      assert (∀ k g, a ≠ k → token s' k = Some g → token s k = Some g) as Hother.
      { intros k g Hne. by rewrite Htok, decide_False. }
      assert (∀ g, token s' a = Some g → g = next_generation s + 1) as Hself.
      { intros g. rewrite Htok, decide_True by done. by intros (? & _ & ->)%fmap_Some. }
      assert (∀ k g, a ≠ k → token s' k = Some g → g ≤ next_generation s) as Hbound by eauto.
      split.
      * intros k g Hk. destruct (decide (a = k)) as [<-|]; [apply Hself in Hk; lia|].
        apply Hbound in Hk; [lia|done].
      * intros k1 k2 g H1k H2k. destruct (decide (a = k1)) as [<-|], (decide (a = k2)) as [<-|];
          [done| | |by eauto].
        { apply Hself in H1k. apply Hbound in H2k; [lia|done]. }
        { apply Hself in H2k. apply Hbound in H1k; [lia|done]. }
    + assert (is_grant e = false) as Hng by (unfold is_grant; by rewrite Ha).
      destruct (token_evolve _ _ _ Hev Hng) as [Hn Htok]. rewrite Hn in *.
      destruct (Hwf Hlt) as [Hle Huniq]. split; [eauto|]. intros k1 k2 g ?%Htok ?%Htok. eauto.
  - intros s s' [= _ _ Ha _ _ _ _ Hn]. unfold claims_wf, token. by rewrite Ha, Hn.
Qed.

Lemma guarded_grants s evs :
  (∀ i e, evs !! i = Some e → ∃ run scope a h v inp att ses rev lease dl key role,
     e = ClaimGranted run scope a h v inp att ses (sat_add64 (next_generation s) (Z.of_nat i + 1)) rev lease dl
           key role) →
  guarded grant_guard s evs.
Proof.
  revert s. induction evs as [|e evs IH]; intros s Hall; constructor.
  - destruct (Hall 0%nat e eq_refl) as (? & ? & ? & ? & ? & ? & ? & ? & ? & ? & ? & ? & ? & ->). done.
  - intros s1 s2 Hev [= _ _ _ _ _ _ _ Hn]. apply IH. intros i e' He'.
    destruct (Hall 0%nat e eq_refl) as (? & ? & ? & ? & ? & ? & ? & ? & ? & ? & ? & ? & ? & ->).
    destruct (Hall (S i) e' He') as (? & ? & ? & ? & ? & ? & ? & ? & ? & ? & ? & ? & ? & ->).
    rewrite Hn. simpl in Hev. simplify_eq. simpl. do 13 eexists. f_equal. unfold sat_add64. lia.
Qed.

Lemma decide_claim_guarded s session capacity time evs :
  decide_claim s session capacity time = Ok evs → guarded grant_guard s evs.
Proof.
  intros (worker & grants & _ & _ & -> & _ & _ & Hok & _)%decide_claim_grants.
  assert (∀ s2, next_generation s2 = next_generation s → guarded grant_guard s2 grants) as Hgrants.
  { intros s2 Hn. apply guarded_grants. intros i e He%Hok. rewrite Hn. destruct e; simpl in He; try done.
    destruct He as (_ & _ & _ & -> & _). repeat eexists. }
  unfold session_renewal. case_bool_decide; simpl; [|by apply Hgrants].
  constructor; [done|]. intros s1 s2 Hev [= _ _ _ _ _ _ _ Hn]. simpl in Hev. simplify_eq. by apply Hgrants.
Qed.

(** ** Fencing *)

(** The session holds the activation's claim under these tokens, and neither the
    session, the lease nor the attempt has run out. *)
Definition live_owner s (run : RunId.t) (activation : ActivationId.t) (session : WorkerSessionId.t)
    (generation revision time : Z) : Prop :=
  ∃ act claim worker, activations s !! activation = Some act ∧ as_run act = run ∧
    as_status act = ActivationStatus_Ready ∧ as_claim act = Some claim ∧ cl_session claim = session ∧
    cl_generation claim = generation ∧ cl_revision claim = revision ∧ sessions s !! session = Some worker ∧
    time < ws_expires_ms worker ∧ time < cl_lease_expiry_ms claim ∧ time < cl_attempt_deadline_ms claim.

Lemma validate_claim_owner_ok s run activation session generation revision time claim :
  validate_claim_owner s run activation session generation revision time = Ok claim →
  live_owner s run activation session generation revision time ∧
  (activations s !! activation ≫= as_claim) = Some claim.
Proof.
  unfold validate_claim_owner. intros Hv. ok_inv. to_prop.
  match goal with Ha : activations s !! _ = Some ?a |- _ => rewrite Ha; simpl; split; [exists a|done] end.
  repeat eexists; eauto.
Qed.

Lemma live_owner_accepted s run activation session generation revision time :
  live_owner s run activation session generation revision time →
  is_ok (validate_claim_owner s run activation session generation revision time) = true.
Proof.
  intros (act & claim & worker & Ha & <- & Hs & Hc & <- & <- & <- & Hw & ? & ? & ?).
  unfold validate_claim_owner. rewrite Ha. simpl. rewrite !bool_decide_eq_true_2 by done. simpl.
  rewrite Hc. simpl. rewrite bool_decide_eq_true_2, !Z.eqb_refl by done. simpl. rewrite Hw. simpl.
  rewrite !(proj2 (Z.leb_gt _ _)) by done. done.
Qed.

Lemma live_owner_token s run a session generation revision time :
  live_owner s run a session generation revision time → token s a = Some generation.
Proof.
  intros (act & claim & worker & Ha & _ & _ & Hc & _ & <- & _). unfold token. rewrite Ha. simpl. by rewrite Hc.
Qed.

(** The events of a claim decision. *)
Definition claim_event (e : DomainEvent) : bool :=
  is_grant e || match e with SessionRegistered _ _ _ _ => true | _ => false end.

Lemma claim_event_step s e s' :
  claim_event e = true → grant_guard s e → evolve s e = Ok s' → next_generation s' < u64_max →
  next_generation s ≤ next_generation s' ∧ next_generation s < u64_max ∧
  ∀ a, is_Some (activations s !! a) → is_Some (activations s' !! a) ∧
    (token s' a = token s a ∨ token s' a = Some (next_generation s + 1)) ∧
    (grant_activation e = Some a → token s' a = Some (next_generation s + 1)).
Proof.
  intros He Hg Hev Hlt. destruct (grant_activation e) as [b|] eqn:Hb.
  - destruct (token_granted _ _ _ _ _ Hev Hb Hg eq_refl) as [Hn Htok].
    rewrite Hn in *. rewrite sat_add64_unsaturated in * by done. split; [lia|]. split; [lia|].
    intros a Ha. rewrite Htok. split.
    { destruct e; simplify_eq/=. rewrite lookup_alter. case_decide; subst; [|done].
      destruct Ha as [x ->]. by eexists. }
    case_decide as Hab; subst; [|split; [by left|congruence]].
    destruct Ha as [x ->]. simpl. auto.
  - destruct e; unfold claim_event, is_grant in He; simplify_eq/=. split; [lia|]. split; [lia|].
    intros a Ha. split; [done|]. by split; [left|].
Qed.

Lemma apply_claims_token s evs cid pid t s' :
  Forall (λ e, claim_event e = true) evs → guarded grant_guard s evs →
  apply_events_with_cause s evs cid pid t = Ok s' → next_generation s' < u64_max →
  next_generation s ≤ next_generation s' ∧ next_generation s < u64_max ∧
  ∀ a n, is_Some (activations s !! a) → n ≤ next_generation s →
    (Some a ∈ grant_activation <$> evs ∨ ∃ g, token s a = Some g ∧ n < g) →
    ∃ g, token s' a = Some g ∧ n < g.
Proof.
  unfold apply_events_with_cause. intros Hall Hg. revert s' Hall.
  induction Hg as [s|s e evs Hpre _ IH]; simpl; intros s' Hall Happ Hlt.
  { simplify_eq. split_and!; [done|done|]. intros a n _ _ [Hin|?]; [set_solver|done]. }
  apply outcome_bind_ok in Happ as (s2 & Hs2 & Happ). apply Forall_cons in Hall as [He Hall].
  apply apply_event_split in Hs2 as (s1 & Hev & Hp & _).
  destruct (IH s1 s2 Hev Hp s' Hall Happ Hlt) as (Hle & Hlt2 & Hfin).
  injection Hp as _ _ Ha _ _ _ _ Hn. rewrite Hn in *.
  destruct (claim_event_step _ _ _ He Hpre Hev Hlt2) as (Hle1 & ? & Hstep).
  split; [lia|]. split; [done|]. intros a n Hsome Hn0 Hor.
  destruct (Hstep a Hsome) as (Hsome1 & Htok & Hgr).
  assert (token s2 a = token s1 a) as Htok2 by (unfold token; by rewrite Ha).
  apply Hfin; [by rewrite Ha|lia|]. rewrite Htok2.
  destruct Hor as [[Hea|Hin]%elem_of_cons|(g & Hg & ?)]; [right|by left|right].
  - exists (next_generation s + 1). split; [by apply Hgr|lia].
  - destruct Htok as [->| ->]; [by exists g|]. exists (next_generation s + 1). split; [done|lia].
Qed.

Lemma decide_claim_events s session capacity time evs :
  decide_claim s session capacity time = Ok evs → Forall (λ e, claim_event e = true) evs.
Proof.
  intros (worker & grants & _ & _ & -> & _ & _ & Hok & _)%decide_claim_grants.
  apply Forall_app. split; [unfold session_renewal; case_bool_decide; by repeat constructor|].
  apply Forall_lookup. intros i e He%Hok%grant_ok_is_grant. unfold claim_event. by rewrite He.
Qed.

(** C6: a new grant fences the previous owner. Once an activation whose lease ran
    out is granted again, every report under the previous claim's generation is
    refused, whatever revision and time it carries. *)
Theorem regrant_fences_previous_owner s session capacity time evs cid pid t s' a act claim run revision now :
  claims_wf s →
  decide_claim s session capacity time = Ok evs →
  apply_events_with_cause s evs cid pid t = Ok s' →
  next_generation s' < u64_max →
  Some a ∈ grant_activation <$> evs →
  activations s !! a = Some act → as_claim act = Some claim →
  is_ok (validate_claim_owner s' run a (cl_session claim) (cl_generation claim) revision now) = false.
Proof.
  intros Hwf Hd Happ Hlt Hin Hact Hcl.
  pose proof (decide_claim_events _ _ _ _ _ Hd) as Hall.
  pose proof (decide_claim_guarded _ _ _ _ _ Hd) as Hg.
  destruct (apply_claims_token _ _ _ _ _ _ Hall Hg Happ Hlt) as (_ & Hlt0 & Htok).
  destruct (Htok a (next_generation s)) as (g & Hg' & Hgt); [by rewrite Hact|lia|by left|].
  destruct (Hwf Hlt0) as [Hle _]. assert (cl_generation claim ≤ next_generation s).
  { apply (Hle a). unfold token. rewrite Hact. simpl. by rewrite Hcl. }
  destruct (validate_claim_owner _ _ _ _ _ _ _) as [c| |] eqn:Hv; [|done..].
  apply validate_claim_owner_ok in Hv as [Hl%live_owner_token _]. simplify_eq. lia.
Qed.
End ClaimFacts.
