(* ===== verification/ReportFacts.v ===== *)
(** * Renewals, reports and reconciliation *)
From stdpp Require Import base option gmap strings list sorting.
From Stdlib Require Import ZArith Ascii Lia.
From S2P Require Import Prelude Value Ids Policy Catalog Ir Domain Eval Evolve History Steps Saga Signals Claims Progress Command EvolveFacts ClaimFacts.

Section ReportFacts.
Context `{Platform} `{CatalogSerde} `{Serde}.
Implicit Types s : State.

(** The claim a report command presents, if it is one. *)
Definition presents_claim s (c : Command) : Prop :=
  match cmd_body c with
  | Cmd_ReportAssigned run activation _ session generation revision
  | Cmd_ReportWorker run activation session generation revision _ _
  | Cmd_Reconcile run activation session generation revision _ _
  | Cmd_ReconcileWorker run activation session generation revision _ _ =>
      live_owner s run activation session generation revision (cmd_time c)
  | _ => True
  end.

(** C7: results are accepted from the live owner only. Whenever one of the four
    worker reports is decided successfully, the reporting session holds the
    activation's claim under the presented generation and revision, the
    activation still awaits a result, and neither the session, the lease nor the
    attempt deadline has passed. *)
Theorem report_needs_live_owner s c ids evs ids' :
  decide_body s c ids = Ok (evs, ids') → presents_claim s c.
Proof.
  unfold decide_body, presents_claim. destruct (cmd_body c) eqn:Hb; intros Hd; try exact Logic.I.
  - unfold decide_report_assigned in Hd. ok_inv. by eapply validate_claim_owner_ok.
  - unfold decide_report_worker in Hd. ok_inv; by eapply validate_claim_owner_ok.
  - unfold decide_reconcile in Hd. ok_inv; by eapply validate_claim_owner_ok.
  - unfold decide_reconcile_worker in Hd. ok_inv; by eapply validate_claim_owner_ok.
Qed.

(** ** Renewal *)

(** A renewal extends the lease and nothing else. It changes only the claim
    of the renewed activation; the claim keeps its owner, generation, attempt
    deadline, effect key, role and probe count, its lease is counted from now and
    its revision moves on, so that the old revision is refused from then on. *)
Theorem renewal_extends_lease_only s session activation generation revision time evs s' :
  decide_renew s session activation generation revision time = Ok evs →
  outcome_fold evolve s evs = Ok s' →
  revision < u64_max →
  ∃ act claim, activations s !! activation = Some act ∧ as_claim act = Some claim ∧
    cl_session claim = session ∧ cl_generation claim = generation ∧ cl_revision claim = revision ∧
    time < cl_lease_expiry_ms claim ∧ time < cl_attempt_deadline_ms claim ∧
    activations s' = <[activation := act_with_claim (Some (mkClaimState session generation (revision + 1)
      (lease_from time) (cl_attempt_deadline_ms claim) (cl_effect_key claim) (cl_role claim)
      (cl_probes claim) (cl_unknown_reported claim))) act]> (activations s) ∧
    ∀ run now, is_ok (validate_claim_owner s' run activation session generation revision now) = false.
Proof.
  unfold decide_renew. intros Hd Hev Hrev. ok_inv. to_prop.
  match goal with Ha : activations s !! _ = Some ?a, Hc : as_claim ?a = Some ?c |- _ =>
    exists a, c; rename Ha into Hact; rename Hc into Hcl end.
  assert (counter_next revision = revision + 1) as Hnext by (unfold counter_next, sat_add64; lia).
  subst. unfold evolve_claim_renewed in *. split_and!; try done.
  - simpl. apply map_eq. intros k. rewrite lookup_alter, lookup_insert. case_decide; subst; [|done].
    rewrite Hact. simpl. unfold act_with_claim. rewrite Hcl. simpl. unfold claim_renewed. by rewrite Hnext.
  - intros run now. destruct (validate_claim_owner _ _ _ _ _ _ _) as [c| |] eqn:Hv; [|done..].
    apply validate_claim_owner_ok in Hv as [(act & claim & _ & Ha & _ & _ & Hc & _ & _ & Hr & _) _].
    simpl in Ha. rewrite lookup_alter_eq, Hact in Ha. simplify_eq/=. rewrite Hcl in Hc. simplify_eq/=. lia.
Qed.

(** ** Effect keys *)

(** The effect key in a grant of an activation. *)
Definition granted_key (evs : list DomainEvent) (run : RunId.t) (activation : ActivationId.t)
    (role : ExecutionRole) (key : EffectKey.t) : Prop :=
  ∃ scope handler version input attempt session generation revision lease deadline,
    ClaimGranted run scope activation handler version input attempt session generation revision lease
      deadline key role ∈ evs.

Lemma granted_key_spec s session capacity time evs run activation role key :
  decide_claim s session capacity time = Ok evs → granted_key evs run activation role key →
  ∃ act, activations s !! activation = Some act ∧ role = grant_role s act time ∧
    key = grant_effect_key run activation act role.
Proof.
  intros (worker & grants & _ & _ & -> & _ & _ & Hok & _)%decide_claim_grants.
  intros (? & ? & ? & ? & ? & ? & ? & ? & ? & ? & [Hin|Hin]%elem_of_app).
  - unfold session_renewal in Hin. case_bool_decide; set_solver.
  - apply list_elem_of_lookup in Hin as (i & Hi%Hok). simpl in Hi.
    destruct Hi as (_ & _ & _ & _ & _ & _ & _ & _ & _ & act & ? & _ & _ & ? & ?). by exists act.
Qed.

(** Effect keys are stable. Every forward (or compensation) attempt of an
    activation carries the same effect key, whenever and to whomever it is
    granted, and a reconciliation probe carries the key of the claim whose effect
    it asks about. *)
Theorem effect_keys_stable s1 session1 capacity1 time1 evs1 s2 session2 capacity2 time2 evs2
    run activation role key1 key2 :
  decide_claim s1 session1 capacity1 time1 = Ok evs1 →
  decide_claim s2 session2 capacity2 time2 = Ok evs2 →
  granted_key evs1 run activation role key1 → granted_key evs2 run activation role key2 →
  if is_reconciliation role
  then ∃ act claim, activations s2 !! activation = Some act ∧ as_claim act = Some claim ∧
         key2 = cl_effect_key claim
  else key1 = key2.
Proof.
  intros Hd1 Hd2 Hk1 Hk2.
  destruct (granted_key_spec _ _ _ _ _ _ _ _ _ Hd1 Hk1) as (act1 & _ & _ & ->).
  destruct (granted_key_spec _ _ _ _ _ _ _ _ _ Hd2 Hk2) as (act2 & Ha2 & Hr2 & ->).
  unfold grant_effect_key. destruct (is_reconciliation role) eqn:Hr; [|done].
  exists act2. unfold is_reconciliation in Hr. apply bool_decide_eq_true in Hr.
  rewrite Hr in Hr2. unfold grant_role in Hr2. case_bool_decide; [done|].
  destruct (as_claim act2) as [claim|]; [|by repeat case_match]. exists claim. done.
Qed.

(** ** Reconciliation probes *)

Lemma unknown_probe_inv s run activation session generation revision time ids evs ids' :
  decide_reconcile s run activation session generation revision ReconcileOutcome_Unknown None time ids =
    Ok (evs, ids') →
  ∃ act claim, activations s !! activation = Some act ∧ as_claim act = Some claim ∧
    cl_unknown_reported claim = false ∧
    let probes := sat_add32 (cl_probes claim) 1 in
    evs = ReconciliationRecorded run activation ReconcileOutcome_Unknown None probes ::
      (if RECONCILIATION_PROBES <=? probes
       then [InterventionRequired run activation "reconciliation probes exhausted"; ClaimCleared activation]
       else []).
Proof.
  unfold decide_reconcile. intros Hd.
  apply run_bind_ok in Hd as (act & ? & [Ha%ok_or_ok ->]%lift_ok & Hd).
  do 2 (case_match; [by ok_inv|]).
  apply run_bind_ok in Hd as (claim & ? & [Hv ->]%lift_ok & Hd).
  apply validate_claim_owner_ok in Hv as [_ Hc]. rewrite Ha in Hc. simpl in Hc.
  case_match; [by ok_inv|]. case_match; [by ok_inv|].
  apply run_bind_ok in Hd as (? & ? & [_ ->]%lift_ok & Hd).
  destruct (cl_unknown_reported claim) eqn:Hu; simpl in Hd; [by ok_inv|].
  exists act, claim. split_and!; try done. by ok_inv.
Qed.

(** Reconciliation gives up after three unanswered probes. An [Unknown]
    outcome is recorded once per claim with the probe count one higher; before
    the limit the claim then refuses a second [Unknown], and at the limit the
    activation is parked for an operator: it loses its claim and is no longer
    offered to any worker. *)
Theorem unknown_probes_are_bounded s run activation session generation revision time ids evs ids' s' :
  decide_reconcile s run activation session generation revision ReconcileOutcome_Unknown None time ids =
    Ok (evs, ids') →
  outcome_fold evolve s evs = Ok s' →
  ∃ claim, (activations s !! activation ≫= as_claim) = Some claim ∧ cl_unknown_reported claim = false ∧
    if RECONCILIATION_PROBES <=? sat_add32 (cl_probes claim) 1
    then (activations s' !! activation ≫= as_claim) = None ∧
         (∀ run' now, activation ∉ unclaimed_ready s' run' now)
    else (activations s' !! activation ≫= as_claim) =
           Some (claim_probed (sat_add32 (cl_probes claim) 1) true claim) ∧
         (∀ now ids2, is_ok (decide_reconcile s' run activation session generation revision
                              ReconcileOutcome_Unknown None now ids2) = false).
Proof.
  intros Hd Hev. apply unknown_probe_inv in Hd as (act & claim & Ha & Hc & Hu & ->).
  exists claim. rewrite Ha. simpl. split_and!; [done|done|]. case_match.
  - simpl in Hev. simplify_eq. unfold evolve_claim_cleared, evolve_reconciliation_recorded. simpl.
    split; [by rewrite !lookup_alter_eq, Ha|].
    intros run' now. unfold unclaimed_ready. rewrite elem_of_filter_b. simpl.
    rewrite lookup_insert_eq, bool_decide_eq_true_2 by eauto. by intros [? _].
  - simpl in Hev. simplify_eq. unfold evolve_reconciliation_recorded. simpl. split.
    { rewrite lookup_alter_eq, Ha. simpl. by rewrite Hc. }
    intros now ids2. destruct (decide_reconcile _ _ _ _ _ _ _ _ _ _) as [[evs2 ids3]| |] eqn:Hd2; [|done..].
    apply unknown_probe_inv in Hd2 as (act2 & claim2 & Ha2 & Hc2 & Hu2 & _).
    simpl in Ha2. rewrite lookup_alter_eq, Ha in Ha2. simplify_eq/=. rewrite Hc in Hc2. by simplify_eq/=.
Qed.
End ReportFacts.
