(* ===== verification/SignalFacts.v ===== *)
(** * The inbox, waits and timers

    The inbox of a run keeps each external event once, in acceptance order and
    within its quota; a signal is accepted exactly once; timers never fire early,
    and an event that waits in the inbox is preferred to the timeout. *)
From stdpp Require Import base option gmap strings list sorting.
From Stdlib Require Import ZArith Ascii Lia.
From S2P Require Import Prelude Value Ids Policy Catalog Ir Domain Eval Evolve History Steps Signals EvolveFacts.

(** ** The inbox invariant *)
Definition entry_key (e : InboxEntry) : option RunId.t * EventId.t * Z :=
  (ie_run e, ie_event_id e, ie_sequence e).

(** Entries of one run are in increasing sequence order. *)
Definition key_before (k1 k2 : option RunId.t * EventId.t * Z) : Prop := k1.1.1 = k2.1.1 → k1.2 < k2.2.

Definition buffered (run : RunId.t) (e : InboxEntry) : bool :=
  bool_decide (ie_run e = Some run) && negb (ie_consumed e).

Definition buffered_count (run : RunId.t) (l : list InboxEntry) : Z := zlen (List.filter (buffered run) l).

Record inbox_wf (s : State) : Prop := mkInboxWf {
  ibw_unique : NoDup (entry_key <$> inbox s).*1;
  ibw_order : StronglySorted key_before (entry_key <$> inbox s);
  ibw_fresh : ∀ e run r, e ∈ inbox s → ie_run e = Some run → runs s !! run = Some r →
    ie_sequence e < rs_next_sequence r;
  ibw_runs : ∀ e run, e ∈ inbox s → ie_run e = Some run → is_Some (runs s !! run);
  ibw_quota : ∀ run, buffered_count run (inbox s) ≤ MAX_BUFFERED_EVENTS_PER_RUN;
}.

(** What acceptance checks before an entry is added. *)
Definition accept_guard (s : State) (e : DomainEvent) : Prop :=
  match e with
  | EventAccepted run event_id _ _ _ sequence _ _ =>
      (Some run, event_id) ∉ (entry_key <$> inbox s).*1 ∧
      buffered_count run (inbox s) < MAX_BUFFERED_EVENTS_PER_RUN ∧
      ∃ r, runs s !! run = Some r ∧ sequence = rs_next_sequence r ∧ 0 ≤ sequence < u64_max
  | _ => True
  end.

(** [s'] has the runs of [s], with the same next input sequence. *)
Definition same_sequences (s s' : State) : Prop :=
  (∀ run r', runs s' !! run = Some r' →
     ∃ r, runs s !! run = Some r ∧ rs_next_sequence r' = rs_next_sequence r) ∧
  ∀ run, is_Some (runs s !! run) → is_Some (runs s' !! run).

(** [l'] loses entries of [l] or marks them, and adds none. *)
Definition inbox_shrinks (l l' : list InboxEntry) : Prop :=
  (entry_key <$> l') `sublist_of` (entry_key <$> l) ∧ ∀ run, buffered_count run l' ≤ buffered_count run l.

Lemma inbox_shrinks_refl l : inbox_shrinks l l.
Proof. by split. Qed.

Lemma inbox_shrinks_filter p l : inbox_shrinks l (List.filter p l).
Proof.
  split; [apply fmap_sublist, filter_sublist|]. intros run. unfold buffered_count, zlen.
  apply inj_le, filter_filter_length.
Qed.

Lemma inbox_shrinks_update p f l :
  (∀ e, entry_key (f e) = entry_key e) → (∀ e, ie_consumed e = true → ie_consumed (f e) = true) →
  inbox_shrinks l (update_first p f l).
Proof.
  intros Hkey Hc. split; [by rewrite update_first_fmap|]. intros run. unfold buffered_count, zlen.
  assert (∀ e, buffered run (f e) = true → buffered run e = true) as Hb.
  { intros e. unfold buffered. assert (ie_run (f e) = ie_run e) as ->.
    { specialize (Hkey e). unfold entry_key in Hkey. congruence. }
    destruct (ie_consumed e) eqn:He; [by rewrite Hc|]. simpl. by destruct (bool_decide _). }
  induction l as [|x l IH]; simpl; [done|].
  destruct (p x); simpl.
  - destruct (buffered run (f x)) eqn:Hf; [rewrite Hb by done|]; simpl; [lia|].
    destruct (buffered run x); simpl; lia.
  - destruct (buffered run x); simpl; lia.
Qed.

Section Inbox.
Context `{Platform}.

Lemma evolve_inbox s e s' :
  evolve s e = Ok s' → (∀ r i g k p n a x, e ≠ EventAccepted r i g k p n a x) →
  inbox_shrinks (inbox s) (inbox s') ∧ same_sequences s s'.
Proof.
  intros Hev Hne. evolve_cases Hev; try (by destruct (Hne run event_id signal key payload sequence accepted_ms expires_ms));
    (split; [first [apply inbox_shrinks_refl | apply inbox_shrinks_filter
                   | apply inbox_shrinks_update; [done|by intros]]|]).
  all: split; simpl; intros rid; [intros r'|].
  all: rewrite ?lookup_alter, ?lookup_insert; repeat case_decide; subst; rewrite ?fmap_is_Some; try by eauto.
  all: try (intros (r & ? & ->)%fmap_Some; by exists r).
  all: intros [= <-]; by eauto.
Qed.

Lemma inbox_wf_shrinks s s' :
  inbox_shrinks (inbox s) (inbox s') → same_sequences s s' → inbox_wf s → inbox_wf s'.
Proof.
  intros [Hsub Hcount] [Hruns Hdom] [Hu Ho Hf Hd Hq].
  assert (∀ e, e ∈ inbox s' → ∃ e0, entry_key e = entry_key e0 ∧ e0 ∈ inbox s) as Hold.
  { intros e He. apply list_elem_of_fmap. eapply elem_of_sublist; [|done]. apply list_elem_of_fmap. eauto. }
  split.
  - eapply sublist_NoDup; [done|]. by apply fmap_sublist.
  - by eapply StronglySorted_sublist.
  - intros e run r' He Hrun (r & Hr & ->)%Hruns.
    destruct (Hold e He) as (e0 & [= Hk1 _ ->] & He0). eapply Hf; [done| |done]. congruence.
  - intros e run He Hrun. destruct (Hold e He) as (e0 & [= Hk1 _ _] & He0).
    eapply Hdom, Hd; [done|]. congruence.
  - intros run. etrans; [apply Hcount|done].
Qed.

Lemma inbox_wf_accepted s run event_id signal key payload sequence accepted_ms expires_ms :
  accept_guard s (EventAccepted run event_id signal key payload sequence accepted_ms expires_ms) →
  inbox_wf s →
  inbox_wf (evolve_event_accepted s run event_id signal key payload sequence accepted_ms expires_ms).
Proof.
  intros (Hnew & Hcount & r & Hr & -> & Hseq) [Hu Ho Hf Hd Hq]. split; simpl.
  - rewrite !fmap_app. apply NoDup_app. split_and!; [done| |apply NoDup_singleton].
    intros k Hk ->%list_elem_of_singleton. by apply Hnew.
  - rewrite fmap_app. apply StronglySorted_app. split_and!; [|done|by repeat constructor].
    intros k1 k2 (e1 & -> & He1)%list_elem_of_fmap ->%list_elem_of_singleton Heq. simpl in *. eauto.
  - intros e run' r' [He|He%list_elem_of_singleton]%elem_of_app Hrun; rewrite lookup_alter; case_decide; subst.
    + rewrite Hr. intros [= <-]. simpl. pose proof (Hf e run' r He Hrun Hr).
      unfold wrap64. rewrite Z.mod_small; unfold u64_max in *; lia.
    + eauto.
    + simpl in *. simplify_eq. rewrite Hr. intros [= <-]. simpl.
      unfold wrap64. rewrite Z.mod_small; unfold u64_max in *; lia.
    + simpl in *. congruence.
  - intros e run' [He|He%list_elem_of_singleton]%elem_of_app Hrun; rewrite lookup_alter; case_decide; subst;
      rewrite ?fmap_is_Some; eauto; simpl in *; congruence.
  - intros run'. unfold buffered_count, zlen in *. rewrite List.filter_app, length_app.
    specialize (Hq run'). simpl. unfold buffered at 2. simpl. case_bool_decide; simplify_eq/=; lia.
Qed.

#[export] Instance inbox_wf_invariant : EventInvariant accept_guard inbox_wf.
Proof.
  split.
  - intros s e s' Hg Hwf Hev. destruct e; try (destruct (evolve_inbox _ _ _ Hev) as [? ?]; [done|];
      by eapply inbox_wf_shrinks).
    simpl in Hev. simplify_eq. by apply inbox_wf_accepted.
  - intros s s' [= Hr _ _ _ Hi _ _ _] Hwf. eapply inbox_wf_shrinks; [|..|done].
    { rewrite Hi. apply inbox_shrinks_refl. }
    split.
    + intros run r' Hr'. assert ((run_identity <$> runs s) !! run = Some (run_identity r')) as Hid.
      { by rewrite <-Hr, lookup_fmap, Hr'. }
      rewrite lookup_fmap in Hid. apply fmap_Some in Hid as (r & ? & [= _ ?]). eauto.
    + intros run. rewrite <-(fmap_is_Some run_identity), <-lookup_fmap, <-Hr, lookup_fmap. apply fmap_is_Some.
Qed.
End Inbox.

Section SignalFacts.
Context `{Platform} `{CatalogSerde} `{Serde}.
Implicit Types s : State.

(** ** Accepting a signal *)
Lemma decide_signal_guarded s run event_id signal key payload time evs :
  (∀ r, runs s !! run = Some r → 0 ≤ rs_next_sequence r < u64_max) →
  decide_signal s run event_id signal key payload time = Ok evs → guarded accept_guard s evs.
Proof.
  unfold decide_signal. intros Hseq Hd. ok_inv; to_prop; try constructor.
  - match goal with Hf : lfind _ _ = None |- _ => rename Hf into Hnone end.
    apply lfind_None in Hnone. rewrite Forall_forall in Hnone. split_and!.
    + intros (k & Hk & (e & -> & He)%list_elem_of_fmap)%list_elem_of_fmap.
      unfold entry_key in Hk. simpl in Hk. simplify_eq.
      specialize (Hnone e He). rewrite !bool_decide_eq_true_2 in Hnone by done. done.
    + match goal with Hq : zlen _ < MAX_BUFFERED_EVENTS_PER_RUN |- _ => exact Hq end.
    + match goal with Hr : runs s !! run = Some ?r |- _ => exists r; split_and!; try done; by apply Hseq end.
  - intros. apply guarded_all. case_match; repeat constructor.
Qed.

Lemma append_event_tombstones s run e cid pid t refs s' :
  append_event s run e cid pid t refs = Ok s' →
  current_cluster_id s' = current_cluster_id s ∧
  match e with
  | EventAccepted _ event_id signal key payload _ _ _ =>
      ∃ a, capture_in (current_cluster_id s) "graphrun.signal-payload/v1" (inr (to_json payload)) = Ok a ∧
        signal_tombstones s' = <[tombstone_key run event_id := mkSignalTombstone run event_id signal key a]>
          (signal_tombstones s)
  | _ => signal_tombstones s' = signal_tombstones s
  end.
Proof.
  unfold append_event. intros Happ. ok_inv; repeat case_match; simpl; try done; eauto.
Qed.

Lemma capture_in_cluster cluster schema value a :
  capture_in cluster schema value = Ok a → ar_cluster_id a = cluster.
Proof. unfold capture_in. intros Hc. by ok_inv. Qed.

(** The content an accepted event is compared with when it is sent again. *)
Definition accepted_as s (run : RunId.t) (event_id : EventId.t) (signal key : string) (payload : Value) : Prop :=
  ∃ t, signal_tombstones s !! tombstone_key run event_id = Some t ∧ st_signal t = signal ∧ st_key t = key ∧
    capture_in (ar_cluster_id (st_payload t)) "graphrun.signal-payload/v1" (inr (to_json payload)) =
      Ok (st_payload t).

(** Two canonical texts that a payload reference does not tell apart: they have
    the same length and the same digest. *)
Definition payload_digest (text : string) : string :=
  hex_encode (sha256 (ARTIFACT_FORMAT +:+ nul +:+ "graphrun.signal-payload/v1" +:+ nul +:+ text)).
Definition same_content (text1 text2 : string) : Prop :=
  zlen_string text1 = zlen_string text2 ∧ payload_digest text1 = payload_digest text2.

#[export] Instance same_content_dec text1 text2 : Decision (same_content text1 text2).
Proof. unfold same_content. apply _. Defined.

(** Two payloads captured for one cluster have the same reference when their
    texts have the same content. *)
Lemma capture_same cluster payload a payload' text' :
  capture_in cluster "graphrun.signal-payload/v1" (inr (to_json payload)) = Ok a →
  canonical_json (to_json payload') = Ok text' →
  ∃ text a', canonical_json (to_json payload) = Ok text ∧
    capture_in cluster "graphrun.signal-payload/v1" (inr (to_json payload')) = Ok a' ∧
    (a = a' ↔ same_content text' text).
Proof.
  unfold capture_in, from_serde. destruct (bool_decide _); [done|]. intros (id & -> & Ha)%outcome_bind_ok Htext.
  apply outcome_bind_ok in Ha as (json & [= <-] & Ha). apply outcome_bind_ok in Ha as (text & Ht%map_err_ok & [= <-]).
  simpl. rewrite Htext. simpl. do 2 eexists. split_and!; [done..|]. unfold same_content, payload_digest. split.
  - intros [= Hlen Hd]. by rewrite Hlen, Hd.
  - intros [-> ->]. done.
Qed.

Lemma accepted_retry s run event_id signal key payload :
  accepted_as s run event_id signal key payload →
  (∀ time, decide_signal s run event_id signal key payload time = Ok []) ∧
  ∃ text, canonical_json (to_json payload) = Ok text ∧
  ∀ signal' key' payload' time text', canonical_json (to_json payload') = Ok text' →
    decide_signal s run event_id signal' key' payload' time =
      if bool_decide (signal' = signal ∧ key' = key ∧ same_content text' text) then Ok [] else Err signal_conflict.
Proof.
  intros (t & Ht & <- & <- & Hc). unfold decide_signal. rewrite Ht.
  split; [intros time; rewrite !bool_decide_eq_true_2 by done; simpl; rewrite Hc; simpl; by rewrite bool_decide_eq_true_2|].
  assert (∃ text, canonical_json (to_json payload) = Ok text) as [text Htext].
  { unfold capture_in, from_serde in Hc. destruct (bool_decide _); [done|]. apply outcome_bind_ok in Hc as (_ & _ & Hc).
    apply outcome_bind_ok in Hc as (json & [= <-] & Hc). apply outcome_bind_ok in Hc as (text & Htext%map_err_ok & _). eauto. }
  exists text. split; [done|]. intros signal' key' payload' time text' Htext'.
  destruct (capture_same _ _ _ _ _ Hc Htext') as (text2 & a' & Htext2 & Ha' & Hiff).
  assert (text2 = text) as -> by congruence. clear Htext2.
  rewrite Ha'. simpl. destruct (base.decide (st_signal t = signal')) as [<-|Hs].
  2: { rewrite (bool_decide_eq_false_2 (st_signal t = _)) by done. simpl.
       by rewrite bool_decide_eq_false_2 by (by intros (? & _)). }
  destruct (base.decide (st_key t = key')) as [<-|Hk].
  2: { rewrite (bool_decide_eq_false_2 (st_key t = _)), andb_false_r by done.
       by rewrite bool_decide_eq_false_2 by (by intros (_ & ? & _)). }
  rewrite !(bool_decide_eq_true_2 (_ = _)) by done. simpl.
  by rewrite (bool_decide_ext (_ ∧ _ ∧ _) _ (conj (λ H, proj2 (proj2 H)) (λ H, conj eq_refl (conj eq_refl H)))),
    (bool_decide_ext _ _ Hiff).
Qed.

Lemma accepted_applied s run event_id signal key payload sequence a x rest cid pid t s' :
  apply_events_with_cause s (EventAccepted run event_id signal key payload sequence a x :: rest) cid pid t =
    Ok s' →
  rest = [] ∨ (∃ wait, rest = [EventReserved wait event_id]) →
  accepted_as s' run event_id signal key payload.
Proof.
  unfold apply_events_with_cause. simpl. intros (s1 & Hs1 & Happ)%outcome_bind_ok Hrest.
  assert (accepted_as s1 run event_id signal key payload) as Hacc.
  { unfold apply_event_with_cause in Hs1. simpl in Hs1. ok_inv.
    match goal with Ha : append_event _ _ _ _ _ _ _ = Ok _ |- _ =>
      apply append_event_tombstones in Ha as (_ & ref & Hc & Htomb) end.
    eexists. rewrite Htomb, lookup_insert_eq. split_and!; [done..|]. simpl.
    by rewrite (capture_in_cluster _ _ _ _ Hc). }
  destruct Hrest as [->|[wait ->]]; simpl in Happ; [by simplify_eq|].
  apply outcome_bind_ok in Happ as (s2 & Hs2 & [= <-]).
  unfold apply_event_with_cause in Hs2. simpl in Hs2. ok_inv.
  match goal with Ha : append_event _ _ _ _ _ _ _ = Ok _ |- _ =>
    apply append_event_tombstones in Ha as (_ & Htomb) end.
  unfold accepted_as in *. by rewrite Htomb.
Qed.

Lemma decide_signal_events s run event_id signal key payload time evs :
  decide_signal s run event_id signal key payload time = Ok evs →
  evs = [] ∨ ∃ sequence a x rest, evs = EventAccepted run event_id signal key payload sequence a x :: rest ∧
    (rest = [] ∨ ∃ wait, rest = [EventReserved wait event_id]).
Proof.
  unfold decide_signal. intros Hd. ok_inv; try (by left). right. do 4 eexists. split; [done|].
  case_match; eauto.
Qed.

(** C21: signals are accepted exactly once. In the state after a signal has been
    accepted, every signal under its identity whose payload has a canonical text is
    answered without any event when it has the same name, the same key and a payload
    with the same canonical content, and is refused as a conflict when any of the
    three differs. Contents are
    compared by their length and digest, as the tombstone of the event stores them. *)
Theorem signal_accepted_once s run event_id signal key payload time evs cid pid t s' :
  decide_signal s run event_id signal key payload time = Ok evs → evs ≠ [] →
  apply_events_with_cause s evs cid pid t = Ok s' →
  (∀ time', decide_signal s' run event_id signal key payload time' = Ok []) ∧
  ∃ text, canonical_json (to_json payload) = Ok text ∧
  ∀ signal' key' payload' time' text', canonical_json (to_json payload') = Ok text' →
    decide_signal s' run event_id signal' key' payload' time' =
      if bool_decide (signal' = signal ∧ key' = key ∧ same_content text' text) then Ok [] else Err signal_conflict.
Proof.
  intros [->|(sq & a & x & rest & -> & Hrest)]%decide_signal_events Hne Happ; [done|].
  eapply accepted_retry, accepted_applied; done.
Qed.

(** ** Timers *)

(** A timeout is justified when the deadline of a pending wait has passed and
    nothing in the inbox can satisfy it. *)
Definition timeout_justified s (time : Z) (e : DomainEvent) : Prop :=
  match e with
  | WaitTimedOut run wait =>
      ∃ w deadline, waits s !! wait = Some w ∧ wt_run w = run ∧ wt_pending w = true ∧
        wt_deadline_ms w = Some deadline ∧ deadline ≤ time ∧ reserved_or_eligible s w time = None
  | _ => True
  end.

Lemma open_node_justified s time scope node ids evs ids' :
  open_node s scope node ids = Ok (evs, ids') → Forall (timeout_justified s time) evs.
Proof. unfold open_node. intros. ok_inv. by repeat constructor. Qed.
#[local] Hint Resolve open_node_justified : graphrun.

Lemma follow_next_justified s time scope node ids evs ids' :
  follow_next s scope node ids = Ok (evs, ids') → Forall (timeout_justified s time) evs.
Proof. unfold follow_next. intros. ok_inv; eauto with graphrun. Qed.
#[local] Hint Resolve follow_next_justified : graphrun.

Lemma satisfy_justified s time run wait act entry ids evs ids' :
  satisfy s run wait act entry ids = Ok (evs, ids') → Forall (timeout_justified s time) evs.
Proof. unfold satisfy. intros. ok_inv. repeat (constructor; [done|]). eauto with graphrun. Qed.
#[local] Hint Resolve satisfy_justified : graphrun.

Lemma decide_timer_justified s time run wait ids evs ids' :
  decide_timer s run wait time ids = Ok (evs, ids') → Forall (timeout_justified s time) evs.
Proof.
  unfold decide_timer, follow_timeout. intros. ok_inv; to_prop; eauto with graphrun.
  constructor; [|by eauto with graphrun]. repeat eexists; eauto; lia.
Qed.
#[local] Hint Resolve decide_timer_justified : graphrun.

Section Due.
Context `{!PlatformLaws _}.

(** Timers never fire early, and never over a waiting event. Whether a
    timer is resolved by command or found due by the progress scan, a wait is
    timed out only when it is pending, its deadline has been reached, and no
    event is reserved for it or eligible. *)
Theorem timers_never_early s time run wait ids evs ids' :
  ids_wf s →
  decide_timer s run wait time ids = Ok (evs, ids') ∨ due_wait s run time ids = Ok (Some evs, ids') →
  Forall (timeout_justified s time) evs.
Proof.
  intros Hids [Hd|Hd]; [by eauto with graphrun|]. unfold due_wait in Hd.
  destruct (head _) as [w|] eqn:Hh; [|by ok_inv].
  apply head_Some_elem_of in Hh. rewrite sort_by_perm, elem_of_filter_b in Hh.
  destruct Hh as [Hdue (k & Hk)%elem_of_hm_values].
  pose proof (idw_waits _ Hids k w Hk) as Hid. simpl in Hid. subst k.
  unfold wait_is_due in Hdue. apply andb_true_iff in Hdue as [[Hrun Hpend]%andb_true_iff Hdue].
  apply bool_decide_eq_true in Hrun. destruct (reserved_or_eligible s w time) eqn:Hre.
  { ok_inv. by eauto with graphrun. }
  rewrite orb_false_r in Hdue. ok_inv; eauto with graphrun; to_prop.
  all: constructor; [|by eauto with graphrun]; exists w.
  all: destruct (wt_deadline_ms w) as [d|] eqn:Hd; [|done]; exists d; to_prop; by split_and!.
Qed.
End Due.

(** ** Delivery order *)

(** Events are delivered in acceptance order. The event a wait receives is
    one reserved for it, or else the earliest of the inbox among the eligible
    ones: no eligible event of the same run was accepted before it. *)
Theorem delivery_is_fifo s wait now entry :
  inbox_wf s → reserved_or_eligible s wait now = Some entry →
  entry ∈ inbox s ∧ ie_consumed entry = false ∧
  (ie_reserved_wait entry = Some (wt_id wait) ∨
   eligible wait now entry = true ∧
   (∀ e, e ∈ inbox s → ie_consumed e = false → ie_reserved_wait e ≠ Some (wt_id wait)) ∧
   ∀ e, e ∈ inbox s → eligible wait now e = true → ie_run e = ie_run entry →
     ie_sequence entry ≤ ie_sequence e).
Proof.
  intros Hwf Hre. unfold reserved_or_eligible in Hre.
  destruct (lfind _ _) as [e|] eqn:Hl in Hre.
  - apply lfind_Some_1 in Hl as [Hin Hp]. simplify_eq. to_prop. eauto.
  - pose proof (lfind_Some_1 _ _ _ Hre) as [Hin Hp]. apply lfind_None in Hl. rewrite Forall_forall in Hl.
    split; [done|]. split; [unfold eligible in Hp; by to_prop|]. right. split_and!; [done| |].
    + intros e He Hc Hr. specialize (Hl e He). by rewrite Hc, Hr, bool_decide_eq_true_2 in Hl.
    + apply lfind_Some in Hre as (l1 & l2 & Hl12 & _ & Hl1). intros e He Hel Hrun.
      rewrite Forall_forall in Hl1. rewrite Hl12 in He.
      apply elem_of_app in He as [He|[->|He]%elem_of_cons]; [by rewrite Hl1 in Hel|lia|].
      pose proof (ibw_order _ Hwf) as Ho. rewrite Hl12, fmap_app in Ho.
      apply StronglySorted_app_1_r in Ho. apply StronglySorted_cons in Ho as [Ho _].
      rewrite Forall_forall in Ho.
      assert (key_before (entry_key entry) (entry_key e)) as Hb by (apply Ho, list_elem_of_fmap; eauto).
      apply Z.lt_le_incl, Hb. simpl. by rewrite Hrun.
Qed.

(** *** Delivery at most once *)

(** The event of a run has been consumed. *)
Definition is_event (run : RunId.t) (event_id : EventId.t) (e : InboxEntry) : bool :=
  bool_decide (ie_run e = Some run) && bool_decide (ie_event_id e = event_id).
Definition all_consumed (p : InboxEntry → bool) (l : list InboxEntry) : Prop :=
  ∀ e, e ∈ l → p e = true → ie_consumed e = true.

(** The event accepts this identity. *)
Definition accepts (run : RunId.t) (event_id : EventId.t) (e : DomainEvent) : Prop :=
  ∃ signal key payload sequence a x, e = EventAccepted run event_id signal key payload sequence a x.

Lemma all_consumed_update p q f l :
  (∀ e, p (f e) = p e) → (∀ e, ie_consumed e = true → ie_consumed (f e) = true) →
  all_consumed p l → all_consumed p (update_first q f l).
Proof.
  intros Hp Hc Hl e He Hpe. induction l as [|x l IH]; simpl in He; [set_solver|].
  destruct (q x); apply elem_of_cons in He as [->|He].
  - apply Hc, Hl; [by left|]. by rewrite <-Hp.
  - apply Hl; [by right|done].
  - apply Hl; [by left|done].
  - apply IH; [|done]. intros y Hy. apply Hl. by right.
Qed.

Lemma consumed_first run event_id wait l :
  NoDup (entry_key <$> l).*1 →
  all_consumed (is_event run event_id) (update_first (is_event run event_id) (entry_with_reservation (Some wait) true) l).
Proof.
  unfold all_consumed. intros Hn. induction l as [|x l IH]; csimpl in *; [set_solver|].
  apply NoDup_cons in Hn as [Hx Hn].
  destruct (is_event run event_id x) eqn:Hpx; intros e [->|He]%elem_of_cons Hpe; simpl; try done.
  - destruct Hx. apply list_elem_of_fmap. exists (entry_key e). split; [|apply list_elem_of_fmap; eauto].
    unfold is_event in *. to_prop. simpl. congruence.
  - congruence.
  - by apply IH.
Qed.

(** A consumed event stays consumed, until a retention batch drops it. *)
Lemma evolve_keeps_consumed s e s' run event_id :
  evolve s e = Ok s' → ¬ accepts run event_id e →
  all_consumed (is_event run event_id) (inbox s) → all_consumed (is_event run event_id) (inbox s').
Proof.
  intros Hev Hne Hall. evolve_cases Hev; try exact Hall;
    try (by apply all_consumed_update; [done|by intros|exact Hall]).
  - intros x [Hx|Hx%list_elem_of_singleton]%elem_of_app Hp; [by apply Hall|]. subst x. unfold is_event in Hp.
    simpl in Hp. to_prop. simplify_eq. destruct Hne. unfold accepts. eauto 10.
  - intros x [_ Hx]%elem_of_filter_b Hp. by apply Hall.
Qed.

(** C22: an event is delivered at most once to the waits of its run. Once a wait
    has been satisfied by an event of its own run, no wait is offered this event
    in any state that later events lead to, as long as none of them accepts the
    event anew. (The rule is stated for a wait and an event of one run: an event
    that satisfied a wait of another run is not consumed.) *)
Theorem delivered_at_most_once s run wait event_id payload s' evs s'' :
  inbox_wf s → evolve s (WaitSatisfied run wait event_id payload) = Ok s' →
  Forall (λ e, ¬ accepts run event_id e) evs → outcome_fold evolve s' evs = Ok s'' →
  ∀ w now entry, reserved_or_eligible s'' w now = Some entry →
    ¬ (ie_run entry = Some run ∧ ie_event_id entry = event_id).
Proof.
  intros Hwf [= <-] Hevs Hfold w now entry Hre [Hr Hid].
  assert (all_consumed (is_event run event_id) (inbox s'')) as Hall.
  { assert (all_consumed (is_event run event_id) (inbox (evolve_wait_satisfied s run wait event_id))) as Hall1.
    { assert (inbox (evolve_wait_satisfied s run wait event_id) =
        update_first (is_event run event_id) (entry_with_reservation (Some wait) true) (inbox s)) as ->
        by (unfold evolve_wait_satisfied; by case_match). apply consumed_first, Hwf. }
    revert Hall1 Hfold. generalize (evolve_wait_satisfied s run wait event_id).
    induction Hevs as [|e evs He _ IH]; simpl; intros s1 Hall1 Hfold; [by simplify_eq|].
    apply outcome_bind_ok in Hfold as (s2 & Hs2 & Hfold). eapply IH; [|exact Hfold]. by eapply evolve_keeps_consumed. }
  assert (entry ∈ inbox s'' ∧ ie_consumed entry = false) as [Hin Hc].
  { unfold reserved_or_eligible in Hre. destruct (lfind _ _) eqn:Hl in Hre; simplify_eq;
      [apply lfind_Some_1 in Hl as [? Hp]|apply lfind_Some_1 in Hre as [? Hp]];
      unfold eligible in *; by to_prop. }
  rewrite Hall in Hc; [done|done|]. unfold is_event. by rewrite !bool_decide_eq_true_2.
Qed.
End SignalFacts.
