(* ===== verification/SagaFacts.v ===== *)
(** * Sagas: compensation, settlement, abandonment and cancellation *)
From stdpp Require Import base option gmap strings list.
From Stdlib Require Import ZArith Ascii Lia.
From S2P Require Import Prelude Value Ids Policy Catalog Ir Domain Eval Evolve History Steps Saga Claims Progress EvolveFacts.

(** ** Updates of one obligation

    Forward activations are unique among obligations, so the first match is the
    only one. *)
Section Obligations.
Implicit Types (l : list Obligation) (g : Obligation → Obligation).

Lemma update_first_forward_map f g l :
  NoDup (ob_forward <$> l) →
  update_first (for_forward f) g l = (λ o, if for_forward f o then g o else o) <$> l.
Proof.
  induction l as [|o l IH]; csimpl; [done|]. intros [Ho Hn]%NoDup_cons.
  destruct (for_forward f o) eqn:Hf; [|by rewrite IH]. f_equal.
  unfold for_forward in Hf. apply bool_decide_eq_true in Hf. subst f.
  assert (∀ o', o' ∈ l → for_forward (ob_forward o) o' = false) as Hl.
  { intros o' Ho'. apply bool_decide_eq_false. intros Heq. apply Ho, list_elem_of_fmap. eauto. }
  clear -Hl. induction l as [|x l IH]; csimpl; [done|].
  rewrite Hl by set_solver. f_equal. apply IH. set_solver.
Qed.

Lemma update_each_forward fs g l :
  (∀ o, ob_forward (g o) = ob_forward o) → NoDup (ob_forward <$> l) → NoDup fs →
  foldl (λ l f, update_first (for_forward f) g l) l fs =
    (λ o, if bool_decide (ob_forward o ∈ fs) then g o else o) <$> l.
Proof.
  intros Hg. revert l. induction fs as [|f fs IH]; simpl; intros l Hl Hfs.
  - rewrite <-(list_fmap_id l) at 1. apply list_fmap_ext. done.
  - apply NoDup_cons in Hfs as [Hf Hfs]. rewrite IH; [|by rewrite update_first_forwards|done].
    rewrite update_first_forward_map, <-list_fmap_compose by done. apply list_fmap_ext. intros _ o _. simpl.
    unfold for_forward. repeat case_bool_decide; try done; rewrite ?Hg in *; set_solver.
Qed.

Lemma forward_in_filter (p : Obligation → bool) l o :
  NoDup (ob_forward <$> l) → o ∈ l →
  bool_decide (ob_forward o ∈ ob_forward <$> List.filter p l) = p o.
Proof.
  intros Hn Ho. destruct (p o) eqn:Hp; [apply bool_decide_eq_true|apply bool_decide_eq_false].
  - apply list_elem_of_fmap. exists o. by rewrite elem_of_filter_b.
  - intros (o' & Heq & [Hp' Ho']%elem_of_filter_b)%list_elem_of_fmap.
    assert (o = o'); [|congruence]. apply list_elem_of_lookup in Ho as [i Hi], Ho' as [j Hj].
    assert (i = j) as ->; [|congruence]. eapply NoDup_lookup; [done| |].
    + rewrite list_lookup_fmap, Hi. done.
    + rewrite list_lookup_fmap, Hj. simpl. by rewrite Heq.
Qed.

(** Taking the last element that satisfies a test off the list of those that do. *)
Lemma filter_update_last (q : Obligation → bool) g l older o :
  NoDup (ob_forward <$> l) → (∀ x, q (g x) = false) → List.filter q l = older ++ [o] →
  List.filter q ((λ x, if for_forward (ob_forward o) x then g x else x) <$> l) = older.
Proof.
  intros Hn Hg Hl.
  assert (List.filter q ((λ x, if for_forward (ob_forward o) x then g x else x) <$> l) =
          List.filter (λ x, negb (for_forward (ob_forward o) x)) (List.filter q l)) as ->.
  { clear Hl Hn. induction l as [|x l IH]; csimpl; [done|].
    destruct (for_forward _ x) eqn:Hf; [rewrite Hg|]; destruct (q x); simpl; rewrite ?Hf; simpl; by rewrite ?IH. }
  assert (NoDup (ob_forward <$> List.filter q l)) as Hnf.
  { eapply sublist_NoDup; [exact Hn|]. apply fmap_sublist, filter_sublist. }
  rewrite Hl in *. rewrite fmap_app in Hnf. apply NoDup_app in Hnf as (_ & Hnew & _).
  rewrite List.filter_app. simpl. unfold for_forward at 2. rewrite bool_decide_eq_true_2 by done. simpl.
  rewrite app_nil_r. clear -Hnew. induction older as [|x older IH]; csimpl; [done|].
  unfold for_forward at 1. rewrite bool_decide_eq_false_2 by set_solver. simpl. f_equal. apply IH. set_solver.
Qed.
End Obligations.

Section SagaFacts.
Context `{Platform} `{CatalogSerde} `{Serde}.
Implicit Types s : State.

(** ** Compensation *)

(** The newest obligation a saga still has to undo. *)
Definition newest_open s (saga : ActivationId.t) (o : Obligation) : Prop :=
  ∃ older, open_obligations s saga = older ++ [o].

Lemma compensate_or_fail_cases s saga error ids evs ids' :
  compensate_or_fail s saga error ids = Ok (evs, ids') →
  ∃ act, activations s !! saga = Some act ∧
  ((evs = [InterventionRequired (as_run act) saga "compensation input is blocked"] ∧
    ∃ o, o ∈ obligations s ∧ owned_by saga o = true ∧ is_blocked o = true) ∨
   (∃ o activation, newest_open s saga o ∧
      evs = [CompensationStarted (as_run act) saga (ob_forward o) activation (ob_handler o)
               (ob_handler_version o) (ob_input o) error]) ∨
   (open_obligations s saga = [] ∧ uncertain_forwards s (as_run act) = true ∧
      (evs = [] ∨ evs = [AbortIntent (as_run act) saga error])) ∨
   (open_obligations s saga = [] ∧ uncertain_forwards s (as_run act) = false ∧
      (∀ o, o ∈ obligations s → owned_by saga o = true → is_blocked o = false) ∧
      ∃ error', fail_scope s (as_scope act) error' = Ok evs)).
Proof.
  unfold compensate_or_fail. intros Hd.
  apply run_bind_ok in Hd as (act & ? & [Ha%ok_or_ok ->]%lift_ok & Hd). exists act. split; [done|].
  destruct (existsb _ _) eqn:Hb in Hd.
  { left. ok_inv. split; [done|]. apply existsb_elem in Hb as (o & ? & ?). to_prop. eauto. }
  right. destruct (last (open_obligations s saga)) as [o|] eqn:Hlast.
  { left. apply last_Some in Hlast as [older Hold]. ok_inv. eexists o, _. split; [by exists older|done]. }
  right. apply last_None in Hlast. destruct (uncertain_forwards _ _) eqn:Hu.
  { left. ok_inv; eauto. }
  right. split_and!; try done.
  - intros o Ho Hown. rewrite existsb_false in Hb. specialize (Hb o Ho). rewrite Hown in Hb. done.
  - ok_inv; eauto.
Qed.

Lemma newest_in_flight s s' saga o activation :
  newest_open s saga o →
  obligations s' = (λ x, if for_forward (ob_forward o) x
    then obligation_with_status (ObligationStatus_Compensating activation) x else x) <$> obligations s →
  compensating_in_flight s' saga = true.
Proof.
  intros [older Hold] Hob. apply existsb_elem. rewrite Hob.
  assert (o ∈ open_obligations s saga) as Ho by (rewrite Hold; set_solver).
  apply elem_of_filter_b in Ho as [[Hown _]%andb_true_iff Ho].
  exists (obligation_with_status (ObligationStatus_Compensating activation) o). split.
  - apply list_elem_of_fmap. exists o. split; [|done]. unfold for_forward. by rewrite bool_decide_eq_true_2.
  - unfold owned_by in *. simpl. by rewrite Hown.
Qed.

Definition starts_compensation (e : DomainEvent) : bool :=
  match e with CompensationStarted _ _ _ _ _ _ _ _ => true | _ => false end.

Lemma fail_scope_starts_nothing s scope error evs :
  fail_scope s scope error = Ok evs → Forall (λ e, starts_compensation e = false) evs.
Proof.
  unfold fail_scope. intros Hf. ok_inv; [constructor|]. apply Forall_app. split.
  - case_match; [|constructor]. unfold close_pending_waits. apply Forall_bind, Forall_true.
    intros w. unfold close_wait. simpl. destruct (lfind _ _); by repeat constructor.
  - case_match; by repeat constructor.
Qed.

(** C8: sagas undo their effects newest first. In a state whose obligations are
    unique (as in every reachable one), when the decision that a failed saga and a
    Cancel both make, [compensate_or_fail], starts a compensation, it is of the newest
    open obligation of the saga; applying that event takes exactly this obligation
    off the open list, and while it is in flight the progress of the saga emits
    nothing. (A Cancel does not look at what is in flight: what it
    then does is shown by [cancel_compensates_in_parallel].) *)
Theorem compensation_is_lifo s saga error ids run forward activation handler version input error' ids' s' :
  obligations_unique s →
  compensate_or_fail s saga error ids =
    Ok ([CompensationStarted run saga forward activation handler version input error'], ids') →
  evolve s (CompensationStarted run saga forward activation handler version input error') = Ok s' →
  ∃ o, newest_open s saga o ∧ forward = ob_forward o ∧ handler = ob_handler o ∧ input = ob_input o ∧
    open_obligations s saga = open_obligations s' saga ++ [o] ∧
    compensating_in_flight s' saga = true ∧
    ∀ act node body ids2, as_id act = saga → progress_saga s' act node body ids2 = Ok ([], ids2).
Proof.
  intros Hu Hd Hev. apply compensate_or_fail_cases in Hd as (act' & _ & Hcases).
  destruct Hcases as [[? _]|[(o & a & Hnew & Heq)|[(_ & _ & [?|?])|(_ & _ & _ & error2 & Hf)]]]; [done| |done|done|].
  2: { apply fail_scope_starts_nothing in Hf. by apply Forall_cons in Hf as [? _]. }
  injection Heq. intros. subst.
  assert (obligations s' = (λ x, if for_forward (ob_forward o) x
    then obligation_with_status (ObligationStatus_Compensating a) x else x) <$> obligations s) as Hob.
  { simpl in Hev. unfold evolve_compensation_started in Hev. ok_inv; by apply update_first_forward_map. }
  exists o. split_and!; try done.
  - destruct Hnew as [older Hold]. unfold open_obligations in *. rewrite Hob, Hold. f_equal. symmetry.
    apply filter_update_last; [done| |done]. intros x. unfold is_open_obligation. simpl. apply andb_false_r.
  - by eapply newest_in_flight.
  - intros act node body ids2 Hid. unfold progress_saga. rewrite Hid, (newest_in_flight _ _ _ _ _ Hnew Hob). done.
Qed.

(** C9: a saga fails only when it has nothing left to undo. If deciding on a
    saga's error fails a scope, then no obligation of the saga is open or blocked,
    and no forward activity of the run may still take effect. *)
Theorem saga_fails_only_settled s saga error ids evs ids' run scope error' :
  compensate_or_fail s saga error ids = Ok (evs, ids') → ScopeFailed run scope error' ∈ evs →
  ∃ act, activations s !! saga = Some act ∧ scope = as_scope act ∧
    uncertain_forwards s (as_run act) = false ∧
    ∀ o, o ∈ obligations s → ob_owner o = saga → is_open_obligation o = false ∧ is_blocked o = false.
Proof.
  intros (act & Ha & Hcases)%compensate_or_fail_cases Hin. exists act. split; [done|].
  destruct Hcases as [[-> _]|[(o & a & _ & ->)|[(_ & _ & [-> | ->])|(Hopen & Hunc & Hblocked & error2 & Hf)]]];
    [set_solver..|].
  split; [|split; [done|]].
  - unfold fail_scope in Hf. ok_inv; [set_solver|].
    repeat (apply elem_of_app in Hin as [Hin|Hin]); simpl in Hin; repeat case_match; try set_solver.
    all: unfold close_pending_waits in Hin; apply list_elem_of_bind in Hin as (w & Hw & _);
      unfold close_wait in Hw; case_match; set_solver.
  - intros o Ho Hown. assert (owned_by saga o = true) as Hob by (by apply bool_decide_eq_true_2).
    split; [|by apply Hblocked]. destruct (is_open_obligation o) eqn:Hio; [|done].
    assert (o ∈ open_obligations s saga) as Hoo.
    { apply elem_of_filter_b. by rewrite Hob, Hio. }
    rewrite Hopen in Hoo. set_solver.
Qed.

(** ** Settlement *)
Lemma saga_owner_fuel_skip fuel s scope skip owner :
  saga_owner_fuel fuel s scope (Some skip) = Some owner → owner ≠ skip.
Proof.
  revert scope. induction fuel as [|fuel IH]; simpl; intros scope Hs; [done|].
  destruct (scopes s !! scope) as [x|]; simpl in Hs; [|done].
  assert (∀ o : option ActivationId.t, (parent_act ← o; parent ← activations s !! parent_act;
    saga_owner_fuel fuel s (as_scope parent) (Some skip)) = Some owner → owner ≠ skip) as Hc.
  { intros [p|]; simpl; [|done]. destruct (activations s !! p); simpl; [eauto|done]. }
  destruct (ss_role x); try by eapply Hc. case_bool_decide; [by eapply Hc|]. naive_solver.
Qed.

Lemma parent_saga_ne s saga parent : parent_saga s saga = Some parent → parent ≠ saga.
Proof.
  unfold parent_saga. destruct (activations s !! saga); simpl; [|done]. apply saga_owner_fuel_skip.
Qed.

Lemma fold_evolve_obligations (mk : ActivationId.t → DomainEvent) g fs s s' :
  (∀ s f, evolve s (mk f) = Ok (upd_obligations (update_first (for_forward f) g) s)) →
  outcome_fold evolve s (mk <$> fs) = Ok s' →
  obligations s' = foldl (λ l f, update_first (for_forward f) g l) (obligations s) fs.
Proof.
  intros Hmk. revert s. induction fs as [|f fs IH]; csimpl; intros s Hs; [by simplify_eq|].
  rewrite Hmk in Hs. simpl in Hs. by apply IH in Hs.
Qed.

(** What success of a saga does to one obligation. *)
Definition settled_obligation s (saga : ActivationId.t) (o : Obligation) : Obligation :=
  if owned_by saga o && is_open_obligation o then
    match parent_saga s saga with
    | Some parent => obligation_with_owner parent o
    | None => obligation_with_status ObligationStatus_Released o
    end
  else o.

(** A successful saga settles its obligations. Applying the settlement
    hands every open obligation of the saga to the enclosing saga (still open, in
    the same order), or releases it when there is none; all other obligations are
    untouched, and the saga has no open obligation left. *)
Theorem settlement_hands_over s saga s' :
  obligations_unique s → is_Some (activations s !! saga) →
  outcome_fold evolve s (settle_saga_success s saga) = Ok s' →
  obligations s' = settled_obligation s saga <$> obligations s ∧ open_obligations s' saga = [].
Proof.
  intros Hu [act Ha] Hs.
  assert (obligations s' = settled_obligation s saga <$> obligations s) as Hob.
  { assert (∀ g, (∀ o, ob_forward (g o) = ob_forward o) →
      foldl (λ l f, update_first (for_forward f) g l) (obligations s) (ob_forward <$> open_obligations s saga) =
      (λ o, if owned_by saga o && is_open_obligation o then g o else o) <$> obligations s) as Hfold.
    { intros g Hg. rewrite update_each_forward; [|done|done|].
      - apply list_fmap_ext. intros i o Hi. unfold open_obligations.
        by rewrite forward_in_filter by (done || eapply list_elem_of_lookup_2, Hi).
      - eapply sublist_NoDup; [exact Hu|]. apply fmap_sublist, filter_sublist. }
    unfold settle_saga_success in Hs. rewrite Ha in Hs. simpl in Hs. unfold settled_obligation.
    destruct (parent_saga s saga) as [parent|].
    - apply (fold_evolve_obligations (λ f, ObligationTransferred f saga parent)
        (obligation_with_owner parent)) in Hs; [|done]. by rewrite Hs, Hfold.
    - apply (fold_evolve_obligations (ObligationReleased (as_run act))
        (obligation_with_status ObligationStatus_Released)) in Hs; [|done]. by rewrite Hs, Hfold. }
  split; [done|]. unfold open_obligations. rewrite Hob. clear Hob Hs Hu.
  induction (obligations s) as [|o l IH]; csimpl; [done|].
  assert (owned_by saga (settled_obligation s saga o) && is_open_obligation (settled_obligation s saga o) = false)
    as ->; [|done].
  unfold settled_obligation. destruct (owned_by saga o && is_open_obligation o) eqn:Hoo; [|done].
  destruct (parent_saga s saga) as [parent|] eqn:Hp; unfold owned_by; simpl; [|apply andb_false_r].
  apply parent_saga_ne in Hp. by rewrite bool_decide_eq_false_2.
Qed.
End SagaFacts.
