(* ===== verification/RunFacts.v ===== *)
(** * The end of a run: failure, cancellation and abandonment *)
From stdpp Require Import base option gmap strings list.
From Stdlib Require Import ZArith Ascii Lia.
From S2P Require Import Prelude Value Ids Policy Catalog Ir Domain Eval Evolve History Steps Saga Signals Claims Progress EvolveFacts.

Section RunFacts.
Context `{Platform} `{CatalogSerde} `{Serde}.
Implicit Types s : State.

(** ** Failing a scope touches neither obligations nor claims *)
Definition closing_event (e : DomainEvent) : bool :=
  match e with
  | ReservationReleased _ _ | WaitCancelled _ _ | ScopeFailed _ _ _ | RunFailed _ _ => true
  | _ => false
  end.

Definition holder (a : ActivationState) : RunId.t * option ClaimState := (as_run a, as_claim a).

Lemma close_pending_waits_closing s run :
  Forall (λ e, closing_event e = true) (close_pending_waits s run).
Proof.
  unfold close_pending_waits. apply Forall_bind, Forall_true. intros w. unfold close_wait. simpl.
  destruct (lfind _ _); by repeat constructor.
Qed.

Lemma fail_scope_closing s scope error evs :
  fail_scope s scope error = Ok evs → Forall (λ e, closing_event e = true) evs.
Proof.
  unfold fail_scope. intros Hf. ok_inv; [constructor|]. apply Forall_app. split.
  - case_match; [apply close_pending_waits_closing|constructor].
  - case_match; by repeat constructor.
Qed.

Lemma holder_alter (f : ActivationState → ActivationState) k m :
  (∀ a, holder (f a) = holder a) → holder <$> alter f k m = holder <$> (m : gmap ActivationId.t ActivationState).
Proof.
  intros Hf. apply map_eq. intros i. rewrite !lookup_fmap, lookup_alter. case_decide; subst; [|done].
  destruct (m !! i); simpl; [by rewrite Hf|done].
Qed.

Lemma holder_fmap (f : ActivationState → ActivationState) m :
  (∀ a, holder (f a) = holder a) → holder <$> (f <$> m) = holder <$> (m : gmap ActivationId.t ActivationState).
Proof.
  intros Hf. rewrite <-map_fmap_compose. apply map_fmap_ext. intros i a _. apply Hf.
Qed.

Lemma closing_fold s evs s' :
  Forall (λ e, closing_event e = true) evs → outcome_fold evolve s evs = Ok s' →
  obligations s' = obligations s ∧ holder <$> activations s' = holder <$> activations s.
Proof.
  intros Hall. revert s. induction Hall as [|e evs He _ IH]; simpl; intros s Hs; [by simplify_eq|].
  apply outcome_bind_ok in Hs as (s1 & Hev & Hs). apply IH in Hs as [-> ->].
  destruct e; simplify_eq/=; try done.
  - split; [done|]. apply holder_fmap. intros a. by case_match.
  - unfold evolve_wait_cancelled. case_match; [|done]. split; [done|]. by apply holder_alter.
  - split; [done|]. apply holder_fmap. intros a. by case_match.
Qed.

Lemma decide_abandon_events s run reason evs :
  decide_abandon_compensation s run reason = Ok evs →
  evs = [] ∨ ∃ closing, Forall (λ e, closing_event e = true) closing ∧
    evs = CompensationAbandoned run reason (ob_forward <$>
      List.filter (λ o, bool_decide (ob_run o = run) && negb (is_settled o)) (obligations s)) :: closing.
Proof.
  unfold decide_abandon_compensation. intros Hd. ok_inv; auto; right; eexists; (split; [|done]);
    first [by eapply fail_scope_closing|constructor].
Qed.

(** Abandonment leaves nothing unresolved. When an operator abandons the
    compensation of a run, every obligation of the run is settled afterwards and
    no activation of the run holds a claim. *)
Theorem abandonment_settles_run s run reason evs s' :
  decide_abandon_compensation s run reason = Ok evs → evs ≠ [] →
  outcome_fold evolve s evs = Ok s' →
  (∀ o, o ∈ obligations s' → ob_run o = run → is_settled o = true) ∧
  map_Forall (λ _ a, as_run a = run → as_claim a = None) (activations s').
Proof.
  intros [->|(closing & Hcl & ->)]%decide_abandon_events Hne Hs; [done|]. simpl in Hs.
  eapply closing_fold in Hs as [Ho Ha]; [|exact Hcl].
  unfold evolve_compensation_abandoned in *. simpl in Ho, Ha. split.
  - rewrite Ho. intros o (o1 & -> & Ho1)%list_elem_of_fmap.
    destruct (bool_decide _ && _) eqn:Hb; [done|]. intros Hr. apply andb_false_iff in Hb.
    rewrite !bool_decide_eq_false in Hb. destruct Hb as [?|Hin]; [done|].
    destruct (is_settled o1) eqn:Hset; [done|]. destruct Hin. apply list_elem_of_fmap. exists o1.
    split; [done|]. apply elem_of_filter_b. by rewrite Hset, bool_decide_eq_true_2.
  - intros k a Hk Hr. assert ((holder <$> activations s') !! k = Some (run, as_claim a)) as Hh.
    { rewrite lookup_fmap, Hk. simpl. unfold holder. by rewrite Hr. }
    rewrite Ha, !lookup_fmap in Hh. destruct (activations s !! k) as [a0|]; simpl in Hh; [|done].
    case_bool_decide; unfold holder in Hh; simplify_eq/=; done.
Qed.

(** ** Failure of a run *)

(** Nothing of the run is open or awaits a result. *)
Definition run_closed s (run : RunId.t) : Prop :=
  map_Forall (λ _ x, ss_run x = run → scope_is_open x = false) (scopes s) ∧
  map_Forall (λ _ a, as_run a = run →
    as_status a = ActivationStatus_Succeeded ∨ as_status a = ActivationStatus_Failed) (activations s).

Lemma run_failed_closes s run error : run_closed (evolve_run_failed s run error) run.
Proof.
  unfold evolve_run_failed. split; simpl; intros k x; rewrite lookup_fmap; intros (y & _ & ->)%fmap_Some.
  - case_bool_decide; simpl; [|done]. by destruct (scope_is_open y) eqn:?.
  - case_bool_decide; simpl; [|done]. case_bool_decide; simpl; auto.
Qed.

Lemma run_failed_status s run error :
  run_is_active <$> runs (evolve_run_failed s run error) !! run = (λ _, false) <$> runs s !! run.
Proof. unfold evolve_run_failed. simpl. rewrite lookup_alter_eq. by destruct (runs s !! run). Qed.

Section Inert.
Context `{!PlatformLaws _}.

Lemma run_closed_no_ready s run time : run_closed s run → unclaimed_ready s run time = [].
Proof.
  intros [_ Hacts]. unfold unclaimed_ready, ready_activations.
  assert (List.filter (λ act, bool_decide (as_run act = run) && bool_decide (as_status act = ActivationStatus_Ready) &&
    forallb (λ wait, negb (bool_decide (wt_activation wait = as_id act)) || negb (wt_pending wait))
      (hm_values (waits s))) (hm_values (activations s)) = []) as ->; [|done].
  apply elem_of_nil_inv. intros a [Hp (k & Hk)%elem_of_hm_values]%elem_of_filter_b. to_prop.
  destruct (Hacts k a Hk); congruence.
Qed.

(** A failed run is inert. Applying [RunFailed] closes every scope and
    activation of the run; from then on no worker is offered any of its
    activations and the interpreter takes no step for it. *)
Theorem failed_run_is_inert s run error s' :
  evolve s (RunFailed run error) = Ok s' →
  run_closed s' run ∧ (∀ time, unclaimed_ready s' run time = []) ∧
  ∀ time ids, next_progress s' run time ids = Ok (None, ids).
Proof.
  intros [= <-]. pose proof (run_failed_closes s run error) as Hc. split_and!; [done| |].
  - intros time. by apply run_closed_no_ready.
  - intros time ids. unfold next_progress. pose proof (run_failed_status s run error) as Hst.
    destruct (runs (evolve_run_failed s run error) !! run) as [r|]; [|done].
    destruct (runs s !! run); simpl in Hst; simplify_eq. by rewrite Hst.
Qed.

(** ** Cancellation *)
Lemma close_waits_fold s0 run ws s s' :
  outcome_fold evolve s (ws ≫= close_wait s0 run) = Ok s' →
  runs s' = runs s ∧ scopes s' = scopes s ∧
  ∀ k w, waits s' !! k = Some w → wt_pending w = true → waits s !! k = Some w ∧ k ∉ wt_id <$> ws.
Proof.
  revert s. induction ws as [|w0 ws IH]; simpl; intros s Hs.
  { simplify_eq. split_and!; [done|done|]. intros. split; [done|set_solver]. }
  apply outcome_fold_app in Hs as (s1 & Hs1 & Hs). destruct (IH s1 Hs) as (-> & -> & Hw).
  unfold close_wait in Hs1. apply outcome_fold_app in Hs1 as (s2 & Hs2 & Hs1).
  assert (runs s2 = runs s ∧ scopes s2 = scopes s ∧ waits s2 = waits s) as (<- & <- & <-).
  { destruct (lfind _ _); simpl in Hs2; by simplify_eq. }
  simpl in Hs1. simplify_eq. unfold evolve_wait_cancelled in *.
  destruct (waits s2 !! wt_id w0) as [w1|] eqn:Hw1; simpl in *.
  - split_and!; [done|done|]. intros k w Hk Hp. destruct (Hw k w Hk Hp) as [Hk1 Hni].
    rewrite lookup_insert in Hk1. case_decide; simplify_eq/=. split; [done|set_solver].
  - split_and!; [done|done|]. intros k w Hk Hp. destruct (Hw k w Hk Hp) as [Hk1 Hni].
    split; [done|]. apply not_elem_of_cons. split; [congruence|done].
Qed.

Lemma root_scope_of_Some s run root :
  ids_wf s → root_scope_of s run = Some root →
  scopes s !! ss_id root = Some root ∧ ss_run root = run ∧ is_root_role (ss_role root) = true.
Proof.
  intros Hids [(k & Hk)%elem_of_hm_values Hp]%lfind_Some_1. to_prop.
  pose proof (idw_scopes _ Hids k root Hk) as Hid. simpl in Hid. by subst k.
Qed.

(** Cancelling closes the run. When a run without open sagas is cancelled
    (and its root scope has not failed already), applying the decision fails the
    run with [run.cancelled], closes all its scopes and activations, and leaves
    none of its waits pending. *)
Theorem cancel_closes_run s run reason ids evs ids' s' :
  ids_wf s → open_sagas s run = [] →
  decide_cancel s run reason ids = Ok (evs, ids') → evs ≠ [] →
  outcome_fold evolve s evs = Ok s' →
  (∃ r, runs s' !! run = Some r ∧ rs_status r = RunStatus_Failed (mkFailError "run.cancelled" reason)) ∧
  run_closed s' run ∧ map_Forall (λ _ w, wt_run w = run → wt_pending w = false) (waits s').
Proof.
  intros Hids Hsagas Hd Hne Hs. unfold decide_cancel in Hd. rewrite Hsagas in Hd.
  apply run_bind_ok in Hd as (r & ? & [Hr%ok_or_ok ->]%lift_ok & Hd).
  destruct (negb (run_is_active r)); [by ok_inv|].
  destruct (root_scope_of s run) as [root|] eqn:Hroot; [|by ok_inv].
  apply lift_ok in Hd as [Hf ->]. apply root_scope_of_Some in Hroot as (Hsc & Hrun & Hrole); [|done].
  unfold fail_scope in Hf. rewrite Hsc in Hf. simpl in Hf. rewrite Hrole, Hrun in Hf. simpl in Hf.
  destruct (scope_failure root); simplify_eq.
  apply outcome_fold_app in Hs as (s1 & Hs1 & Hs). unfold close_pending_waits in Hs1.
  apply close_waits_fold in Hs1 as (Hruns & _ & Hw). simpl in Hs. simplify_eq. split_and!.
  - simpl. rewrite lookup_alter_eq, Hruns, Hr. simpl. by eexists.
  - apply run_failed_closes.
  - intros k w Hk Hwr. simpl in Hk. destruct (wt_pending w) eqn:Hp; [|done].
    destruct (Hw k w Hk Hp) as [Hk0 Hni]. destruct Hni. apply list_elem_of_fmap. exists w. split.
    { symmetry. by apply (idw_waits _ Hids). }
    rewrite sort_by_perm. apply elem_of_filter_b. rewrite Hp, bool_decide_eq_true_2 by done.
    split; [done|]. apply elem_of_hm_values. eauto.
Qed.
End Inert.
End RunFacts.
