(* ===== verification/ProgressFacts.v ===== *)
(** * The interpreter: foreach, parallel, choose and progress batches *)
From stdpp Require Import base option gmap strings list.
From Stdlib Require Import ZArith Ascii Lia.
From S2P Require Import Prelude Value Ids Policy Catalog Ir Domain Eval Evolve History Steps Saga Signals Claims Progress EvolveFacts RunFacts.

(** ** The search for the next free index *)
Definition used (taken : list Z) (done : list (Z * Value)) : list Z := taken ++ done.*1.

Lemma foreach_has_elem (done : list (Z * Value)) i : foreach_has done i = true ↔ i ∈ done.*1.
Proof.
  unfold foreach_has. rewrite existsb_elem, list_elem_of_fmap. split.
  - intros ([j v] & ? & ?%Z.eqb_eq). exists (j, v). by simplify_eq.
  - intros ([j v] & -> & ?). exists (j, v). by rewrite Z.eqb_refl.
Qed.

Lemma index_used taken done i :
  bool_decide (i ∈ taken) || foreach_has done i = true ↔ i ∈ used taken done.
Proof. unfold used. by rewrite orb_true_iff, bool_decide_eq_true, foreach_has_elem, elem_of_app. Qed.

(** How many indices from [i] on are used. *)
Definition used_from (l : list Z) (i : Z) : nat := length (List.filter (Z.leb i) l).

Lemma used_from_le taken done i : (used_from (used taken done) i ≤ length taken + length done)%nat.
Proof.
  unfold used_from, used. pose proof (filter_length_le (Z.leb i) (taken ++ done.*1)) as Hle.
  by rewrite length_app, length_fmap in Hle.
Qed.

Lemma used_from_succ l i : i ∈ l → (used_from l (i + 1) < used_from l i)%nat.
Proof.
  assert (∀ l, (used_from l (i + 1) ≤ used_from l i)%nat) as Hle.
  { intros l'. unfold used_from. induction l' as [|x l' IH]; simpl; [done|].
    destruct (i + 1 <=? x) eqn:?, (i <=? x) eqn:?; to_prop; simpl; lia. }
  induction l as [|x l IH]; [set_solver|]. unfold used_from in *. simpl.
  intros [->|Hi]%elem_of_cons.
  - rewrite (proj2 (Z.leb_le x x)), (proj2 (Z.leb_gt (x + 1) x)) by lia. simpl. specialize (Hle l). lia.
  - specialize (IH Hi). destruct (i + 1 <=? x) eqn:?, (i <=? x) eqn:?; to_prop; simpl; lia.
Qed.

Lemma first_free_from fuel taken done i :
  0 ≤ i → (used_from (used taken done) i < fuel)%nat → i + Z.of_nat fuel ≤ 2 ^ 32 →
  ∃ r, first_free fuel taken done i = Some r ∧ i ≤ r ∧ r ∉ used taken done ∧
    ∀ j, i ≤ j < r → j ∈ used taken done.
Proof.
  revert i. induction fuel as [|fuel IH]; intros i Hi Hf Hb; [lia|]. simpl.
  destruct (bool_decide (i ∈ taken) || foreach_has done i) eqn:Hu.
  - apply index_used in Hu. pose proof (used_from_succ _ _ Hu).
    unfold wrap32. rewrite Z.mod_small by lia.
    destruct (IH (i + 1)) as (r & ? & ? & ? & Hr); [lia..|].
    exists r. split_and!; [done|lia|done|]. intros j Hj. destruct (decide (j = i)) as [->|]; [done|].
    apply Hr. lia.
  - exists i. split_and!; [done|lia| |lia]. by rewrite <-index_used, Hu.
Qed.

(** The index search of [foreach] ends at the least unused index. With
    fewer than 2^32 items in play, the loop reaches an index that is neither
    taken nor done within the steps the model allows, and every smaller index is
    taken or done. *)
Theorem foreach_index_search taken done :
  Z.of_nat (S (length taken + length done)) ≤ 2 ^ 32 →
  ∃ r, first_free (S (length taken + length done)) taken done 0 = Some r ∧ 0 ≤ r ∧
    r ∉ used taken done ∧ ∀ j, 0 ≤ j < r → j ∈ used taken done.
Proof.
  intros Hb. apply first_free_from; [lia| |lia]. pose proof (used_from_le taken done 0). lia.
Qed.

Section ProgressFacts.
Context `{Platform} `{CatalogSerde} `{Serde}.
Implicit Types s : State.

(** ** Which events open a scope *)
Definition opens_scope (e : DomainEvent) : bool :=
  match e with ScopeOpened _ _ _ _ _ => true | _ => false end.

Notation opens_none := (Forall (λ e, opens_scope e = false)).

Lemma follow_next_opens_none s scope node ids evs ids' :
  follow_next s scope node ids = Ok (evs, ids') → opens_none evs.
Proof. unfold follow_next, open_node. intros. ok_inv; by repeat constructor. Qed.

Lemma finish_node_opens_none s act output ids evs ids' :
  finish_node s act output ids = Ok (evs, ids') → opens_none evs.
Proof. unfold finish_node. intros. ok_inv. constructor; [done|]. by eapply follow_next_opens_none. Qed.

Lemma fail_scope_opens_none s scope error evs : fail_scope s scope error = Ok evs → opens_none evs.
Proof.
  intros Hf%fail_scope_closing. eapply Forall_impl; [done|]. intros e. by destruct e.
Qed.

Lemma cancel_siblings_opens_none s failed keep error siblings evs :
  cancel_siblings s failed keep error siblings = Ok evs → opens_none evs.
Proof.
  revert evs. induction siblings as [|x l IH]; simpl; intros evs Hc; ok_inv; [constructor|by apply IH|].
  apply Forall_app. split; [by eapply fail_scope_opens_none|by apply IH].
Qed.

Lemma opens_none_elem evs run scope parent role input :
  opens_none evs → ScopeOpened run scope parent role input ∉ evs.
Proof. rewrite Forall_forall. intros Hall Hin. by specialize (Hall _ Hin). Qed.

(** ** Foreach *)

(** The children of a foreach and the indices in use. *)
Definition foreach_open s (act : ActivationState) : Z :=
  zlen (List.filter scope_is_open (children_of s (as_id act))).

Definition foreach_used s (act : ActivationState) : list Z :=
  used (foreach_taken (children_of s (as_id act))) (default [] (foreach_done s !! as_id act)).

(** [foreach] starts its items in order within its concurrency window. If
    it opens a scope, fewer than [max_concurrency] of its items are running, the
    scope is for an item that was not started before, every earlier item was
    started, and the scope's input is the item at that index of the array. *)
Theorem foreach_opens_next_item s act items max_items max_concurrency body ids evs ids' run scope parent role input :
  Z.of_nat (S (length (foreach_used s act))) ≤ 2 ^ 32 →
  progress_foreach s act items max_items max_concurrency body ids = Ok (evs, ids') →
  ScopeOpened run scope parent role input ∈ evs →
  ∃ list index, role = ScopeRole_ForeachItem (as_id act) index ∧ parent = Some (as_id act) ∧
    0 ≤ index ∧ list !! Z.to_nat index = Some input ∧
    (∃ sc ctx, scopes s !! as_scope act = Some sc ∧ eval_ctx s sc = Ok ctx ∧
       eval_binding items ctx = Ok (VArray list)) ∧
    foreach_open s act < max_concurrency ∧
    index ∉ foreach_used s act ∧ ∀ j, 0 ≤ j < index → j ∈ foreach_used s act.
Proof.
  intros Hsz Hp Hin. unfold progress_foreach in Hp.
  apply run_bind_ok in Hp as (sc & ? & [Hsc%unwrap_ok ->]%lift_ok & Hp).
  apply run_bind_ok in Hp as (ctx & ? & [Hctx ->]%lift_ok & Hp).
  apply run_bind_ok in Hp as (value & ? & [Hv ->]%lift_ok & Hp).
  destruct value as [| | | |list|]; try by ok_inv. exists list.
  destruct (max_items <? _); [by ok_inv|]. case_bool_decide.
  { exfalso. by eapply opens_none_elem, Hin; eapply finish_node_opens_none. }
  destruct (zlen _ =? zlen list).
  { apply run_bind_ok in Hp as (ordered & ? & _ & Hp).
    exfalso. by eapply opens_none_elem, Hin; eapply finish_node_opens_none. }
  destruct (failed ← _; _) as [[failed error]|].
  { exfalso. apply run_bind_ok in Hp as (c1 & ? & [Hc1 ->]%lift_ok & Hp).
    apply run_bind_ok in Hp as (c2 & ? & [Hc2 ->]%lift_ok & Hp). apply run_ret_ok in Hp as [-> _].
    apply elem_of_app in Hin as [Hin|Hin]; eapply opens_none_elem, Hin;
      [by eapply cancel_siblings_opens_none|by eapply fail_scope_opens_none]. }
  destruct (max_concurrency <=? _) eqn:Hconc; [apply run_ret_ok in Hp as [-> _]; set_solver|].
  apply run_bind_ok in Hp as (index & ? & [Hfree%unwrap_ok ->]%lift_ok & Hp).
  unfold foreach_used, used in Hsz. rewrite length_app, length_fmap in Hsz.
  edestruct first_free_from as (r & Hr & Hr0 & Hnew & Hleast);
    [apply (Z.le_refl 0)|apply Nat.lt_succ_r, used_from_le|exact Hsz|]. rewrite Hfree in Hr. injection Hr as <-.
  destruct (list !! Z.to_nat index) as [item|] eqn:Hitem; [|apply run_ret_ok in Hp as [-> _]; set_solver].
  unfold open_child in Hp. ok_inv.
  apply elem_of_cons in Hin as [Heq|Hin]; [|set_solver]. injection Heq as -> -> -> -> ->.
  exists index. to_prop. split_and!; try done; eauto.
Qed.

(** The output that a node records when it finishes. *)
Definition records_output (act : ActivationState) (output : Value) (evs : list DomainEvent) : Prop :=
  ∃ rest, evs = NodeOutputRecorded (as_run act) (as_scope act) (as_node act) output :: rest.

Lemma finish_node_records s act output ids evs ids' :
  finish_node s act output ids = Ok (evs, ids') → records_output act output evs.
Proof. unfold finish_node. intros. ok_inv. by eexists. Qed.

(** [foreach] returns its results in item order. When all items are done,
    the recorded output is the array whose [i]-th element is the output stored
    for item [i], whatever order the items completed in. *)
Theorem foreach_output_in_item_order s act items max_items max_concurrency body ids evs ids' sc ctx list :
  progress_foreach s act items max_items max_concurrency body ids = Ok (evs, ids') →
  scopes s !! as_scope act = Some sc → eval_ctx s sc = Ok ctx → eval_binding items ctx = Ok (VArray list) →
  list ≠ [] → zlen list < 2 ^ 32 →
  zlen (default [] (foreach_done s !! as_id act)) = zlen list →
  ∃ ordered, records_output act (VArray ordered) evs ∧ length ordered = length list ∧
    ∀ i, (i < length list)%nat →
      ordered !! i = foreach_get (default [] (foreach_done s !! as_id act)) (Z.of_nat i).
Proof.
  intros Hp Hsc Hctx Hv Hne Hlen Hdone. unfold progress_foreach in Hp. rewrite Hsc in Hp.
  apply run_bind_ok in Hp as (? & ? & [[= <-] ->]%lift_ok & Hp).
  apply run_bind_ok in Hp as (? & ? & [Hc ->]%lift_ok & Hp). rewrite Hctx in Hc. injection Hc as <-.
  apply run_bind_ok in Hp as (? & ? & [Hc ->]%lift_ok & Hp). rewrite Hv in Hc. injection Hc as <-.
  destruct (max_items <? _); [by ok_inv|]. rewrite bool_decide_eq_false_2 in Hp by (by destruct list).
  rewrite Hdone, Z.eqb_refl in Hp. apply run_bind_ok in Hp as (ordered & ? & [Ho ->]%lift_ok & Hp).
  exists ordered. apply outcome_map_ok in Ho. split_and!.
  - by eapply finish_node_records.
  - apply Forall2_length in Ho. by rewrite length_seq in Ho.
  - intros i Hi. eapply Forall2_lookup_l in Ho as (v & -> & Hval%unwrap_ok);
      [|by rewrite lookup_seq_lt by done].
    rewrite <-Hval. unfold wrap32. f_equal. rewrite Z.mod_small; [done|]. unfold zlen in Hlen. lia.
Qed.

(** ** Parallel *)

(** [parallel] returns its results in branch order. When every branch is
    done, the recorded output lists the branches' outputs in the order in which
    the branches are declared. *)
Theorem parallel_output_in_branch_order s act branches ids evs ids' :
  progress_parallel s act branches ids = Ok (evs, ids') →
  length (default [] (parallel_done s !! as_id act)) = length branches →
  ∃ ordered, records_output act (VArray ordered) evs ∧
    Forall2 (λ b v, bt_get (branch_name b) (default [] (parallel_done s !! as_id act)) = Some v)
      branches ordered.
Proof.
  intros Hp Hlen. unfold progress_parallel in Hp. rewrite Hlen, Nat.eqb_refl in Hp.
  apply run_bind_ok in Hp as (ordered & ? & [Ho ->]%lift_ok & Hp).
  exists ordered. split; [by eapply finish_node_records|]. apply outcome_map_ok in Ho.
  eapply Forall2_impl; [done|]. by intros b v ?%unwrap_ok.
Qed.

Lemma close_pending_waits_fails_none s run run' scope error :
  ScopeFailed run' scope error ∉ close_pending_waits s run.
Proof.
  unfold close_pending_waits, close_wait. rewrite list_elem_of_bind. intros (w & Hw & _).
  destruct (lfind _ _); set_solver.
Qed.

Lemma fail_scope_fails_only s scope error evs run scope' error' :
  fail_scope s scope error = Ok evs → ScopeFailed run scope' error' ∈ evs → scope' = scope.
Proof.
  unfold fail_scope. intros Hf Hin. apply outcome_bind_ok in Hf as (sc & _ & Hf).
  destruct (scope_failure sc); [ok_inv; set_solver|]. injection Hf as <-.
  rewrite elem_of_app, elem_of_cons in Hin. destruct Hin as [Hin|[[= _ ->]|Hin]]; [|done|case_match; set_solver].
  destruct (is_root_role _); [by apply close_pending_waits_fails_none in Hin|set_solver].
Qed.

Lemma cancel_siblings_failed s failed keep error siblings evs run scope error' :
  cancel_siblings s failed keep error siblings = Ok evs → ScopeFailed run scope error' ∈ evs →
  ∃ x, x ∈ siblings ∧ ss_id x = scope ∧ scope_is_open x = true ∧ keep x = false.
Proof.
  revert evs. induction siblings as [|x l IH]; simpl; intros evs Hc Hin; [ok_inv; set_solver|].
  destruct (_ || _ || _) eqn:Hskip; to_prop.
  { destruct (IH _ Hc Hin) as (y & ? & ? & ? & ?). exists y. set_solver. }
  apply outcome_bind_ok in Hc as (first & Hfirst & Hc). apply outcome_bind_ok in Hc as (rest & Hrest & Hc).
  injection Hc as <-. apply elem_of_app in Hin as [Hin|Hin].
  - exists x. split_and!; [set_solver| |done|done]. symmetry. by eapply fail_scope_fails_only.
  - destruct (IH _ Hrest Hin) as (y & ? & ? & ? & ?). exists y. set_solver.
Qed.

Lemma fail_scope_fails s scope error evs sc :
  scopes s !! scope = Some sc → scope_failure sc = None → fail_scope s scope error = Ok evs →
  ∃ run, ScopeFailed run scope error ∈ evs.
Proof.
  unfold fail_scope. intros -> Hs. simpl. rewrite Hs. intros [= <-]. exists (ss_run sc). set_solver.
Qed.

Lemma finish_node_fails_none s act output ids evs ids' run scope error :
  finish_node s act output ids = Ok (evs, ids') → ScopeFailed run scope error ∉ evs.
Proof. unfold finish_node, follow_next, open_node. intros Hf. ok_inv; set_solver. Qed.

(** The children of a parallel node that run a claimed activation. *)
Definition uncertain_child s (act : ActivationState) (child : ScopeState) : Prop :=
  child ∈ children_of s (as_id act) ∧ scope_is_open child = true ∧ scope_claimed s child = true.

Context `{!PlatformLaws _}.

Lemma children_of_scopes s act child :
  ids_wf s → child ∈ children_of s (as_id act) → scopes s !! ss_id child = Some child.
Proof.
  unfold children_of. intros Hwf [_ (k & Hk)%elem_of_hm_values]%elem_of_filter_b.
  by rewrite <-(idw_scopes _ Hwf _ _ Hk) in Hk.
Qed.

(** A failing [parallel] never cuts off work whose effect is uncertain. A
    scope it fails is either a sibling branch that is open and holds no claimed
    activation, or the node's own scope; the node's own scope only fails when no
    open branch holds a claimed activation. *)
Theorem parallel_failure_waits_for_claims s act branches ids evs ids' run scope error :
  ids_wf s → (∀ child, child ∈ children_of s (as_id act) → ss_id child ≠ as_scope act) →
  progress_parallel s act branches ids = Ok (evs, ids') → ScopeFailed run scope error ∈ evs →
  (∃ child, child ∈ children_of s (as_id act) ∧ ss_id child = scope ∧
     scope_is_open child = true ∧ scope_claimed s child = false) ∨
  (scope = as_scope act ∧ ∀ child, ¬ uncertain_child s act child).
Proof.
  intros Hwf Hout Hp Hin. unfold progress_parallel in Hp. destruct (_ =? _)%nat.
  { apply run_bind_ok in Hp as (? & ? & _ & Hp). by apply (finish_node_fails_none _ _ _ _ _ _ _ _ _ Hp) in Hin. }
  assert (parallel_failure s act = Ok evs ∨ ∀ e, e ∈ evs → ∀ r sc er, e ≠ ScopeFailed r sc er) as [Hf|Hf];
    [|unfold parallel_failure in Hf|by destruct (Hf _ Hin run scope error)].
  { destruct (_ <? _)%nat; [|left; by apply lift_ok in Hp as [? _]].
    apply run_bind_ok in Hp as (? & ? & _ & Hp). apply run_bind_ok in Hp as (? & ? & _ & Hp).
    destruct (lfind _ _); [right|left; by apply lift_ok in Hp as [? _]].
    apply run_bind_ok in Hp as (? & ? & _ & Hp). unfold open_child in Hp. ok_inv. set_solver. }
  destruct (lfind scope_is_failed _) as [failed|] eqn:Hfail; simpl in Hf; [|ok_inv; set_solver].
  destruct (scope_failure failed) as [err|] eqn:Herr; simpl in Hf; [|ok_inv; set_solver].
  apply outcome_bind_ok in Hf as (cancelled & Hc & Hf).
  assert (Hcase : ScopeFailed run scope error ∈ cancelled ∨
    (scope = as_scope act ∧ ∀ child, ¬ uncertain_child s act child)).
  { destruct (existsb _ _) eqn:Hu; [ok_inv; by left|].
    apply outcome_bind_ok in Hf as (closing & Hcl & Hf). injection Hf as <-.
    apply elem_of_app in Hin as [?|Hin]; [by left|right]. split; [by eapply fail_scope_fails_only|].
    intros child (Hchild & Hopen & Hclaim). rewrite existsb_false in Hu. specialize (Hu _ Hchild).
    rewrite Hopen, Hclaim, !andb_true_r in Hu. to_prop.
    apply lfind_Some_1 in Hfail as [Hfail _].
    pose proof (children_of_scopes _ _ _ Hwf Hchild) as Hone. rewrite Hu in Hone.
    rewrite (children_of_scopes _ _ _ Hwf Hfail) in Hone. simplify_eq.
    unfold scope_is_open, scope_failure in *. by destruct (ss_status child). }
  destruct Hcase as [Hcan|?]; [left|by right]. by eapply cancel_siblings_failed.
Qed.

(** ** Choose *)
Lemma choose_case_spec cases default ctx name chosen :
  choose_case cases default ctx = Ok (name, chosen) →
  (∃ pre c post, cases = pre ++ c :: post ∧
     Forall (λ c', eval_condition (case_when c') ctx = Ok false) pre ∧
     eval_condition (case_when c) ctx = Ok true ∧ name = case_name c ∧ chosen = case_body c) ∨
  (Forall (λ c, eval_condition (case_when c) ctx = Ok false) cases ∧ name = "default" ∧ chosen = default).
Proof.
  induction cases as [|c cases IH]; simpl; intros Hc; [right; by simplify_eq|].
  apply outcome_bind_ok in Hc as ([] & Hb & Hc).
  - left. exists [], c, cases. by simplify_eq.
  - destruct (IH Hc) as [(pre & c' & post & -> & ? & ?)|(? & ?)].
    + left. exists (c :: pre), c', post. naive_solver.
    + right. split; [by constructor|done].
Qed.

Lemma lfind_unique_name cases pre c post :
  NoDup (case_name <$> cases) → cases = pre ++ c :: post →
  lfind (λ c', bool_decide (case_name c' = case_name c)) cases = Some c.
Proof.
  intros Hnd ->. apply lfind_Some. exists pre, post. split_and!; [done|by apply bool_decide_eq_true|].
  rewrite fmap_app, fmap_cons in Hnd. apply NoDup_app in Hnd as (_ & Hd & _).
  apply Forall_forall. intros x Hx. apply bool_decide_eq_false. intros Heq.
  apply (Hd (case_name x)); [by apply list_elem_of_fmap_2|rewrite Heq; left].
Qed.

(** [choose] runs the first case whose condition holds. A choose node
    with no child opens one scope: for the first case, in declaration order,
    that evaluates to true, or for the default when all are false; and the
    region that scope resolves to is the body of that very case. *)
Theorem choose_opens_first_match s act input cases default next ids evs ids' :
  NoDup (case_name <$> cases) → "default" ∉ case_name <$> cases →
  child_of s (as_id act) = None → progress_choose s act input cases default ids = Ok (evs, ids') →
  ∃ sc ctx captured name chosen scope start,
    scopes s !! as_scope act = Some sc ∧ eval_ctx s sc = Ok ctx ∧ eval_binding input ctx = Ok captured ∧
    evs = [ScopeOpened (as_run act) scope (Some (as_id act)) (ScopeRole_ChooseBody (as_id act) name) captured;
           ActivationOpened (as_run act) scope start (region_start chosen)] ∧
    child_region (ScopeRole_ChooseBody (as_id act) name) (Node_Choose input cases default next) = Some chosen ∧
    ((∃ pre c post, cases = pre ++ c :: post ∧
        Forall (λ c', eval_condition (case_when c') ctx = Ok false) pre ∧
        eval_condition (case_when c) ctx = Ok true ∧ chosen = case_body c) ∨
     (Forall (λ c, eval_condition (case_when c) ctx = Ok false) cases ∧ chosen = default)).
Proof.
  intros Hnd Hdef Hchild Hp. unfold progress_choose in Hp. rewrite Hchild in Hp.
  apply run_bind_ok in Hp as (sc & ? & [Hsc%unwrap_ok ->]%lift_ok & Hp).
  apply run_bind_ok in Hp as (ctx & ? & [Hctx ->]%lift_ok & Hp).
  apply run_bind_ok in Hp as (captured & ? & [Hin ->]%lift_ok & Hp).
  apply run_bind_ok in Hp as ([name chosen] & ? & [Hc ->]%lift_ok & Hp).
  unfold open_child in Hp. ok_inv.
  do 7 eexists. split_and!; [done..| |].
  - apply choose_case_spec in Hc as [(pre & c & post & Hcases & _ & _ & -> & ->)|(_ & -> & ->)]; [|done].
    simpl. rewrite bool_decide_eq_false_2.
    + by rewrite (lfind_unique_name cases pre c post).
    + intros Heq. apply Hdef. rewrite <-Heq, Hcases. apply list_elem_of_fmap_2. set_solver.
  - apply choose_case_spec in Hc as [(pre & c & post & ? & ? & ? & _ & ->)|(? & _ & ->)]; naive_solver.
Qed.

(** ** Progress batches *)

(** [n] steps of a run, each decided in the state the previous ones left. *)
Inductive progress_steps (run : RunId.t) (time : Z) :
    nat → State → IdGen → list DomainEvent → State → IdGen → Prop :=
| progress_none s ids : progress_steps run time 0 s ids [] s ids
| progress_more n s ids evs ids1 s1 rest s2 ids2 :
    next_progress s run time ids = Ok (Some evs, ids1) → apply_events s evs = Ok s1 →
    progress_steps run time n s1 ids1 rest s2 ids2 →
    progress_steps run time (S n) s ids (evs ++ rest) s2 ids2.

Lemma progress_batch_steps n s run time acc ids evs ids' :
  progress_batch n s run time acc ids = Ok (evs, ids') →
  ∃ m rest s' ids1, (m ≤ n)%nat ∧ evs = acc ++ rest ∧ progress_steps run time m s ids rest s' ids1 ∧
    ((m = n ∧ ids1 = ids') ∨ next_progress s' run time ids1 = Ok (None, ids')).
Proof.
  revert s acc ids. induction n as [|n IH]; simpl; intros s acc ids Hp.
  { apply run_ret_ok in Hp as [-> ->]. exists 0%nat, [], s, ids. split_and!; [lia|by rewrite app_nil_r| |auto].
    constructor. }
  apply run_bind_ok in Hp as ([now|] & ids1 & Hn & Hp); last first.
  { apply run_ret_ok in Hp as [-> ->]. exists 0%nat, [], s, ids.
    split_and!; [lia|by rewrite app_nil_r|constructor|by right]. }
  apply run_bind_ok in Hp as (s1 & ? & [Hs1 ->]%lift_ok & Hp).
  apply IH in Hp as (m & rest & s' & ids2 & Hm & -> & Hsteps & Hend).
  exists (S m), (now ++ rest), s', ids2. rewrite app_assoc.
  split_and!; [lia|done|by econstructor|destruct Hend as [[-> ->]|?]; [left; auto|by right]].
Qed.

Lemma progress_steps_apply run time n s ids evs s' ids' :
  progress_steps run time n s ids evs s' ids' → apply_events s evs = Ok s'.
Proof.
  induction 1 as [|n s ids evs ids1 s1 rest s2 ids2 _ Hs1 _ IH]; [done|].
  apply outcome_fold_app. by exists s1.
Qed.

(** C38: a [Progress] command takes a bounded number of steps and stops early
    only at rest. Its events are those of at most [PROGRESS_BATCH] consecutive
    steps, each decided in the state that the earlier ones produced; they apply
    to the current state as one sequence; and after fewer steps than the bound
    the run has no step left. *)
Theorem progress_runs_to_rest s run time ids evs ids' :
  decide_progress s run time ids = Ok (evs, ids') →
  ∃ n s' ids1, (n ≤ PROGRESS_BATCH)%nat ∧ progress_steps run time n s ids evs s' ids1 ∧
    apply_events s evs = Ok s' ∧
    ((n < PROGRESS_BATCH)%nat → next_progress s' run time ids1 = Ok (None, ids')).
Proof.
  intros (n & rest & s' & ids1 & Hn & Hevs & Hsteps & Hend)%progress_batch_steps. simpl in Hevs. subst rest.
  exists n, s', ids1. split_and!; [done|done|by eapply progress_steps_apply|].
  intros Hlt. destruct Hend as [[-> _]|?]; [lia|done].
Qed.
End ProgressFacts.
