(* ===== verification/CommandFacts.v ===== *)
(** * Committing commands: receipts, engine time and the engine invariant

    A command is applied at most once, a retry returns the recorded events and
    changes nothing, a conflicting retry is refused, engine time never runs back,
    and the invariants of the components hold in every state that committed
    commands can reach. *)
From stdpp Require Import base option gmap strings list.
From Stdlib Require Import ZArith Ascii Lia.
From S2P Require Import Prelude Value Ids Policy Catalog Ir Domain Eval Evolve History Steps Saga Signals Claims Progress Command EvolveFacts StepFacts ClaimFacts SignalFacts.

(** ** Generic lemmas *)
Lemma string_prefix_app (p x : string) : String.prefix p (p +:+ x) = true.
Proof. induction p as [|a p IH]; simpl; [by destruct x|]. by destruct (ascii_dec a a). Qed.

(** A fold whose steps keep [g] keeps [g]. *)
Lemma outcome_fold_keeps {A B C} (g : B → C) (f : B → A → Outcome B) acc l acc' :
  (∀ b x b', f b x = Ok b' → g b' = g b) → outcome_fold f acc l = Ok acc' → g acc' = g acc.
Proof.
  intros Hf. revert acc. induction l as [|x l IH]; simpl; intros acc Hl; [congruence|].
  apply outcome_bind_ok in Hl as (b & Hb & Hl). rewrite (IH _ Hl). eauto.
Qed.

Section CommandFacts.
Context `{Platform} `{CatalogSerde} `{Serde}.
Implicit Types s : State.

(** ** What follows the decided events *)
Definition logs s := (history s, history_records s).
Definition kept s := (projected s, receipts s, logs s).

Lemma kept_eq s1 s2 :
  kept s1 = kept s2 → projected s1 = projected s2 ∧ receipts s1 = receipts s2 ∧ logs s1 = logs s2.
Proof.
  intros Hk. split_and!; [exact (f_equal (λ p, p.1.1) Hk)|exact (f_equal (λ p, p.1.2) Hk)|
    exact (f_equal snd Hk)].
Qed.

Lemma record_terminal_kept t s e s' : record_terminal t s e = Ok s' → kept s' = kept s.
Proof.
  unfold record_terminal. intros Hr. ok_inv; try done.
  unfold kept, projected, receipts. simpl. do 9 f_equal. apply map_eq. intros k.
  rewrite !lookup_fmap, lookup_alter. case_decide; [|done]. subst. by destruct (runs s !! _).
Qed.

Lemma checkpoint_kept t s run s' : checkpoint_after_command s run t = Ok s' → kept s' = kept s.
Proof. unfold checkpoint_after_command. intros Hc. by ok_inv. Qed.

(** The receipts after a command was applied for the first time. *)
Definition with_receipt (id external_id : CommandId.t) (evs : list DomainEvent)
    (actor digest worker_digest : option string) (time : Z) (r : Receipts) : Receipts :=
  let put {V} (o : option V) (m : gmap CommandId.t V) :=
    match o with Some v => <[id := v]> m | None => m end in
  mkReceipts (<[id := evs]> (rc_commands r)) (put actor (rc_actors r))
    (put ((λ _, external_id) <$> actor) (rc_external_ids r)) (put (actor ≫= λ _, digest) (rc_request_digests r))
    (put worker_digest (rc_worker_digests r)) (rc_start_digests r) (<[id := time]> (rc_times r)) time.

Lemma record_receipt_ok id ext evs actor digest wd time s s' :
  record_receipt id ext evs actor digest wd time s = Ok s' → engine_time_watermark_ms s = time →
  projected s' = projected s ∧ receipts s' = with_receipt id ext evs actor digest wd time (receipts s) ∧
  (is_Some actor → is_Some digest) ∧ logs s' = logs s.
Proof.
  unfold record_receipt. intros Hr <-. apply outcome_bind_ok in Hr as (s1 & Hs1 & [= <-]).
  destruct actor as [a|]; ok_inv; subst; destruct wd; split_and!; try done; eauto.
Qed.

(** The time a command is applied at. *)
Definition commit_time s (c : Command) : Z := Z.max (cmd_time c) (engine_time_watermark_ms s).
Definition timed s (c : Command) : Command := mkCommand (cmd_id c) (cmd_body c) (commit_time s c).
Definition ticked s (c : Command) : State := upd_watermark (λ _, commit_time s c) s.

Lemma apply_new s c actor ext digest evs s' :
  apply_command_with_actor s c actor ext digest = Ok (evs, s') → commands s !! cmd_id c = None →
  ∃ wd ids' s1, worker_request_digest (cmd_body c) = Ok wd ∧
    decide_body (ticked s c) (timed s c) (idgen_new (cmd_id c)) = Ok (evs, ids') ∧
    apply_events_with_cause (ticked s c) evs (Some ext) actor (commit_time s c) = Ok s1 ∧
    projected s' = projected s1 ∧
    receipts s' = with_receipt (cmd_id c) ext evs actor digest wd (commit_time s c) (receipts s) ∧
    (is_Some actor → is_Some digest) ∧ logs s' = logs s1.
Proof.
  unfold apply_command_with_actor. intros (wd & Hwd & Ha)%outcome_bind_ok Hnone. rewrite Hnone in Ha.
  change (upd_watermark _ s) with (ticked s c) in Ha. change (Z.max _ _) with (commit_time s c) in Ha.
  change (mkCommand _ _ _) with (timed s c) in Ha.
  apply outcome_bind_ok in Ha as (evs1 & Hd & Ha). apply outcome_bind_ok in Ha as (s1 & Hs1 & Ha).
  apply outcome_bind_ok in Ha as (s2 & Hs2 & Ha). apply outcome_bind_ok in Ha as (s3 & Hs3 & Ha).
  apply outcome_bind_ok in Ha as (affected & _ & Ha). apply outcome_bind_ok in Ha as (s4 & Hs4 & [= <- <-]).
  unfold decide in Hd. apply outcome_bind_ok in Hd as (_ & _ & Hd). simpl in Hd. rewrite Hnone in Hd.
  apply outcome_bind_ok in Hd as ([evs0 ids'] & Hd & [= ->]). exists wd, ids', s1.
  apply (outcome_fold_keeps kept) in Hs2; [|by intros; eapply record_terminal_kept].
  apply (outcome_fold_keeps kept) in Hs4; [|by intros; eapply checkpoint_kept].
  pose proof (apply_events_receipts _ _ _ _ _ _ Hs1) as Hr1.
  apply kept_eq in Hs2 as (Hp2 & Hr2 & Hl2). apply kept_eq in Hs4 as (Hp4 & Hr4 & Hl4).
  apply record_receipt_ok in Hs3 as (Hp3 & Hr3 & ? & Hl3).
  - split_and!; try done; [by rewrite Hp4, Hp3, Hp2|by rewrite Hr4, Hr3, Hr2, Hr1|by rewrite Hl4, Hl3, Hl2].
  - change (rc_watermark (receipts s2) = commit_time s c). by rewrite Hr2, Hr1.
Qed.

(** ** The identity of a command *)

(** The stored identity and the request digest, which only the content decides. *)
Definition command_identity (c : Command) (actor : option string) : Outcome (CommandId.t * option string) :=
  match actor with
  | Some a =>
      d ← authenticated_request_digest (cmd_body c);
      id ← authenticated_command_id a (cmd_id c);
      Ok (id, Some d)
  | None => Ok (cmd_id c, None)
  end.

Lemma prepare_command_ok s c actor c1 ext d :
  prepare_command s c actor = Ok (c1, ext, d) ↔
  ∃ id, command_identity c actor = Ok (id, d) ∧ c1 = mkCommand id (cmd_body c) (cmd_time c) ∧
    ext = cmd_id c ∧ verify_command_identity s id actor (cmd_id c) d = Ok tt.
Proof.
  unfold prepare_command, command_identity. destruct actor as [a|]; simpl.
  - destruct (authenticated_request_digest (cmd_body c)) as [d0| |]; simpl; [|by split; [|intros (?&?&?)]..].
    destruct (authenticated_command_id a (cmd_id c)) as [id| |]; simpl; [|by split; [|intros (?&?&?)]..].
    rewrite outcome_bind_ok. split.
    + intros ([] & Hv & [= <- <- <-]). by exists id.
    + intros (? & [= <- <-] & -> & -> & Hv). by exists tt.
  - rewrite outcome_bind_ok. split.
    + intros ([] & Hv & [= <- <- <-]). by exists (cmd_id c).
    + intros (? & [= <- <-] & -> & -> & Hv). by exists tt.
Qed.

Lemma command_identity_digest c actor id d :
  command_identity c actor = Ok (id, d) →
  match actor with Some _ => ∃ x, d = Some (AUTHENTICATED_PREFIX +:+ x) | None => d = None end.
Proof.
  unfold command_identity, authenticated_request_digest. intros Hid. destruct actor; [|by ok_inv].
  destruct (match cmd_body c with Cmd_Start _ _ _ _ => _ | _ => _ end) as [logical kind]. ok_inv. eauto.
Qed.

Lemma verify_fresh s id actor ext d :
  verify_command_identity s id actor ext d = Ok tt → commands s !! id = None →
  command_actors s !! id = None ∧ command_external_ids s !! id = None ∧
  authenticated_request_digests s !! id = None.
Proof.
  unfold verify_command_identity. intros Hv Hnone. rewrite bool_decide_eq_true_2 in Hv by done.
  ok_inv. to_prop. by split_and!; apply eq_None_not_Some.
Qed.

Lemma verify_recorded s c actor id d evs wd time r :
  command_identity c actor = Ok (id, d) →
  rc_actors r !! id = None → rc_external_ids r !! id = None → rc_request_digests r !! id = None →
  receipts s = with_receipt id (cmd_id c) evs actor d wd time r →
  verify_command_identity s id actor (cmd_id c) d = Ok tt.
Proof.
  intros Hid%command_identity_digest Ha He Hd [= Hrc Hra Hre Hrd _ _ _ _]. unfold verify_command_identity.
  rewrite Hrc, Hra, Hre, Hrd, lookup_insert_eq, bool_decide_eq_false_2 by done. destruct actor as [a|]; simpl.
  - destruct Hid as [x ->]. simpl. rewrite !lookup_insert_eq.
    rewrite !(bool_decide_eq_true_2 (Some _ = Some _)) by done. simpl.
    by rewrite string_prefix_app.
  - subst d. rewrite Ha, He, Hd. done.
Qed.

(** ** Retries *)

(** A worker digest is kept for applied commands only. *)
Definition receipts_wf s : Prop :=
  ∀ id, is_Some (worker_command_digests s !! id) → is_Some (commands s !! id).

Lemma commit_split s c actor evs s' :
  commit_execution s c actor = Ok (evs, s') →
  ∃ id d sd wd, command_identity c actor = Ok (id, d) ∧
    verify_command_identity s id actor (cmd_id c) d = Ok tt ∧
    start_digest (cmd_body c) = Ok sd ∧ worker_request_digest (cmd_body c) = Ok wd ∧
    ((commands s !! id = Some evs ∧ s' = s ∧ verify_worker_retry s id wd = Ok tt ∧
      verify_start_retry s id sd = Ok tt) ∨
     (commands s !! id = None ∧ ∃ s1,
        apply_command_with_actor (provide_run s (cmd_body c)) (mkCommand id (cmd_body c) (cmd_time c))
          actor (cmd_id c) d = Ok (evs, s1) ∧
        s' = match sd with Some x => upd_legacy_start_digests (insert id x) s1 | None => s1 end)).
Proof.
  unfold commit_execution. intros ([[c1 ext] d] & Hp & Hc)%outcome_bind_ok.
  apply prepare_command_ok in Hp as (id & Hid & -> & -> & Hv). simpl in Hc.
  apply outcome_bind_ok in Hc as (sd & Hsd & Hc). apply outcome_bind_ok in Hc as (wd & Hwd & Hc).
  exists id, d, sd, wd. split_and!; try done. destruct (commands s !! id) as [evs0|].
  - left. apply outcome_bind_ok in Hc as ([] & ? & Hc). apply outcome_bind_ok in Hc as ([] & ? & [= <- <-]). done.
  - right. split; [done|]. apply outcome_bind_ok in Hc as ([evs1 s1] & ? & [= <- <-]). eauto.
Qed.

Lemma provide_run_receipts s body : receipts (provide_run s body) = receipts s.
Proof. unfold provide_run. destruct body; try done. by case_bool_decide. Qed.

Lemma receipts_eq s1 s2 :
  receipts s1 = receipts s2 →
  commands s1 = commands s2 ∧ command_actors s1 = command_actors s2 ∧
  command_external_ids s1 = command_external_ids s2 ∧
  authenticated_request_digests s1 = authenticated_request_digests s2 ∧
  worker_command_digests s1 = worker_command_digests s2 ∧ command_times s1 = command_times s2 ∧
  engine_time_watermark_ms s1 = engine_time_watermark_ms s2.
Proof. by intros [= ? ? ? ? ? ? ? ?]. Qed.

(** What a first commit leaves behind for a later command under the same identity. *)
Lemma commit_new s c actor evs s' id d :
  commit_execution s c actor = Ok (evs, s') → command_identity c actor = Ok (id, d) →
  commands s !! id = None →
  verify_command_identity s' id actor (cmd_id c) d = Ok tt ∧ commands s' !! id = Some evs ∧
  (∃ wd, worker_request_digest (cmd_body c) = Ok wd ∧
     worker_command_digests s' !! id = match wd with Some _ => wd | None => worker_command_digests s !! id end) ∧
  (∃ sd, start_digest (cmd_body c) = Ok sd ∧ ∀ x, sd = Some x → legacy_start_digests s' !! id = Some x) ∧
  authenticated_request_digests s' !! id = d ∧ command_actors s' !! id = actor.
Proof.
  intros (id1 & d1 & sd & wd & Hid & Hv & Hsd & Hwd & Hcase)%commit_split Hid' Hnone.
  rewrite Hid in Hid'. injection Hid' as -> ->. destruct Hcase as [[? _]|(_ & s1 & Ha & ->)]; [congruence|].
  destruct (verify_fresh _ _ _ _ _ Hv Hnone) as (Hva & Hve & Hvd).
  pose proof (provide_run_receipts s (cmd_body c)) as Hpr.
  destruct (receipts_eq _ _ Hpr) as (Hpc & Hpa & Hpe & Hpd & Hpw & _ & _).
  apply apply_new in Ha as (wd' & ids' & s2 & Hwd' & _ & _ & _ & Hr & _); [|by rewrite Hpc].
  simpl in Hwd'. rewrite Hwd in Hwd'. injection Hwd' as <-. rewrite Hpr in Hr. simpl in Hr.
  set (s' := match sd with Some x => _ | None => s1 end).
  assert (Hs' : ∃ st, receipts s' = mkReceipts (commands s1) (command_actors s1) (command_external_ids s1)
    (authenticated_request_digests s1) (worker_command_digests s1) st (command_times s1)
    (engine_time_watermark_ms s1)) by (subst s'; destruct sd; by eexists).
  destruct Hs' as [st Hs']. injection Hs' as Hc1 Ha1 He1 Hd1 Hw1 Hst _ _.
  assert (Hver : verify_command_identity s1 id actor (cmd_id c) d = Ok tt)
    by exact (verify_recorded _ _ _ _ _ _ _ _ (receipts s) Hid Hva Hve Hvd Hr).
  injection Hr as Hc2 Ha2 He2 Hd2 Hw2 _ _ _.
  split_and!.
  - unfold verify_command_identity in *. by rewrite Hc1, Ha1, He1, Hd1.
  - by rewrite Hc1, Hc2, lookup_insert_eq.
  - exists wd. split; [done|]. rewrite Hw1, Hw2. destruct wd; [by rewrite lookup_insert_eq|done].
  - exists sd. split; [done|]. intros x ->. subst s'. simpl. by rewrite lookup_insert_eq.
  - rewrite Hd1, Hd2. apply command_identity_digest in Hid.
    destruct actor; simpl; [destruct Hid as [x ->]; by rewrite lookup_insert_eq|by subst d].
  - rewrite Ha1, Ha2. by destruct actor; [rewrite lookup_insert_eq|].
Qed.

Lemma verify_other_digest s id a ext x d' evs :
  let d := AUTHENTICATED_PREFIX +:+ x in
  verify_command_identity s id (Some a) ext (Some d) = Ok tt →
  commands s !! id = Some evs → authenticated_request_digests s !! id = Some d → d' ≠ d →
  verify_command_identity s id (Some a) ext (Some d') =
    Err (error_new AlreadyExists "command ID reused with different authenticated request").
Proof.
  intros d Hv Hcmd Hdig Hne. unfold verify_command_identity in *. rewrite Hcmd, Hdig in Hv |- *.
  rewrite bool_decide_eq_false_2 in Hv |- * by done.
  match goal with |- (if ?b then _ else _) = _ => destruct b; [discriminate Hv|] end.
  cbn [negb] in *. subst d. rewrite string_prefix_app in Hv |- *.
  rewrite (bool_decide_eq_false_2 (Some _ = Some d')) by congruence. done.
Qed.

(** C1: a command is applied at most once. When it was committed, committing the
    same content again under the same identity, at any later or earlier time,
    returns the same events and leaves the state as it is. *)
Theorem commit_is_idempotent s c actor evs s' time :
  receipts_wf s → commit_execution s c actor = Ok (evs, s') →
  commit_execution s' (mkCommand (cmd_id c) (cmd_body c) time) actor = Ok (evs, s').
Proof.
  intros Hwf Hc. destruct (commit_split _ _ _ _ _ Hc) as (id & d & sd & wd & Hid & Hv & Hsd & Hwd & Hcase).
  assert (Hre : verify_command_identity s' id actor (cmd_id c) d = Ok tt ∧ commands s' !! id = Some evs ∧
    verify_worker_retry s' id wd = Ok tt ∧ verify_start_retry s' id sd = Ok tt).
  { destruct Hcase as [(? & -> & ? & ?)|(Hnone & _)]; [done|].
    destruct (commit_new _ _ _ _ _ _ _ Hc Hid Hnone) as (? & ? & (wd' & Hwd' & Hw) & (sd' & Hsd' & Hs) & _).
    rewrite Hwd in Hwd'. injection Hwd' as <-. rewrite Hsd in Hsd'. injection Hsd' as <-.
    split_and!; [done|done| |].
    - unfold verify_worker_retry. rewrite Hw. destruct wd; [by simpl; rewrite bool_decide_eq_true_2|].
      destruct (worker_command_digests s !! id) eqn:He; [|done].
      destruct (Hwf id) as [? ?]; [by rewrite He|congruence].
    - unfold verify_start_retry. destruct sd; [|by destruct (legacy_start_digests s' !! id)].
      rewrite (Hs _ eq_refl). by simpl; rewrite bool_decide_eq_true_2. }
  destruct Hre as (Hv' & Hcmd & Hw & Hs). unfold commit_execution.
  assert (prepare_command s' (mkCommand (cmd_id c) (cmd_body c) time) actor =
    Ok (mkCommand id (cmd_body c) time, cmd_id c, d)) as ->.
  { apply prepare_command_ok. by exists id. }
  simpl. rewrite Hsd. simpl. rewrite Hwd. simpl. by rewrite Hcmd, Hw, Hs.
Qed.

(** An identity stands for one request. Once an authenticated command was
    committed, the same actor cannot use its identity for a body with another
    request digest: the retry fails with [AlreadyExists] and the state keeps the
    first request's receipt. *)
Theorem conflicting_retry_is_refused s c a evs s' id d body d' time :
  commit_execution s c (Some a) = Ok (evs, s') → command_identity c (Some a) = Ok (id, Some d) →
  commands s !! id = None →
  authenticated_request_digest body = Ok d' → d' ≠ d →
  commit_execution s' (mkCommand (cmd_id c) body time) (Some a) =
    Err (error_new AlreadyExists "command ID reused with different authenticated request").
Proof.
  intros Hc Hid Hnone Hd' Hne.
  destruct (commit_new _ _ _ _ _ _ _ Hc Hid Hnone) as (Hv & Hcmd & _ & _ & Hdig & Hact).
  destruct (command_identity_digest _ _ _ _ Hid) as [x [= ->]].
  unfold command_identity in Hid. apply outcome_bind_ok in Hid as (d1 & _ & Hid).
  apply outcome_bind_ok in Hid as (id1 & Hid1 & [= -> ->]).
  unfold commit_execution, prepare_command. simpl. rewrite Hd'. simpl. rewrite Hid1. simpl.
  by rewrite (verify_other_digest _ _ _ _ _ d' _ Hv Hcmd Hdig Hne).
Qed.

(** Engine time never runs back. The watermark never decreases, and a
    command that is applied is stamped with the new watermark, which is its own
    time or the previous watermark, whichever is later. *)
Theorem engine_time_is_monotone s c actor evs s' :
  commit_execution s c actor = Ok (evs, s') →
  engine_time_watermark_ms s ≤ engine_time_watermark_ms s' ∧
  (s' = s ∨ ∃ id, commands s !! id = None ∧ commands s' !! id = Some evs ∧
     command_times s' !! id = Some (engine_time_watermark_ms s') ∧
     engine_time_watermark_ms s' = Z.max (cmd_time c) (engine_time_watermark_ms s)).
Proof.
  intros (id & d & sd & wd & _ & _ & _ & _ & [(? & -> & _)|(Hnone & s1 & Ha & ->)])%commit_split;
    [split; [lia|by left]|].
  pose proof (provide_run_receipts s (cmd_body c)) as Hpr.
  destruct (receipts_eq _ _ Hpr) as (Hpc & _ & _ & _ & _ & _ & Hpt).
  apply apply_new in Ha as (wd' & ids' & s2 & _ & _ & _ & _ & Hr & _); [|by rewrite Hpc].
  unfold commit_time in Hr. simpl in Hr. rewrite Hpt, Hpr in Hr. injection Hr as Hc' _ _ _ _ _ Ht Hw.
  assert (∀ s', commands s' = commands s1 → command_times s' = command_times s1 →
    engine_time_watermark_ms s' = engine_time_watermark_ms s1 →
    engine_time_watermark_ms s ≤ engine_time_watermark_ms s' ∧
    (s' = s ∨ ∃ id, commands s !! id = None ∧ commands s' !! id = Some evs ∧
       command_times s' !! id = Some (engine_time_watermark_ms s') ∧
       engine_time_watermark_ms s' = Z.max (cmd_time c) (engine_time_watermark_ms s))) as Hgen.
  { intros s' -> -> ->. rewrite Hw. split; [lia|]. right. exists id.
    by rewrite Hc', Ht, !lookup_insert_eq. }
  destruct sd; by apply Hgen.
Qed.

(** ** The engine invariant *)

(** What every component keeps of the replicated state. *)
Record engine_wf s : Prop := mkEngineWf {
  ew_ids : ids_wf s;
  ew_obligations : obligations_unique s;
  ew_claims : claims_wf s;
  ew_inbox : inbox_wf s;
  ew_receipts : receipts_wf s;
}.

(** No run has used up its 64-bit input sequence. *)
Definition sequences_in_range s : Prop :=
  map_Forall (λ _ r, 0 ≤ rs_next_sequence r < u64_max) (runs s).

Lemma engine_wf_frame s s' :
  projected s' = projected s → receipts_wf s' → engine_wf s → engine_wf s'.
Proof. intros Hp Hr [? ? ? ? _]. split; [by eapply inv_frame..|done]. Qed.

Lemma provisional_run_wf s run definition catalog pin :
  runs s !! run = None → engine_wf s →
  engine_wf (upd_runs (insert run (provisional_run run definition catalog pin)) s).
Proof.
  intros Hrun [[? ? ? ? ?] ? ? [? ? Hfresh Hd ?] ?]. split; try done.
  - split; try done. simpl. by apply map_Forall_insert_2.
  - split; try done; simpl.
    + intros e run' r He Hr. rewrite lookup_insert. case_decide; [subst|by apply Hfresh].
      destruct (Hd _ _ He Hr) as [? ?]. congruence.
    + intros e run' He Hr. rewrite lookup_insert. case_decide; [done|]. by eapply Hd.
Qed.

Lemma provide_run_wf s body : engine_wf s → engine_wf (provide_run s body).
Proof.
  unfold provide_run. destruct body; try done. case_bool_decide as Hrun; [done|].
  apply eq_None_not_Some in Hrun. by apply provisional_run_wf.
Qed.

Lemma provide_run_in_range s body : sequences_in_range s → sequences_in_range (provide_run s body).
Proof.
  unfold provide_run. destruct body; try done. case_bool_decide; [done|].
  intros Hr. by apply map_Forall_insert_2.
Qed.

(** The guards of the invariants hold for whatever a command decides. *)
Lemma decide_body_guarded s c ids evs ids' :
  sequences_in_range s → decide_body s c ids = Ok (evs, ids') →
  guarded grant_guard s evs ∧ guarded accept_guard s evs.
Proof.
  intros Hseq [Hplain|[(run & df & input & cat & _ & _ & Hd)|
    [(run & ev & signal & key & payload & _ & Hd)|(session & capacity & _ & _ & Hd)]]]%decide_body_plain.
  - split; apply guarded_all; eapply Forall_impl; try done; by intros [].
  - unfold decide_start in Hd. ok_inv. split; apply guarded_all; repeat (apply Forall_cons; split; [done|]); by apply Forall_nil.
  - split; [|eapply decide_signal_guarded; [by intros; eapply Hseq|done]].
    unfold decide_signal in Hd. ok_inv; try constructor; try done.
    intros. apply guarded_all. case_match; repeat (apply Forall_cons; split; [done|]); by apply Forall_nil.
  - split; [by eapply decide_claim_guarded|]. pose proof (decide_claim_events _ _ _ _ _ Hd) as Hall.
    apply guarded_all. eapply Forall_impl; [done|]. by intros [].
Qed.

(** A decision that starts, signals and claims nothing needs no range. *)
Lemma decide_progress_guarded s run id time ids evs ids' :
  decide_body s (mkCommand id (Cmd_Progress run) time) ids = Ok (evs, ids') →
  guarded grant_guard s evs ∧ guarded accept_guard s evs.
Proof.
  intros [Hplain|[(? & ? & ? & ? & Hbody & _)|[(? & ? & ? & ? & ? & Hbody & _)|(? & ? & Hbody & _)]]]%decide_body_plain;
    try discriminate Hbody.
  split; apply guarded_all; eapply Forall_impl; try exact Hplain; by intros [].
Qed.

(** Guarded events keep the components' invariants. *)
Lemma apply_events_wf s evs cid pid t s' :
  engine_wf s → guarded grant_guard s evs → guarded accept_guard s evs →
  apply_events_with_cause s evs cid pid t = Ok s' → engine_wf s'.
Proof.
  intros [Hids Hobl Hcl Hin Hrec] Hg Ha Happ.
  assert (Hun : guarded unguarded s evs) by (apply guarded_all, Forall_true; done).
  pose proof (apply_events_receipts _ _ _ _ _ _ Happ) as (Hc & _ & _ & _ & Hw & _)%receipts_eq.
  split; [exact (apply_events_inv unguarded ids_wf _ _ _ _ _ _ Hun Hids Happ)|
    exact (apply_events_inv unguarded obligations_unique _ _ _ _ _ _ Hun Hobl Happ)|
    exact (apply_events_inv grant_guard claims_wf _ _ _ _ _ _ Hg Hcl Happ)|
    exact (apply_events_inv accept_guard inbox_wf _ _ _ _ _ _ Ha Hin Happ)|].
  intros id. rewrite Hc, Hw. apply Hrec.
Qed.

Lemma apply_new_wf_guarded s c actor ext digest evs s' :
  (∀ ids evs ids', decide_body (ticked s c) (timed s c) ids = Ok (evs, ids') →
     guarded grant_guard (ticked s c) evs ∧ guarded accept_guard (ticked s c) evs) →
  engine_wf s → commands s !! cmd_id c = None →
  apply_command_with_actor s c actor ext digest = Ok (evs, s') → engine_wf s'.
Proof.
  intros Hguards Hwf Hnone (wd & ids' & s1 & _ & Hd & Happ & Hp & Hr & _)%apply_new; [|done].
  destruct (Hguards _ _ _ Hd) as [Hg Ha].
  eapply apply_events_wf in Happ; [|by eapply engine_wf_frame; [|exact (ew_receipts _ Hwf)|exact Hwf]|done..].
  eapply engine_wf_frame; [exact Hp| |exact Happ]. injection Hr as Hc _ _ _ Hw _ _ _. intros id. rewrite Hc, Hw.
  rewrite (lookup_insert (commands s)). case_decide; [by eauto|].
  destruct wd; [rewrite lookup_insert_ne by done|]; apply (ew_receipts _ Hwf).
Qed.

Lemma apply_new_wf s c actor ext digest evs s' :
  sequences_in_range s → engine_wf s → commands s !! cmd_id c = None →
  apply_command_with_actor s c actor ext digest = Ok (evs, s') → engine_wf s'.
Proof.
  intros Hseq. apply apply_new_wf_guarded. intros ids evs' ids'. by apply decide_body_guarded.
Qed.

Lemma commit_wf s c actor evs s' :
  sequences_in_range s → engine_wf s → commit_execution s c actor = Ok (evs, s') → engine_wf s'.
Proof.
  intros Hseq Hwf (id & d & sd & wd & _ & _ & _ & _ & [(_ & -> & _)|(Hnone & s1 & Ha & ->)])%commit_split;
    [done|].
  pose proof (provide_run_receipts s (cmd_body c)) as (Hpc & _)%receipts_eq.
  apply apply_new_wf in Ha; [|by apply provide_run_in_range|by apply provide_run_wf|by rewrite Hpc].
  destruct sd; [|done]. by eapply engine_wf_frame; [|apply Ha|exact Ha].
Qed.

Lemma initial_wf cluster hold :
  engine_wf (upd_recovery (λ _, hold) (upd_cluster_id (λ _, cluster) state_default)).
Proof.
  split; [split; apply map_Forall_empty|constructor| | |].
  - intros _. split; unfold token; simpl; intros *; by rewrite lookup_empty.
  - split; simpl; try set_solver; [constructor|constructor|done].
  - intros id. simpl. rewrite lookup_empty. by intros [? ?].
Qed.

(** ** The recovery hold *)

(** Events that bring new work into the engine. *)
Definition starts_work (e : DomainEvent) : bool :=
  match e with
  | RunAdmitted _ _ _ _ _ _ _ | ClaimGranted _ _ _ _ _ _ _ _ _ _ _ _ _ _ => true
  | _ => false
  end.

(** A restored engine starts nothing until its recovery is acknowledged.
    While the hold stands, a committed command that is not a retry admits no run
    and grants no claim. *)
Theorem recovery_hold_starts_nothing s c actor evs s' :
  execution_suspended s = true → commit_execution s c actor = Ok (evs, s') →
  s' = s ∨ Forall (λ e, starts_work e = false) evs.
Proof.
  intros Hhold (id & d & sd & wd & _ & _ & _ & _ & [(_ & -> & _)|(Hnone & s1 & Ha & _)])%commit_split;
    [by left|right].
  pose proof (provide_run_receipts s (cmd_body c)) as (Hpc & _)%receipts_eq.
  apply apply_new in Ha as (_ & ids' & s2 & _ & Hd & _); [|by rewrite Hpc].
  set (s0 := ticked _ _) in Hd. assert (execution_suspended s0 = true) as Hs0.
  { subst s0. unfold execution_suspended, ticked, provide_run in *. destruct (cmd_body c); try done.
    simpl. by case_bool_decide. }
  apply decide_body_plain in Hd as [Hplain|[(run & df & input & cat & _ & Hs & _)|
    [(run & ev & signal & key & payload & _ & Hd)|(session & capacity & _ & Hs & _)]]]; try congruence.
  - eapply Forall_impl; [exact Hplain|]. by intros [].
  - unfold decide_signal in Hd. ok_inv; repeat constructor. case_match; repeat constructor.
Qed.

(** ** Frames

    A part of the state that no event and no bookkeeping touches is the same
    after a command. *)
Class StateFrame {C} (g : State → C) : Prop := {
  frame_evolve s e s' : evolve s e = Ok s' → g s' = g s;
  frame_append s run e cid pid t refs s' : append_event s run e cid pid t refs = Ok s' → g s' = g s;
  frame_watermark f s : g (upd_watermark f s) = g s;
  frame_terminal t s e s' : record_terminal t s e = Ok s' → g s' = g s;
  frame_receipt id ext evs actor digest wd t s s' :
    record_receipt id ext evs actor digest wd t s = Ok s' → g s' = g s;
  frame_checkpoint s run t s' : checkpoint_after_command s run t = Ok s' → g s' = g s;
}.

Section Frame.
Context {C} (g : State → C) `{!StateFrame g}.

Lemma apply_events_framed s evs cid pid t s' :
  apply_events_with_cause s evs cid pid t = Ok s' → g s' = g s.
Proof.
  unfold apply_events_with_cause. apply outcome_fold_keeps. intros b e b' Ha.
  unfold apply_event_with_cause in Ha. apply outcome_bind_ok in Ha as (owner & _ & Ha).
  apply outcome_bind_ok in Ha as (refs & _ & Ha). apply outcome_bind_ok in Ha as (s1 & Hev%frame_evolve & Ha).
  destruct owner; [|by injection Ha as <-]. apply outcome_bind_ok in Ha as (r & _ & Ha).
  apply frame_append in Ha. congruence.
Qed.

Lemma apply_new_framed s c actor ext digest evs s' :
  apply_command_with_actor s c actor ext digest = Ok (evs, s') → g s' = g s.
Proof.
  unfold apply_command_with_actor. intros (wd & _ & Ha)%outcome_bind_ok.
  destruct (commands s !! cmd_id c).
  { apply outcome_bind_ok in Ha as (_ & _ & [= <- <-]). done. }
  apply outcome_bind_ok in Ha as (evs1 & _ & Ha). apply outcome_bind_ok in Ha as (s1 & Hs1 & Ha).
  apply outcome_bind_ok in Ha as (s2 & Hs2 & Ha). apply outcome_bind_ok in Ha as (s3 & Hs3%frame_receipt & Ha).
  apply outcome_bind_ok in Ha as (affected & _ & Ha). apply outcome_bind_ok in Ha as (s4 & Hs4 & [= <- <-]).
  apply apply_events_framed in Hs1.
  apply (outcome_fold_keeps g) in Hs2; [|intros ???; apply frame_terminal].
  apply (outcome_fold_keeps g) in Hs4; [|intros ???; apply frame_checkpoint].
  rewrite Hs4, Hs3, Hs2, Hs1. apply frame_watermark.
Qed.

Lemma apply_command_framed s c evs s' : apply_command s c = Ok (evs, s') → g s' = g s.
Proof.
  unfold apply_command. intros ([c1 actor] & _ & Ha)%outcome_bind_ok.
  apply outcome_bind_ok in Ha as ([[c2 ext] d] & _ & Ha). by eapply apply_new_framed.
Qed.
End Frame.
End CommandFacts.
