(* ===== verification/HistoryFacts.v ===== *)
(** * Run histories

    The events of a run and the records that describe them stay in step: record
    [i] has sequence [i + 1], names the run and carries the digest of event [i].
    So every range of a retained history validates. *)
From stdpp Require Import base option gmap strings list.
From Stdlib Require Import ZArith Ascii Lia.
From S2P Require Import Prelude Value Ids Policy Catalog Ir Domain Eval Evolve History Steps Saga Signals Claims Progress Command EvolveFacts StepFacts ClaimFacts SignalFacts CommandFacts.

Section HistoryFacts.
Context `{Platform} `{CatalogSerde} `{Serde}.
Implicit Types s : State.

(** ** Artifact references *)
Lemma capture_verifies cluster schema value a :
  capture_in cluster schema value = Ok a → artifact_verify a schema value = Ok tt.
Proof.
  intros Hc. unfold artifact_verify. rewrite (capture_in_cluster _ _ _ _ Hc), Hc. simpl.
  by rewrite bool_decide_eq_true_2.
Qed.

(** ** The history invariant *)

(** The record of event [e] at position [i] of a run. *)
Definition describes (run : RunId.t) (i : nat) (r : HistoryEntry) (e : DomainEvent) : Prop :=
  he_format r = EVENT_FORMAT ∧ he_run r = run ∧ he_sequence r = Z.of_nat i + 1 ∧
  artifact_verify (he_payload r) "graphrun.domain-event/v1" (event_to_value e) = Ok tt.

Definition run_history_wf (run : RunId.t) (evs : option (list DomainEvent))
    (recs : option (list HistoryEntry)) : Prop :=
  match evs, recs with
  | None, None => True
  | Some evs, Some recs =>
      evs ≠ [] ∧ length recs = length evs ∧
      ∀ i r e, recs !! i = Some r → evs !! i = Some e → describes run i r e
  | _, _ => False
  end.

Definition history_wf s : Prop :=
  ∀ run, run_history_wf run (history s !! run) (history_records s !! run).

Lemma run_history_push run evs recs r e :
  run_history_wf run evs recs →
  describes run (length (default [] evs)) r e →
  run_history_wf run (push_entry e evs) (push_entry r recs).
Proof.
  intros Hwf Hd. unfold push_entry. destruct evs as [evs|], recs as [recs|]; try done; simpl in *.
  - destruct Hwf as (Hne & Hlen & Hall). split_and!; [by destruct evs|rewrite !length_app; simpl; lia|].
    intros i r' e' Hr He. destruct (Nat.lt_ge_cases i (length evs)) as [Hi|Hi].
    + rewrite lookup_app_l in Hr by lia. rewrite lookup_app_l in He by lia. by apply (Hall i).
    + rewrite lookup_app_r in Hr by lia. rewrite lookup_app_r in He by lia. rewrite Hlen in Hr.
      assert (i = length evs) as -> by (apply lookup_lt_Some in He; simpl in He; lia).
      rewrite Nat.sub_diag in Hr. rewrite Nat.sub_diag in He. by simplify_eq/=.
  - split_and!; [done|done|]. intros [|i] r' e' Hr He; by simplify_eq/=.
Qed.

Lemma append_event_history s run e cid pid t refs s' :
  append_event s run e cid pid t refs = Ok s' →
  ∃ a, capture_in (current_cluster_id s) "graphrun.domain-event/v1" (event_to_value e) = Ok a ∧
    history s' = partial_alter (push_entry e) run (history s) ∧
    history_records s' = partial_alter (push_entry (mkHistoryEntry EVENT_FORMAT run
      (zlen (default [] (history s !! run)) + 1) cid pid t a refs.1 refs.2)) run (history_records s).
Proof.
  unfold append_event. intros (req & _ & Ha)%outcome_bind_ok.
  apply outcome_bind_ok in Ha as (a & Hcap & Ha). apply outcome_bind_ok in Ha as (sig & _ & Ha).
  exists a. split; [done|].
  assert (∀ s1, Ok s1 = Ok s' → history s1 = history s' ∧ history_records s1 = history_records s')
    as Hok by (by intros ? [= ->]).
  replace (zlen (default [] (history s !! run)) + 1)
    with (match history s !! run with Some events => zlen events + 1 | None => 1 end)
    by (by destruct (history s !! run)).
  destruct e; try (apply Hok in Ha as [<- <-]; by destruct req).
  apply outcome_bind_ok in Ha as (p & _ & Ha). apply Hok in Ha as [<- <-]. by destruct req.
Qed.

Lemma append_event_wf s run e cid pid t refs s' :
  append_event s run e cid pid t refs = Ok s' → history_wf s → history_wf s'.
Proof.
  intros (a & Hcap & Hh & Hr)%append_event_history Hwf run'. rewrite Hh, Hr.
  rewrite !lookup_partial_alter. case_decide as Heq; [subst run'|apply Hwf].
  apply run_history_push; [apply Hwf|]. split_and!; simpl; [done|done|done|by eapply capture_verifies].
Qed.

Lemma apply_event_history cid pid t s e s' :
  apply_event_with_cause cid pid t s e = Ok s' → history_wf s → history_wf s'.
Proof.
  unfold apply_event_with_cause. intros (owner & _ & Ha)%outcome_bind_ok Hwf.
  apply outcome_bind_ok in Ha as (refs & _ & Ha). apply outcome_bind_ok in Ha as (s1 & Hev & Ha).
  apply evolve_frame in Hev as [_ [= Hh Hr _ _ _ _]].
  assert (history_wf s1) as Hwf1 by (intros run; rewrite Hh, Hr; apply Hwf).
  destruct owner as [run|]; [|by simplify_eq]. apply outcome_bind_ok in Ha as (r & _ & Ha).
  by eapply append_event_wf.
Qed.

Lemma apply_events_history s evs cid pid t s' :
  apply_events_with_cause s evs cid pid t = Ok s' → history_wf s → history_wf s'.
Proof.
  unfold apply_events_with_cause. revert s. induction evs as [|e evs IH]; simpl; intros s Ha Hwf; [by simplify_eq|].
  apply outcome_bind_ok in Ha as (s1 & H1s & Ha). eapply IH; [done|]. by eapply apply_event_history.
Qed.

Lemma history_wf_logs s s' : logs s' = logs s → history_wf s → history_wf s'.
Proof. intros [= Hh Hr] Hwf run. rewrite Hh, Hr. apply Hwf. Qed.

Lemma commit_history s c actor evs s' :
  history_wf s → commit_execution s c actor = Ok (evs, s') → history_wf s'.
Proof.
  intros Hwf (id & d & sd & wd & _ & _ & _ & _ & [(_ & -> & _)|(Hnone & s1 & Ha & ->)])%commit_split;
    [done|].
  pose proof (provide_run_receipts s (cmd_body c)) as (Hpc & _)%receipts_eq.
  apply apply_new in Ha as (_ & _ & s2 & _ & _ & Happ & _ & _ & _ & Hl); [|by rewrite Hpc].
  apply apply_events_history in Happ.
  - apply (history_wf_logs s2); [|done]. by destruct sd.
  - apply (history_wf_logs s); [|done]. unfold ticked, provide_run.
    destruct (cmd_body c); try done. by case_bool_decide.
Qed.

(** ** Reading a range back *)
Lemma validate_entries_ok run start index rows :
  (∀ i r e, rows !! i = Some (r, e) → describes run (Z.to_nat (start - 1) + index + i) r e) → 1 ≤ start →
  validate_entries run start index rows = Ok rows.
Proof.
  intros Hall Hst. revert index Hall. induction rows as [|[r e] rows IH]; intros index Hall; [done|]. simpl.
  destruct (Hall 0%nat r e eq_refl) as (Hf & Hr & Hs & Hv). unfold validate_entry.
  rewrite !bool_decide_eq_true_2 by done. rewrite (proj2 (Z.eqb_eq _ _)) by lia. simpl. rewrite Hv. simpl.
  rewrite IH; [done|]. intros i r' e' Hi. replace (_ + S index + i)%nat with (Z.to_nat (start - 1) + index + S i)%nat by lia.
  by apply Hall.
Qed.


(** Every range of a well-formed history reads back. *)
Lemma validated_range s run evs start through :
  history_wf s → history s !! run = Some evs →
  1 ≤ start → start ≤ through → through ≤ zlen evs → through < u64_max →
  ∃ rows, validated_entries s run start through = Ok rows ∧
    rows.*2 = take (Z.to_nat (through - start + 1)) (drop (Z.to_nat (start - 1)) evs) ∧
    ∀ i r e, rows !! i = Some (r, e) → describes run (Z.to_nat (start - 1) + i) r e.
Proof.
  intros Hwf Hevs Hs Hst Hth Hmax. specialize (Hwf run). rewrite Hevs in Hwf.
  unfold validated_entries. rewrite Hevs. simpl.
  destruct (history_records s !! run) as [recs|]; [|done]. destruct Hwf as (Hne & Hlen & Hall). simpl.
  assert (zlen recs = zlen evs) as Hz by (unfold zlen; lia).
  rewrite Hz, Z.eqb_refl, bool_decide_eq_false_2 by (by destruct evs). simpl.
  unfold sat_add64, sat_sub. rewrite !Z.max_l, Z.min_l by lia.
  set (rows := take _ _). exists rows.
  assert (∀ i r e, rows !! i = Some (r, e) → describes run (Z.to_nat (start - 1) + i) r e) as Hrows.
  { intros i r e [Hi _]%lookup_take_Some. rewrite lookup_drop, lookup_zip_with in Hi.
    destruct (recs !! _) as [r0|] eqn:Hr0; [|done]. destruct (evs !! _) as [e0|] eqn:He0; [|done].
    simplify_eq/=. by eapply Hall. }
  split_and!; [|subst rows|done].
  - apply validate_entries_ok; [|done]. intros i r e Hi. rewrite Nat.add_0_r. by apply Hrows.
  - by rewrite fmap_take, fmap_drop, snd_zip by lia.
Qed.
End HistoryFacts.
