(* ===== verification/FormatFacts.v ===== *)
(** * A writer format is activated only when every member can read it *)
From stdpp Require Import base option gmap strings list.
From Stdlib Require Import ZArith Ascii Lia.
From S2P Require Import Prelude Value Ids Policy Catalog Ir Equality Domain Eval Evolve History Steps Command FormatUpgrade EvolveFacts.

(** What a proof that passed the check says. *)
Definition proof_valid (roster : Roster) (target : Z) (cluster_id : string) (p : ReaderProof) : Prop :=
  rdr_cluster_id p = cluster_id ∧ rdr_roster_log_id p = ro_log_id roster ∧ rdr_active_generation p ≠ 0 ∧
  supports p target = true ∧ rdr_member_id p ∈ (ro_nodes roster).*1.

Lemma check_proof_ok roster target cluster seen p seen' :
  check_proof roster target cluster seen p = Ok seen' →
  rdr_member_id p ∉ seen ∧ proof_valid roster target cluster p ∧ seen' = rdr_member_id p :: seen.
Proof.
  unfold check_proof. destruct (_ || _) eqn:Hc; [done|]. intros [= <-]. to_prop. done.
Qed.

Lemma check_proofs_ok roster target cluster proofs seen seen' :
  outcome_fold (check_proof roster target cluster) seen proofs = Ok seen' → NoDup seen →
  NoDup seen' ∧ seen' = reverse (rdr_member_id <$> proofs) ++ seen ∧ Forall (proof_valid roster target cluster) proofs.
Proof.
  revert seen. induction proofs as [|p proofs IH]; simpl; intros seen Hf Hnd.
  - by injection Hf as <-.
  - apply outcome_bind_ok in Hf as (seen1 & (Hp & Hval & ->)%check_proof_ok & Hf).
    apply IH in Hf as (Hnd' & -> & Hall); [|by constructor]. split_and!; [done| |by constructor].
    rewrite reverse_cons, <-app_assoc. done.
Qed.

Lemma validate_roster_ok roster proofs target cluster :
  validate_roster roster proofs target cluster = Ok tt →
  length proofs = length (ro_nodes roster) ∧ NoDup (rdr_member_id <$> proofs) ∧
  Forall (proof_valid roster target cluster) proofs ∧
  ∀ voters, voters ∈ ro_joint_config roster → voters ≠ [] ∧ ∀ v, v ∈ voters → v ∈ rdr_member_id <$> proofs.
Proof.
  unfold validate_roster. destruct (negb _) eqn:Hlen; [done|].
  intros (seen & Hf & Hj)%outcome_bind_ok. apply check_proofs_ok in Hf as (Hnd & -> & Hall); [|constructor].
  rewrite app_nil_r in *. destruct (existsb _ _) eqn:Hv in Hj; [done|].
  apply negb_false_iff, Nat.eqb_eq in Hlen. split_and!; try done; [by rewrite reverse_Permutation in Hnd|].
  intros voters Hin. rewrite existsb_false in Hv. specialize (Hv _ Hin). to_prop. split; [done|].
  rename select (forallb _ _ = true) into Hb. rewrite forallb_elem in Hb. intros v Hin'.
  specialize (Hb _ Hin'). to_prop. by apply elem_of_reverse.
Qed.

(** Reader proofs that pass cover the roster. When the proofs pass for a
    roster, they are exactly one per configured member (voter or learner), each
    names this cluster, this roster and a store generation and supports the
    target, and every voter of every half of the joint configuration is among
    them. *)
Theorem accepted_proofs_cover_roster roster proofs target cluster :
  validate_roster roster proofs target cluster = Ok tt → NoDup (ro_nodes roster).*1 →
  rdr_member_id <$> proofs ≡ₚ (ro_nodes roster).*1 ∧ Forall (proof_valid roster target cluster) proofs ∧
  ∀ voters, voters ∈ ro_joint_config roster → voters ≠ [] ∧ Forall (λ v, v ∈ rdr_member_id <$> proofs) voters.
Proof.
  intros (Hlen & Hnd & Hall & Hv)%validate_roster_ok Hnodes. split_and!; [|done|].
  - apply submseteq_length_Permutation; [|rewrite !length_fmap; lia].
    apply NoDup_submseteq; [done|]. intros m (p & -> & Hp)%list_elem_of_fmap.
    rewrite Forall_forall in Hall. apply Hall in Hp as (_ & _ & _ & _ & ?). done.
  - intros voters [? Hin]%Hv. split; [done|]. by apply Forall_forall.
Qed.

(** ** The prepared proofs of a policy *)
Lemma collect_prepared_elem proofs e :
  e ∈ collect_prepared proofs → e.1 = rdr_member_id e.2 ∧ e.2 ∈ proofs.
Proof.
  unfold collect_prepared.
  assert (∀ m, e ∈ foldl (λ m proof, bt_insert Z.compare (rdr_member_id proof) proof m) m proofs →
    e ∈ m ∨ (e.1 = rdr_member_id e.2 ∧ e.2 ∈ proofs)) as Hgen.
  { induction proofs as [|p proofs IH]; simpl; intros m He; [by left|].
    apply IH in He as [[->|?]%bt_insert_elem|[? ?]]; [right; set_solver|by left|right; set_solver]. }
  intros [Hin|?]%Hgen; [by apply not_elem_of_nil in Hin|done].
Qed.

Section FormatFacts.
Context `{Platform}.
Implicit Types policy : FormatPolicy.

(** ** One format command *)
Lemma attempt_format_ok policy op roster log_id cluster policy' :
  attempt_format policy op roster log_id cluster = Ok policy' →
  fp_roster_log_id policy' = ro_log_id roster ∧ fp_format policy' = fp_format policy ∧
  validate_roster roster (match op with FormatPrepare proofs _ => proofs | FormatActivate _ _ => snd <$> fp_prepared policy end)
    NEXT_FORMAT cluster = Ok tt ∧
  match op with
  | FormatPrepare proofs _ =>
      fp_prepared policy' = collect_prepared proofs ∧ fp_active_writer policy' = fp_active_writer policy ∧
      fp_activation_log_id policy' = fp_activation_log_id policy
  | FormatActivate _ _ =>
      fp_prepared policy' = fp_prepared policy ∧ fp_roster_log_id policy = ro_log_id roster ∧
      fp_active_writer policy ≠ NEXT_FORMAT ∧ fp_active_writer policy' = NEXT_FORMAT ∧
      fp_activation_log_id policy' = Some log_id
  end.
Proof.
  unfold attempt_format. destruct (format_target op) as [target requested] eqn:Ht.
  destruct (_ || _) eqn:Hguard; [done|]. to_prop. subst target.
  destruct op as [proofs r|r t].
  - intros ([] & Hv & [= <-])%outcome_bind_ok. done.
  - destruct (fp_active_writer policy =? NEXT_FORMAT) eqn:Hact; [done|].
    destruct (negb _) eqn:Hr; [done|]. intros ([] & Hv & [= <-])%outcome_bind_ok. simpl. to_prop. done.
Qed.

Lemma format_apply_ok policy receipts c roster log_id principal cluster receipt policy' receipts' :
  format_apply policy receipts c roster log_id principal cluster = Ok (receipt, policy', receipts') →
  ∃ op digest, format_operation (cmd_body c) = Some op ∧ principal ≠ "" ∧
    request_digest (match op with FormatPrepare _ _ => "prepare" | FormatActivate _ _ => "activate" end)
      (format_target op).1 (format_target op).2 = Ok digest ∧ fr_request_digest receipt = digest ∧
    let key := receipt_key cluster principal (cmd_id c) in
    ((bt_get key receipts = Some receipt ∧ policy' = policy ∧ receipts' = receipts) ∨
     (bt_get key receipts = None ∧ receipts' = str_insert key receipt receipts ∧
      fr_format receipt = RECEIPT_FORMAT ∧ fr_cluster_id receipt = cluster ∧ fr_principal_id receipt = principal ∧
      fr_command_id receipt = cmd_id c ∧ fr_active_writer receipt = fp_active_writer policy' ∧
      if fr_applied receipt then attempt_format policy op roster log_id cluster = Ok policy' else policy' = policy)).
Proof.
  unfold format_apply. intros (op & Hop%ok_or_ok & Ha)%outcome_bind_ok. case_bool_decide as Hp; [done|].
  exists op. destruct (format_target op) as [target requested] eqn:Ht. simpl.
  apply outcome_bind_ok in Ha as (digest & Hd & Ha). exists digest.
  do 3 (split; [done|]). destruct (bt_get _ _) as [r|] eqn:Hget.
  - destruct (negb _) eqn:Hsame; [done|]. injection Ha as <- <- <-. to_prop. split; [done|]. by left.
  - destruct (attempt_format _ _ _ _ _) as [policy1|e|w] eqn:Hat; [..|done]; injection Ha as <- <- <-;
      (split; [done|]; right; split_and!; done).
Qed.

(** A writer format is activated only with everybody's consent, once. When
    a format command raises the active writer, it is an activation of the next
    format for the roster that was prepared: each member of the committed roster
    has a proof in the policy that supports the format. No command lowers the
    active writer. *)
Theorem activation_needs_every_member policy receipts c roster log_id principal cluster receipt policy' receipts' :
  format_apply policy receipts c roster log_id principal cluster = Ok (receipt, policy', receipts') →
  NoDup (ro_nodes roster).*1 →
  fp_active_writer policy' = fp_active_writer policy ∨
  (fp_active_writer policy ≠ NEXT_FORMAT ∧ fp_active_writer policy' = NEXT_FORMAT ∧
   fp_activation_log_id policy' = Some log_id ∧ fp_roster_log_id policy = ro_log_id roster ∧
   fp_prepared policy' = fp_prepared policy ∧
   ∀ member, member ∈ (ro_nodes roster).*1 → ∃ proof, proof ∈ snd <$> fp_prepared policy ∧
     rdr_member_id proof = member ∧ proof_valid roster NEXT_FORMAT cluster proof).
Proof.
  intros (op & digest & _ & _ & _ & _ & [(_ & -> & _)|(_ & _ & _ & _ & _ & _ & _ & Hap)])%format_apply_ok Hnd;
    [by left|]. destruct (fr_applied receipt); [|subst; by left].
  apply attempt_format_ok in Hap as (_ & _ & Hv & Hop). destruct op as [proofs r|r t]; [left; by destruct Hop as (_ & ? & _)|].
  right. destruct Hop as (? & ? & ? & ? & ?). split_and!; try done.
  apply accepted_proofs_cover_roster in Hv as (Hperm & Hall & _); [|done].
  intros m. rewrite <-Hperm. intros (p & -> & Hp)%list_elem_of_fmap. exists p. split_and!; try done.
  rewrite Forall_forall in Hall. by apply Hall.
Qed.

(** A format command is applied once, and its identity is not reused. *)
Lemma format_apply_idempotent policy receipts c roster log_id principal cluster receipt policy' receipts' roster' log_id' :
  format_apply policy receipts c roster log_id principal cluster = Ok (receipt, policy', receipts') →
  format_apply policy' receipts' c roster' log_id' principal cluster = Ok (receipt, policy', receipts').
Proof.
  intros Ha. pose proof Ha as (op & digest & Hop & Hpr & Hdig & Hrd & Hcase)%format_apply_ok.
  unfold format_apply. rewrite Hop. simpl. rewrite bool_decide_eq_false_2 by done.
  destruct (format_target op) as [target requested]. simpl in *. rewrite Hdig. simpl.
  assert (bt_get (receipt_key cluster principal (cmd_id c)) receipts' = Some receipt) as ->.
  { destruct Hcase as [(? & -> & ->)|(_ & -> & _)]; [done|]. by rewrite bt_get_insert, decide_True. }
  rewrite Hrd. by rewrite bool_decide_eq_true_2.
Qed.

(** ** What is persisted stays consistent *)
Lemma str_insert_elem {V} k (v : V) m x : x ∈ str_insert k v m → x = (k, v) ∨ x ∈ m.
Proof.
  unfold str_insert. induction m as [|[k' v'] m IH]; simpl; [set_solver|]. destruct (String.compare k k'); set_solver.
Qed.

Record persisted_wf s : Prop := mkPersistedWf {
  pe_format : fp_format (format_policy s) = POLICY_FORMAT;
  pe_writer : fp_active_writer (format_policy s) = BASE_FORMAT ∨ fp_active_writer (format_policy s) = NEXT_FORMAT;
  pe_activation : fp_active_writer (format_policy s) = NEXT_FORMAT → is_Some (fp_activation_log_id (format_policy s));
  pe_prepared : ∀ e, e ∈ fp_prepared (format_policy s) → proof_mismatched (format_policy s) (current_cluster_id s) e = false;
  pe_receipts : ∀ e, e ∈ format_receipts s → receipt_mismatched e = false;
}.

Lemma validate_persisted_spec s : validate_persisted_state s = Ok tt ↔ persisted_wf s.
Proof.
  unfold validate_persisted_state. split.
  - destruct (_ || _) eqn:Hg; [done|]. intros _. to_prop. rename select (existsb receipt_mismatched _ = false) into Hr.
    rename select (existsb (proof_mismatched _ _) _ = false) into Hp. rewrite existsb_false in Hr. rewrite existsb_false in Hp.
    split; try done.
    + rename select ((_ =? BASE_FORMAT) = true ∨ _) into Hw.
      destruct Hw as [Hw|Hw]; apply Z.eqb_eq in Hw; auto.
    + intros Heq%Z.eqb_eq. rename select (_ ∨ bool_decide _ = false) into Ha.
      destruct Ha as [?|Hn]; [congruence|]. to_prop. by apply not_eq_None_Some.
  - intros [Hf Hw Ha Hp Hr]. rewrite bool_decide_eq_true_2 by done.
    assert (existsb (proof_mismatched (format_policy s) (current_cluster_id s)) (fp_prepared (format_policy s)) = false)
      as -> by (by apply existsb_false).
    assert (existsb receipt_mismatched (format_receipts s) = false) as -> by (by apply existsb_false).
    destruct Hw as [Hw|Hw]; rewrite Hw; simpl; [done|]. by destruct (Ha Hw) as [p ->].
Qed.

Context `{!PlatformLaws _}.

Lemma request_digest_hex operation target roster d :
  request_digest operation target roster = Ok d → String.length d = 64%nat ∧ is_Some (hex_decode d).
Proof.
  unfold request_digest. intros (bytes & _ & [= <-])%outcome_bind_ok.
  by rewrite hex_encode_length, sha256_length, hex_decode_encode.
Qed.

Lemma format_apply_persisted s c roster log_id principal receipt policy receipts :
  persisted_wf s → is_ok (ClusterId.from_hex (current_cluster_id s)) = true →
  format_apply (format_policy s) (format_receipts s) c roster log_id principal (current_cluster_id s) =
    Ok (receipt, policy, receipts) →
  persisted_wf (upd_format_receipts (λ _, receipts) (upd_format_policy (λ _, policy) s)).
Proof.
  intros [Hf Hw Ha Hp Hr] Hcluster (op & digest & Hop & Hpr & Hdig & Hrd & Hcase)%format_apply_ok.
  destruct Hcase as [(_ & -> & ->)|(_ & -> & Hrf & Hrc & Hrp & Hri & _ & Hap)]; [by split|].
  assert (∀ e, e ∈ str_insert (receipt_key (current_cluster_id s) principal (cmd_id c)) receipt (format_receipts s) →
    receipt_mismatched e = false) as Hreceipts.
  { intros e [->|?]%str_insert_elem; [|by apply Hr]. unfold receipt_mismatched.
    rewrite Hrf, Hrc, Hrp, Hri, Hcluster, Hrd. apply request_digest_hex in Hdig as [Hlen Hdec].
    rewrite !bool_decide_eq_true_2 by done. unfold zlen_string. rewrite Hlen. simpl.
    apply bool_decide_eq_false_2. by destruct Hdec as [? ->]. }
  destruct (fr_applied receipt); [|subst policy; by split].
  apply attempt_format_ok in Hap as (Hro & Hfmt & Hv & Hcase). split; simpl; try done; [congruence| | |].
  - destruct op; [destruct Hcase as (_ & -> & _)|destruct Hcase as (_ & _ & _ & ? & _)]; auto.
  - destruct op; [destruct Hcase as (_ & -> & ->)|destruct Hcase as (_ & _ & _ & _ & ->)]; eauto.
  - intros e He. destruct op as [proofs r|r t].
    + destruct Hcase as (Hprep & _). rewrite Hprep in He. apply collect_prepared_elem in He as [He1 He2].
      apply validate_roster_ok in Hv as (_ & _ & Hall & _). rewrite Forall_forall in Hall.
      destruct (Hall _ He2) as (Hc & Hrl & _ & Hs & _). unfold proof_mismatched. destruct e as [id p]. simpl in *.
      unfold supports in Hs. to_prop. rewrite Hro, !bool_decide_eq_true_2 by congruence. subst. by rewrite Z.eqb_refl.
    + destruct Hcase as (Hprep & Hrold & _). rewrite Hprep in He. specialize (Hp _ He).
      unfold proof_mismatched in *. destruct e as [id p]. by rewrite Hro, <-Hrold.
Qed.
End FormatFacts.
