(* ===== verification/RetentionFacts.v ===== *)
(** * Pruning removes what has expired and keeps everything else *)
From stdpp Require Import base option gmap strings list fin_maps sorting.
From Stdlib Require Import ZArith Ascii Lia.
From S2P Require Import Prelude Value Ids Policy Catalog Ir Domain Eval Evolve History Steps Saga Signals Claims Progress Command Retention EvolveFacts StepFacts ClaimFacts SignalFacts CommandFacts HistoryFacts.

(** ** The bounded heap selects a prefix of the sorted candidates *)
Section EarliestDueFacts.
Context {K : Type} (key_leb : K → K → bool).
Context (key_total : ∀ x y, key_leb x y = true ∨ key_leb y x = true).
Context (key_trans : ∀ x y z, key_leb x y = true → key_leb y z = true → key_leb x z = true).
Context (key_antisymm : ∀ x y, key_leb x y = true → key_leb y x = true → x = y).
Notation leb := (candidate_leb key_leb).
Notation le := (λ x y, leb x y = true).

Lemma candidate_spec a b : leb a b = true ↔ a.1 < b.1 ∨ a.1 = b.1 ∧ key_leb a.2 b.2 = true.
Proof. unfold candidate_leb. rewrite orb_true_iff, andb_true_iff, Z.ltb_lt, Z.eqb_eq. done. Qed.

Lemma candidate_total a b : leb a b = true ∨ leb b a = true.
Proof.
  rewrite !candidate_spec. destruct (Z.lt_trichotomy a.1 b.1) as [?|[?|?]]; [tauto| |tauto].
  destruct (key_total a.2 b.2); [left|right]; by right.
Qed.

Lemma candidate_trans a b c : leb a b = true → leb b c = true → leb a c = true.
Proof.
  rewrite !candidate_spec. intros [?|[? ?]] [?|[? ?]]; try (left; lia). right. split; [lia|eauto].
Qed.

Lemma candidate_antisymm a b : leb a b = true → leb b a = true → a = b.
Proof.
  rewrite !candidate_spec. destruct a, b; simpl. intros [?|[? ?]] [?|[? ?]]; try lia. f_equal; eauto.
Qed.

Lemma candidate_false a b : leb a b = false → leb b a = true.
Proof. destruct (candidate_total a b); congruence. Qed.

Lemma insert_by_app x l1 y l2 :
  leb x y = true → insert_by leb x (l1 ++ y :: l2) = insert_by leb x l1 ++ y :: l2.
Proof.
  intros Hy. induction l1 as [|z l1 IH]; simpl; [by rewrite Hy|].
  destruct (leb x z); [done|]. by rewrite IH.
Qed.

Lemma insert_by_length {A} (r : A → A → bool) x l : length (insert_by r x l) = S (length l).
Proof. by rewrite insert_by_perm. Qed.

(** Inserting an element that is not below a sorted prefix leaves the prefix. *)
Lemma insert_by_prefix x l1 l2 :
  StronglySorted le l1 → Forall (λ y, leb y x = true) l1 →
  take (length l1) (insert_by leb x (l1 ++ l2)) = l1.
Proof.
  induction l1 as [|y l1 IH]; simpl; [done|].
  intros [Hs Hy]%StronglySorted_inv [Hyx Hx]%Forall_cons. destruct (leb x y) eqn:Hxy; simpl.
  - assert (x = y) as -> by (by apply candidate_antisymm).
    assert (l1 = replicate (length l1) y) as Hrep.
    { symmetry. apply replicate_as_elem_of. split; [done|]. intros z Hz. rewrite Forall_forall in Hx, Hy.
      apply candidate_antisymm; auto. }
    f_equal. rewrite Hrep, length_replicate. clear. induction (length l1) as [|n IH]; simpl; [done|]. by f_equal.
  - f_equal. auto.
Qed.

(** Pushing into the bounded heap is inserting and cutting. *)
Lemma select_due_take limit l x :
  (0 < limit)%nat → StronglySorted le l →
  select_due key_leb limit (take limit l) x = take limit (insert_by leb x l).
Proof.
  intros Hpos Hs. unfold select_due. rewrite length_take.
  destruct (Nat.ltb_spec (limit `min` length l) limit) as [Hl|Hl].
  { rewrite !take_ge; [done|rewrite insert_by_length; lia|lia]. }
  destruct (take limit l) as [|latest l1 _] eqn:Ht using rev_ind.
  { apply (f_equal length) in Ht. rewrite length_take in Ht. simpl in Ht. lia. }
  pose proof (f_equal length Ht) as Hlen. rewrite length_take, length_app in Hlen. simpl in Hlen.
  rewrite last_snoc, removelast_last. pose proof (take_drop limit l) as Hsplit. rewrite Ht in Hsplit.
  set (rest := drop limit l) in *. clearbody rest. subst l.
  destruct (leb latest x) eqn:Hlx; simpl.
  - assert (limit = length (l1 ++ [latest])) as Hlim by (rewrite length_app; simpl; lia).
    rewrite Hlim at 1. symmetry. apply insert_by_prefix.
    + by eapply StronglySorted_app_1_l.
    + apply StronglySorted_app in Hs as (_ & Hs & _). apply StronglySorted_app in Hs as (Hc & Hs1 & _).
      apply Forall_app. split; [|by repeat constructor]. apply Forall_forall. intros y Hy.
      eapply candidate_trans; [|exact Hlx]. apply Hc; [done|]. by left.
  - rewrite <-(app_assoc l1). simpl. rewrite insert_by_app by (by apply candidate_false).
    rewrite take_app_length'; [done|]. rewrite insert_by_length. lia.
Qed.

Lemma sort_strongly l : StronglySorted le (sort_by leb l).
Proof.
  apply Sorted_StronglySorted; [|apply sort_by_sorted, candidate_total].
  intros x y z. apply candidate_trans.
Qed.

Lemma insert_strongly x l : StronglySorted le l → StronglySorted le (insert_by leb x l).
Proof.
  induction l as [|y l IH]; simpl; [by repeat constructor|].
  intros Hs. destruct (leb x y) eqn:Hxy.
  - apply StronglySorted_cons. split; [|done]. apply StronglySorted_inv in Hs as [_ Hy].
    constructor; [done|]. eapply Forall_impl; [exact Hy|]. intros z. by apply candidate_trans.
  - apply StronglySorted_inv in Hs as [Hs Hy]. apply StronglySorted_cons. split; [|by apply IH].
    rewrite Forall_forall in *. intros z. rewrite insert_by_perm. intros [->|Hz]%elem_of_cons; [|auto].
    by apply candidate_false.
Qed.

Lemma select_due_fold limit l sorted :
  (0 < limit)%nat → StronglySorted le sorted →
  ∃ sorted', foldl (select_due key_leb limit) (take limit sorted) l = take limit sorted' ∧
    StronglySorted le sorted' ∧ sorted' ≡ₚ sorted ++ l.
Proof.
  intros Hpos. revert sorted. induction l as [|x l IH]; simpl; intros sorted Hs.
  { exists sorted. by rewrite app_nil_r. }
  rewrite select_due_take by done. destruct (IH _ (insert_strongly x _ Hs)) as (sorted' & -> & ? & Hp).
  exists sorted'. split_and!; [done..|]. rewrite Hp, insert_by_perm. simpl. apply Permutation_middle.
Qed.

(** A retention batch takes what is due first. The bounded heap of
    [earliest_due] yields exactly the first [limit] keys of the candidates sorted
    by due time and key, for every order in which the candidates arrive. *)
Theorem earliest_due_is_sorted_prefix candidates limit :
  earliest_due key_leb candidates limit = snd <$> take limit (sort_by leb candidates).
Proof.
  unfold earliest_due. destruct limit as [|limit]; [done|]. simpl (S limit =? 0)%nat. cbv iota.
  destruct (select_due_fold (S limit) candidates []) as (sorted' & Hf & Hs & Hp); [lia|constructor|].
  rewrite take_nil in Hf. rewrite Hf. do 2 f_equal.
  apply (StronglySorted_unique_strong le); [|done|apply sort_strongly|].
  - intros x y _ _. apply candidate_antisymm.
  - rewrite Hp. simpl. by rewrite sort_by_perm.
Qed.
End EarliestDueFacts.

(** ** Selected keys are due *)
Lemma elem_of_removelast {A} (x : A) l : x ∈ removelast l → x ∈ l.
Proof. induction l as [|y [|z l] IH]; simpl; [done|set_solver|]. intros [->|?]%elem_of_cons; set_solver. Qed.

Lemma elem_of_insert_by {A} (r : A → A → bool) x y l : y ∈ insert_by r x l → y = x ∨ y ∈ l.
Proof. by rewrite insert_by_perm, elem_of_cons. Qed.

Lemma earliest_due_elem {K} (key_leb : K → K → bool) candidates limit k :
  k ∈ earliest_due key_leb candidates limit → ∃ due, (due, k) ∈ candidates.
Proof.
  unfold earliest_due. destruct (limit =? 0)%nat; [set_solver|].
  intros ((due & k') & -> & Hin)%list_elem_of_fmap. exists due. revert Hin.
  assert (∀ sel, (due, k') ∈ foldl (select_due key_leb limit) sel candidates →
    (due, k') ∈ sel ∨ (due, k') ∈ candidates) as Hgen; [|intros Hin; by destruct (Hgen _ Hin); set_solver].
  induction candidates as [|x l IH]; simpl; intros sel Hin; [by left|].
  destruct (IH _ Hin) as [Hs|?]; [|set_solver]. unfold select_due in Hs.
  destruct (_ <? _)%nat; [apply elem_of_insert_by in Hs; set_solver|].
  destruct (last sel); [|by left]. destruct (negb _); [|by left].
  apply elem_of_insert_by in Hs as [?|?%elem_of_removelast]; set_solver.
Qed.

Lemma filter_filter_and {A} (p q : A → bool) l :
  List.filter p (List.filter q l) = List.filter (λ x, q x && p x) l.
Proof.
  induction l as [|x l IH]; simpl; [done|]. destruct (q x); simpl; [|done].
  destruct (p x); by rewrite IH.
Qed.

Section RetentionFacts.
Context `{Platform} `{CatalogSerde} `{Serde}.
Implicit Types s : State.

(** ** What a retained run keeps *)
Definition expiry_of (run : RunId.t) (e : DomainEvent) : Prop :=
  match e with EventExpired r _ => r = run | _ => False end.

(** What the engine remembers about an activation in progress. *)
Definition progress_at s (a : ActivationId.t) :=
  (loop_carry s !! a, foreach_items s !! a, foreach_done s !! a, parallel_done s !! a,
   saga_errors s !! a, interventions s !! a).

Record run_kept (now : Z) (run : RunId.t) s s' : Prop := mkRunKept {
  rk_run : runs s' !! run = runs s !! run;
  rk_scopes : ∀ k x, scopes s !! k = Some x → ss_run x = run → scopes s' !! k = Some x;
  rk_activations : ∀ k a, activations s !! k = Some a → as_run a = run → activations s' !! k = Some a;
  rk_progress : ∀ k a, activations s !! k = Some a → as_run a = run → progress_at s' k = progress_at s k;
  rk_waits : ∀ k w, waits s !! k = Some w → wt_run w = run → waits s' !! k = Some w;
  rk_obligations : ∀ o, o ∈ obligations s → ob_run o = run → o ∈ obligations s';
  rk_inbox : ∀ e, e ∈ inbox s → ie_run e = Some run → prunable now e = false → e ∈ inbox s';
  rk_history : ∃ expired, default [] (history s' !! run) = default [] (history s !! run) ++ expired ∧
    Forall (expiry_of run) expired;
}.

Definition receipt_of s (id : CommandId.t) :=
  (commands s !! id, command_actors s !! id, command_external_ids s !! id,
   authenticated_request_digests s !! id, legacy_start_digests s !! id,
   worker_command_digests s !! id, command_times s !! id).

(** Everything that is not due at [now] is still there. *)
Record keeps (now : Z) s s' : Prop := mkKeeps {
  kp_receipts : ∀ id recorded, command_times s !! id = Some recorded →
    now < sat_add64 recorded DAY_MS → receipt_of s' id = receipt_of s id;
  kp_runs : ∀ run r, runs s !! run = Some r → run_expired now r = false → run_kept now run s s';
}.

Lemma run_kept_refl now run s : run_kept now run s s.
Proof. split; try done. exists []. by rewrite app_nil_r. Qed.

Lemma run_kept_trans now run s1 s2 s3 : run_kept now run s1 s2 → run_kept now run s2 s3 → run_kept now run s1 s3.
Proof.
  intros [R1 S1 A1 P1 W1 O1 I1 (x1 & Hx1 & F1)] [R2 S2 A2 P2 W2 O2 I2 (x2 & Hx2 & F2)]. split; eauto.
  - congruence.
  - intros k a Ha Hrun. rewrite (P2 k a) by eauto. eauto.
  - exists (x1 ++ x2). rewrite Hx2, Hx1, app_assoc. split; [done|]. by apply Forall_app.
Qed.

Lemma keeps_trans now s1 s2 s3 : keeps now s1 s2 → keeps now s2 s3 → keeps now s1 s3.
Proof.
  intros [Hr1 Hk1] [Hr2 Hk2]. split.
  - intros id rec Hid Hlt. pose proof (Hr1 _ _ Hid Hlt) as Heq. rewrite <-Heq. eapply Hr2; [|done].
    injection Heq as _ _ _ _ _ _ ->. done.
  - intros run r Hr He. pose proof (Hk1 _ _ Hr He) as Hk. eapply run_kept_trans; [done|].
    eapply Hk2; [|done]. by rewrite (rk_run _ _ _ _ Hk).
Qed.

(** The parts of the state that runs and receipts are read from. *)
Definition slices s :=
  (runs s, scopes s, activations s, waits s, inbox s, obligations s, history s,
   (loop_carry s, foreach_items s, foreach_done s, parallel_done s, saga_errors s, interventions s)).

Lemma run_kept_slices now run s s' : slices s' = slices s → run_kept now run s s'.
Proof.
  intros [= Hr Hs Ha Hw Hi Ho Hh Hp1 Hp2 Hp3 Hp4 Hp5 Hp6].
  split; rewrite ?Hr, ?Hs, ?Ha, ?Hw, ?Hi, ?Ho, ?Hh; try done.
  { intros. unfold progress_at. by rewrite Hp1, Hp2, Hp3, Hp4, Hp5, Hp6. }
  exists []. by rewrite app_nil_r.
Qed.

Lemma keeps_slices now s s' : slices s' = slices s → (∀ id, receipt_of s' id = receipt_of s id) → keeps now s s'.
Proof. intros Hs Hr. split; [by intros|]. intros. by apply run_kept_slices. Qed.

(** ** The phases of [prune] *)
Lemma drop_results_keeps now keys s : keeps now s (drop_results keys s).
Proof. by apply keeps_slices. Qed.

Lemma drop_commands_spec ids s :
  slices (foldl drop_command s ids) = slices s ∧
  ∀ id, id ∉ ids → receipt_of (foldl drop_command s ids) id = receipt_of s id.
Proof.
  revert s. induction ids as [|id ids IH]; simpl; intros s; [done|].
  destruct (IH (drop_command s id)) as [-> Hr]. split; [done|].
  intros id' [Hne Hid]%not_elem_of_cons. rewrite Hr by done. unfold receipt_of, drop_command. simpl.
  by rewrite !lookup_delete_ne by done.
Qed.

(** What [drop_input] may not touch. *)
Definition untouched s := (runs s, scopes s, activations s, waits s, obligations s,
  (loop_carry s, foreach_items s, foreach_done s, parallel_done s, saga_errors s, interventions s),
  (sessions s, next_generation s)).

Lemma append_event_untouched s run e cid pid t refs s' :
  append_event s run e cid pid t refs = Ok s' → untouched s' = untouched s ∧ inbox s' = inbox s.
Proof. unfold append_event. intros Happ. ok_inv; by repeat case_match. Qed.

Lemma checkpoint_untouched s run t s' :
  checkpoint_after_command s run t = Ok s' →
  slices s' = slices s ∧ sessions s' = sessions s ∧ next_generation s' = next_generation s ∧ ∀ id, receipt_of s' id = receipt_of s id.
Proof. unfold checkpoint_after_command. intros Hc. by ok_inv. Qed.

Lemma receipts_receipt_of s s' : receipts s' = receipts s → ∀ id, receipt_of s' id = receipt_of s id.
Proof. intros [= Hc Ha He Hd Hw Hs Ht _] id. unfold receipt_of. by rewrite Hc, Ha, He, Hd, Hw, Hs, Ht. Qed.

Lemma expire_event_spec s run id cid pid t s' :
  apply_events_with_cause s [EventExpired run id] cid pid t = Ok s' →
  untouched s' = untouched s ∧ inbox s' = List.filter (λ e, negb (same_input (Some run, id) e)) (inbox s) ∧
  history s' = partial_alter (push_entry (EventExpired run id)) run (history s) ∧
  ∀ id, receipt_of s' id = receipt_of s id.
Proof.
  intros Ha. pose proof (receipts_receipt_of _ _ (apply_events_receipts _ _ _ _ _ _ Ha)) as Hr.
  unfold apply_events_with_cause in Ha. simpl in Ha. apply outcome_bind_ok in Ha as (s1 & Ha & [= ->]).
  unfold apply_event_with_cause in Ha. simpl in Ha.
  apply outcome_bind_ok in Ha as (refs & Hrefs & Ha). apply outcome_bind_ok in Ha as (r & Hr' & Ha).
  destruct (append_event_untouched _ _ _ _ _ _ _ _ Ha) as [Hu Hi].
  destruct (append_event_history _ _ _ _ _ _ _ _ Ha) as (a & _ & Hh & _).
  split_and!; [done| |done|done]. rewrite Hi. simpl. clear.
  induction (inbox s) as [|e l IH]; simpl; [done|]. unfold same_input in *. simpl.
  rewrite negb_andb, IH. done.
Qed.

Lemma inbox_key_unique s e1 e2 :
  inbox_wf s → e1 ∈ inbox s → e2 ∈ inbox s → ie_run e1 = ie_run e2 → ie_event_id e1 = ie_event_id e2 → e1 = e2.
Proof.
  intros [Hnd _ _ _ _] [i Hi]%list_elem_of_lookup [j Hj]%list_elem_of_lookup Hr He.
  assert (i = j) as ->; [|congruence].
  eapply (NoDup_lookup (entry_key <$> inbox s).*1); [done|by rewrite !list_lookup_fmap, Hi|].
  rewrite !list_lookup_fmap, Hj. simpl. congruence.
Qed.

(** Inputs leave the inbox; at most expiry events are added to histories. *)
Record inputs_dropped (keys : list (option RunId.t * EventId.t)) s s' : Prop := mkInputsDropped {
  dr_untouched : untouched s' = untouched s;
  dr_inbox : inbox s' = List.filter (λ e, forallb (λ key, negb (same_input key e)) keys) (inbox s);
  dr_receipts : ∀ id, receipt_of s' id = receipt_of s id;
  dr_history : ∀ run, ∃ expired, default [] (history s' !! run) = default [] (history s !! run) ++ expired ∧
    Forall (expiry_of run) expired;
}.

Lemma drop_input_spec cid t evs s key evs' s' :
  drop_input cid t (evs, s) key = Ok (evs', s') → inputs_dropped [key] s s'.
Proof.
  unfold drop_input. intros (entry & Hentry & Hd)%outcome_bind_ok.
  apply unwrap_ok, lfind_Some_1 in Hentry as [_ Hsame].
  destruct (negb _ && _); [done|].
  assert (∀ (l : list InboxEntry), List.filter (λ e, forallb (λ key, negb (same_input key e)) [key]) l =
    List.filter (λ e, negb (same_input key e)) l) as Hfilter.
  { intros l. apply filter_ext. intros e. simpl. by rewrite andb_true_r. }
  destruct (ie_run entry) as [run|] eqn:Hrun; simpl in Hd; [destruct (_ && _)|].
  - apply outcome_bind_ok in Hd as (s1 & Hs1 & Hd). apply outcome_bind_ok in Hd as (s2 & Hs2 & [= <- <-]).
    destruct (expire_event_spec _ _ _ _ _ _ _ Hs1) as (Hu & Hi & Hh & Hr).
    destruct (checkpoint_untouched _ _ _ _ Hs2) as ([= E1 E2 E3 E4 E5 E6 E7 E8 E9 E10 E11 E12 E13] & E14 & E15 & Hr2).
    assert (key = (Some run, key.2)) as Hkey.
    { unfold same_input in Hsame. to_prop. destruct key; simpl in *; congruence. }
    split.
    + unfold untouched in *. by rewrite E1, E2, E3, E4, E6, E8, E9, E10, E11, E12, E13, E14, E15.
    + by rewrite Hfilter, E5, Hi, Hkey.
    + intros id. by rewrite Hr2, Hr.
    + intros run'. rewrite E7, Hh, lookup_partial_alter. case_decide; subst.
      * exists [EventExpired run' key.2]. unfold push_entry. simpl. split; [done|]. by repeat constructor.
      * exists []. by rewrite app_nil_r.
  - injection Hd as <- <-. split; try done. intros run'. exists []. by rewrite app_nil_r.
  - injection Hd as <- <-. split; try done. intros run'. exists []. by rewrite app_nil_r.
Qed.

Lemma drop_inputs_spec cid t keys evs s evs' s' :
  outcome_fold (drop_input cid t) (evs, s) keys = Ok (evs', s') → inputs_dropped keys s s'.
Proof.
  revert evs s. induction keys as [|key keys IH]; simpl; intros evs s Hf.
  - injection Hf as <- <-. split; try done; [|intros; exists []; by rewrite app_nil_r].
    simpl. clear. induction (inbox s) as [|e l IH]; simpl; [done|]. by f_equal.
  - apply outcome_bind_ok in Hf as ([evs1 s1] & H1s & Hf). apply IH in Hf as [Hu Hi Hr Hh].
    apply drop_input_spec in H1s as [Hu1 Hi1 Hr1 Hh1]. split.
    + congruence.
    + rewrite Hi, Hi1, filter_filter_and. apply filter_ext. intros e. simpl. by rewrite andb_true_r.
    + intros id. by rewrite Hr, Hr1.
    + intros run. destruct (Hh run) as (x2 & -> & ?), (Hh1 run) as (x1 & -> & ?).
      exists (x1 ++ x2). rewrite app_assoc. split; [done|]. by apply Forall_app.
Qed.

Context `{!PlatformLaws _}.

Lemma drop_due_commands_keeps now s limit :
  keeps now s (foldl drop_command s (earliest_due CommandId.leb (due_commands s now) limit)).
Proof.
  destruct (drop_commands_spec (earliest_due CommandId.leb (due_commands s now) limit) s) as [Hs Hr].
  split; [|intros; by apply run_kept_slices]. intros id recorded Hid Hlt. apply Hr.
  intros (due & Hin)%earliest_due_elem. unfold due_commands in Hin.
  apply list_elem_of_omap in Hin as ([id' rec'] & Hin & Hdue).
  destruct (_ <=? now) eqn:Hle; [|done]. injection Hdue as <- ->. apply elem_of_hm_iter in Hin.
  rewrite Hid in Hin. injection Hin as <-. to_prop. lia.
Qed.

Lemma drop_due_inputs_keeps cid now s limit evs evs' s' :
  inbox_wf s →
  outcome_fold (drop_input cid now) (evs, s) (earliest_due input_leb (due_inputs s now) limit) = Ok (evs', s') →
  keeps now s s'.
Proof.
  intros Hwf [[= Hr Hs Ha Hw Ho Hp1 Hp2 Hp3 Hp4 Hp5 Hp6 _ _] Hi Hrec Hh]%drop_inputs_spec.
  split; [by intros; apply Hrec|]. intros run r Hrun _. split; rewrite ?Hr, ?Hs, ?Ha, ?Hw, ?Ho; try done.
  - intros. unfold progress_at. by rewrite Hp1, Hp2, Hp3, Hp4, Hp5, Hp6.
  - intros e He _ Hkeep. rewrite Hi. apply elem_of_filter_b. split; [|done]. apply forallb_elem.
    intros key (due & Hin)%earliest_due_elem. unfold due_inputs in Hin.
    apply list_elem_of_omap in Hin as (e0 & He0 & Hdue). destruct (prunable now e0) eqn:Hpr; [|done].
    injection Hdue as _ <-. apply negb_true_iff. destruct (same_input _ e) eqn:Hsame; [|done].
    unfold same_input in Hsame. simpl in Hsame. to_prop. exfalso.
    assert (e = e0) as ->; [|congruence]. eapply inbox_key_unique; [done..|congruence|congruence].
Qed.

(** The parts that [drop_activation] does not touch. *)
Definition but_progress s :=
  (runs s, scopes s, activations s, waits s, inbox s, obligations s, history s, history_records s,
   sessions s, next_generation s).

Lemma drop_activations_spec l s :
  but_progress (foldl drop_activation s l) = but_progress s ∧
  receipts (foldl drop_activation s l) = receipts s ∧
  ∀ a, a ∉ l → progress_at (foldl drop_activation s l) a = progress_at s a.
Proof.
  revert s. induction l as [|a l IH]; simpl; intros s; [done|].
  destruct (IH (drop_activation s a)) as (-> & -> & Hp). do 2 (split; [done|]).
  intros a' [Hne Ha]%not_elem_of_cons. rewrite Hp by done. unfold progress_at, drop_activation. simpl.
  by rewrite !lookup_delete_ne by done.
Qed.

(** [drop_run] removes a run with all its records and keeps the others. *)
Record run_dropped (id : RunId.t) s s' : Prop := mkRunDropped {
  rd_runs : runs s' = delete id (runs s);
  rd_scopes : scopes s' = filter (λ kv, ss_run kv.2 ≠ id) (scopes s);
  rd_activations : activations s' = filter (λ kv, as_run kv.2 ≠ id) (activations s);
  rd_waits : waits s' = filter (λ kv, wt_run kv.2 ≠ id) (waits s);
  rd_inbox : inbox s' = List.filter (λ e, negb (bool_decide (ie_run e = Some id))) (inbox s);
  rd_obligations : obligations s' = List.filter (λ o, negb (bool_decide (ob_run o = id))) (obligations s);
  rd_history : history s' = delete id (history s) ∧ history_records s' = delete id (history_records s);
  rd_others : sessions s' = sessions s ∧ next_generation s' = next_generation s ∧ receipts s' = receipts s;
  rd_progress : ids_wf s → ∀ k a, activations s !! k = Some a → as_run a ≠ id →
    progress_at s' k = progress_at s k;
}.

Lemma drop_run_spec s id s' : drop_run s id = Ok s' → run_dropped id s s'.
Proof.
  unfold drop_run. intros (r & Hr & Hd)%outcome_bind_ok. apply outcome_bind_ok in Hd as (status & _ & Hd).
  set (removed := as_id <$> _) in Hd.
  assert (Hrem : ∀ k, k ∈ removed → ∃ a, as_id a = k ∧ as_run a = id ∧ ∃ k', activations s !! k' = Some a).
  { intros k (a & -> & Ha)%list_elem_of_fmap. apply elem_of_filter_b in Ha as [Ha Hv]. to_prop.
    apply elem_of_hm_values in Hv. eauto. }
  match type of Hd with Ok (upd_obligations _ (upd_inbox _ (upd_waits _ (foldl _ ?base _)))) = _ =>
    destruct (drop_activations_spec removed base) as (Hbut & Erc & Hprog); set (s1 := foldl drop_activation base removed) in * end.
  clearbody removed s1. injection Hd as <-.
  injection Hbut as Er Es Ea Ew Ei Eo Eh Ehr Ese Eg.
  split; simpl; rewrite ?Er, ?Es, ?Ea, ?Ew, ?Ei, ?Eo, ?Eh, ?Ehr, ?Ese, ?Eg; try done.
  intros Hids k a Hk Hne. apply Hprog. intros (a' & Hid & Hrun & k' & Hk')%Hrem.
  pose proof (idw_activations _ Hids _ _ Hk') as Hid'. simpl in Hid'. congruence.
Qed.

Lemma run_dropped_ids id s s' : run_dropped id s s' → ids_wf s → ids_wf s'.
Proof.
  intros [Hr Hs Ha Hw _ _ _ (Hse & _) _] [Ia Is Iw Ix Ir]. split.
  - rewrite Ha. intros k x [Hk _]%map_lookup_filter_Some. by apply Ia.
  - rewrite Hs. intros k x [Hk _]%map_lookup_filter_Some. by apply Is.
  - rewrite Hw. intros k x [Hk _]%map_lookup_filter_Some. by apply Iw.
  - by rewrite Hse.
  - rewrite Hr. intros k x [_ Hk]%lookup_delete_Some. by apply Ir.
Qed.

Lemma run_dropped_kept now id s s' run :
  run_dropped id s s' → ids_wf s → run ≠ id → run_kept now run s s'.
Proof.
  intros [Hr Hs Ha Hw Hi Ho (Hh & _) _ Hp] Hids Hne. specialize (Hp Hids).
  split; rewrite ?Hr, ?Hs, ?Ha, ?Hw, ?Hi, ?Ho, ?Hh.
  - by rewrite lookup_delete_ne.
  - intros k x Hk <-. by apply map_lookup_filter_Some.
  - intros k x Hk <-. by apply map_lookup_filter_Some.
  - intros k a Hk <-. by eapply Hp.
  - intros k x Hk <-. by apply map_lookup_filter_Some.
  - intros o Ho' <-. apply elem_of_filter_b. by rewrite bool_decide_eq_false_2.
  - intros e He Hrun _. apply elem_of_filter_b. rewrite Hrun, bool_decide_eq_false_2 by congruence. done.
  - exists []. by rewrite lookup_delete_ne, app_nil_r.
Qed.

Lemma drop_runs_kept now keys s s' :
  ids_wf s → outcome_fold drop_run s keys = Ok s' →
  ids_wf s' ∧ (∀ run, run ∉ keys → run_kept now run s s') ∧ ∀ id, receipt_of s' id = receipt_of s id.
Proof.
  revert s. induction keys as [|id keys IH]; simpl; intros s Hids Hf.
  { injection Hf as <-. split_and!; [done|intros; apply run_kept_refl|done]. }
  apply outcome_bind_ok in Hf as (s1 & Hd%drop_run_spec & Hf).
  destruct (IH s1) as (? & Hk & Hr); [by eapply run_dropped_ids|done|]. split_and!; [done| |].
  - intros run [Hne Hrun]%not_elem_of_cons. eapply run_kept_trans; [by eapply run_dropped_kept|by apply Hk].
  - intros id'. rewrite Hr. destruct (rd_others _ _ _ Hd) as (_ & _ & Hrec). by apply receipts_receipt_of.
Qed.

Lemma drop_due_runs_keeps now s limit s' :
  ids_wf s → outcome_fold drop_run s (earliest_due RunId.leb (due_runs s now) limit) = Ok s' → keeps now s s'.
Proof.
  intros Hids Hf. destruct (drop_runs_kept now _ _ _ Hids Hf) as (_ & Hk & Hr).
  split; [by intros|]. intros run r Hrun Hexp. apply Hk.
  intros (due & Hin)%earliest_due_elem. unfold due_runs in Hin.
  apply list_elem_of_omap in Hin as (r0 & (k & Hk0)%elem_of_hm_values & Hdue).
  destruct (run_expired now r0) eqn:He; [|done]. injection Hdue as _ <-.
  pose proof (idw_runs _ Hids _ _ Hk0) as Hid. simpl in Hid. rewrite Hid in *. congruence.
Qed.

Lemma drop_summaries_spec keys s :
  slices (foldl drop_summary s keys) = slices s ∧ projected (foldl drop_summary s keys) = projected s ∧
  receipts (foldl drop_summary s keys) = receipts s ∧ logs (foldl drop_summary s keys) = logs s.
Proof.
  revert s. induction keys as [|id keys IH]; simpl; intros s; [done|].
  destruct (IH (drop_summary s id)) as (-> & -> & -> & ->). done.
Qed.

(** ** Pruning preserves the invariants *)
Definition engine_ok s : Prop := engine_wf s ∧ history_wf s.

Lemma receipts_wf_pointwise s s' :
  (∀ id, receipt_of s' id = receipt_of s id) → receipts_wf s → receipts_wf s'.
Proof. intros Hr Hwf id. specialize (Hr id). injection Hr as -> _ _ _ _ -> _. apply Hwf. Qed.

Lemma drop_commands_ok ids s : engine_ok s → engine_ok (foldl drop_command s ids).
Proof.
  revert s. induction ids as [|id ids IH]; simpl; intros s [Hwf Hh]; [done|]. apply IH.
  split; [|by apply (history_wf_logs s)]. apply (engine_wf_frame s); [done| |done].
  intros id'. simpl. rewrite !lookup_delete. case_decide; [by intros [? ?]|]. apply Hwf.
Qed.

Lemma inputs_dropped_wf keys s s' : inputs_dropped keys s s' → engine_wf s → engine_wf s'.
Proof.
  intros [[= Hr Hs Ha Hw Ho _ _ _ _ _ _ Hse Hn] Hi Hrec _] [Hids Hob Hcl Hin Hre]. split.
  - destruct Hids. split; by rewrite ?Hr, ?Hs, ?Ha, ?Hw, ?Hse.
  - unfold obligations_unique. by rewrite Ho.
  - unfold claims_wf, token in *. by rewrite Ha, Hn.
  - eapply (inbox_wf_shrinks s); [rewrite Hi; apply inbox_shrinks_filter|split; rewrite Hr; eauto|exact Hin].
  - by eapply receipts_wf_pointwise.
Qed.

Lemma drop_input_history cid t evs s key evs' s' :
  drop_input cid t (evs, s) key = Ok (evs', s') → history_wf s → history_wf s'.
Proof.
  unfold drop_input. intros (entry & _ & Hd)%outcome_bind_ok Hwf. destruct (negb _ && _); [done|].
  destruct (mbind _ _) as [run|]; [|injection Hd as _ <-; by apply (history_wf_logs s)].
  apply outcome_bind_ok in Hd as (s1 & Hs1 & Hd). apply outcome_bind_ok in Hd as (s2 & Hs2 & [= _ <-]).
  apply apply_events_history in Hs1; [|done]. apply checkpoint_kept, kept_eq in Hs2 as (_ & _ & Hl).
  by apply (history_wf_logs s1).
Qed.

Lemma drop_inputs_ok cid t keys evs s evs' s' :
  engine_ok s → outcome_fold (drop_input cid t) (evs, s) keys = Ok (evs', s') → engine_ok s'.
Proof.
  intros [Hwf Hh] Hf. split; [by eapply inputs_dropped_wf, Hwf; eapply drop_inputs_spec|].
  revert evs s Hwf Hh Hf. induction keys as [|key keys IH]; simpl; intros evs s Hwf Hh Hf; [by simplify_eq|].
  apply outcome_bind_ok in Hf as ([evs1 s1] & H1s & Hf). eapply IH, Hf.
  - eapply inputs_dropped_wf, Hwf. by eapply drop_input_spec.
  - by eapply drop_input_history.
Qed.

Lemma run_dropped_ok id s s' : run_dropped id s s' → engine_ok s → engine_ok s'.
Proof.
  intros Hd [[Hids Hob Hcl Hin Hre] Hh]. pose proof (run_dropped_ids _ _ _ Hd Hids) as Hids'.
  destruct Hd as [Hr Hs Ha Hw Hi Ho [Hh1 Hh2] (_ & Hn & Hrec) _].
  assert (Htok : ∀ k g, token s' k = Some g → token s k = Some g).
  { intros k g. unfold token. rewrite Ha, map_lookup_filter. destruct (activations s !! k); simpl; [|done].
    by case_guard. }
  split; [split; try done|].
  - unfold obligations_unique. rewrite Ho. eapply sublist_NoDup; [exact Hob|].
    apply fmap_sublist, filter_sublist.
  - intros Hlt. rewrite Hn in *. destruct (Hcl Hlt) as [Hle Huniq]. split; eauto.
  - destruct Hin as [Hu Hord Hf Hd Hq].
    destruct (inbox_shrinks_filter (λ e, negb (bool_decide (ie_run e = Some id))) (inbox s)) as [Hsub Hcount].
    rewrite <-Hi in Hsub, Hcount.
    assert (Hold : ∀ e, e ∈ inbox s' → e ∈ inbox s ∧ ie_run e ≠ Some id).
    { intros e. rewrite Hi, elem_of_filter_b. intros [Hne ?]. by to_prop. }
    split.
    + eapply sublist_NoDup; [done|]. by apply fmap_sublist.
    + by eapply StronglySorted_sublist.
    + intros e run r [He _]%Hold Hrun. rewrite Hr. intros [_ Hk]%lookup_delete_Some. eauto.
    + intros e run [He Hne]%Hold Hrun. rewrite Hr, lookup_delete_ne by congruence. eauto.
    + intros run. etrans; [apply Hcount|done].
  - by eapply receipts_wf_pointwise; [apply receipts_receipt_of|].
  - intros run. rewrite Hh1, Hh2, !lookup_delete. case_decide; [done|apply Hh].
Qed.

Lemma drop_runs_ok keys s s' : engine_ok s → outcome_fold drop_run s keys = Ok s' → engine_ok s'.
Proof.
  revert s. induction keys as [|id keys IH]; simpl; intros s Hok Hf; [by simplify_eq|].
  apply outcome_bind_ok in Hf as (s1 & Hd%drop_run_spec & Hf). eapply IH; [|done]. by eapply run_dropped_ok.
Qed.

Lemma drop_summaries_ok keys s : engine_ok s → engine_ok (foldl drop_summary s keys).
Proof.
  intros [Hwf Hh]. destruct (drop_summaries_spec keys s) as (_ & Hp & Hr & Hl).
  split; [|by eapply history_wf_logs]. eapply engine_wf_frame; [done| |done].
  eapply receipts_wf_pointwise; [by apply receipts_receipt_of|]. by destruct Hwf.
Qed.

Lemma prune_spec s cid t limit evs s' :
  engine_ok s → prune s cid t limit = Ok (evs, s') → keeps t s s' ∧ engine_ok s'.
Proof.
  intros Hok Hp. unfold prune in Hp.
  set (s1 := drop_results _ s) in Hp. assert (engine_ok s1) as Hok1.
  { destruct Hok as [Hwf Hh]. split; [|by apply (history_wf_logs s)]. apply (engine_wf_frame s); [done|apply Hwf|done]. }
  match type of Hp with context [foldl drop_command s1 ?ids] =>
    pose proof (drop_due_commands_keeps t s1 (limit - length (earliest_due String.leb (due_results s t) limit))) as Hk2;
    pose proof (drop_commands_ok ids s1 Hok1) as Hok2; set (s2 := foldl drop_command s1 ids) in * end.
  apply outcome_bind_ok in Hp as ([evs3 s3] & Hs3 & Hp). apply outcome_bind_ok in Hp as (s4 & Hs4 & [= -> <-]).
  pose proof (drop_inputs_ok _ _ _ _ _ _ _ Hok2 Hs3) as Hok3. pose proof (drop_runs_ok _ _ _ Hok3 Hs4) as Hok4.
  split; [|by apply drop_summaries_ok].
  apply (keeps_trans t s s1); [apply drop_results_keeps|]. apply (keeps_trans t s1 s2); [exact Hk2|].
  apply (keeps_trans t s2 s3); [eapply drop_due_inputs_keeps, Hs3; apply Hok2|].
  apply (keeps_trans t s3 s4); [eapply drop_due_runs_keeps, Hs4; apply Hok3|].
  match goal with |- keeps _ _ (foldl _ _ ?keys) => destruct (drop_summaries_spec keys s4) as (Hsl & _ & Hr & _) end.
  apply keeps_slices; [done|]. by apply receipts_receipt_of.
Qed.
End RetentionFacts.
