(* ===== verification/PublicationFacts.v ===== *)
(** * Publications: receipts, immutability and exactly-once starts *)
From stdpp Require Import base option gmap strings list.
From Stdlib Require Import ZArith Ascii Lia.
From S2P Require Import Prelude Value Ids Policy Catalog Ir Analysis Equality Domain Eval Evolve History Steps Command Publication AnalysisFacts EvolveFacts CommandFacts.

Section PublicationFacts.
Context `{Platform} `{CatalogSerde} `{Serde} `{OperationSerde}.
Implicit Types s : State.

(** ** The frame: no event and no command touches what is published *)

(** What a run was admitted with. *)
Definition run_pin (r : RunState) : Definition_ * Catalog * option PinnedPublication :=
  (rs_definition r, rs_catalog r, rs_published r).

Definition publications s :=
  (published_catalogs s, published_definitions s, start_keys s, command_results s, terminal_summaries s,
   run_pin <$> runs s).

Lemma run_pin_alter (f : RunState → RunState) run (m : gmap RunId.t RunState) :
  (∀ r, run_pin (f r) = run_pin r) → run_pin <$> alter f run m = run_pin <$> m.
Proof.
  intros Hf. apply map_eq. intros k. rewrite !lookup_fmap, lookup_alter. case_decide; [subst|done].
  destruct (m !! _); simpl; [by rewrite Hf|done].
Qed.

Lemma run_pin_insert run r r' (m : gmap RunId.t RunState) :
  m !! run = Some r → run_pin r' = run_pin r → run_pin <$> <[run := r']> m = run_pin <$> m.
Proof.
  intros Hr Heq. apply map_eq. intros k. rewrite !lookup_fmap, lookup_insert. case_decide; [|done].
  subst. rewrite Hr. simpl. by rewrite Heq.
Qed.

#[export] Instance publications_frame : StateFrame publications.
Proof.
  split.
  - intros s e s' Hev. unfold publications. evolve_cases Hev; try done.
    all: f_equal; first [by apply run_pin_alter | by eapply run_pin_insert].
  - unfold append_event. intros * Happ. ok_inv; by repeat case_match.
  - done.
  - intros * Hr. unfold record_terminal in Hr. ok_inv; try done.
    unfold publications. simpl. f_equal. by apply run_pin_alter.
  - intros * Hs. unfold record_receipt in Hs. apply outcome_bind_ok in Hs as (s0 & Hs0 & [= <-]).
    destruct actor; ok_inv; by destruct wd.
  - intros * Hc. unfold checkpoint_after_command in Hc. by ok_inv.
Qed.

(** Inline starts put their run in beside the published ones. *)
Lemma commit_publications s c actor evs s' :
  commit_execution s c actor = Ok (evs, s') →
  published_catalogs s' = published_catalogs s ∧ published_definitions s' = published_definitions s ∧
  start_keys s' = start_keys s ∧ command_results s' = command_results s ∧
  terminal_summaries s' = terminal_summaries s ∧ dom (runs s) ⊆ dom (runs s') ∧
  ∀ run r, runs s' !! run = Some r → is_Some (rs_published r) →
    ∃ r0, runs s !! run = Some r0 ∧ run_pin r0 = run_pin r.
Proof.
  unfold commit_execution. intros ([[c2 ext] d] & _ & Ha)%outcome_bind_ok.
  apply outcome_bind_ok in Ha as (sd & _ & Ha). apply outcome_bind_ok in Ha as (wd & _ & Ha).
  destruct (commands s !! cmd_id c2).
  { ok_inv; eauto 10. }
  apply outcome_bind_ok in Ha as ([evs1 s1] & Ha & Hs).
  assert (publications s' = publications s1 ∧ runs s' = runs s1) as [Hp Hruns] by (destruct sd; by injection Hs as <- <-).
  apply (apply_new_framed publications) in Ha. rewrite Ha in Hp. clear Ha.
  assert (publications (provide_run s (cmd_body c2)) = publications s ∨
    ∃ run r, runs s !! run = None ∧ rs_published r = None ∧
      provide_run s (cmd_body c2) = upd_runs (insert run r) s) as [Heq|(run & r & Hnone & Hpin & Heq)].
  { unfold provide_run. destruct (cmd_body c2); auto. case_bool_decide as Hr; [auto|].
    right. eexists _, _. split_and!; [by apply eq_None_not_Some| |done]. done. }
  - rewrite Heq in Hp. injection Hp as Hc Hd Hk Hres Hts Hpins.
    assert (dom (runs s') = dom (runs s)) as Hdom by (by rewrite <-(dom_fmap_L run_pin), Hpins, dom_fmap_L).
    split_and!; try done; [by rewrite Hdom|].
    intros run r Hr _. assert ((run_pin <$> runs s') !! run = Some (run_pin r)) as Hr' by (by rewrite lookup_fmap, Hr).
    rewrite Hpins, lookup_fmap in Hr'. apply fmap_Some in Hr' as (r0 & ? & ?). eauto.
  - rewrite Heq in Hp. injection Hp as Hc Hd Hk Hres Hts Hpins. simpl in *.
    assert (dom (runs s') = dom (<[run:=r]> (runs s))) as Hdom by (by rewrite <-(dom_fmap_L run_pin), Hpins, dom_fmap_L).
    split_and!; try done; [rewrite Hdom; set_solver|].
    intros run' r' Hr Hpub. assert ((run_pin <$> runs s') !! run' = Some (run_pin r')) as Hr' by (by rewrite lookup_fmap, Hr).
    rewrite Hpins, lookup_fmap, lookup_insert in Hr'. case_decide.
    + apply (f_equal (fmap snd)) in Hr'. simpl in Hr'. injection Hr' as Hr'. destruct Hpub. congruence.
    + apply fmap_Some in Hr' as (r0 & ? & ?). eauto.
Qed.

(** ** What each operation does *)
Definition find_definition s (id : string) (version : Z) : option PublishedDefinition :=
  versions ← bt_get id (published_definitions s); bt_get version versions.

Definition entries_agree {K V} `{EqDecision K} (m1 m2 : list (K * V)) : Prop :=
  ∀ k x y, bt_get k m1 = Some x → bt_get k m2 = Some y → x = y.

Definition catalogs_agree (c1 c2 : Catalog) : Prop :=
  entries_agree (cat_schemas c1) (cat_schemas c2) ∧ entries_agree (cat_activities c1) (cat_activities c2) ∧
  entries_agree (cat_reconcilers c1) (cat_reconcilers c2).

#[export] Instance catalogs_agree_symmetric : Symmetric catalogs_agree.
Proof. intros c1 c2 (Hs & Ha & Hr). split_and!; intros k x y ? ?; symmetry; eauto. Qed.

Lemma agree_with_ok {K V} `{EqDecision K} `{EqDecision V} kind name (prior new : list (K * V)) :
  agree_with kind name prior new = Ok tt → entries_agree new prior.
Proof.
  unfold agree_with. rewrite outcome_map_unit, Forall_forall. intros Hall k x y Hx%bt_get_pair Hy.
  specialize (Hall _ Hx). simpl in Hall. rewrite Hy in Hall. case_bool_decide; [done|discriminate].
Qed.

Lemma agrees_with_prior_ok c prior : agrees_with_prior c prior = Ok tt → catalogs_agree c prior.
Proof.
  unfold agrees_with_prior. intros ([] & Hs & Ha)%outcome_bind_ok. apply outcome_bind_ok in Ha as ([] & Ha & Hr).
  split_and!; by eapply agree_with_ok.
Qed.

Lemma apply_catalog_ok s v c d range s' :
  apply_catalog s v c = Ok (d, range, s') →
  ∃ digest, d = Disposition_Applied None (Some digest) (Some v) ∧ range = None ∧
    validate_for_publication c = Ok tt ∧
    ((s' = s ∧ ∃ p, bt_get v (published_catalogs s) = Some p ∧ pc_catalog p = c) ∨
     (bt_get v (published_catalogs s) = None ∧
      (∀ v' p, bt_get v' (published_catalogs s) = Some p → catalogs_agree c (pc_catalog p)) ∧
      published_catalog_verify (mkPublishedCatalog CATALOG_FORMAT digest c) = Ok tt ∧
      s' = upd_published_catalogs (bt_insert Z.compare v (mkPublishedCatalog CATALOG_FORMAT digest c)) s)).
Proof.
  unfold apply_catalog. destruct (v =? 0); [done|]. intros ([] & Hval & Ha)%outcome_bind_ok.
  apply outcome_bind_ok in Ha as (bytes & _ & Ha). apply outcome_bind_ok in Ha as (digest & Hd & Ha).
  exists digest. destruct (bt_get v (published_catalogs s)) as [p|] eqn:Hget.
  - destruct (_ || _) eqn:Hsame; [done|]. injection Ha as <- <- <-. to_prop. split_and!; try done. left. eauto.
  - apply outcome_bind_ok in Ha as (l & Hall & Ha). injection Ha as <- <- <-. split_and!; try done. right.
    split_and!; try done.
    + assert ((_ ← outcome_map (λ '(_, prior), agrees_with_prior c (pc_catalog prior)) (published_catalogs s); Ok tt) = Ok tt)
        as Hok by (by rewrite Hall).
      rewrite outcome_map_unit, Forall_forall in Hok.
      intros v' p Hp%bt_get_pair. specialize (Hok _ Hp). by apply agrees_with_prior_ok.
    + unfold published_catalog_verify. cbn [pc_format pc_digest pc_catalog].
      rewrite (bool_decide_eq_true_2 (CATALOG_FORMAT = _)), Hd by done. simpl. by rewrite bool_decide_eq_true_2.
Qed.

Lemma apply_definition_ok s definition cv d range s' :
  apply_definition s definition cv = Ok (d, range, s') →
  ∃ p, bt_get cv (published_catalogs s) = Some p ∧
    d = Disposition_Applied None (Some (def_digest definition)) (Some (def_version definition)) ∧ range = None ∧
    let published := mkPublishedDefinition DEFINITION_FORMAT (def_format_version definition)
      (def_digest definition) cv definition in
    published_definition_verify published = Ok tt ∧
    validate_definition definition (pc_catalog p) = Ok tt ∧
    ((s' = s ∧ ∃ q, find_definition s (def_id definition) (def_version definition) = Some q ∧
        pd_definition q = definition ∧ pd_catalog_version q = cv) ∨
     (find_definition s (def_id definition) (def_version definition) = None ∧
      s' = upd_published_definitions (str_insert (def_id definition)
        (bt_insert Z.compare (def_version definition) published
           (default [] (bt_get (def_id definition) (published_definitions s))))) s)).
Proof.
  unfold apply_definition. intros (p & Hp%ok_or_ok & Ha)%outcome_bind_ok.
  apply outcome_bind_ok in Ha as ([] & Hver & Ha). destruct (_ || _); [done|].
  apply outcome_bind_ok in Ha as ([] & Hfmt & Ha). apply outcome_bind_ok in Ha as ([] & Hval & Ha).
  exists p. split; [done|].
  assert (published_definition_verify (mkPublishedDefinition DEFINITION_FORMAT (def_format_version definition)
    (def_digest definition) cv definition) = Ok tt) as Hpv.
  { destruct (def_format_version definition =? FORMAT_VERSION) eqn:Hf; [|done]. simpl in Hfmt.
    apply outcome_bind_ok in Hfmt as (dg & Hdg & Hfmt). destruct (negb _) eqn:Heq in Hfmt; [done|]. to_prop.
    unfold published_definition_verify.
    cbn [pd_format pd_normalized_format_version pd_digest pd_catalog_version pd_definition].
    rewrite Z.eqb_refl, (proj2 (Z.eqb_eq _ _) Hf), Hdg, (bool_decide_eq_true_2 (DEFINITION_FORMAT = _)),
      (bool_decide_eq_true_2 (def_digest _ = _)) by done. simpl. by rewrite bool_decide_eq_true_2. }
  assert (bt_get (def_version definition) (default [] (bt_get (def_id definition) (published_definitions s)))
    = find_definition s (def_id definition) (def_version definition)) as Hfind.
  { unfold find_definition. by destruct (bt_get (def_id definition) _). }
  rewrite Hfind in Ha. destruct (find_definition s _ _) as [q|].
  - destruct (_ || _) eqn:Hsame; [done|]. injection Ha as <- <- <-. to_prop. split_and!; try done. left. eauto 10.
  - injection Ha as <- <- <-. split_and!; try done. right. done.
Qed.

(** The pin of a start. *)
Definition pin_for (pinned : PublishedDefinition) (catalog : PublishedCatalog) : PinnedPublication :=
  mkPinnedPublication (pd_normalized_format_version pinned) (pd_digest pinned)
    (pd_catalog_version pinned) (pc_digest catalog) "graphrun.run-policy/v1".

Definition provisional s (key : CommandKey) (pinned : PublishedDefinition) (catalog : PublishedCatalog) : State :=
  let run := (published_start_ids key).1.1 in
  upd_runs (insert run (provisional_run run (pd_definition pinned) (pc_catalog catalog)
    (Some (pin_for pinned catalog)))) s.

Lemma start_pinned_ok s c key pinned catalog input range s' :
  start_pinned s c key pinned catalog input = Ok (range, s') →
  let '(run, start_id, progress_id) := published_start_ids key in
  er_run range = run ∧
  ∃ evs s1 evs2,
    decide (provisional s key pinned catalog)
      (mkCommand start_id (Cmd_Start run (pd_definition pinned) input (pc_catalog catalog)) (cmd_time c)) = Ok evs ∧
    apply_events_with_cause (provisional s key pinned catalog) evs (Some (cmd_id c)) (Some (ck_principal_id key))
      (cmd_time c) = Ok s1 ∧
    apply_command s1 (mkCommand progress_id (Cmd_Progress run) (cmd_time c)) = Ok (evs2, s').
Proof.
  unfold start_pinned, provisional. destruct (published_start_ids key) as [[run start_id] progress_id]. simpl.
  intros (evs & Hd & Ha)%outcome_bind_ok. apply outcome_bind_ok in Ha as (s1 & Hs1 & Ha).
  apply outcome_bind_ok in Ha as ([evs2 s2] & Hs2 & Ha). destruct (_ <? _); [done|]. simplify_eq. eauto 10.
Qed.

Lemma start_pinned_publications s c key pinned catalog input range s' :
  start_pinned s c key pinned catalog input = Ok (range, s') →
  publications s' = publications (provisional s key pinned catalog).
Proof.
  intros Hs%start_pinned_ok. destruct (published_start_ids key) as [[run start_id] progress_id].
  destruct Hs as (_ & evs & s1 & evs2 & _ & Hs1 & Hs2).
  apply (apply_events_framed publications) in Hs1. apply (apply_command_framed publications) in Hs2. congruence.
Qed.

Lemma apply_start_ok s c key w v k input d range s' :
  apply_start s c key w v k input = Ok (d, range, s') →
  ∃ input_digest, publication_digest (inr (to_json input)) MAX_PAYLOAD_BYTES = Ok input_digest ∧
    ((∃ existing, find_start_key s w k = Some existing ∧ s' = s ∧ range = None ∧
        d = Disposition_Applied (Some (sr_run existing)) None (Some (sr_version existing)) ∧
        sr_input_digest existing = input_digest ∧ (∀ v', v = Some v' → v' = sr_version existing)) ∨
     (find_start_key s w k = None ∧ ∃ pinned catalog range1 s1,
        let run := (published_start_ids key).1.1 in
        pinned_for s w v = Ok (pinned, catalog) ∧ runs s !! run = None ∧ execution_suspended s = false ∧
        validate_value (pc_catalog catalog) (def_input_schema (pd_definition pinned)) input = Ok tt ∧
        start_pinned s c key pinned catalog input = Ok (range1, s1) ∧ range = Some range1 ∧
        d = Disposition_Applied (Some run) (Some (pd_digest pinned)) (Some (def_version (pd_definition pinned))) ∧
        s' = insert_start_key w k (mkStartKeyRecord run (def_version (pd_definition pinned)) input_digest (cmd_time c)) s1)).
Proof.
  unfold apply_start. destruct (_ || _); [done|]. case_bool_decide; [done|].
  intros (dg & Hdg & Ha)%outcome_bind_ok. exists dg. split; [done|].
  destruct (find_start_key s w k) as [existing|].
  - left. destruct (_ || _) eqn:Hsame; [done|]. injection Ha as <- <- <-. to_prop. exists existing.
    split_and!; try done. intros v' ->. by to_prop.
  - right. split; [done|]. apply outcome_bind_ok in Ha as ([pinned catalog] & Hpin & Ha).
    apply outcome_bind_ok in Ha as ([] & Hval & Ha). destruct (execution_suspended s) eqn:Hhold; [done|].
    case_bool_decide as Hrun; [done|]. apply outcome_bind_ok in Ha as ([range1 s1] & Hs1 & Ha). simplify_eq.
    exists pinned, catalog, range1, s1. split_and!; try done. by apply eq_None_not_Some.
Qed.

Lemma pinned_for_ok s w v pinned catalog :
  pinned_for s w v = Ok (pinned, catalog) →
  (∃ v', find_definition s w v' = Some pinned ∧ (∀ x, v = Some x → v' = x)) ∨ (v = None ∧ ∃ versions v',
    bt_get w (published_definitions s) = Some versions ∧ last versions = Some (v', pinned)).
Proof.
  unfold pinned_for, find_definition. intros (versions & Hv%ok_or_ok & Ha)%outcome_bind_ok.
  apply outcome_bind_ok in Ha as (p & Hp%ok_or_ok & Ha). ok_inv. rewrite Hv. simpl. destruct v as [v|].
  - left. exists v. split; [done|]. congruence.
  - right. split; [done|]. apply fmap_Some in Hp as ([v' p'] & Hl & ->). eauto.
Qed.
End PublicationFacts.
