(* ===== verification/PublishedFacts.v ===== *)
(** * What publications keep: receipts, immutability, sound pinned runs and starts once *)
From stdpp Require Import base option gmap strings list relations.
From Stdlib Require Import ZArith Ascii Lia.
From S2P Require Import Prelude Value Ids Policy Catalog Ir Analysis Equality Domain Eval Evolve History Steps Command Publication Retention AnalysisFacts EvolveFacts StepFacts ClaimFacts SignalFacts CommandFacts HistoryFacts PublicationFacts.

Section PublishedFacts.
Context `{Platform} `{CatalogSerde} `{Serde} `{OperationSerde}.
Implicit Types s : State.

(** ** Receipts *)

(** The outcomes of one application: a retry, a rejection or an operation. *)
Inductive applied s c key op (r : CommandResult) (digest : string) : State → Prop :=
| applied_retry previous :
    bt_get (storage_key key) (command_results s) = Some previous →
    r = (if bool_decide (cr_request_digest previous = digest) && bool_decide (cr_format previous = RESULT_FORMAT)
         then previous
         else command_result c key op digest
                (Disposition_Rejected "already_exists" "command ID reused with a different request") None) →
    applied s c key op r digest s
| applied_rejected code details :
    bt_get (storage_key key) (command_results s) = None →
    r = command_result c key op digest (Disposition_Rejected code details) None →
    applied s c key op r digest (upd_command_results (str_insert (storage_key key) r) s)
| applied_operation d range s1 :
    bt_get (storage_key key) (command_results s) = None →
    apply_operation s c key op = Ok (d, range, s1) →
    r = command_result c key op digest d range →
    applied s c key op r digest (upd_command_results (str_insert (storage_key key) r) s1).

Lemma apply_with_mode_ok s c key op mode r s' :
  apply_with_mode s c key op mode = Ok (r, s') →
  ∃ digest bytes, request_identity op = Ok (digest, bytes) ∧ applied s c key op r digest s'.
Proof.
  unfold apply_with_mode. intros ([digest bytes] & Hid & Ha)%outcome_bind_ok. exists digest, bytes. split; [done|].
  destruct (bt_get _ _) as [previous|] eqn:Hprev.
  - assert (s' = s) as -> by (by destruct (_ && _); simplify_eq). eapply applied_retry; [done|].
    by destruct (_ && _); simplify_eq.
  - destruct (_ ≫= _) as [[[d range] s1]|e|w] eqn:Hres; simplify_eq.
    + eapply applied_operation; [done| |done].
      apply outcome_bind_ok in Hres as (b & _ & Hres). by destruct (_ <? _).
    + destruct mode; simplify_eq. by eapply applied_rejected.
Qed.

Lemma applied_receipt s c key op r digest s' :
  bt_get (storage_key key) (command_results s) = None → applied s c key op r digest s' →
  bt_get (storage_key key) (command_results s') = Some r ∧ cr_request_digest r = digest ∧ cr_format r = RESULT_FORMAT.
Proof.
  intros Hnew Ha. destruct Ha; try congruence; simpl; rewrite bt_get_insert, decide_True by done; by subst r.
Qed.

(** A publication command is applied at most once. When its key is new, the
    same request under the same key, at any time and in either mode, returns the
    recorded receipt and leaves the state as it is; another request under the key
    is rejected as [already_exists] and leaves the state as it is. *)
Theorem publication_is_idempotent s c key op mode r s' c' mode' :
  bt_get (storage_key key) (command_results s) = None → apply_with_mode s c key op mode = Ok (r, s') →
  apply_with_mode s' c' key op mode' = Ok (r, s') ∧
  ∀ op' digest' bytes', request_identity op' = Ok (digest', bytes') → digest' ≠ cr_request_digest r →
    apply_with_mode s' c' key op' mode' = Ok (command_result c' key op' digest'
      (Disposition_Rejected "already_exists" "command ID reused with a different request") None, s').
Proof.
  intros Hnew (digest & bytes & Hid & Ha)%apply_with_mode_ok.
  apply applied_receipt in Ha as (Hget & Hdig & Hfmt); [|done]. split.
  - unfold apply_with_mode. rewrite Hid. simpl. by rewrite Hget, !bool_decide_eq_true_2.
  - intros op' digest' bytes' Hid' Hne. unfold apply_with_mode. rewrite Hid'. simpl.
    by rewrite Hget, (bool_decide_eq_false_2 (_ = digest')).
Qed.

(** ** Published content is immutable *)
Record published_grows s s' : Prop := mkPublishedGrows {
  pg_catalogs v p : bt_get v (published_catalogs s) = Some p → bt_get v (published_catalogs s') = Some p;
  pg_definitions id v d : find_definition s id v = Some d → find_definition s' id v = Some d;
  pg_starts w k record : find_start_key s w k = Some record → find_start_key s' w k = Some record;
}.

#[export] Instance published_grows_preorder : PreOrder published_grows.
Proof. split; [by split|]. intros s1 s2 s3 [] []. split; eauto. Qed.

Lemma published_grows_same s s' :
  published_catalogs s' = published_catalogs s → published_definitions s' = published_definitions s →
  start_keys s' = start_keys s → published_grows s s'.
Proof. intros Hc Hd Hk. split; unfold find_definition, find_start_key; by rewrite ?Hc, ?Hd, ?Hk. Qed.

Lemma publications_grow s s' : publications s' = publications s → published_grows s s'.
Proof. intros [= ? ? ? ? ? ?]. by apply published_grows_same. Qed.

Lemma find_insert_start_key s w k record w' k' :
  find_start_key (insert_start_key w k record s) w' k' =
    if base.decide (w = w' ∧ k = k') then Some record else find_start_key s w' k'.
Proof.
  unfold find_start_key, insert_start_key. simpl. rewrite bt_get_insert.
  destruct (base.decide (w = w')) as [<-|Hne]; simpl.
  - rewrite bt_get_insert. destruct (base.decide (k = k')) as [<-|]; [by rewrite decide_True|].
    rewrite decide_False by naive_solver. by destruct (bt_get w (start_keys s)).
  - by rewrite decide_False by naive_solver.
Qed.

Lemma find_insert_definition s id v d id' v' :
  find_definition (upd_published_definitions (str_insert id (bt_insert Z.compare v d
    (default [] (bt_get id (published_definitions s))))) s) id' v' =
    if base.decide (id = id' ∧ v = v') then Some d else find_definition s id' v'.
Proof.
  unfold find_definition. simpl. rewrite bt_get_insert.
  destruct (base.decide (id = id')) as [<-|Hne]; simpl.
  - rewrite bt_get_insert_Z. destruct (base.decide (v = v')) as [<-|]; [by rewrite decide_True|].
    rewrite decide_False by naive_solver. by destruct (bt_get id (published_definitions s)).
  - by rewrite decide_False by naive_solver.
Qed.

Lemma start_pinned_grows s c key pinned catalog input range s' :
  start_pinned s c key pinned catalog input = Ok (range, s') → published_grows s s'.
Proof. intros [= ? ? ? ? ? ?]%start_pinned_publications. by apply published_grows_same. Qed.

Lemma apply_operation_grows s c key op d range s' :
  apply_operation s c key op = Ok (d, range, s') → published_grows s s'.
Proof.
  destruct op as [v cat|definition cv|w v k input]; simpl.
  - intros (digest & _ & _ & _ & [[-> _]|(Hnone & _ & _ & ->)])%apply_catalog_ok; [done|].
    split; [|done..]. intros v' p Hp. simpl. rewrite bt_get_insert_Z. case_decide; [congruence|done].
  - intros (p & _ & _ & _ & _ & _ & [[-> _]|(Hnone & ->)])%apply_definition_ok; [done|].
    split; [done| |done]. intros id v d' Hd. rewrite find_insert_definition. case_decide as Heq; [|done].
    destruct Heq as [<- <-]. congruence.
  - intros (dg & _ & [(e & _ & -> & _)|(Hnone & pinned & catalog & range1 & s1 & _ & _ & _ & _ & Hs & _ & _ & ->)])%apply_start_ok;
      [done|]. apply start_pinned_grows in Hs as [Hc Hd Hk]. split; [done..|].
    intros w' k' record Hr. rewrite find_insert_start_key. case_decide as Heq; [|by apply Hk].
    destruct Heq as [<- <-]. congruence.
Qed.

Lemma applied_grows s c key op r digest s' : applied s c key op r digest s' → published_grows s s'.
Proof.
  destruct 1 as [| |d range s1 _ Hop _]; [done|by apply published_grows_same|].
  apply apply_operation_grows in Hop as [? ? ?]. by split.
Qed.

Lemma commit_grows s c actor evs s' : commit_execution s c actor = Ok (evs, s') → published_grows s s'.
Proof. intros (? & ? & ? & _)%commit_publications. by apply published_grows_same. Qed.

(** ** What is published is sound *)
Record published_wf s : Prop := mkPublishedWf {
  pw_catalogs v p : bt_get v (published_catalogs s) = Some p → published_catalog_verify p = Ok tt;
  pw_agree v1 p1 v2 p2 : bt_get v1 (published_catalogs s) = Some p1 → bt_get v2 (published_catalogs s) = Some p2 →
    catalogs_agree (pc_catalog p1) (pc_catalog p2);
  pw_definitions id versions v d :
    (id, versions) ∈ published_definitions s → (v, d) ∈ versions →
    def_id (pd_definition d) = id ∧ def_version (pd_definition d) = v ∧ published_definition_verify d = Ok tt ∧
    ∃ p, bt_get (pd_catalog_version d) (published_catalogs s) = Some p ∧
      validate_definition (pd_definition d) (pc_catalog p) = Ok tt;
  pw_runs run r pin : runs s !! run = Some r → rs_published r = Some pin →
    validate_definition (rs_definition r) (rs_catalog r) = Ok tt ∧
    pinned_verify pin (rs_definition r) (rs_catalog r) = Ok tt;
  pw_starts w keys k record : (w, keys) ∈ start_keys s → (k, record) ∈ keys →
    is_Some (runs s !! sr_run record) ∨ is_Some (terminal_summaries s !! sr_run record);
}.

(** Verified halves make a verified pin. *)
Lemma pin_for_verifies pinned catalog :
  published_definition_verify pinned = Ok tt → published_catalog_verify catalog = Ok tt →
  pinned_verify (pin_for pinned catalog) (pd_definition pinned) (pc_catalog catalog) = Ok tt.
Proof.
  unfold published_definition_verify, published_catalog_verify, pinned_verify, pin_for, FORMAT_VERSION. simpl.
  intros Hd Hc. destruct (_ || _) eqn:Hfmt in Hd; [done|]. to_prop.
  apply outcome_bind_ok in Hd as (d & -> & Hd). destruct (negb _) eqn:Hd' in Hd; [done|]. to_prop.
  destruct (negb _) in Hc; [done|]. apply outcome_bind_ok in Hc as (dc & -> & Hc).
  destruct (negb _) eqn:Hc' in Hc; [done|]. to_prop. simpl.
  rewrite (proj2 (Z.eqb_eq (pd_normalized_format_version pinned) 1)) by done.
  rewrite (proj2 (Z.eqb_eq (def_format_version _) _)) by done. simpl. subst.
  by rewrite !bool_decide_eq_true_2.
Qed.

(** The parts of the state the invariant reads: fewer runs and keys are fine. *)
Lemma published_wf_weaken s s' :
  published_wf s → published_catalogs s' = published_catalogs s → published_definitions s' = published_definitions s →
  (∀ run r, runs s' !! run = Some r → is_Some (rs_published r) →
     ∃ r0, runs s !! run = Some r0 ∧ run_pin r0 = run_pin r) →
  (∀ w keys k record, (w, keys) ∈ start_keys s' → (k, record) ∈ keys →
     is_Some (runs s' !! sr_run record) ∨ is_Some (terminal_summaries s' !! sr_run record)) →
  published_wf s'.
Proof.
  intros [Hc Ha Hd Hr _] Ec Ed Hruns Hstarts. split; rewrite ?Ec, ?Ed; try done.
  intros run r pin Hrun Hpin. destruct (Hruns _ _ Hrun) as (r0 & Hr0 & [= Edef Ecat Epin]); [by rewrite Hpin|].
  rewrite <-Edef, <-Ecat. eapply Hr; [done|]. congruence.
Qed.

Lemma published_wf_frame s s' :
  published_wf s → published_catalogs s' = published_catalogs s → published_definitions s' = published_definitions s →
  start_keys s' = start_keys s → terminal_summaries s' = terminal_summaries s →
  dom (runs s) ⊆ dom (runs s') →
  (∀ run r, runs s' !! run = Some r → is_Some (rs_published r) →
     ∃ r0, runs s !! run = Some r0 ∧ run_pin r0 = run_pin r) →
  published_wf s'.
Proof.
  intros Hwf Ec Ed Ek Et Hdom Hruns. eapply published_wf_weaken; [done..|].
  intros w keys k record. rewrite Ek. intros Hw Hk. rewrite Et, <-elem_of_dom.
  destruct (pw_starts _ Hwf _ _ _ _ Hw Hk) as [Hin%elem_of_dom|?]; [left; set_solver|by right].
Qed.

Lemma commit_published s c actor evs s' :
  published_wf s → commit_execution s c actor = Ok (evs, s') → published_wf s'.
Proof. intros Hwf (? & ? & ? & _ & ? & ? & ?)%commit_publications. by eapply published_wf_frame. Qed.

Lemma publications_published s s' : published_wf s → publications s' = publications s → published_wf s'.
Proof.
  intros Hwf [= Hc Hd Hk _ Ht Hpins]. eapply published_wf_frame; try done.
  - assert (dom (run_pin <$> runs s') = dom (run_pin <$> runs s)) as Hdom by (by rewrite Hpins).
    rewrite !dom_fmap_L in Hdom. by rewrite Hdom.
  - intros run r Hr _. assert ((run_pin <$> runs s') !! run = Some (run_pin r)) as Hr' by (by rewrite lookup_fmap, Hr).
    rewrite Hpins, lookup_fmap in Hr'. apply fmap_Some in Hr' as (r0 & ? & ?). eauto.
Qed.

(** A start pins a sound definition, so the run it admits is sound. *)
Lemma pinned_for_sound s w v pinned catalog :
  published_wf s → pinned_for s w v = Ok (pinned, catalog) →
  validate_definition (pd_definition pinned) (pc_catalog catalog) = Ok tt ∧
  pinned_verify (pin_for pinned catalog) (pd_definition pinned) (pc_catalog catalog) = Ok tt.
Proof.
  intros Hwf. unfold pinned_for. intros (versions & Hv%ok_or_ok & Hp)%outcome_bind_ok.
  apply outcome_bind_ok in Hp as (p & Hp%ok_or_ok & Ha). apply outcome_bind_ok in Ha as ([] & Hver & Ha).
  apply outcome_bind_ok in Ha as (cat & Hcat%ok_or_ok & Ha). apply outcome_bind_ok in Ha as ([] & Hcv & [= <- <-]).
  assert (∃ v', (v', p) ∈ versions) as [v' Hin].
  { destruct v; [by eexists; apply bt_get_pair|]. apply fmap_Some in Hp as ([v' p'] & Hl & ->).
    exists v'. by apply last_Some_elem_of. }
  apply bt_get_pair in Hv. destruct (pw_definitions _ Hwf _ _ _ _ Hv Hin) as (_ & _ & _ & c & Hc & Hval).
  rewrite Hcat in Hc. injection Hc as ->. split; [done|]. by apply pin_for_verifies.
Qed.

Lemma provisional_published s key pinned catalog :
  let run := (published_start_ids key).1.1 in
  published_wf s → validate_definition (pd_definition pinned) (pc_catalog catalog) = Ok tt →
  pinned_verify (pin_for pinned catalog) (pd_definition pinned) (pc_catalog catalog) = Ok tt →
  published_wf (provisional s key pinned catalog).
Proof.
  intros run [Hc Ha Hd Hr Hs] Hval Hpin. split; try done.
  - intros run' r pin. simpl. rewrite lookup_insert. case_decide; [|by apply Hr].
    intros [= <-] [= <-]. done.
  - intros w keys k record Hw Hk. simpl. destruct (Hs _ _ _ _ Hw Hk) as [Hin|?]; [left|by right].
    rewrite lookup_insert. by case_decide.
Qed.

Lemma apply_catalog_published s v c d range s' :
  published_wf s → apply_catalog s v c = Ok (d, range, s') → published_wf s'.
Proof.
  intros Hwf (digest & _ & _ & _ & [[-> _]|(Hnone & Hagree & Hver & ->)])%apply_catalog_ok; [done|].
  destruct Hwf as [Hc Ha Hd Hr Hs]. split; try done; simpl.
  - intros v' p. rewrite bt_get_insert_Z. case_decide; [by intros [= <-]|by apply Hc].
  - intros v1 p1 v2 p2. rewrite !bt_get_insert_Z. repeat case_decide; subst.
    + intros [= <-] [= <-]. split_and!; intros k x y; congruence.
    + intros [= <-] ?. by eapply Hagree.
    + intros ? [= <-]. symmetry. by eapply Hagree.
    + by apply Ha.
  - intros id versions v' d' Hin Hd'. destruct (Hd _ _ _ _ Hin Hd') as (? & ? & ? & p & Hp & ?).
    split_and!; try done. exists p. rewrite bt_get_insert_Z. case_decide; [congruence|done].
Qed.

Lemma apply_definition_published s definition cv d range s' :
  published_wf s → apply_definition s definition cv = Ok (d, range, s') → published_wf s'.
Proof.
  intros Hwf (p & Hp & _ & _ & Hver & Hval & [[-> _]|(Hnone & ->)])%apply_definition_ok; [done|].
  destruct Hwf as [Hc Ha Hd Hr Hs]. split; try done; simpl.
  intros id versions v' d' [[= -> ->]|Hin]%bt_insert_elem Hd'; [|by eapply Hd].
  apply bt_insert_elem in Hd' as [[= -> ->]|Hd']; [by eauto 10|].
  destruct (bt_get (def_id definition) (published_definitions s)) as [old|] eqn:Hold; [|set_solver].
  apply bt_get_pair in Hold. by eapply Hd.
Qed.

Lemma apply_start_published s c key w v k input d range s' :
  published_wf s → apply_start s c key w v k input = Ok (d, range, s') → published_wf s'.
Proof.
  intros Hwf (dg & _ & [(e & _ & -> & _)|(Hnone & pinned & catalog & range1 & s1 & Hpin & Hrun & _ & _ & Hs & _ & _ & ->)])%apply_start_ok;
    [done|]. destruct (pinned_for_sound _ _ _ _ _ Hwf Hpin) as [Hval Hver].
  apply start_pinned_publications in Hs. pose proof (provisional_published _ key _ _ Hwf Hval Hver) as Hwf0.
  pose proof (publications_published _ _ Hwf0 Hs) as Hwf1.
  assert (is_Some (runs s1 !! (published_start_ids key).1.1)) as Hin.
  { injection Hs as _ _ _ _ _ Hpins. apply elem_of_dom. rewrite <-(dom_fmap_L run_pin), Hpins, dom_fmap_L.
    simpl. set_solver. }
  eapply published_wf_weaken; [exact Hwf1|done|done|by eauto|].
  intros w' keys k' record Hw Hk. unfold insert_start_key in Hw. simpl in Hw.
  apply bt_insert_elem in Hw as [[= -> ->]|Hw]; [|by eapply (pw_starts s1)].
  apply bt_insert_elem in Hk as [[= -> ->]|Hk]; [by left|].
  destruct (bt_get w (start_keys s1)) as [old|] eqn:Hold; [|set_solver].
  apply bt_get_pair in Hold. by eapply (pw_starts s1).
Qed.

Lemma applied_published s c key op r digest s' :
  published_wf s → applied s c key op r digest s' → published_wf s'.
Proof.
  intros Hwf. destruct 1 as [|code details|d range s1 _ Hop _]; [done|by eapply published_wf_frame; eauto|].
  assert (published_wf s1) as Hwf1; [|by eapply published_wf_frame; eauto].
  destruct op; simpl in Hop; [by eapply apply_catalog_published|by eapply apply_definition_published|
    by eapply apply_start_published].
Qed.

(** ** Retention *)
Lemma foldl_keeps {A B C} (g : B → C) (f : B → A → B) l acc :
  (∀ b x, g (f b x) = g b) → g (foldl f acc l) = g acc.
Proof. intros Hf. revert acc. induction l as [|x l IH]; simpl; intros acc; [done|]. by rewrite IH. Qed.

Lemma foldl_inv {A B} (I : B → Prop) (f : B → A → B) l acc :
  (∀ b x, I b → I (f b x)) → I acc → I (foldl f acc l).
Proof. intros Hf. revert acc. induction l as [|x l IH]; simpl; intros acc Hacc; eauto. Qed.

Lemma drop_input_publications id t acc key acc' :
  drop_input id t acc key = Ok acc' → publications acc'.2 = publications acc.2.
Proof.
  unfold drop_input. destruct acc as [evs s]. intros (e & _ & Ha)%outcome_bind_ok.
  destruct (_ && _); [done|]. destruct (_ ≫= _); [|by simplify_eq].
  apply outcome_bind_ok in Ha as (s1 & Hs1 & Ha). apply (apply_events_framed publications) in Hs1.
  apply outcome_bind_ok in Ha as (s2 & Hs2 & [= <-]). cbn [snd]. rewrite <-Hs1.
  unfold checkpoint_after_command in Hs2. by ok_inv.
Qed.

Lemma drop_run_published s id s' : published_wf s → drop_run s id = Ok s' → published_wf s'.
Proof.
  intros Hwf. unfold drop_run. intros (r & Hr & Hd)%outcome_bind_ok.
  apply outcome_bind_ok in Hd as (status & _ & Hd). simplify_eq.
  set (s1 := upd_activations _ _). set (s2 := foldl drop_activation _ _).
  assert (publications s2 = publications s1) as [= Hc Hdf Hk _ Ht Hruns] by (by apply foldl_keeps).
  assert (∀ run x, runs s2 !! run = Some x → ∃ x0, runs s !! run = Some x0 ∧ run_pin x0 = run_pin x) as Hpins.
  { intros run x Hx. assert ((run_pin <$> runs s2) !! run = Some (run_pin x)) as Hx' by (by rewrite lookup_fmap, Hx).
    rewrite Hruns, lookup_fmap in Hx'. subst s1. simpl in Hx'.
    apply fmap_Some in Hx' as (x0 & [_ Hx0]%lookup_delete_Some & ?). eauto. }
  assert (dom (runs s2) = dom (runs s) ∖ {[id]}) as Hdom.
  { rewrite <-(dom_fmap_L run_pin), Hruns, dom_fmap_L. subst s1. simpl. by rewrite dom_delete_L. }
  eapply published_wf_weaken; [exact Hwf|done|done|by intros; apply Hpins|].
  intros w keys k record Hw Hkk. change (start_keys s2) with (publications s2).1.1.1.2 in Hw.
  simpl in Hw. rewrite Hk in Hw. simpl.
  rewrite Ht. subst s1. simpl. rewrite lookup_insert. case_decide as Heq; [by right|].
  destruct (pw_starts _ Hwf _ _ _ _ Hw Hkk) as [Hin%elem_of_dom|?]; [left|by right].
  apply elem_of_dom. rewrite Hdom. set_solver.
Qed.

Lemma drop_summary_published s id : published_wf s → published_wf (drop_summary s id).
Proof.
  intros Hwf. eapply published_wf_weaken; [exact Hwf|done|done|by eauto|].
  intros w keys k record Hw Hk. unfold drop_summary in *. simpl in *.
  apply list_elem_of_fmap in Hw as ([w' keys'] & [= -> ->] & Hw).
  apply elem_of_filter_b in Hk as [Hne Hk]. simpl in Hne. to_prop.
  destruct (pw_starts _ Hwf _ _ _ _ Hw Hk) as [?|?]; [by left|right]. by rewrite lookup_delete_ne.
Qed.

Lemma commit_retention_published s c limit evs s' :
  published_wf s → commit_retention s c limit = Ok (evs, s') → published_wf s'.
Proof.
  unfold commit_retention. intros Hwf. destruct (_ || _); [done|]. intros (_ & _ & Hc)%outcome_bind_ok.
  destruct (commands s !! cmd_id c); [by simplify_eq|].
  apply outcome_bind_ok in Hc as (_ & _ & Hc). apply outcome_bind_ok in Hc as ([evs1 s1] & Hp & Hc). simplify_eq.
  assert (published_wf s1); [|by eapply published_wf_frame; eauto]. revert Hp. unfold prune.
  intros ([expired s2] & Hs2 & Hp)%outcome_bind_ok. apply outcome_bind_ok in Hp as (s3 & Hs3 & Hp). simplify_eq.
  apply foldl_inv; [intros; by apply drop_summary_published|].
  eapply outcome_fold_inv; [intros; by eapply drop_run_published| |exact Hs3].
  apply (outcome_fold_keeps (λ acc : events * State, publications acc.2)) in Hs2;
    [|by intros; eapply drop_input_publications]. simpl in Hs2.
  eapply publications_published; [|exact Hs2]. apply foldl_inv.
  - intros s4 id Hs4. by eapply published_wf_frame; eauto.
  - by eapply published_wf_frame; eauto.
Qed.

(** ** A published run keeps what it is pinned to *)

(** The definition and the catalog a run executes are retained under the versions
    the definition names, and the pin holds their digests. *)
Definition pin_retained s (r : RunState) (pin : PinnedPublication) : Prop :=
  ∃ d p, find_definition s (def_id (rs_definition r)) (def_version (rs_definition r)) = Some d ∧
    pd_definition d = rs_definition r ∧
    bt_get (pd_catalog_version d) (published_catalogs s) = Some p ∧ pc_catalog p = rs_catalog r ∧ pin = pin_for d p.

Record retained_wf s : Prop := mkRetainedWf {
  rw_found id versions v d :
    (id, versions) ∈ published_definitions s → (v, d) ∈ versions → find_definition s id v = Some d;
  rw_pins run r pin : runs s !! run = Some r → rs_published r = Some pin → pin_retained s r pin;
}.

(** Every published run of [s'] is one of [s]. *)
Definition published_runs_from s s' : Prop :=
  ∀ run r, runs s' !! run = Some r → is_Some (rs_published r) → ∃ r0, runs s !! run = Some r0 ∧ run_pin r0 = run_pin r.

#[export] Instance published_runs_from_preorder : PreOrder published_runs_from.
Proof.
  split; [intros s run r; by eauto|]. intros s1 s2 s3 H12 H23 run r Hr Hp.
  destruct (H23 _ _ Hr Hp) as (r2 & Hr2 & Heq). pose proof Heq as [= _ _ Epub].
  destruct (H12 _ _ Hr2) as (r1 & ? & ?); [by rewrite Epub|]. exists r1. split; [done|congruence].
Qed.

Lemma same_runs_from s s' : runs s' = runs s → published_runs_from s s'.
Proof. intros Heq run r. rewrite Heq. eauto. Qed.
#[local] Hint Extern 1 (published_runs_from _ _) => (by apply same_runs_from) : core.

Lemma pin_retained_grows s s' r0 r pin :
  published_grows s s' → run_pin r0 = run_pin r → pin_retained s r0 pin → pin_retained s' r pin.
Proof.
  intros [Hc Hd _] [= Edef Ecat _] (d & p & Hf & Hdef & Hp & Hcat & Hpin). exists d, p.
  rewrite <-Edef, <-Ecat. eauto 10.
Qed.

Lemma retained_pins_grow s s' :
  retained_wf s → published_grows s s' → published_runs_from s s' →
  ∀ run r pin, runs s' !! run = Some r → rs_published r = Some pin → pin_retained s' r pin.
Proof.
  intros Hwf Hgrow Hfrom run r pin Hr Hp. destruct (Hfrom _ _ Hr) as (r0 & Hr0 & Heq); [by rewrite Hp|].
  eapply pin_retained_grows; [exact Hgrow|exact Heq|]. eapply rw_pins; [exact Hwf|exact Hr0|].
  injection Heq as _ _ Epub. congruence.
Qed.

(** Steps that publish nothing. *)
Lemma retained_wf_frame s s' :
  retained_wf s → published_catalogs s' = published_catalogs s → published_definitions s' = published_definitions s →
  published_runs_from s s' → retained_wf s'.
Proof.
  intros Hwf Ec Ed Hfrom.
  assert (∀ id v, find_definition s' id v = find_definition s id v) as Hfind by (intros; unfold find_definition; by rewrite Ed).
  split.
  - rewrite Ed. intros id versions v d. rewrite Hfind. apply (rw_found _ Hwf).
  - intros run r pin Hr Hp. destruct (Hfrom _ _ Hr) as (r0 & Hr0 & Heq); [by rewrite Hp|].
    pose proof Heq as [= Edef Ecat Epub]. destruct (rw_pins _ Hwf _ _ pin Hr0) as (d & p & ?); [congruence|].
    exists d, p. by rewrite Hfind, Ec, <-Edef, <-Ecat.
Qed.

Lemma publications_runs_from s s' : publications s' = publications s → published_runs_from s s'.
Proof.
  intros [= _ _ _ _ _ Hpins] run r Hr _.
  assert ((run_pin <$> runs s') !! run = Some (run_pin r)) as Hr' by (by rewrite lookup_fmap, Hr).
  rewrite Hpins, lookup_fmap in Hr'. apply fmap_Some in Hr' as (r0 & ? & ?). eauto.
Qed.

Lemma publications_retained s s' : retained_wf s → publications s' = publications s → retained_wf s'.
Proof.
  intros Hwf Heq. pose proof Heq as [= Ec Ed _ _ _ _]. eapply retained_wf_frame; [done..|]. by apply publications_runs_from.
Qed.

Lemma commit_retained s c actor evs s' : retained_wf s → commit_execution s c actor = Ok (evs, s') → retained_wf s'.
Proof. intros Hwf (? & ? & _ & _ & _ & _ & ?)%commit_publications. by eapply retained_wf_frame. Qed.

(** What a start is given is retained under the versions its pin names. *)
Lemma pinned_for_retained s w v pinned catalog :
  published_wf s → retained_wf s → pinned_for s w v = Ok (pinned, catalog) →
  find_definition s (def_id (pd_definition pinned)) (def_version (pd_definition pinned)) = Some pinned ∧
  bt_get (pd_catalog_version pinned) (published_catalogs s) = Some catalog.
Proof.
  intros Hp Hwf. unfold pinned_for. intros (versions & Hv%ok_or_ok%bt_get_pair & Hfor)%outcome_bind_ok.
  apply outcome_bind_ok in Hfor as (p & Hpin%ok_or_ok & Ha). apply outcome_bind_ok in Ha as ([] & _ & Ha).
  apply outcome_bind_ok in Ha as (cat & Hcat%ok_or_ok & Ha). apply outcome_bind_ok in Ha as ([] & _ & [= <- <-]).
  split; [|done]. assert (∃ v', (v', p) ∈ versions) as [v' Hin].
  { destruct v; [by eexists; apply bt_get_pair|]. apply fmap_Some in Hpin as ([v' p'] & Hl & ->).
    exists v'. by apply last_Some_elem_of. }
  destruct (pw_definitions _ Hp _ _ _ _ Hv Hin) as (-> & -> & _). by eapply rw_found.
Qed.

Lemma provisional_retained s key pinned catalog :
  retained_wf s →
  find_definition s (def_id (pd_definition pinned)) (def_version (pd_definition pinned)) = Some pinned →
  bt_get (pd_catalog_version pinned) (published_catalogs s) = Some catalog →
  retained_wf (provisional s key pinned catalog).
Proof.
  intros Hwf Hd Hc. split; [apply (rw_found _ Hwf)|]. intros run r pin. simpl. rewrite lookup_insert.
  case_decide; [|by apply (rw_pins _ Hwf)]. intros [= <-] [= <-]. by exists pinned, catalog.
Qed.

Lemma apply_operation_retained s c key op d range s' :
  published_wf s → retained_wf s → apply_operation s c key op = Ok (d, range, s') → retained_wf s'.
Proof.
  intros Hp Hwf Ha. pose proof (apply_operation_grows _ _ _ _ _ _ _ Ha) as Hgrow.
  destruct op as [v cat|definition cv|w v k input]; simpl in Ha.
  - apply apply_catalog_ok in Ha as (? & _ & _ & _ & [[-> _]|(_ & _ & _ & ->)]); [done|].
    split; [apply (rw_found _ Hwf)|]. apply (retained_pins_grow s); auto.
  - apply apply_definition_ok in Ha as (p & _ & _ & _ & _ & _ & [[-> _]|(Hnone & ->)]); [done|].
    split; [|apply (retained_pins_grow s); auto]. simpl. intros id versions v' d' Hin Hd'.
    rewrite find_insert_definition. apply bt_insert_elem in Hin as [[= -> ->]|Hin].
    + apply bt_insert_elem in Hd' as [[= -> ->]|Hd']; [by rewrite decide_True|].
      assert (find_definition s (def_id definition) v' = Some d') as Hf.
      { destruct (bt_get (def_id definition) (published_definitions s)) as [old|] eqn:Hold; [|set_solver].
        apply bt_get_pair in Hold. by eapply rw_found. }
      rewrite decide_False; [done|]. intros [_ <-]. congruence.
    + pose proof (rw_found _ Hwf _ _ _ _ Hin Hd') as Hf. rewrite decide_False; [done|]. intros [<- <-]. congruence.
  - apply apply_start_ok in Ha as (dg & _ & [(e & _ & -> & _)|
      (_ & pinned & catalog & range1 & s1 & Hpin & _ & _ & _ & Hs & _ & _ & ->)]); [done|].
    destruct (pinned_for_retained _ _ _ _ _ Hp Hwf Hpin) as [Hd Hc].
    apply start_pinned_publications in Hs.
    assert (retained_wf s1) as Hwf1 by (eapply publications_retained; [by apply provisional_retained|exact Hs]).
    eapply retained_wf_frame; [exact Hwf1|done|done|auto].
Qed.

Lemma applied_retained s c key op r digest s' :
  published_wf s → retained_wf s → applied s c key op r digest s' → retained_wf s'.
Proof.
  intros Hp Hwf [| |d range s1 _ Hop _]; [done|eapply retained_wf_frame; eauto|].
  eapply retained_wf_frame; [by eapply apply_operation_retained|done|done|auto].
Qed.

Lemma drop_run_from s id s' :
  drop_run s id = Ok s' →
  published_catalogs s' = published_catalogs s ∧ published_definitions s' = published_definitions s ∧ published_runs_from s s'.
Proof.
  unfold drop_run. intros (r & Hr & Hd)%outcome_bind_ok. apply outcome_bind_ok in Hd as (status & _ & Hd). simplify_eq.
  set (s1 := upd_activations _ _). set (s2 := foldl drop_activation _ _).
  assert (publications s2 = publications s1) as Heq by (by apply foldl_keeps).
  pose proof Heq as [= Hc Hdf _ _ _ _]. split_and!; [done..|].
  transitivity s2; [|intros run x Hx _; by exists x]. transitivity s1; [|by apply publications_runs_from].
  intros run x Hx _. subst s1. simpl in Hx. apply lookup_delete_Some in Hx as [_ Hx]. eauto.
Qed.

Lemma drop_run_retained s id s' : retained_wf s → drop_run s id = Ok s' → retained_wf s'.
Proof. intros Hwf (? & ? & ?)%drop_run_from. by eapply retained_wf_frame. Qed.

Lemma commit_retention_retained s c limit evs s' :
  retained_wf s → commit_retention s c limit = Ok (evs, s') → retained_wf s'.
Proof.
  unfold commit_retention. intros Hwf. destruct (_ || _); [done|]. intros (_ & _ & Hc)%outcome_bind_ok.
  destruct (commands s !! cmd_id c); [by simplify_eq|].
  apply outcome_bind_ok in Hc as (_ & _ & Hc). apply outcome_bind_ok in Hc as ([evs1 s1] & Hp & Hc). simplify_eq.
  assert (retained_wf s1); [|eapply retained_wf_frame; eauto]. revert Hp. unfold prune.
  intros ([expired s2] & Hs2 & Hp)%outcome_bind_ok. apply outcome_bind_ok in Hp as (s3 & Hs3 & Hp). simplify_eq.
  apply foldl_inv; [intros; eapply retained_wf_frame; eauto|].
  eapply outcome_fold_inv; [intros; by eapply drop_run_retained| |exact Hs3].
  apply (outcome_fold_keeps (λ acc : events * State, publications acc.2)) in Hs2;
    [|by intros; eapply drop_input_publications]. simpl in Hs2.
  eapply publications_retained; [|exact Hs2]. apply foldl_inv; [intros; eapply retained_wf_frame; eauto|].
  eapply retained_wf_frame; eauto.
Qed.

(** ** The engine's invariants under a start *)
Definition start_ids_unused s (key : CommandKey) : Prop :=
  commands s !! (published_start_ids key).1.2 = None.

Lemma decide_new s c evs :
  decide s c = Ok evs → commands s !! cmd_id c = None →
  ∃ ids', decide_body s c (idgen_new (cmd_id c)) = Ok (evs, ids').
Proof.
  unfold decide. intros (_ & _ & Hd)%outcome_bind_ok Hnone. rewrite Hnone in Hd.
  apply outcome_bind_ok in Hd as ([evs' ids'] & Hd & [= <-]). eauto.
Qed.

Lemma apply_progress_ok s id run time evs s' :
  engine_wf s → history_wf s → apply_command s (mkCommand id (Cmd_Progress run) time) = Ok (evs, s') →
  engine_wf s' ∧ history_wf s'.
Proof.
  intros Hwf Hh. unfold apply_command. simpl. intros ([[c ext] d] & Hp & Ha)%outcome_bind_ok.
  apply prepare_command_ok in Hp as (id' & Hid & -> & -> & _). simpl in Hid. injection Hid as <- <-.
  destruct (commands s !! id) as [evs0|] eqn:Hnone.
  - unfold apply_command_with_actor in Ha. apply outcome_bind_ok in Ha as (wd & _ & Ha). simpl in Ha.
    rewrite Hnone in Ha. apply outcome_bind_ok in Ha as (_ & _ & [= <- <-]). done.
  - split.
    + eapply apply_new_wf_guarded; [|done| |exact Ha]; [|done]. intros *. apply decide_progress_guarded.
    + apply apply_new in Ha as (_ & _ & s2 & _ & _ & Happ & _ & _ & _ & Hl); [|done].
      apply apply_events_history in Happ; [|by apply (history_wf_logs s)]. by apply (history_wf_logs s2).
Qed.

Lemma start_pinned_engine s c key pinned catalog input range s' :
  sequences_in_range s → runs s !! (published_start_ids key).1.1 = None → start_ids_unused s key →
  engine_wf s → history_wf s →
  start_pinned s c key pinned catalog input = Ok (range, s') → engine_wf s' ∧ history_wf s'.
Proof.
  intros Hseq Hrun Hunused Hwf Hh Hs%start_pinned_ok. unfold provisional, start_ids_unused in *.
  destruct (published_start_ids key) as [[run start_id] progress_id]. simpl in *.
  destruct Hs as (_ & evs & s1 & evs2 & Hd & Hs1 & Hs2). set (s0 := upd_runs _ _) in *.
  apply decide_new in Hd as (ids' & Hd); [|done].
  assert (sequences_in_range s0) as Hseq0 by (by apply map_Forall_insert_2).
  destruct (decide_body_guarded _ _ _ _ _ Hseq0 Hd) as [Hg Ha].
  eapply apply_progress_ok; [| |exact Hs2].
  - eapply apply_events_wf; [by apply provisional_run_wf|done..|exact Hs1].
  - eapply apply_events_history; [exact Hs1|]. by apply (history_wf_logs s).
Qed.

(** What the invariants read of the state survives the bookkeeping of publications. *)
Lemma engine_frame s s' :
  engine_wf s ∧ history_wf s → projected s' = projected s → receipts s' = receipts s → logs s' = logs s →
  engine_wf s' ∧ history_wf s'.
Proof.
  intros [Hwf Hh] Hp Hr Hl. split; [|by eapply history_wf_logs].
  eapply engine_wf_frame; [done| |done]. apply receipts_eq in Hr as (Hc & _ & _ & _ & Hw & _).
  intros id. rewrite Hc, Hw. apply (ew_receipts _ Hwf).
Qed.

Lemma applied_engine s c key op r digest s' :
  sequences_in_range s → start_ids_unused s key → engine_wf s → history_wf s →
  applied s c key op r digest s' → engine_wf s' ∧ history_wf s'.
Proof.
  intros Hseq Hunused Hwf Hh Ha. destruct Ha as [| |d range s1 _ Hop _]; [done|by eapply engine_frame|].
  enough (engine_wf s1 ∧ history_wf s1) by (by eapply engine_frame).
  destruct op as [v cat|definition cv|w v k input]; simpl in Hop.
  - apply apply_catalog_ok in Hop as (? & _ & _ & _ & [[-> _]|(_ & _ & _ & ->)]); [done|by eapply engine_frame].
  - apply apply_definition_ok in Hop as (? & _ & _ & _ & _ & _ & [[-> _]|(_ & ->)]); [done|by eapply engine_frame].
  - apply apply_start_ok in Hop as (? & _ & [(? & _ & -> & _)|
      (_ & pinned & catalog & range1 & s2 & _ & Hrun & _ & _ & Hs2 & _ & _ & ->)]); [done|].
    apply start_pinned_engine in Hs2; [|done..]. by eapply engine_frame.
Qed.
End PublishedFacts.
