(* ===== verification/ReplicaFacts.v ===== *)
(** * A replicated member stays consistent with what it committed *)
From stdpp Require Import base option gmap strings list.
From Stdlib Require Import ZArith Ascii Lia.
From S2P Require Import Prelude Value Ids Policy Catalog Ir Analysis Equality Domain Eval Evolve History Steps Command Publication FormatUpgrade Schedule Retention Replica AnalysisFacts EvolveFacts StepFacts ClaimFacts SignalFacts CommandFacts HistoryFacts FormatFacts PublicationFacts PublishedFacts.

Section ReplicaFacts.
Context `{Platform} `{CatalogSerde} `{Serde} `{OperationSerde}.
Implicit Types (s domain : State) (m : StoreManifest) (member : Member).

(** ** Domain commands leave the format policy and the cluster alone *)
Definition admin s := (format_policy s, format_receipts s, current_cluster_id s).

#[export] Instance admin_frame : StateFrame admin.
Proof.
  split.
  - intros s e s' Hev. by evolve_cases Hev.
  - unfold append_event. intros * Happ. ok_inv; by repeat case_match.
  - done.
  - intros * Hr. unfold record_terminal in Hr. by ok_inv.
  - intros * Hs. unfold record_receipt in Hs. apply outcome_bind_ok in Hs as (s0 & Hs0 & [= <-]).
    destruct actor; ok_inv; by destruct wd.
  - intros * Hc. unfold checkpoint_after_command in Hc. by ok_inv.
Qed.

Lemma commit_execution_admin s c actor evs s' : commit_execution s c actor = Ok (evs, s') → admin s' = admin s.
Proof.
  intros (id & d & sd & wd & _ & _ & _ & _ & [(_ & -> & _)|(_ & s1 & Ha & ->)])%commit_split; [done|].
  apply (apply_new_framed admin) in Ha. transitivity (admin s1); [by destruct sd|]. rewrite Ha.
  unfold provide_run. destruct (cmd_body c); try done. by case_bool_decide.
Qed.

Lemma drop_input_admin id t acc key acc' : drop_input id t acc key = Ok acc' → admin acc'.2 = admin acc.2.
Proof.
  unfold drop_input. destruct acc as [evs s]. intros (e & _ & Ha)%outcome_bind_ok.
  destruct (_ && _); [done|]. destruct (_ ≫= _); [|by injection Ha as <-].
  apply outcome_bind_ok in Ha as (s1 & Hs1 & Ha). apply outcome_bind_ok in Ha as (s2 & Hs2 & [= <-]). cbn [snd].
  apply (apply_events_framed admin) in Hs1. apply frame_checkpoint in Hs2. congruence.
Qed.

Lemma drop_run_admin s id s' : drop_run s id = Ok s' → admin s' = admin s.
Proof.
  unfold drop_run. intros (r & Hr & Hd)%outcome_bind_ok. apply outcome_bind_ok in Hd as (status & _ & [= <-]).
  set (s1 := foldl drop_activation _ _). assert (admin s1 = admin s) as Hs1; [|exact Hs1].
  unfold s1. by rewrite (foldl_keeps admin).
Qed.

Lemma commit_retention_admin s c limit evs s' : commit_retention s c limit = Ok (evs, s') → admin s' = admin s.
Proof.
  unfold commit_retention. destruct (_ || _); [done|]. intros (_ & _ & Hc)%outcome_bind_ok.
  destruct (commands s !! cmd_id c); [by injection Hc as <- <-|].
  apply outcome_bind_ok in Hc as (_ & _ & Hc). apply outcome_bind_ok in Hc as ([evs1 s1] & Hp & [= <- <-]).
  transitivity (admin s1); [done|]. revert Hp. unfold prune.
  intros ([expired s2] & Hs2 & Hp)%outcome_bind_ok. apply outcome_bind_ok in Hp as (s3 & Hs3 & [= <- <-]).
  rewrite (foldl_keeps admin) by done.
  apply (outcome_fold_keeps admin) in Hs3; [|intros ???; apply drop_run_admin].
  apply (outcome_fold_keeps (λ acc : events * State, admin acc.2)) in Hs2; [|intros ???; apply drop_input_admin].
  cbn [snd] in Hs2. rewrite Hs3, Hs2. by rewrite (foldl_keeps admin).
Qed.

Lemma start_pinned_admin s c key pinned catalog input range s' :
  start_pinned s c key pinned catalog input = Ok (range, s') → admin s' = admin s.
Proof.
  intros Hs%start_pinned_ok. destruct (published_start_ids key) as [[run start_id] progress_id].
  destruct Hs as (_ & evs & s1 & evs2 & _ & Hs1 & Hs2).
  apply (apply_events_framed admin) in Hs1. apply (apply_command_framed admin) in Hs2. by rewrite Hs2, Hs1.
Qed.

Lemma applied_admin s c key op r digest s' : applied s c key op r digest s' → admin s' = admin s.
Proof.
  destruct 1 as [| |d range s1 _ Hop _]; [done..|]. transitivity (admin s1); [done|].
  destruct op as [v cat|definition cv|w v k input]; simpl in Hop.
  - by apply apply_catalog_ok in Hop as (? & _ & _ & _ & [[-> _]|(_ & _ & _ & ->)]).
  - by apply apply_definition_ok in Hop as (? & _ & _ & _ & _ & _ & [[-> _]|(_ & ->)]).
  - apply apply_start_ok in Hop as (? & _ & [(? & _ & -> & _)|
      (_ & pinned & catalog & range1 & s2 & _ & _ & _ & _ & Hs2 & _ & _ & ->)]); [done|].
    by apply start_pinned_admin in Hs2.
Qed.

(** ** The manifest *)
Lemma manifest_validate_ok m :
  manifest_validate m = Ok tt →
  (sm_writer_format m = 4 ∨ sm_writer_format m = 5) ∧ (sm_reader_floor m = 4 ∨ sm_reader_floor m = 5) ∧
  sm_active_generation m ≠ 0 ∧
  (sm_writer_format m = 5 → sm_reader_floor m = 5) ∧
  sm_enabled_command_formats m = (if sm_reader_floor m =? 5 then [4; 5] else [4]) ∧
  sm_enabled_state_record_formats m =
    (if sm_reader_floor m =? 5 then [RECORD_FORMAT; RECORD_NEXT_FORMAT] else base_record_formats) ∧
  sm_enabled_domain_formats m = base_domain_formats ∧ sm_enabled_event_formats m = base_event_formats ∧
  sm_enabled_checkpoint_formats m = base_checkpoint_formats ∧
  ∀ id, sm_cluster_id m = Some id → is_ok (ClusterId.from_hex id) = true.
Proof.
  unfold manifest_validate, is_one_of. destruct (_ || _) eqn:Hg; [done|].
  match goal with |- (if ?b then _ else _) = _ → _ => destruct b eqn:Hc; [done|] end. intros _. to_prop. split_and!; try done.
  - rename select ((_ =? 4) = true ∨ (sm_writer_format m =? 5) = true) into Hw.
    destruct Hw as [Hw|Hw]; apply Z.eqb_eq in Hw; auto.
  - rename select ((_ =? 4) = true ∨ (sm_reader_floor m =? 5) = true) into Hw.
    destruct Hw as [Hw|Hw]; apply Z.eqb_eq in Hw; auto.
  - intros Hw%Z.eqb_eq. rename select (_ ∨ negb _ || negb (sm_reader_floor m =? 5) = false) into Hf.
    destruct Hf as [?|Hf]; [congruence|]. to_prop. done.
  - intros id Hid. rewrite Hid in Hc. to_prop. done.
Qed.

Lemma install_reader_ok m target m' :
  install_reader m target = Ok m' →
  manifest_validate m' = Ok tt ∧ sm_reader_floor m ≤ sm_reader_floor m' ∧
  sm_writer_format m' = sm_writer_format m ∧ sm_cluster_id m' = sm_cluster_id m ∧
  sm_member_id m' = sm_member_id m ∧ (target = NEXT_FORMAT → NEXT_FORMAT ≤ sm_reader_floor m').
Proof.
  unfold install_reader. destruct (_ || _); [done|]. intros ([] & Hv & [= <-])%outcome_bind_ok.
  destruct (_ && _) eqn:Hb.
  - to_prop. simpl. split_and!; try done; unfold NEXT_FORMAT in *; lia.
  - split_and!; try done. intros ->. to_prop. destruct Hb as [?|Hb]; [done|]. to_prop. done.
Qed.

Lemma activate_writer_ok m m' :
  activate_writer m = Ok m' →
  manifest_validate m' = Ok tt ∧ sm_reader_floor m' = sm_reader_floor m ∧ sm_writer_format m' = NEXT_FORMAT ∧
  sm_cluster_id m' = sm_cluster_id m ∧ sm_member_id m' = sm_member_id m.
Proof.
  unfold activate_writer. destruct (_ <? _); [done|]. by intros ([] & Hv & [= <-])%outcome_bind_ok.
Qed.

(** A valid manifest whose readers are installed can always activate. *)
Lemma activate_writer_total m :
  manifest_validate m = Ok tt → sm_reader_floor m = NEXT_FORMAT → is_ok (activate_writer m) = true.
Proof.
  intros Hv Hf. unfold activate_writer. rewrite Hf. simpl (NEXT_FORMAT <? NEXT_FORMAT). cbv iota.
  enough (manifest_validate (mkStoreManifest "graphrun.member-store/v5" NEXT_FORMAT NEXT_FORMAT
    (sm_active_generation m) (sm_cluster_id m) (sm_member_id m) (sm_domain_format m) RECORD_NEXT_FORMAT
    (sm_fragment_format m) (sm_artifact_ref_format m) (sm_event_format m) (sm_checkpoint_format m)
    (sm_result_format m) (sm_enabled_domain_formats m) (sm_enabled_event_formats m)
    (sm_enabled_checkpoint_formats m) (sm_enabled_command_formats m) (sm_enabled_state_record_formats m)) = Ok tt)
    as -> by done.
  unfold manifest_validate in *. destruct (_ || _) eqn:Hg; [done|].
  match type of Hv with (if ?b then _ else _) = _ => destruct b eqn:Hc; [done|] end.
  rewrite Hf in Hg. clear Hv. to_prop.
  match goal with |- (if ?b then _ else _) = _ => assert (b = false) as -> end.
  - cbn [sm_format sm_reader_floor sm_writer_format sm_active_generation sm_cluster_id sm_member_id sm_domain_format
      sm_state_record_format sm_fragment_format sm_artifact_ref_format sm_event_format sm_checkpoint_format
      sm_result_format sm_enabled_domain_formats sm_enabled_event_formats sm_enabled_checkpoint_formats
      sm_enabled_command_formats sm_enabled_state_record_formats].
    repeat (apply orb_false_iff; split); try done;
      first [by apply negb_false_iff, bool_decide_eq_true_2 | by apply Z.eqb_neq
            | by apply negb_false_iff].
  - cbn [sm_cluster_id sm_member_id]. by rewrite Hc.
Qed.

(** ** What an entry does to the domain state

    Every committed request is one of these steps. The identity a publication
    derives for a start is a digest of its key, so it is not in use yet. *)
Inductive live_step s : State → Prop :=
| step_none : live_step s s
| step_execution c actor evs s' : commit_execution s c actor = Ok (evs, s') → live_step s s'
| step_publication s0 c c' key op r digest s' :
    s0 = s ∨ s0 = upd_watermark (λ _, cmd_time (stamped s c)) s →
    start_ids_unused s key → applied s0 c' key op r digest s' → live_step s s'
| step_format c roster log_id principal receipt policy receipts :
    format_apply (format_policy s) (format_receipts s) c roster log_id principal (current_cluster_id s) =
      Ok (receipt, policy, receipts) →
    live_step s (upd_format_receipts (λ _, receipts) (upd_format_policy (λ _, policy) s)).

(** Retention is the one step that removes. *)
Inductive domain_step s s' : Prop :=
| step_live : live_step s s' → domain_step s s'
| step_retention c limit evs : commit_retention s c limit = Ok (evs, s') → domain_step s s'.

Lemma domain_step_none s : domain_step s s.
Proof. apply step_live, step_none. Qed.

(** All steps but the format commands leave the format policy alone. *)
Inductive plain_step s s' : Prop :=
| plain_step_intro : domain_step s s' → admin s' = admin s → plain_step s s'.

Lemma plain_none s : plain_step s s.
Proof. by split; [apply domain_step_none|]. Qed.

Lemma plain_execution s c actor evs s' : commit_execution s c actor = Ok (evs, s') → plain_step s s'.
Proof. intros Hc. split; [by eapply step_live, step_execution|by eapply commit_execution_admin]. Qed.

Lemma plain_retention s c limit evs s' : commit_retention s c limit = Ok (evs, s') → plain_step s s'.
Proof. intros Hc. split; [by eapply step_retention|by eapply commit_retention_admin]. Qed.

Lemma plain_publication s s0 c c' key op r digest s' :
  s0 = s ∨ s0 = upd_watermark (λ _, cmd_time (stamped s c)) s →
  start_ids_unused s key → applied s0 c' key op r digest s' → plain_step s s'.
Proof.
  intros Hs0 Hfresh Ha. split; [by eapply step_live, step_publication|]. apply applied_admin in Ha. rewrite Ha.
  by destruct Hs0 as [->| ->].
Qed.

Definition request_fresh s (c : Command) : Prop :=
  match cmd_body c with Cmd_Publication key _ => start_ids_unused s key | _ => True end.

(** The ways a request can end. *)
Lemma publication_receipt_ok s c key op r s' :
  publication_receipt s c key op = Ok (r, s') →
  ∃ s0 c0 digest, (s0 = s ∨ s0 = upd_watermark (λ _, cmd_time (stamped s c)) s) ∧
    applied s0 c0 key op r digest s'.
Proof.
  unfold publication_receipt.
  set (d0 := if first_submission s key then _ else (c, s)). destruct d0 as [c0 s0] eqn:Hd0.
  assert (s0 = s ∨ s0 = upd_watermark (λ _, cmd_time (stamped s c)) s) as Hs0.
  { subst d0. destruct (first_submission s key); injection Hd0 as <- <-; auto. }
  destruct (apply_replicated s0 c0 key op) as [[r1 s1]|e|w] eqn:Hr; [..|done].
  - intros [= -> ->]. apply apply_with_mode_ok in Hr as (digest & _ & _ & Ha). by exists s0, c0, digest.
  - intros ([r1 s1] & Ha & Hs)%outcome_bind_ok. unfold apply_publication in Ha. apply (proj1 (unwrap_result_ok _ _)) in Ha.
    destruct (is_ok _); [done|]. injection Hs as -> ->.
    apply apply_with_mode_ok in Ha as (digest & _ & _ & Ha). exists s, c0, digest. auto.
Qed.

Lemma commit_command_step s c evs s' :
  request_fresh s c → commit_command s c = Ok (evs, s') → plain_step s s'.
Proof.
  intros Hfresh. unfold commit_command, into_cause, request_fresh in *.
  intros ([c1 actor] & Hc1 & Hc)%outcome_bind_ok.
  assert (∀ key op, cmd_body c1 = Cmd_Publication key op → c1 = c) as Hpub.
  { intros key op Hb. destruct (cmd_body c) eqn:Hbody; try (by injection Hc1 as <- _).
    destruct (_ || _) eqn:Hg in Hc1; [done|]. injection Hc1 as <- _. simpl in Hb. rewrite Hb in Hg. by to_prop. }
  destruct (cmd_body c1) eqn:Hbody;
    try (apply outcome_bind_ok in Hc as ([evs1 s1] & Ha & Hc); injection Hc as _ <-;
         first [by eapply plain_execution | by eapply plain_retention]).
  pose proof (Hpub _ _ eq_refl) as ->. rewrite Hbody in Hfresh. unfold commit_publication in Hc.
  destruct (invalid_key _ _); [done|].
  set (d0 := if first_submission s key then _ else (c, s)) in Hc. destruct d0 as [c0 s0] eqn:Hd0.
  apply outcome_bind_ok in Hc as ([r s1] & Ha & [= _ <-]). unfold apply_publication in Ha.
  apply (proj1 (unwrap_result_ok _ _)), apply_with_mode_ok in Ha.
  destruct Ha as (digest & _ & _ & Ha). subst d0.
  destruct (first_submission s key); injection Hd0 as <- <-; (eapply (plain_publication _ _ c); [|done|exact Ha]; auto).
Qed.

Lemma apply_format_entry_ok domain roster log_id c a :
  apply_format_entry domain roster log_id c = Ok a →
  domain_step domain (ap_domain a) ∧
  if ap_format_applied a then fp_active_writer (format_policy (ap_domain a)) = NEXT_FORMAT
  else fp_active_writer (format_policy (ap_domain a)) = fp_active_writer (format_policy domain).
Proof.
  unfold apply_format_entry. destruct (format_apply _ _ _ _ _ _ _) as [[[receipt policy] receipts]|e|w] eqn:Hf; [..|done].
  - destruct (if fr_applied receipt then _ else _) as [err kind]. intros [= <-]. simpl.
    split; [by eapply step_live, step_format|]. destruct (_ && _) eqn:Happ; to_prop; [done|].
    apply format_apply_ok in Hf as (op & digest & _ & _ & _ & _ & [(_ & -> & _)|(_ & _ & _ & _ & _ & _ & _ & Hf)]); [done|].
    destruct (fr_applied receipt); [|by subst policy]. destruct Happ as [?|Happ]; [done|]. to_prop.
    apply attempt_format_ok in Hf as (_ & _ & _ & Hop). destruct op; [by destruct Hop as (_ & ? & _)|].
    by destruct Hop as (_ & _ & _ & ? & _).
  - intros [= <-]. by split; [apply domain_step_none|].
Qed.

Lemma apply_command_entry_ok domain c a :
  request_fresh domain c → apply_command_entry domain c = Ok a →
  plain_step domain (ap_domain a) ∧ ap_format_applied a = false.
Proof.
  unfold apply_command_entry. intros Hfresh Ha.
  destruct (commit_command _ _) as [[[evs|e|w] s1]|e|w] eqn:Hc; try done.
  - apply outcome_bind_ok in Ha as (id & _ & [= <-]). split; [|done]. by eapply commit_command_step.
  - injection Ha as <-. by split; [apply plain_none|].
  - injection Ha as <-. by split; [apply plain_none|].
Qed.

Lemma apply_publication_entry_ok domain c key op a :
  start_ids_unused domain key → apply_publication_entry domain c key op = Ok a →
  plain_step domain (ap_domain a) ∧ ap_format_applied a = false.
Proof.
  unfold apply_publication_entry. intros Hfresh Ha.
  destruct (invalid_key _ _); [injection Ha as <-; by split; [apply plain_none|]|].
  apply outcome_bind_ok in Ha as ([r s1] & Hr & Ha). apply outcome_bind_ok in Ha as ([[aff evs] id] & _ & Ha).
  assert (ap_domain a = s1 ∧ ap_format_applied a = false) as [-> ?]
    by (destruct (ensure_applied r); injection Ha as <-; done). split; [|done].
  apply publication_receipt_ok in Hr as (s0 & c0 & digest & Hs0 & Happ).
  eapply plain_publication; [|done|exact Happ]. exact Hs0.
Qed.

Lemma apply_request_step member log_id request a :
  let c := rq_command request in
  request_fresh (mb_domain member) c → apply_request member log_id request = Ok a →
  domain_step (mb_domain member) (ap_domain a) ∧
  ((plain_step (mb_domain member) (ap_domain a) ∧ ap_format_applied a = false) ∨
   apply_format_entry (mb_domain member) (mb_membership member) log_id c = Ok a).
Proof.
  intros c Hfresh. unfold apply_request. fold c. intros (gate & _ & Ha)%outcome_bind_ok.
  destruct gate as [refused|]; [injection Ha as <-; split; [apply domain_step_none|left; by split; [apply plain_none|]]|].
  assert (∀ P : Prop, plain_step (mb_domain member) (ap_domain a) ∧ ap_format_applied a = false →
    domain_step (mb_domain member) (ap_domain a) ∧
    ((plain_step (mb_domain member) (ap_domain a) ∧ ap_format_applied a = false) ∨ P)) as Hplain.
  { intros P Hp. split; [by destruct Hp as [[] _]|by left]. }
  destruct (inner_body (cmd_body c)) eqn:Hinner;
    try (split; [by apply apply_format_entry_ok in Ha as [? _]|by right]).
  all: destruct (cmd_body c) eqn:Hbody; try discriminate Hinner; apply Hplain.
  all: first
    [ apply apply_publication_entry_ok in Ha; [done|]; unfold request_fresh in Hfresh; by rewrite Hbody in Hfresh
    | by apply apply_command_entry_ok in Ha ].
Qed.

(** Only the entry of a format command activates a format. *)
Lemma publication_activates_nothing domain c key op a :
  apply_publication_entry domain c key op = Ok a → ap_format_applied a = false.
Proof.
  unfold apply_publication_entry. intros Ha. destruct (invalid_key _ _); [by injection Ha as <-|].
  apply outcome_bind_ok in Ha as ([r s1] & _ & Ha). apply outcome_bind_ok in Ha as ([[aff evs] id] & _ & Ha).
  by destruct (ensure_applied r); injection Ha as <-.
Qed.

Lemma command_activates_nothing domain c a : apply_command_entry domain c = Ok a → ap_format_applied a = false.
Proof.
  unfold apply_command_entry. intros Ha.
  destruct (commit_command _ _) as [[[evs|e|w] s1]|e|w]; try done; [|by injection Ha as <-..].
  by apply outcome_bind_ok in Ha as (id & _ & [= <-]).
Qed.

Lemma apply_request_activated member log_id request a :
  apply_request member log_id request = Ok a → ap_format_applied a = true →
  apply_format_entry (mb_domain member) (mb_membership member) log_id (rq_command request) = Ok a.
Proof.
  unfold apply_request. intros (gate & _ & Ha)%outcome_bind_ok Happ.
  destruct gate as [refused|]; [by injection Ha as <-|].
  destruct (inner_body _) eqn:Hinner; try done.
  all: destruct (cmd_body (rq_command request)) eqn:Hbody; try discriminate Hinner;
    first [apply publication_activates_nothing in Ha|apply command_activates_nothing in Ha]; congruence.
Qed.

(** ** A member *)
Record member_wf member : Prop := mkMemberWf {
  mw_manifest : manifest_validate (mb_manifest member) = Ok tt;
  mw_writer : sm_writer_format (mb_manifest member) = fp_active_writer (format_policy (mb_domain member));
  mw_cluster : sm_cluster_id (mb_manifest member) = Some (current_cluster_id (mb_domain member));
  mw_persisted : persisted_wf (mb_domain member);
}.

(** ** A publication entry is all or nothing *)
Lemma operation_applied s c key op d range s' :
  apply_operation s c key op = Ok (d, range, s') → ∃ run digest version, d = Disposition_Applied run digest version.
Proof.
  destruct op as [v cat|definition cv|w v k input]; simpl.
  - intros (? & -> & _)%apply_catalog_ok. eauto.
  - intros (? & _ & -> & _)%apply_definition_ok. eauto.
  - intros (? & _ & [(? & _ & _ & _ & -> & _)|(_ & ? & ? & ? & ? & _ & _ & _ & _ & _ & _ & -> & _)])%apply_start_ok; eauto.
Qed.

Lemma apply_replicated_ok s c key op r s' :
  first_submission s key = true → apply_replicated s c key op = Ok (r, s') →
  ∃ d range s1, apply_operation s c key op = Ok (d, range, s1) ∧ cr_outcome r = d ∧ cr_format r = RESULT_FORMAT ∧
    s' = upd_command_results (str_insert (storage_key key) r) s1.
Proof.
  unfold first_submission, bt_contains, apply_replicated, apply_with_mode. intros Hnew.
  intros ([digest bytes] & _ & Ha)%outcome_bind_ok. to_prop. apply eq_None_not_Some in Hnew. rewrite Hnew in Ha.
  destruct (_ ≫= _) as [[[d range] s1]|e|w] eqn:Hres; [|done|done]. injection Ha as <- <-.
  apply outcome_bind_ok in Hres as (b & _ & Hres). destruct (_ <? _); [done|]. by exists d, range, s1.
Qed.

Lemma apply_publication_rejected s c key op r s' :
  first_submission s key = true → apply_publication s c key op = Ok (r, s') →
  is_ok (ensure_applied r) = false →
  ∃ code details, cr_outcome r = Disposition_Rejected code details ∧ cr_format r = RESULT_FORMAT ∧
    s' = upd_command_results (str_insert (storage_key key) r) s.
Proof.
  unfold first_submission, bt_contains, apply_publication. rewrite unwrap_result_ok. intros Hnew Ha Hrej.
  to_prop. apply eq_None_not_Some in Hnew.
  apply apply_with_mode_ok in Ha as (digest & _ & _ & [|code details _ ->|d range s1 _ Hop ->]); [congruence|by eauto|].
  exfalso. apply operation_applied in Hop as (run & dg & version & ->). simpl in Hrej. discriminate Hrej.
Qed.

(** The outcome of the entry of a first submission. *)
Definition submitted stored c key op (a : Applied) : Prop :=
  match rp_error (ap_reply a) with
  | None => ∃ r d range s1,
      apply_operation (upd_watermark (λ _, cmd_time (stamped stored c)) stored) (stamped stored c) key op = Ok (d, range, s1) ∧
      rp_command_result (ap_reply a) = Some r ∧ cr_outcome r = d ∧
      ap_domain a = upd_command_results (str_insert (storage_key key) r) s1
  | Some _ =>
      ap_events a = [] ∧ ap_affected a = [] ∧
      (ap_domain a = stored ∨ ∃ r code details, rp_command_result (ap_reply a) = Some r ∧
         cr_outcome r = Disposition_Rejected code details ∧
         ap_domain a = upd_command_results (str_insert (storage_key key) r) stored)
  end.

(** The outcome of the entry of a resubmission: the recorded receipt, or a conflict. *)
Definition resubmitted stored (c : Command) key op previous (a : Applied) : Prop :=
  ap_domain a = stored ∧ ap_events a = [] ∧ ap_affected a = [] ∧
  (invalid_key key (cmd_id c) = false → is_Some (rp_command_result (ap_reply a))) ∧
  ∀ r, rp_command_result (ap_reply a) = Some r → ∃ digest bytes, request_identity op = Ok (digest, bytes) ∧
    r = if bool_decide (cr_request_digest previous = digest) && bool_decide (cr_format previous = RESULT_FORMAT)
        then previous
        else command_result c key op digest
               (Disposition_Rejected "already_exists" "command ID reused with a different request") None.

Lemma entry_submitted stored c key op a :
  first_submission stored key = true → apply_publication_entry stored c key op = Ok a → submitted stored c key op a.
Proof.
  unfold submitted.
  unfold apply_publication_entry. intros Hnew Ha. destruct (invalid_key _ _); [injection Ha as <-; simpl; auto|].
  apply outcome_bind_ok in Ha as ([r s1] & Hr & Ha). apply outcome_bind_ok in Ha as ([[aff evs] id] & Haff & Ha).
  unfold publication_receipt in Hr. rewrite Hnew in Hr.
  destruct (apply_replicated _ _ _ _) as [[r1 s2]|e|w] eqn:Hrep; [..|done].
  - injection Hr as -> ->. apply apply_replicated_ok in Hrep as (d & range & s2 & Hop & Hd & Hf & ->); [|done].
    pose proof (operation_applied _ _ _ _ _ _ _ Hop) as (run & dg & version & ->).
    unfold ensure_applied, ensure_format in Ha. rewrite Hf, bool_decide_eq_true_2, Hd in Ha by done. simpl in Ha.
    injection Ha as <-. simpl. by eexists r, _, range, s2.
  - apply outcome_bind_ok in Hr as ([r1 s2] & Hpub & Hr). destruct (is_ok _) eqn:Hrej; [done|]. injection Hr as -> ->.
    apply apply_publication_rejected in Hpub as (code & details & Hout & Hf & ->); [|done..].
    unfold ensure_applied, applied_run, ensure_format in Ha, Haff. rewrite Hf, bool_decide_eq_true_2, Hout in Ha, Haff by done.
    simpl in Ha, Haff. injection Haff as <- <- <-. injection Ha as <-. simpl. split_and!; [done..|]. right. eauto 10.
Qed.

Lemma publication_receipt_retry stored c key op previous r s' :
  bt_get (storage_key key) (command_results stored) = Some previous →
  publication_receipt stored c key op = Ok (r, s') →
  s' = stored ∧ ∃ digest bytes, request_identity op = Ok (digest, bytes) ∧
    r = if bool_decide (cr_request_digest previous = digest) && bool_decide (cr_format previous = RESULT_FORMAT)
        then previous
        else command_result c key op digest
               (Disposition_Rejected "already_exists" "command ID reused with a different request") None.
Proof.
  intros Hprev. unfold publication_receipt, first_submission, bt_contains. rewrite Hprev.
  rewrite (bool_decide_eq_true_2 (is_Some (Some previous))) by done. simpl. unfold apply_replicated, apply_publication, apply_with_mode.
  destruct (request_identity op) as [[digest bytes]|e|w] eqn:Hid; simpl; [|done|done].
  rewrite Hprev. destruct (_ && _) eqn:Hsame; intros [= <- <-]; (split; [done|]; exists digest, bytes; by rewrite Hsame).
Qed.

Lemma entry_resubmitted stored c key op previous a :
  bt_get (storage_key key) (command_results stored) = Some previous →
  apply_publication_entry stored c key op = Ok a → resubmitted stored c key op previous a.
Proof.
  unfold apply_publication_entry, resubmitted. intros Hprev Ha.
  destruct (invalid_key _ _); [by injection Ha as <-|].
  apply outcome_bind_ok in Ha as ([r s'] & Hr & Ha). apply (publication_receipt_retry _ _ _ _ _ _ _ Hprev) in Hr as [-> Hr].
  apply outcome_bind_ok in Ha as ([[aff evs] id] & Haff & Ha).
  assert (aff = [] ∧ evs = []) as [-> ->].
  { unfold first_submission, bt_contains in Haff. rewrite Hprev in Haff.
    rewrite (bool_decide_eq_true_2 (is_Some (Some previous))) in Haff by done. simpl in Haff.
    destruct (applied_run r); by simplify_eq. }
  destruct (ensure_applied r); injection Ha as <-; simpl; (split_and!; [done..|by eauto|]); intros r' [= <-]; exact Hr.
Qed.

(** C25: a replicated publication is all or nothing. When its entry is applied as
    the first submission of its identity, either the reply has no error and the
    state is the result of the operation, at the stamped time, with its receipt, or
    it has an error and the state is the stored one, plus the receipt of the
    rejection when the request was authentic; an error reports no event and wakes
    no run. When the identity already has a receipt, the state is the stored one to
    the last field, nothing is reported, and the reply to an authentic request holds
    that receipt when the request has its digest, and a conflict otherwise. The state
    that a failed operation left behind is never kept. *)
Theorem publication_entry_is_all_or_nothing stored c key op a :
  apply_publication_entry stored c key op = Ok a →
  match bt_get (storage_key key) (command_results stored) with
  | None => submitted stored c key op a
  | Some previous => resubmitted stored c key op previous a
  end.
Proof.
  intros Ha. destruct (bt_get _ _) as [previous|] eqn:Hprev; [by eapply entry_resubmitted|].
  apply entry_submitted; [|done]. unfold first_submission, bt_contains. by rewrite Hprev.
Qed.

(** ** The writer gate *)
Lemma writer_gate_passes m writer : writer_gate m writer = Ok None → writer = sm_writer_format m.
Proof.
  unfold writer_gate. destruct (_ <? _) eqn:Hlt; [done|]. destruct (sm_writer_format m <? writer) eqn:Hgt; [by destruct (CURRENT_READER <? writer)|].
  intros _. to_prop. lia.
Qed.

Context `{!PlatformLaws _}.

Definition entry_fresh member (e : Entry) : Prop :=
  match en_payload e with
  | Payload_Normal request => request_fresh (mb_domain member) (rq_command request)
  | _ => True
  end.

Lemma persisted_wf_admin s s' : admin s' = admin s → persisted_wf s → persisted_wf s'.
Proof. intros [= Hp Hr Hc] []. by split; rewrite ?Hp, ?Hr, ?Hc. Qed.

Lemma member_cluster_hex member :
  member_wf member → is_ok (ClusterId.from_hex (current_cluster_id (mb_domain member))) = true.
Proof. intros [Hm _ Hc _]. apply manifest_validate_ok in Hm as (_ & _ & _ & _ & _ & _ & _ & _ & _ & Hid). by apply Hid. Qed.

Lemma domain_step_persisted s s' :
  is_ok (ClusterId.from_hex (current_cluster_id s)) = true → domain_step s s' → persisted_wf s →
  persisted_wf s' ∧ current_cluster_id s' = current_cluster_id s.
Proof.
  intros Hhex Hs Hwf.
  assert (∀ s', admin s' = admin s → persisted_wf s' ∧ current_cluster_id s' = current_cluster_id s) as Hadmin.
  { clear s' Hs. intros s' Ha. split; [by eapply persisted_wf_admin|]. by injection Ha. }
  destruct Hs as [[|c actor evs s1 Hc|s0 c c' key op r digest s1 Hs0 Hf Ha|
    c roster log_id principal receipt policy receipts Ha]|c limit evs Hc].
  - done.
  - by apply Hadmin, (commit_execution_admin s c actor evs).
  - apply Hadmin. rewrite (applied_admin _ _ _ _ _ _ _ Ha). by destruct Hs0 as [->| ->].
  - split; [by eapply format_apply_persisted|done].
  - by apply Hadmin, (commit_retention_admin s c limit evs).
Qed.

(** The parts of an entry that stop the member or persist. *)
Lemma apply_one_entry_ok member e reply member' :
  apply_one_entry member e = Ok (reply, member') →
  ∃ applied manifest schedule,
    (match en_payload e with
     | Payload_Normal request => apply_request member (en_log_id e) request
     | _ => Ok (applied_nothing (mb_domain member) reply_default)
     end) = Ok applied ∧
    activated_manifest (mb_manifest member) (ap_format_applied applied) = Ok manifest ∧
    reply = ap_reply applied ∧
    member' = mkMember manifest (Some (en_log_id e))
      (match en_payload e with
       | Payload_Membership joint nodes => mkRoster (Some (en_log_id e)) joint nodes
       | _ => mb_membership member
       end) (ap_domain applied) schedule.
Proof.
  unfold apply_one_entry. cbv zeta. match goal with |- (if ?b then _ else _) = _ → _ => destruct b; [done|] end.
  intros (_ & _ & Ha)%outcome_bind_ok. apply outcome_bind_ok in Ha as (applied & Happ & Ha).
  apply outcome_bind_ok in Ha as (affected & _ & Ha). apply outcome_bind_ok in Ha as (manifest & Hm & Ha).
  destruct (_ =? u64_max); [done|]. apply outcome_bind_ok in Ha as (schedule & _ & [= <- <-]).
  by exists applied, manifest, schedule.
Qed.

Lemma activated_manifest_ok m format_applied m' :
  manifest_validate m = Ok tt → activated_manifest m format_applied = Ok m' →
  manifest_validate m' = Ok tt ∧ sm_reader_floor m' = sm_reader_floor m ∧
  sm_cluster_id m' = sm_cluster_id m ∧ sm_member_id m' = sm_member_id m ∧
  sm_writer_format m' = (if format_applied then NEXT_FORMAT else sm_writer_format m).
Proof.
  unfold activated_manifest. intros Hv. destruct format_applied; [|by intros [= <-]].
  destruct (negb _); [done|]. unfold sto. rewrite map_err_ok. by intros (? & ? & ? & ? & ?)%activate_writer_ok.
Qed.

(** What applying the entry does to the domain, by kind. *)
Lemma entry_domain_step member e applied :
  entry_fresh member e →
  (match en_payload e with
   | Payload_Normal request => apply_request member (en_log_id e) request
   | _ => Ok (applied_nothing (mb_domain member) reply_default)
   end) = Ok applied →
  domain_step (mb_domain member) (ap_domain applied) ∧
  if ap_format_applied applied then fp_active_writer (format_policy (ap_domain applied)) = NEXT_FORMAT
  else fp_active_writer (format_policy (ap_domain applied)) = fp_active_writer (format_policy (mb_domain member)).
Proof.
  unfold entry_fresh. intros Hfresh Ha. destruct (en_payload e) as [|request|joint nodes].
  - injection Ha as <-. by split; [apply domain_step_none|].
  - apply apply_request_step in Ha as [Hs Hcase]; [|done]. split; [done|].
    destruct Hcase as [[[_ [= Hp _ _]] ->]|Ha]; [by rewrite Hp|]. by apply apply_format_entry_ok in Ha as [_ ?].
  - injection Ha as <-. by split; [apply domain_step_none|].
Qed.

(** What an applied entry leaves. *)
Lemma applied_member_wf member e reply member' :
  member_wf member → entry_fresh member e → apply_one_entry member e = Ok (reply, member') →
  member_wf member' ∧ sm_reader_floor (mb_manifest member') = sm_reader_floor (mb_manifest member) ∧
  (sm_writer_format (mb_manifest member') = NEXT_FORMAT
   ∨ sm_writer_format (mb_manifest member') = sm_writer_format (mb_manifest member)).
Proof.
  intros Hwf Hfresh (applied & manifest & schedule & Ha & Hm & -> & ->)%apply_one_entry_ok. simpl.
  pose proof (member_cluster_hex _ Hwf) as Hhex. destruct Hwf as [Hv Hw Hc Hp].
  apply entry_domain_step in Ha as [Hstep Hactive]; [|done].
  apply activated_manifest_ok in Hm as (Hv' & Hfloor & Hcl & _ & Hwriter); [|done].
  apply domain_step_persisted in Hstep as [Hp' Hcluster]; [|done..].
  split_and!; [split; simpl; try done|done|rewrite Hwriter; destruct (ap_format_applied applied); auto].
  - rewrite Hwriter. destruct (ap_format_applied applied); [done|]. congruence.
  - rewrite Hcl, Hc. by f_equal.
Qed.

(** C35: a member stays consistent with what it committed. When an entry is
    applied, the store manifest stays valid for this binary, its writer format
    is the one the replicated policy has activated, its cluster identity is the
    domain's and its readers stay installed, and the state that is persisted
    passes the checks it is loaded with; the writer format never goes back. *)
Theorem member_stays_consistent member e reply member' :
  member_wf member → entry_fresh member e → apply_one_entry member e = Ok (reply, member') →
  member_wf member' ∧ validate_persisted_state (mb_domain member') = Ok tt ∧
  sm_reader_floor (mb_manifest member') = sm_reader_floor (mb_manifest member) ∧
  sm_writer_format (mb_manifest member) ≤ sm_writer_format (mb_manifest member').
Proof.
  intros Hwf Hfresh (Hwf' & Hfloor & Hwriter)%applied_member_wf; [|done..].
  pose proof (manifest_validate_ok _ (mw_manifest _ Hwf)) as (Hrange & _).
  rewrite validate_persisted_spec. split_and!; [done|apply (mw_persisted _ Hwf')|done|].
  destruct Hwriter as [-> | ->]; unfold NEXT_FORMAT; lia.
Qed.

(** Only the active format writes. On a consistent member, a request in any
    other writer format than the one the replicated policy has activated is
    answered with an error and leaves the domain state, the schedule's input and
    the format policy as they are, or it stops the member. *)
Theorem other_formats_write_nothing member log_id request a :
  member_wf member → apply_request member log_id request = Ok a →
  rq_writer_format request ≠ fp_active_writer (format_policy (mb_domain member)) →
  is_Some (rp_error (ap_reply a)) ∧ ap_domain a = mb_domain member ∧ ap_events a = [] ∧ ap_affected a = [] ∧
  ap_format_applied a = false.
Proof.
  intros Hwf Ha Hne. unfold apply_request in Ha. apply outcome_bind_ok in Ha as (gate & Hg & Ha).
  destruct gate as [refused|].
  - injection Ha as <-. simpl. split_and!; try done. unfold writer_gate in Hg.
    destruct (rq_writer_format request <? _); [by injection Hg as <-|].
    destruct (_ <? rq_writer_format request); [destruct (CURRENT_READER <? _); [done|by injection Hg as <-]|].
    by destruct (negb _).
  - apply writer_gate_passes in Hg. by rewrite (mw_writer _ Hwf) in Hg.
Qed.
End ReplicaFacts.
