(* ===== verification/LogFacts.v ===== *)
(** * The log of a store is a Raft log

    The credits of a store weigh exactly the entries that wait to be applied, and
    its rows and boundaries implement the log that Raft asks for: appending,
    truncating and purging are those of the abstract [RaftLog], and collecting
    rows is invisible and ends. *)
From stdpp Require Import base option gmap strings list sorting.
From Stdlib Require Import ZArith Lia.
From S2P Require Import Prelude Value Ids Policy Catalog Ir Domain FormatUpgrade Replica LogStore.

(** ** What the rows weigh *)
Section Weight.
Context {V : Type} (f : V → Z).

Definition weigh (low high : Z) (kv : Z * V) (n : Z) : Z :=
  if (low <=? kv.1) && (kv.1 <=? high) then f kv.2 + n else n.

(** The sum of [f] over the rows in a range. *)
Definition weight (rows : gmap Z V) (low high : Z) : Z := foldr (weigh low high) 0 (map_to_list rows).

Implicit Types (rows : gmap Z V) (low high : Z).

Lemma weigh_perm low high (l k : list (Z * V)) n :
  l ≡ₚ k → foldr (weigh low high) n l = foldr (weigh low high) n k.
Proof.
  induction 1 as [|x l k _ IH|x y l|l k m _ IH1 _ IH2]; simpl; [done|by rewrite IH| |by rewrite IH1].
  unfold weigh. repeat case_match; lia.
Qed.

Lemma weight_fresh rows low high i v :
  rows !! i = None → weight (<[i := v]> rows) low high = weigh low high (i, v) (weight rows low high).
Proof. intros Hi. unfold weight. by rewrite (weigh_perm _ _ _ _ _ (map_to_list_insert _ _ _ Hi)). Qed.

Lemma weight_present rows low high i v w :
  rows !! i = Some w → low ≤ i ≤ high → weight (<[i := v]> rows) low high = weight rows low high - f w + f v.
Proof.
  intros Hi Hrange. rewrite <- (insert_delete_id rows i w Hi) at 2. rewrite <- (insert_delete_eq rows i v).
  rewrite !weight_fresh by apply lookup_delete_eq. unfold weigh. simpl.
  rewrite (proj2 (Z.leb_le _ _)), (proj2 (Z.leb_le _ _)) by lia. simpl. lia.
Qed.

Lemma weight_outside rows low high i v :
  ¬ (low ≤ i ≤ high) → weight (<[i := v]> rows) low high = weight rows low high.
Proof.
  intros Hout. assert (∀ v m, weigh low high (i, v) m = m) as Hw.
  { intros w m. unfold weigh. simpl. destruct (low <=? i) eqn:?, (i <=? high) eqn:?; simpl; to_prop; try done. lia. }
  destruct (rows !! i) as [w|] eqn:Hi.
  - rewrite <- (insert_delete_id rows i w Hi) at 2. rewrite <- (insert_delete_eq rows i v).
    by rewrite !weight_fresh, !Hw by apply lookup_delete_eq.
  - by rewrite weight_fresh, Hw.
Qed.

Lemma weight_delete rows low high i :
  ¬ (low ≤ i ≤ high) → weight (delete i rows) low high = weight rows low high.
Proof.
  intros Hout. destruct (rows !! i) as [w|] eqn:Hi; [|by rewrite delete_id].
  rewrite <- (insert_delete_id rows i w Hi) at 2. by rewrite weight_outside.
Qed.

Lemma weight_split rows low mid high :
  low ≤ mid + 1 → mid ≤ high → weight rows low high = weight rows low mid + weight rows (mid + 1) high.
Proof.
  intros Hlow Hhigh. unfold weight. induction (map_to_list rows) as [|[i v] l IH]; simpl; [done|].
  rewrite IH. generalize (foldr (weigh low mid) 0 l), (foldr (weigh (mid + 1) high) 0 l). intros. unfold weigh. simpl.
  destruct (low <=? i) eqn:?, (i <=? high) eqn:?, (i <=? mid) eqn:?, (mid + 1 <=? i) eqn:?; simpl; to_prop; lia.
Qed.

Lemma weight_empty rows low high : high < low → weight rows low high = 0.
Proof.
  intros Hrange. unfold weight. induction (map_to_list rows) as [|[i v] l IH]; simpl; [done|].
  rewrite IH. unfold weigh. simpl. destruct (low <=? i) eqn:?, (i <=? high) eqn:?; simpl; to_prop; lia.
Qed.

Lemma weight_nonneg rows low high : (∀ v, 0 ≤ f v) → 0 ≤ weight rows low high.
Proof.
  intros Hf. unfold weight. induction (map_to_list rows) as [|[i v] l IH]; simpl; [done|].
  specialize (Hf v). revert IH. generalize (foldr (weigh low high) 0 l). intros n. unfold weigh. simpl. case_match; lia.
Qed.

(** Rows appear one by one at the end of a range. *)
Lemma weight_last rows low high v :
  rows !! high = Some v → low ≤ high → weight rows low high = weight rows low (high - 1) + f v.
Proof.
  intros Hv Hrange. rewrite (weight_split _ _ (high - 1)) by lia. f_equal. replace (high - 1 + 1) with high by lia.
  rewrite <- (insert_delete_id rows high v Hv), weight_fresh by apply lookup_delete_eq.
  unfold weigh. simpl. rewrite Z.leb_refl. simpl.
  enough (weight (delete high rows) high high = 0) by lia. unfold weight.
  assert (∀ kv, kv ∈ map_to_list (delete high rows) → kv.1 ≠ high) as Hk.
  { intros [k w] Hin%elem_of_map_to_list. simpl. intros ->. by rewrite lookup_delete_eq in Hin. }
  induction (map_to_list (delete high rows)) as [|[k w] l IH]; simpl; [done|].
  rewrite IH by (intros; apply Hk; by right). pose proof (Hk (k, w) (list_elem_of_here _ _)) as Hne. simpl in Hne.
  unfold weigh. simpl. destruct (high <=? k) eqn:?, (k <=? high) eqn:?; simpl; to_prop; lia.
Qed.

End Weight.

(** The sum over a list of rows, and over the rows of a range. *)
Definition row_sum {V} (f : V → Z) (l : list (Z * V)) : Z := foldr (λ kv n, f kv.2 + n) 0 l.

Lemma row_sum_perm {V} (f : V → Z) l k : l ≡ₚ k → row_sum f l = row_sum f k.
Proof. induction 1; simpl in *; lia. Qed.

Lemma row_sum_nonneg {V} (f : V → Z) l : (∀ v, 0 ≤ f v) → 0 ≤ row_sum f l.
Proof. intros Hf. induction l as [|[i v] l IH]; simpl; [done|]. specialize (Hf v). lia. Qed.

Section Range.
Context `{EntrySerde}.
Implicit Types (rows : gmap Z Row).

Lemma log_range_elem rows low high i r :
  (i, r) ∈ log_range rows low high ↔ rows !! i = Some r ∧ low ≤ i ≤ high.
Proof.
  unfold log_range. rewrite sort_by_perm, list_elem_of_filter, elem_of_map_to_list. simpl. tauto.
Qed.

Lemma log_range_weight f rows low high : row_sum f (log_range rows low high) = weight f rows low high.
Proof.
  unfold log_range. rewrite (row_sum_perm _ _ _ (sort_by_perm _ _)).
  unfold weight. induction (map_to_list rows) as [|[i r] l IH]; simpl; [done|]. rewrite filter_cons. simpl in *.
    rewrite <- IH. clear IH. unfold weigh. simpl.
    destruct (low <=? i) eqn:?, (i <=? high) eqn:?; simpl; to_prop; case_decide; simpl; lia.
Qed.

Lemma log_range_sorted rows low high : StronglySorted (λ a b, a.1 < b.1) (log_range rows low high).
Proof.
  assert (StronglySorted (λ a b, a.1 ≤ b.1) (log_range rows low high)) as Hs.
  { eapply Sorted_StronglySorted; [intros a b c; lia|].
    eapply Sorted_ind with (P := Sorted _); [..|apply (sort_by_sorted (λ a b : Z * Row, a.1 <=? b.1))].
    - constructor.
    - intros a l _ IH Hd. constructor; [done|]. destruct Hd; constructor. by to_prop.
    - intros a b. destruct (Z.le_ge_cases a.1 b.1); [left|right]; by apply Z.leb_le. }
  assert (NoDup (log_range rows low high).*1) as Hn.
  { unfold log_range. rewrite sort_by_perm. apply NoDup_fmap_fst; [|apply NoDup_filter, NoDup_map_to_list].
    intros i r r' [_ Hr%elem_of_map_to_list]%list_elem_of_filter [_ Hr'%elem_of_map_to_list]%list_elem_of_filter. congruence. }
  induction Hs as [|a l Hs IH Hall]; [constructor|]. inversion Hn as [|? ? Hnot Hn']; subst.
  constructor; [by apply IH|]. rewrite Forall_forall in Hall |- *. intros b Hb. specialize (Hall b Hb).
  assert (a.1 ≠ b.1); [|lia]. intros Hab. apply Hnot. rewrite Hab. by apply list_elem_of_fmap_2.
Qed.

Lemma log_range_empty rows low high : high < low → log_range rows low high = [].
Proof.
  intros Hrange. destruct (log_range rows low high) as [|[i r] l] eqn:Heq; [done|].
  assert ((i, r) ∈ log_range rows low high) as [_ Hi]%log_range_elem by (rewrite Heq; left). lia.
Qed.
End Range.

(** ** Well-formed logs *)
Definition idx (id : option Position) : Z := from_option pos_index (-1) id.
Definition pos_ok (p : Position) : Prop := 0 ≤ pos_index p < u64_max.

Class EntrySerdeLaws `{EntrySerde} := {
  row_len_nonneg r : 0 ≤ row_len r;
  entry_reads_back e r : entry_to_json e = Ok r → entry_from_json r = Ok e;
}.

Lemma after_index_idx id : (∀ p, id = Some p → pos_ok p) → after_index id = idx id + 1.
Proof. destruct id as [p|]; simpl; [|done]. intros Hp. specialize (Hp p eq_refl). unfold pos_ok, sat_add64 in *. lia. Qed.

Lemma reaches_idx id i : 0 ≤ i → reaches id i = (i <=? idx id).
Proof. destruct id; simpl; [done|]. intros. symmetry. apply Z.leb_gt. lia. Qed.

Lemma idx_None id : idx id ≤ -1 → (∀ p, id = Some p → pos_ok p) → id = None.
Proof. destruct id as [p|]; simpl; [|done]. intros ? Hp. specialize (Hp p eq_refl). unfold pos_ok in Hp. lia. Qed.

Section LogFacts.
Context `{EntrySerdeLaws}.
Implicit Types (db : LogDb) (v : option Position).

(** Entries up to here are applied or purged. *)
Definition bound db : Z := Z.max (idx (db_last_purged db)) (idx (db_last_applied db)).

Definition pending (rows : gmap Z Row) (low high : Z) : PendingCredits :=
  mkPendingCredits (weight (λ _, 1) rows low high) (weight row_len rows low high).

Definition within_limits (c : PendingCredits) : Prop :=
  pd_entries c ≤ UNAPPLIED_ENTRIES ∧ pd_bytes c ≤ UNAPPLIED_BYTES.

Definition row_entry (r : Row) (e : Entry) : Prop := entry_from_json r = Ok e.

Record log_wf db v : Prop := {
  lw_end : db_visible_log_end db = Some v;
  lw_credits : db_unapplied_credits db = Some (pending (db_log db) (bound db + 1) (idx v));
  lw_limits : within_limits (pending (db_log db) (bound db + 1) (idx v));
  lw_rows : ∀ i r, db_log db !! i = Some r → 0 ≤ i < u64_max ∧ ∃ e, row_entry r e ∧ pos_index (en_log_id e) = i;
  lw_dense : ∀ i, bound db < i ≤ idx v → is_Some (db_log db !! i);
  lw_order : idx (db_last_purged db) ≤ idx v;
  lw_positions : ∀ p, v = Some p ∨ db_last_purged db = Some p ∨ db_last_applied db = Some p → pos_ok p;
  lw_purged_row : ∀ p r e, db_last_purged db = Some p → db_log db !! pos_index p = Some r → row_entry r e → en_log_id e = p;
}.

Lemma idx_bounds v : (∀ p, v = Some p → pos_ok p) → -1 ≤ idx v < u64_max.
Proof. destruct v as [p|]; simpl; [|unfold u64_max; lia]. intros Hp. specialize (Hp p eq_refl). unfold pos_ok in *. lia. Qed.

Lemma new_wf : log_wf log_db_new None.
Proof.
  split; unfold bound; simpl; try done.
  - intros i ?. lia.
  - by intros p [?|[?|?]].
Qed.

(** *** Credits *)
Lemma pending_nonneg rows low high :
  0 ≤ pd_entries (pending rows low high) ∧ 0 ≤ pd_bytes (pending rows low high).
Proof. split; apply weight_nonneg; [lia|apply row_len_nonneg]. Qed.

Lemma pending_empty rows low high : high < low → pending rows low high = no_credits.
Proof. intros. unfold pending. by rewrite !weight_empty. Qed.

Lemma pending_split rows low mid high :
  low ≤ mid + 1 → mid ≤ high →
  pd_entries (pending rows low high) = pd_entries (pending rows low mid) + pd_entries (pending rows (mid + 1) high) ∧
  pd_bytes (pending rows low high) = pd_bytes (pending rows low mid) + pd_bytes (pending rows (mid + 1) high).
Proof. intros. split; by apply weight_split. Qed.

Lemma within_limits_sub rows low high low' high' :
  low ≤ low' → high' ≤ high → within_limits (pending rows low high) → within_limits (pending rows low' high').
Proof.
  intros Hlow Hhigh [He Hb]. destruct (Z.lt_ge_cases high' low') as [Hempty|Hrange].
  { rewrite pending_empty by done. split; vm_compute; discriminate. }
  destruct (pending_split rows low (low' - 1) high) as [? ?]; [lia..|].
  replace (low' - 1 + 1) with low' in * by lia. destruct (pending_split rows low' high' high) as [? ?]; [lia..|].
  destruct (pending_nonneg rows low (low' - 1)), (pending_nonneg rows (high' + 1) high). split; lia.
Qed.

Lemma remove_credits_sum c l :
  row_sum (λ _, 1) l ≤ pd_entries c → row_sum row_len l ≤ pd_bytes c →
  remove_credits c l = Ok (mkPendingCredits (pd_entries c - row_sum (λ _, 1) l) (pd_bytes c - row_sum row_len l)).
Proof.
  revert c. induction l as [|[i r] l IH]; intros c; simpl; intros He Hb.
  { destruct c. unfold remove_credits. simpl. do 2 f_equal; lia. }
  pose proof (row_sum_nonneg (λ _ : Row, 1) l ltac:(lia)). pose proof (row_sum_nonneg row_len l row_len_nonneg).
  pose proof (row_len_nonneg r). unfold remove_credits. simpl.
  assert (remove_pending_credit c (row_len r) = Ok (mkPendingCredits (pd_entries c - 1) (pd_bytes c - row_len r))) as ->.
  { unfold remove_pending_credit. by rewrite !(proj2 (Z.ltb_ge _ _)) by lia. }
  cbn [mbind Outcome_bind]. etransitivity; [apply IH; simpl; lia|]. simpl. do 2 f_equal; lia.
Qed.

(** Taking the rows of a prefix or of a suffix out of the credits never fails and leaves the rest. *)
Lemma remove_prefix rows low mid high :
  low ≤ mid + 1 → mid ≤ high →
  remove_credits (pending rows low high) (log_range rows low mid) = Ok (pending rows (mid + 1) high).
Proof.
  intros Hlow Hhigh. destruct (pending_split rows low mid high Hlow Hhigh) as [He Hb].
  destruct (pending_nonneg rows (mid + 1) high) as [? ?].
  pose proof (log_range_weight (λ _, 1) rows low mid) as Hwe. pose proof (log_range_weight row_len rows low mid) as Hwb.
  rewrite remove_credits_sum; rewrite ?Hwe, ?Hwb; simpl in *; [|lia..]. f_equal. unfold pending. f_equal; lia.
Qed.

Lemma remove_suffix rows low mid high :
  low ≤ mid + 1 → mid ≤ high →
  remove_credits (pending rows low high) (log_range rows (mid + 1) high) = Ok (pending rows low mid).
Proof.
  intros Hlow Hhigh. destruct (pending_split rows low mid high Hlow Hhigh) as [He Hb].
  destruct (pending_nonneg rows low mid) as [? ?].
  pose proof (log_range_weight (λ _, 1) rows (mid + 1) high) as Hwe.
  pose proof (log_range_weight row_len rows (mid + 1) high) as Hwb.
  rewrite remove_credits_sum; rewrite ?Hwe, ?Hwb; simpl in *; [|lia..]. f_equal. unfold pending. f_equal; lia.
Qed.
(** *** The abstract log

    What Raft sees: the entries above the purge point, up to the visible end. *)
Record RaftLog := mkRaftLog {
  rl_purged : option Position;
  rl_last : option Position;
  rl_entries : gmap Z Entry;
}.

Definition raft_append1 (l : RaftLog) (e : Entry) : RaftLog :=
  let i := pos_index (en_log_id e) in
  mkRaftLog (rl_purged l) (if idx (rl_last l) <=? i then Some (en_log_id e) else rl_last l)
    (if idx (rl_purged l) <? i then <[i := e]> (rl_entries l) else rl_entries l).

Definition raft_append (l : RaftLog) (es : list Entry) : RaftLog := foldl raft_append1 l es.

Definition raft_truncate (l : RaftLog) (from : Z) : RaftLog :=
  if idx (rl_last l) <? from then l
  else mkRaftLog (rl_purged l) (match rl_entries l !! (from - 1) with Some e => Some (en_log_id e) | None => rl_purged l end)
         (filter (λ kv, kv.1 < from) (rl_entries l)).

Definition raft_purge (l : RaftLog) (p : Position) : RaftLog :=
  if pos_index p <=? idx (rl_purged l) then l
  else mkRaftLog (Some p) (if pos_index p <? idx (rl_last l) then rl_last l else Some p)
         (filter (λ kv, pos_index p < kv.1) (rl_entries l)).

Definition row_decode (r : Row) : option Entry := match entry_from_json r with Ok e => Some e | _ => None end.

Definition raft_log db : RaftLog :=
  let last := default None (db_visible_log_end db) in
  mkRaftLog (db_last_purged db) last
    (omap row_decode (filter (λ kv, idx (db_last_purged db) < kv.1 ≤ idx last) (db_log db))).

Lemma row_decode_Some r e : row_decode r = Some e ↔ row_entry r e.
Proof. unfold row_decode, row_entry. destruct (entry_from_json r); naive_solver. Qed.

Lemma raft_log_entry db v i e :
  db_visible_log_end db = Some v →
  rl_entries (raft_log db) !! i = Some e ↔
    idx (db_last_purged db) < i ≤ idx v ∧ ∃ r, db_log db !! i = Some r ∧ row_entry r e.
Proof.
  intros Hv. unfold raft_log. rewrite Hv. simpl. rewrite lookup_omap_Some. setoid_rewrite row_decode_Some.
  setoid_rewrite map_lookup_filter_Some. simpl. naive_solver.
Qed.

(** Two abstract logs with the same boundaries and the same entries are equal. *)
Lemma raft_log_eq l l' :
  rl_purged l = rl_purged l' → rl_last l = rl_last l' →
  (∀ i e, rl_entries l !! i = Some e ↔ rl_entries l' !! i = Some e) → l = l'.
Proof. destruct l, l'; simpl. intros -> -> Hl. f_equal. apply map_eq. intros i. apply option_eq, Hl. Qed.

(** *** Appending *)
Definition appended_db db (a : Append) : LogDb :=
  mkLogDb (ad_rows a) (Some (ad_visible a)) (db_last_purged db) (db_last_applied db) (Some (ad_credits a)).

Record appending v0 db (a : Append) : Prop := {
  ap_wf : log_wf (appended_db db a) (ad_visible a);
  ap_seen : ∀ i l, ad_appended a !! i = Some l →
    bound db < i ≤ idx (ad_visible a) ∧ ∃ r, ad_rows a !! i = Some r ∧ row_len r = l;
  ap_new : ∀ i, bound db < i → idx v0 < i ≤ idx (ad_visible a) → is_Some (ad_appended a !! i);
  ap_grows : idx v0 ≤ idx (ad_visible a);
}.

Lemma charge_weighs v0 db a i r appended credits :
  appending v0 db a → 0 ≤ i → bound db < i ≤ idx (ad_visible a) + 1 →
  charge (ad_rows a) v0 i (row_len r) (ad_appended a, ad_credits a) = Ok (appended, credits) →
  appended = <[i := row_len r]> (ad_appended a) ∧
  credits = pending (<[i := r]> (ad_rows a)) (bound db + 1) (Z.max (idx (ad_visible a)) i).
Proof.
  intros [Hwf Hseen Hnew Hgrows] Hi0 Hi Hcharge.
  pose proof (lw_credits _ _ Hwf) as Hcredits. simpl in Hcredits. injection Hcredits as Hcredits.
  change (bound (appended_db db a)) with (bound db) in Hcredits.
  unfold charge in Hcharge. rewrite (reaches_idx _ _ Hi0) in Hcharge.
  destruct (Z.le_gt_cases i (idx (ad_visible a))) as [Hold|Hend].
  - destruct (lw_dense _ _ Hwf i) as [r0 Hr0]; [by split; [apply Hi|]|]. simpl in Hr0.
    assert (match ad_appended a !! i with Some previous => Some previous
      | None => if i <=? idx v0 then row_len <$> ad_rows a !! i else None end = Some (row_len r0)) as Hprev.
    { destruct (ad_appended a !! i) as [l|] eqn:Hl.
      - destruct (Hseen _ _ Hl) as (_ & r1 & ? & ?). congruence.
      - rewrite (proj2 (Z.leb_le _ _)), Hr0; [done|]. destruct (Z.le_gt_cases i (idx v0)) as [|Hgt]; [done|].
        destruct (Hnew i) as [l' Hl']; [lia..|]. congruence. }
    rewrite Hprev, Hcredits in Hcharge. ok_inv. split; [done|]. rewrite Z.max_l by lia. unfold pending.
    rewrite !(weight_present _ _ _ _ _ _ _ Hr0) by lia. f_equal; lia.
  - assert (i = idx (ad_visible a) + 1) as -> by lia.
    destruct (ad_appended a !! (idx (ad_visible a) + 1)) as [l|] eqn:Hl; [destruct (Hseen _ _ Hl); lia|].
    rewrite (proj2 (Z.leb_gt _ _)), Hcredits in Hcharge by lia. ok_inv. split; [done|]. rewrite Z.max_r by lia. unfold pending.
    assert (∀ f : Row → Z, weight f (<[idx (ad_visible a) + 1 := r]> (ad_rows a)) (bound db + 1) (idx (ad_visible a) + 1) =
      weight f (ad_rows a) (bound db + 1) (idx (ad_visible a)) + f r) as Hw.
    { intros f. rewrite (weight_last f _ _ _ r (lookup_insert_eq _ _ _)), weight_outside by lia. do 2 f_equal. lia. }
    rewrite !Hw. simpl. f_equal; lia.
Qed.
(** What Raft respects when it appends: indexes in range, a first entry at zero, and
    no other entry in place of the one at the purge point. *)
Definition entry_ok db (e : Entry) : Prop :=
  pos_ok (en_log_id e) ∧
  (pos_index (en_log_id e) = idx (db_last_purged db) → db_last_purged db = Some (en_log_id e)).

Definition next_visible v (p : Position) : option Position :=
  if match v with Some last => pos_index last <=? pos_index p | None => true end then Some p else v.

Lemma next_visible_idx v p : pos_ok p → idx (next_visible v p) = Z.max (idx v) (pos_index p).
Proof.
  unfold next_visible, pos_ok. destruct v as [last|]; simpl; [|intros; lia].
  destruct (pos_index last <=? pos_index p) eqn:?; simpl; intros; to_prop; lia.
Qed.

Lemma next_visible_cmp v p : pos_ok p → next_visible v p = if idx v <=? pos_index p then Some p else v.
Proof.
  unfold next_visible, pos_ok. destruct v; simpl; [done|]. intros. by rewrite (proj2 (Z.leb_le _ _)) by lia.
Qed.

Lemma append_gap db a e :
  log_wf (appended_db db a) (ad_visible a) → entry_ok db e → (ad_visible a = None → pos_index (en_log_id e) = 0) →
  match opt_or (ad_visible a) (db_last_purged db) with
  | Some last => sat_add64 (pos_index last) 1 <? pos_index (en_log_id e) | None => false end = false →
  pos_index (en_log_id e) ≤ idx (ad_visible a) + 1.
Proof.
  intros Hwf [Hid _] Hfirst Hgap. destruct (ad_visible a) as [last|] eqn:Hv; simpl in *; [|by rewrite Hfirst].
  apply Z.ltb_ge in Hgap. pose proof (lw_positions _ _ Hwf last) as Hp. unfold pos_ok, sat_add64 in *. specialize (Hp (or_introl eq_refl)). lia.
Qed.

(** The charge of an entry, by the code's case analysis. *)
Lemma append_credits v0 db a e r appended credits :
  appending v0 db a → pos_ok (en_log_id e) → pos_index (en_log_id e) ≤ idx (ad_visible a) + 1 →
  (if negb (reaches (db_last_applied db) (pos_index (en_log_id e))) && negb (reaches (db_last_purged db) (pos_index (en_log_id e)))
   then '(appended, credits) ← charge (ad_rows a) v0 (pos_index (en_log_id e)) (row_len r) (ad_appended a, ad_credits a);
     if UNAPPLIED_ENTRIES <? pd_entries credits then sto_err "unapplied entry credit exhausted"
     else if UNAPPLIED_BYTES <? pd_bytes credits then sto_err "unapplied byte credit exhausted"
     else Ok (appended, credits)
   else Ok (ad_appended a, ad_credits a)) = Ok (appended, credits) →
  appended = (if bound db <? pos_index (en_log_id e) then <[pos_index (en_log_id e) := row_len r]> (ad_appended a) else ad_appended a) ∧
  credits = pending (<[pos_index (en_log_id e) := r]> (ad_rows a)) (bound db + 1) (Z.max (idx (ad_visible a)) (pos_index (en_log_id e))) ∧
  within_limits credits.
Proof.
  intros Ha [Hi0 _] Hi Hc. rewrite !reaches_idx in Hc by done.
  destruct (bound db <? pos_index (en_log_id e)) eqn:Hb; to_prop.
  - rewrite !(proj2 (Z.leb_gt _ _)) in Hc by (unfold bound in *; lia). simpl in Hc. apply outcome_bind_ok in Hc as ([ap cr] & Hcharge & Hc).
    destruct (UNAPPLIED_ENTRIES <? _) eqn:?; [done|]. destruct (UNAPPLIED_BYTES <? _) eqn:?; [done|]. injection Hc as <- <-. to_prop.
    apply (charge_weighs v0 db) in Hcharge as [-> ->]; [|done..|lia]. done.
  - replace (negb _ && negb _) with false in Hc by (symmetry; apply andb_false_iff; rewrite !negb_false_iff, !Z.leb_le; unfold bound in *; lia).
    injection Hc as <- <-. destruct Ha as [Hwf _ _ _]. pose proof (lw_credits _ _ Hwf) as Hcr. pose proof (lw_limits _ _ Hwf) as Hl.
    simpl in Hcr, Hl. injection Hcr as Hcr. change (bound (appended_db db a)) with (bound db) in *.
    assert (ad_credits a = pending (<[pos_index (en_log_id e) := r]> (ad_rows a)) (bound db + 1)
      (Z.max (idx (ad_visible a)) (pos_index (en_log_id e)))) as Heq; [|by rewrite <- Heq, Hcr].
    rewrite Hcr. unfold pending. rewrite !weight_outside by lia.
    destruct (Z.le_gt_cases (pos_index (en_log_id e)) (idx (ad_visible a))); [by rewrite Z.max_l by lia|].
    rewrite !weight_empty; done || lia.
Qed.
Lemma append_entry_wf v0 db a e a' :
  appending v0 db a → entry_ok db e → (ad_visible a = None → pos_index (en_log_id e) = 0) →
  append_entry v0 (db_last_purged db) (db_last_applied db) a e = Ok a' →
  appending v0 db a' ∧ ad_visible a' = next_visible (ad_visible a) (en_log_id e) ∧
  ∃ r, row_entry r e ∧ entry_to_json e = Ok r ∧ ad_rows a' = <[pos_index (en_log_id e) := r]> (ad_rows a).
Proof.
  intros Ha Hok Hfirst Happ. pose proof Ha as [Hwf Hseen Hnew Hgrows]. pose proof Hok as [Hid Hpurged].
  unfold append_entry in Happ. apply outcome_bind_ok in Happ as (r & Hr%map_err_ok & Happ).
  destruct (match opt_or _ _ with Some _ => _ | None => _ end) eqn:Hgap in Happ; [done|].
  apply (append_gap _ _ _ Hwf Hok Hfirst) in Hgap. apply outcome_bind_ok in Happ as ([ap cr] & Hc & Happ).
  injection Happ as <-. apply (append_credits v0 db) in Hc as (-> & -> & Hl); [|done..].
  fold (next_visible (ad_visible a) (en_log_id e)). pose proof (next_visible_idx (ad_visible a) _ Hid) as Hidx.
  pose proof (entry_reads_back _ _ Hr) as Hback. set (i := pos_index (en_log_id e)) in *.
  split; [|split; [done|by exists r]]. destruct Hid as [Hi0 Hi64]. fold i in Hi0, Hi64. split; simpl.
  - split; simpl; change (bound (appended_db db _)) with (bound db); rewrite ?Hidx; try done.
    + intros j rj [[<- <-]|[Hne Hj]]%lookup_insert_Some; [by split; [|exists e]|by apply (lw_rows _ _ Hwf)].
    + intros j Hj. rewrite lookup_insert_is_Some. destruct (decide (i = j)) as [|Hne]; [by left|right; split; [done|]].
      apply (lw_dense _ _ Hwf). change (bound (appended_db db a)) with (bound db). lia.
    + pose proof (lw_order _ _ Hwf) as Ho. simpl in Ho. lia.
    + intros p [Hp|Hp]; [|by apply (lw_positions _ _ Hwf); right]. unfold next_visible in Hp. case_match; [by injection Hp as <-|].
      apply (lw_positions _ _ Hwf). by left.
    + intros p rp ep Hp [[Hi <-]|[Hne Hj]]%lookup_insert_Some Hep; [|by eapply (lw_purged_row _ _ Hwf)].
      unfold row_entry in Hep. rewrite Hback in Hep. injection Hep as <-. rewrite Hp in Hpurged. simpl in Hpurged.
      specialize (Hpurged Hi). congruence.
  - rewrite Hidx. intros j l. destruct (bound db <? i) eqn:Hb; to_prop.
    + intros [[<- <-]|[Hne (? & rj & ? & ?)%Hseen]]%lookup_insert_Some; [split; [lia|]; exists r; by rewrite lookup_insert_eq|].
      split; [lia|]. exists rj. by rewrite lookup_insert_ne.
    + intros (? & rj & ? & ?)%Hseen. split; [lia|]. exists rj. by rewrite lookup_insert_ne by lia.
  - rewrite Hidx. intros j Hbj Hj. destruct (decide (i = j)) as [<-|Hne].
    + rewrite (proj2 (Z.ltb_lt _ _)) by done. by rewrite lookup_insert_eq.
    + assert (is_Some (ad_appended a !! j)) as Hs by (apply Hnew; lia).
      case_match; [by rewrite lookup_insert_ne|done].
  - rewrite Hidx. lia.
Qed.

(** The same step, seen by Raft. *)
Lemma append_entry_raft db a e a' r :
  log_wf (appended_db db a) (ad_visible a) → entry_ok db e → pos_index (en_log_id e) ≤ idx (ad_visible a) + 1 →
  row_entry r e → ad_rows a' = <[pos_index (en_log_id e) := r]> (ad_rows a) →
  ad_visible a' = next_visible (ad_visible a) (en_log_id e) →
  raft_log (appended_db db a') = raft_append1 (raft_log (appended_db db a)) e.
Proof.
  intros Hwf [Hid _] Hgap Hr Hrows Hvis. pose proof Hid as [Hi0 _]. apply raft_log_eq; [done| |].
  - simpl. by rewrite Hvis, next_visible_cmp.
  - intros j ej. rewrite (raft_log_entry _ (ad_visible a')) by done. unfold raft_append1. simpl.
    rewrite Hrows, Hvis, (next_visible_idx _ _ Hid).
    pose proof (raft_log_entry (appended_db db a) (ad_visible a) j ej eq_refl) as Hold. simpl in Hold.
    set (i := pos_index (en_log_id e)) in *.
    destruct (idx (db_last_purged db) <? i) eqn:Hp; to_prop.
    + rewrite lookup_insert_Some, Hold. destruct (decide (i = j)) as [<-|Hne].
      * rewrite lookup_insert_eq. unfold row_entry in *. split; [intros (_ & ? & [= <-] & ?); left; split; congruence|].
        intros [[_ <-]|[? _]]; [|done]. split; [lia|]. by exists r.
      * rewrite lookup_insert_ne by done. split; [|naive_solver lia].
        intros (? & rj & Hrj & Hej). right. split; [done|]. split; [|by exists rj]. lia.
    + rewrite Hold. destruct (decide (i = j)) as [<-|Hne]; [split; intros [? _]; lia|].
      rewrite lookup_insert_ne by done. split; [|naive_solver lia]. intros (? & rj & Hrj & Hej). split; [lia|by exists rj].
Qed.

Definition append_ok db v (es : list Entry) : Prop :=
  Forall (entry_ok db) es ∧ (v = None → match es with e :: _ => pos_index (en_log_id e) = 0 | [] => True end).

Lemma append_fold_wf v0 db es a a' :
  appending v0 db a → append_ok db (ad_visible a) es →
  outcome_fold (append_entry v0 (db_last_purged db) (db_last_applied db)) a es = Ok a' →
  appending v0 db a' ∧ raft_log (appended_db db a') = raft_append (raft_log (appended_db db a)) es.
Proof.
  revert a. induction es as [|e es IH]; intros a Ha [Hes Hfirst]; simpl; [by intros [= <-]|].
  intros (a1 & Hstep & Hrest)%outcome_bind_ok. inversion Hes as [|? ? He Hes']; subst.
  pose proof Hstep as Hstep'. apply append_entry_wf in Hstep' as (Ha1 & Hv & r & Hr & _ & Hrows); [|done..].
  apply IH in Hrest as [Ha' ->]; [|done|].
  - split; [done|]. simpl. f_equal. eapply append_entry_raft; [by eapply ap_wf|done| |done..].
    unfold append_entry in Hstep. apply outcome_bind_ok in Hstep as (? & _ & Hstep).
    destruct (match opt_or _ _ with Some _ => _ | None => _ end) eqn:Hgap in Hstep; [done|].
    by eapply append_gap; [by eapply ap_wf|..].
  - split; [done|]. rewrite Hv. unfold next_visible. destruct (ad_visible a); [|done]. by case_match.
Qed.

Lemma append_wf db v es db' :
  log_wf db v → append_ok db v es → admit_and_append db (db_last_applied db) es = Ok db' →
  (∃ v', log_wf db' v') ∧ raft_log db' = raft_append (raft_log db) es.
Proof.
  intros Hwf Hes Happ. unfold admit_and_append, visible_log_end, read_credits in Happ.
  rewrite (lw_end _ _ Hwf), (lw_credits _ _ Hwf) in Happ. simpl in Happ.
  apply outcome_bind_ok in Happ as (a & Hfold & [= <-]).
  assert (raft_log db = raft_log (appended_db db (mkAppend v ∅ (pending (db_log db) (bound db + 1) (idx v)) (db_log db)))) as ->.
  { unfold raft_log. simpl. by rewrite (lw_end _ _ Hwf). }
  apply append_fold_wf in Hfold as [Ha Hraft]; [|split; simpl; [|done|lia|done]|done].
  - split; [exists (ad_visible a); apply Ha|done].
  - destruct Hwf. by split.
Qed.
(** *** Truncating *)
Lemma predecessor_ok db v from p :
  log_wf db v → 0 ≤ from → idx (db_last_purged db) < from → from ≤ idx v →
  truncate_predecessor db from = Ok p → (from = 0 ∨ is_Some p) →
  idx p = from - 1 ∧ (∀ q, p = Some q → pos_ok q) ∧
  p = match rl_entries (raft_log db) !! (from - 1) with Some e => Some (en_log_id e) | None => db_last_purged db end.
Proof.
  intros Hwf Hfrom Hpurged Hv Hpred Hsome. unfold truncate_predecessor in Hpred.
  pose proof (λ i e, raft_log_entry db v i e (lw_end _ _ Hwf)) as Hraft. pose proof (lw_positions _ _ Hwf) as Hpos.
  revert Hraft. generalize (rl_entries (raft_log db)). intros entries Hraft.
  destruct (from =? 0) eqn:Hz; to_prop.
  { injection Hpred as <-. subst. assert (db_last_purged db = None) as Hn by (apply idx_None; [lia|auto]).
    rewrite Hn. split; [done|]. split; [done|]. destruct (entries !! (0 - 1)) as [e|] eqn:He; [|done].
    apply Hraft in He as [? _]. rewrite Hn in *. simpl in *. lia. }
  destruct (db_log db !! (from - 1)) as [r|] eqn:Hr; cbn [mbind Outcome_bind] in Hpred.
  - destruct (lw_rows _ _ Hwf _ _ Hr) as [Hrange (e & He & Hi)]. unfold row_entry in He. rewrite He in Hpred.
    injection Hpred as <-. simpl. split; [done|]. split; [intros q [= <-]; unfold pos_ok; lia|].
    destruct (Z.eq_dec (from - 1) (idx (db_last_purged db))) as [Heq|Hne].
    + destruct (entries !! (from - 1)) as [e'|] eqn:He'; [apply Hraft in He' as [? _]; lia|].
      destruct (db_last_purged db) as [q|] eqn:Hq; simpl in *; [|lia]. f_equal. rewrite Heq in Hr. by apply (lw_purged_row _ _ Hwf q r).
    + assert (entries !! (from - 1) = Some e) as ->; [|done]. apply Hraft. split; [lia|]. by exists r.
  - injection Hpred as <-. destruct Hsome as [|[q Hq]]; [done|]. simpl in Hq. rewrite Hq.
    destruct (entries !! (from - 1)) as [e'|] eqn:He'; [apply Hraft in He' as (_ & ? & ? & _); congruence|].
    destruct (db_last_purged db) as [q'|] eqn:Hq'; [|done]. destruct (pos_index q' =? from - 1) eqn:?; [|done]. to_prop.
    injection Hq as ->. split; [done|]. split; [|done]. intros ? [= <-]. apply Hpos. by right; left.
Qed.

Lemma truncate_wf db v from db' :
  log_wf db v → 0 ≤ from → truncate_logs db from = Ok db' →
  (∃ v', log_wf db' v') ∧ raft_log db' = raft_truncate (raft_log db) from.
Proof.
  intros Hwf Hfrom Htr. unfold truncate_logs, visible_log_end, read_credits in Htr.
  pose proof (lw_end _ _ Hwf) as Hend. pose proof (lw_positions _ _ Hwf) as Hpos.
  assert (rl_last (raft_log db) = v) as Hlast by (unfold raft_log; by rewrite Hend).
  unfold raft_truncate. rewrite Hlast. rewrite Hend in Htr. cbn [ok_or mbind Outcome_bind] in Htr.
  destruct v as [old|]; simpl.
  2:{ injection Htr as <-. rewrite (proj2 (Z.ltb_lt _ _)) by lia. split; [by exists None|done]. }
  destruct (pos_index old <? from) eqn:Hold; to_prop; [injection Htr as <-; split; [by exists (Some old)|done]|].
  rewrite reaches_idx in Htr by done. destruct (from <=? idx (db_last_purged db)) eqn:Hpurged; [done|]. to_prop.
  rewrite (lw_credits _ _ Hwf) in Htr. simpl in Htr. apply outcome_bind_ok in Htr as (p & Hp & Htr).
  destruct (negb (from =? 0) && negb (bool_decide (is_Some p))) eqn:Hsome; [done|].
  apply (predecessor_ok db (Some old)) in Hp as (Hpi & Hpok & Hpeq); [|done..|].
  2:{ apply andb_false_iff in Hsome as [?|?]; to_prop; auto. }
  rewrite after_index_idx in Htr by auto.
  assert ((if Z.max from (idx (db_last_applied db) + 1) <=? pos_index old
    then remove_credits (pending (db_log db) (bound db + 1) (pos_index old))
           (log_range (db_log db) (Z.max from (idx (db_last_applied db) + 1)) (pos_index old))
    else Ok (pending (db_log db) (bound db + 1) (pos_index old))) = Ok (pending (db_log db) (bound db + 1) (from - 1))) as Hcr.
  { destruct (Z.le_gt_cases from (bound db)) as [Hb|Hb].
    - assert (bound db = idx (db_last_applied db)) as Hb' by (unfold bound in *; lia).
      rewrite (pending_empty _ _ (from - 1)) by lia. rewrite Z.max_r by lia. 
      destruct (idx (db_last_applied db) + 1 <=? pos_index old) eqn:?; to_prop; [|by rewrite pending_empty by lia].
      rewrite <- Hb', remove_prefix by lia. by rewrite pending_empty by lia.
    - rewrite (proj2 (Z.leb_le _ _)) by (unfold bound in *; lia). replace (Z.max _ _) with (from - 1 + 1) by (unfold bound in *; lia).
      apply remove_suffix; lia. }
  rewrite Hcr in Htr. cbn [mbind Outcome_bind] in Htr. injection Htr as <-.
  split.
  - exists p.
    split; simpl; change (bound (mkLogDb _ _ _ _ _)) with (bound db); rewrite ?Hpi; try done; try apply Hwf.
    + eapply within_limits_sub; [..|apply Hwf]; simpl; lia.
    + intros i Hi. apply (lw_dense _ _ Hwf). simpl. lia.
    + lia.
    + intros q [Hq|Hq]; [by apply Hpok|]. apply Hpos. by right.
  - apply raft_log_eq; cbn [rl_purged rl_last rl_entries]; [done|done|]. intros i e.
    rewrite (raft_log_entry _ p) by done. rewrite map_lookup_filter_Some, (raft_log_entry db _ _ _ Hend). simpl.
    rewrite Hpi. naive_solver lia.
Qed.
(** *** Purging *)
Definition purge_ok db (p : Position) : Prop :=
  pos_ok p ∧ ∀ r e, db_log db !! pos_index p = Some r → row_entry r e → en_log_id e = p.

Lemma purge_is_done_spec purged p done :
  (∀ q, purged = Some q → pos_ok q) → pos_ok p → purge_is_done purged p = Ok done → done = (pos_index p <=? idx purged).
Proof.
  intros Hpos Hp Hdone. unfold purge_is_done in Hdone. destruct purged as [old|]; simpl in *.
  - destruct (pos_index p <? pos_index old) eqn:?, (pos_index p =? pos_index old) eqn:?; simpl in *;
      try (destruct (negb _) in Hdone; [done|]); injection Hdone as <-; to_prop; symmetry; rewrite ?Z.leb_le, ?Z.leb_gt; lia.
  - injection Hdone as <-. unfold pos_ok in Hp. symmetry. apply Z.leb_gt. lia.
Qed.

Lemma purge_wf db v p db' :
  log_wf db v → purge_ok db p → purge_logs db p = Ok db' →
  (∃ v', log_wf db' v') ∧ raft_log db' = raft_purge (raft_log db) p.
Proof.
  intros Hwf [Hp Hrow] Hpurge. unfold purge_logs, visible_log_end, read_credits in Hpurge.
  pose proof (lw_end _ _ Hwf) as Hend. pose proof (lw_positions _ _ Hwf) as Hpos. pose proof Hp as [Hp0 _].
  assert (rl_last (raft_log db) = v) as Hlast by (unfold raft_log; by rewrite Hend).
  rewrite Hend, (lw_credits _ _ Hwf) in Hpurge. cbn [ok_or mbind Outcome_bind] in Hpurge.
  apply outcome_bind_ok in Hpurge as (done & Hdone & Hpurge).
  apply purge_is_done_spec in Hdone as ->; [|by auto|done]. unfold raft_purge. cbn [rl_purged raft_log].
  destruct (pos_index p <=? idx (db_last_purged db)) eqn:Hnew; [injection Hpurge as <-; split; [by exists v|done]|]. to_prop.
  rewrite !after_index_idx in Hpurge by auto. set (bound' := Z.max (pos_index p) (idx (db_last_applied db))).
  set (v' := match v with Some visible => if pos_index p <? pos_index visible then Some visible else Some p | None => Some p end) in *.
  assert (idx v' = Z.max (idx v) (pos_index p)) as Hv'.
  { unfold v'. destruct v as [visible|]; simpl; [|lia]. destruct (_ <? _) eqn:?; simpl; to_prop; lia. }
  assert (match v with
    | Some visible => if Z.max (idx (db_last_purged db) + 1) (idx (db_last_applied db) + 1) <=? Z.min (pos_index p) (pos_index visible)
        then remove_credits (pending (db_log db) (bound db + 1) (idx v))
               (log_range (db_log db) (Z.max (idx (db_last_purged db) + 1) (idx (db_last_applied db) + 1)) (Z.min (pos_index p) (pos_index visible)))
        else Ok (pending (db_log db) (bound db + 1) (idx v))
    | None => Ok (pending (db_log db) (bound db + 1) (idx v)) end = Ok (pending (db_log db) (bound' + 1) (idx v'))) as Hcr.
  { pose proof (idx_bounds (db_last_purged db) ltac:(auto)). pose proof (idx_bounds (db_last_applied db) ltac:(auto)).
    destruct v as [visible|]; [|rewrite Hv'; by rewrite !pending_empty by (unfold bound', bound; simpl; lia)].
    replace (Z.max (idx (db_last_purged db) + 1) _) with (bound db + 1) by (unfold bound; lia). simpl in *.
    destruct (bound db + 1 <=? _) eqn:?; to_prop.
    - assert (bound' = pos_index p) as -> by (unfold bound', bound in *; lia). rewrite remove_prefix by lia. f_equal.
      destruct (Z.le_gt_cases (pos_index visible) (pos_index p)); [by rewrite !pending_empty by lia|]. f_equal; lia.
    - destruct (Z.le_gt_cases (pos_index visible) (pos_index p)); [by rewrite !pending_empty by (unfold bound', bound in *; lia)|].
      do 2 f_equal; unfold bound', bound in *; lia. }
  rewrite Hcr in Hpurge. cbn [mbind Outcome_bind] in Hpurge. injection Hpurge as <-. split.
  - exists v'. split; simpl; change (bound (mkLogDb _ _ _ _ _)) with bound'; rewrite ?Hv'; try done; try apply Hwf.
    + destruct (Z.le_gt_cases (idx v) (pos_index p)); [rewrite pending_empty by lia; split; vm_compute; discriminate|].
      eapply within_limits_sub; [..|apply Hwf]; unfold bound', bound; lia.
    + intros i Hi. apply (lw_dense _ _ Hwf). unfold bound', bound in *. lia.
    + lia.
    + intros q [Hq|[[= <-]|Hq]]; [|done|by auto]. unfold v' in Hq. destruct v as [visible|]; [|by injection Hq as <-].
      destruct (_ <? _) in Hq; injection Hq as <-; auto.
    + intros q r e [= <-] Hr He. by eapply Hrow.
  - apply raft_log_eq; cbn [rl_purged rl_last rl_entries]; [done| |].
    + rewrite Hlast. unfold raft_log. simpl. unfold v'. destruct v as [visible|]; simpl; [done|]. by rewrite (proj2 (Z.ltb_ge _ _)) by lia.
    + intros i e. rewrite (raft_log_entry _ v') by done. rewrite map_lookup_filter_Some, (raft_log_entry db _ _ _ Hend). simpl.
      rewrite Hv'. naive_solver lia.
Qed.

(** *** Applying and installing *)
Definition apply_ok db v (p : Position) : Prop :=
  pos_ok p ∧ pos_index p = idx (db_last_applied db) + 1 ∧ pos_index p ≤ idx v ∧ idx (db_last_purged db) ≤ idx (db_last_applied db).

Lemma apply_log_wf db v p :
  log_wf db v → apply_ok db v p → ∃ db', apply_log db p = Ok db' ∧ log_wf db' v ∧ raft_log db' = raft_log db.
Proof.
  intros Hwf (Hp & Hnext & Hvis & Hpurged). unfold apply_log, release_applied_credits, visible_in_txn, read_credits.
  pose proof (lw_positions _ _ Hwf) as Hpos. rewrite (lw_end _ _ Hwf), (lw_credits _ _ Hwf). cbn [ok_or mbind Outcome_bind].
  destruct v as [visible|]; [|unfold pos_ok in Hp; simpl in *; lia]. simpl in Hvis.
  assert (bound db + 1 = pos_index p) as Hb by (unfold bound; lia).
  rewrite after_index_idx by auto. rewrite Z.min_l by lia. rewrite (proj2 (Z.ltb_ge _ _)) by lia.
  rewrite <- Hnext, Hb. simpl. rewrite remove_prefix by lia. cbn [mbind Outcome_bind]. eexists. split; [done|]. split; [|unfold raft_log; simpl; by rewrite (lw_end _ _ Hwf)].
  set (db' := mkLogDb _ _ _ _ _). assert (bound db' = pos_index p) as Hb' by (unfold bound; simpl; lia).
  split; simpl; rewrite ?Hb'; try done; try apply Hwf.
  - eapply within_limits_sub; [..|apply Hwf]; simpl; lia.
  - intros i Hi. apply (lw_dense _ _ Hwf). simpl. lia.
  - intros q [Hq|[Hq|[= <-]]]; auto.
Qed.

Lemma recount_range l c c' :
  outcome_fold recount_row c l = Ok c' →
  (within_limits c → within_limits c') ∧
  pd_entries c' = pd_entries c + row_sum (λ _, 1) l ∧ pd_bytes c' = pd_bytes c + row_sum row_len l.
Proof.
  revert c. induction l as [|[i r] l IH]; intros c; simpl; [intros [= <-]; split; [done|lia]|].
  intros (c1 & Hc1 & Hrest)%outcome_bind_ok. apply IH in Hrest as (Hl & He & Hb). unfold recount_row in Hc1.
  destruct (u32_max <=? _); [done|]. destruct (u64_max <? _); [done|]. destruct (_ || _) eqn:Hlim; [done|].
  injection Hc1 as <-. simpl in *. to_prop. split; [intros _; apply Hl; by split|lia].
Qed.

Definition install_ok db (p : Position) : Prop := pos_ok p ∧ bound db ≤ pos_index p.

Lemma install_log_wf db v p db' :
  log_wf db v → install_ok db p → install_log db (Some p) = Ok db' →
  (∃ v', log_wf db' v') ∧ rl_purged (raft_log db') = rl_purged (raft_log db) ∧
  idx (rl_last (raft_log db')) = Z.max (idx (rl_last (raft_log db))) (pos_index p) ∧
  ∀ i, pos_index p < i → rl_entries (raft_log db') !! i = rl_entries (raft_log db) !! i.
Proof.
  intros Hwf [Hp Hb] Hin. unfold install_log, visible_log_end, recount_unapplied_credits, visible_in_txn in Hin.
  pose proof (lw_positions _ _ Hwf) as Hpos. pose proof (lw_end _ _ Hwf) as Hend. pose proof Hp as [Hp0 _].
  rewrite Hend in Hin. cbn [ok_or mbind Outcome_bind] in Hin. simpl in Hin.
  set (v' := install_visible v (Some p)) in *.
  assert (idx v' = Z.max (idx v) (pos_index p)) as Hv'.
  { unfold v', install_visible. destruct v as [visible|]; simpl; [|lia]. destruct (_ <? _) eqn:?; simpl; to_prop; lia. }
  assert (after_index (Some p) = pos_index p + 1) as Hafter by (apply after_index_idx; by intros ? [= <-]).
  simpl in Hafter. rewrite Hafter in Hin. apply outcome_bind_ok in Hin as (c & Hc & [= <-]).
  assert (c = pending (db_log db) (pos_index p + 1) (idx v') ∧ within_limits c) as [-> Hl].
  { destruct v' as [last|]; simpl in *; [|lia]. destruct (_ <=? _) eqn:?; to_prop.
    - apply recount_range in Hc as (Hl & He & Hby). rewrite log_range_weight in He, Hby. simpl in *.
      split; [destruct c; simpl in *; unfold pending; f_equal; lia|]. apply Hl. split; vm_compute; discriminate.
    - injection Hc as <-. rewrite pending_empty by lia. split; [done|]. split; vm_compute; discriminate. }
  assert (∀ c, bound (mkLogDb (db_log db) (Some v') (db_last_purged db) (Some p) c) = pos_index p) as Hb'
    by (intros; unfold bound in *; simpl; lia).
  split; [|split; [done|split]].
  - exists v'. split; simpl; rewrite ?Hb', ?Hv'; rewrite ?Hv' in Hl; try done; try apply Hwf.
    + intros i Hi. apply (lw_dense _ _ Hwf). lia.
    + pose proof (lw_order _ _ Hwf). lia.
    + intros q [Hq|[Hq|[= <-]]]; [|by auto|done]. unfold v', install_visible in Hq.
      destruct v as [visible|]; [|by injection Hq as <-]. destruct (_ <? _) in Hq; injection Hq as <-; auto.
  - unfold raft_log. rewrite Hend. simpl. done.
  - intros i Hi. apply option_eq. intros e. rewrite (raft_log_entry _ v'), (raft_log_entry _ v) by done. simpl. rewrite Hv'.
    unfold bound in Hb. naive_solver lia.
Qed.
(** *** Collecting *)
Definition invisible db v (i : Z) : Prop := i ≤ idx (db_last_purged db) ∨ idx v < i.

Lemma foldr_delete_lookup (rows : gmap Z Row) keys i :
  foldr delete rows keys !! i = if decide (i ∈ keys) then None else rows !! i.
Proof.
  induction keys as [|k keys IH]; simpl; [done|]. destruct (decide (i = k)) as [->|Hne].
  - rewrite lookup_delete_eq, decide_True; [done|by left].
  - rewrite lookup_delete_ne, IH by done. destruct (decide (i ∈ keys)) as [Hin|Hin];
      [by rewrite decide_True by (by right)|by rewrite decide_False by (by rewrite elem_of_cons; naive_solver)].
Qed.

Lemma select_rows_spec batch rows batch' more :
  select_rows batch rows = (batch', more) → zlen batch.1 ≤ GC_ROWS →
  zlen batch'.1 ≤ GC_ROWS ∧ (if more then batch'.1 ≠ [] else ∃ l, l = rows.*1 ∧ batch'.1 = batch.1 ++ l) ∧
  ∀ i, i ∈ batch'.1 → i ∈ batch.1 ∨ i ∈ rows.*1.
Proof.
  revert batch. induction rows as [|[i r] rows IH]; intros [keys bytes]; simpl.
  { intros [= <- <-] Hlen. split; [done|]. split; [exists []; by rewrite app_nil_r|auto]. }
  destruct (zlen keys =? GC_ROWS) eqn:Hfull; to_prop; simpl.
  { intros [= <- <-] Hlen. split; [done|]. split; [|auto]. simpl. intros ->. by vm_compute in Hfull. }
  destruct (negb (bool_decide (keys = [])) && (GC_BYTES <? _)) eqn:Hbytes.
  { intros [= <- <-] Hlen. split; [done|]. split; [|auto]. simpl. to_prop. done. }
  intros Hsel Hlen. apply IH in Hsel as (Hlen' & Hmore & Hin).
  - split; [done|]. split.
    + destruct more; [done|]. destruct Hmore as (l & -> & ->). exists (i :: rows.*1). split; [done|]. simpl. by rewrite <- app_assoc.
    + intros k [[Hk|Hk%list_elem_of_singleton]%elem_of_app|Hk]%Hin; rewrite elem_of_cons; auto.
  - unfold zlen in *. simpl in *. rewrite length_app. simpl. lia.
Qed.

Lemma log_range_keys rows low high i : i ∈ (log_range rows low high).*1 ↔ is_Some (rows !! i) ∧ low ≤ i ≤ high.
Proof.
  rewrite list_elem_of_fmap. split.
  - intros ([k r] & -> & [Hk ?]%log_range_elem). split; [by exists r|done].
  - intros [[r Hr] Hi]. exists (i, r). split; [done|]. by apply log_range_elem.
Qed.

Lemma gc_spec db v :
  log_wf db v → ∃ keys more db', gc_invisible_logs db = Ok (more, db') ∧
    db' = mkLogDb (foldr delete (db_log db) keys) (Some v) (db_last_purged db) (db_last_applied db) (db_unapplied_credits db) ∧
    (∀ i, i ∈ keys → is_Some (db_log db !! i) ∧ invisible db v i) ∧
    (if more : bool then keys ≠ [] else ∀ i, is_Some (db_log db !! i) → invisible db v i → i ∈ keys).
Proof.
  intros Hwf. unfold gc_invisible_logs, visible_log_end. rewrite (lw_end _ _ Hwf). cbn [ok_or mbind Outcome_bind].
  pose proof (lw_positions _ _ Hwf) as Hpos.
  destruct (match db_last_purged db with Some purged => _ | None => _ end) as [[keys bytes] more] eqn:Hfirst.
  assert (zlen keys ≤ GC_ROWS ∧ (∀ i, i ∈ keys → is_Some (db_log db !! i) ∧ i ≤ idx (db_last_purged db)) ∧
    if more then keys ≠ [] else ∀ i, is_Some (db_log db !! i) → i ≤ idx (db_last_purged db) → i ∈ keys) as (Hlen & Hkeys & Hdone).
  { assert (∀ i, is_Some (db_log db !! i) → 0 ≤ i) as Hrow by (intros i [r Hr]; apply (lw_rows _ _ Hwf _ _ Hr)).
    destruct (db_last_purged db) as [purged|]; simpl in *.
    - apply select_rows_spec in Hfirst as (Hlen & Hmore & Hin); [|vm_compute; discriminate]. simpl in *. split; [done|]. split.
      + intros i [?%not_elem_of_nil|[? ?]%log_range_keys]%Hin; [done|split; [done|lia]].
      + destruct more; [done|]. destruct Hmore as (l & -> & ->). intros i Hi Hle. apply log_range_keys. split; [done|]. split; [by apply Hrow|done].
    - injection Hfirst as <- <- <-. split; [vm_compute; discriminate|]. split; [by intros i ?%not_elem_of_nil|].
      intros i Hi%Hrow ?. lia. }
  assert (∃ low, low = idx v + 1 ∧ (if match v with Some visible => pos_index visible =? u64_max | None => false end
      then ((keys, bytes), false) else select_rows (keys, bytes) (log_range (db_log db) low u64_max)) =
    match v with
    | Some visible => if pos_index visible =? u64_max then ((keys, bytes), false)
        else select_rows (keys, bytes) (log_range (db_log db) (pos_index visible + 1) u64_max)
    | None => select_rows (keys, bytes) (log_range (db_log db) 0 u64_max) end) as (low & Hlow & Hsecond).
  { exists (idx v + 1). split; [done|]. by destruct v. }
  assert (match v with Some visible => pos_index visible =? u64_max | None => false end = false) as Hmax.
  { destruct v as [visible|]; [|done]. apply Z.eqb_neq. assert (pos_ok visible) as [_ ?] by auto. lia. }
  rewrite <- Hsecond, Hmax. clear Hsecond. destruct more.
  { exists keys, true. eexists. split; [done|]. simpl. split; [done|]. split; [|done].
    intros i [? ?]%Hkeys. split; [done|by left]. }
  destruct (select_rows (keys, bytes) _) as [[keys' bytes'] more'] eqn:Hsel. exists keys', more'. eexists. split; [done|]. simpl.
  split; [done|]. apply select_rows_spec in Hsel as (_ & Hmore & Hin); [|done]. simpl in *. split.
  - intros i [[? ?]%Hkeys|[? ?]%log_range_keys]%Hin; (split; [done|]); [by left|right; lia].
  - destruct more'; [done|]. destruct Hmore as (l & -> & ->). intros i Hi [Hle|Hgt]; rewrite elem_of_app; [left; by apply Hdone|right].
    apply log_range_keys. split; [done|]. destruct Hi as [r Hr]. destruct (lw_rows _ _ Hwf _ _ Hr). lia.
Qed.

Lemma gc_wf db v more db' :
  log_wf db v → gc_invisible_logs db = Ok (more, db') →
  log_wf db' v ∧ raft_log db' = raft_log db ∧ db_last_purged db' = db_last_purged db ∧
  (if more : bool then (size (db_log db') < size (db_log db))%nat
   else ∀ i, is_Some (db_log db' !! i) → idx (db_last_purged db') < i ≤ idx v).
Proof.
  intros Hwf Hgc. destruct (gc_spec _ _ Hwf) as (keys & more0 & db0 & Heq & -> & Hkeys & Hmore).
  rewrite Heq in Hgc. injection Hgc as -> <-. clear Heq.
  assert (∀ i, idx (db_last_purged db) < i ≤ idx v → foldr delete (db_log db) keys !! i = db_log db !! i) as Hsame.
  { intros i Hi. rewrite foldr_delete_lookup, decide_False; [done|]. intros [_ [?|?]]%Hkeys; lia. }
  assert (∀ i r, foldr delete (db_log db) keys !! i = Some r → db_log db !! i = Some r ∧ i ∉ keys) as Hsub.
  { intros i r. rewrite foldr_delete_lookup. by case_decide. }
  assert (∀ f, weight f (foldr delete (db_log db) keys) (bound db + 1) (idx v) = weight f (db_log db) (bound db + 1) (idx v)) as Hweight.
  { intros f. clear Hmore Hsame Hsub. induction keys as [|k keys IH]; simpl; [done|].
    rewrite <- IH by (intros; apply Hkeys; by right). apply weight_delete. destruct (Hkeys k) as [_ [?|?]]; [by left|..]; unfold bound; lia. }
  split; [|split; [|split; [done|]]].
  - split; simpl; change (bound (mkLogDb _ _ _ _ _)) with (bound db); unfold pending; rewrite ?Hweight; try done; try apply Hwf.
    + intros i r [Hr _]%Hsub. by apply (lw_rows _ _ Hwf).
    + intros i Hi. rewrite Hsame by (unfold bound in Hi; lia). by apply (lw_dense _ _ Hwf).
    + intros p r e Hp [Hr _]%Hsub. by eapply lw_purged_row.
  - apply raft_log_eq; [done| |].
    + unfold raft_log. simpl. by rewrite (lw_end _ _ Hwf).
    + intros i e. rewrite (raft_log_entry _ v), (raft_log_entry db v) by (done || apply Hwf). simpl.
      split; intros [Hi (r & Hr & He)]; (split; [done|]; exists r; split; [|done]); by rewrite Hsame in * by done.
  - destruct more; simpl.
    + destruct keys as [|k keys]; [done|]. destruct (Hkeys k) as [[r Hr] _]; [by left|].
      apply map_subset_size. split.
      * apply map_subseteq_spec. intros i x Hx. by apply Hsub.
      * intros Hsub'. rewrite map_subseteq_spec in Hsub'. apply Hsub' in Hr. simpl in Hr. by rewrite lookup_delete_eq in Hr.
    + intros i [r Hr]. apply Hsub in Hr as [Hr Hnot].
      destruct (Z.le_gt_cases i (idx (db_last_purged db))); [exfalso; apply Hnot, Hmore; [by exists r|by left]|].
      destruct (Z.le_gt_cases i (idx v)); [lia|]. exfalso. apply Hnot, Hmore; [by exists r|by right].
Qed.
(** *** Reading *)
Lemma get_logs_ok db v start last :
  log_wf db v → 0 ≤ start → ∃ es, get_logs db start last = Ok es ∧
    StronglySorted (λ a b, pos_index (en_log_id a) < pos_index (en_log_id b)) es ∧
    ∀ e, e ∈ es ↔ start ≤ pos_index (en_log_id e) < last ∧ rl_entries (raft_log db) !! pos_index (en_log_id e) = Some e.
Proof.
  intros Hwf Hstart. unfold get_logs, visible_log_end. rewrite (lw_end _ _ Hwf). cbn [ok_or mbind Outcome_bind].
  pose proof (lw_positions _ _ Hwf) as Hpos. pose proof (λ i e, raft_log_entry db v i e (lw_end _ _ Hwf)) as Hraft.
  assert (∀ low high, (∀ i, low ≤ i ≤ high ↔ start ≤ i < last ∧ idx (db_last_purged db) < i ≤ idx v) →
    ∃ es, outcome_map (λ row : Z * Row, sto (entry_from_json row.2)) (log_range (db_log db) low high) = Ok es ∧
      StronglySorted (λ a b, pos_index (en_log_id a) < pos_index (en_log_id b)) es ∧
      ∀ e, e ∈ es ↔ start ≤ pos_index (en_log_id e) < last ∧ rl_entries (raft_log db) !! pos_index (en_log_id e) = Some e) as Hread.
  { intros low high Hrange.
    assert (∃ es, Forall2 (λ (row : Z * Row) e, row_entry row.2 e ∧ pos_index (en_log_id e) = row.1) (log_range (db_log db) low high) es) as [es Hes].
    { assert (Forall (λ row : Z * Row, ∃ e, row_entry row.2 e ∧ pos_index (en_log_id e) = row.1) (log_range (db_log db) low high)) as Hall.
      { apply Forall_forall. intros [i r] [Hr _]%log_range_elem. apply (lw_rows _ _ Hwf _ _ Hr). }
      induction Hall as [|row l [e He] _ [es Hes]]; [by exists []|]. exists (e :: es). by constructor. }
    exists es. split; [|split].
    - apply outcome_map_ok. eapply Forall2_impl; [done|]. intros row e [He _]. unfold row_entry in He. by rewrite He.
    - pose proof (log_range_sorted (db_log db) low high) as Hs. revert Hs. clear Hrange Hraft.
      induction Hes as [|row e l es [He Hi] Hes IH]; intros Hs; [constructor|]. inversion Hs as [|? ? Hs' Hlt]; subst.
      constructor; [by apply IH|]. apply Forall_forall. intros e' He'.
      destruct (list_elem_of_lookup_1 _ _ He') as [n Hn]. destruct (Forall2_lookup_r _ _ _ _ _ Hes Hn) as (row' & Hrow' & _ & ->).
      rewrite Hi. apply (proj1 (Forall_forall _ _) Hlt). by eapply list_elem_of_lookup_2.
    - intros e. rewrite Hraft. split.
      + intros [n Hn]%list_elem_of_lookup_1. destruct (Forall2_lookup_r _ _ _ _ _ Hes Hn) as ([i r] & Hrow & He & Hi).
        apply list_elem_of_lookup_2, log_range_elem in Hrow as [Hr Hin]. simpl in *. rewrite Hi. apply Hrange in Hin as [? ?]. eauto.
      + intros (Hin & Hvis & r & Hr & He). assert ((pos_index (en_log_id e), r) ∈ log_range (db_log db) low high) as Hrow
          by (apply log_range_elem; split; [done|by apply Hrange]).
        apply list_elem_of_lookup_1 in Hrow as [n Hn]. destruct (Forall2_lookup_l _ _ _ _ _ Hes Hn) as (e' & He'n & He' & _).
        simpl in He'. unfold row_entry in *. assert (e' = e) as <- by congruence. by eapply list_elem_of_lookup_2. }
  assert (∀ low high, high < low → (∀ i, low ≤ i ≤ high ↔ start ≤ i < last ∧ idx (db_last_purged db) < i ≤ idx v) →
    ∃ es, Ok [] = Ok es ∧ StronglySorted (λ a b, pos_index (en_log_id a) < pos_index (en_log_id b)) es ∧
      ∀ e, e ∈ es ↔ start ≤ pos_index (en_log_id e) < last ∧ rl_entries (raft_log db) !! pos_index (en_log_id e) = Some e) as Hnone.
  { intros low high Hempty Hrange. destruct (Hread _ _ Hrange) as (es & Hes & Hrest). exists es. split; [|done].
    by rewrite log_range_empty in Hes by done. }
  pose proof (idx_bounds (db_last_purged db) ltac:(auto)) as Hpb. pose proof (idx_bounds v ltac:(auto)) as Hvb.
  destruct v as [visible|]; simpl in *; [|apply (Hnone 0 (-1)); [lia|intros; lia]].
  destruct (last <=? start) eqn:Hrange; to_prop; [apply (Hnone 0 (-1)); [lia|intros; lia]|].
  assert (match db_last_purged db with Some id => pos_index id =? u64_max | None => false end = false) as ->.
  { destruct (db_last_purged db) as [p|]; [|done]. simpl in Hpb. apply Z.eqb_neq. lia. }
  rewrite orb_false_r.
  assert (match db_last_purged db with Some id => Z.max start (sat_add64 (pos_index id) 1) | None => start end
    = Z.max start (idx (db_last_purged db) + 1)) as ->.
  { destruct (db_last_purged db) as [p|]; simpl in *; [unfold sat_add64|]; lia. }
  destruct (_ <? _) eqn:Hempty; to_prop; [eapply Hnone; [exact Hempty|intros; lia]|apply Hread; intros; lia].
Qed.

(** *** The preview of an append *)
#[local] Arguments charge {_} _ _ _ _ _ : simpl never.
Definition previews (e : Entry) (il : Z * Z) : Prop :=
  ∃ r, entry_to_json e = Ok r ∧ il = (pos_index (en_log_id e), row_len r).

Lemma preview_fold db applied v0 es sizes a a' :
  Forall2 previews es sizes →
  (∀ i, reaches applied i = false → reaches (db_last_purged db) i = false → ad_appended a !! i = None → ad_rows a !! i = db_log db !! i) →
  outcome_fold (append_entry v0 (db_last_purged db) applied) a es = Ok a' →
  outcome_fold (λ acc '(index, length),
    if reaches applied index || reaches (db_last_purged db) index then Ok acc
    else charge (db_log db) v0 index length acc) (ad_appended a, ad_credits a) sizes = Ok (ad_appended a', ad_credits a').
Proof.
  intros Hsizes. revert a. induction Hsizes as [|e ? es sizes (r & Hr & ->) _ IH]; intros a Hsame; simpl; [by intros [= <-]|].
  intros (a1 & Hstep & Hrest)%outcome_bind_ok. unfold append_entry in Hstep. rewrite Hr in Hstep. cbn [sto map_err mbind Outcome_bind] in Hstep.
  destruct (match opt_or _ _ with Some _ => _ | None => _ end) in Hstep; [done|].
  destruct (reaches applied (pos_index (en_log_id e))) eqn:Happlied; simpl in *.
  { injection Hstep as <-. apply IH in Hrest; [done|]. simpl. intros i Hi1 Hi2 Hi3. rewrite lookup_insert_ne; [auto|]. by intros <-; congruence. }
  destruct (reaches (db_last_purged db) (pos_index (en_log_id e))) eqn:Hpurged; simpl in *.
  { injection Hstep as <-. apply IH in Hrest; [done|]. simpl. intros i Hi1 Hi2 Hi3. rewrite lookup_insert_ne; [auto|]. by intros <-; congruence. }
  apply outcome_bind_ok in Hstep as ([ap cr] & Hstep & [= <-]). apply outcome_bind_ok in Hstep as ([ap' cr'] & Hcharge & Hstep).
  destruct (UNAPPLIED_ENTRIES <? _); [done|]. destruct (UNAPPLIED_BYTES <? _); [done|]. injection Hstep as -> ->.
  assert (charge (db_log db) v0 (pos_index (en_log_id e)) (row_len r) (ad_appended a, ad_credits a) = Ok (ap, cr)) as ->.
  { rewrite <- Hcharge. unfold charge. destruct (ad_appended a !! pos_index (en_log_id e)) eqn:Hseen; [done|]. by rewrite Hsame. }
  cbn [mbind Outcome_bind]. apply IH in Hrest; [done|]. simpl. intros i Hi1 Hi2 Hi3.
  assert (∃ n, ap = <[pos_index (en_log_id e) := n]> (ad_appended a)) as [n ->].
  { unfold charge in Hcharge. apply outcome_bind_ok in Hcharge as (c & _ & Hcharge). destruct (u64_max <? _); [done|].
    injection Hcharge as <- _. by eexists. }
  apply lookup_insert_None in Hi3 as [? ?]. rewrite lookup_insert_ne by done. auto.
Qed.
(** ** A store over its lifetime *)
Inductive LogOp :=
| Op_Append (es : list Entry)
| Op_Truncate (from : Z)
| Op_Purge (last_purged : Position)
| Op_Apply (applied : Position)
| Op_Install (applied : Position)
| Op_Collect.

Definition log_do (op : LogOp) db : Outcome LogDb :=
  match op with
  | Op_Append es => admit_and_append db (db_last_applied db) es
  | Op_Truncate from => truncate_logs db from
  | Op_Purge last_purged => purge_logs db last_purged
  | Op_Apply applied => apply_log db applied
  | Op_Install applied => install_log db (Some applied)
  | Op_Collect => snd <$> gc_invisible_logs db
  end.

(** What Raft respects when it asks for an operation. *)
Definition op_ok (op : LogOp) db v : Prop :=
  match op with
  | Op_Append es => append_ok db v es
  | Op_Truncate from => 0 ≤ from
  | Op_Purge last_purged => purge_ok db last_purged
  | Op_Apply applied => apply_ok db v applied
  | Op_Install applied => install_ok db applied
  | Op_Collect => True
  end.

Inductive log_run : list LogOp → LogDb → Prop :=
| run_new : log_run [] log_db_new
| run_op ops op db v db' :
    log_run ops db → db_visible_log_end db = Some v → op_ok op db v → log_do op db = Ok db' → log_run (ops ++ [op]) db'.

(** The operations as Raft means them. A snapshot stands for the entries up to its
    position, so that only those above it are said to stay. *)
Inductive raft_step : RaftLog → LogOp → RaftLog → Prop :=
| raft_do_append l es : raft_step l (Op_Append es) (raft_append l es)
| raft_do_truncate l from : raft_step l (Op_Truncate from) (raft_truncate l from)
| raft_do_purge l p : raft_step l (Op_Purge p) (raft_purge l p)
| raft_do_apply l p : raft_step l (Op_Apply p) l
| raft_do_install l p l' :
    rl_purged l' = rl_purged l → idx (rl_last l') = Z.max (idx (rl_last l)) (pos_index p) →
    (∀ i, pos_index p < i → rl_entries l' !! i = rl_entries l !! i) → raft_step l (Op_Install p) l'
| raft_do_collect l : raft_step l Op_Collect l.

Inductive raft_run : list LogOp → RaftLog → Prop :=
| raft_new : raft_run [] (mkRaftLog None None ∅)
| raft_op ops op l l' : raft_run ops l → raft_step l op l' → raft_run (ops ++ [op]) l'.

Lemma log_do_wf op db v db' :
  log_wf db v → op_ok op db v → log_do op db = Ok db' →
  (∃ v', log_wf db' v') ∧ raft_step (raft_log db) op (raft_log db').
Proof.
  intros Hwf Hok Hdo. destruct op as [es|from|p|p|p|]; simpl in Hok, Hdo.
  - apply (append_wf _ v) in Hdo as [? ->]; [|done..]. split; [done|constructor].
  - apply (truncate_wf _ v) in Hdo as [? ->]; [|done..]. split; [done|constructor].
  - apply (purge_wf _ v) in Hdo as [? ->]; [|done..]. split; [done|constructor].
  - destruct (apply_log_wf _ _ _ Hwf Hok) as (db0 & Heq & Hwf' & Hraft). rewrite Heq in Hdo. injection Hdo as <-. rewrite Hraft.
    split; [by exists v|constructor].
  - destruct (install_log_wf _ _ _ _ Hwf Hok Hdo) as (? & ? & ? & ?). split; [done|by constructor].
  - destruct (gc_invisible_logs db) as [[more db0]| |] eqn:Hgc; try done. injection Hdo as <-.
    apply (gc_wf _ v) in Hgc as (? & -> & _); [|done]. split; [by exists v|constructor].
Qed.

Lemma log_run_wf ops db : log_run ops db → (∃ v, log_wf db v) ∧ raft_run ops (raft_log db).
Proof.
  induction 1 as [|ops op db v db' _ [[v0 Hwf] Hraft] Hv Hok Hdo].
  - split; [exists None; apply new_wf|constructor].
  - assert (v0 = v) as -> by (pose proof (lw_end _ _ Hwf); congruence).
    destruct (log_do_wf _ _ _ _ Hwf Hok Hdo) as [? ?]. split; [done|by econstructor].
Qed.

(** C17: the credit ledger of a store is exact. After any sequence of the
    operations Raft asks for, the ledger holds the number and the bytes of the
    visible entries that are neither applied nor purged, both within the
    admission limits, and every one of these entries is there. *)
Theorem credit_ledger_is_exact ops db :
  log_run ops db → ∃ v, db_visible_log_end db = Some v ∧
    db_unapplied_credits db = Some (pending (db_log db) (bound db + 1) (idx v)) ∧
    weight (λ _, 1) (db_log db) (bound db + 1) (idx v) ≤ UNAPPLIED_ENTRIES ∧
    weight row_len (db_log db) (bound db + 1) (idx v) ≤ UNAPPLIED_BYTES ∧
    ∀ i, bound db < i ≤ idx v → ∃ e, rl_entries (raft_log db) !! i = Some e ∧ pos_index (en_log_id e) = i.
Proof.
  intros [[v Hwf] _]%log_run_wf. exists v. pose proof (lw_limits _ _ Hwf) as [? ?].
  split; [apply Hwf|]. split; [apply Hwf|]. split; [done|]. split; [done|]. intros i Hi.
  destruct (lw_dense _ _ Hwf _ Hi) as [r Hr]. destruct (lw_rows _ _ Hwf _ _ Hr) as [_ (e & He & Hei)].
  exists e. split; [|done]. apply (raft_log_entry _ v); [apply Hwf|]. split; [unfold bound in Hi; lia|by exists r].
Qed.

(** C16: a store implements the log of Raft. Whatever sequence of operations
    succeeds, the visible rows with their boundaries went through the same
    operations on an abstract log: appending overwrites and extends, truncating
    and purging cut, and applying and collecting change nothing that is visible. *)
Theorem store_implements_raft_log ops db : log_run ops db → raft_run ops (raft_log db).
Proof. intros Hrun. apply (log_run_wf _ _ Hrun). Qed.

(** Reading a range of the log gives exactly its entries. On every store that
    operations reach, reading never fails and returns the entries of the abstract
    log with an index in the range, in order. *)
Theorem log_reads_are_exact ops db start last :
  log_run ops db → 0 ≤ start → ∃ es, get_logs db start last = Ok es ∧
    StronglySorted (λ a b, pos_index (en_log_id a) < pos_index (en_log_id b)) es ∧
    ∀ e, e ∈ es ↔ start ≤ pos_index (en_log_id e) < last ∧ rl_entries (raft_log db) !! pos_index (en_log_id e) = Some e.
Proof. intros [[v Hwf] _]%log_run_wf. by apply (get_logs_ok _ v). Qed.

(** The collector as its owner runs it: again as long as a batch was full. *)
Fixpoint collect (n : nat) db : Outcome (bool * LogDb) :=
  match n with
  | O => Ok (true, db)
  | S n => '(more, db) ← gc_invisible_logs db; if (more : bool) then collect n db else Ok (false, db)
  end.

Lemma collect_ends n db v :
  log_wf db v → (size (db_log db) < n)%nat →
  ∃ db', collect n db = Ok (false, db') ∧ raft_log db' = raft_log db ∧
    ∀ i, is_Some (db_log db' !! i) → idx (db_last_purged db) < i ≤ idx v.
Proof.
  revert db. induction n as [|n IH]; intros db Hwf Hsize; [lia|]. simpl.
  destruct (gc_spec _ _ Hwf) as (keys & more & db1 & Hgc & _). rewrite Hgc. cbn [mbind Outcome_bind].
  apply (gc_wf _ v) in Hgc as (Hwf1 & Hraft & Hpurged & Hmore); [|done]. destruct more.
  - destruct (IH db1) as (db' & ? & Hraft' & Hrows); [done|lia|]. exists db'. rewrite <- Hpurged. split; [done|]. by rewrite Hraft'.
  - exists db1. rewrite <- Hpurged. done.
Qed.

(** Collection ends and is invisible. Repeated while a batch is full, it stops
    after at most one batch per row; then every row is visible, and the log that
    Raft sees is the one before. *)
Theorem collection_ends ops db :
  log_run ops db → ∃ db', collect (S (size (db_log db))) db = Ok (false, db') ∧ raft_log db' = raft_log db ∧
    ∀ i, is_Some (db_log db' !! i) → is_Some (rl_entries (raft_log db') !! i).
Proof.
  intros [[v Hwf] _]%log_run_wf. destruct (collect_ends (S (size (db_log db))) _ _ Hwf) as (db' & Hc & Hraft & Hrows); [lia|].
  exists db'. split; [done|]. split; [done|]. intros i Hi. rewrite Hraft. pose proof (Hrows _ Hi) as Hrange.
  assert (∃ r, db_log db !! i = Some r) as [r Hr].
  { assert (∀ n db0, log_wf db0 v → collect n db0 = Ok (false, db') → is_Some (db_log db0 !! i)) as Hsub; [|by eapply Hsub].
    intros n. induction n as [|n IH]; intros db0 Hwf0; simpl; [done|].
    destruct (gc_spec _ _ Hwf0) as (keys & more & db1 & Hgc & Hdb1 & _). rewrite Hgc. cbn [mbind Outcome_bind].
    apply (gc_wf _ v) in Hgc as (Hwf1 & _ & _ & _); [|done].
    intros Hnext. assert (is_Some (db_log db1 !! i)) as Hi1 by (destruct more; [by apply IH|by injection Hnext as ->]).
    rewrite Hdb1 in Hi1. simpl in Hi1. rewrite foldr_delete_lookup in Hi1. case_decide; [by destruct Hi1|done]. }
  destruct (lw_rows _ _ Hwf _ _ Hr) as [_ (e & He & _)]. exists e. apply (raft_log_entry _ v); [apply Hwf|]. split; [done|by exists r].
Qed.

(** The preview of an append is what the append charges. For entries with
    their serialised lengths, the usage that the leader projects before it
    replicates is the ledger after the append. *)
Theorem append_preview_is_exact db applied es sizes db' :
  admit_and_append db applied es = Ok db' → Forall2 previews es sizes →
  ∃ credits, projected_append_usage db applied sizes = Ok credits ∧ db_unapplied_credits db' = Some credits.
Proof.
  intros Happ Hsizes. unfold admit_and_append, projected_append_usage in *.
  apply outcome_bind_ok in Happ as (v & Hv & Happ). apply outcome_bind_ok in Happ as (c & Hc & Happ).
  apply outcome_bind_ok in Happ as (a & Hfold & [= <-]). rewrite Hv, Hc. cbn [mbind Outcome_bind]. simpl.
  eapply preview_fold in Hfold; [|done|done]. simpl in Hfold. rewrite Hfold. simpl. by exists (ad_credits a).
Qed.
End LogFacts.
