(* ===== verification/SnapshotFacts.v ===== *)
(** * Snapshot files read back

    The grammar of a snapshot file, and that the reader accepts exactly the files
    of this form, with the payload they carry. *)
From stdpp Require Import base option strings list.
From Stdlib Require Import ZArith Ascii Lia.
From S2P Require Import Prelude Value ValueFacts Ids Policy Catalog Ir Domain Eval Evolve History Steps Snapshot.

Lemma outcome_fmap_ok {A B} (f : A → B) (m : Outcome A) b : f <$> m = Ok b ↔ ∃ a, m = Ok a ∧ b = f a.
Proof. destruct m; simpl; naive_solver. Qed.

(** ** Bytes *)
Lemma string_app_assoc (a b c : string) : (a +:+ b) +:+ c = a +:+ (b +:+ c).
Proof. induction a as [|x a IH]; [done|]. change (String x ((a +:+ b) +:+ c) = String x (a +:+ (b +:+ c))). by rewrite IH. Qed.

Lemma string_length_app (a b : string) : String.length (a +:+ b) = (String.length a + String.length b)%nat.
Proof. induction a as [|x a IH]; [done|]. change (S (String.length (a +:+ b)) = S (String.length a + String.length b)). by rewrite IH. Qed.

Lemma zlen_string_app (a b : string) : zlen_string (a +:+ b) = zlen_string a + zlen_string b.
Proof. unfold zlen_string. rewrite string_length_app. lia. Qed.

Lemma zlen_string_nonneg s : 0 ≤ zlen_string s.
Proof. unfold zlen_string. lia. Qed.

Lemma split_bytes_Some n s a b : split_bytes n s = Some (a, b) ↔ s = a +:+ b ∧ String.length a = n.
Proof.
  revert s a. induction n as [|n IH]; intros s a; simpl.
  - split; [by intros [= <- <-]|]. intros [-> Ha]. by destruct a.
  - destruct s as [|c s]; simpl; [split; [done|]; intros [Hs Ha]; destruct a; done|].
    split.
    + intros ([a' b'] & Hsplit & [= <- <-])%bind_Some. apply IH in Hsplit as [-> <-]. done.
    + destruct a as [|c' a]; [by intros [_ ?]|]. simpl. intros [[= <- ->] [= Hlen]].
      assert (split_bytes n (a +:+ b) = Some (a, b)) as -> by (by apply IH). done.
Qed.

Lemma read_exact_ok n input a rest :
  0 ≤ n → read_exact n input = Ok (a, rest) ↔ input = a +:+ rest ∧ zlen_string a = n.
Proof.
  intros Hn. unfold read_exact, zlen_string. transitivity (split_bytes (Z.to_nat n) input = Some (a, rest)).
  - destruct (split_bytes _ _) as [[? ?]|]; naive_solver.
  - rewrite split_bytes_Some. split; intros [-> ?]; (split; [done|lia]).
Qed.

Lemma byte_of_ascii c r : byte_of (Z.of_N (N_of_ascii c) + 256 * r) = c.
Proof.
  unfold byte_of. pose proof (N_ascii_bounded c).
  replace ((_ + 256 * r) mod 256) with (Z.of_N (N_of_ascii c)) by (Z.div_mod_to_equations; lia).
  by rewrite N2Z.id, ascii_N_embedding.
Qed.

Lemma ascii_byte_of n : Z.of_N (N_of_ascii (byte_of n)) = n mod 256.
Proof. unfold byte_of. rewrite N_ascii_embedding; pose proof (Z.mod_pos_bound n 256); lia. Qed.

Lemma of_le_bytes_bound s : 0 ≤ of_le_bytes s < 256 ^ zlen_string s.
Proof.
  unfold zlen_string. induction s as [|c s IH]; simpl; [done|]. pose proof (N_ascii_bounded c).
  rewrite Nat2Z.inj_succ, Z.pow_succ_r by lia. lia.
Qed.

Lemma of_le_bytes32 n : 0 ≤ n < 2 ^ 32 → of_le_bytes (le_bytes32 n) = n.
Proof.
  intros Hn. unfold le_bytes32. simpl. rewrite !ascii_byte_of.
  Z.div_mod_to_equations. lia.
Qed.

Lemma le_bytes32_of s : zlen_string s = 4 → le_bytes32 (of_le_bytes s) = s.
Proof.
  unfold zlen_string. destruct s as [|a [|b [|c [|d [|e s]]]]]; simpl; try lia. intros _. unfold le_bytes32.
  pose proof (N_ascii_bounded a). pose proof (N_ascii_bounded b). pose proof (N_ascii_bounded c).
  rewrite byte_of_ascii. f_equal.
  replace ((_ + 256 * _) / 256) with (Z.of_N (N_of_ascii b) + 256 * (Z.of_N (N_of_ascii c) + 256 * (Z.of_N (N_of_ascii d) + 256 * 0)))
    by (Z.div_mod_to_equations; lia).
  rewrite byte_of_ascii. f_equal.
  replace ((_ + 256 * _) / 65536) with (Z.of_N (N_of_ascii c) + 256 * (Z.of_N (N_of_ascii d) + 256 * 0))
    by (Z.div_mod_to_equations; lia).
  rewrite byte_of_ascii. f_equal.
  replace ((_ + 256 * _) / 16777216) with (Z.of_N (N_of_ascii d) + 256 * 0) by (Z.div_mod_to_equations; lia).
  by rewrite byte_of_ascii.
Qed.

Lemma le_bytes32_length n : zlen_string (le_bytes32 n) = 4.
Proof. done. Qed.

Section Layout.
Context `{P : Platform} `{!PlatformLaws P} `{ManifestCodec}.

(** ** The form of a snapshot file *)
Definition frame (data : string) : string := le_bytes32 (zlen_string data) +:+ data +:+ sha256 data.
Definition frames (chunks : list string) : string := foldr (λ data rest, frame data +:+ rest) "" chunks.
Definition joined (chunks : list string) : string := foldr String.append "" chunks.

Definition chunk_ok (data : string) : Prop := 0 < zlen_string data ≤ FRAME_BYTES.

Definition snapshot_head (metadata : string) : string :=
  MAGIC +:+ le_bytes32 (zlen_string metadata) +:+ metadata.

(** A file with manifest, footer and payload. *)
Definition snapshot_layout (file : string) (m : SnapshotManifest) (footer payload : string) : Prop :=
  ∃ metadata chunks,
    decode_manifest metadata = Ok m ∧ chunk_ok metadata ∧ unsupported_manifest m = false ∧
    Forall chunk_ok chunks ∧ payload = joined chunks ∧ zlen_string payload = sn_payload_bytes m ∧
    footer = sha256 (snapshot_head metadata +:+ frames chunks +:+ le_bytes32 0) ∧
    file = (snapshot_head metadata +:+ frames chunks +:+ le_bytes32 0) +:+ footer.

Lemma chunk_size data : chunk_ok data → 0 ≤ zlen_string data < 2 ^ 32.
Proof. unfold chunk_ok, FRAME_BYTES. lia. Qed.

Lemma sha256_zlen s : zlen_string (sha256 s) = 32.
Proof. unfold zlen_string. by rewrite sha256_length. Qed.

(** ** Writing *)
Lemma write_frames_ok bound transferred file chunks transferred' file' :
  Forall chunk_ok chunks → write_frames bound transferred file chunks = Ok (transferred', file') →
  transferred' = transferred + zlen_string (joined chunks) ∧ file' = file +:+ frames chunks.
Proof.
  intros Hc. revert transferred file. induction Hc as [|data chunks Hd _ IH]; intros transferred file; simpl.
  { intros [= <- <-]. rewrite string_app_nil_r. split; [unfold zlen_string; simpl; lia|done]. }
  destruct (zlen_string data =? 0) eqn:Hz; to_prop; [unfold chunk_ok in Hd; lia|].
  destruct (u64_max <? _); [done|]. destruct (bound <? _); [done|]. intros [-> ->]%IH.
  rewrite zlen_string_app. split; [lia|]. unfold frame. by rewrite !string_app_assoc.
Qed.

(** ** Reading *)
Lemma read_exact_app n a rest : zlen_string a = n → read_exact n (a +:+ rest) = Ok (a, rest).
Proof. intros <-. by apply read_exact_ok; [apply zlen_string_nonneg|]. Qed.

Lemma read_frames_ok fuel bound transferred digest output input transferred' digest' output' rest :
  read_frames fuel bound transferred digest output input = Ok ((transferred', digest', output'), rest) →
  ∃ chunks, Forall chunk_ok chunks ∧ input = (frames chunks +:+ le_bytes32 0) +:+ rest ∧
    transferred' = transferred + zlen_string (joined chunks) ∧
    digest' = digest +:+ frames chunks +:+ le_bytes32 0 ∧ output' = output +:+ joined chunks.
Proof.
  revert transferred digest output input. induction fuel as [|fuel IH]; intros transferred digest output input; [done|]. cbn [read_frames].
  intros Hr. apply run_bind_ok in Hr as (size & i1 & [-> Hs]%read_exact_ok & Hr); [|lia].
  pose proof (of_le_bytes_bound size) as Hbound. rewrite Hs in Hbound. pose proof (le_bytes32_of size Hs) as Hle.
  destruct (of_le_bytes size =? 0) eqn:Hz; to_prop.
  { apply run_ret_ok in Hr as [[= -> -> ->] ->]. exists []. rewrite <- Hle, Hz. simpl. rewrite string_app_nil_r.
    split; [constructor|]. split; [done|]. split; [unfold zlen_string; simpl; lia|done]. }
  destruct (FRAME_BYTES <? of_le_bytes size) eqn:Hmax; to_prop; [done|].
  apply run_bind_ok in Hr as (data & i2 & [-> Hd]%read_exact_ok & Hr); [|lia].
  apply run_bind_ok in Hr as (checksum & i3 & [-> Hc]%read_exact_ok & Hr); [|lia].
  destruct (negb _) eqn:Hsum in Hr; to_prop; [done|]. destruct (u64_max <? _); [done|]. destruct (bound <? _); [done|].
  apply IH in Hr as (chunks & Hchunks & -> & -> & -> & ->). exists (data :: chunks).
  split; [constructor; [unfold chunk_ok; lia|done]|]. simpl. unfold frame. rewrite Hd, Hle, Hsum, zlen_string_app, !string_app_assoc.
  split; [done|]. split; [lia|done].
Qed.

Lemma read_frames_complete fuel bound transferred digest output chunks rest :
  Forall chunk_ok chunks → (length chunks < fuel)%nat → transferred + zlen_string (joined chunks) ≤ bound → bound ≤ u64_max →
  read_frames fuel bound transferred digest output ((frames chunks +:+ le_bytes32 0) +:+ rest) =
  Ok ((transferred + zlen_string (joined chunks), digest +:+ frames chunks +:+ le_bytes32 0, output +:+ joined chunks), rest).
Proof.
  intros Hc. revert fuel transferred digest output. induction Hc as [|data chunks Hd _ IH]; intros fuel transferred digest output Hfuel Hle Hmax.
  all: destruct fuel as [|fuel]; [simpl in Hfuel; lia|]; cbn [read_frames].
  - simpl. change ("" +:+ le_bytes32 0) with (le_bytes32 0). unfold mbind at 1, Run_bind at 1. rewrite read_exact_app by done.
    rewrite of_le_bytes32 by lia. simpl. unfold mret, Run_ret. rewrite string_app_nil_r. replace (transferred + zlen_string "") with transferred by (unfold zlen_string; simpl; lia). done.
  - simpl in Hle |- *. rewrite zlen_string_app in Hle. pose proof (zlen_string_nonneg (joined chunks)). pose proof (chunk_size _ Hd) as Hsize.
    unfold frame. rewrite !string_app_assoc. unfold mbind at 1, Run_bind at 1. rewrite read_exact_app by done.
    rewrite of_le_bytes32 by done. unfold chunk_ok in Hd.
    rewrite (proj2 (Z.eqb_neq _ _)), (proj2 (Z.ltb_ge _ _)) by lia.
    unfold mbind at 1, Run_bind at 1. rewrite read_exact_app by done.
    unfold mbind at 1, Run_bind at 1. rewrite read_exact_app by apply sha256_zlen.
    rewrite bool_decide_eq_true_2 by done. simpl. rewrite !(proj2 (Z.ltb_ge _ _)) by lia.
    rewrite <- (string_app_assoc (frames chunks)). rewrite IH by (simpl in *; lia). rewrite zlen_string_app, !string_app_assoc. do 4 f_equal. lia.
Qed.
Lemma read_manifest_ok input m digest rest :
  read_manifest input = Ok ((m, digest), rest) ↔ ∃ metadata,
    input = snapshot_head metadata +:+ rest ∧ digest = snapshot_head metadata ∧
    decode_manifest metadata = Ok m ∧ chunk_ok metadata ∧ unsupported_manifest m = false.
Proof.
  unfold read_manifest, snapshot_head. split.
  - intros Hr. apply run_bind_ok in Hr as (magic & i1 & [-> _]%read_exact_ok & Hr); [|done].
    destruct (negb _) eqn:Hmagic in Hr; to_prop; [done|]. subst magic.
    apply run_bind_ok in Hr as (size & i2 & [-> Hs]%read_exact_ok & Hr); [|lia].
    pose proof (of_le_bytes_bound size) as Hbound. rewrite Hs in Hbound.
    destruct (_ || _) eqn:Hlen in Hr; to_prop; [done|].
    apply run_bind_ok in Hr as (metadata & i3 & [-> Hm]%read_exact_ok & Hr); [|lia].
    apply run_bind_ok in Hr as (m' & i4 & [Hdec%map_err_ok ->]%lift_ok & Hr).
    destruct (unsupported_manifest m') eqn:Hun; [done|]. apply run_ret_ok in Hr as [[= -> ->] ->].
    exists metadata. rewrite Hm, (le_bytes32_of size Hs), !string_app_assoc. unfold chunk_ok. split; [done|]. split; [done|]. split; [done|].
    split; [lia|done].
  - intros (metadata & -> & -> & Hdec & Hc & Hun). pose proof (chunk_size _ Hc) as Hsize. rewrite !string_app_assoc.
    unfold mbind at 1, Run_bind at 1. rewrite read_exact_app by done. rewrite bool_decide_eq_true_2 by done. cbn [negb].
    unfold mbind at 1, Run_bind at 1. rewrite read_exact_app by done. rewrite of_le_bytes32 by done. unfold chunk_ok in Hc.
    rewrite (proj2 (Z.eqb_neq _ _)), (proj2 (Z.ltb_ge _ _)) by lia. cbn [orb].
    unfold mbind at 1, Run_bind at 1. rewrite read_exact_app by done.
    unfold mbind at 1, Run_bind at 1. rewrite Hdec. simpl. by rewrite Hun.
Qed.

Lemma frames_count chunks : (length chunks ≤ String.length (frames chunks))%nat.
Proof.
  induction chunks as [|data chunks IH]; simpl; [lia|]. unfold frame. rewrite !string_length_app. simpl. lia.
Qed.

Lemma read_layout file m footer payload :
  inspect_snapshot file = Ok (m, footer, payload) → snapshot_layout file m footer payload.
Proof.
  unfold inspect_snapshot, snapshot_layout.
  intros ([[[m' footer'] payload'] rest] & Hrun & Hout)%outcome_fmap_ok. injection Hout as -> -> ->.
  apply run_bind_ok in Hrun as ([m0 digest] & i1 & (metadata & -> & -> & Hdec & Hm & Hun)%read_manifest_ok & Hr).
  apply run_bind_ok in Hr as ([[transferred digest] output] & i2 & Hframes & Hr).
  apply read_frames_ok in Hframes as (chunks & Hc & -> & -> & -> & ->).
  destruct (negb _) eqn:Hlen in Hr; to_prop; [done|].
  apply run_bind_ok in Hr as (footer0 & i3 & [-> _]%read_exact_ok & Hr); [|lia].
  destruct (negb _) eqn:Hsum in Hr; to_prop; [done|]. destruct (negb _) eqn:Hrest in Hr; to_prop; [done|].
  injection Hr as <- <- <- <-. subst. exists metadata, chunks. rewrite string_app_nil_r, !string_app_assoc. by split_and!.
Qed.

Lemma layout_read file m footer payload :
  snapshot_layout file m footer payload → inspect_snapshot file = Ok (m, footer, payload).
Proof.
  unfold inspect_snapshot, snapshot_layout.
  intros (metadata & chunks & Hdec & Hm & Hun & Hc & -> & Hlen & -> & ->).
  assert (sn_payload_bytes m ≤ MAX_SNAPSHOT_BYTES) by (clear -Hun; unfold unsupported_manifest in Hun; to_prop; done).
  pose proof (zlen_string_nonneg (joined chunks)).
  unfold mbind at 1, Run_bind at 1. rewrite string_app_assoc.
  rewrite (proj2 (read_manifest_ok _ m (snapshot_head metadata) _)) by (exists metadata; by split_and!).
  unfold mbind at 1, Run_bind at 1. rewrite read_frames_complete; [|done| |lia|unfold MAX_SNAPSHOT_BYTES, u64_max in *; lia].
  2:{ rewrite !string_length_app. pose proof (frames_count chunks). lia. }
  rewrite Z.add_0_l, Hlen, Z.eqb_refl. cbn [negb]. unfold mbind, Run_bind.
  rewrite <- (string_app_nil_r (sha256 _)) at 1. rewrite read_exact_app by apply sha256_zlen.
  rewrite !bool_decide_eq_true_2 by done. done.
Qed.

(** C18: reading a snapshot is exact. A file is read as a manifest, a footer and a
    payload exactly when it has the form of a snapshot: the magic, a manifest in
    its limits, frames of at most a mebibyte with their checksums that carry a
    payload of the declared length, an end frame, the checksum of all this, and
    nothing after it. *)
Theorem snapshot_reading_is_exact file m footer payload :
  inspect_snapshot file = Ok (m, footer, payload) ↔ snapshot_layout file m footer payload.
Proof. split; [apply read_layout|apply layout_read]. Qed.

(** A snapshot reads back what was written. When the source delivers the
    declared number of bytes, whatever the sizes of its reads, the file that is
    written reads back as the same manifest and the same payload. *)
Theorem snapshot_roundtrip source m file footer :
  decode_manifest (encode_to_vec m) = Ok m → Forall chunk_ok source →
  write_snapshot source m = Ok (file, footer) → inspect_snapshot file = Ok (m, footer, joined source).
Proof.
  intros Hdec Hs Hw. apply layout_read. unfold write_snapshot in Hw.
  destruct (unsupported_manifest m) eqn:Hun; [done|]. destruct (_ || _) eqn:Hlen in Hw; [done|]. to_prop.
  apply outcome_bind_ok in Hw as ([transferred body] & Hframes & Hw).
  destruct (negb _) eqn:Htotal in Hw; to_prop; [done|]. injection Hw as <- <-.
  apply write_frames_ok in Hframes as [-> ->]; [|done]. rewrite Z.add_0_l in Htotal.
  exists (encode_to_vec m), source. unfold snapshot_head, chunk_ok. pose proof (zlen_string_nonneg (encode_to_vec m)).
  rewrite !string_app_assoc. split_and!; done || lia.
Qed.
End Layout.
