(* ===== verification/ClockFacts.v ===== *)
(** * What the supervision of the clock guarantees

    The readings of a member since it member_started form a history; the state of its
    monitor is described by that history. *)
From stdpp Require Import base option gmap strings list sorting fin_sets.
From Stdlib Require Import ZArith Lia.
From S2P Require Import Prelude Value Ids Policy Catalog Ir Domain Eval Evolve History FormatUpgrade Clock.

(** ** Histories, the newest first *)
Inductive Observation :=
| Ob_Started (stored : bool)
| Ob_Failed
| Ob_Read (wall boot watermark : Z)
| Ob_Acknowledged.

Definition is_read (ob : Observation) : Prop := match ob with Ob_Read _ _ _ => True | _ => False end.

Fixpoint last_read (h : list Observation) : option (Z * Z) :=
  match h with
  | Ob_Read wall boot _ :: _ => Some (wall, boot)
  | Ob_Started _ :: _ | [] => None
  | _ :: h => last_read h
  end.

(** A reading agrees with the watermark and with the reading before it. *)
Definition sound (ob : Observation) (h : list Observation) : Prop :=
  match ob with
  | Ob_Read wall boot watermark =>
      watermark ≤ sat_add64 wall 2000 ∧
      ∀ previous_wall previous_boot, last_read h = Some (previous_wall, previous_boot) →
        previous_boot ≤ boot ≤ previous_boot + 2000 ∧
        Z.abs ((wall - previous_wall) - (boot - previous_boot)) ≤ 250 + (boot - previous_boot) / 1000
  | Ob_Acknowledged => True
  | _ => False
  end.

Fixpoint quiet (s rest : list Observation) : Prop :=
  match s with [] => True | ob :: s => sound ob (s ++ rest) ∧ quiet s rest end.

(** Nothing went wrong since a healthy start or the last acknowledgement. *)
Definition trusted (h : list Observation) : Prop :=
  ∃ s mark rest, h = s ++ mark :: rest ∧ quiet s (mark :: rest) ∧ (mark = Ob_Acknowledged ∨ mark = Ob_Started false).

(** The readings since [b0], when the faulted member was last seen to recover. *)
Definition healthy_from (faulted : bool) (h : list Observation) (b0 : Z) : Prop :=
  ∃ s rest w0 wm0, h = s ++ Ob_Read w0 b0 wm0 :: rest ∧ quiet (s ++ [Ob_Read w0 b0 wm0]) rest ∧
    (faulted = true → Forall is_read s).

(** ** What one call observes *)
Definition sampled (r : ClockReading) : list Observation :=
  match read_clocks r with
  | Ok (wall, boot) => [Ob_Read wall boot (cr_watermark r)]
  | Err _ => [Ob_Failed]
  | Panic _ => []
  end.

Definition acknowledged (m : ClockMember) (reason : string) (wall boot watermark : Outcome Z) (reply : PersistReply) :
    list Observation :=
  match acknowledge_reading m reason wall boot watermark with
  | Ok (w, b, wm) =>
      (if is_ok (acknowledge m reason wall boot watermark reply).1 then [Ob_Acknowledged] else []) ++ [Ob_Read w b wm]
  | _ => []
  end.

Definition quorum_sampled (m : ClockMember) (env : QuorumEnv) (allow_cached : bool) : list Observation :=
  match sample m (qe_before env) (qe_before_reply env) with
  | (Ok (_, boot), m) =>
      match quorum_plan m env allow_cached boot with Ok (inr _) => sampled (qe_after env) | _ => [] end
  | _ => []
  end ++ sampled (qe_before env).

(** The life of a member across restarts. Unless [lossy], the storage thread reports
    every acknowledgement it stores. *)
Inductive clock_run (lossy : bool) : ClockMember → list Observation → Prop :=
| clock_first stored : clock_run lossy (member_started stored) [Ob_Started stored]
| clock_restarted m h : clock_run lossy m h → clock_run lossy (member_started (cm_stored m)) (Ob_Started (cm_stored m) :: h)
| clock_configured m h network : clock_run lossy m h → clock_run lossy (configure_network network m) h
| clock_sampled m h r reply :
    clock_run lossy m h → clock_run lossy (sample m r reply).2 (sampled r ++ h)
| clock_acknowledged m h reason wall boot watermark reply :
    clock_run lossy m h → (lossy = false → ∀ e, reply ≠ PersistedUnreported e) →
    clock_run lossy (acknowledge m reason wall boot watermark reply).2 (acknowledged m reason wall boot watermark reply ++ h)
| clock_quorum m h env allow_cached :
    clock_run lossy m h → clock_run lossy (sample_quorum m env allow_cached).2 (quorum_sampled m env allow_cached ++ h).

(** ** One observation *)
Lemma clock_delta_fault_None pw pb w b :
  clock_delta_fault pw pb w b = None ↔
  pb ≤ b ≤ pb + 2000 ∧ Z.abs ((w - pw) - (b - pb)) ≤ 250 + (b - pb) / 1000.
Proof.
  unfold clock_delta_fault. destruct (Z.ltb_spec b pb); [split; [done|lia]|].
  destruct (Z.ltb_spec 2000 (b - pb)); [split; [done|lia]|]. destruct (Z.ltb_spec (250 + (b - pb) / 1000) (Z.abs (w - pw - (b - pb)))).
  all: split; [|lia || done]; try done. intros _. lia.
Qed.

Lemma fault_of_None h w b wm : fault_of (last_read h) w b wm = None ↔ sound (Ob_Read w b wm) h.
Proof.
  unfold fault_of. simpl. set (late := sat_add64 w 2000 <? wm).
  assert ((if late then Some "" else None) = None ↔ wm ≤ sat_add64 w 2000) as Hlate.
  { subst late. destruct (Z.ltb_spec (sat_add64 w 2000) wm); (split; [|done || lia]); [done|intros _; done]. }
  rewrite <- Hlate. clear Hlate. destruct (last_read h) as [[pw pb]|].
  - destruct (clock_delta_fault pw pb w b) as [delta|] eqn:Hd.
    + split; [done|]. intros [_ Hs]. specialize (Hs _ _ eq_refl). apply clock_delta_fault_None in Hs. congruence.
    + apply clock_delta_fault_None in Hd. destruct late; (split; [done|intros [? _]; done]) || (split; [|done]).
      intros _. split; [done|]. by intros pw' pb' [= <- <-].
  - destruct late; [by split; [|intros [? _]]|]. by split.
Qed.

#[local] Arguments sound : simpl never.

(** ** The monitor describes the history *)
Record monitored (m : Monitor) (h : list Observation) : Prop := mkMonitored {
  mon_previous : mo_previous m = last_read h;
  mon_trusted : mo_faulted m = false → trusted h;
  mon_since : ∀ b0, mo_healthy_since m = Some b0 → healthy_from (mo_faulted m) h b0;
}.

Lemma trusted_cons ob h : sound ob h → trusted h → trusted (ob :: h).
Proof. intros Hs (s & mark & rest & -> & Hq & Hm). exists (ob :: s), mark, rest. by split_and!. Qed.

Lemma healthy_cons ob faulted h b0 :
  sound ob h → (faulted = true → is_read ob) → healthy_from faulted h b0 → healthy_from faulted (ob :: h) b0.
Proof.
  intros Hs Hr (s & rest & w0 & wm0 & -> & Hq & Hf). exists (ob :: s), rest, w0, wm0.
  split; [done|]. split; [|by constructor; auto]. simpl. by rewrite <- app_assoc.
Qed.

Lemma observe_spec m h w b wm fault m' :
  monitored m h → observe m w b wm = (fault, m') →
  monitored m' (Ob_Read w b wm :: h) ∧ (fault = false ↔ sound (Ob_Read w b wm) h) ∧
  mo_faulted m' = mo_faulted m || fault ∧ mo_fault_recorded m' = mo_fault_recorded m ∧
  mo_fault_reason m' = (if fault then mo_fault_reason m' else mo_fault_reason m) ∧
  (fault = true → is_Some (mo_fault_reason m')) ∧ (fault = false → is_Some (mo_healthy_since m')).
Proof.
  intros [Hp Ht Hs]. unfold observe. rewrite Hp. destruct (fault_of _ w b wm) as [reason|] eqn:Hf; intros [= <- <-]; simpl.
  - rewrite orb_true_r. split; [by split|]. split.
    { split; [done|]. intros Hsound%fault_of_None. congruence. }
    split_and!; try done; by eauto.
  - pose proof Hf as Hsound%fault_of_None. rewrite orb_false_r.
    split; [|split_and!; try done; by destruct (mo_healthy_since m)]. split; simpl; [done| |].
    + intros Hm. by apply trusted_cons; auto.
    + intros b0. destruct (mo_healthy_since m) as [b1|]; intros [= <-].
      * by apply healthy_cons; auto.
      * exists [], h, w, wm. split; [done|]. split; [split; [done|constructor]|by constructor].
Qed.

Lemma source_failed_spec m h reason : monitored m h → monitored (source_failed reason m) (Ob_Failed :: h).
Proof. intros [Hp Ht Hs]. by split. Qed.

Lemma recorded_spec r m h : monitored m h → monitored (fault_recorded r m) h.
Proof. by intros [Hp Ht Hs]. Qed.

Lemma cleared_spec m h : monitored m h → monitored (cleared m) (Ob_Acknowledged :: h).
Proof.
  intros [Hp Ht Hs]. split; simpl; [done| |].
  - intros _. exists [], Ob_Acknowledged, h. by split_and!; auto.
  - intros b0 (s & rest & w0 & wm0 & -> & Hq & Hf)%Hs. exists (Ob_Acknowledged :: s), rest, w0, wm0. by split_and!.
Qed.

(** ** The member *)
Record supervised (m : ClockMember) (h : list Observation) : Prop := mkSupervised {
  sup_monitor : monitored (monitor m) h;
  sup_reason : mo_faulted (monitor m) = true → is_Some (mo_fault_reason (monitor m));
  sup_signal : ca_fault_signal (cm_authority m) = Signal_Healthy ↔ mo_faulted (monitor m) = false;
  sup_recorded : mo_fault_recorded (monitor m) = true → mo_faulted (monitor m) = true;
  sup_quorum : ∀ q, ca_last_quorum (cm_authority m) = Some q → joint_quorum (fq_voter_configs q) (fq_sampled_voters q) = true;
}.

(** What keeps the rest of a member in step with its monitor. *)
Lemma supervised_store m h stored : supervised m h → supervised (set_stored stored m) h.
Proof. by intros []. Qed.

Lemma persist_spec faulted reply m out m' :
  persist_clock_fault faulted reply m = (out, m') →
  (∃ stored, m' = set_stored stored m) ∧ (out = Ok tt → cm_stored m' = faulted) ∧ ∀ w, out ≠ Panic w.
Proof. destruct m, reply; intros [= <- <-]; simpl; by split_and!; eauto. Qed.

Lemma supervised_recorded m h :
  supervised m h → mo_faulted (monitor m) = true → supervised (set_monitor (fault_recorded true) m) h.
Proof. intros [Hm ? ? ? ?] Hf. split; simpl; try done. by apply recorded_spec. Qed.

Lemma record_fault_spec reply m h out m' :
  supervised m h → record_fault reply m = (out, m') →
  supervised m' h ∧ mo_faulted (monitor m') = mo_faulted (monitor m) ∧
  mo_fault_reason (monitor m') = mo_fault_reason (monitor m) ∧
  ca_last_quorum (cm_authority m') = ca_last_quorum (cm_authority m) ∧
  ca_network (cm_authority m') = ca_network (cm_authority m).
Proof.
  intros Hm. unfold record_fault. destruct (_ && _) eqn:Hc; [|by intros [= <- <-]]. to_prop.
  destruct (persist_clock_fault true reply m) as [o m1] eqn:Hp. apply persist_spec in Hp as ([stored ->] & _ & _).
  destruct o; intros [= <- <-]; simpl; (split; [|done]); try by apply supervised_store.
  apply (supervised_store m h stored) in Hm. by apply supervised_recorded.
Qed.

Lemma sample_spec m h r reply out m' :
  supervised m h → sample m r reply = (out, m') →
  supervised m' (sampled r ++ h) ∧ ca_last_quorum (cm_authority m') = ca_last_quorum (cm_authority m) ∧
  ∀ wall boot, out = Ok (wall, boot) → read_clocks r = Ok (wall, boot) ∧ mo_faulted (monitor m') = false.
Proof.
  intros Hm. unfold sample, sampled. destruct (read_clocks r) as [[wall boot]|e|w] eqn:Hr.
  - destruct (observe _ wall boot _) as [fault observed] eqn:Ho.
    pose proof (observe_spec _ _ _ _ _ _ _ (sup_monitor _ _ Hm) Ho) as (Hmon & _ & Hf & Hrec & Hreason & Hsome & _).
    set (m1 := if _ && _ then _ else _). assert (supervised m1 (Ob_Read wall boot (cr_watermark r) :: h)) as Hm1.
    { destruct Hm as [_ Hr0 Hs0 Hrec0 Hq0]. subst m1.
      destruct (mo_faulted (monitor m)) eqn:Hwas; simpl in Hf; rewrite Hf.
      - rewrite andb_false_r. split; unfold monitor; simpl; rewrite ?Hf; try done.
        intros _. destruct fault; [by auto|rewrite Hreason; auto].
      - rewrite andb_true_r. destruct fault; split; unfold monitor; simpl; rewrite ?Hf, ?Hrec; try done; by auto. }
    assert (monitor m1 = observed ∧ ca_last_quorum (cm_authority m1) = ca_last_quorum (cm_authority m)) as [Hobs Hlast].
    { subst m1. by destruct (_ && _). }
    destruct (record_fault reply m1) as [o m2] eqn:Hrf. pose proof (record_fault_spec _ _ _ _ _ Hm1 Hrf) as (Hm2 & Hf2 & _ & Hq2 & _).
    rewrite Hlast in Hq2. destruct o; [destruct (mo_faulted (monitor m2)) eqn:Hfin| |]; intros [= <- <-]; simpl; split_and!; done.
  - set (m1 := if mo_faulted (monitor m) then _ else set_signal _ _). assert (supervised m1 (Ob_Failed :: h)) as Hm1.
    { destruct Hm as [Hmon Hr0 Hs0 Hrec0 Hq0]. pose proof (source_failed_spec _ _ (err_message e) Hmon).
      subst m1. destruct (mo_faulted (monitor m)) eqn:Hwas; split; simpl; try done; eauto. }
    assert (ca_last_quorum (cm_authority m1) = ca_last_quorum (cm_authority m)) as Hlast by (subst m1; by destruct (mo_faulted _)).
    destruct (record_fault reply m1) as [o m2] eqn:Hrf. pose proof (record_fault_spec _ _ _ _ _ Hm1 Hrf) as (Hm2 & _ & _ & Hq2 & _).
    rewrite Hlast in Hq2. by destruct o; intros [= <- <-].
  - by intros [= <- <-].
Qed.

Lemma sample_latched m r reply :
  mo_faulted (monitor m) = true ∨ (∃ e, (sample m r reply).1 = Err e) → mo_faulted (monitor (sample m r reply).2) = true.
Proof.
  unfold sample, record_fault, observe, monitor. intros Hc.
  destruct (read_clocks r) as [[wall boot]|e|w]; [destruct (fault_of _ _ _ _)| |by naive_solver];
    destruct (mo_faulted (ca_monitor (cm_authority m))) eqn:Hf, (mo_fault_recorded (ca_monitor (cm_authority m))) eqn:Hr, reply;
    simpl in *; rewrite ?Hf, ?Hr in *; simpl in *; rewrite ?Hf in *; try done; naive_solver.
Qed.

Lemma acknowledge_reading_ok m reason wall boot watermark w b wm :
  acknowledge_reading m reason wall boot watermark = Ok (w, b, wm) →
  is_blank reason = false ∧ mo_faulted (monitor m) = true ∧ mo_fault_recorded (monitor m) = true ∧
  wall = Ok w ∧ boot = Ok b ∧ watermark = Ok wm.
Proof.
  unfold acknowledge_reading. destruct (is_blank _); [done|]. destruct (mo_faulted _); [|done]. destruct (mo_fault_recorded _); [|done].
  simpl. destruct wall as [w'| |], boot as [b'| |], watermark as [wm'| |]; simpl; intros [=]; by subst.
Qed.

Lemma acknowledge_spec m h reason wall boot watermark reply out m' :
  supervised m h → acknowledge m reason wall boot watermark reply = (out, m') →
  supervised m' (acknowledged m reason wall boot watermark reply ++ h).
Proof.
  intros Hm Hack. unfold acknowledged. rewrite Hack. unfold acknowledge in Hack. simpl.
  destruct (acknowledge_reading _ _ _ _ _) as [[[w b] wm]|e|w] eqn:Hread; [|by injection Hack as <- <-..].
  apply acknowledge_reading_ok in Hread as (_ & Hf & Hrec & _).
  destruct (observe _ w b wm) as [fault observed] eqn:Ho.
  pose proof (observe_spec _ _ _ _ _ _ _ (sup_monitor _ _ Hm) Ho) as (Hmon & _ & Hf' & Hrec' & Hreason & Hsome & _). rewrite Hf in Hf'.
  set (m1 := set_monitor (λ _, observed) m) in *. assert (supervised m1 (Ob_Read w b wm :: h)) as Hm1.
  { destruct Hm as [_ Hr0 Hs0 Hrec0 Hq0]. split; unfold monitor; simpl; rewrite ?Hf'; try done.
    - intros _. destruct fault; [by auto|rewrite Hreason; auto].
    - rewrite Hs0, Hf. done. }
  destruct (_ || _); [by injection Hack as <- <-|]. destruct (persist_clock_fault false reply m1) as [o m2] eqn:Hp.
  apply persist_spec in Hp as ([stored ->] & _ & _). apply (supervised_store _ _ stored) in Hm1.
  destruct o; injection Hack as <- <-; simpl; [|done..].
  destruct Hm1 as [Hmon1 _ _ _ _]. split; unfold monitor; simpl; try done. by apply cleared_spec.
Qed.

(** ** Quorums *)
Lemma joint_quorum_spec configs healthy :
  joint_quorum configs healthy = true ↔
  configs ≠ [] ∧ ∀ voters, voters ∈ configs → (length voters / 2 < length (filter (λ v, v ∈ healthy) voters))%nat.
Proof.
  unfold joint_quorum. rewrite andb_true_iff, negb_true_iff, bool_decide_eq_false, forallb_forall.
  setoid_rewrite andb_true_iff. setoid_rewrite negb_true_iff. setoid_rewrite bool_decide_eq_false. setoid_rewrite Nat.ltb_lt.
  setoid_rewrite <- list_elem_of_In. split; intros [Hne Hall]; (split; [done|]); intros voters Hin; specialize (Hall voters Hin); [naive_solver|].
  split; [|done]. intros ->. simpl in Hall. lia.
Qed.

Lemma cached_quorum_spec allow last membership boot age q :
  cached_quorum allow last membership boot age = Some q →
  last = Some q ∧ allow = true ∧ fq_membership_log_id q = ro_log_id membership ∧
  fq_voter_configs q = ro_joint_config membership ∧ sat_sub boot (fq_checked_boot_ms q) < age.
Proof.
  unfold cached_quorum. destruct last as [s|]; [|done]. destruct (_ && _) eqn:Hc; [|done]. intros [= <-]. to_prop. by split_and!.
Qed.

(** A voter that answered its probe. *)
Definition answered (network : ClusterNetwork) (roster : Roster) (replies : Z → ProbeReply) (id : Z) : Prop :=
  ∃ endpoint, get_node roster id = Some endpoint ∧ probe_clock network id endpoint (replies id) = Ok tt.

Lemma probe_voters_spec network roster configs replies ids healthy failures healthy' failures' :
  probe_voters network roster configs replies ids healthy failures = (healthy', failures') →
  ∀ id, id ∈ healthy' → id ∈ healthy ∨ id ∈ ids ∧ answered network roster replies id.
Proof.
  revert healthy failures. induction ids as [|id ids IH]; intros healthy failures; simpl.
  { intros [= <- <-]. auto. }
  assert (∀ failures, probe_voters network roster configs replies ids healthy failures = (healthy', failures') →
    ∀ id', id' ∈ healthy' → id' ∈ healthy ∨ id' ∈ id :: ids ∧ answered network roster replies id') as Hskip.
  { intros failures0 Hrun id' Hin. destruct (IH _ _ Hrun id' Hin) as [?|[? ?]]; [by left|right; split; [by right|done]]. }
  destruct (get_node roster id) as [endpoint|] eqn:Hnode; [|apply Hskip].
  destruct (probe_clock network id endpoint (replies id)) as [[]|e|w] eqn:Hprobe; [|apply Hskip|intros [= <- <-]; auto].
  assert (answered network roster replies id) as Hok by (by exists endpoint).
  destruct (joint_quorum configs _).
  - intros [= <- <-] id' [->%elem_of_singleton|Hin]%elem_of_union; [right; split; [by left|done]|by left].
  - intros Hrun id' Hin. destruct (IH _ _ Hrun id' Hin) as [[->%elem_of_singleton|?]%elem_of_union|[? ?]]; [|by left|].
    + right. split; [by left|done].
    + right. split; [by right|done].
Qed.

(** What a successful [sample_quorum] stands on. [b] is the boot clock at its last reading. *)
Definition quorum_holds (m : ClockMember) (env : QuorumEnv) (allow_cached : bool) (b : Z) (q : FreshVoterQuorum) : Prop :=
  fq_membership_log_id q = ro_log_id (qe_membership env) ∧
  fq_voter_configs q = ro_joint_config (qe_membership env) ∧
  joint_quorum (fq_voter_configs q) (fq_sampled_voters q) = true ∧
  sat_sub b (fq_checked_boot_ms q) < QUORUM_EXPIRY_MS ∧
  (allow_cached = false → fq_checked_boot_ms q = b ∧
    ∀ id, id ∈ fq_sampled_voters q → id = qe_id env ∨
      ∃ network, ca_network (cm_authority m) = Some network ∧ answered network (qe_membership env) (qe_replies env) id).

Lemma set_quorum_supervised m h q :
  supervised m h → (∀ s, q = Some s → joint_quorum (fq_voter_configs s) (fq_sampled_voters s) = true) →
  supervised (set_quorum q m) h.
Proof. intros [] Hq. by split. Qed.

Lemma quorum_plan_spec m h env allow boot plan :
  supervised m h → quorum_plan m env allow boot = Ok plan →
  match plan with
  | inl q => quorum_holds m env allow boot q
  | inr (network, roster) => ca_network (cm_authority m) = Some network ∧ roster = qe_membership env
  end.
Proof.
  intros Hm. unfold quorum_plan. destruct (_ || _); [done|]. destruct (length _ =? 1)%nat.
  - destruct (negb _) eqn:Hq; [done|]. intros [= <-]. to_prop. split_and!; simpl; try done.
    + unfold sat_sub, QUORUM_EXPIRY_MS. lia.
    + intros _. split; [done|]. intros id ->%elem_of_singleton. by left.
  - destruct (cached_quorum _ _ _ _ _) as [q|] eqn:Hc.
    + intros [= <-]. apply cached_quorum_spec in Hc as (Hl & -> & Hid & Hcfg & Hage). pose proof (sup_quorum _ _ Hm _ Hl).
      split_and!; try done. unfold QUORUM_REFRESH_MS, QUORUM_EXPIRY_MS in *. lia.
    + intros (r0 & _ & Hp)%outcome_bind_ok. apply outcome_bind_ok in Hp as (roster & _ & Hp).
      destruct (negb _) eqn:Hr in Hp; to_prop; [done|]. destruct (negb _) in Hp; [done|].
      apply outcome_bind_ok in Hp as (network & Hn%ok_or_ok & [= <-]). by rewrite Hr.
Qed.

Lemma sample_network m r reply : ca_network (cm_authority (sample m r reply).2) = ca_network (cm_authority m).
Proof.
  unfold sample, record_fault. destruct (read_clocks r) as [[wall boot]|e|w]; [destruct (observe _ _ _ _) as [fault observed]| |done].
  all: destruct reply; repeat case_match; simplify_eq/=; done.
Qed.

Lemma probe_quorum_spec m h env network allow out m' :
  supervised m h → ca_network (cm_authority m) = Some network →
  probe_quorum m env network (qe_membership env) allow = (out, m') →
  supervised m' (sampled (qe_after env) ++ h) ∧
  ∀ q, out = Ok q → ∃ wall boot, read_clocks (qe_after env) = Ok (wall, boot) ∧ mo_faulted (monitor m') = false ∧
    quorum_holds m env allow boot q.
Proof.
  intros Hm Hnet. unfold probe_quorum. destruct (probe_voters _ _ _ _ _ _ _) as [healthy failures] eqn:Hprobe.
  destruct (sample m (qe_after env) (qe_after_reply env)) as [o m1] eqn:Hs.
  pose proof (sample_spec _ _ _ _ _ _ Hm Hs) as (Hm1 & Hl1 & Hok).
  destruct o as [[wall boot]|e|w]; [|by intros [= <- <-]..]. destruct (Hok _ _ eq_refl) as [Hr Hf].
  destruct (negb _) in |- *; [by intros [= <- <-]|]. destruct (joint_quorum _ healthy) eqn:Hj.
  - intros [= <- <-]. split; [apply set_quorum_supervised; [done|by intros s [= <-]]|]. intros q [= <-]. exists wall, boot.
    split; [done|]. split; [done|]. split_and!; simpl; try done.
    + unfold sat_sub, QUORUM_EXPIRY_MS. lia.
    + intros _. split; [done|]. intros id Hin. destruct (probe_voters_spec _ _ _ _ _ _ _ _ _ Hprobe id Hin) as [->%elem_of_singleton|[_ Ha]];
        [by left|right; by exists network].
  - destruct (cached_quorum _ _ _ _ _) as [s|] eqn:Hc; intros [= <- <-]; (split; [done|]); [|done]. intros q [= <-]. exists wall, boot.
    apply cached_quorum_spec in Hc as (Hl & -> & Hid & Hcfg & Hage). rewrite Hl1 in Hl.
    split; [done|]. split; [done|]. split_and!; try done. by apply (sup_quorum _ _ Hm).
Qed.

Lemma sample_quorum_spec m h env allow out m' :
  supervised m h → sample_quorum m env allow = (out, m') →
  supervised m' (quorum_sampled m env allow ++ h) ∧
  ∀ q, out = Ok q → mo_faulted (monitor m') = false ∧
    ∃ wall boot, last_read (quorum_sampled m env allow ++ h) = Some (wall, boot) ∧ quorum_holds m env allow boot q.
Proof.
  intros Hm. unfold sample_quorum, quorum_sampled. pose proof (sample_network m (qe_before env) (qe_before_reply env)) as Hnet.
  destruct (sample m (qe_before env) _) as [o m1] eqn:Hs. simpl in Hnet.
  pose proof (sample_spec _ _ _ _ _ _ Hm Hs) as (Hm1 & _ & Hok). destruct o as [[wall boot]|e|w]; [|by intros [= <- <-]..].
  destruct (Hok _ _ eq_refl) as [Hr Hf]. assert (last_read (sampled (qe_before env) ++ h) = Some (wall, boot)) as Hlast.
  { unfold sampled. by rewrite Hr. }
  assert (∀ b q, quorum_holds m1 env allow b q → quorum_holds m env allow b q) as Hsame by (unfold quorum_holds; by rewrite Hnet).
  destruct (quorum_plan m1 env allow boot) as [[s|[network roster]]|e|w] eqn:Hplan; [| |by intros [= <- <-]..].
  - intros [= <- <-]. split; [done|]. intros q [= <-]. split; [done|]. exists wall, boot. split; [done|].
    apply Hsame. apply (quorum_plan_spec _ _ _ _ _ _ Hm1 Hplan).
  - apply (quorum_plan_spec _ _ _ _ _ _ Hm1) in Hplan as [Hn ->]. intros Hp. rewrite <- app_assoc.
    destruct (probe_quorum_spec _ _ _ _ _ _ _ Hm1 Hn Hp) as [Hm2 Hq]. split; [done|]. intros q Hout.
    destruct (Hq q Hout) as (w2 & b2 & Hr2 & Hf2 & Hh). split; [done|]. exists w2, b2. unfold sampled at 1. rewrite Hr2. simpl. auto.
Qed.

Lemma clock_run_supervised lossy m h : clock_run lossy m h → supervised m h.
Proof.
  assert (∀ stored h, supervised (member_started stored) (Ob_Started stored :: h)) as Hstart.
  { intros stored h'. split; simpl; try done; destruct stored; simpl; try done; try by eauto.
    all: split; simpl; try done. intros _. by exists [], (Ob_Started false), h'; split_and!; auto. }
  induction 1 as [stored|m h _ IH|m h network _ IH|m h r reply _ IH|m h reason wall boot watermark reply _ IH _|m h env allow _ IH].
  - apply Hstart.
  - apply Hstart.
  - destruct IH. by split.
  - destruct (sample m r reply) as [out m'] eqn:Hs. by apply (sample_spec _ _ _ _ _ _ IH Hs).
  - destruct (acknowledge m reason wall boot watermark reply) as [out m'] eqn:Hs. by apply (acknowledge_spec _ _ _ _ _ _ _ _ _ IH Hs).
  - destruct (sample_quorum m env allow) as [out m'] eqn:Hs. by apply (sample_quorum_spec _ _ _ _ _ _ IH Hs).
Qed.

(** ** A stored fault *)
Definition fault_stored (m : ClockMember) : Prop := mo_fault_recorded (monitor m) = true → cm_stored m = true.

Lemma record_fault_stored reply m out m' :
  fault_stored m → record_fault reply m = (out, m') →
  fault_stored m' ∧ (out = Ok tt → mo_faulted (monitor m') = true → mo_fault_recorded (monitor m') = true) ∧
  (∀ e, out = Err e → reply = NotPersisted e ∨ reply = PersistedUnreported e).
Proof.
  unfold record_fault, fault_stored. intros Hm.
  destruct (mo_faulted (monitor m)) eqn:Hf, (mo_fault_recorded (monitor m)) eqn:Hr, reply; intros [= <- <-]; simpl.
  all: rewrite ?Hf, ?Hr; split_and!; try done; try auto.
  all: by intros ? [= <-]; auto.
Qed.

Lemma sample_stored m r reply out m' :
  fault_stored m → sample m r reply = (out, m') →
  fault_stored m' ∧ ∀ e, out = Err e → reply = NotPersisted e ∨ reply = PersistedUnreported e ∨ cm_stored m' = true.
Proof.
  intros Hm. unfold sample. destruct (read_clocks r) as [[wall boot]|e|w].
  - destruct (observe _ _ _ _) as [fault observed] eqn:Ho.
    set (m1 := if _ && _ then _ else _). assert (fault_stored m1) as Hm1.
    { subst m1. unfold observe in Ho. unfold fault_stored, monitor in *. repeat case_match; by simplify_eq/=. }
    destruct (record_fault reply m1) as [o m2] eqn:Hrf. destruct (record_fault_stored _ _ _ _ Hm1 Hrf) as (Hm2 & Hrec & Herr).
    destruct o as [[]|e|w]; [destruct (mo_faulted (monitor m2)) eqn:Hfin| |]; intros [= <- <-]; (split; [done|]); try done.
    + intros e _. right. right. by apply Hm2, Hrec.
    + intros e' [= <-]. destruct (Herr e eq_refl); auto.
  - set (m1 := if mo_faulted (monitor m) then _ else set_signal _ _).
    assert (fault_stored m1 ∧ mo_faulted (monitor m1) = true) as [Hm1 Hf1] by (subst m1; by case_match).
    destruct (record_fault reply m1) as [o m2] eqn:Hrf. destruct (record_fault_stored _ _ _ _ Hm1 Hrf) as (Hm2 & Hrec & Herr).
    assert (mo_faulted (monitor m2) = true) as Hf2.
    { unfold record_fault in Hrf. destruct reply; repeat case_match; by simplify_eq/=. }
    destruct o as [[]|e'|w]; intros [= <- <-]; (split; [done|]); try done.
    + intros e' _. right. right. by apply Hm2, Hrec.
    + intros e'' [= <-]. destruct (Herr e' eq_refl); auto.
  - by intros [= <- <-].
Qed.

Lemma probe_quorum_stored m env network roster allow :
  fault_stored m → fault_stored (probe_quorum m env network roster allow).2.
Proof.
  intros Hm. unfold probe_quorum. destruct (probe_voters _ _ _ _ _ _ _) as [healthy failures].
  destruct (sample m _ _) as [o m1] eqn:Hs. apply sample_stored in Hs as [Hm1 _]; [|done].
  destruct o as [[wall boot]|e|w]; [|done..]. destruct (negb _); [done|]. destruct (joint_quorum _ _); [done|].
  by destruct (cached_quorum _ _ _ _ _).
Qed.

Lemma sample_quorum_stored m env allow : fault_stored m → fault_stored (sample_quorum m env allow).2.
Proof.
  intros Hm. unfold sample_quorum. destruct (sample m _ _) as [o m1] eqn:Hs. apply sample_stored in Hs as [Hm1 _]; [|done].
  destruct o as [[wall boot]|e|w]; [|done..]. destruct (quorum_plan _ _ _ _) as [[s|[network roster]]|e|w]; [done| |done..].
  by apply probe_quorum_stored.
Qed.

Lemma clock_run_stored m h : clock_run false m h → fault_stored m.
Proof.
  induction 1 as [stored|m h _ IH|m h network _ IH|m h r reply _ IH|m h reason wall boot watermark reply _ IH Hreply|m h env allow _ IH].
  - by destruct stored.
  - by destruct (cm_stored m).
  - done.
  - destruct (sample m r reply) as [out m'] eqn:Hs. by apply sample_stored in Hs as [? _].
  - unfold acknowledge. destruct (acknowledge_reading _ _ _ _ _) as [[[w b] wm]|e|w]; [|done..].
    destruct (observe _ _ _ _) as [fault observed] eqn:Ho.
    assert (fault_stored (set_monitor (λ _, observed) m)) as Hm1.
    { unfold observe in Ho. unfold fault_stored, monitor in *. case_match; by simplify_eq/=. }
    destruct (_ || _); [done|]. destruct reply as [|e|e]; [done|done|]. by destruct (Hreply eq_refl e).
  - by apply sample_quorum_stored.
Qed.

(** ** How far the wall clock strays *)
Lemma quiet_drift s w0 b0 wm0 rest w b wm :
  Forall is_read s → quiet ((Ob_Read w b wm :: s) ++ [Ob_Read w0 b0 wm0]) rest →
  b0 ≤ b ≤ b0 + 2000 * Z.of_nat (S (length s)) ∧
  Z.abs ((w - w0) - (b - b0)) ≤ 250 * Z.of_nat (S (length s)) + (b - b0) / 1000.
Proof.
  intros Hs. revert w b wm. induction Hs as [|ob s Hob _ IH]; intros w b wm.
  - simpl. unfold sound. intros [[_ Hstep] _]. destruct (Hstep w0 b0 eq_refl). lia.
  - destruct ob as [|  |w1 b1 wm1|]; [done..| |done]. intros [[_ Hstep] Hrest]. destruct (Hstep w1 b1 eq_refl) as [Hb Hd].
    destruct (IH w1 b1 wm1 Hrest) as [Hb' Hd']. cbn [length]. split; [lia|].
    assert ((b - b1) / 1000 + (b1 - b0) / 1000 ≤ (b - b0) / 1000) by (Z.div_mod_to_equations; lia). lia.
Qed.

(** ** Majorities *)
Lemma filters_meet {A} (P Q : A → Prop) `{!∀ x, Decision (P x), !∀ x, Decision (Q x)} (l : list A) :
  (length l < length (filter P l) + length (filter Q l))%nat → ∃ x, x ∈ l ∧ P x ∧ Q x.
Proof.
  induction l as [|x l IH]; simpl; [lia|]. rewrite !filter_cons. intros Hlen. destruct (decide (P x)), (decide (Q x)).
  { exists x. split_and!; [by left|done..]. }
  all: cbn [length] in Hlen; destruct IH as (y & ? & ? & ?); [lia|]; exists y; (split_and!; [by right|done..]).
Qed.

Lemma joint_quorums_meet configs a b voters :
  joint_quorum configs a = true → joint_quorum configs b = true → voters ∈ configs →
  ∃ v, v ∈ voters ∧ v ∈ a ∧ v ∈ b.
Proof.
  intros [_ Ha]%joint_quorum_spec [_ Hb]%joint_quorum_spec Hin. apply (filters_meet (λ v, v ∈ a) (λ v, v ∈ b)). specialize (Ha _ Hin). specialize (Hb _ Hin).
  pose proof (Nat.div_mod_eq (length voters) 2). pose proof (Nat.mod_upper_bound (length voters) 2). lia.
Qed.

(** C19: the clock is only answered while it can be trusted. When a sample returns the
    time, then since a start without a stored fault, or since the last
    acknowledgement, no clock source failed, every reading came within two seconds of
    the one before it, the wall clock moved as the boot clock did, and no watermark
    was ahead of the wall clock by more than two seconds. *)
Theorem clock_time_is_trusted lossy m h r reply wall boot m' :
  clock_run lossy m h → sample m r reply = (Ok (wall, boot), m') →
  read_clocks r = Ok (wall, boot) ∧ trusted (Ob_Read wall boot (cr_watermark r) :: h) ∧
  ca_fault_signal (cm_authority m') = Signal_Healthy.
Proof.
  intros Hm%clock_run_supervised Hs. destruct (sample_spec _ _ _ _ _ _ Hm Hs) as (Hm' & _ & Hok).
  destruct (Hok _ _ eq_refl) as [Hr Hf]. unfold sampled in Hm'. rewrite Hr in Hm'.
  split; [done|]. split; [by apply (mon_trusted _ _ (sup_monitor _ _ Hm'))|by apply (sup_signal _ _ Hm')].
Qed.

(** An acknowledgement needs a recovery. When it succeeds, the readings of the
    last ten seconds and more were all sound, none of them followed by a fault, so
    that the wall clock strayed from the boot clock by no more than the tolerance of
    the readings; the wall clock is a second past the committed watermark; and the
    member is healthy again in its store and to its subscribers. *)
Theorem acknowledgement_needs_recovery lossy m h reason wall boot watermark reply m' :
  clock_run lossy m h → acknowledge m reason wall boot watermark reply = (Ok tt, m') →
  ∃ w b wm w0 b0 wm0 s rest,
    wall = Ok w ∧ boot = Ok b ∧ watermark = Ok wm ∧
    Ob_Read w b wm :: h = (Ob_Read w b wm :: s) ++ Ob_Read w0 b0 wm0 :: rest ∧
    quiet ((Ob_Read w b wm :: s) ++ [Ob_Read w0 b0 wm0]) rest ∧ Forall is_read s ∧
    10000 ≤ b - b0 ∧ Z.abs ((w - w0) - (b - b0)) ≤ 250 * Z.of_nat (S (length s)) + (b - b0) / 1000 ∧
    wm ≤ Z.max (w - 1000) 0 ∧ is_blank reason = false ∧
    cm_stored m' = false ∧ mo_faulted (monitor m') = false ∧ ca_fault_signal (cm_authority m') = Signal_Healthy.
Proof.
  intros Hm%clock_run_supervised. unfold acknowledge.
  destruct (acknowledge_reading _ _ _ _ _) as [[[w b] wm]|e|e] eqn:Hread; [|done..].
  apply acknowledge_reading_ok in Hread as (Hblank & Hf & Hrec & -> & -> & ->).
  destruct (observe _ w b wm) as [fault observed] eqn:Ho.
  pose proof (observe_spec _ _ _ _ _ _ _ (sup_monitor _ _ Hm) Ho) as (Hmon & _ & Hf' & _ & _ & _ & Hsince).
  destruct (fault || _ || _) eqn:Hg; [done|]. apply orb_false_iff in Hg as [[-> Hten]%orb_false_iff Hwm]. destruct (Hsince eq_refl) as [b0 Hb0].
  rewrite Hb0 in Hten. simpl in Hten. unfold sat_sub in *. to_prop.
  destruct (mon_since _ _ Hmon b0 Hb0) as (s & rest & w0 & wm0 & Hh & Hq & Hs). rewrite Hf' in Hs.
  destruct s as [|ob s]; simpl in Hh; injection Hh as <- Hh; [lia|]. specialize (Hs ltac:(by rewrite Hf)). inversion Hs as [|? ? _ Hreads]; subst.
  destruct reply as [|e|e]; intros [= <-]; exists w, b, wm, w0, b0, wm0, s, rest.
  destruct (quiet_drift s w0 b0 wm0 rest w b wm Hreads Hq) as [_ Hdrift]. split_and!; (done || lia).
Qed.

(** A latched fault survives a restart. Unless the write of the fault is reported
    to have failed, a sample that is refused leaves the fault in the store, and a
    member that starts from this store refuses every sample too. *)
Theorem clock_fault_survives_restart m h r reply e m' :
  clock_run false m h → sample m r reply = (Err e, m') →
  ca_fault_signal (cm_authority m') ≠ Signal_Healthy ∧
  (reply = NotPersisted e ∨ reply = PersistedUnreported e ∨
   cm_stored m' = true ∧ ∀ r' reply' now, (sample (member_started (cm_stored m')) r' reply').1 ≠ Ok now).
Proof.
  intros Hrun Hs. pose proof (clock_run_supervised _ _ _ Hrun) as Hm. destruct (sample_spec _ _ _ _ _ _ Hm Hs) as (Hm' & _ & _).
  split.
  { intros Hsig%(sup_signal _ _ Hm'). pose proof (sample_latched m r reply) as Hl. rewrite Hs in Hl. simpl in Hl.
    rewrite Hl in Hsig by eauto. done. }
  destruct (sample_stored _ _ _ _ _ (clock_run_stored _ _ Hrun) Hs) as [_ Herr].
  destruct (Herr e eq_refl) as [?|[?|Hst]]; [by auto..|]. right. right. split; [done|]. rewrite Hst. intros r' reply' [w b].
  pose proof (sample_latched (member_started true) r' reply' (or_introl eq_refl)) as Hl.
  destruct (sample (member_started true) r' reply') as [out m''] eqn:Hs'. simpl in *. intros ->.
  assert (supervised (member_started true) [Ob_Started true]) as Hst' by (apply (clock_run_supervised false), clock_first).
  destruct (sample_spec _ _ _ _ _ _ Hst' Hs') as (_ & _ & Hok). destruct (Hok _ _ eq_refl) as [_ Hf]. congruence.
Qed.

(** C20: a quorum is current. When [sample_quorum] answers, the member's own clock can
    be trusted; the sample is of the voters Raft reports now, holds a majority of each
    of their sets, and was taken less than ten seconds ago; when the cached sample is
    not allowed it was taken now, and each member in it has answered. A member with a
    quorum of the same sets shares a voter with it in each of them. *)
Theorem clock_quorum_is_current lossy m h env allow_cached q m' :
  clock_run lossy m h → sample_quorum m env allow_cached = (Ok q, m') →
  trusted (quorum_sampled m env allow_cached ++ h) ∧
  (∃ wall boot, last_read (quorum_sampled m env allow_cached ++ h) = Some (wall, boot) ∧
    quorum_holds m env allow_cached boot q) ∧
  (∀ voters, voters ∈ fq_voter_configs q →
    (length voters / 2 < length (filter (λ v, v ∈ fq_sampled_voters q) voters))%nat) ∧
  ∀ other other_voters voters,
    joint_quorum (fq_voter_configs other) other_voters = true → fq_voter_configs other = fq_voter_configs q →
    voters ∈ fq_voter_configs q → ∃ v, v ∈ voters ∧ v ∈ fq_sampled_voters q ∧ v ∈ other_voters.
Proof.
  intros Hm%clock_run_supervised Hs. destruct (sample_quorum_spec _ _ _ _ _ _ Hm Hs) as (Hm' & Hok).
  destruct (Hok _ eq_refl) as (Hf & wall & boot & Hlast & Hq). pose proof Hq as (_ & _ & Hj & _).
  split; [by apply (mon_trusted _ _ (sup_monitor _ _ Hm'))|]. split; [by exists wall, boot|].
  split; [by apply joint_quorum_spec in Hj as [_ ?]|]. intros other others voters Hother Heq Hin.
  rewrite Heq in Hother. by apply (joint_quorums_meet (fq_voter_configs q)).
Qed.
