(* ===== verification/IdsFacts.v ===== *)
(** * The textual forms of keys

    Decimal printing and parsing agree, and an activity key is recovered from
    its stable name, so the digests and maps that use the name identify the key. *)
From stdpp Require Import base option strings list pretty.
From Stdlib Require Import ZArith Ascii Lia.
From S2P Require Import Prelude Value Ids.

(** ** Decimal numbers *)
Lemma digit_of_pretty x : (x < 10)%N → digit_of (pretty_N_char x) = Some (Z.of_N x).
Proof.
  intros Hx. assert (x = 0 ∨ x = 1 ∨ x = 2 ∨ x = 3 ∨ x = 4 ∨ x = 5 ∨ x = 6 ∨ x = 7 ∨ x = 8 ∨ x = 9)%N as Hc
    by lia. by repeat destruct Hc as [->|Hc]; [..|rewrite Hc].
Qed.

(** The digits of a printed number have no other characters. *)
Definition decimal (s : string) : bool := string_all (λ c, bool_decide (is_Some (digit_of c))) s.

Lemma pretty_go_decimal x s : decimal (pretty_N_go x s) = decimal s.
Proof.
  revert s. induction (N.lt_wf_0 x) as [x _ IH]; intros s. destruct (decide (0 < x)%N) as [Hx|Hx].
  - rewrite pretty_N_go_step, IH by (done || by apply N.div_lt). unfold decimal. simpl.
    rewrite digit_of_pretty by (by apply N.mod_lt). by rewrite bool_decide_eq_true_2.
  - assert (x = 0%N) as -> by lia. done.
Qed.

Lemma pretty_go_parse x s : ∃ k, ∀ acc,
  parse_digits acc (pretty_N_go x s) = parse_digits (acc * k + Z.of_N x) s.
Proof.
  revert s. induction (N.lt_wf_0 x) as [x _ IH]; intros s. destruct (decide (0 < x)%N) as [Hx|Hx].
  - rewrite pretty_N_go_step by done. destruct (IH (x `div` 10)%N) with (s := String (pretty_N_char (x `mod` 10)) s)
      as [k Hk]; [by apply N.div_lt|]. exists (k * 10). intros acc. rewrite Hk. simpl.
    rewrite digit_of_pretty by (by apply N.mod_lt). f_equal.
    rewrite (N.div_mod x 10) at 3 by done. lia.
  - assert (x = 0%N) as -> by lia. exists 1. intros acc. by rewrite Z.mul_1_r, Z.add_0_r.
Qed.

Lemma show_nonneg z : 0 ≤ z → show_Z z = pretty (Z.to_N z).
Proof. unfold show_Z. by destruct z. Qed.

Lemma show_decimal z : 0 ≤ z → decimal (show_Z z) = true ∧ show_Z z ≠ "" ∧
  parse_digits 0 (show_Z z) = Some z.
Proof.
  intros Hz. rewrite show_nonneg by done. unfold pretty, pretty_N.
  destruct (decide (Z.to_N z = 0%N)) as [Hz0|Hz0].
  { split_and!; [done|done|]. assert (z = 0) as -> by lia. done. }
  split_and!.
  - by rewrite pretty_go_decimal.
  - intros Hnil. destruct (pretty_go_parse (Z.to_N z) "") as [k Hk].
    pose proof (Hk 0) as H0. rewrite Hnil in H0. simpl in H0. injection H0 as H0. lia.
  - destruct (pretty_go_parse (Z.to_N z) "") as [k Hk]. rewrite Hk. simpl. f_equal. lia.
Qed.

Lemma parse_show max z : 0 ≤ z ≤ max → parse_uint max (show_Z z) = Some z.
Proof.
  intros [Hz Hmax]. destruct (show_decimal z Hz) as (Hdec & Hne & Hp). unfold parse_uint.
  destruct (show_Z z) as [|c rest] eqn:Hs; [done|].
  assert (c ≠ "+"%char) as Hplus.
  { intros ->. by vm_compute in Hdec. }
  assert (match String c rest with String "+" rest => rest | _ => String c rest end = String c rest) as ->.
  { destruct c as [[] [] [] [] [] [] [] []]; done. }
  rewrite Hp. by rewrite (proj2 (Z.leb_le z max)).
Qed.

(** ** Splitting at the last occurrence *)
Lemma rsplit_cons c rest :
  rsplit_once_v (String c rest) =
    match rsplit_once_v rest with
    | Some (name, version) => Some (String c name, version)
    | None =>
        match rest with
        | String d tail => if Ascii.eqb c "/" && Ascii.eqb d "v" then Some ("", tail) else None
        | "" => None
        end
    end.
Proof. done. Qed.

Lemma rsplit_decimal s : decimal s = true → rsplit_once_v s = None.
Proof.
  induction s as [|c s IH]; [done|]. simpl. intros [Hc Hs]%andb_true_iff. rewrite (IH Hs).
  destruct s as [|d s]; [done|]. destruct (Ascii.eqb c "/") eqn:He; [|done].
  apply Ascii.eqb_eq in He as ->. done.
Qed.

Lemma rsplit_app name version :
  decimal version = true → rsplit_once_v (name +:+ "/v" +:+ version) = Some (name, version).
Proof.
  intros Hv. induction name as [|c name IH]; [|by simpl in *; rewrite IH].
  assert (rsplit_once_v (String "v" version) = None) as Hnone.
  { rewrite rsplit_cons, rsplit_decimal by done. by destruct version. }
  change ("" +:+ "/v" +:+ version) with (String "/" (String "v" version)). by rewrite rsplit_cons, Hnone.
Qed.

(** An activity key survives its stable name. Parsing the printed key gives
    the key back for every 32-bit version, whatever characters the name has, even
    further occurrences of the separator. *)
Theorem activity_key_roundtrip k :
  0 ≤ ak_version k ≤ u32_max → activity_key_parse (activity_key_stable_name k) = Ok k.
Proof.
  intros Hv. destruct (show_decimal (ak_version k)) as (Hdec & _ & _); [lia|].
  unfold activity_key_parse, activity_key_stable_name. rewrite rsplit_app by done. simpl.
  rewrite parse_show by done. by destruct k.
Qed.
