(* ===== verification/RecordFacts.v ===== *)
(** * State records read back

    Keys are told apart and taken apart again, rows carry the entries of the
    document they were made from, and reading the rows of a state in any order,
    with retired runs still being removed, gives the state. *)
From stdpp Require Import base option gmap strings list sorting fin_sets.
From Stdlib Require Import ZArith Ascii Lia.
From S2P Require Import Prelude Value ValueFacts Ids IdsFacts Policy Catalog Ir Domain Eval Evolve History FormatUpgrade Snapshot SnapshotFacts RecordStore.

(** ** Ordered objects *)
Lemma string_compare_trans a b c : String.compare a b = Lt → String.compare b c = Lt → String.compare a c = Lt.
Proof.
  revert b c. induction a as [|x a IH]; intros [|y b] [|z c]; simpl; try done.
  unfold Ascii.compare. intros H1 H2.
  destruct (N.compare_spec (N_of_ascii x) (N_of_ascii y)) as [Hxy|Hxy|Hxy]; try done;
    destruct (N.compare_spec (N_of_ascii y) (N_of_ascii z)) as [Hyz|Hyz|Hyz]; try done;
    destruct (N.compare_spec (N_of_ascii x) (N_of_ascii z)) as [Hxz|Hxz|Hxz]; try done; try lia.
  by eapply IH.
Qed.

Lemma string_compare_irrefl a : String.compare a a ≠ Lt.
Proof. by rewrite (proj2 (string_compare_Eq a a) eq_refl). Qed.

Section Objects.
Context {V : Type}.
Implicit Types m : list (string * V).

Lemma keys_increasing_cons k v m :
  keys_increasing ((k, v) :: m) ↔ keys_increasing m ∧ ∀ k' v', bt_get k' m = Some v' → String.compare k k' = Lt.
Proof.
  unfold keys_increasing. split.
  - intros Hs. inversion Hs as [|? ? Hm Hall]; subst. split; [done|]. intros k' v' Hget%bt_get_elem.
    rewrite Forall_forall in Hall. by apply (Hall (k', v')).
  - intros [Hm Hlt]. constructor; [done|]. apply Forall_forall. intros [k' v'] Hin. simpl.
    revert Hin Hlt. clear Hm. induction m as [|[k2 v2] m IH]; [by rewrite elem_of_nil|].
    rewrite elem_of_cons. intros Hin Hlt. destruct (decide (k' = k2)) as [->|Hne].
    + apply (Hlt k2 v2). simpl. by rewrite decide_True.
    + destruct Hin as [[= -> ->]|Hin]; [done|]. destruct (decide (String.compare k k2 = Lt)) as [Hk|Hk].
      2:{ exfalso. apply Hk, (Hlt k2 v2). simpl. by rewrite decide_True. }
      destruct (bt_get k' m) as [w|] eqn:Hw.
      * apply (Hlt k' w). simpl. by rewrite decide_False.
      * exfalso. clear -Hin Hw. induction m as [|[k3 v3] m IH]; [by apply elem_of_nil in Hin|].
        simpl in Hw. case_decide as Hd; [done|]. apply elem_of_cons in Hin as [[= -> ->]|Hin]; [done|auto].
Qed.

Lemma bt_get_fresh k v m : keys_increasing ((k, v) :: m) → bt_get k m = None.
Proof.
  intros [_ Hlt]%keys_increasing_cons. destruct (bt_get k m) as [w|] eqn:Hw; [|done].
  by destruct (string_compare_irrefl k (Hlt k w Hw)).
Qed.

Lemma bt_ext m1 m2 :
  keys_increasing m1 → keys_increasing m2 → (∀ k, bt_get k m1 = bt_get k m2) → m1 = m2.
Proof.
  revert m2. induction m1 as [|[k1 v1] m1 IH]; intros [|[k2 v2] m2] H1 H2 Hget; [done| | |].
  - specialize (Hget k2). simpl in Hget. by rewrite decide_True in Hget.
  - specialize (Hget k1). simpl in Hget. by rewrite decide_True in Hget.
  - pose proof (bt_get_fresh _ _ _ H1) as Hf1. pose proof (bt_get_fresh _ _ _ H2) as Hf2.
    apply keys_increasing_cons in H1 as [H1 Hlt1], H2 as [H2 Hlt2].
    assert (k1 = k2) as <-.
    { destruct (decide (k1 = k2)) as [|Hne]; [done|]. pose proof (Hget k1) as G1. pose proof (Hget k2) as G2. simpl in G1, G2.
      rewrite decide_True, decide_False in G1 by congruence. rewrite decide_False, decide_True in G2 by congruence.
      pose proof (Hlt2 k1 v1 (eq_sym G1)) as Ha. pose proof (Hlt1 k2 v2 G2) as Hb.
      by destruct (string_compare_irrefl k1 (string_compare_trans _ _ _ Hb Ha)). }
    pose proof (Hget k1) as G. simpl in G. rewrite !decide_True in G by done. injection G as <-. f_equal.
    apply IH; [done..|]. intros k. specialize (Hget k). simpl in Hget. destruct (decide (k = k1)) as [->|]; [congruence|done].
Qed.

Lemma bt_get_is_elem m k v : keys_increasing m → bt_get k m = Some v ↔ (k, v) ∈ m.
Proof.
  intros Hm. split; [apply bt_get_elem|]. induction m as [|[k' v'] m IH]; [by rewrite elem_of_nil|].
  rewrite elem_of_cons. pose proof (bt_get_fresh _ _ _ Hm) as Hf. apply keys_increasing_cons in Hm as [Hm _].
  intros [[= -> ->]|Hin]; simpl; [by rewrite decide_True|]. specialize (IH Hm Hin). case_decide; [congruence|done].
Qed.

Lemma str_insert_increasing k v m : keys_increasing m → keys_increasing (str_insert k v m).
Proof.
  unfold str_insert. induction m as [|[k' v'] m IH]; intros Hm; simpl; [repeat constructor|].
  destruct (String.compare k k') eqn:Hc.
  - apply string_compare_Eq in Hc as <-. apply keys_increasing_cons in Hm. by apply keys_increasing_cons.
  - apply keys_increasing_cons. split; [done|]. intros k2 v2. simpl. case_decide as Hd; [by subst|].
    intros Hget. apply keys_increasing_cons in Hm as [_ Hlt]. apply (string_compare_trans _ k'); eauto.
  - apply keys_increasing_cons in Hm as [Hm Hlt]. apply keys_increasing_cons. split; [auto|].
    intros k2 v2. fold (str_insert k v m). rewrite bt_get_insert. case_decide as Hd; [subst|eauto].
    intros _. rewrite String.compare_antisym, Hc. done.
Qed.
End Objects.

(** ** Keys *)
Fixpoint slash_free (s : string) : bool :=
  match s with String c s => negb (Ascii.eqb c "/") && slash_free s | EmptyString => true end.

Lemma slash_free_app a b : slash_free (a +:+ b) = slash_free a && slash_free b.
Proof. induction a as [|c a IH]; [done|]. change (slash_free (String c a +:+ b)) with (negb (Ascii.eqb c "/") && slash_free (a +:+ b)).
  rewrite IH. simpl. by rewrite andb_assoc. Qed.

Lemma split_slash_free a : slash_free a = true → split_slash a = [a].
Proof.
  induction a as [|c a IH]; [done|]. simpl. destruct (Ascii.eqb c "/"); [done|]. intros Ha. by rewrite IH.
Qed.

Lemma split_slash_app a b : slash_free a = true → split_slash (a +:+ "/" +:+ b) = a :: split_slash b.
Proof.
  induction a as [|c a IH]; [done|]. change (String c a +:+ "/" +:+ b) with (String c (a +:+ "/" +:+ b)). simpl.
  destruct (Ascii.eqb c "/"); [done|]. intros Ha. by rewrite IH.
Qed.

Lemma digits_slash_free base width n : 0 < base ≤ 16 → slash_free (digits_of base width n) = true.
Proof.
  intros Hb. induction width as [|width IH]; [done|]. cbn [digits_of slash_free]. rewrite IH, andb_true_r. apply negb_true_iff.
  pose proof (Z.mod_pos_bound (n / base ^ Z.of_nat width) base) as Hd. set (d := (_ / _) mod _) in *.
  apply Ascii.eqb_neq. intros Heq. apply (f_equal N_of_ascii) in Heq. rewrite N_ascii_embedding in Heq; [|destruct (d <? 10); lia].
  change (N_of_ascii "/") with 47%N in Heq. destruct (Z.ltb_spec d 10); lia.
Qed.

Section Keys.
Context `{P : Platform} `{!PlatformLaws P}.

Lemma hex_slash_free s : slash_free (hex_encode s) = true.
Proof.
  pose proof (hex_encode_digits s) as Hd. induction (hex_encode s) as [|c t IH]; [done|]. simpl in Hd.
  inversion Hd as [|? ? Hc Ht]; subst. simpl. rewrite IH, andb_true_r by done. apply negb_true_iff, Ascii.eqb_neq. intros ->.
  destruct Hc as [Hc|Hc]; vm_compute in Hc; destruct Hc as [H1 H2]; (by apply H1) || (by apply H2).
Qed.

Lemma hex_encode_inj a b : hex_encode a = hex_encode b → a = b.
Proof. intros Heq. apply (f_equal hex_decode) in Heq. rewrite !hex_decode_encode in Heq. congruence. Qed.

Definition scope_of (k : RowKey) : string := match rk_run k with None => "global" | Some run => "run-" +:+ run end.
Definition nested_of (k : RowKey) : string := match rk_nested k with Some nested => hex_encode nested | None => "" end.

(** The texts of a key that are written as they are. *)
Definition key_ok (k : RowKey) : bool :=
  slash_free (rk_field k) && slash_free (rk_tag k) && match rk_run k with Some run => slash_free run | None => true end.

Lemma split_record_key g k :
  key_ok k = true →
  split_slash (record_key g k) = [hex16 g; scope_of k; rk_field k; rk_tag k; hex_encode (rk_primary k); nested_of k].
Proof.
  unfold key_ok, record_key. intros Hk. to_prop. fold (scope_of k) (nested_of k).
  rewrite split_slash_app by (apply digits_slash_free; lia).
  rewrite split_slash_app by (unfold scope_of; destruct (rk_run k); [by rewrite slash_free_app|done]).
  rewrite !split_slash_app by (done || apply hex_slash_free). rewrite split_slash_free; [done|].
  unfold nested_of. destruct (rk_nested k); [apply hex_slash_free|done].
Qed.

Lemma piece_record_key g k i : key_ok k = true →
  piece (split_slash (record_key g k)) i =
  piece [hex16 g; scope_of k; rk_field k; rk_tag k; hex_encode (rk_primary k); nested_of k] i.
Proof. intros Hk. by rewrite split_record_key. Qed.

(** Two keys are told apart unless they only differ in an empty nested part. *)
Lemma record_key_inj g k1 k2 :
  key_ok k1 = true → key_ok k2 = true → (∀ x, rk_nested k1 = Some x → rk_nested k2 ≠ None) →
  (∀ x, rk_nested k2 = Some x → rk_nested k1 ≠ None) → record_key g k1 = record_key g k2 → k1 = k2.
Proof.
  intros Hk1 Hk2 Hn1 Hn2 Heq. apply (f_equal split_slash) in Heq. rewrite !split_record_key in Heq by done.
  injection Heq as Hs Hf Ht Hp Hn. apply hex_encode_inj in Hp. destruct k1 as [r1 f1 t1 p1 n1], k2 as [r2 f2 t2 p2 n2].
  unfold scope_of, nested_of in *. simpl in *. f_equal; try done.
  - destruct r1 as [r1|], r2 as [r2|]; simpl in Hs; try done. injection Hs as Hs. change (r1 = r2) in Hs. by subst.
  - destruct n1 as [n1|], n2 as [n2|]; try done; [by apply hex_encode_inj in Hn as ->| |]; naive_solver.
Qed.

(** [{:020}] reads back. *)
Lemma parse_digits_of width n acc :
  0 ≤ n → parse_digits acc (digits_of 10 width n) = Some (acc * 10 ^ Z.of_nat width + n mod 10 ^ Z.of_nat width).
Proof.
  intros Hn. revert acc. induction width as [|width IH]; intros acc.
  { simpl. rewrite Z.mod_1_r. f_equal. lia. }
  cbn [digits_of parse_digits]. set (d := (n / 10 ^ Z.of_nat width) mod 10).
  assert (0 ≤ d < 10) as Hd by (apply Z.mod_pos_bound; lia).
  assert (digit_of (ascii_of_N (Z.to_N (if d <? 10 then 48 + d else 87 + d))) = Some d) as ->.
  { unfold digit_of. rewrite (proj2 (Z.ltb_lt d 10)) by lia. rewrite N_ascii_embedding by lia.
    rewrite Z2N.id by lia. replace (_ && _) with true by (symmetry; apply andb_true_iff; split; apply Z.leb_le; lia). f_equal. lia. }
  rewrite IH. f_equal. rewrite Nat2Z.inj_succ, Z.pow_succ_r by lia. unfold d.
  rewrite (Z.rem_mul_r n (10 ^ Z.of_nat width) 10) || rewrite (Z.mul_comm 10), (Z.rem_mul_r n (10 ^ Z.of_nat width) 10) by lia. lia.
Qed.

Lemma parse_decimal width max n :
  (0 < width)%nat → 0 ≤ n < 10 ^ Z.of_nat width → n ≤ max → parse_uint max (digits_of 10 width n) = Some n.
Proof.
  intros Hw Hn Hmax. unfold parse_uint.
  assert (∃ c rest, digits_of 10 width n = String c rest ∧ c ≠ "+"%char) as (c & rest & Hs & Hc).
  { destruct width as [|width]; [lia|]. cbn [digits_of]. eexists _, _. split; [reflexivity|]. intros Heq. apply (f_equal N_of_ascii) in Heq.
    pose proof (Z.mod_pos_bound (n / 10 ^ Z.of_nat width) 10 ltac:(lia)). set (d := (_ / _) mod _) in *.
    rewrite (proj2 (Z.ltb_lt d 10)), N_ascii_embedding in Heq by lia. change (N_of_ascii "+") with 43%N in Heq. lia. }
  rewrite Hs. assert (match String c rest with String "+" rest => rest | _ => String c rest end = String c rest) as ->.
  { destruct c as [[] [] [] [] [] [] [] []]; done. }
  rewrite <- Hs. rewrite parse_digits_of by lia. rewrite Z.mul_0_l, Z.add_0_l.
  rewrite Z.mod_small by lia. by rewrite (proj2 (Z.leb_le n max)).
Qed.

Lemma parse_dec20 n : 0 ≤ n ≤ u64_max → parse_uint u64_max (dec20 n) = Some n.
Proof. intros Hn. apply parse_decimal; unfold u64_max in *; lia. Qed.
End Keys.

(** ** What a state's document is *)
Fixpoint increasing (keys : list string) : bool :=
  match keys with
  | [] => true
  | k :: keys => forallb (λ k', match String.compare k k' with Lt => true | _ => false end) keys && increasing keys
  end.

(** The maps are ordered, all the way down. *)
Fixpoint json_canonical (j : Json) : bool :=
  match j with
  | JArray items => forallb json_canonical items
  | JObject entries => increasing entries.*1 && forallb (λ e, json_canonical e.2) entries
  | _ => true
  end.

Lemma increasing_keys {V} (m : list (string * V)) : increasing m.*1 = true ↔ keys_increasing m.
Proof.
  unfold keys_increasing. induction m as [|[k v] m IH]; simpl; [split; [constructor|done]|].
  rewrite andb_true_iff, IH. rewrite forallb_forall. split.
  - intros [Hlt Hm]. constructor; [done|]. apply Forall_forall. intros [k' v'] Hin. simpl.
    specialize (Hlt k'). rewrite <- list_elem_of_In, list_elem_of_fmap in Hlt.
    specialize (Hlt ltac:(by exists (k', v'))). by destruct (String.compare k k').
  - intros Hs. inversion Hs as [|? ? Hm Hlt]; subst. split; [|done]. intros k' Hin%list_elem_of_In.
    apply list_elem_of_fmap in Hin as ([k2 v2] & -> & Hin). rewrite Forall_forall in Hlt. specialize (Hlt _ Hin). simpl in *. by rewrite Hlt.
Qed.

Definition Item := (RowKey * option Z * Json)%type.
Definition item_key (it : Item) : RowKey := it.1.1.
Definition item_record (revision : Z) (it : Item) : VersionedRecord :=
  mkVersionedRecord RECORD_FORMAT revision it.1.2 it.2.

(** What the store relies on: records and headers are written and read back, and
    neither is taken for the other. *)
Class RecordSerdeLaws (S : RecordSerde) : Prop := {
  record_roundtrip : ∀ r, json_canonical (vr_value r) = true → 0 ≤ vr_revision r ≤ u64_max →
    (∀ o, vr_order r = Some o → 0 ≤ o ≤ u64_max) →
    ∃ bytes, record_to_json r = Ok bytes ∧ record_from_json bytes = Ok r;
  record_is_no_header : ∀ r bytes, record_to_json r = Ok bytes → is_fragment_header bytes = false;
  header_roundtrip : ∀ h, ∃ bytes, header_to_json h = Ok bytes ∧ header_from_json bytes = Ok h;
}.

Section Encoded.
Context `{P : Platform} `{!PlatformLaws P} `{RS : RecordSerde} `{!RecordSerdeLaws RS} `{StateSerde}.
Implicit Types (rows : Rows) (it : Item) (items : list Item).

Definition item_ok (it : Item) : Prop :=
  json_canonical it.2 = true ∧ key_ok (item_key it) = true ∧ ∀ o, it.1.2 = Some o → 0 ≤ o ≤ u64_max.

Definition item_bytes (revision : Z) (it : Item) : string :=
  match record_to_json (item_record revision it) with Ok bytes => bytes | _ => "" end.

Definition item_row (generation revision : Z) (it : Item) : string * string :=
  (record_key generation (item_key it), item_bytes revision it).

Lemma item_written r it : item_ok it → 0 ≤ r ≤ u64_max →
  record_to_json (item_record r it) = Ok (item_bytes r it) ∧ record_from_json (item_bytes r it) = Ok (item_record r it).
Proof.
  intros (Hc & _ & Ho) Hr. destruct (record_roundtrip (item_record r it)) as (bytes & Hw & Hread); [done..|].
  unfold item_bytes. by rewrite Hw.
Qed.

(** ** Rows written one after the other *)
#[local] Arguments insert : simpl never.

Definition insert_items (g r : Z) rows items : Outcome Rows := outcome_fold (insert g r) rows items.

Lemma insert_all_ok {A} g r (row_of : A → Outcome Item) rows entries rows' :
  insert_all g r row_of rows entries = Ok rows' ↔
  ∃ items, outcome_map row_of entries = Ok items ∧ insert_items g r rows items = Ok rows'.
Proof.
  unfold insert_all, insert_items. revert rows. induction entries as [|e entries IH]; intros rows; simpl.
  { split; [intros Hr; by exists []|by intros (items & [= <-] & Hr)]. }
  setoid_rewrite outcome_bind_ok. split.
  - intros (rows1 & (it & Hit & Hins)%outcome_bind_ok & Hrest). apply IH in Hrest as (items & Hmap & Hins').
    exists (it :: items). split; [exists it; split; [done|]; apply outcome_bind_ok; eauto|]. simpl. apply outcome_bind_ok; eauto.
  - intros (items & (it & Hit & (items' & Hmap & [= <-])%outcome_bind_ok) & Hins). simpl in Hins.
    apply outcome_bind_ok in Hins as (rows1 & Hins & Hrest). exists rows1. split; [apply outcome_bind_ok; eauto|]. apply IH. eauto.
Qed.

Lemma insert_items_app g r rows items1 items2 rows' :
  insert_items g r rows (items1 ++ items2) = Ok rows' ↔
  ∃ rows1, insert_items g r rows items1 = Ok rows1 ∧ insert_items g r rows1 items2 = Ok rows'.
Proof.
  unfold insert_items. revert rows. induction items1 as [|it items1 IH]; intros rows; simpl; [naive_solver|].
  setoid_rewrite outcome_bind_ok. setoid_rewrite IH. naive_solver.
Qed.

Lemma insert_item g r rows it : item_ok it → 0 ≤ r ≤ u64_max →
  insert g r rows it = (if bool_decide (is_Some (rows !! record_key g (item_key it)))
    then Err (failed_precondition match it.1.2 with None => "duplicate state record identity" | Some _ => "duplicate state list identity" end)
    else Ok (<[record_key g (item_key it) := item_bytes r it]> rows)).
Proof.
  intros Hit Hr. destruct (item_written r it Hit Hr) as [Hw _]. destruct it as [[k o] v]. unfold insert.
  change (mkVersionedRecord RECORD_FORMAT r o v) with (item_record r (k, o, v)). by rewrite Hw.
Qed.

(** The keys are new and all different; this does not depend on the revision. *)
Lemma insert_items_ok g r rows items rows' :
  Forall item_ok items → 0 ≤ r ≤ u64_max →
  insert_items g r rows items = Ok rows' ↔
  NoDup (record_key g <$> (item_key <$> items)) ∧ (∀ it, it ∈ items → rows !! record_key g (item_key it) = None) ∧
  rows' = list_to_map (item_row g r <$> items) ∪ rows.
Proof.
  intros Hok Hr. revert rows. induction Hok as [|it items Hit _ IH]; intros rows; simpl.
  { unfold insert_items. simpl. rewrite (left_id_L ∅ (∪)). split; [|by intros (_ & _ & ->)]. intros [= ->].
    split; [constructor|]. split; [|done]. by intros it Hin%elem_of_nil. }
  unfold insert_items. simpl. rewrite insert_item by done. fold (insert_items g r).
  case_bool_decide as Hdup.
  { split; [done|]. intros (_ & Hfresh & _). destruct Hdup as [b Hb]. rewrite Hfresh in Hb; [done|by left]. }
  simpl. fold (insert_items g r (<[record_key g (item_key it) := item_bytes r it]> rows) items). rewrite IH. clear IH.
  apply eq_None_not_Some in Hdup. rewrite NoDup_cons, !list_elem_of_fmap. split.
  - intros (Hnd & Hfresh & ->). split.
    + split; [|done]. intros (k & Hk & (it' & -> & Hin)%list_elem_of_fmap). specialize (Hfresh _ Hin). rewrite Hk, lookup_insert_eq in Hfresh. done.
    + split.
      * intros it' [->|Hin]%elem_of_cons; [done|]. specialize (Hfresh _ Hin). by apply lookup_insert_None in Hfresh as [? _].
      * rewrite <- insert_union_l, <- insert_union_r; [done|]. apply not_elem_of_list_to_map. rewrite <- list_fmap_compose.
        intros (it' & Hk & Hin)%list_elem_of_fmap. specialize (Hfresh _ Hin). simpl in Hk. rewrite <- Hk, lookup_insert_eq in Hfresh. done.
  - intros ((Hnew & Hnd) & Hfresh & ->). split; [done|]. split.
    + intros it' Hin. apply lookup_insert_None. split; [apply Hfresh; by right|]. intros Hk. apply Hnew. exists (item_key it').
      split; [done|]. by apply list_elem_of_fmap_2.
    + rewrite <- insert_union_l, <- insert_union_r; [done|]. apply not_elem_of_list_to_map. rewrite <- list_fmap_compose.
      intros (it' & Hk & Hin)%list_elem_of_fmap. apply Hnew. exists (item_key it'). split; [done|]. by apply list_elem_of_fmap_2.
Qed.

(** ** The rows of a state *)
Definition history_items (field : string) (entry : string * Json) : Outcome (list Item) :=
  match entry.2 with
  | JArray entries => outcome_map (history_row field entry.1) (enumerate entries)
  | _ => Err (failed_precondition (field +:+ " must contain ordered events"))
  end.

Definition nested_items (field : string) (entry : string * Json) : Outcome (list Item) :=
  match entry.2 with
  | JObject children => outcome_map (nested_row field entry.1) children
  | _ => Err (failed_precondition (field +:+ " group must be an object"))
  end.

Definition field_items (state : State) (defaults : list (string * Json)) (entry : string * Json) : Outcome (list Item) :=
  let '(field, value) := entry in
  if bool_decide (field = "format_policy") && bool_decide (format_policy state = format_policy_default) then Ok []
  else if bool_decide (field = "format_policy") then Ok [(scalar_row field, None, value)]
  else if contains HISTORY_FIELDS field then
    runs ← object_fields (field +:+ " must be indexed by run") value;
    items ← outcome_map (history_items field) runs; Ok (concat items)
  else if contains NESTED_FIELDS field then
    groups ← object_fields (field +:+ " must be an object") value;
    items ← outcome_map (nested_items field) groups; Ok (concat items)
  else if contains LIST_FIELDS field then
    match value with
    | JArray entries =>
        items ← outcome_map (list_row field) (enumerate entries);
        Ok (items ++ [(order_row field, None, JInt (zlen entries))])
    | _ => Err (failed_precondition (field +:+ " must be an array"))
    end
  else if is_map_field defaults field then
    entries ← object_fields (field +:+ " must be an object") value; outcome_map (map_row state field) entries
  else Ok [(scalar_row field, None, value)].

Lemma fold_items {A} g r (body : Rows → A → Outcome Rows) (items_of : A → Outcome (list Item)) l rows rows' :
  (∀ rows x rows', body rows x = Ok rows' ↔ ∃ items, items_of x = Ok items ∧ insert_items g r rows items = Ok rows') →
  outcome_fold body rows l = Ok rows' ↔
  ∃ itemss, outcome_map items_of l = Ok itemss ∧ insert_items g r rows (concat itemss) = Ok rows'.
Proof.
  intros Hbody. revert rows. induction l as [|x l IH]; intros rows; simpl.
  { split; [intros Hr; by exists []|by intros (items & [= <-] & Hr)]. }
  setoid_rewrite outcome_bind_ok. split.
  - intros (rows1 & (items & Hit & Hins)%Hbody & (itemss & Hmap & Hins')%IH). exists (items :: itemss).
    split; [exists items; split; [done|]; apply outcome_bind_ok; eauto|]. simpl. apply insert_items_app. eauto.
  - intros (itemss & (items & Hit & (rest & Hmap & [= <-])%outcome_bind_ok) & (rows1 & Hins & Hins')%insert_items_app).
    exists rows1. split; [apply Hbody; eauto|]. apply IH. eauto.
Qed.

Lemma insert_one g r rows it rows' : insert g r rows it = Ok rows' ↔ insert_items g r rows [it] = Ok rows'.
Proof. unfold insert_items. simpl. rewrite outcome_bind_ok. naive_solver. Qed.

Lemma encode_field_ok state defaults g r rows entry rows' :
  encode_field state defaults g r rows entry = Ok rows' ↔
  ∃ items, field_items state defaults entry = Ok items ∧ insert_items g r rows items = Ok rows'.
Proof.
  destruct entry as [f v]. unfold encode_field, field_items. destruct (_ && _).
  { split; [intros [= <-]; by exists []|by intros (items & [= <-] & Hr)]. }
  destruct (bool_decide _).
  { rewrite insert_one. split; [by eauto|by intros (items & [= <-] & Hr)]. }
  destruct (contains HISTORY_FIELDS f).
  { destruct v as [| | | | | |runs]; simpl; try by split; [|intros (? & ? & ?)].
    rewrite (fold_items g r _ (history_items f)).
    - setoid_rewrite outcome_bind_ok. split; [intros (i & ? & ?); eauto 6|intros (? & (i & ? & [= <-]) & ?); eauto].
    - intros rows0 [run entries] rows1. unfold history_items. simpl. destruct entries; try (by split; [|intros (? & ? & ?)]). apply insert_all_ok. }
  destruct (contains NESTED_FIELDS f).
  { destruct v as [| | | | | |groups]; simpl; try by split; [|intros (? & ? & ?)].
    rewrite (fold_items g r _ (nested_items f)).
    - setoid_rewrite outcome_bind_ok. split; [intros (i & ? & ?); eauto 6|intros (? & (i & ? & [= <-]) & ?); eauto].
    - intros rows0 [group children] rows1. unfold nested_items. simpl. destruct children; try (by split; [|intros (? & ? & ?)]). apply insert_all_ok. }
  destruct (contains LIST_FIELDS f).
  { destruct v as [| | | | |entries|]; simpl; try by split; [|intros (? & ? & ?)].
    rewrite outcome_bind_ok. split.
    - intros (rows1 & (items & Hmap & Hins)%insert_all_ok & Hone%insert_one). exists (items ++ [(order_row f, None, JInt (zlen entries))]).
      split; [apply outcome_bind_ok; by eauto|]. apply insert_items_app. eauto.
    - intros (? & (items & Hmap & [= <-])%outcome_bind_ok & (rows1 & Hins & Hone)%insert_items_app). exists rows1.
      split; [apply insert_all_ok; eauto|by apply insert_one]. }
  destruct (is_map_field defaults f).
  { destruct v as [| | | | | |entries]; simpl; try by split; [|intros (? & ? & ?)]. apply insert_all_ok. }
  rewrite insert_one. split; [by eauto|by intros (items & [= <-] & Hr)].
Qed.

Lemma encode_ok state g r rows :
  encode state g r = Ok rows ↔
  ∃ defaults fields itemss, state_to_value state_default = Ok (JObject defaults) ∧ state_to_value state = Ok (JObject fields) ∧
    outcome_map (field_items state defaults) fields = Ok itemss ∧ insert_items g r ∅ (concat itemss) = Ok rows.
Proof.
  unfold encode. rewrite outcome_bind_ok. split.
  - intros (j & Hd & (defaults & Hj & (j' & Hv & (fields & Hj' & Hf)%outcome_bind_ok)%outcome_bind_ok)%outcome_bind_ok).
    destruct j; try done. destruct j'; try done. simplify_eq/=. apply (fold_items g r _ (field_items state defaults)) in Hf as (itemss & Hm & Hi).
    + eauto 8.
    + intros. apply encode_field_ok.
  - intros (defaults & fields & itemss & Hd & Hv & Hm & Hi). exists (JObject defaults). split; [done|]. simpl. rewrite Hv. simpl.
    apply (fold_items g r _ (field_items state defaults)); [intros; apply encode_field_ok|eauto].
Qed.
End Encoded.

(** ** Coordinates

    Where an entry sits in the document that [decode] builds. *)
Inductive Coord :=
| C_Scalar (f : string)
| C_Map (f k : string)
| C_Nested (f g c : string)
| C_Array (f g : string) (n : Z)
| C_Counter (f : string).

#[export] Instance Coord_eq_dec : EqDecision Coord.
Proof. solve_decision. Defined.

Inductive Shape := Flat | Keyed | Grouped.

Definition entries_of (j : option Json) : list (string * Json) :=
  match j with Some (JObject entries) => entries | _ => [] end.

Definition get (d : Decoding) (c : Coord) : option Json :=
  match c with
  | C_Scalar f => bt_get f (de_root d)
  | C_Map f k => bt_get k (entries_of (bt_get f (de_root d)))
  | C_Nested f g c => bt_get c (entries_of (bt_get g (entries_of (bt_get f (de_root d)))))
  | C_Array f g n => values ← de_arrays d !! (f, g); values !! n
  | C_Counter f => JInt <$> de_counters d !! f
  end.

Definition put (d : Decoding) (c : Coord) (v : Json) : Decoding :=
  match c with
  | C_Scalar f => set_root (str_insert f v (de_root d)) d
  | C_Map f k => set_root (str_insert f (JObject (str_insert k v (entries_of (bt_get f (de_root d))))) (de_root d)) d
  | C_Nested f g c =>
      let groups := entries_of (bt_get f (de_root d)) in
      set_root (str_insert f (JObject (str_insert g (JObject (str_insert c v (entries_of (bt_get g groups)))) groups)) (de_root d)) d
  | C_Array f g n =>
      mkDecoding (de_root d) (<[(f, g) := <[n := v]> (default ∅ (de_arrays d !! (f, g)))]> (de_arrays d)) (de_counters d)
  | C_Counter f => mkDecoding (de_root d) (de_arrays d) (<[f := match v with JInt n => n | _ => 0 end]> (de_counters d))
  end.

(** The field of the root that an entry belongs to. *)
Definition root_field (c : Coord) : option string :=
  match c with C_Scalar f | C_Map f _ | C_Nested f _ _ => Some f | _ => None end.

Lemma put_fields d c v f :
  is_Some (bt_get f (de_root (put d c v))) ↔ root_field c = Some f ∨ is_Some (bt_get f (de_root d)).
Proof.
  destruct c; simpl; rewrite ?bt_get_insert; try case_decide; subst; naive_solver.
Qed.

Section Shapes.
Context (shape : string → Shape).

Definition coord_ok (c : Coord) : Prop :=
  match c with
  | C_Scalar f => shape f = Flat
  | C_Map f _ => shape f = Keyed
  | C_Nested f _ _ => shape f = Grouped
  | _ => True
  end.

Record shaped (d : Decoding) : Prop := mkShaped {
  sh_root : keys_increasing (de_root d);
  sh_keyed : ∀ f j, shape f = Keyed → bt_get f (de_root d) = Some j → ∃ m, j = JObject m ∧ keys_increasing m;
  sh_grouped : ∀ f j, shape f = Grouped → bt_get f (de_root d) = Some j → ∃ m, j = JObject m ∧ keys_increasing m ∧
    ∀ g j', bt_get g m = Some j' → ∃ cs, j' = JObject cs ∧ keys_increasing cs ∧ cs ≠ [];
  sh_arrays : ∀ k values, de_arrays d !! k = Some values → values ≠ ∅;
}.

Lemma get_put d c v c' :
  coord_ok c → coord_ok c' → (∀ f, c = C_Counter f → ∃ n, v = JInt n) →
  get (put d c v) c' = if decide (c = c') then Some v else get d c'.
Proof.
  intros Hc Hc' Hv. destruct c as [f|f k|f g c|f g n|f], c' as [f'|f' k'|f' g' c'|f' g' n'|f'];
    cbn [get put de_root de_arrays de_counters set_root coord_ok] in *; rewrite ?bt_get_insert; try (rewrite decide_False by congruence; done).
  all: try (rewrite decide_False with (P := _ = _ :> Coord) by congruence; destruct (decide (f = f')) as [->|]; [congruence|done]).
  all: try (destruct (decide (f = f')) as [->|Hf]; [congruence|by rewrite decide_False by congruence]).
  - by repeat case_decide; simplify_eq.
  - destruct (decide (f = f')) as [->|Hf]; [|by rewrite decide_False by congruence]. simpl. rewrite bt_get_insert.
    by repeat case_decide; simplify_eq.
  - destruct (decide (f = f')) as [->|Hf]; [|by rewrite decide_False by congruence]. simpl. rewrite bt_get_insert.
    destruct (decide (g = g')) as [->|Hg]; [|by rewrite decide_False by congruence]. simpl. rewrite bt_get_insert.
    by repeat case_decide; simplify_eq.
  - destruct (decide ((f, g) = (f', g'))) as [[= -> ->]|Hk].
    + rewrite lookup_insert_eq. simpl. destruct (decide (n = n')) as [->|Hn].
      * rewrite lookup_insert_eq. by rewrite decide_True.
      * rewrite lookup_insert_ne by done. rewrite decide_False by congruence. by destruct (de_arrays d !! (f', g')).
    + rewrite lookup_insert_ne by done. by rewrite decide_False by congruence.
  - destruct (Hv f eq_refl) as [n ->]. destruct (decide (f = f')) as [->|Hf].
    + rewrite lookup_insert_eq. by rewrite decide_True.
    + rewrite lookup_insert_ne by done. by rewrite decide_False by congruence.
Qed.

Lemma str_insert_nonempty {V} k (v : V) m : str_insert k v m ≠ [].
Proof. unfold str_insert. destruct m as [|[k' v'] m]; simpl; [done|]. by destruct (String.compare k k'). Qed.

Lemma entries_increasing d f :
  shaped d → shape f ≠ Flat → keys_increasing (entries_of (bt_get f (de_root d))).
Proof.
  intros Hd Hf. destruct (bt_get f (de_root d)) as [j|] eqn:Hj; [|constructor]. destruct (shape f) eqn:Hs; [done| |].
  - by destruct (sh_keyed d Hd f j Hs Hj) as (m & -> & Hm).
  - by destruct (sh_grouped d Hd f j Hs Hj) as (m & -> & Hm & _).
Qed.

Lemma put_shaped d c v : shaped d → coord_ok c → shaped (put d c v).
Proof.
  intros Hd Hc. destruct c as [f|f k|f g c|f g n|f]; simpl in *.
  - destruct Hd. split; simpl; [by apply str_insert_increasing| | |done].
    + intros f' j Hf'. rewrite bt_get_insert. case_decide; [congruence|eauto].
    + intros f' j Hf'. rewrite bt_get_insert. case_decide; [congruence|eauto].
  - pose proof (entries_increasing d f Hd ltac:(congruence)). destruct Hd. split; simpl; [by apply str_insert_increasing| | |done].
    + intros f' j Hf'. rewrite bt_get_insert. case_decide; [|eauto]. intros [= <-]. eexists. split; [done|]. by apply str_insert_increasing.
    + intros f' j Hf'. rewrite bt_get_insert. case_decide; [congruence|eauto].
  - pose proof (entries_increasing d f Hd ltac:(congruence)) as Hm. destruct Hd as [Hr Hk Hg Ha].
    assert (∀ g' j', bt_get g' (entries_of (bt_get f (de_root d))) = Some j' → ∃ cs, j' = JObject cs ∧ keys_increasing cs ∧ cs ≠ []) as Hgs.
    { intros g' j' Hj'. destruct (bt_get f (de_root d)) as [j|] eqn:Hj; [|done].
      destruct (Hg f j Hc Hj) as (m & -> & _ & Hall). eauto. }
    split; simpl; [by apply str_insert_increasing| | |done].
    + intros f' j Hf'. rewrite bt_get_insert. case_decide; [congruence|eauto].
    + intros f' j Hf'. rewrite bt_get_insert. case_decide; [|eauto]. intros [= <-]. eexists. split; [done|].
      split; [by apply str_insert_increasing|]. intros g' j'. rewrite bt_get_insert. case_decide; [|eauto]. intros [= <-].
      eexists. split; [done|]. split; [apply str_insert_increasing|apply str_insert_nonempty].
      destruct (bt_get g _) as [jg|] eqn:Hjg; [|constructor]. by destruct (Hgs g jg Hjg) as (cs & -> & ? & _).
  - destruct Hd as [Hr Hk Hg Ha]. split; simpl; [done..|]. intros k values. destruct (decide ((f, g) = k)) as [<-|Hne].
    + rewrite lookup_insert_eq. intros [= <-]. apply insert_non_empty.
    + rewrite lookup_insert_ne by done. apply Ha.
  - by destruct Hd.
Qed.

End Shapes.

(** Several entries put in place, of different coordinates. *)
Definition puts (d : Decoding) (cvs : list (Coord * Json)) : Decoding := foldl (λ d cv, put d cv.1 cv.2) d cvs.

Lemma puts_spec shape d cvs :
  shaped shape d → Forall (λ cv, coord_ok shape cv.1 ∧ ∀ f, cv.1 ≠ C_Counter f) cvs → NoDup cvs.*1 →
  shaped shape (puts d cvs) ∧
  (∀ f, is_Some (bt_get f (de_root (puts d cvs))) ↔ is_Some (bt_get f (de_root d)) ∨ ∃ cv, cv ∈ cvs ∧ root_field cv.1 = Some f) ∧
  (∀ c v, (c, v) ∈ cvs → get (puts d cvs) c = Some v) ∧
  (∀ c, coord_ok shape c → c ∉ cvs.*1 → get (puts d cvs) c = get d c).
Proof.
  intros Hd Hcvs Hnd. revert d Hd. induction Hcvs as [|[c v] cvs [Hc Hcounter] _ IH]; intros d Hd; simpl.
  { split; [done|]. split; [|split; [by intros c v ?%elem_of_nil|done]]. intros f. split; [by left|]. by intros [?|(cv & ?%elem_of_nil & _)]. }
  simpl in *. apply NoDup_cons in Hnd as [Hnew Hnd]. destruct (IH Hnd (put d c v)) as (Hs & Hf & Hn & Ho); [by apply put_shaped|].
  split; [done|]. split; [|split].
  - intros f. rewrite Hf, put_fields. setoid_rewrite elem_of_cons. split.
    + intros [[Hroot|?]|(cv & Hin & Hroot)]; [right; exists (c, v); auto|by left|right; exists cv; auto].
    + intros [?|(cv & [->|Hin] & Hroot)]; [by left; right|by left; left|right; by exists cv].
  - intros c' v' [[= -> ->]|Hin]%elem_of_cons; [|by apply Hn]. rewrite Ho by done. rewrite (get_put shape) by (done || naive_solver). by rewrite decide_True.
  - intros c' Hc' [Hne Hnin]%not_elem_of_cons. rewrite Ho by done. rewrite (get_put shape) by (done || naive_solver). by rewrite decide_False.
Qed.

(** ** The kinds of fields *)
Inductive Kind := K_Policy | K_History | K_Nested | K_List | K_Map | K_Scalar.

Definition kind_of (defaults : list (string * Json)) (f : string) : Kind :=
  if bool_decide (f = "format_policy") then K_Policy
  else if contains HISTORY_FIELDS f then K_History
  else if contains NESTED_FIELDS f then K_Nested
  else if contains LIST_FIELDS f then K_List
  else if is_map_field defaults f then K_Map
  else K_Scalar.

Definition shape_of (defaults : list (string * Json)) (f : string) : Shape :=
  match kind_of defaults f with
  | K_History | K_Map => Keyed
  | K_Nested => Grouped
  | _ => Flat
  end.

Definition run_member (v : Json) : option string := j ← json_get "run" v; json_str j.

(** The name of an owner is one that the key can carry. *)
Definition owner_ok (f k : string) (v : Json) : bool :=
  if contains RUN_MAP_FIELDS f then slash_free k
  else if contains RUN_OWNED_FIELDS f then match run_member v with Some run => slash_free run | None => false end
  else true.

Definition list_entry_ok (f : string) (v : Json) : bool :=
  match list_identity f v with Ok (run, id) => slash_free run && utf8_valid id | _ => false end.

Definition nonempty_array (j : Json) : bool :=
  match j with JArray (e :: es) => zlen (e :: es) <? u64_max | _ => false end.

Definition group_ok (f : string) (j : Json) : bool :=
  match j with
  | JObject (c :: cs) =>
      forallb (λ c, utf8_valid c.1 &&
        (negb (bool_decide (f = "start_keys")) || match run_member c.2 with Some run => slash_free run | None => false end)) (c :: cs)
  | _ => false
  end.

(** A field with the default value of its collection. *)
Definition field_ok (defaults : list (string * Json)) (entry : string * Json) : bool :=
  let '(f, v) := entry in
  slash_free f && negb (bool_decide (f = "retired_runs")) && negb (contains ORDER_FIELDS f) &&
  (bt_contains f defaults || contains OMITTED_EMPTY_MAP_FIELDS f) &&
  match kind_of defaults f, v with
  | K_History, JObject runs =>
      match bt_get f defaults with Some (JObject []) => true | _ => false end &&
      forallb (λ e, slash_free e.1 && utf8_valid e.1 && negb (bool_decide (e.1 = "")) && nonempty_array e.2) runs
  | K_Nested, JObject groups =>
      match bt_get f defaults with Some (JObject []) => true | _ => false end &&
      forallb (λ e, utf8_valid e.1 && group_ok f e.2) groups
  | K_List, JArray entries =>
      match bt_get f defaults with Some (JArray []) => true | _ => false end &&
      (zlen entries <? u64_max) && forallb (list_entry_ok f) entries
  | K_Map, JObject entries =>
      match bt_get f defaults, entries with Some (JObject []), _ => true | None, _ :: _ => true | _, _ => false end &&
      forallb (λ e, utf8_valid e.1 && owner_ok f e.1 e.2) entries
  | K_Policy, _ => match bt_get f defaults with Some _ => true | None => false end
  | K_Scalar, _ => true
  | _, _ => false
  end.

(** The JSON object of a state beside that of the default state: every field is
    known and has its shape, no group or history is empty, the names of runs have
    no slash. *)
Definition document_ok (defaults fields : list (string * Json)) : bool :=
  json_canonical (JObject defaults) && json_canonical (JObject fields) &&
  forallb (λ e, bt_contains e.1 fields) defaults &&
  forallb (λ f, bt_contains f defaults) LIST_FIELDS &&
  forallb (field_ok defaults) fields.

Section Documents.
Context `{P : Platform} `{!PlatformLaws P} `{RS : RecordSerde} `{!RecordSerdeLaws RS} `{SS : StateSerde}.

(** A state with its document, which reads back. *)
Record documented (state : State) (defaults fields : list (string * Json)) : Prop := mkDocumented {
  doc_default : state_to_value state_default = Ok (JObject defaults);
  doc_value : state_to_value state = Ok (JObject fields);
  doc_read : state_from_value (JObject fields) = Ok state;
  doc_policy : format_policy state = format_policy_default → bt_get "format_policy" fields = bt_get "format_policy" defaults;
  doc_ok : document_ok defaults fields = true;
}.

(** The items of a field with the value [v], and their coordinates. *)
Inductive typed_at (state : State) (defaults : list (string * Json)) (f : string) : Json → Item → Coord → Prop :=
| ty_scalar v :
    kind_of defaults f = K_Scalar ∨ kind_of defaults f = K_Policy ∧ format_policy state ≠ format_policy_default →
    typed_at state defaults f v (scalar_row f, None, v) (C_Scalar f)
| ty_counter entries :
    kind_of defaults f = K_List →
    typed_at state defaults f (JArray entries) (order_row f, None, JInt (zlen entries)) (C_Counter (f +:+ "_order"))
| ty_list entries i v run id :
    kind_of defaults f = K_List → entries !! i = Some v → list_identity f v = Ok (run, id) →
    typed_at state defaults f (JArray entries) (mkRowKey (Some run) f "list" id None, Some (Z.of_nat i), v)
      (C_Array f "" (Z.of_nat i))
| ty_history runs run entries i v text :
    kind_of defaults f = K_History → bt_get run runs = Some (JArray entries) → entries !! i = Some v →
    text = dec20 (Z.of_nat i + 1) →
    typed_at state defaults f (JObject runs) (mkRowKey (Some run) f "sequence" text None, None, v)
      (C_Array f run (Z.of_nat i + 1))
| ty_nested groups g children c v run :
    kind_of defaults f = K_Nested → bt_get g groups = Some (JObject children) → bt_get c children = Some v →
    nested_row f g (c, v) = Ok (mkRowKey run f "nested" g (Some c), None, v) →
    typed_at state defaults f (JObject groups) (mkRowKey run f "nested" g (Some c), None, v) (C_Nested f g c)
| ty_map entries k v run :
    kind_of defaults f = K_Map → bt_get k entries = Some v → owner f (Some k) v state = Ok run →
    typed_at state defaults f (JObject entries) (mkRowKey run f "map" k None, None, v) (C_Map f k).

Definition typed state defaults (fields : list (string * Json)) (it : Item) (c : Coord) : Prop :=
  ∃ f v, bt_get f fields = Some v ∧ typed_at state defaults f v it c.

Lemma kind_list defaults f : kind_of defaults f = K_List → f = "inbox" ∨ f = "obligations".
Proof.
  unfold kind_of. repeat case_match; try done. intros _. match goal with H : contains LIST_FIELDS f = true |- _ => revert H end.
  unfold contains, LIST_FIELDS. rewrite bool_decide_eq_true. set_solver.
Qed.

Lemma typed_inj state defaults fields it it' c :
  typed state defaults fields it c → typed state defaults fields it' c → it = it'.
Proof.
  intros (f & v & Hf & H1) (f' & v' & Hf' & H2). destruct H1; inversion H2; subst; simplify_eq; try done.
  - match goal with H1 : kind_of _ f = K_List, H2 : kind_of _ f' = K_List |- _ => apply kind_list in H1, H2 end.
    assert (f = f') as <- by (destruct_or!; by subst). by simplify_eq.
  - congruence.
  - match goal with H : Z.of_nat ?i + 1 = Z.of_nat ?j + 1 |- _ => assert (i = j) as -> by lia end. by simplify_eq.
  - congruence.
  - congruence.
Qed.

Lemma outcome_map_elem {A B} (g : A → Outcome B) l ys y : outcome_map g l = Ok ys → y ∈ ys ↔ ∃ x, x ∈ l ∧ g x = Ok y.
Proof.
  intros Hm%outcome_map_ok. induction Hm as [|x y' l ys Hx _ IH].
  { split; [by intros ?%elem_of_nil|by intros (x & ?%elem_of_nil & _)]. }
  rewrite elem_of_cons, IH. setoid_rewrite elem_of_cons. split.
  - intros [->|(x' & ? & ?)]; eauto.
  - intros (x' & [->|Hin] & Hy); [left; congruence|eauto].
Qed.

Lemma elem_of_enumerate {A} (l : list A) i x : (i, x) ∈ enumerate l ↔ l !! i = Some x.
Proof.
  unfold enumerate. rewrite list_elem_of_lookup. setoid_rewrite list_lookup_imap. split.
  - intros (j & (y & Hy & [= <- <-])%fmap_Some). done.
  - intros Hx. exists i. by rewrite Hx.
Qed.

Lemma concat_map_elem {A B} (g : A → Outcome (list B)) l yss y :
  outcome_map g l = Ok yss → y ∈ concat yss ↔ ∃ x ys, x ∈ l ∧ g x = Ok ys ∧ y ∈ ys.
Proof.
  intros Hm. rewrite list_elem_of_In, in_concat. setoid_rewrite <- list_elem_of_In. setoid_rewrite (outcome_map_elem g l yss _ Hm). naive_solver.
Qed.

Lemma field_items_kind state defaults f v items :
  field_items state defaults (f, v) = Ok items →
  match kind_of defaults f with
  | K_Policy => items = if bool_decide (format_policy state = format_policy_default) then [] else [(scalar_row f, None, v)]
  | K_History => ∃ runs itemss, v = JObject runs ∧ outcome_map (history_items f) runs = Ok itemss ∧ items = concat itemss
  | K_Nested => ∃ groups itemss, v = JObject groups ∧ outcome_map (nested_items f) groups = Ok itemss ∧ items = concat itemss
  | K_List => ∃ entries items', v = JArray entries ∧ outcome_map (list_row f) (enumerate entries) = Ok items' ∧
      items = items' ++ [(order_row f, None, JInt (zlen entries))]
  | K_Map => ∃ entries, v = JObject entries ∧ outcome_map (map_row state f) entries = Ok items
  | K_Scalar => items = [(scalar_row f, None, v)]
  end.
Proof.
  unfold field_items, kind_of. destruct (bool_decide (f = _)); simpl.
  { destruct (bool_decide (format_policy state = _)); by intros [= <-]. }
  destruct (contains HISTORY_FIELDS f). { destruct v; try done. simpl. intros (i & Hm & [= <-])%outcome_bind_ok. eauto. }
  destruct (contains NESTED_FIELDS f). { destruct v; try done. simpl. intros (i & Hm & [= <-])%outcome_bind_ok. eauto. }
  destruct (contains LIST_FIELDS f). { destruct v; try done. intros (i & Hm & [= <-])%outcome_bind_ok. eauto. }
  destruct (is_map_field defaults f). { destruct v; try done. simpl. eauto. }
  by intros [= <-].
Qed.

Lemma canonical_object entries : json_canonical (JObject entries) = true → keys_increasing entries.
Proof. simpl. intros [H _]%andb_true_iff. by apply increasing_keys. Qed.

Lemma canonical_member entries k j : json_canonical (JObject entries) = true → bt_get k entries = Some j → json_canonical j = true.
Proof. simpl. intros [_ Hall]%andb_true_iff Hj%bt_get_elem. rewrite forallb_forall in Hall. apply (Hall (k, j)). by apply list_elem_of_In. Qed.

Lemma canonical_item items i j : json_canonical (JArray items) = true → items !! i = Some j → json_canonical j = true.
Proof. simpl. intros Hall Hj%list_elem_of_lookup_2. rewrite forallb_forall in Hall. apply Hall. by apply list_elem_of_In. Qed.

Lemma nested_row_key f g c v it : nested_row f g (c, v) = Ok it → ∃ run, it = (mkRowKey run f "nested" g (Some c), None, v).
Proof. unfold nested_row. intros (run & _ & [= <-])%outcome_bind_ok. eauto. Qed.

Lemma outcome_map_in {A B} (g : A → Outcome B) l ys x : outcome_map g l = Ok ys → x ∈ l → ∃ y, g x = Ok y ∧ y ∈ ys.
Proof.
  intros Hm%outcome_map_ok. induction Hm as [|x' y l ys Hx _ IH]; [by intros ?%elem_of_nil|].
  intros [->|Hin]%elem_of_cons; [exists y; split; [done|by left]|]. destruct (IH Hin) as (y' & ? & ?). exists y'. split; [done|by right].
Qed.

Lemma field_items_spec state defaults f v items it :
  json_canonical v = true → field_items state defaults (f, v) = Ok items →
  it ∈ items ↔ ∃ c, typed_at state defaults f v it c.
Proof.
  intros Hcan Hitems. pose proof (field_items_kind _ _ _ _ _ Hitems) as Hk. clear Hitems. split.
  - intros Hit. destruct (kind_of defaults f) eqn:Hkind.
    + subst items. case_bool_decide as Hp; [by apply elem_of_nil in Hit|]. apply list_elem_of_singleton in Hit as ->.
      exists (C_Scalar f). constructor. auto.
    + destruct Hk as (runs & itemss & -> & Hm & ->).
      apply (concat_map_elem _ _ _ _ Hm) in Hit as ([run entries] & ys & Hin & Hys & Hit).
      unfold history_items in Hys. destruct entries; try done.
      apply (outcome_map_elem _ _ _ _ Hys) in Hit as ([i v] & Hi%elem_of_enumerate & [= <-]).
      eexists. eapply ty_history; [done| |done|done]. by apply bt_get_is_elem; [apply canonical_object|].
    + destruct Hk as (groups & itemss & -> & Hm & ->).
      apply (concat_map_elem _ _ _ _ Hm) in Hit as ([g children] & ys & Hin & Hys & Hit).
      unfold nested_items in Hys. destruct children as [| | | | | |children]; try done.
      apply (outcome_map_elem _ _ _ _ Hys) in Hit as ([c v] & Hc & Hrow).
      apply bt_get_is_elem in Hin; [|by apply canonical_object]. destruct (nested_row_key _ _ _ _ _ Hrow) as [run ->].
      eexists. eapply ty_nested; [done|done| |done]. apply bt_get_is_elem; [|done]. by eapply canonical_object, canonical_member.
    + destruct Hk as (entries & items' & -> & Hm & ->). apply elem_of_app in Hit as [Hit|Hit%list_elem_of_singleton]; [|subst it].
      * apply (outcome_map_elem _ _ _ _ Hm) in Hit as ([i v] & Hi%elem_of_enumerate & Hrow). unfold list_row in Hrow.
        apply outcome_bind_ok in Hrow as ([run id] & Hid & [= <-]). eexists. by eapply ty_list.
      * eexists. by apply ty_counter.
    + destruct Hk as (entries & -> & Hm). apply (outcome_map_elem _ _ _ _ Hm) in Hit as ([k v] & Hin & Hrow).
      unfold map_row in Hrow. apply outcome_bind_ok in Hrow as (run & Hrun & [= <-]).
      eexists. eapply ty_map; [done| |done]. by apply bt_get_is_elem; [apply canonical_object|].
    + subst items. apply list_elem_of_singleton in Hit as ->. exists (C_Scalar f). constructor. auto.
  - intros (c & Hc). destruct Hc as [v Hflat|entries Hkind|entries i v run id Hkind Hi Hid|runs run entries i v text Hkind Hr Hi Htext
      |groups g children c v run Hkind Hg Hv Hrow|entries k v run Hkind Hv Hrun].
    + destruct Hflat as [Hkind|[Hkind Hp]]; rewrite Hkind in Hk; subst items; [by left|]. rewrite bool_decide_eq_false_2 by done. by left.
    + rewrite Hkind in Hk. destruct Hk as (entries' & items' & [= <-] & Hm & ->). apply elem_of_app. right. by left.
    + rewrite Hkind in Hk. destruct Hk as (entries' & items' & [= <-] & Hm & ->). apply elem_of_app. left.
      apply (outcome_map_elem _ _ _ _ Hm). exists (i, v). split; [by apply elem_of_enumerate|]. unfold list_row. simpl. by rewrite Hid.
    + rewrite Hkind in Hk. destruct Hk as (runs' & itemss & [= <-] & Hm & ->). apply (concat_map_elem _ _ _ _ Hm).
      apply bt_get_elem in Hr. destruct (outcome_map_in _ _ _ _ Hm Hr) as (ys & Hys & _).
      exists (run, JArray entries), ys. split_and!; [done..|]. apply (outcome_map_elem _ _ _ _ Hys). exists (i, v).
      split; [by apply elem_of_enumerate|by rewrite Htext].
    + rewrite Hkind in Hk. destruct Hk as (groups' & itemss & [= <-] & Hm & ->). apply (concat_map_elem _ _ _ _ Hm).
      apply bt_get_elem in Hg, Hv. destruct (outcome_map_in _ _ _ _ Hm Hg) as (ys & Hys & _).
      exists (g, JObject children), ys. split_and!; [done..|]. apply (outcome_map_elem _ _ _ _ Hys). by exists (c, v).
    + rewrite Hkind in Hk. destruct Hk as (entries' & [= <-] & Hm). apply (outcome_map_elem _ _ _ _ Hm).
      apply bt_get_elem in Hv. exists (k, v). split; [done|]. unfold map_row. by rewrite Hrun.
Qed.

Lemma items_typed state defaults fields itemss it :
  json_canonical (JObject fields) = true → outcome_map (field_items state defaults) fields = Ok itemss →
  it ∈ concat itemss ↔ ∃ c, typed state defaults fields it c.
Proof.
  intros Hcan Hm. rewrite (concat_map_elem _ _ _ _ Hm). pose proof (canonical_object _ Hcan) as Hinc. split.
  - intros ([f v] & items & Hin%bt_get_is_elem & Hitems & Hit); [|done].
    apply (field_items_spec _ _ _ _ _ it) in Hitems; [|by eapply canonical_member]. apply Hitems in Hit as [c Hc]. by exists c, f, v.
  - intros (c & f & v & Hf & Hc). pose proof (canonical_member _ _ _ Hcan Hf) as Hv. apply bt_get_elem in Hf.
    destruct (outcome_map_in _ _ _ _ Hm Hf) as (items & Hitems & _). exists (f, v), items. split_and!; [done..|].
    apply (field_items_spec _ _ _ _ _ it Hv Hitems). by exists c.
Qed.

(** ** The rows of a document are well formed *)
Lemma utf8_digits base width n : 0 < base ≤ 16 → utf8_valid (digits_of base width n) = true.
Proof.
  intros Hb. induction width as [|width IH]; [done|]. cbn [digits_of utf8_valid].
  pose proof (Z.mod_pos_bound (n / base ^ Z.of_nat width) base) as Hd. set (d := (_ / _) mod _) in *.
  rewrite (proj2 (Z.ltb_lt _ _)); [done|]. rewrite N_ascii_embedding; destruct (d <? 10); lia.
Qed.

Record document_facts (defaults fields : list (string * Json)) : Prop := mkDocumentFacts {
  df_defaults : json_canonical (JObject defaults) = true;
  df_fields : json_canonical (JObject fields) = true;
  df_known : ∀ f, is_Some (bt_get f defaults) → is_Some (bt_get f fields);
  df_lists : ∀ f, f ∈ LIST_FIELDS → is_Some (bt_get f defaults);
  df_field : ∀ f v, bt_get f fields = Some v → field_ok defaults (f, v) = true;
}.

Lemma document_ok_facts defaults fields : document_ok defaults fields = true → document_facts defaults fields.
Proof.
  unfold document_ok. rewrite !andb_true_iff. intros [[[[Hd Hf] Hin] Hl] Hall]. rewrite !forallb_forall in Hin, Hl, Hall. split; [done..| | |].
  - intros f [v Hv%bt_get_elem%list_elem_of_In]. specialize (Hin _ Hv). unfold bt_contains in Hin. by apply bool_decide_eq_true in Hin.
  - intros f Hf'%list_elem_of_In. specialize (Hl _ Hf'). unfold bt_contains in Hl. by apply bool_decide_eq_true in Hl.
  - intros f v Hv%bt_get_elem%list_elem_of_In. by apply Hall.
Qed.

Lemma forallb_entry {V} (p : string * V → bool) m k v : forallb p m = true → bt_get k m = Some v → p (k, v) = true.
Proof. rewrite forallb_forall. intros Hall Hv%bt_get_elem%list_elem_of_In. by apply Hall. Qed.

Lemma forallb_item {A} (p : A → bool) l i x : forallb p l = true → l !! i = Some x → p x = true.
Proof. rewrite forallb_forall. intros Hall Hx%list_elem_of_lookup_2%list_elem_of_In. by apply Hall. Qed.

Lemma field_ok_name defaults f v : field_ok defaults (f, v) = true →
  slash_free f = true ∧ f ≠ "retired_runs" ∧ contains ORDER_FIELDS f = false ∧
  bt_contains f defaults || contains OMITTED_EMPTY_MAP_FIELDS f = true.
Proof. unfold field_ok. rewrite !andb_true_iff, !negb_true_iff, bool_decide_eq_false. tauto. Qed.

Lemma owner_slash_free state f k v run : owner_ok f k v = true → owner f (Some k) v state = Ok (Some run) → slash_free run = true.
Proof.
  unfold owner_ok, owner. destruct (contains RUN_MAP_FIELDS f); [by intros ? [= <-]|]. destruct (contains RUN_OWNED_FIELDS f).
  { intros Hr (r & Hok%ok_or_ok & [= <-])%outcome_bind_ok. unfold run_member in Hr. by rewrite Hok in Hr. }
  destruct (contains RUN_ACTIVATION_FIELDS f); [|done]. simpl.
  intros _ (a & _ & (act & _ & [= <-])%outcome_bind_ok)%outcome_bind_ok. apply hex_slash_free.
Qed.

Lemma zlen_index {A} (l : list A) i x : l !! i = Some x → 0 ≤ Z.of_nat i < zlen l.
Proof. intros Hi%lookup_lt_Some. unfold zlen. lia. Qed.

(** What a row of a document is like, on its own. *)
Record row_ok (it : Item) (c : Coord) (defaults : list (string * Json)) : Prop := mkRowOk {
  ro_item : item_ok it;
  ro_primary : utf8_valid (rk_primary (item_key it)) = true;
  ro_nested : ∀ n, rk_nested (item_key it) = Some n → utf8_valid n = true;
  ro_coord : coord_ok (shape_of defaults) c;
}.

Lemma typed_row_ok state defaults fields it c :
  document_facts defaults fields → typed state defaults fields it c → row_ok it c defaults.
Proof.
  intros Hdoc (f & v & Hf & Hc). pose proof (df_field _ _ Hdoc _ _ Hf) as Hok. pose proof (canonical_member _ _ _ (df_fields _ _ Hdoc) Hf) as Hcan.
  destruct (field_ok_name _ _ _ Hok) as (Hslash & _). unfold field_ok in Hok. apply andb_true_iff in Hok as [_ Hok].
  destruct Hc as [v Hflat|entries Hkind|entries i v run id Hkind Hi Hid|runs run entries i v text Hkind Hr Hi Htext
      |groups g children c v run Hkind Hg Hv Hrow|entries k v run Hkind Hv Hrun]; try rewrite Hkind in Hok.
  - split; [|done..|].
    + split_and!; [done| |done]. unfold key_ok. simpl. by rewrite Hslash.
    + simpl. unfold shape_of. by destruct Hflat as [->|[-> _]].
  - split; [|done..]. split_and!; [done| |done]. unfold key_ok. simpl. by rewrite slash_free_app, Hslash.
  - to_prop. match goal with H : forallb (list_entry_ok f) _ = true |- _ => pose proof (forallb_item _ _ _ _ H Hi) as He end.
    unfold list_entry_ok in He. rewrite Hid in He. to_prop. pose proof (zlen_index _ _ _ Hi). split; [|done..].
    split_and!; [by eapply canonical_item| |]; simpl; [unfold key_ok; simpl; rewrite Hslash; by apply andb_true_iff|].
    intros o [= <-]. unfold u64_max in *. lia.
  - to_prop. match goal with H : forallb _ runs = true |- _ => pose proof (forallb_entry _ _ _ _ H Hr) as He end. simpl in He. to_prop.
    split; [|by subst text; apply utf8_digits|done..].
    split_and!; [|unfold key_ok; simpl; rewrite Hslash; by simpl|done].
    eapply canonical_item; [|done]. by eapply canonical_member.
  - to_prop. match goal with H : forallb _ groups = true |- _ => pose proof (forallb_entry _ _ _ _ H Hg) as He end. simpl in He. to_prop.
    assert (forallb (λ c, utf8_valid c.1 && (negb (bool_decide (f = "start_keys")) ||
      match run_member c.2 with Some run => slash_free run | None => false end)) children = true) as Hall.
    { unfold group_ok in *. by destruct children. }
    pose proof (forallb_entry _ _ _ _ Hall Hv) as Hcv. simpl in Hcv. to_prop.
    split; [|done|by intros n [= <-]|by simpl; unfold shape_of; rewrite Hkind].
    split_and!; [by eapply canonical_member; [eapply canonical_member|]| |done]. unfold key_ok. simpl. rewrite Hslash. simpl.
    unfold nested_row in Hrow. destruct run as [run|]; [|done]. destruct (bool_decide (f = "start_keys")); [|done].
    simpl in *. apply outcome_bind_ok in Hrow as (r & (r' & Hrun%ok_or_ok & [= <-])%outcome_bind_ok & [= <-]).
    unfold run_member in *. destruct_or!; [done|]. by rewrite Hrun in *.
  - to_prop. match goal with H : forallb _ entries = true |- _ => pose proof (forallb_entry _ _ _ _ H Hv) as He end. simpl in He. to_prop.
    split; [|done..|by simpl; unfold shape_of; rewrite Hkind].
    split_and!; [by eapply canonical_member| |done]. unfold key_ok. simpl. rewrite Hslash. simpl. destruct run as [run|]; [|done].
    by eapply owner_slash_free.
Qed.

(** ** One row read *)
Lemma decode_key_hex s : utf8_valid s = true → decode_key (hex_encode s) = Ok s.
Proof. intros Hs. unfold decode_key. rewrite hex_decode_encode. simpl. by rewrite Hs. Qed.

Lemma scope_run k : strip_prefix "run-" (scope_of k) = rk_run k.
Proof. unfold scope_of. by destruct (rk_run k). Qed.

Lemma scope_global k : bool_decide (scope_of k = "global") = bool_decide (rk_run k = None).
Proof. unfold scope_of. destruct (rk_run k) as [run|]; [|done]. by rewrite !bool_decide_eq_false_2. Qed.

(** A row that is neither a marker nor hidden is read by its tag. *)
Lemma decode_row_item g r retired summarized seen d it c defaults :
  row_ok it c defaults → 1 ≤ r ≤ u64_max → record_key g (item_key it) ∉ seen →
  visible_row retired summarized (record_key g (item_key it)) = true →
  bt_contains (rk_field (item_key it)) (de_root d) || contains OMITTED_EMPTY_MAP_FIELDS (rk_field (item_key it))
    || contains ORDER_FIELDS (rk_field (item_key it)) = true →
  decode_row g retired summarized (seen, d) (item_row g r it) =
    d' ← (if contains ORDER_FIELDS (rk_field (item_key it))
          then decode_counter d (scope_of (item_key it)) (rk_field (item_key it)) (rk_tag (item_key it)) (rk_primary (item_key it))
                 (nested_of (item_key it)) (item_record r it)
          else decode_tag d (scope_of (item_key it)) (rk_field (item_key it)) (rk_tag (item_key it)) (rk_primary (item_key it))
                 (nested_of (item_key it)) (item_record r it));
    Ok ({[record_key g (item_key it)]} ∪ seen, d').
Proof.
  intros [Hit Hprim _ _] Hr Hseen Hvis Hknown. destruct (item_written r it Hit ltac:(lia)) as [_ Hread]. pose proof Hit as (_ & Hkey & _).
  unfold decode_row, item_row. rewrite bool_decide_eq_false_2 by done. unfold visible_row in Hvis. apply andb_true_iff in Hvis as [Hret Hhid].
  apply negb_true_iff in Hret, Hhid. rewrite Hhid, !split_record_key in * by done. unfold piece in *. simpl in Hret |- *. rewrite Hret. simpl.
  rewrite bool_decide_eq_true_2 by done. simpl. rewrite <- !negb_orb, Hknown. simpl. rewrite Hread. simpl.
  rewrite (proj2 (Z.eqb_neq r 0)) by lia. simpl. rewrite decode_key_hex by done. simpl.
  by destruct (contains ORDER_FIELDS _).
Qed.

Lemma add_to_array_put d f g text n v :
  parse_uint u64_max text = Some n → get d (C_Array f g n) = None → add_to_array d f g text v = Ok (put d (C_Array f g n) v).
Proof.
  intros Hn Hget. unfold add_to_array. rewrite Hn. simpl in *. rewrite bool_decide_eq_false_2; [done|].
  destruct (de_arrays d !! (f, g)) as [values|]; simpl in *; [by rewrite Hget; intros [? ?]|]. rewrite lookup_empty. by intros [? ?].
Qed.

Definition fresh (d : Decoding) (c : Coord) : Prop :=
  match c with C_Scalar _ | C_Counter _ => True | _ => get d c = None end.

Lemma typed_known state defaults f v it c (root : list (string * Json)) :
  typed_at state defaults f v it c → field_ok defaults (f, v) = true → (is_Some (bt_get f defaults) → is_Some (bt_get f root)) →
  bt_contains (rk_field (item_key it)) root || contains OMITTED_EMPTY_MAP_FIELDS (rk_field (item_key it))
    || contains ORDER_FIELDS (rk_field (item_key it)) = true.
Proof.
  intros Hc Hfield Hroot. destruct (field_ok_name _ _ _ Hfield) as (_ & _ & _ & Hknown).
  assert (bt_contains f root || contains OMITTED_EMPTY_MAP_FIELDS f = true) as Hin.
  { apply orb_true_iff in Hknown as [Hk|Hk]; apply orb_true_iff; [left|by right]. unfold bt_contains in *.
    apply bool_decide_eq_true in Hk. apply bool_decide_eq_true. auto. }
  destruct Hc; simpl; try (by rewrite Hin). apply orb_true_iff. right.
  match goal with H : kind_of _ f = K_List |- _ => by apply kind_list in H as [->| ->] end.
Qed.

Lemma bt_contains_false k (m : list (string * Json)) : bt_get k m = None → bt_contains k m = false.
Proof. intros Hk. unfold bt_contains. rewrite Hk. apply bool_decide_eq_false_2. by intros [? ?]. Qed.

Lemma decode_map_row_put defaults d f k v :
  shaped (shape_of defaults) d → shape_of defaults f = Keyed → get d (C_Map f k) = None →
  decode_map_row d f k v = Ok (put d (C_Map f k) v).
Proof.
  intros Hd Hf Hget. unfold decode_map_row. simpl in *. destruct (bt_get f (de_root d)) as [j|] eqn:Hj; simpl in *; [|done].
  destruct (sh_keyed _ _ Hd f j Hf Hj) as (m & -> & _). simpl in *. by rewrite bt_contains_false.
Qed.

Lemma decode_nested_row_put defaults d run f g c v :
  shaped (shape_of defaults) d → shape_of defaults f = Grouped → is_Some (bt_get f (de_root d)) → utf8_valid c = true →
  (f = "start_keys" → run_member v = run) → get d (C_Nested f g c) = None →
  decode_nested_row d run f g (hex_encode c) v = Ok (put d (C_Nested f g c) v).
Proof.
  intros Hd Hf [j Hj] Hc Hrun Hget. unfold decode_nested_row. fold (run_member v).
  replace (bool_decide (f = "start_keys") && _) with false.
  2:{ symmetry. destruct (decide (f = "start_keys")) as [Heq|Hne]; [|by rewrite bool_decide_eq_false_2].
      rewrite (bool_decide_eq_true_2 _ (Hrun Heq)). apply andb_false_r. }
  rewrite decode_key_hex by done. simpl in *. rewrite Hj in *. destruct (sh_grouped _ _ Hd f j Hf Hj) as (m & -> & _ & Hgroups).
  simpl in *. destruct (bt_get g m) as [j'|] eqn:Hg; simpl in *; [|done].
  destruct (Hgroups g j' Hg) as (cs & -> & _ & _). simpl in *. by rewrite bt_contains_false.
Qed.

Lemma kind_shape defaults f :
  match kind_of defaults f with
  | K_History => contains HISTORY_FIELDS f = true
  | K_List => contains LIST_FIELDS f = true
  | _ => True
  end.
Proof.
  unfold kind_of. destruct (bool_decide _); [done|]. destruct (contains HISTORY_FIELDS f); [done|]. destruct (contains NESTED_FIELDS f); [done|].
  destruct (contains LIST_FIELDS f); [done|]. by destruct (is_map_field _ _).
Qed.

(** Reading the row of an entry puts the entry in its place. *)
Lemma decode_row_put g r retired summarized seen d it c state defaults fields :
  document_facts defaults fields → typed state defaults fields it c → shaped (shape_of defaults) d →
  (∀ f, is_Some (bt_get f defaults) → is_Some (bt_get f (de_root d))) →
  fresh d c → 1 ≤ r ≤ u64_max → record_key g (item_key it) ∉ seen →
  visible_row retired summarized (record_key g (item_key it)) = true →
  decode_row g retired summarized (seen, d) (item_row g r it) = Ok ({[record_key g (item_key it)]} ∪ seen, put d c it.2).
Proof.
  intros Hdoc Ht Hd Hroot Hfresh Hr Hseen Hvis. pose proof (typed_row_ok _ _ _ _ _ Hdoc Ht) as Hok.
  destruct Ht as (f & v & Hf & Hc). pose proof (df_field _ _ Hdoc _ _ Hf) as Hfield. destruct (field_ok_name _ _ _ Hfield) as (Hslash & Hnot & Horder & _).
  rewrite (decode_row_item _ _ _ _ _ _ _ c defaults) by (done || by eapply typed_known; eauto). clear Hvis Hseen.
  pose proof (ro_primary _ _ _ Hok) as Hprim. pose proof (ro_nested _ _ _ Hok) as Hnest. pose proof (kind_shape defaults f) as Hshape.
  unfold field_ok in Hfield.
  destruct Hc as [v Hflat|entries Hkind|entries i v run id Hkind Hi Hid|runs run entries i v text Hkind Hr' Hi Htext
      |groups g' children c v run Hkind Hg Hv Hrow|entries k v run Hkind Hv Hrun]; cbn [item_key rk_field fst snd];
    try rewrite Hkind in Hshape, Hfield.
  - cbn [scalar_row rk_field]. by rewrite Horder.
  - assert ((0 <=? zlen entries) && (zlen entries <=? u64_max) = true) as Hlen.
    { to_prop. apply andb_true_iff. unfold zlen, u64_max in *. lia. }
    destruct (kind_list _ _ Hkind) as [->| ->]; cbn -[u64_max]; unfold decode_counter; simpl; unfold json_u64; by rewrite Hlen.
  - rewrite Horder. unfold decode_tag. rewrite scope_run. cbn [rk_run rk_tag]. simpl. rewrite Hshape. simpl.
    unfold decode_list_row. simpl. rewrite Hid. simpl. rewrite !bool_decide_eq_true_2 by done. simpl.
    assert (zlen entries < u64_max) by (to_prop; done). pose proof (zlen_index _ _ _ Hi).
    by rewrite (add_to_array_put _ _ _ _ (Z.of_nat i)) by (done || apply parse_show; lia).
  - rewrite Horder. unfold decode_tag. rewrite scope_run. cbn [rk_run rk_tag]. simpl. rewrite Hshape. simpl.
    assert (zlen entries < u64_max) as Hlen.
    { to_prop. match goal with H : forallb _ runs = true |- _ => pose proof (forallb_entry _ _ _ _ H Hr') as He end. simpl in He. to_prop.
      destruct entries; [done|]. by to_prop. }
    pose proof (zlen_index _ _ _ Hi).
    by rewrite (add_to_array_put _ _ _ _ (Z.of_nat i + 1)) by (done || rewrite Htext; apply parse_dec20; lia).
  - rewrite Horder. unfold decode_tag. rewrite scope_run, scope_global. unfold nested_of. cbn [rk_run rk_tag rk_nested]. simpl.
    assert (is_Some (bt_get f (de_root d))) as Hin.
    { apply Hroot. to_prop. destruct (bt_get f defaults); [done|]. done. }
    unfold nested_row in Hrow. destruct (decide (f = "start_keys")) as [->|Hne].
    + rewrite bool_decide_eq_true_2 in Hrow by done. apply outcome_bind_ok in Hrow as (r1 & (r2 & Hm%ok_or_ok & [= <-])%outcome_bind_ok & [= <-]).
      simpl. rewrite (decode_nested_row_put defaults); [done|done|by unfold shape_of; rewrite Hkind|done|by apply Hnest|done|done].
    + rewrite bool_decide_eq_false_2 in Hrow by done. simpl in Hrow. injection Hrow as <-. simpl.
      rewrite (decode_nested_row_put defaults); [done|done|by unfold shape_of; rewrite Hkind|done|by apply Hnest|done|done].
  - rewrite Horder. unfold decode_tag. cbn [rk_tag rk_primary]. simpl.
    rewrite (decode_map_row_put defaults); [done|done|by unfold shape_of; rewrite Hkind|done].
Qed.

(** ** All rows read *)
Section Reading.
Context (state : State) (defaults fields : list (string * Json)) (Hdoc : document_facts defaults fields).
Notation typed := (typed state defaults fields).
Notation shaped := (shaped (shape_of defaults)).
Notation coord_ok := (coord_ok (shape_of defaults)).

(** [d'] is [d] with the entries of the items [its]. *)
Record reads (its : list Item) (d d' : Decoding) : Prop := mkReads {
  rd_shaped : shaped d';
  rd_fields : ∀ f, is_Some (bt_get f (de_root d')) ↔
    is_Some (bt_get f (de_root d)) ∨ ∃ it c, it ∈ its ∧ typed it c ∧ root_field c = Some f;
  rd_new : ∀ it c, it ∈ its → typed it c → get d' c = Some it.2;
  rd_old : ∀ c, coord_ok c → (∃ it, it ∈ its ∧ typed it c) ∨ (∀ it, it ∈ its → ¬ typed it c) ∧ get d' c = get d c;
}.

Lemma typed_coord_ok it c : typed it c → coord_ok c.
Proof. intros Ht. exact (ro_coord _ _ _ (typed_row_ok _ _ _ _ _ Hdoc Ht)). Qed.

Lemma typed_counter it f : typed it (C_Counter f) → ∃ n, it.2 = JInt n.
Proof. intros (f' & v & _ & Hc). inversion Hc; subst. simpl. eauto. Qed.

Lemma history_length f runs run entries :
  bt_get f fields = Some (JObject runs) → kind_of defaults f = K_History → bt_get run runs = Some (JArray entries) →
  zlen entries < u64_max ∧ entries ≠ [] ∧ run ≠ "".
Proof.
  intros Hf Hkind Hr. pose proof (df_field _ _ Hdoc _ _ Hf) as Hfield. unfold field_ok in Hfield. rewrite Hkind in Hfield. to_prop.
  match goal with H : forallb _ runs = true |- _ => pose proof (forallb_entry _ _ _ _ H Hr) as He end. simpl in He. to_prop.
  destruct entries; [done|]. by to_prop.
Qed.

(** No field has the name of an order counter. *)
Lemma no_counter_field f v : kind_of defaults f = K_List → bt_get (f +:+ "_order") fields ≠ Some v.
Proof.
  intros Hkind Hf. destruct (field_ok_name _ _ _ (df_field _ _ Hdoc _ _ Hf)) as (_ & _ & Horder & _).
  by apply kind_list in Hkind as [->| ->].
Qed.

Lemma typed_fun it c c' : typed it c → typed it c' → c = c'.
Proof.
  intros (f & v & Hf & Hc) (f' & v' & Hf' & Hc').
  destruct Hc as [v Hflat|entries Hkind|entries i v run id Hkind Hi Hid|runs run entries i v text Hkind Hr Hi Htext
      |groups g children c v run Hkind Hg Hv Hrow|entries k v run Hkind Hv Hrun];
    inversion Hc' as [|entries' Hkind'|? ? ? ? ? Hkind'|runs' ? entries' i' ? ? Hkind' Hr' Hi' Htext'|?|?]; subst; try done.
  - by destruct (no_counter_field _ _ Hkind' Hf).
  - by destruct (no_counter_field _ _ Hkind Hf').
  - rewrite Hf in Hf'. injection Hf' as <-. rewrite Hr in Hr'. injection Hr' as <-.
    destruct (history_length _ _ _ _ Hf Hkind Hr) as (Hlen & _). pose proof (zlen_index _ _ _ Hi). pose proof (zlen_index _ _ _ Hi').
    apply (f_equal (parse_uint u64_max)) in Htext'. rewrite !parse_dec20 in Htext' by lia. injection Htext' as Heq.
    f_equal. lia.
Qed.

#[local] Arguments decode_row : simpl never.
#[local] Arguments get : simpl never.
#[local] Arguments put : simpl never.

Lemma read_rows g r retired summarized L its seen d :
  1 ≤ r ≤ u64_max → NoDup L.*1 → (∀ k, k ∈ L.*1 → k ∉ seen) → NoDup its → (∀ it, it ∈ its → ∃ c, typed it c) →
  filter (λ row, visible_row retired summarized row.1 = true) L = item_row g r <$> its →
  (∀ row, row ∈ L → length (split_slash row.1) = 6%nat) → shaped d →
  (∀ f, is_Some (bt_get f defaults) → is_Some (bt_get f (de_root d))) →
  (∀ it c, it ∈ its → typed it c → fresh d c) →
  ∃ d', outcome_fold (decode_row g retired summarized) (seen, d) L = Ok (list_to_set L.*1 ∪ seen, d') ∧ reads its d d'.
Proof.
  intros Hr. revert its seen d. induction L as [|[key bytes] L IH]; intros its seen d HL Hseen Hits Htyped Hvis Hlen Hd Hroot Hfresh; simpl in *.
  { symmetry in Hvis. apply fmap_nil_inv in Hvis as ->. exists d. rewrite (left_id_L ∅ (∪)). split; [done|].
    split; [done| | |]; [|by intros it c ?%elem_of_nil|by intros c _; right; split; [intros it ?%elem_of_nil|]]. intros f. split; [by left|]. intros [?|(it & c & ?%elem_of_nil & _)]; done. }
  apply NoDup_cons in HL as [Hkey HL]. assert (key ∉ seen) as Hnew by (apply Hseen; by left).
  assert (∀ k, k ∈ L.*1 → k ∉ {[key]} ∪ seen) as Hseen'.
  { intros k Hk [->%elem_of_singleton|Hin]%elem_of_union; [done|]. by eapply Hseen; [right|]. }
  assert (list_to_set L.*1 ∪ ({[key]} ∪ seen) = {[key]} ∪ list_to_set L.*1 ∪ seen) as Hsets by set_solver.
  rewrite filter_cons in Hvis. case_decide as Hv.
  - destruct its as [|it its]; [done|]. simpl in Hvis. injection Hvis as -> -> Hvis. simpl in Hv, Hnew.
    apply NoDup_cons in Hits as [Hit Hits]. destruct (Htyped it) as [c Hc]; [by left|].
    pose proof (typed_coord_ok _ _ Hc) as Hcok.
    assert (∀ f, c = C_Counter f → ∃ n, it.2 = JInt n) as Hcounter by (intros f ->; by eapply typed_counter).
    change (record_key g (item_key it), item_bytes r it) with (item_row g r it).
    rewrite (decode_row_put g r retired summarized seen d it c state defaults fields) by (done || by apply (Hfresh it); [left|]). simpl.
    destruct (IH its ({[record_key g (item_key it)]} ∪ seen) (put d c it.2)) as (d' & Hfold & [Hs Hf Hn Ho]); try done.
    + intros it' Hin. apply Htyped. by right.
    + intros row Hrow. apply Hlen. by right.
    + by apply put_shaped.
    + intros f Hf. apply (proj2 (put_fields d c it.2 f)). right. auto.
    + intros it' c' Hin Hc'. pose proof (Hfresh it' c' (list_elem_of_further _ _ _ Hin) Hc') as Hfr.
      assert (c' ≠ c) by (intros ->; rewrite (typed_inj _ _ _ _ _ _ Hc Hc') in Hit; done).
      destruct c'; simpl fresh in *; try done.
      all: rewrite (get_put (shape_of defaults)); [by rewrite decide_False|done|by eapply typed_coord_ok|done].
    + exists d'. rewrite Hfold, Hsets. split; [done|]. split; [done| | |].
      * intros f. rewrite Hf, put_fields. split.
        -- intros [[Hroot'|?]|(it' & c' & Hin & Hc' & Hfield)]; [|by left|].
           ++ right. exists it, c. split_and!; [by left|done|done].
           ++ right. exists it', c'. split_and!; [by right|done|done].
        -- intros [?|(it' & c' & [->|Hin]%elem_of_cons & Hc' & Hfield)]; [by left; right| |].
           ++ rewrite (typed_fun _ _ _ Hc Hc'). left. by left.
           ++ right. by exists it', c'.
      * intros it' c' [->|Hin]%elem_of_cons Hc'; [|by eapply Hn].
        rewrite <- (typed_fun _ _ _ Hc Hc'). destruct (Ho c Hcok) as [(it'' & Hin & Hc'')|[_ ->]].
        -- by rewrite (typed_inj _ _ _ _ _ _ Hc Hc'') in Hit.
        -- rewrite (get_put (shape_of defaults)) by done. by rewrite decide_True.
      * intros c' Hcok'. destruct (decide (c = c')) as [<-|Hne]; [left; exists it; split; [by left|done]|].
        destruct (Ho c' Hcok') as [(it' & Hin & Hc')|[Hnone ->]]; [left; exists it'; split; [by right|done]|]. right. split.
        -- intros it' [->|Hin]%elem_of_cons Hc'; [by rewrite (typed_fun _ _ _ Hc Hc') in Hne|by eapply Hnone].
        -- rewrite (get_put (shape_of defaults)) by done. by rewrite decide_False.
  - assert (decode_row g retired summarized (seen, d) (key, bytes) = Ok ({[key]} ∪ seen, d)) as ->.
    { unfold decode_row. rewrite bool_decide_eq_false_2 by done. pose proof (Hlen (key, bytes) ltac:(by left)) as Hl. simpl in Hl. rewrite Hl. simpl.
      unfold visible_row in Hv. simpl in Hv. destruct (bool_decide (piece _ 2 = "retired_runs")); [done|].
      destruct (hidden_retired_row key retired summarized); [done|]. by destruct Hv. }
    simpl. destruct (IH its ({[key]} ∪ seen) d) as (d' & Hfold & Hreads); try done.
    { intros row Hrow. apply Hlen. by right. }
    exists d'. by rewrite Hfold, Hsets.
Qed.

(** *** The arrays in order *)
Fixpoint number (off : Z) (entries : list Json) : list (Z * Json) :=
  match entries with [] => [] | v :: entries => (off, v) :: number (off + 1) entries end.

Lemma elem_of_number off entries n v : (n, v) ∈ number off entries ↔ off ≤ n ∧ entries !! Z.to_nat (n - off) = Some v.
Proof.
  revert off. induction entries as [|w entries IH]; intros off; simpl.
  { rewrite lookup_nil. split; [by intros ?%elem_of_nil|naive_solver]. }
  rewrite elem_of_cons, IH. split.
  - intros [[= -> ->]|[Hn Hv]]; [by rewrite Z.sub_diag|]. split; [lia|].
    replace (Z.to_nat (n - off)) with (S (Z.to_nat (n - (off + 1)))) by lia. done.
  - intros [Hn Hv]. destruct (decide (n = off)) as [->|Hne]; [rewrite Z.sub_diag in Hv; injection Hv as ->; by left|]. right. split; [lia|].
    replace (Z.to_nat (n - off)) with (S (Z.to_nat (n - (off + 1)))) in Hv by lia. done.
Qed.

Lemma number_sorted off entries : StronglySorted (λ a b : Z * Json, a.1 < b.1) (number off entries).
Proof.
  revert off. induction entries as [|w entries IH]; intros off; simpl; constructor; [done|].
  apply Forall_forall. intros [n v] [Hn _]%elem_of_number. simpl. lia.
Qed.

Lemma sorted_values (values : gmap Z Json) off entries :
  (∀ n v, values !! n = Some v ↔ off ≤ n ∧ entries !! Z.to_nat (n - off) = Some v) →
  sort_by (λ a b : Z * Json, a.1 <=? b.1) (map_to_list values) = number off entries.
Proof.
  intros Hval. set (sorted := sort_by _ _). assert (∀ n v, (n, v) ∈ sorted ↔ (n, v) ∈ number off entries) as Hin.
  { intros n v. subst sorted. by rewrite sort_by_perm, elem_of_map_to_list, Hval, elem_of_number. }
  pose proof (number_sorted off entries) as Hnum.
  apply (StronglySorted_unique_strong (λ a b : Z * Json, a.1 ≤ b.1)).
  - intros [n1 v1] [n2 v2] H1 H2 Ha Hb. simpl in *. assert (n1 = n2) as <- by lia.
    apply Hin, elem_of_number in H1 as [_ H1]. apply elem_of_number in H2 as [_ H2]. congruence.
  - subst sorted. apply Sorted_StronglySorted; [intros ? ? ?; lia|].
    eapply Sorted_ind with (P := Sorted _); [constructor| |apply (sort_by_sorted (λ a b : Z * Json, a.1 <=? b.1)); intros x y; destruct (Z.leb_spec x.1 y.1), (Z.leb_spec y.1 x.1); auto; lia].
    intros a l Hl Hs Hr. constructor; [done|]. destruct Hr; constructor. by apply Z.leb_le.
  - clear Hin. induction Hnum as [|a l Hl IH Ha]; constructor; [done|]. eapply Forall_impl; [exact Ha|]. simpl. lia.
  - apply NoDup_Permutation.
    + subst sorted. rewrite sort_by_perm. apply NoDup_map_to_list.
    + clear Hin. induction Hnum as [|a l Hl IH Ha]; constructor; [|done]. intros Hin. rewrite Forall_forall in Ha. specialize (Ha a Hin). lia.
    + intros [n v]. apply Hin.
Qed.

Lemma order_history f counters entries k ordered :
  contains HISTORY_FIELDS f = true → k = zlen ordered →
  outcome_fold (order_value f counters) ordered (number (1 + k) entries) = Ok (ordered ++ entries).
Proof.
  intros Hf. revert k ordered. induction entries as [|v entries IH]; intros k ordered ->; simpl; [by rewrite app_nil_r|].
  rewrite Hf, Z.eqb_refl. simpl. rewrite <- Z.add_assoc, IH by (unfold zlen; rewrite length_app; simpl; lia). by rewrite <- app_assoc.
Qed.

Lemma order_list f counters entries k n ordered :
  contains HISTORY_FIELDS f = false → counters !! (f +:+ "_order") = Some n → k + zlen entries ≤ n →
  outcome_fold (order_value f counters) ordered (number k entries) = Ok (ordered ++ entries).
Proof.
  intros Hf Hn. revert k ordered. induction entries as [|v entries IH]; intros k ordered Hk; simpl; [by rewrite app_nil_r|].
  unfold zlen in Hk. simpl in Hk. rewrite Hf, Hn. simpl. rewrite (proj2 (Z.leb_gt n k)) by lia. simpl.
  rewrite IH by (unfold zlen; lia). by rewrite <- app_assoc.
Qed.
End Reading.
End Documents.
