(* ===== verification/RecordDecode.v ===== *)
(** * A state's rows, decoded

    The document that [decode] assembles from the rows of a state is the state's
    own, whatever the order of the rows and whatever rows of retired runs are
    still among them. *)
From stdpp Require Import base option gmap strings list sorting fin_sets.
From Stdlib Require Import ZArith Ascii Lia.
From S2P Require Import Prelude Value ValueFacts Ids IdsFacts Policy Catalog Ir Domain Eval Evolve History FormatUpgrade RecordStore RecordFacts.

Section Decode.
Context `{P : Platform} `{!PlatformLaws P} `{RS : RecordSerde} `{!RecordSerdeLaws RS} `{SS : StateSerde}.
Context (state : State) (defaults fields : list (string * Json)) (Hdoc : document_facts defaults fields).
Notation typed := (typed state defaults fields).
Notation shaped := (shaped (shape_of defaults)).
Notation coord_ok := (coord_ok (shape_of defaults)).
#[local] Arguments get : simpl never.
#[local] Arguments put : simpl never.

(** ** The document at the start *)
Definition blank : Decoding := mkDecoding defaults ∅ ∅.

Lemma default_field f : is_Some (bt_get f defaults) → ∃ v, bt_get f fields = Some v ∧ field_ok defaults (f, v) = true.
Proof. intros [v Hv]%(df_known _ _ Hdoc). exists v. split; [done|]. by apply (df_field _ _ Hdoc). Qed.

(** What the default state holds in a collection. *)
Lemma default_value f j : bt_get f defaults = Some j →
  match kind_of defaults f with
  | K_History | K_Nested | K_Map => j = JObject []
  | K_List => j = JArray []
  | _ => True
  end.
Proof.
  intros Hj. destruct (default_field f ltac:(eauto)) as (v & _ & Hok). unfold field_ok in Hok. apply andb_true_iff in Hok as [_ Hok].
  destruct (kind_of defaults f); try done.
  all: destruct v; try done; rewrite Hj in Hok; destruct j as [| | | | |[]|[]]; done.
Qed.

Lemma blank_shaped : shaped blank.
Proof.
  split; simpl; [by apply canonical_object, (df_defaults _ _ Hdoc)| | |by intros k values; rewrite lookup_empty].
  - intros f j Hf Hj. pose proof (default_value f j Hj) as Hv. unfold shape_of in Hf. exists [].
    destruct (kind_of defaults f); try done; subst j; (split; [done|constructor]).
  - intros f j Hf Hj. pose proof (default_value f j Hj) as Hv. unfold shape_of in Hf. exists [].
    destruct (kind_of defaults f); try done. subst j. split_and!; [done|constructor|done].
Qed.

Lemma blank_get c : coord_ok c → get blank c = match c with C_Scalar f => bt_get f defaults | _ => None end.
Proof.
  destruct c as [f|f k|f g c|f g n|f]; unfold get; simpl; [done| | |done|done].
  - intros Hf. destruct (bt_get f defaults) as [j|] eqn:Hj; [|done]. pose proof (default_value f j Hj) as Hv. unfold shape_of in Hf.
    by destruct (kind_of defaults f); try done; subst j.
  - intros Hf. destruct (bt_get f defaults) as [j|] eqn:Hj; [|done]. pose proof (default_value f j Hj) as Hv. unfold shape_of in Hf.
    by destruct (kind_of defaults f); try done; subst j.
Qed.

Lemma blank_fresh c : coord_ok c → fresh blank c.
Proof. intros Hc. unfold fresh. pose proof (blank_get c Hc). by destruct c. Qed.

(** ** After the rows *)
Context (items : list Item) (Hitems : ∀ it, it ∈ items ↔ ∃ c, typed it c) (d : Decoding)
  (Hd : reads state defaults fields items blank d).

Lemma get_typed it c : typed it c → get d c = Some it.2.
Proof. intros Ht. eapply (rd_new _ _ _ _ _ _ Hd); [|done]. apply Hitems. by exists c. Qed.

Lemma get_cases c : coord_ok c →
  (∃ it, typed it c ∧ get d c = Some it.2) ∨
  (∀ it, ¬ typed it c) ∧ get d c = match c with C_Scalar f => bt_get f defaults | _ => None end.
Proof.
  intros Hc. destruct (rd_old _ _ _ _ _ _ Hd c Hc) as [(it & Hin & Ht)|[Hnone ->]]; [left; exists it; split; [done|by apply get_typed]|].
  right. rewrite blank_get by done. split; [|done]. intros it Ht. apply (Hnone it); [apply Hitems; by exists c|done].
Qed.

(** The array of a field, by its group. *)
Definition array_of (f g : string) : list Json :=
  match bt_get f fields with
  | Some (JArray entries) => if bool_decide (g = "") then entries else []
  | Some (JObject runs) => match bt_get g runs with Some (JArray entries) => entries | _ => [] end
  | _ => []
  end.

Definition offset (f : string) : Z := if contains HISTORY_FIELDS f then 1 else 0.

Lemma list_entry f entries i v :
  kind_of defaults f = K_List → bt_get f fields = Some (JArray entries) → entries !! i = Some v →
  ∃ it, typed it (C_Array f "" (Z.of_nat i)) ∧ it.2 = v.
Proof.
  intros Hkind Hf Hi. pose proof (df_field _ _ Hdoc _ _ Hf) as Hok. unfold field_ok in Hok. rewrite Hkind in Hok. to_prop.
  match goal with H : forallb (list_entry_ok f) _ = true |- _ => pose proof (forallb_item _ _ _ _ H Hi) as He end.
  unfold list_entry_ok in He. destruct (list_identity f v) as [[run id]| |] eqn:Hid; try done.
  eexists. split; [exists f, (JArray entries); split; [done|by eapply ty_list]|done].
Qed.

Lemma history_entry f runs run entries i v :
  kind_of defaults f = K_History → bt_get f fields = Some (JObject runs) → bt_get run runs = Some (JArray entries) →
  entries !! i = Some v → ∃ it, typed it (C_Array f run (Z.of_nat i + 1)) ∧ it.2 = v.
Proof.
  intros Hkind Hf Hr Hi. eexists. split; [exists f, (JObject runs); split; [done|by eapply ty_history]|done].
Qed.

Lemma typed_array it f g n : typed it (C_Array f g n) →
  (kind_of defaults f = K_List ∧ g = "" ∨ kind_of defaults f = K_History ∧ g ≠ "") ∧
  offset f ≤ n ∧ array_of f g !! Z.to_nat (n - offset f) = Some it.2.
Proof.
  intros (f' & v & Hf & Hc). inversion Hc; subst.
  - split; [by left|]. unfold offset, array_of. rewrite Hf. pose proof (kind_shape defaults f) as Hk.
    assert (contains HISTORY_FIELDS f = false) as ->.
    { destruct (kind_list _ _ ltac:(eassumption)) as [->| ->]; done. }
    rewrite bool_decide_eq_true_2 by done. split; [lia|]. by rewrite Z.sub_0_r, Nat2Z.id.
  - match goal with H : kind_of _ _ = K_History, H2 : bt_get _ runs = Some _ |- _ =>
      destruct (history_length _ _ Hdoc _ _ _ _ Hf H H2) as (_ & _ & Hne); pose proof (kind_shape defaults f) as Hk; rewrite H in Hk; rename H into Hkind; rename H2 into Hr end.
    split; [by right|]. unfold offset, array_of. rewrite Hk, Hf, Hr. split; [lia|]. by replace (Z.to_nat (Z.of_nat i + 1 - 1)) with i by lia.
Qed.

Lemma array_entry f g i v :
  kind_of defaults f = K_List ∧ g = "" ∨ kind_of defaults f = K_History ∧ g ≠ "" →
  array_of f g !! i = Some v → ∃ it, typed it (C_Array f g (Z.of_nat i + offset f)) ∧ it.2 = v.
Proof.
  intros Hk Hi. pose proof (kind_shape defaults f) as Hshape. unfold array_of in Hi. destruct (bt_get f fields) as [j|] eqn:Hf; [|done].
  destruct j as [| | | | |entries|runs]; try done.
  - destruct Hk as [[Hkind ->]|[Hkind Hg]].
    + rewrite bool_decide_eq_true_2 in Hi by done. unfold offset.
      assert (contains HISTORY_FIELDS f = false) as -> by (by destruct (kind_list _ _ Hkind) as [->| ->]). rewrite Z.add_0_r. by eapply list_entry.
    + by rewrite bool_decide_eq_false_2 in Hi.
  - destruct (bt_get g runs) as [j|] eqn:Hr; [|done]. destruct j as [| | | | |entries|]; try done. destruct Hk as [[Hkind ->]|[Hkind Hg]].
    + pose proof (df_field _ _ Hdoc _ _ Hf) as Hok. unfold field_ok in Hok. rewrite Hkind in Hok. by to_prop.
    + rewrite Hkind in Hshape. unfold offset. rewrite Hshape. by eapply history_entry.
Qed.

(** The arrays after the rows hold the arrays of the fields. *)
Lemma arrays_spec f g values : de_arrays d !! (f, g) = Some values →
  (kind_of defaults f = K_List ∧ g = "" ∨ kind_of defaults f = K_History ∧ g ≠ "") ∧
  ∀ n v, values !! n = Some v ↔ offset f ≤ n ∧ array_of f g !! Z.to_nat (n - offset f) = Some v.
Proof.
  intros Hvalues. assert (∀ n, get d (C_Array f g n) = values !! n) as Hget by (intros n; unfold get; by rewrite Hvalues).
  assert (∀ n v, values !! n = Some v → (kind_of defaults f = K_List ∧ g = "" ∨ kind_of defaults f = K_History ∧ g ≠ "") ∧
    offset f ≤ n ∧ array_of f g !! Z.to_nat (n - offset f) = Some v) as Hfrom.
  { intros n v Hn. destruct (get_cases (C_Array f g n) I) as [(it & Ht & Hit)|[_ Hit]]; rewrite Hget, Hn in Hit; [|done].
    injection Hit as ->. by apply typed_array in Ht. }
  assert (kind_of defaults f = K_List ∧ g = "" ∨ kind_of defaults f = K_History ∧ g ≠ "") as Hk.
  { destruct (map_choose values) as (n & v & Hn); [by apply (sh_arrays _ _ (rd_shaped _ _ _ _ _ _ Hd) _ _ Hvalues)|].
    by destruct (Hfrom n v Hn). }
  split; [done|]. intros n v. split; [by intros Hn; apply Hfrom|]. intros [Hn Hv].
  destruct (array_entry f g _ v Hk Hv) as (it & Ht & <-). rewrite Z2Nat.id in Ht by lia. replace (n - offset f + offset f) with n in Ht by lia.
  rewrite <- Hget. by apply get_typed.
Qed.

Lemma arrays_nonempty f g i v :
  kind_of defaults f = K_List ∧ g = "" ∨ kind_of defaults f = K_History ∧ g ≠ "" →
  array_of f g !! i = Some v → is_Some (de_arrays d !! (f, g)).
Proof.
  intros Hk Hi. destruct (array_entry f g i v Hk Hi) as (it & Ht & _). apply get_typed in Ht. unfold get in Ht.
  destruct (de_arrays d !! (f, g)); [by eexists|done].
Qed.

Lemma counter_spec f entries : kind_of defaults f = K_List → bt_get f fields = Some (JArray entries) →
  de_counters d !! (f +:+ "_order") = Some (zlen entries).
Proof.
  intros Hkind Hf. assert (typed (order_row f, None, JInt (zlen entries)) (C_Counter (f +:+ "_order"))) as Ht.
  { exists f, (JArray entries). split; [done|]. by apply ty_counter. }
  apply get_typed in Ht. unfold get in Ht. simpl in Ht. apply fmap_Some in Ht as (n & Hn & [= ->]). done.
Qed.

Lemma order_values_spec f g values :
  de_arrays d !! (f, g) = Some values → order_values f (de_counters d) values = Ok (array_of f g).
Proof.
  intros Hvalues. destruct (arrays_spec f g values Hvalues) as [Hk Hval]. unfold order_values.
  rewrite (sorted_values values (offset f) (array_of f g)) by done. unfold offset. pose proof (kind_shape defaults f) as Hshape.
  destruct Hk as [[Hkind ->]|[Hkind Hg]]; rewrite Hkind in Hshape.
  - assert (contains HISTORY_FIELDS f = false) as Hh by (by destruct (kind_list _ _ Hkind) as [->| ->]). rewrite Hh.
    assert (∃ v, bt_get f fields = Some v ∧ field_ok defaults (f, v) = true) as (v & Hf & Hok).
    { apply default_field, (df_lists _ _ Hdoc). by apply bool_decide_eq_true in Hshape. }
    unfold field_ok in Hok. rewrite Hkind in Hok. destruct v as [| | | | |entries|]; try by to_prop.
    unfold array_of. rewrite Hf, bool_decide_eq_true_2 by done.
    apply (order_list f _ entries 0 (zlen entries) []); [done|by apply counter_spec|lia].
  - rewrite Hshape. by apply (order_history f _ (array_of f g) 0 []).
Qed.

(** ** The arrays put in place *)
Definition place_coord (f g : string) : Coord := if bool_decide (g = "") then C_Scalar f else C_Map f g.

Lemma place_coord_inj f g f' g' : place_coord f g = place_coord f' g' → (f, g) = (f', g').
Proof. unfold place_coord. repeat case_bool_decide; intros [= -> ->] || intros [= ->]; by subst. Qed.

Lemma place_coord_ok f g values : de_arrays d !! (f, g) = Some values → coord_ok (place_coord f g).
Proof.
  intros [Hk _]%arrays_spec. unfold place_coord. destruct Hk as [[Hkind ->]|[Hkind Hg]].
  - rewrite bool_decide_eq_true_2 by done. simpl. unfold shape_of. by rewrite Hkind.
  - rewrite bool_decide_eq_false_2 by done. simpl. unfold shape_of. by rewrite Hkind.
Qed.

Definition placed (x : string * string * gmap Z Json) : Coord * Json :=
  (place_coord x.1.1 x.1.2, JArray (array_of x.1.1 x.1.2)).

Lemma place_array_put d0 f g values :
  de_arrays d !! (f, g) = Some values → shaped d0 → (∀ f, is_Some (bt_get f defaults) → is_Some (bt_get f (de_root d0))) →
  place_array (de_counters d) (de_root d0) (f, g, values) = Ok (de_root (put d0 (place_coord f g) (JArray (array_of f g)))).
Proof.
  intros Hvalues Hd0 Hroot. unfold place_array. rewrite (order_values_spec f g values Hvalues). simpl. unfold place_coord.
  destruct (arrays_spec f g values Hvalues) as [Hk _]. destruct Hk as [[Hkind ->]|[Hkind Hg]].
  - by rewrite !bool_decide_eq_true_2.
  - rewrite !bool_decide_eq_false_2 by done. unfold put. simpl.
    assert (shape_of defaults f = Keyed) as Hshape by (unfold shape_of; by rewrite Hkind).
    destruct (map_choose values) as (n & v & Hn); [by apply (sh_arrays _ _ (rd_shaped _ _ _ _ _ _ Hd) _ _ Hvalues)|].
    assert (is_Some (bt_get f defaults)) as [j Hj].
    { destruct (arrays_spec f g values Hvalues) as [_ Hval]. apply Hval in Hn as [_ Hn]. unfold array_of in Hn.
      destruct (bt_get f fields) as [j|] eqn:Hf; [|done]. pose proof (df_field _ _ Hdoc _ _ Hf) as Hok. unfold field_ok in Hok. rewrite Hkind in Hok.
      destruct j; try by to_prop. to_prop. by destruct (bt_get f defaults). }
    destruct (Hroot f ltac:(eauto)) as [j' Hj']. destruct (sh_keyed _ _ Hd0 f j' Hshape Hj') as (m & -> & _). by rewrite Hj'.
Qed.

Lemma place_all d0 (Ls : list (string * string * gmap Z Json)) :
  (∀ x, x ∈ Ls → de_arrays d !! x.1 = Some x.2) → shaped d0 →
  (∀ f, is_Some (bt_get f defaults) → is_Some (bt_get f (de_root d0))) →
  outcome_fold (place_array (de_counters d)) (de_root d0) Ls = Ok (de_root (puts d0 (placed <$> Ls))).
Proof.
  revert d0. induction Ls as [|[[f g] values] Ls IH]; intros d0 HLs Hd0 Hroot; [done|]. cbn [outcome_fold].
  pose proof (HLs (f, g, values) ltac:(by left)) as Hvalues. simpl in Hvalues. rewrite (place_array_put d0 f g values) by done.
  change (Ok (de_root (put d0 (place_coord f g) (JArray (array_of f g)))) ≫= λ root, outcome_fold (place_array (de_counters d)) root Ls)
    with (outcome_fold (place_array (de_counters d)) (de_root (put d0 (place_coord f g) (JArray (array_of f g)))) Ls).
  rewrite IH; [done| | |].
  - intros x Hx. apply HLs. by right.
  - apply put_shaped; [done|by eapply place_coord_ok].
  - intros f' Hf'. apply put_fields. right. auto.
Qed.

(** The arrays in the order in which they are put in place. *)
Definition arrays_in_order : list (string * string * gmap Z Json) :=
  sort_by (λ a b, pair_leb a.1 b.1) (map_to_list (de_arrays d)).
Definition final : Decoding := puts d (placed <$> arrays_in_order).

Lemma in_order x : x ∈ arrays_in_order ↔ de_arrays d !! x.1 = Some x.2.
Proof. unfold arrays_in_order. rewrite sort_by_perm. destruct x as [k values]. apply elem_of_map_to_list. Qed.

Lemma final_fold : outcome_fold (place_array (de_counters d)) (de_root d) arrays_in_order = Ok (de_root final).
Proof.
  apply place_all; [by intros x Hx%in_order|apply (rd_shaped _ _ _ _ _ _ Hd)|].
  intros f Hf. apply (rd_fields _ _ _ _ _ _ Hd). left. done.
Qed.

Lemma final_spec :
  shaped final ∧
  (∀ f, is_Some (bt_get f (de_root final)) ↔ is_Some (bt_get f (de_root d)) ∨ ∃ g, is_Some (de_arrays d !! (f, g))) ∧
  (∀ f g values, de_arrays d !! (f, g) = Some values → get final (place_coord f g) = Some (JArray (array_of f g))) ∧
  (∀ c, coord_ok c → (∀ f g, is_Some (de_arrays d !! (f, g)) → place_coord f g ≠ c) → get final c = get d c).
Proof.
  destruct (puts_spec (shape_of defaults) d (placed <$> arrays_in_order)) as (Hs & Hf & Hn & Ho).
  - apply (rd_shaped _ _ _ _ _ _ Hd).
  - apply Forall_fmap, Forall_forall. intros [[f g] values] Hx%in_order. simpl in *. split; [by eapply place_coord_ok|].
    intros f'. unfold place_coord. by case_bool_decide.
  - rewrite <- list_fmap_compose. apply (NoDup_fmap_2_strong (λ x, place_coord x.1.1 x.1.2)).
    + intros [[f g] v] [[f' g'] v'] Hx%in_order Hx'%in_order. simpl in *. intros [= -> ->]%place_coord_inj. congruence.
    + unfold arrays_in_order. rewrite sort_by_perm. apply NoDup_map_to_list.
  - split; [done|]. split; [|split].
    + intros f. unfold final. rewrite Hf. setoid_rewrite list_elem_of_fmap. split.
      * intros [?|(cv & (x & -> & Hx%in_order) & Hroot)]; [by left|right]. destruct x as [[f' g] values]. simpl in *. exists g.
        unfold place_coord in Hroot. case_bool_decide; simpl in Hroot; injection Hroot as <-; by exists values.
      * intros [?|(g & values & Hg)]; [by left|right]. exists (placed (f, g, values)). split; [exists (f, g, values); split; [done|by apply in_order]|].
        simpl. unfold place_coord. by case_bool_decide.
    + intros f g values Hg. apply Hn. apply list_elem_of_fmap. exists (f, g, values). split; [done|by apply in_order].
    + intros c Hc Hne. apply Ho; [done|]. rewrite <- list_fmap_compose. intros ([[f g] values] & -> & Hx%in_order)%list_elem_of_fmap.
      simpl in *. by apply (Hne f g); [eexists|].
Qed.

(** ** The document is the state's *)
Context (Hencoded : ∀ f v, bt_get f fields = Some v → ∃ items, field_items state defaults (f, v) = Ok items)
  (Hpolicy : format_policy state = format_policy_default → bt_get "format_policy" fields = bt_get "format_policy" defaults).

Lemma map_entry f entries k v :
  kind_of defaults f = K_Map → bt_get f fields = Some (JObject entries) → bt_get k entries = Some v →
  ∃ it, typed it (C_Map f k) ∧ it.2 = v.
Proof.
  intros Hkind Hf Hv. destruct (Hencoded _ _ Hf) as [its Hits]. apply field_items_kind in Hits. rewrite Hkind in Hits.
  destruct Hits as (entries' & [= <-] & Hm). pose proof (bt_get_elem _ _ _ Hv) as Hin.
  destruct (outcome_map_in _ _ _ _ Hm Hin) as (it & (run & Hrun & [= <-])%outcome_bind_ok & _).
  eexists. split; [exists f, (JObject entries); split; [done|by eapply ty_map]|done].
Qed.

Lemma nested_entry f groups g children c v :
  kind_of defaults f = K_Nested → bt_get f fields = Some (JObject groups) → bt_get g groups = Some (JObject children) →
  bt_get c children = Some v → ∃ it, typed it (C_Nested f g c) ∧ it.2 = v.
Proof.
  intros Hkind Hf Hg Hv. destruct (Hencoded _ _ Hf) as [its Hits]. apply field_items_kind in Hits. rewrite Hkind in Hits.
  destruct Hits as (groups' & itemss & [= <-] & Hm & _). destruct (outcome_map_in _ _ _ _ Hm (bt_get_elem _ _ _ Hg)) as (ys & Hys & _).
  unfold nested_items in Hys. simpl in Hys. destruct (outcome_map_in _ _ _ _ Hys (bt_get_elem _ _ _ Hv)) as (it & Hrow & _).
  destruct (nested_row_key _ _ _ _ _ Hrow) as [run ->].
  eexists. split; [exists f, (JObject groups); split; [done|by eapply ty_nested]|done].
Qed.

(** A field whose entries are not arrays is not touched by placing them. *)
Lemma final_get c : coord_ok c →
  match c with
  | C_Scalar f => kind_of defaults f ≠ K_List
  | C_Map f _ => kind_of defaults f ≠ K_History
  | _ => True
  end → get final c = get d c.
Proof.
  intros Hc Hk. destruct final_spec as (_ & _ & _ & Ho). apply Ho; [done|]. intros f g [values [Hkind _]%arrays_spec] <-.
  unfold place_coord in Hk. destruct Hkind as [[Hkind ->]|[Hkind Hg]].
  - rewrite bool_decide_eq_true_2 in Hk by done. done.
  - rewrite bool_decide_eq_false_2 in Hk by done. done.
Qed.

Lemma typed_field it c f : typed it c → root_field c = Some f → is_Some (bt_get f fields).
Proof. intros (f' & v & Hf & Hc) Hroot. destruct Hc; simpl in Hroot; simplify_eq; eauto. Qed.

Lemma omitted_kind f : contains OMITTED_EMPTY_MAP_FIELDS f = true → kind_of defaults f = K_Map.
Proof.
  intros Hf. pose proof Hf as Hf'. unfold contains, OMITTED_EMPTY_MAP_FIELDS in Hf'. apply bool_decide_eq_true in Hf'.
  unfold kind_of, is_map_field. rewrite Hf, orb_true_r.
  repeat (apply elem_of_cons in Hf' as [->|Hf']; [done|]). by apply elem_of_nil in Hf'.
Qed.

Lemma final_fields f : is_Some (bt_get f (de_root final)) ↔ is_Some (bt_get f fields).
Proof.
  destruct final_spec as (_ & Hf & _). rewrite Hf, (rd_fields _ _ _ _ _ _ Hd). simpl. split.
  - intros [[Hdef|(it & c & _ & Ht & Hroot)]|(g & values & Hvalues)].
    + by apply (df_known _ _ Hdoc).
    + by eapply typed_field.
    + destruct (map_choose values) as (n & v & Hn); [by apply (sh_arrays _ _ (rd_shaped _ _ _ _ _ _ Hd) _ _ Hvalues)|].
      apply arrays_spec in Hvalues as [_ Hval]. apply Hval in Hn as [_ Hn]. unfold array_of in Hn. by destruct (bt_get f fields).
  - intros [v Hv]. left. pose proof (df_field _ _ Hdoc _ _ Hv) as Hok. destruct (field_ok_name _ _ _ Hok) as (_ & _ & _ & Hknown).
    unfold bt_contains in Hknown. destruct (bt_get f defaults) as [j|] eqn:Hj; [by left|].
    rewrite bool_decide_eq_false_2 in Hknown by (by intros [? ?]). simpl in Hknown. right.
    pose proof (omitted_kind f Hknown) as Hkind. unfold field_ok in Hok. apply andb_true_iff in Hok as [_ Hok]. rewrite Hkind, Hj in Hok.
    destruct v as [| | | | | |[|[k w] entries]]; try done.
    destruct (map_entry f ((k, w) :: entries) k w Hkind Hv) as (it & Ht & _); [simpl; by rewrite decide_True|].
    exists it, (C_Map f k). split; [apply Hitems; by exists (C_Map f k)|done].
Qed.

Lemma entries_ext f g j (m : list (string * Json)) :
  shaped d → kind_of defaults f = K_Map ∨ kind_of defaults f = K_History → bt_get f (de_root g) = Some j → shaped g →
  keys_increasing m → (∀ k, get g (C_Map f k) = bt_get k m) → j = JObject m.
Proof.
  intros _ Hkind Hj Hg Hm Hget. assert (shape_of defaults f = Keyed) as Hs by (unfold shape_of; by destruct Hkind as [->| ->]).
  destruct (sh_keyed _ _ Hg f j Hs Hj) as (m' & -> & Hm'). f_equal. apply bt_ext; [done..|].
  intros k. rewrite <- Hget. unfold get. by rewrite Hj.
Qed.

(** What [d] has at a coordinate, against the document. *)
Lemma get_exact c w : coord_ok c → (∃ it, typed it c ∧ it.2 = w) → get d c = Some w.
Proof. intros _ (it & Ht & <-). by apply get_typed. Qed.

Lemma get_none c : coord_ok c → match c with C_Scalar _ => False | _ => True end → (∀ it, ¬ typed it c) → get d c = None.
Proof.
  intros Hc Hs Hnone. destruct (get_cases c Hc) as [(it & Ht & _)|[_ ->]]; [by destruct (Hnone it)|]. by destruct c.
Qed.

Lemma final_flat f v :
  kind_of defaults f = K_Scalar ∨ kind_of defaults f = K_Policy → bt_get f fields = Some v → bt_get f (de_root final) = Some v.
Proof.
  intros Hkind Hf. assert (coord_ok (C_Scalar f)) as Hc by (simpl; unfold shape_of; by destruct Hkind as [->| ->]).
  change (get final (C_Scalar f) = Some v). rewrite final_get by (done || by destruct Hkind as [->| ->]).
  destruct Hkind as [Hk|Hk]; [|destruct (decide (format_policy state = format_policy_default)) as [Hp|Hp]].
  - apply get_exact; [done|]. eexists. split; [exists f, v; split; [done|]; constructor; by left|done].
  - assert (f = "format_policy") as ->.
    { unfold kind_of in Hk. case_bool_decide; [done|]. by repeat case_match. }
    destruct (get_cases _ Hc) as [(it & (f' & v' & Hf' & Ht) & _)|[_ ->]]; [|by rewrite <- Hpolicy].
    inversion Ht; subst. naive_solver congruence.
  - apply get_exact; [done|]. eexists. split; [exists f, v; split; [done|]; constructor; by right|done].
Qed.

Lemma final_list f entries :
  kind_of defaults f = K_List → bt_get f fields = Some (JArray entries) → bt_get f (de_root final) = Some (JArray entries).
Proof.
  intros Hkind Hf. assert (coord_ok (C_Scalar f)) as Hc by (simpl; unfold shape_of; by rewrite Hkind).
  change (get final (C_Scalar f) = Some (JArray entries)). destruct final_spec as (_ & _ & Hn & Ho).
  assert (array_of f "" = entries) as Harr by (unfold array_of; by rewrite Hf, bool_decide_eq_true_2).
  destruct (de_arrays d !! (f, "")) as [values|] eqn:Hvalues.
  - specialize (Hn f "" values Hvalues). unfold place_coord in Hn. rewrite bool_decide_eq_true_2 in Hn by done. by rewrite Hn, Harr.
  - rewrite Ho; [|done|].
    + destruct (get_cases _ Hc) as [(it & (f' & v' & Hf' & Ht) & _)|[_ ->]].
      { inversion Ht; subst. naive_solver congruence. }
      pose proof Hkind as Hlist. apply kind_list in Hlist. assert (is_Some (bt_get f defaults)) as [j Hj].
      { apply (df_lists _ _ Hdoc). unfold LIST_FIELDS. set_solver. }
      pose proof (default_value f j Hj) as Hv. rewrite Hkind in Hv. rewrite Hj, Hv. destruct entries as [|e entries]; [done|].
      exfalso. destruct (arrays_nonempty f "" 0 e) as [values Hs]; [by left|by rewrite Harr|congruence].
    + intros f' g [values Hs] Heq. unfold place_coord in Heq. case_bool_decide; [|done]. injection Heq as ->. congruence.
Qed.

Lemma final_history f runs :
  kind_of defaults f = K_History → bt_get f fields = Some (JObject runs) → bt_get f (de_root final) = Some (JObject runs).
Proof.
  intros Hkind Hf. destruct (proj2 (final_fields f) ltac:(eauto)) as [j Hj]. rewrite Hj. f_equal.
  destruct final_spec as (Hs & _ & Hn & Ho). assert (shape_of defaults f = Keyed) as Hshape by (unfold shape_of; by rewrite Hkind).
  eapply (entries_ext f final); [apply (rd_shaped _ _ _ _ _ _ Hd)|by right|done|done| |].
  { by eapply canonical_object, canonical_member; [apply (df_fields _ _ Hdoc)|]. }
  intros k. destruct (bt_get k runs) as [w|] eqn:Hk.
  - pose proof (df_field _ _ Hdoc _ _ Hf) as Hok. unfold field_ok in Hok. rewrite Hkind in Hok. to_prop.
    match goal with H : forallb _ runs = true |- _ => pose proof (forallb_entry _ _ _ _ H Hk) as He end. simpl in He. to_prop.
    destruct w as [| | | | |[|e entries]|]; try done.
    assert (array_of f k = e :: entries) as Harr by (unfold array_of; by rewrite Hf, Hk).
    destruct (arrays_nonempty f k 0 e) as [values Hvalues]; [by right|by rewrite Harr|].
    specialize (Hn f k values Hvalues). unfold place_coord in Hn. rewrite bool_decide_eq_false_2 in Hn by done. by rewrite Hn, Harr.
  - rewrite Ho; [|done|].
    + apply get_none; [done..|]. intros it (f' & v' & Hf' & Ht). inversion Ht; subst. congruence.
    + intros f' g [values Hvalues] Heq. unfold place_coord in Heq. case_bool_decide; [done|]. injection Heq as -> ->.
      destruct (map_choose values) as (n & v & Hv); [by apply (sh_arrays _ _ (rd_shaped _ _ _ _ _ _ Hd) _ _ Hvalues)|].
      apply arrays_spec in Hvalues as [_ Hval]. apply Hval in Hv as [_ Hv]. unfold array_of in Hv. by rewrite Hf, Hk in Hv.
Qed.

Lemma final_map f entries :
  kind_of defaults f = K_Map → bt_get f fields = Some (JObject entries) → bt_get f (de_root final) = Some (JObject entries).
Proof.
  intros Hkind Hf. destruct (proj2 (final_fields f) ltac:(eauto)) as [j Hj]. rewrite Hj. f_equal.
  destruct final_spec as (Hs & _). assert (shape_of defaults f = Keyed) as Hshape by (unfold shape_of; by rewrite Hkind).
  eapply (entries_ext f final); [apply (rd_shaped _ _ _ _ _ _ Hd)|by left|done|done| |].
  { by eapply canonical_object, canonical_member; [apply (df_fields _ _ Hdoc)|]. }
  intros k. rewrite final_get by (done || by rewrite Hkind). destruct (bt_get k entries) as [w|] eqn:Hk.
  - apply get_exact; [done|]. by eapply map_entry.
  - apply get_none; [done..|]. intros it (f' & v' & Hf' & Ht). inversion Ht; subst. congruence.
Qed.

Lemma final_nested f groups :
  kind_of defaults f = K_Nested → bt_get f fields = Some (JObject groups) → bt_get f (de_root final) = Some (JObject groups).
Proof.
  intros Hkind Hf. destruct (proj2 (final_fields f) ltac:(eauto)) as [j Hj]. rewrite Hj. f_equal.
  destruct final_spec as (Hs & _). assert (shape_of defaults f = Grouped) as Hshape by (unfold shape_of; by rewrite Hkind).
  destruct (sh_grouped _ _ Hs f j Hshape Hj) as (m & -> & Hm & Hmg). f_equal.
  pose proof (canonical_member _ _ _ (df_fields _ _ Hdoc) Hf) as Hcan. apply bt_ext; [done|by apply canonical_object|].
  assert (∀ g c, bt_get c (entries_of (bt_get g m)) = get d (C_Nested f g c)) as Hget.
  { intros g c. rewrite <- final_get by done. unfold get. by rewrite Hj. }
  intros g. destruct (bt_get g groups) as [jg|] eqn:Hg.
  - pose proof (df_field _ _ Hdoc _ _ Hf) as Hok. unfold field_ok in Hok. rewrite Hkind in Hok. to_prop.
    match goal with H : forallb _ groups = true |- _ => pose proof (forallb_entry _ _ _ _ H Hg) as He end. simpl in He. to_prop.
    unfold group_ok in *. destruct jg as [| | | | | |[|[c w] children]]; try done.
    assert (∀ c', bt_get c' (entries_of (bt_get g m)) = bt_get c' ((c, w) :: children)) as Hall.
    { intros c'. rewrite Hget. destruct (bt_get c' ((c, w) :: children)) as [w'|] eqn:Hc.
      - apply get_exact; [done|]. by eapply nested_entry.
      - apply get_none; [done..|]. intros it (f' & v' & Hf' & Ht). inversion Ht; subst. congruence. }
    destruct (bt_get g m) as [jm|] eqn:Hgm.
    + destruct (Hmg g jm Hgm) as (cs & -> & Hcs & _). do 2 f_equal. apply bt_ext; [done| |done].
      by eapply canonical_object, canonical_member.
    + specialize (Hall c). simpl in Hall. by rewrite decide_True in Hall.
  - destruct (bt_get g m) as [jm|] eqn:Hgm; [|done]. exfalso. destruct (Hmg g jm Hgm) as ([|[c w] cs] & -> & Hcs & Hne); [done|].
    specialize (Hget g c). rewrite Hgm in Hget. simpl in Hget. rewrite decide_True in Hget by done.
    destruct (get_cases (C_Nested f g c) Hshape) as [(it & (f' & v' & Hf' & Ht) & _)|[_ Hn]]; [|congruence].
    inversion Ht; subst. congruence.
Qed.

(** The assembled document is the state's document. *)
Lemma final_root : de_root final = fields.
Proof.
  destruct final_spec as (Hs & _). apply bt_ext; [apply (sh_root _ _ Hs)|apply canonical_object, (df_fields _ _ Hdoc)|].
  intros f. destruct (bt_get f fields) as [v|] eqn:Hf.
  - pose proof (df_field _ _ Hdoc _ _ Hf) as Hok. unfold field_ok in Hok. apply andb_true_iff in Hok as [_ Hok].
    destruct (kind_of defaults f) eqn:Hkind; destruct v; try done; auto using final_flat, final_list, final_history, final_map, final_nested.
  - destruct (bt_get f (de_root final)) as [j|] eqn:Hj; [|done].
    destruct (proj1 (final_fields f)) as [v Hv]; [by eexists|congruence].
Qed.

Lemma counters_present f : f ∈ LIST_FIELDS → is_Some (de_counters d !! (f +:+ "_order")).
Proof.
  intros Hin. destruct (default_field f (df_lists _ _ Hdoc f Hin)) as (v & Hf & Hok). unfold field_ok in Hok. to_prop.
  assert (kind_of defaults f = K_List) as Hkind.
  { unfold LIST_FIELDS in Hin. repeat (apply elem_of_cons in Hin as [->|Hin]; [done|]). by apply elem_of_nil in Hin. }
  rewrite Hkind in *. destruct v; try done. rewrite (counter_spec f _ Hkind Hf). by eexists.
Qed.
End Decode.

Section Rows.
Context `{P : Platform} `{!PlatformLaws P} `{RS : RecordSerde} `{!RecordSerdeLaws RS} `{SS : StateSerde}.
Implicit Types (L : list (string * string)).

Lemma retired_of_segments g L retired row :
  retired_of g L = Ok retired → row ∈ L → length (split_slash row.1) = 6%nat.
Proof.
  unfold retired_of. generalize (∅ : gset RunId.t). induction L as [|[key bytes] L IH]; intros acc; [by intros _ ?%elem_of_nil|].
  cbn [outcome_fold]. intros (acc' & Hone & Hrest)%outcome_bind_ok [->|Hin]%elem_of_cons; [|by eapply IH].
  apply outcome_bind_ok in Hone as (marker & Hm & _). unfold is_retired_marker in Hm. simpl.
  destruct (Nat.eqb_spec (length (split_slash key)) 6); [done|]. by simpl in Hm.
Qed.

(** The rows of a state are the rows of its items, of which no two share a key. *)
Lemma encode_items state defaults fields g r rows :
  documented state defaults fields → 0 ≤ r ≤ u64_max → encode state g r = Ok rows →
  ∃ items, (∀ it, it ∈ items ↔ ∃ c, typed state defaults fields it c) ∧ NoDup (item_row g r <$> items).*1 ∧
    (∀ f v, bt_get f fields = Some v → ∃ items, field_items state defaults (f, v) = Ok items) ∧
    ∀ r', 0 ≤ r' ≤ u64_max → encode state g r' = Ok (list_to_map (item_row g r' <$> items)).
Proof.
  intros [Hd Hv Hread Hpol Hok] Hr (defaults' & fields' & itemss & Hd' & Hv' & Hm & Hins)%encode_ok.
  rewrite Hd in Hd'. rewrite Hv in Hv'. injection Hd' as <-. injection Hv' as <-.
  apply document_ok_facts in Hok as Hdoc. pose proof (λ it, items_typed _ _ _ _ it (df_fields _ _ Hdoc) Hm) as Htyped.
  assert (Forall item_ok (concat itemss)) as Hitems.
  { apply Forall_forall. intros it [c Hc]%Htyped. by apply (ro_item _ _ _ (typed_row_ok _ _ _ _ _ Hdoc Hc)). }
  apply insert_items_ok in Hins as (Hnd & _); [|done..].
  exists (concat itemss). split; [done|]. split; [|split].
  - by rewrite <- list_fmap_compose, <- list_fmap_compose in *.
  - intros f v Hf%bt_get_elem. destruct (outcome_map_in _ _ _ _ Hm Hf) as (ys & ? & _). eauto.
  - intros r' Hr'. apply encode_ok. exists defaults, fields, itemss. split_and!; [done..|].
    apply insert_items_ok; [done..|]. split; [done|]. split; [|by rewrite (right_id_L ∅ (∪))]. intros it _. apply lookup_empty.
Qed.

Lemma row_keys g r r' (items : list Item) : (item_row g r <$> items).*1 = (item_row g r' <$> items).*1.
Proof. by rewrite <- !list_fmap_compose. Qed.

Lemma filter_keys (p : string → bool) L : filter (λ k, p k = true) L.*1 = (filter (λ row, p row.1 = true) L).*1.
Proof. induction L as [|[k b] L IH]; [done|]. rewrite fmap_cons, !filter_cons, IH. simpl. by case_decide. Qed.

(** The rows of a state read back as the state, in any order and with the rows of
    retired runs among them. *)
Lemma read_back state defaults fields g r rows L retired :
  documented state defaults fields → 1 ≤ r ≤ u64_max → encode state g r = Ok rows →
  NoDup L.*1 → retired_of g L = Ok retired →
  filter (λ row, visible_row retired (list_to_set (omap (λ row, summarized_run row.1) L)) row.1 = true) L ≡ₚ map_to_list rows →
  decode L g = Ok state.
Proof.
  intros Hstate Hr Henc HL Hret Hvis. set (summarized := list_to_set _) in Hvis.
  destruct (encode_items state defaults fields g r rows Hstate ltac:(lia) Henc) as (items & Hitems & Hnd & Hfields & Hall).
  pose proof (Hall r ltac:(lia)) as Hrows. rewrite Henc in Hrows. injection Hrows as ->.
  rewrite map_to_list_to_map in Hvis by done. destruct Hstate as [Hd Hv Hread Hpol Hok]. apply document_ok_facts in Hok as Hdoc.
  apply Permutation_map_inv in Hvis as (its & Hvis & Hperm). change (map (item_row g r) its) with (item_row g r <$> its) in Hvis.
  assert (∀ it, it ∈ its ↔ ∃ c, typed state defaults fields it c) as Hits by (intros it; by rewrite <- Hitems, Hperm).
  destruct (read_rows state defaults fields Hdoc g r retired summarized L its ∅ (blank defaults)) as (d & Hfold & Hreads).
  { done. } { done. } { intros k _. by apply not_elem_of_empty. }
  { rewrite <- Hperm. by apply (NoDup_fmap_1 (item_row g r)), (NoDup_fmap_1 fst). }
  { intros it. by apply Hits. } { done. } { intros row Hrow. by eapply retired_of_segments. }
  { by apply blank_shaped with fields. } { done. }
  { intros it c _ Hc. apply (blank_fresh defaults fields); [done|]. by eapply typed_coord_ok. }
  unfold decode. rewrite Hd. simpl. rewrite Hret. simpl.
  change (mkDecoding defaults ∅ ∅) with (blank defaults). fold summarized. rewrite Hfold. simpl.
  fold (arrays_in_order d). rewrite (final_fold state defaults fields Hdoc its Hits d Hreads). simpl.
  rewrite (final_root state defaults fields Hdoc its Hits d Hreads Hfields Hpol).
  assert (∀ f, f ∈ LIST_FIELDS → bool_decide (is_Some (de_counters d !! (f +:+ "_order"))) = true) as Hcounters.
  { intros f Hf. apply bool_decide_eq_true. by eapply counters_present. }
  simpl in Hcounters. rewrite !Hcounters by (unfold LIST_FIELDS; set_solver).
  simpl. rewrite Hread. simpl. rewrite (Hall 1) by (unfold u64_max; lia). simpl.
  rewrite (right_id_L ∅ (∪)). rewrite (row_keys g r 1) in Hnd.
  assert ((item_row g 1 <$> items).*1 ≡ₚ filter (λ key, visible_row retired summarized key = true) L.*1) as Hkeys.
  { rewrite (filter_keys (visible_row retired summarized)), Hvis, (row_keys g r 1). by rewrite Hperm. }
  rewrite bool_decide_eq_true_2.
  2:{ rewrite dom_list_to_map_L. intros k Hk. rewrite elem_of_list_to_set, Hkeys, list_elem_of_filter in Hk. apply elem_of_list_to_set. tauto. }
  rewrite elements_list_to_set, <- Hkeys by done. rewrite <- size_dom, dom_list_to_map_L.
  by rewrite size_list_to_set, Nat.eqb_refl.
Qed.
End Rows.
