(* ===== verification/RecordFragments.v ===== *)
(** * Fragments put together again

    The physical rows of a set of records, and that they give the records back in
    any order; a state written out, split and read back. *)
From stdpp Require Import base option gmap strings list sorting list_numbers fin_sets.
From Stdlib Require Import ZArith Ascii Lia.
From S2P Require Import Prelude Value ValueFacts Ids IdsFacts Policy Catalog Ir Domain Eval Evolve History FormatUpgrade Snapshot SnapshotFacts RecordStore RecordFacts RecordDecode.

(** ** Pieces of keys *)
Lemma split_slash_nonempty s : split_slash s ≠ [].
Proof. destruct s as [|c s]; simpl; [done|]. destruct (Ascii.eqb c "/"); [done|]. by destruct (split_slash s). Qed.

Lemma split_slash_concat a b : split_slash (a +:+ "/" +:+ b) = split_slash a ++ split_slash b.
Proof.
  induction a as [|c a IH]; [done|]. change (String c a +:+ "/" +:+ b) with (String c (a +:+ "/" +:+ b)). simpl.
  rewrite IH. destruct (Ascii.eqb c "/"); [done|]. pose proof (split_slash_nonempty a). by destruct (split_slash a).
Qed.

Lemma join_split s : join_with "/" (split_slash s) = s.
Proof.
  induction s as [|c s IH]; [done|]. simpl. pose proof (split_slash_nonempty s) as Hne.
  destruct (Ascii.eqb_spec c "/") as [->|Hc].
  - destruct (split_slash s) as [|x l]; [done|]. change (String "/" (join_with "/" (x :: l)) = String "/" s). by rewrite IH.
  - destruct (split_slash s) as [|x [|y l]]; [done|by rewrite <- IH|].
    change (String c (join_with "/" (x :: y :: l)) = String c s). by rewrite IH.
Qed.

Definition six (key : string) : Prop := length (split_slash key) = 6%nat.

(** The key of the record that a physical row belongs to. *)
Definition base_of (key : string) : string := join_with "/" (take 6 (split_slash key)).

Lemma base_six key : six key → base_of key = key.
Proof. unfold six, base_of. intros Hk. by rewrite take_ge, join_split by lia. Qed.

Lemma dec8_slash_free i : split_slash (dec8 i) = [dec8 i].
Proof. apply split_slash_free, digits_slash_free. lia. Qed.

Lemma fragment_segments key i : split_slash (fragment_key key i) = split_slash key ++ ["fragment"; dec8 i].
Proof.
  unfold fragment_key. change (key +:+ "/fragment/" +:+ dec8 i) with (key +:+ "/" +:+ ("fragment" +:+ "/" +:+ dec8 i)).
  by rewrite split_slash_concat, split_slash_concat, dec8_slash_free.
Qed.

Lemma base_fragment key i : six key → base_of (fragment_key key i) = key.
Proof.
  unfold six, base_of. intros Hk. rewrite fragment_segments, take_app_le by lia. by rewrite take_ge, join_split by lia.
Qed.

Lemma parse_dec8 i : 0 ≤ i < 100000000 → parse_uint u32_max (dec8 i) = Some i.
Proof. intros Hi. apply parse_decimal; unfold u32_max; lia. Qed.

Lemma fragment_key_inj key key' i i' :
  six key → six key' → 0 ≤ i < 100000000 → 0 ≤ i' < 100000000 → fragment_key key i = fragment_key key' i' → key = key' ∧ i = i'.
Proof.
  intros Hk Hk' Hi Hi' Heq. split.
  - by rewrite <- (base_fragment key i), Heq, base_fragment.
  - apply (f_equal split_slash) in Heq. rewrite !fragment_segments in Heq. unfold six in *.
    apply app_inj_1 in Heq as [_ Heq]; [|congruence].
    apply (f_equal (λ l, parse_uint u32_max (piece l 1))) in Heq. change (parse_uint u32_max (dec8 i) = parse_uint u32_max (dec8 i')) in Heq. rewrite !parse_dec8 in Heq by lia. congruence.
Qed.

Lemma fragment_not_six key i : six key → ¬ six (fragment_key key i).
Proof. unfold six. intros Hk. rewrite fragment_segments, length_app, Hk. simpl. lia. Qed.

(** ** Chunks *)
Lemma chunks_from_spec limit s room current rest :
  1 ≤ limit → 0 ≤ room ≤ limit → chunks_from limit room s = (current, rest) →
  current +:+ joined rest = s ∧ zlen_string current = Z.min room (zlen_string s) ∧
  Forall (λ f, 1 ≤ zlen_string f ≤ limit) rest ∧ zlen_string s - room ≤ limit * zlen rest ∧
  (rest = [] ∨ limit * zlen rest < zlen_string s - room + limit).
Proof.
  intros Hlimit. assert (∀ c s, zlen_string (String c s) = 1 + zlen_string s) as Hcons by (intros; unfold zlen_string; simpl; lia).
  assert (∀ (x : string) l, zlen (x :: l) = 1 + zlen l) as Hlen by (intros; unfold zlen; simpl; lia).
  revert room current rest. induction s as [|c s IH]; intros room current rest Hroom; simpl.
  { intros [= <- <-]. split; [done|]. unfold zlen_string, zlen. simpl. split; [lia|]. split; [constructor|]. split; [lia|by left]. }
  pose proof (zlen_string_nonneg s). destruct (Z.eqb_spec room 0) as [->|Hroom0].
  - destruct (chunks_from limit (limit - 1) s) as [current' rest'] eqn:Hs. intros [= <- <-].
    destruct (IH (limit - 1) current' rest' ltac:(lia) Hs) as (<- & Hc & Hall & Hlo & Hhi). rewrite Hcons, Hlen in *.
    split; [done|]. split; [unfold zlen_string at 1; simpl; lia|]. split; [constructor; [rewrite Hcons; lia|done]|]. split; [lia|].
    right. destruct Hhi as [->|Hhi]; [change (zlen []) with 0|]; lia.
  - destruct (chunks_from limit (room - 1) s) as [current' rest'] eqn:Hs. intros [= <- <-].
    destruct (IH (room - 1) current' rest' ltac:(lia) Hs) as (<- & Hc & Hall & Hlo & Hhi). rewrite !Hcons in *.
    split; [done|]. split; [lia|]. split; [done|]. split; [lia|]. destruct Hhi as [->|Hhi]; [by left|right; lia].
Qed.

Lemma chunks_spec bytes :
  FRAGMENT_BYTES < zlen_string bytes ≤ MAX_RECORD_BYTES →
  joined (chunks FRAGMENT_BYTES bytes) = bytes ∧ Forall (λ f, 1 ≤ zlen_string f ≤ FRAGMENT_BYTES) (chunks FRAGMENT_BYTES bytes) ∧
  zlen (chunks FRAGMENT_BYTES bytes) = (zlen_string bytes + FRAGMENT_BYTES - 1) / FRAGMENT_BYTES ∧
  0 < zlen (chunks FRAGMENT_BYTES bytes) ≤ 65.
Proof.
  unfold chunks. intros Hbytes. destruct (chunks_from FRAGMENT_BYTES 0 bytes) as [current rest] eqn:Hs. simpl.
  destruct (chunks_from_spec FRAGMENT_BYTES bytes 0 current rest) as (Hjoin & Hcur & Hall & Hlo & Hhi); [done..|].
  assert (current = "") as ->. { destruct current; [done|]. unfold zlen_string in Hcur. simpl in Hcur. lia. }
  split; [done|]. split; [done|]. unfold FRAGMENT_BYTES, MAX_RECORD_BYTES in *.
  destruct Hhi as [->|Hhi]; [unfold zlen in *; simpl in *; lia|]. split; [|lia]. apply Z.div_unique with (zlen_string bytes + 1024 * 1024 - 1 - 1024 * 1024 * zlen rest); lia.
Qed.

(** ** Physical rows *)
Section Fragments.
Context `{P : Platform} `{!PlatformLaws P} `{RS : RecordSerde} `{!RecordSerdeLaws RS}.
Implicit Types (rows L : list (string * string)).

(** A record that can be stored: its key has six parts, it is not too long and is
    not taken for the header of a fragmented one. *)
Record storable (row : string * string) : Prop := mkStorable {
  so_key : six row.1;
  so_size : zlen_string row.2 ≤ MAX_RECORD_BYTES;
  so_plain : is_fragment_header row.2 = false;
}.

Definition header_of (bytes : string) : FragmentHeader :=
  mkFragmentHeader FRAGMENT_FORMAT (zlen_string bytes) (zlen (chunks FRAGMENT_BYTES bytes)) (hex_encode (sha256 bytes)).
Definition head_of (bytes : string) : string := match header_to_json (header_of bytes) with Ok head => head | _ => "" end.

Definition fragments_of (row : string * string) : list (string * string) :=
  imap (λ i fragment, (fragment_key row.1 (Z.of_nat i), fragment)) (chunks FRAGMENT_BYTES row.2).
Definition pieces (row : string * string) : list (string * string) :=
  if zlen_string row.2 <=? FRAGMENT_BYTES then [row] else (row.1, head_of row.2) :: fragments_of row.

Lemma head_of_spec bytes : header_to_json (header_of bytes) = Ok (head_of bytes) ∧ header_from_json (head_of bytes) = Ok (header_of bytes).
Proof. destruct (header_roundtrip (header_of bytes)) as (head & Hw & Hr). unfold head_of. by rewrite Hw. Qed.

Lemma elem_of_fragments row k v :
  storable row → FRAGMENT_BYTES < zlen_string row.2 →
  (k, v) ∈ fragments_of row ↔ ∃ i, 0 ≤ i < 100000000 ∧ k = fragment_key row.1 i ∧ chunks FRAGMENT_BYTES row.2 !! Z.to_nat i = Some v.
Proof.
  intros [_ Hsize _] Hbig. destruct (chunks_spec row.2 ltac:(lia)) as (_ & _ & _ & Hlen).
  unfold fragments_of. rewrite list_elem_of_lookup. setoid_rewrite list_lookup_imap. split.
  - intros (n & (v' & Hv & [= -> ->])%fmap_Some). exists (Z.of_nat n). rewrite Nat2Z.id. pose proof (zlen_index _ _ _ Hv).
    split_and!; [lia..|done|done].
  - intros (i & Hi & -> & Hv). exists (Z.to_nat i). rewrite Hv. simpl. by rewrite Z2Nat.id by lia.
Qed.

(** The keys of the pieces: the record's own, or that of one of its fragments. *)
Lemma pieces_key row k v : storable row → (k, v) ∈ pieces row →
  k = row.1 ∨ ∃ i, 0 ≤ i < 100000000 ∧ k = fragment_key row.1 i ∧ chunks FRAGMENT_BYTES row.2 !! Z.to_nat i = Some v.
Proof.
  intros Hrow. unfold pieces. destruct (Z.leb_spec (zlen_string row.2) FRAGMENT_BYTES) as [Hle|Hgt].
  - intros Hin%list_elem_of_singleton. left. by rewrite <- Hin.
  - intros [[= -> ->]|Hin]%elem_of_cons; [by left|]. right. by apply elem_of_fragments.
Qed.

Lemma pieces_base row k v : storable row → (k, v) ∈ pieces row → base_of k = row.1.
Proof.
  intros Hrow Hin. pose proof (so_key _ Hrow). destruct (pieces_key row k v Hrow Hin) as [->|(i & _ & -> & _)]; [by apply base_six|by apply base_fragment].
Qed.

Lemma pieces_NoDup row : storable row → NoDup (pieces row).*1.
Proof.
  intros Hrow. unfold pieces. destruct (Z.leb_spec (zlen_string row.2) FRAGMENT_BYTES) as [Hle|Hgt]; simpl; [apply NoDup_singleton|].
  pose proof (so_key _ Hrow) as Hkey. destruct (chunks_spec row.2) as (_ & _ & _ & Hlen); [by destruct Hrow|]. apply NoDup_cons. split.
  - intros ([k v] & Hk & Hin)%list_elem_of_fmap. simpl in Hk. subst k. apply elem_of_fragments in Hin as (i & _ & Hk & _); [|done..].
    apply (fragment_not_six row.1 i Hkey). by rewrite <- Hk.
  - apply NoDup_alt. intros n m k. unfold fragments_of. rewrite !list_lookup_fmap, !list_lookup_imap.
    destruct (chunks FRAGMENT_BYTES row.2 !! n) as [v|] eqn:Hn; [|done]. destruct (chunks FRAGMENT_BYTES row.2 !! m) as [w|] eqn:Hm; [|done].
    simpl. intros [= <-] [= Heq]. pose proof (zlen_index _ _ _ Hn). pose proof (zlen_index _ _ _ Hm).
    apply fragment_key_inj in Heq as [_ Heq]; [lia|done|done|lia|lia].
Qed.

Lemma all_pieces rows k v : (k, v) ∈ concat (pieces <$> rows) ↔ ∃ row, row ∈ rows ∧ (k, v) ∈ pieces row.
Proof. rewrite list_elem_of_In, in_concat. setoid_rewrite <- list_elem_of_In. setoid_rewrite list_elem_of_fmap. naive_solver. Qed.

Lemma all_pieces_NoDup rows : Forall storable rows → NoDup rows.*1 → NoDup (concat (pieces <$> rows)).*1.
Proof.
  intros Hall. induction Hall as [|row rows Hrow Hall IH]; intros Hnd; [constructor|]. simpl. rewrite fmap_app.
  apply NoDup_cons in Hnd as [Hnew Hnd]. apply NoDup_app. split; [by apply pieces_NoDup|]. split; [|by apply IH].
  intros k ([k1 v1] & -> & H1)%list_elem_of_fmap ([k2 v2] & Heq & (row' & Hin & H2)%all_pieces)%list_elem_of_fmap. simpl in Heq. subst k2.
  rewrite Forall_forall in Hall. pose proof (pieces_base _ _ _ (Hall row' Hin) H2) as Hb. rewrite (pieces_base _ _ _ Hrow H1) in Hb.
  apply Hnew. rewrite Hb. by apply list_elem_of_fmap_2.
Qed.

(** ** Framing *)
Lemma insert_physical_fold {A} message (f : A → string * string) (body : Rows → A → Outcome Rows) l physical :
  (∀ p x, body p x = insert_physical message (f x).1 (f x).2 p) → NoDup (f <$> l).*1 → (∀ x, x ∈ l → physical !! (f x).1 = None) →
  outcome_fold body physical l = Ok (list_to_map (f <$> l) ∪ physical).
Proof.
  intros Hbody. revert physical. induction l as [|x l IH]; intros physical Hnd Hfresh; simpl; [by rewrite (left_id_L ∅ (∪))|].
  apply NoDup_cons in Hnd as [Hnew Hnd]. rewrite Hbody. unfold insert_physical. destruct (f x) as [k v] eqn:Hx. simpl in *.
  assert (physical !! k = None) as Hk by (change k with (k, v).1; rewrite <- Hx; apply Hfresh; by left).
  rewrite bool_decide_eq_false_2 by (rewrite Hk; by intros [? ?]). simpl. rewrite IH; [|done|].
  - f_equal. rewrite <- insert_union_l, <- insert_union_r; [done|]. by apply not_elem_of_list_to_map.
  - intros y Hy. rewrite lookup_insert_ne; [apply Hfresh; by right|]. intros ->. apply Hnew.
    by apply (list_elem_of_fmap_2 fst), list_elem_of_fmap_2.
Qed.

Lemma frame_record_ok physical row :
  storable row → (∀ k v, (k, v) ∈ pieces row → physical !! k = None) →
  frame_record physical row = Ok (list_to_map (pieces row) ∪ physical).
Proof.
  intros Hrow Hfresh. pose proof (pieces_NoDup row Hrow) as Hnd. destruct row as [key bytes]. pose proof Hrow as [_ Hsize _]. simpl in Hsize.
  unfold frame_record. rewrite (proj2 (Z.ltb_ge _ _)) by done. unfold pieces in *. simpl in *.
  destruct (Z.leb_spec (zlen_string bytes) FRAGMENT_BYTES) as [Hle|Hgt].
  { unfold insert_physical. rewrite bool_decide_eq_false_2 by (rewrite (Hfresh key bytes) by (by left); by intros [? ?]).
    simpl. f_equal. rewrite <- insert_union_l. by rewrite (left_id_L ∅ (∪)). }
  destruct (chunks_spec bytes ltac:(lia)) as (_ & _ & Hcount & Hlen). rewrite <- Hcount, (proj2 (Z.ltb_ge u32_max _)) by (unfold u32_max; lia).
  fold (header_of bytes). destruct (head_of_spec bytes) as [-> _]. simpl.
  assert (insert_physical "duplicate physical state record" key (head_of bytes) physical = Ok (<[key := head_of bytes]> physical)) as ->.
  { unfold insert_physical. rewrite bool_decide_eq_false_2; [done|]. rewrite (Hfresh key (head_of bytes)) by (by left). by intros [? ?]. }
  simpl.
  assert ((λ '(i, fragment), (fragment_key key (Z.of_nat i), fragment)) <$> enumerate (chunks FRAGMENT_BYTES bytes) = fragments_of (key, bytes)) as Hmap.
  { unfold enumerate, fragments_of. by rewrite fmap_imap. }
  simpl in Hnd. apply NoDup_cons in Hnd as [Hnew Hnd].
  rewrite (insert_physical_fold "duplicate state record fragment" (λ '(i, fragment), (fragment_key key (Z.of_nat i), fragment)));
    [|by intros p [i fragment]|by rewrite Hmap|].
  - rewrite Hmap. f_equal. rewrite <- insert_union_l, <- insert_union_r; [done|]. by apply not_elem_of_list_to_map.
  - intros [i fragment] Hin. assert ((fragment_key key (Z.of_nat i), fragment) ∈ fragments_of (key, bytes)) as Hf.
    { rewrite <- Hmap. apply list_elem_of_fmap. by exists (i, fragment). }
    simpl. rewrite lookup_insert_ne; [by apply (Hfresh _ fragment); right|].
    intros Heq. apply (fragment_not_six key (Z.of_nat i) (so_key _ Hrow)). rewrite <- Heq. exact (so_key _ Hrow).
Qed.

(** Records that can be stored are stored. *)
Lemma frame_records_ok rows :
  Forall storable rows → NoDup rows.*1 → frame_records rows = Ok (list_to_map (concat (pieces <$> rows))).
Proof.
  intros Hall Hnd. unfold frame_records. rewrite <- (right_id_L ∅ (∪) (list_to_map _)).
  assert (∀ k v, (k, v) ∈ concat (pieces <$> rows) → (∅ : Rows) !! k = None) as Hfresh by (intros; apply lookup_empty).
  revert Hfresh. generalize (∅ : Rows). induction Hall as [|row rows Hrow Hall IH]; intros physical Hfresh; cbn [outcome_fold].
  { simpl. by rewrite (left_id_L ∅ (∪)). }
  pose proof (all_pieces_NoDup (row :: rows) ltac:(by constructor) Hnd) as Hpieces. simpl in Hpieces. rewrite fmap_app in Hpieces.
  apply NoDup_app in Hpieces as (_ & Hdisj & _). apply NoDup_cons in Hnd as [_ Hnd].
  rewrite frame_record_ok; [|done|by intros k v Hin; apply (Hfresh k v); simpl; apply elem_of_app; left]. simpl.
  rewrite IH; [|done|].
  - f_equal. simpl. rewrite list_to_map_app. rewrite (assoc_L (∪)). f_equal. apply map_union_comm, map_disjoint_spec. intros k v1 v2 H1 H2.
    apply elem_of_list_to_map_2 in H1, H2. exact (Hdisj k (list_elem_of_fmap_2 fst _ _ H2) (list_elem_of_fmap_2 fst _ _ H1)).
  - intros k v Hin. apply lookup_union_None. split.
    + apply not_elem_of_list_to_map. intros Hk. apply (Hdisj k Hk). by apply (list_elem_of_fmap_2 fst _ _ Hin).
    + apply (Hfresh k v). simpl. apply elem_of_app. by right.
Qed.

(** ** Sorting the physical rows *)
Definition Sorted_rows : Type := Rows * gmap string (gmap Z string).

Record sorted_into (L : list (string * string)) (acc : Sorted_rows) : Prop := mkSortedInto {
  si_heads : ∀ k v, acc.1 !! k = Some v ↔ (k, v) ∈ L ∧ six k;
  si_fragments : ∀ base i v, (ch ← acc.2 !! base; ch !! i) = Some v ↔ (fragment_key base i, v) ∈ L ∧ six base ∧ 0 ≤ i < 100000000;
  si_nonempty : ∀ base ch, acc.2 !! base = Some ch → ch ≠ ∅;
}.

Definition physical_key (k : string) : Prop := six k ∨ ∃ base i, six base ∧ 0 ≤ i < 100000000 ∧ k = fragment_key base i.

Lemma fst_unique (L : list (string * string)) k v w : NoDup L.*1 → (k, v) ∈ L → (k, w) ∈ L → v = w.
Proof. intros Hnd H1 H2. apply (elem_of_list_to_map_1 (M := gmap string) _ _ _ Hnd) in H1, H2. congruence. Qed.

Lemma sort_one L acc k v :
  sorted_into L acc → physical_key k → k ∉ L.*1 → ∃ acc', sort_physical acc (k, v) = Ok acc' ∧ sorted_into (L ++ [(k, v)]) acc'.
Proof.
  intros [Hh Hf Hne] Hk Hnew. destruct acc as [heads frs]. simpl in *. unfold sort_physical.
  assert (∀ w, (k, w) ∉ L) as Hnone by (intros w Hin; apply Hnew; by apply (list_elem_of_fmap_2 fst _ _ Hin)).
  assert (∀ k' w, (k', w) ∈ L ++ [(k, v)] ↔ (k', w) ∈ L ∨ k' = k ∧ w = v) as Hin.
  { intros k' w. rewrite elem_of_app, list_elem_of_singleton. naive_solver. }
  destruct Hk as [Hsix|(base & i & Hsix & Hi & ->)].
  - rewrite (proj2 (Nat.eqb_eq _ _)) by done. unfold insert_physical.
    rewrite bool_decide_eq_false_2 by (intros [w [? _]%Hh]; by eapply Hnone). simpl. eexists. split; [done|]. split; simpl; [| |done].
    + intros k' w. rewrite Hin. destruct (decide (k = k')) as [<-|Hd]; [rewrite lookup_insert_eq|rewrite lookup_insert_ne by done; rewrite Hh]; naive_solver.
    + intros b j w. rewrite Hf, Hin. split; [tauto|]. intros ([?|[Heq _]] & Hb & Hj); [done|]. subst k. by destruct (fragment_not_six b j Hb).
  - pose proof (fragment_segments base i) as Hseg. unfold six in Hsix. rewrite Hseg, length_app, Hsix. simpl.
    rewrite take_app_length' by done. unfold piece. rewrite !lookup_app_r, Hsix by lia. simpl. rewrite parse_dec8 by done. simpl.
    rewrite join_split.
    assert (default ∅ (frs !! base) !! i = None) as Hfresh.
    { apply eq_None_not_Some. intros [w Hw]. apply (Hnone w). apply (proj1 (Hf base i w)). destruct (frs !! base); [done|]. simpl in Hw. by rewrite lookup_empty in Hw. }
    rewrite bool_decide_eq_false_2 by (rewrite Hfresh; by intros [? ?]). eexists. split; [done|]. split; simpl.
    + intros k' w. rewrite Hh, Hin. split; [tauto|]. intros ([?|[-> _]] & Hk'); [done|]. by destruct (fragment_not_six base i Hsix).
    + intros b j w. rewrite Hin. destruct (decide (base = b)) as [<-|Hd].
      * rewrite lookup_insert_eq. simpl. destruct (decide (i = j)) as [<-|Hij].
        -- rewrite lookup_insert_eq. split; [intros [= <-]; split; [by right|by split]|]. intros ([Hw|[_ ->]] & _); [by destruct (Hnone w)|done].
        -- rewrite lookup_insert_ne by done. specialize (Hf base j w). assert (default ∅ (frs !! base) !! j = (ch ← frs !! base; ch !! j)) as ->.
           { destruct (frs !! base); [done|]. apply lookup_empty. }
           rewrite Hf. split; [tauto|]. intros ([?|[Heq _]] & Hb & Hj); [done|]. apply fragment_key_inj in Heq as [_ ->]; done.
      * rewrite lookup_insert_ne by done. rewrite Hf. split; [tauto|]. intros ([?|[Heq _]] & Hb & Hj); [done|].
        apply fragment_key_inj in Heq as [-> _]; done.
    + intros b ch. destruct (decide (base = b)) as [<-|Hd]; [rewrite lookup_insert_eq; intros [= <-]; apply insert_non_empty|].
      rewrite lookup_insert_ne by done. apply Hne.
Qed.

Lemma sort_all L : NoDup L.*1 → Forall physical_key L.*1 →
  ∃ acc, outcome_fold sort_physical (∅, ∅) L = Ok acc ∧ sorted_into L acc.
Proof.
  intros Hnd Hall. assert (sorted_into [] (∅, ∅)) as Hstart.
  { split; simpl; [intros k v; rewrite lookup_empty| |intros ? ?; by rewrite lookup_empty].
    - split; [done|by intros [?%elem_of_nil _]].
    - intros base i v. rewrite lookup_empty. split; [done|by intros [?%elem_of_nil _]]. }
  change L with ([] ++ L) in Hnd. change (sorted_into L) with (sorted_into ([] ++ L)). revert Hstart Hnd.
  generalize (@nil (string * string)) as L1. generalize (∅ : Rows, ∅ : gmap string (gmap Z string)).
  induction L as [|[k v] L IH]; intros acc L1 Hacc Hnd; [exists acc; by rewrite app_nil_r|]. inversion Hall as [|? ? Hk Hall']; subst. cbn [outcome_fold].
  rewrite cons_middle, (assoc_L (++)) in Hnd.
  destruct (sort_one L1 acc k v Hacc Hk) as (acc' & -> & Hacc').
  { rewrite !fmap_app in Hnd. apply NoDup_app in Hnd as (Hnd & _). apply NoDup_app in Hnd as (_ & Hd & _). intros Hin. apply (Hd k Hin). by left. }
  simpl. rewrite (cons_middle (k, v) L1 L), (assoc_L (++)). by apply IH.
Qed.

(** ** Putting the fragments together *)
Lemma joined_app a b : joined (a ++ b) = joined a +:+ joined b.
Proof. unfold joined. induction a as [|x a IH]; [done|]. simpl. by rewrite IH, string_app_assoc. Qed.

Lemma assemble_fold (ch : gmap Z string) cs :
  (∀ i v, ch !! i = Some v ↔ 0 ≤ i ∧ cs !! Z.to_nat i = Some v) → Forall (λ f, 1 ≤ zlen_string f ≤ FRAGMENT_BYTES) cs →
  outcome_fold (λ assembled index,
    fragment ← ok_or (ch !! index) (failed_precondition "state record fragment sequence has a gap");
    if bool_decide (fragment = "") || (FRAGMENT_BYTES <? zlen_string fragment)
    then Err (failed_precondition "state record fragment has invalid length")
    else Ok (assembled +:+ fragment)) "" (seqZ 0 (zlen cs)) = Ok (joined cs).
Proof.
  intros Hch Hall. set (body := λ _ _, _). assert (∀ suf pre, cs = pre ++ suf →
    outcome_fold body (joined pre) (seqZ (zlen pre) (zlen suf)) = Ok (joined cs)) as Hgen; [|by apply (Hgen cs [])].
  induction suf as [|f suf IH]; intros pre Hcs.
  { rewrite seqZ_nil by done. simpl. by rewrite Hcs, app_nil_r. }
  replace (zlen (f :: suf)) with (Z.succ (zlen suf)) by (unfold zlen; simpl; lia).
  rewrite seqZ_cons by (unfold zlen; lia). cbn [outcome_fold].
  assert (cs !! length pre = Some f) as Hf by (by rewrite Hcs, list_lookup_middle).
  assert (ch !! zlen pre = Some f) as Hchf by (apply Hch; unfold zlen; rewrite Nat2Z.id; split; [lia|done]).
  assert (body (joined pre) (zlen pre) = Ok (joined (pre ++ [f]))) as ->.
  { unfold body. rewrite Hchf. simpl. rewrite Forall_lookup in Hall. specialize (Hall _ _ Hf).
    rewrite bool_decide_eq_false_2 by (intros ->; by destruct Hall). rewrite (proj2 (Z.ltb_ge _ _)) by lia. simpl.
    rewrite joined_app. unfold joined at 3. simpl. by rewrite string_app_nil_r. }
  simpl. replace (Z.pred (Z.succ (zlen suf))) with (zlen suf) by lia.
  replace (Z.succ (zlen pre)) with (zlen (pre ++ [f])) by (unfold zlen; rewrite length_app; simpl; lia).
  apply IH. by rewrite <- (assoc_L (++)).
Qed.

(** The fragments of a record, under their numbers. *)
Definition fragments_of_record (bytes : string) (ch : gmap Z string) : Prop :=
  ∀ i v, ch !! i = Some v ↔ 0 ≤ i ∧ chunks FRAGMENT_BYTES bytes !! Z.to_nat i = Some v.

Lemma fragments_size bytes ch : fragments_of_record bytes ch → Z.of_nat (size ch) = zlen (chunks FRAGMENT_BYTES bytes).
Proof.
  intros Hch. assert (dom ch = list_to_set (seqZ 0 (zlen (chunks FRAGMENT_BYTES bytes)))) as Hdom.
  { apply set_eq. intros i. rewrite elem_of_dom, elem_of_list_to_set, elem_of_seqZ. split.
    - intros [v [Hi Hv]%Hch]. pose proof (zlen_index _ _ _ Hv). lia.
    - intros Hi. unfold zlen in Hi. destruct (lookup_lt_is_Some_2 (chunks FRAGMENT_BYTES bytes) (Z.to_nat i)) as [v Hv]; [lia|].
      exists v. apply Hch. split; [lia|done]. }
  rewrite <- size_dom, Hdom, size_list_to_set by apply NoDup_seqZ. rewrite length_seqZ. unfold zlen. lia.
Qed.

Lemma assemble_ok heads key bytes ch :
  FRAGMENT_BYTES < zlen_string bytes ≤ MAX_RECORD_BYTES → fragments_of_record bytes ch → heads !! key = Some (head_of bytes) →
  assemble heads (key, ch) = Ok (<[key := bytes]> heads).
Proof.
  intros Hbytes Hch Hhead. destruct (chunks_spec bytes Hbytes) as (Hjoin & Hall & Hcount & Hlen). destruct (head_of_spec bytes) as [_ Hread].
  unfold assemble. rewrite Hhead. simpl. rewrite Hread. simpl. rewrite (fragments_size bytes ch Hch), Z.eqb_refl.
  rewrite (proj2 (Z.ltb_ge MAX_RECORD_BYTES _)), (proj2 (Z.eqb_neq _ 0)) by lia. simpl.
  rewrite (assemble_fold ch (chunks FRAGMENT_BYTES bytes)) by done. simpl. rewrite Hjoin, Z.eqb_refl.
  by rewrite bool_decide_eq_true_2.
Qed.

Lemma assemble_all (R heads : Rows) Fs :
  NoDup Fs.*1 →
  (∀ key ch, (key, ch) ∈ Fs → ∃ bytes, R !! key = Some bytes ∧ FRAGMENT_BYTES < zlen_string bytes ≤ MAX_RECORD_BYTES ∧
    fragments_of_record bytes ch ∧ heads !! key = Some (head_of bytes)) →
  (∀ key, key ∉ Fs.*1 → heads !! key = R !! key) →
  outcome_fold assemble heads Fs = Ok R.
Proof.
  revert heads. induction Fs as [|[key ch] Fs IH]; intros heads Hnd HFs Hrest; cbn [outcome_fold].
  { f_equal. apply map_eq. intros key. apply Hrest, not_elem_of_nil. }
  destruct (HFs key ch) as (bytes & HR & Hsize & Hch & Hhead); [by left|]. rewrite (assemble_ok heads key bytes ch) by done. simpl.
  apply NoDup_cons in Hnd as [Hnew Hnd]. apply IH; [done| |].
  - intros key' ch' Hin. destruct (HFs key' ch') as (bytes' & ? & ? & ? & ?); [by right|]. exists bytes'. split_and!; try done; try lia.
    rewrite lookup_insert_ne; [done|]. intros <-. apply Hnew. exact (list_elem_of_fmap_2 fst _ _ Hin).
  - intros key' Hkey'. destruct (decide (key = key')) as [<-|Hne]; [by rewrite lookup_insert_eq|].
    rewrite lookup_insert_ne by done. apply Hrest. simpl. by apply not_elem_of_cons.
Qed.

Lemma big_pieces row : FRAGMENT_BYTES < zlen_string row.2 → pieces row = (row.1, head_of row.2) :: fragments_of row.
Proof. intros Hbig. unfold pieces. by rewrite (proj2 (Z.leb_gt _ _)). Qed.

Lemma small_pieces row : zlen_string row.2 ≤ FRAGMENT_BYTES → pieces row = [row].
Proof. intros Hle. unfold pieces. by rewrite (proj2 (Z.leb_le _ _)). Qed.

(** *** The sorted rows of some records *)
Section Restore.
Context (rows L : list (string * string)) (heads : Rows) (frs : gmap string (gmap Z string)).
Context (Hall : Forall storable rows) (Hnd : NoDup rows.*1) (HL : L ≡ₚ concat (pieces <$> rows)) (Hsorted : sorted_into L (heads, frs)).

Lemma row_storable row : row ∈ rows → storable row.
Proof. rewrite Forall_forall in Hall. apply Hall. Qed.

Lemma elem_of_rows k v : (k, v) ∈ L ↔ ∃ row, row ∈ rows ∧ (k, v) ∈ pieces row.
Proof. by rewrite HL, all_pieces. Qed.

(** A physical row belongs to the record that its key names. *)
Lemma own_row key bytes k v : (key, bytes) ∈ rows → (k, v) ∈ L → base_of k = key → (k, v) ∈ pieces (key, bytes).
Proof.
  intros Hrow ([k2 v2] & Hrow' & Hp)%elem_of_rows Hb. rewrite (pieces_base _ _ _ (row_storable _ Hrow') Hp) in Hb. simpl in Hb. subst k2.
  by rewrite (fst_unique _ _ _ _ Hnd Hrow Hrow').
Qed.

Lemma record_at key bytes : (key, bytes) ∈ rows → (list_to_map rows : Rows) !! key = Some bytes.
Proof. intros Hrow. by apply elem_of_list_to_map_1. Qed.

Lemma fragment_at key bytes i v :
  (key, bytes) ∈ rows → FRAGMENT_BYTES < zlen_string bytes →
  (ch ← frs !! key; ch !! i) = Some v ↔ 0 ≤ i ∧ chunks FRAGMENT_BYTES bytes !! Z.to_nat i = Some v.
Proof.
  intros Hrow Hbig. pose proof (row_storable _ Hrow) as Hst. pose proof (so_key _ Hst) as Hkey. pose proof (so_size _ Hst) as Hsize. simpl in *.
  rewrite (si_fragments _ _ Hsorted key i v). split.
  - intros (Hin & _ & Hi). apply (own_row key bytes) in Hin; [|done|by apply base_fragment]. rewrite big_pieces in Hin by done.
    apply elem_of_cons in Hin as [[= Heq _]|Hfrag]; [exfalso; apply (fragment_not_six key i Hkey); by rewrite Heq|].
    apply elem_of_fragments in Hfrag as (j & Hj & Heq & Hv); [|done..]. apply fragment_key_inj in Heq as [_ <-]; [|done..]. split; [lia|done].
  - intros [Hi Hv]. assert (0 ≤ i < 100000000) as Hi'.
    { destruct (chunks_spec bytes ltac:(lia)) as (_ & _ & _ & Hlen). pose proof (zlen_index _ _ _ Hv). lia. }
    split; [|by split]. apply elem_of_rows. exists (key, bytes). split; [done|]. rewrite big_pieces by done.
    right. apply elem_of_fragments; [done..|]. by exists i.
Qed.

Lemma fragmented key bytes : (key, bytes) ∈ rows → is_Some (frs !! key) ↔ FRAGMENT_BYTES < zlen_string bytes.
Proof.
  intros Hrow. pose proof (row_storable _ Hrow) as Hst. pose proof (so_size _ Hst) as Hsize. simpl in Hsize. split.
  - intros [ch Hch]. destruct (map_choose ch (si_nonempty _ _ Hsorted _ _ Hch)) as (i & v & Hv).
    assert ((ch ← frs !! key; ch !! i) = Some v) as Hget by (by rewrite Hch). apply (si_fragments _ _ Hsorted) in Hget as (Hin & Hsix & _).
    apply (own_row key bytes) in Hin; [|done|by apply base_fragment].
    destruct (Z.le_gt_cases (zlen_string bytes) FRAGMENT_BYTES) as [Hle|Hgt]; [|lia]. rewrite small_pieces in Hin by done.
    apply list_elem_of_singleton in Hin as [= Heq _]. exfalso. apply (fragment_not_six key i Hsix). by rewrite Heq.
  - intros Hbig. destruct (chunks_spec bytes ltac:(lia)) as (_ & _ & _ & Hlen).
    destruct (lookup_lt_is_Some_2 (chunks FRAGMENT_BYTES bytes) 0) as [w Hw]; [unfold zlen in Hlen; lia|].
    pose proof (proj2 (fragment_at key bytes 0 w Hrow Hbig) (conj (Z.le_refl 0) Hw)) as Hget. by destruct (frs !! key).
Qed.

Lemma fragments_owned key ch : frs !! key = Some ch → ∃ bytes, (key, bytes) ∈ rows ∧ FRAGMENT_BYTES < zlen_string bytes.
Proof.
  intros Hch. destruct (map_choose ch (si_nonempty _ _ Hsorted _ _ Hch)) as (i & v & Hv).
  assert ((ch ← frs !! key; ch !! i) = Some v) as Hget by (by rewrite Hch). apply (si_fragments _ _ Hsorted) in Hget as (Hin & Hsix & _).
  apply elem_of_rows in Hin as ([k bytes] & Hrow & Hp). pose proof (pieces_base _ _ _ (row_storable _ Hrow) Hp) as Hb.
  rewrite base_fragment in Hb by done. simpl in Hb. subst k. exists bytes. split; [done|]. by apply fragmented with key.
Qed.

Lemma head_at key bytes :
  (key, bytes) ∈ rows →
  heads !! key = Some (if zlen_string bytes <=? FRAGMENT_BYTES then bytes else head_of bytes).
Proof.
  intros Hrow. apply (si_heads _ _ Hsorted). split; [|exact (so_key _ (row_storable _ Hrow))]. apply elem_of_rows. exists (key, bytes).
  split; [done|]. unfold pieces. simpl. destruct (_ <=? _); by left.
Qed.

Lemma head_owned key v : heads !! key = Some v → ∃ bytes, (key, bytes) ∈ rows.
Proof.
  intros [([k bytes] & Hrow & Hp)%elem_of_rows Hsix]%(si_heads _ _ Hsorted). pose proof (pieces_base _ _ _ (row_storable _ Hrow) Hp) as Hb.
  rewrite base_six in Hb by done. simpl in Hb. subst k. by exists bytes.
Qed.

Lemma assembled_rows :
  outcome_fold assemble heads (sort_by (λ a b, String.leb a.1 b.1) (map_to_list frs)) = Ok (list_to_map rows).
Proof.
  apply assemble_all.
  - rewrite sort_by_perm. apply NoDup_fst_map_to_list.
  - intros key ch Hch. rewrite sort_by_perm in Hch. apply elem_of_map_to_list in Hch. destruct (fragments_owned key ch Hch) as (bytes & Hrow & Hbig).
    exists bytes. pose proof (so_size _ (row_storable _ Hrow)) as Hsize. simpl in Hsize. split; [by apply record_at|]. split; [lia|]. split.
    + intros i v. rewrite <- (fragment_at key bytes) by done. by rewrite Hch.
    + by rewrite (head_at key bytes), (proj2 (Z.leb_gt _ _)).
  - intros key Hkey. assert (frs !! key = None) as Hnone.
    { destruct (frs !! key) as [ch|] eqn:Hch; [|done]. destruct Hkey. apply list_elem_of_fmap. exists (key, ch). split; [done|].
      rewrite sort_by_perm. by apply elem_of_map_to_list. }
    destruct (heads !! key) as [v|] eqn:Hv.
    + destruct (head_owned key v Hv) as [bytes Hrow]. rewrite (record_at key bytes), <- Hv, (head_at key bytes) by done.
      destruct (Z.leb_spec (zlen_string bytes) FRAGMENT_BYTES) as [|Hbig]; [done|]. apply (fragmented key bytes Hrow) in Hbig as [ch Hch]. congruence.
    + destruct ((list_to_map rows : Rows) !! key) as [bytes|] eqn:Hb; [|done]. apply elem_of_list_to_map_2 in Hb.
      by rewrite (head_at key bytes) in Hv.
Qed.
End Restore.

(** The rows of the records, in any order, give the records back. *)
Lemma restore_pieces rows L :
  Forall storable rows → NoDup rows.*1 → L ≡ₚ concat (pieces <$> rows) → restore_records L = Ok (list_to_map rows).
Proof.
  intros Hall Hnd HL. pose proof (all_pieces_NoDup rows Hall Hnd) as Hpieces.
  destruct (sort_all L) as ([heads frs] & Hsort & Hsorted).
  { by rewrite HL. }
  { apply Forall_forall. intros k ([k' v] & -> & (row & Hrow & Hp)%(elem_of_rows rows L HL))%list_elem_of_fmap. simpl.
    pose proof (row_storable rows Hall _ Hrow) as Hst. pose proof (so_key _ Hst).
    destruct (pieces_key _ _ _ Hst Hp) as [->|(i & Hi & -> & _)]; [by left|right; eauto]. }
  unfold restore_records. rewrite Hsort. simpl. rewrite (assembled_rows rows L heads frs) by done. simpl.
  replace (existsb _ _) with false; [done|]. symmetry. apply not_true_is_false.
  intros ([k v] & Hkv%list_elem_of_In%elem_of_map_to_list & Hhead)%existsb_exists. simpl in Hhead. apply elem_of_list_to_map_2 in Hkv.
  pose proof (so_plain _ (row_storable rows Hall _ Hkv)) as Hplain. simpl in Hplain. congruence.
Qed.
End Fragments.

(** ** States *)
Section States.
Context `{P : Platform} `{!PlatformLaws P} `{RS : RecordSerde} `{!RecordSerdeLaws RS} `{SS : StateSerde}.
Implicit Types (L : list (string * string)).

Lemma typed_unretired state defaults fields it c :
  document_facts defaults fields → typed state defaults fields it c → rk_field (item_key it) ≠ "retired_runs".
Proof.
  intros Hdoc (f & v & Hf & Hc). destruct (field_ok_name _ _ _ (df_field _ _ Hdoc _ _ Hf)) as (_ & Hne & _).
  destruct Hc as [| ? Hkind| | | |]; simpl; try done. by destruct (kind_list _ _ Hkind) as [->| ->].
Qed.

Lemma unmarked_row g r retired it :
  item_ok it → rk_field (item_key it) ≠ "retired_runs" →
  is_retired_marker (item_row g r it).1 (item_row g r it).2 g = Ok None ∧ visible_row ∅ retired (item_row g r it).1 = true.
Proof.
  intros (_ & Hkey & _) Hf. simpl. pose proof (split_record_key g _ Hkey) as Hsplit. unfold is_retired_marker, visible_row, hidden_retired_row.
  rewrite Hsplit. unfold piece. simpl. rewrite bool_decide_eq_true_2, !bool_decide_eq_false_2 by done. simpl. split; [done|].
  destruct (run_piece _); [|done]. rewrite bool_decide_eq_false_2; [done|]. apply not_elem_of_empty.
Qed.

Lemma unmarked_rows g r summarized (items : list Item) :
  Forall (λ it, item_ok it ∧ rk_field (item_key it) ≠ "retired_runs") items →
  retired_of g (item_row g r <$> items) = Ok ∅ ∧
  filter (λ row, visible_row ∅ summarized row.1 = true) (item_row g r <$> items) = item_row g r <$> items.
Proof.
  intros Hall. split.
  - induction Hall as [|it items [Hok Hf] _ IH]; [done|]. unfold retired_of in *. cbn [fmap list_fmap outcome_fold]. destruct (item_row g r it) as [k b] eqn:Hrow.
    pose proof (unmarked_row g r ∅ it Hok Hf) as [Hm _]. rewrite Hrow in Hm. simpl in Hm. rewrite Hm. simpl. exact IH.
  - induction Hall as [|it items [Hok Hf] _ IH]; [done|]. rewrite fmap_cons, filter_cons.
    pose proof (unmarked_row g r summarized it Hok Hf) as [_ Hv]. rewrite decide_True by done. by rewrite IH.
Qed.

(** Each row of a state is the text of an item that is not about retired runs, and
    the rows in any order decode to the state. *)
Lemma encoded_rows state defaults fields g r rows :
  documented state defaults fields → 1 ≤ r ≤ u64_max → encode state g r = Ok rows →
  (∀ key bytes, rows !! key = Some bytes →
    ∃ it, (key, bytes) = item_row g r it ∧ item_ok it ∧ rk_field (item_key it) ≠ "retired_runs") ∧
  ∀ L, L ≡ₚ map_to_list rows → decode L g = Ok state.
Proof.
  intros Hstate Hr Henc. destruct (encode_items state defaults fields g r rows Hstate ltac:(lia) Henc) as (items & Hitems & Hnd & _ & Hall).
  pose proof (Hall r ltac:(lia)) as Hrows. rewrite Henc in Hrows. injection Hrows as Hrows.
  pose proof (document_ok_facts _ _ (doc_ok _ _ _ Hstate)) as Hdoc.
  assert (Forall (λ it, item_ok it ∧ rk_field (item_key it) ≠ "retired_runs") items) as Hok.
  { apply Forall_forall. intros it [c Hc]%Hitems. split; [|by eapply typed_unretired].
    exact (ro_item _ _ _ (typed_row_ok _ _ _ _ _ Hdoc Hc)). }
  assert (map_to_list rows ≡ₚ item_row g r <$> items) as Hlist by (by rewrite Hrows, map_to_list_to_map). split.
  - intros key bytes Hin%elem_of_map_to_list. rewrite Hlist in Hin. apply list_elem_of_fmap in Hin as (it & Heq & Hin).
    exists it. split; [done|]. rewrite Forall_forall in Hok. by apply Hok.
  - intros L HL. rewrite Hlist in HL. apply Permutation_map_inv in HL as (its & Hits & Hperm).
    change (map (item_row g r) its) with (item_row g r <$> its) in Hits.
    assert (Forall (λ it, item_ok it ∧ rk_field (item_key it) ≠ "retired_runs") its) as Hok' by (by rewrite <- Hperm).
    rewrite Hits. eapply (read_back state defaults fields g r rows _ ∅ Hstate Hr Henc).
    + by rewrite <- Hperm.
    + by apply (unmarked_rows g r ∅).
    + destruct (unmarked_rows g r (list_to_set (omap (λ row, summarized_run row.1) (item_row g r <$> its))) its Hok') as [_ ->].
      by rewrite Hlist, Hperm.
Qed.

Lemma item_storable g r it :
  item_ok it → 1 ≤ r ≤ u64_max → zlen_string (item_bytes r it) ≤ MAX_RECORD_BYTES → storable (item_row g r it).
Proof.
  intros Hit Hr Hsize. destruct (item_written r it Hit ltac:(lia)) as [Hw _]. split; simpl; [|done|by eapply record_is_no_header].
  unfold six. by rewrite split_record_key by apply Hit.
Qed.


End States.
