(* ===== verification/DeltaFacts.v ===== *)
(** * Writing the difference is writing everything

    [holds]: the records a physical table holds. Removing and writing one record,
    then the difference of two sets of records, in these terms; and that a
    generation written as a difference loads as the new state. *)
From stdpp Require Import base option gmap strings list sorting fin_sets.
From Stdlib Require Import ZArith Ascii Lia.
From S2P Require Import Prelude Value ValueFacts Ids IdsFacts Policy Catalog Ir Domain Eval Evolve History FormatUpgrade Replica RecordStore RowDelta RecordFacts RecordDecode Snapshot SnapshotFacts RecordFragments CommandFacts.

(** ** Cursors *)
Lemma prefix_spec p s : String.prefix p s = true ↔ ∃ t, s = p +:+ t.
Proof.
  split.
  - revert s. induction p as [|c p IH]; intros s; [by exists s|]. destruct s as [|d s]; simpl; [done|].
    destruct (ascii_dec c d) as [<-|]; [|done]. intros [t ->]%IH. by exists t.
  - intros [t ->]. apply string_prefix_app.
Qed.

Lemma leb_total a b : String.leb a b = true ∨ String.leb b a = true.
Proof. unfold String.leb. rewrite (String.compare_antisym a b). destruct (String.compare b a); simpl; auto. Qed.

Lemma leb_cons c d a b :
  String.leb (String c a) (String d b) = true ↔ Ascii.compare c d = Lt ∨ c = d ∧ String.leb a b = true.
Proof.
  unfold String.leb. simpl. destruct (Ascii.compare c d) eqn:Hc.
  - apply Ascii.compare_eq_iff in Hc as ->. split; [by right|]. intros [?|[_ ?]]; done.
  - split; [by left|done].
  - split; [done|]. intros [?|[-> _]]; [done|]. unfold Ascii.compare in Hc. by rewrite N.compare_refl in Hc.
Qed.

Lemma prefix_leb p s : String.prefix p s = true → String.leb p s = true.
Proof.
  intros [t ->]%prefix_spec. induction p as [|c p IH]; [by destruct t|]. change (String c p +:+ t) with (String c (p +:+ t)).
  apply leb_cons. by right.
Qed.

Lemma ascii_lt_irrefl c : Ascii.compare c c ≠ Lt.
Proof. unfold Ascii.compare. by rewrite N.compare_refl. Qed.
Lemma ascii_lt_asym c d : Ascii.compare c d = Lt → Ascii.compare d c ≠ Lt.
Proof. unfold Ascii.compare. rewrite !N.compare_lt_iff. lia. Qed.

(** In key order, the keys with a prefix are the first from the prefix on. *)
Lemma prefix_first p a b :
  String.leb p a = true → String.leb a b = true → String.prefix p b = true → String.prefix p a = true.
Proof.
  intros Hpa Hab [t ->]%prefix_spec. revert a Hpa Hab. induction p as [|c p IH]; intros a Hpa Hab; [by destruct a|].
  destruct a as [|d a]; [done|]. change (String c p +:+ t) with (String c (p +:+ t)) in Hab.
  apply leb_cons in Hpa as [Hcd|[<- Hpa]].
  - apply leb_cons in Hab as [Hdc|[-> _]]; [by destruct (ascii_lt_asym _ _ Hcd)|by destruct (ascii_lt_irrefl c)].
  - apply leb_cons in Hab as [Hdc|[_ Hab]]; [by destruct (ascii_lt_irrefl c)|]. simpl. destruct (ascii_dec c c); [by apply IH|done].
Qed.

Lemma leb_trans a b c : String.leb a b = true → String.leb b c = true → String.leb a c = true.
Proof.
  revert b c. induction a as [|x a IH]; intros b c; [by destruct c|]. destruct b as [|y b]; [done|]. destruct c as [|z c]; [done|].
  rewrite !leb_cons. unfold Ascii.compare. rewrite !N.compare_lt_iff. intros [?|[<- ?]] [?|[<- ?]]; [left; lia|by left|by left|right; eauto].
Qed.

Lemma key_order_sorted (rows : Rows) : StronglySorted (λ a b, String.leb a.1 b.1 = true) (in_key_order rows).
Proof.
  apply Sorted_StronglySorted; [intros a b c; apply leb_trans|]. apply sort_by_sorted. intros a b. apply leb_total.
Qed.

Lemma key_order_perm (rows : Rows) : in_key_order rows ≡ₚ map_to_list rows.
Proof. apply sort_by_perm. Qed.

Lemma elem_of_key_order (rows : Rows) k v : (k, v) ∈ in_key_order rows ↔ rows !! k = Some v.
Proof. by rewrite key_order_perm, elem_of_map_to_list. Qed.

Lemma key_order_NoDup (rows : Rows) : NoDup (in_key_order rows).*1.
Proof. rewrite key_order_perm. apply NoDup_fst_map_to_list. Qed.

Lemma take_while_prefix p (l : list (string * string)) :
  StronglySorted (λ a b, String.leb a.1 b.1 = true) l → Forall (λ row, String.leb p row.1 = true) l →
  take_while (λ row, String.prefix p row.1) l = filter (λ row, String.prefix p row.1 = true) l.
Proof.
  induction 1 as [|row l Hl IH Hrow]; intros Hall; [done|]. inversion Hall as [|? ? Hp Hall']; subst. rewrite filter_cons. cbn [take_while].
  destruct (String.prefix p row.1) eqn:Hpre; [rewrite decide_True by done; by rewrite IH|]. rewrite decide_False by done.
  symmetry. apply elem_of_nil_inv. intros row' [Hpre' Hin]%list_elem_of_filter. rewrite Forall_forall in Hrow.
  pose proof (prefix_first p row.1 row'.1 Hp (Hrow row' Hin) Hpre'). congruence.
Qed.

Lemma strongly_filter {A} (R : A → A → Prop) (Q : A → Prop) `{∀ x, Decision (Q x)} l :
  StronglySorted R l → StronglySorted R (filter Q l).
Proof.
  induction 1 as [|x l Hl IH Hx]; [constructor|]. rewrite filter_cons. destruct (decide (Q x)); [|done]. constructor; [done|].
  rewrite Forall_forall in *. intros y [_ Hy]%list_elem_of_filter. auto.
Qed.

(** The rows under a prefix are read in key order. *)
Lemma collect_prefix (T : Rows) p :
  collect_app_prefix T p = filter (λ row, String.prefix p row.1 = true) (in_key_order T).
Proof.
  unfold collect_app_prefix, table_from. fold (in_key_order T). rewrite take_while_prefix.
  - rewrite list_filter_filter_l; [done|]. intros row. apply prefix_leb.
  - apply strongly_filter, key_order_sorted.
  - apply Forall_forall. intros row [Hp _]%list_elem_of_filter. done.
Qed.

Lemma elem_of_collected (T : Rows) p k v :
  (k, v) ∈ collect_app_prefix T p ↔ T !! k = Some v ∧ String.prefix p k = true.
Proof. rewrite collect_prefix, list_elem_of_filter, elem_of_key_order. simpl. tauto. Qed.

Lemma collected_NoDup (T : Rows) p : NoDup (collect_app_prefix T p).*1.
Proof.
  rewrite collect_prefix. pose proof (key_order_NoDup T) as Hnd. induction (in_key_order T) as [|row l IH]; [constructor|].
  apply NoDup_cons in Hnd as [Hnew Hnd]. rewrite filter_cons. case_decide; [|by apply IH]. apply NoDup_cons. split; [|by apply IH].
  intros (row' & Heq & [_ Hin]%list_elem_of_filter)%list_elem_of_fmap. apply Hnew. rewrite Heq. by apply list_elem_of_fmap_2.
Qed.

(** ** Removing and inserting rows *)
Lemma remove_all_lookup (T : Rows) keys k :
  remove_all T keys !! k = if decide (k ∈ keys) then None else T !! k.
Proof.
  unfold remove_all. revert T. induction keys as [|key keys IH]; intros T; simpl; [done|]. rewrite IH.
  destruct (decide (k ∈ keys)) as [Hin|Hin].
  - by rewrite decide_True by (by right).
  - destruct (decide (k ∈ key :: keys)) as [[->|?]%elem_of_cons|Hne]; [by rewrite lookup_delete_eq|done|].
    rewrite lookup_delete_ne; [done|]. intros ->. apply Hne. by left.
Qed.

Lemma insert_rows_lookup (T framed : Rows) k :
  insert_rows T (in_key_order framed) !! k = match framed !! k with Some v => Some v | None => T !! k end.
Proof.
  assert (∀ (l : list (string * string)) T, NoDup l.*1 →
    insert_rows T l !! k = match (list_to_map l : Rows) !! k with Some v => Some v | None => T !! k end) as Hgen.
  { intros l. induction l as [|[key v] l IH]; intros T' Hnd; simpl; [done|]. apply NoDup_cons in Hnd as [Hnew Hnd].
    unfold insert_rows in *. simpl. rewrite IH by done. destruct (decide (key = k)) as [->|Hd].
    - rewrite lookup_insert_eq, not_elem_of_list_to_map_1 by done. by rewrite lookup_insert_eq.
    - by rewrite !lookup_insert_ne by done. }
  rewrite Hgen by apply key_order_NoDup. rewrite (list_to_map_proper _ (map_to_list framed)); [by rewrite list_to_map_to_list|apply key_order_NoDup|apply key_order_perm].
Qed.

(** ** What a table holds *)
Section Held.
Context `{P : Platform} `{!PlatformLaws P} `{RS : RecordSerde} `{!RecordSerdeLaws RS}.
Implicit Types (T L : Rows).

(** [L] are the records of a physical table [T]: the pieces of each, and nothing else. *)
Record holds T L : Prop := mkHolds {
  ho_storable : ∀ key bytes, L !! key = Some bytes → storable (key, bytes);
  ho_rows : ∀ k v, T !! k = Some v ↔ ∃ key bytes, L !! key = Some bytes ∧ (k, v) ∈ pieces (key, bytes);
}.

Lemma piece_of_key key bytes k v w :
  storable (key, bytes) → (k, v) ∈ pieces (key, bytes) → (k, w) ∈ pieces (key, bytes) → v = w.
Proof. intros Hst. apply fst_unique. by apply pieces_NoDup. Qed.

Lemma own_piece key bytes : ∃ v, (key, v) ∈ pieces (key, bytes).
Proof. unfold pieces. simpl. destruct (_ <=? _); eexists; by left. Qed.

Lemma held_none T L key : holds T L → six key → L !! key = None → T !! key = None.
Proof.
  intros HT Hkey HL. apply eq_None_not_Some. intros [v (key' & bytes & HL' & Hp)%(ho_rows _ _ HT)].
  apply pieces_base in Hp; [|by eapply ho_storable]. rewrite base_six in Hp by done. simpl in Hp. congruence.
Qed.

(** The rows under [key/fragment/] are the fragments of [key]. *)
Lemma piece_fragment key key' bytes k v :
  storable (key', bytes) → (k, v) ∈ pieces (key', bytes) → six key →
  String.prefix (key +:+ "/fragment/") k = true ↔ key' = key ∧ k ≠ key.
Proof.
  intros Hst Hp Hkey. pose proof (pieces_key _ _ _ Hst Hp) as Hk. pose proof (so_key _ Hst) as Hkey'. simpl in *. split.
  - intros [t ->]%prefix_spec. rewrite string_app_assoc in *.
    assert (split_slash (key +:+ "/fragment/" +:+ t) = split_slash key ++ "fragment" :: split_slash t) as Hsplit.
    { change ("/fragment/" +:+ t) with ("/" +:+ ("fragment" +:+ "/" +:+ t)). rewrite split_slash_concat, split_slash_concat. done. }
    pose proof (split_slash_nonempty t) as Hne. assert (length (split_slash t) ≠ 0%nat) as Hlen by (by destruct (split_slash t)).
    assert (¬ six (key +:+ "/fragment/" +:+ t)) as Hnot.
    { unfold six in *. rewrite Hsplit, length_app. simpl. lia. }
    split; [|intros Heq; by rewrite Heq in Hnot]. destruct Hk as [Heq|(i & _ & Heq & _)]; [by rewrite Heq in Hnot|].
    apply pieces_base in Hp; [|done]. simpl in Hp. rewrite <- Hp. unfold base_of. rewrite Hsplit. unfold six in Hkey.
    by rewrite take_app_length', join_split.
  - intros [-> Hne]. destruct Hk as [|(i & _ & -> & _)]; [done|]. unfold fragment_key. apply prefix_spec. exists (dec8 i).
    by rewrite string_app_assoc.
Qed.

(** A record is found under its key, with the keys of all its pieces. *)
Lemma stored_record T L key :
  holds T L → six key →
  match L !! key with
  | None => stored_app_record T key = Ok None
  | Some bytes => ∃ keys, stored_app_record T key = Ok (Some (mkStoredAppRecord bytes keys)) ∧ keys ≡ₚ (pieces (key, bytes)).*1
  end.
Proof.
  intros HT Hkey. unfold stored_app_record. destruct (L !! key) as [bytes|] eqn:HL; [|by rewrite (held_none T L)].
  pose proof (ho_storable _ _ HT _ _ HL) as Hst. destruct (own_piece key bytes) as [header Hown].
  assert (T !! key = Some header) as Hheader by (apply (ho_rows _ _ HT); eauto). rewrite Hheader.
  cbv zeta. set (rows := (key, header) :: collect_app_prefix T (key +:+ "/fragment/")).
  assert (rows ≡ₚ pieces (key, bytes)) as Hrows.
  { apply NoDup_Permutation.
    - apply (NoDup_fmap_1 fst), NoDup_cons. split; [|by apply collected_NoDup].
      intros ([k v] & Hk & [(key' & b & HL' & Hp)%(ho_rows _ _ HT) Hpre]%elem_of_collected)%list_elem_of_fmap. simpl in Hk. subst k.
      apply (piece_fragment key) in Hp; [|by eapply ho_storable|done]. apply Hp in Hpre as [_ ?]. done.
    - apply (NoDup_fmap_1 fst). by apply pieces_NoDup.
    - intros [k v]. unfold rows. rewrite elem_of_cons, elem_of_collected, (ho_rows _ _ HT). split.
      + intros [[= -> ->]|[(key' & b & HL' & Hp) Hpre]]; [done|].
        apply (piece_fragment key key' b k v) in Hpre as [-> _]; [|by eapply ho_storable|done..]. by rewrite HL in HL'; simplify_eq.
      + intros Hp. destruct (decide (k = key)) as [->|Hd]; [left; f_equal; by eapply piece_of_key|]. right.
        split; [eauto|]. by apply (piece_fragment key key bytes k v). }
  assert (restore_records rows = Ok (list_to_map [(key, bytes)])) as ->.
  { apply restore_pieces; [by constructor|apply NoDup_singleton|]. simpl. by rewrite app_nil_r. }
  simpl. rewrite lookup_insert_eq. simpl. exists rows.*1. split; [done|by rewrite Hrows].
Qed.

(** Removing all pieces removes the record. *)
Lemma holds_delete T L key bytes keys :
  holds T L → L !! key = Some bytes → keys ≡ₚ (pieces (key, bytes)).*1 → holds (remove_all T keys) (delete key L).
Proof.
  intros HT HL Hkeys. pose proof (ho_storable _ _ HT _ _ HL) as Hst. split.
  - intros k b [_ Hb]%lookup_delete_Some. by eapply ho_storable.
  - intros k v. rewrite remove_all_lookup. destruct (decide (k ∈ keys)) as [Hin|Hin].
    + split; [done|]. intros (key' & b & [Hne HL']%lookup_delete_Some & Hp). rewrite Hkeys in Hin.
      apply list_elem_of_fmap in Hin as ([k' w] & -> & Hw). apply (pieces_base _ _ _ Hst) in Hw. apply pieces_base in Hp; [|by eapply ho_storable].
      simpl in *. congruence.
    + rewrite (ho_rows _ _ HT). split; intros (key' & b & HL' & Hp).
      * exists key', b. split; [|done]. apply lookup_delete_Some. split; [|done]. intros <-. simplify_eq.
        destruct Hin. rewrite Hkeys. by apply (list_elem_of_fmap_2 fst) in Hp.
      * apply lookup_delete_Some in HL' as [_ HL']. eauto.
Qed.

(** Writing the pieces of a new record adds it. *)
Lemma holds_insert T L key bytes framed :
  holds T L → L !! key = None → storable (key, bytes) → frame_records [(key, bytes)] = Ok framed →
  holds (insert_rows T (in_key_order framed)) (<[key := bytes]> L).
Proof.
  intros HT HL Hst Hframed. rewrite frame_records_ok in Hframed; [|by constructor|apply NoDup_singleton].
  injection Hframed as <-. simpl. rewrite app_nil_r. pose proof (pieces_NoDup _ Hst) as Hnd.
  assert (∀ k v, (k, v) ∈ pieces (key, bytes) → T !! k = None) as Hfresh.
  { intros k v Hp. apply eq_None_not_Some. intros [w (key' & b & HL' & Hw)%(ho_rows _ _ HT)].
    apply (pieces_base _ _ _ Hst) in Hp. apply pieces_base in Hw; [|by eapply ho_storable]. simpl in *. congruence. }
  split.
  - intros k b [[<- <-]|[_ Hb]]%lookup_insert_Some; [done|by eapply ho_storable].
  - intros k v. rewrite insert_rows_lookup. destruct ((list_to_map (pieces (key, bytes)) : Rows) !! k) as [w|] eqn:Hw.
    + apply elem_of_list_to_map_2 in Hw. split.
      * intros [= <-]. exists key, bytes. split; [apply lookup_insert_eq|done].
      * intros (key' & b & [[<- <-]|[Hne HL']]%lookup_insert_Some & Hp); [f_equal; by eapply piece_of_key|].
        assert (T !! k = Some v) as Hk by (apply (ho_rows _ _ HT); eauto). by rewrite (Hfresh _ _ Hw) in Hk.
    + rewrite (ho_rows _ _ HT). split; intros (key' & b & HL' & Hp).
      * exists key', b. split; [|done]. rewrite lookup_insert_ne; [done|]. intros <-. congruence.
      * apply lookup_insert_Some in HL' as [[<- <-]|[_ HL']]; [|eauto]. apply not_elem_of_list_to_map in Hw. destruct Hw.
        by apply (list_elem_of_fmap_2 fst) in Hp.
Qed.
End Held.

(** ** Texts of the same record *)
Lemma json_eqb_refl a : json_eqb a a = true.
Proof.
  apply (json_ind' (λ a, json_eqb a a = true)).
  - intros [|b|n|t|t| |]; simpl; try done; [by destruct b|apply Z.eqb_refl|by apply bool_decide_eq_true..].
  - intros items IH. simpl. induction IH as [|x items Hx _ IHl]; [done|]. by rewrite Hx, IHl.
  - intros entries IH. simpl. induction entries as [|[k x] entries IHl]; [done|]. inversion IH as [|? ? Hx IH']; subst. simpl in Hx.
    by rewrite Hx, IHl, bool_decide_eq_true_2.
Qed.

Lemma json_eqb_eq a b : json_eqb a b = true ↔ a = b.
Proof.
  split; [|intros <-; apply json_eqb_refl]. revert b. apply (json_ind' (λ a, ∀ b, json_eqb a b = true → a = b)).
  - intros [|x|n|t|t| |]; try done; intros [|y|m|u|u| |]; simpl; try done; intros Heq; f_equal; [by apply Bool.eqb_prop|lia|by apply bool_decide_eq_true in Heq..].
  - intros items IH [| | | | |ys|]; try done. intros Heq. f_equal. revert ys Heq.
    induction IH as [|x items Hx _ IHl]; intros [|y ys]; simpl; try done. intros [Hxy Hl]%andb_true_iff. f_equal; [by apply Hx|by apply IHl].
  - intros entries IH [| | | | | |ys]; try done. intros Heq. f_equal. revert ys Heq.
    induction entries as [|[k x] entries IHl]; intros [|[l y] ys]; simpl; try done. inversion IH as [|? ? Hx IH']; subst.
    intros [[Hk Hxy]%andb_true_iff Hl]%andb_true_iff. apply bool_decide_eq_true in Hk as <-. f_equal; [f_equal; by apply Hx|by apply IHl].
Qed.

Section Texts.
Context `{RS : RecordSerde}.

(** [bytes] is the text of the record [r], of a format the store reads. *)
Definition reading (bytes : string) (r : VersionedRecord) : Prop :=
  record_from_json bytes = Ok r ∧ supported_record (vr_format r) = true ∧ vr_revision r ≠ 0.

(** Two texts of the same record: they differ in format and revision at most. *)
Definition same_record (a b : string) : Prop :=
  ∃ ra rb, reading a ra ∧ reading b rb ∧ vr_value ra = vr_value rb ∧ vr_order ra = vr_order rb.

Lemma same_value_readings a b ra rb :
  reading a ra → reading b rb →
  same_value a b = Ok (bool_decide (vr_value ra = vr_value rb ∧ vr_order ra = vr_order rb)).
Proof.
  intros (Ha & Hsa & Hra) (Hb & Hsb & Hrb). unfold same_value. rewrite Ha, Hb. simpl. rewrite Hsa, Hsb. simpl.
  rewrite (proj2 (Z.eqb_neq _ _) Hra), (proj2 (Z.eqb_neq _ _) Hrb). simpl. f_equal. apply eq_true_iff_eq.
  by rewrite andb_true_iff, json_eqb_eq, !bool_decide_eq_true.
Qed.

Lemma same_record_spec a b : same_record a b → same_value a b = Ok true.
Proof. intros (ra & rb & Ha & Hb & Hv & Ho). rewrite (same_value_readings a b ra rb) by done. f_equal. by apply bool_decide_eq_true. Qed.

Lemma same_record_trans a b c : same_record a b → same_record b c → same_record a c.
Proof.
  intros (ra & rb & Ha & Hb & Hv & Ho) (rb' & rc & Hb' & Hc & Hv' & Ho'). destruct Hb as [Hb _], Hb' as [Hb' _]. simplify_eq.
  exists ra, rc. split_and!; [done..|congruence|congruence].
Qed.

Lemma same_record_reading a b : same_record a b → (∃ r, reading a r) ∧ ∃ r, reading b r.
Proof. intros (ra & rb & Ha & Hb & _). eauto. Qed.
End Texts.

(** ** The difference *)
Section Difference.
Context `{P : Platform} `{!PlatformLaws P} `{RS : RecordSerde} `{!RecordSerdeLaws RS}.
Implicit Types (T L previous next : Rows).

(** Every record of [rows] is held, whatever its format and revision. *)
Definition held_as L (rows : Rows) : Prop :=
  ∀ key value, rows !! key = Some value → six key ∧ ∃ stored, L !! key = Some stored ∧ same_record stored value.

(** A record that the writer can write. *)
Definition writable (writer : Z) (key value : string) : Prop :=
  six key ∧ ∃ w, for_writer value writer = Ok w ∧ storable (key, w) ∧ same_record w value.

Lemma remove_one next T L key old stored :
  holds T L → six key → L !! key = Some stored → same_record stored old → next !! key = None →
  ∃ T', remove_record next T (key, old) = Ok T' ∧ holds T' (delete key L).
Proof.
  intros HT Hkey HL Hsame Hnext. unfold remove_record. rewrite Hnext, bool_decide_eq_false_2 by (by intros [? ?]).
  pose proof (stored_record T L key HT Hkey) as Hst. rewrite HL in Hst. destruct Hst as (keys & -> & Hkeys). simpl.
  rewrite same_record_spec by done. simpl. eexists. split; [done|]. by eapply holds_delete.
Qed.

Lemma remove_many next l T L :
  holds T L → NoDup l.*1 →
  (∀ key old, (key, old) ∈ l → six key ∧ ∃ stored, L !! key = Some stored ∧ same_record stored old) →
  ∃ T' L', outcome_fold (remove_record next) T l = Ok T' ∧ holds T' L' ∧
    ∀ k, L' !! k = if decide (k ∈ l.*1 ∧ next !! k = None) then None else L !! k.
Proof.
  revert T L. induction l as [|[key old] l IH]; intros T L HT Hnd Hl; cbn [outcome_fold].
  { exists T, L. split_and!; [done..|]. intros k. by rewrite decide_False by (by intros [?%elem_of_nil _]). }
  apply NoDup_cons in Hnd as [Hnew Hnd]. destruct (Hl key old ltac:(by left)) as (Hkey & stored & HL & Hsame).
  destruct (next !! key) as [value|] eqn:Hnext.
  - unfold remove_record at 2. rewrite Hnext, bool_decide_eq_true_2 by done. simpl.
    destruct (IH T L HT Hnd) as (T' & L' & Hfold & HT' & HL'); [intros; apply Hl; by right|]. exists T', L'. split_and!; [done..|].
    intros k. rewrite HL'. apply decide_ext. rewrite elem_of_cons. split; [tauto|]. intros [[->|?] ?]; [congruence|done].
  - destruct (remove_one next T L key old stored) as (T1 & -> & HT1); [done..|]. simpl.
    destruct (IH T1 (delete key L) HT1 Hnd) as (T' & L' & Hfold & HT' & HL').
    { intros key' old' Hin. destruct (Hl key' old' ltac:(by right)) as (Hkey' & s & Hs & Hsame'). split; [done|]. exists s.
      split; [|done]. rewrite lookup_delete_ne; [done|]. intros <-. by apply Hnew, (list_elem_of_fmap_2 fst _ _ Hin). }
    exists T', L'. split_and!; [done..|]. intros k. rewrite HL'. destruct (decide (k = key)) as [->|Hd].
    + rewrite lookup_delete_eq. trans (@None string); [by destruct (decide _)|]. symmetry. apply decide_True. split; [by left|done].
    + rewrite lookup_delete_ne by done. apply decide_ext. rewrite elem_of_cons. cbn [fst]. tauto.
Qed.

Lemma write_new previous writer T L key value :
  holds T L → writable writer key value → L !! key = None → previous !! key = None →
  ∃ T' w, write_record previous writer T (key, value) = Ok T' ∧ holds T' (<[key := w]> L) ∧ same_record w value.
Proof.
  intros HT (Hkey & w & Hw & Hst & Hsame) HL Hprev. unfold write_record. rewrite Hprev. simpl.
  pose proof (stored_record T L key HT Hkey) as Hs. rewrite HL in Hs. rewrite Hs, Hw. simpl.
  rewrite frame_records_ok by (first [by constructor|apply NoDup_singleton]). simpl. eexists _, w. split; [done|]. split; [|done].
  eapply holds_insert; [done..|]. rewrite frame_records_ok by (first [by constructor|apply NoDup_singleton]). done.
Qed.

Lemma write_changed previous writer T L key value old stored :
  holds T L → writable writer key value → L !! key = Some stored → previous !! key = Some old → same_record stored old →
  same_value old value = Ok false →
  ∃ T' w, write_record previous writer T (key, value) = Ok T' ∧ holds T' (<[key := w]> (delete key L)) ∧ same_record w value.
Proof.
  intros HT (Hkey & w & Hw & Hst & Hsame) HL Hprev Hold Hdiff. unfold write_record. rewrite Hprev, Hdiff. simpl.
  pose proof (stored_record T L key HT Hkey) as Hs. rewrite HL in Hs. destruct Hs as (keys & -> & Hkeys). simpl.
  rewrite same_record_spec by done. simpl. rewrite Hw. simpl.
  rewrite frame_records_ok by (first [by constructor|apply NoDup_singleton]). simpl. eexists _, w. split; [done|]. split; [|done].
  eapply holds_insert; [by eapply holds_delete|apply lookup_delete_eq|done|].
  rewrite frame_records_ok by (first [by constructor|apply NoDup_singleton]). done.
Qed.

Lemma write_one previous writer T L key value :
  holds T L → writable writer key value → (previous !! key = None → L !! key = None) →
  (∀ old, previous !! key = Some old → ∃ stored, L !! key = Some stored ∧ same_record stored old) →
  ∃ T' L', write_record previous writer T (key, value) = Ok T' ∧ holds T' L' ∧
    (∃ w, L' !! key = Some w ∧ same_record w value) ∧ ∀ k, k ≠ key → L' !! k = L !! k.
Proof.
  intros HT Hw Hnew Hold. destruct (previous !! key) as [old|] eqn:Hprev.
  - destruct (Hold old eq_refl) as (stored & HL & Hsame). destruct (same_record_reading _ _ Hsame) as [_ [ro Hro]].
    pose proof Hw as (_ & w & _ & _ & Hwv). destruct (same_record_reading _ _ Hwv) as [_ [rv Hrv]].
    pose proof (same_value_readings _ _ _ _ Hro Hrv) as Heq. destruct (bool_decide _) eqn:Hd.
    + unfold write_record. rewrite Hprev, Heq. simpl. exists T, L. split_and!; [done..| |done]. exists stored. split; [done|].
      apply bool_decide_eq_true in Hd as [??]. apply same_record_trans with old; [done|]. by exists ro, rv.
    + destruct (write_changed previous writer T L key value old stored) as (T' & w' & Hwr & HT' & Hs'); [done..|].
      exists T', (<[key := w']> (delete key L)). split_and!; [done..| |].
      * exists w'. by rewrite lookup_insert_eq.
      * intros k Hk. by rewrite lookup_insert_ne, lookup_delete_ne by done.
  - destruct (write_new previous writer T L key value) as (T' & w' & Hwr & HT' & Hs'); [by auto..|].
    exists T', (<[key := w']> L). split_and!; [done..| |].
    + exists w'. by rewrite lookup_insert_eq.
    + intros k Hk. by rewrite lookup_insert_ne by done.
Qed.

Lemma write_many previous writer l T L :
  holds T L → NoDup l.*1 →
  (∀ key value, (key, value) ∈ l → writable writer key value ∧ (previous !! key = None → L !! key = None) ∧
    ∀ old, previous !! key = Some old → ∃ stored, L !! key = Some stored ∧ same_record stored old) →
  ∃ T' L', outcome_fold (write_record previous writer) T l = Ok T' ∧ holds T' L' ∧
    (∀ key value, (key, value) ∈ l → ∃ w, L' !! key = Some w ∧ same_record w value) ∧ ∀ k, k ∉ l.*1 → L' !! k = L !! k.
Proof.
  revert T L. induction l as [|[key value] l IH]; intros T L HT Hnd Hl; cbn [outcome_fold].
  { exists T, L. split_and!; [done..| |done]. by intros ?? ?%elem_of_nil. }
  apply NoDup_cons in Hnd as [Hnew Hnd]. destruct (Hl key value ltac:(by left)) as (Hw & Hnone & Hold).
  destruct (write_one previous writer T L key value) as (T1 & L1 & -> & HT1 & Hkey & Hframe); [done..|]. simpl.
  destruct (IH T1 L1 HT1 Hnd) as (T' & L' & Hfold & HT' & Hall & Hframe').
  { intros key' value' Hin. rewrite Hframe by (intros ->; by apply Hnew, (list_elem_of_fmap_2 fst _ _ Hin)). apply Hl. by right. }
  exists T', L'. split_and!; [done..| |].
  - intros key' value' [[= -> ->]|Hin]%elem_of_cons; [by rewrite Hframe'|by apply Hall].
  - intros k [Hk Hkl]%not_elem_of_cons. by rewrite Hframe', Hframe.
Qed.

(** The difference of two sets of records, written to a table that holds the first,
    leaves a table that holds the second and whatever else was there. *)
Lemma delta_written writer T L previous next :
  holds T L → held_as L previous →
  (∀ key value, next !! key = Some value → writable writer key value ∧ (previous !! key = None → L !! key = None)) →
  ∃ T' L', write_record_delta writer T previous next = Ok T' ∧ holds T' L' ∧ held_as L' next ∧
    ∀ k, next !! k = None → L' !! k = if decide (is_Some (previous !! k)) then None else L !! k.
Proof.
  intros HT Hprev Hnext. unfold write_record_delta.
  destruct (remove_many next (in_key_order previous) T L) as (T1 & L1 & -> & HT1 & HL1); [done|apply key_order_NoDup| |].
  { intros key old Hin%elem_of_key_order. by apply Hprev. }
  assert (∀ k, k ∈ (in_key_order previous).*1 ↔ is_Some (previous !! k)) as Hdom.
  { intros k. rewrite list_elem_of_fmap. split; [intros ([k' v] & -> & ?%elem_of_key_order); by eexists|].
    intros [v Hv]. exists (k, v). split; [done|by apply elem_of_key_order]. }
  simpl. destruct (write_many previous writer (in_key_order next) T1 L1) as (T' & L' & Hfold & HT' & Hall & Hframe); [done|apply key_order_NoDup| |].
  { intros key value Hin%elem_of_key_order. rewrite HL1, decide_False by (intros [_ ?]; congruence).
    destruct (Hnext _ _ Hin). split; [done|]. split; [done|]. intros old Hold. by apply Hprev. }
  exists T', L'. split_and!; [done..| |].
  - intros key value Hv. split; [by apply (Hnext _ _ Hv)|]. by apply Hall, elem_of_key_order.
  - intros k Hk. rewrite Hframe.
    2:{ intros ([k' v] & Heq & ?%elem_of_key_order)%list_elem_of_fmap. simpl in *. congruence. }
    rewrite HL1. apply decide_ext. rewrite Hdom. tauto.
Qed.
End Difference.

(** ** Rows that say the same decode the same *)
Section Decoding.
Context `{P : Platform} `{RS : RecordSerde} `{SS : StateSerde}.

Definition same_row (a b : string * string) : Prop := a.1 = b.1 ∧ same_record a.2 b.2.

Lemma marker_same key a b g : same_record a b → is_retired_marker key a g = is_retired_marker key b g.
Proof.
  intros (ra & rb & (Ha & Hfa & Hra) & (Hb & Hfb & Hrb) & Hv & Ho). unfold is_retired_marker. rewrite Ha, Hb. cbn [map_err mbind Outcome_bind].
  by rewrite Hfa, Hfb, (proj2 (Z.eqb_neq _ _) Hra), (proj2 (Z.eqb_neq _ _) Hrb), Hv, Ho.
Qed.

Lemma decode_counter_same d scope field tag primary nested ra rb :
  vr_value ra = vr_value rb → vr_order ra = vr_order rb →
  decode_counter d scope field tag primary nested ra = decode_counter d scope field tag primary nested rb.
Proof. intros Hv Ho. unfold decode_counter. by rewrite Hv, Ho. Qed.

Lemma decode_tag_same d scope field tag primary nested ra rb :
  vr_value ra = vr_value rb → vr_order ra = vr_order rb →
  decode_tag d scope field tag primary nested ra = decode_tag d scope field tag primary nested rb.
Proof. intros Hv Ho. unfold decode_tag. by rewrite Hv, Ho. Qed.

Lemma decode_row_same g retired summarized acc a b :
  same_row a b → decode_row g retired summarized acc a = decode_row g retired summarized acc b.
Proof.
  destruct a as [key a], b as [? b], acc as [seen d]. intros [Hkey (ra & rb & (Ha & Hfa & Hra) & (Hb & Hfb & Hrb) & Hv & Ho)]. cbn [fst snd] in *. subst.
  unfold decode_row. rewrite Ha, Hb. cbn [map_err mbind Outcome_bind]. rewrite Hfa, Hfb, (proj2 (Z.eqb_neq _ _) Hra), (proj2 (Z.eqb_neq _ _) Hrb).
  cbv zeta. repeat match goal with |- (if ?b then _ else _) = _ => destruct b; [done|] end.
  destruct (decode_key _) as [primary| |]; cbn [mbind Outcome_bind]; [|done..].
  by rewrite (decode_counter_same d _ _ _ _ _ ra rb Hv Ho), (decode_tag_same d _ _ _ _ _ ra rb Hv Ho).
Qed.

Lemma fold_same {A} (f : A → string * string → Outcome A) acc rows rows' :
  (∀ acc a b, same_row a b → f acc a = f acc b) → Forall2 same_row rows rows' → outcome_fold f acc rows = outcome_fold f acc rows'.
Proof.
  intros Hf Hrows. revert acc. induction Hrows as [|a b rows rows' Hab _ IH]; intros acc; cbn [outcome_fold]; [done|].
  rewrite (Hf acc a b Hab). destruct (f acc b); simpl; [apply IH|done..].
Qed.

Lemma decode_same rows rows' g : Forall2 same_row rows rows' → decode rows g = decode rows' g.
Proof.
  intros Hrows. unfold decode.
  assert (retired_of g rows = retired_of g rows') as Hret.
  { unfold retired_of. apply fold_same; [|done]. intros acc [k a] [k' b] [Hk Hab]. simpl in *. subst. by rewrite (marker_same _ _ _ _ Hab). }
  assert (omap (λ row, summarized_run row.1) rows = omap (λ row, summarized_run row.1) rows') as Hsum.
  { clear Hret. induction Hrows as [|a b rows rows' [Hab _] _ IH]; [done|]. simpl. rewrite Hab. destruct (summarized_run b.1); [by f_equal|exact IH]. }
  rewrite Hret, Hsum. destruct (state_to_value state_default); simpl; [|done..]. destruct (object_fields _ _); simpl; [|done..].
  destruct (retired_of g rows'); simpl; [|done..]. by rewrite (fold_same _ _ rows rows' (decode_row_same g _ _)).
Qed.
End Decoding.

(** ** Generations *)
Section Generations.
Context `{P : Platform} `{!PlatformLaws P} `{RS : RecordSerde} `{!RecordSerdeLaws RS} `{SS : StateSerde}.
Implicit Types (T L rows : Rows).

(** The records of [T] that are of the generation are the records of [rows],
    whatever their formats and revisions. *)
Definition stores T (g : Z) rows : Prop :=
  ∃ L, holds T L ∧
    ∀ key, String.prefix (generation_prefix g) key = true → option_Forall2 same_record (L !! key) (rows !! key).

Lemma generation_key g k : String.prefix (generation_prefix g) k = true ↔ ∃ x l, split_slash k = hex16 g :: x :: l.
Proof.
  unfold generation_prefix. split.
  - intros [t ->]%prefix_spec. rewrite string_app_assoc, split_slash_concat, (split_slash_free (hex16 g)) by (apply digits_slash_free; lia).
    pose proof (split_slash_nonempty t). destruct (split_slash t) as [|x l]; [done|]. by exists x, l.
  - intros (x & l & Hk). rewrite <- (join_split k), Hk. apply prefix_spec. exists (join_with "/" (x :: l)). by rewrite string_app_assoc.
Qed.

Lemma piece_generation g key bytes k v :
  storable (key, bytes) → (k, v) ∈ pieces (key, bytes) →
  String.prefix (generation_prefix g) k = String.prefix (generation_prefix g) key.
Proof.
  intros Hst Hp. pose proof (so_key _ Hst) as Hkey. apply eq_true_iff_eq. rewrite !generation_key.
  destruct (pieces_key _ _ _ Hst Hp) as [->|(i & _ & -> & _)]; [done|]. unfold six in Hkey. simpl in *. rewrite fragment_segments.
  destruct (split_slash key) as [|a [|b l]]; [done..|]. simpl. naive_solver.
Qed.

Lemma record_generation g k : key_ok k = true → String.prefix (generation_prefix g) (record_key g k) = true.
Proof. intros Hk. apply generation_key. rewrite split_record_key by done. eauto. Qed.

(** The rows of a generation are the pieces of its records. *)
Lemma generation_rows T L g :
  holds T L →
  collect_app_prefix T (generation_prefix g) ≡ₚ
    concat (pieces <$> map_to_list (filter (λ row, String.prefix (generation_prefix g) row.1 = true) L)).
Proof.
  intros HT. set (Lg := filter _ L).
  assert (∀ key bytes, Lg !! key = Some bytes ↔ L !! key = Some bytes ∧ String.prefix (generation_prefix g) key = true) as HLg.
  { intros key bytes. unfold Lg. by rewrite map_lookup_filter_Some. }
  apply NoDup_Permutation.
  - apply (NoDup_fmap_1 fst), collected_NoDup.
  - apply (NoDup_fmap_1 fst), all_pieces_NoDup; [|apply NoDup_fst_map_to_list].
    apply Forall_forall. intros [key bytes] [HL _]%elem_of_map_to_list%HLg. by eapply ho_storable.
  - intros [k v]. rewrite elem_of_collected, all_pieces, (ho_rows _ _ HT). split.
    + intros [(key & bytes & HL & Hp) Hpre]. exists (key, bytes). split; [|done]. apply elem_of_map_to_list, HLg. split; [done|].
      rewrite <- Hpre. symmetry. eapply piece_generation; [by eapply ho_storable|done].
    + intros ([key bytes] & [HL Hpre]%elem_of_map_to_list%HLg & Hp). split; [eauto|]. rewrite <- Hpre.
      eapply piece_generation; [by eapply ho_storable|done].
Qed.

(** No record of a state's rows marks a run as retired. *)
Definition unmarked g rows : Prop :=
  ∀ key bytes, rows !! key = Some bytes → six key ∧ String.prefix (generation_prefix g) key = true ∧ piece (split_slash key) 2 ≠ "retired_runs".

Lemma no_markers T g rows : stores T g rows → unmarked g rows → retired_record_visibility T g = Ok ∅.
Proof.
  intros (L & HT & HL) Hrows. unfold retired_record_visibility. enough (collect_app_prefix T (generation_prefix g +:+ "global/retired_runs/map/") = []) as -> by done.
  apply elem_of_nil_inv. intros [k v] [(key & bytes & Hget & Hp)%(ho_rows _ _ HT) [t Ht]%prefix_spec]%elem_of_collected.
  assert (split_slash k = hex16 g :: "global" :: "retired_runs" :: "map" :: split_slash t) as Hk.
  { rewrite Ht. unfold generation_prefix. rewrite !string_app_assoc.
    change ("global/retired_runs/map/" +:+ t) with ("global" +:+ "/" +:+ ("retired_runs" +:+ "/" +:+ ("map" +:+ "/" +:+ t))).
    by rewrite !split_slash_concat, (split_slash_free (hex16 g)) by (apply digits_slash_free; lia). }
  pose proof (ho_storable _ _ HT _ _ Hget) as Hst.
  assert (String.prefix (generation_prefix g) key = true) as Hpre.
  { rewrite <- (piece_generation g key bytes k v) by done. apply generation_key. rewrite Hk. eauto. }
  specialize (HL key Hpre). rewrite Hget in HL. inversion HL as [? value Hsame Heq1 Heq2|]; subst.
  symmetry in Heq2. destruct (Hrows _ _ Heq2) as (Hsix & _ & Hfield). apply Hfield.
  destruct (pieces_key _ _ _ Hst Hp) as [Heq|(i & _ & Heq & _)]; simpl in Heq; rewrite Heq in Hk; [by rewrite Hk|].
  rewrite fragment_segments in Hk. unfold six in Hsix. unfold piece. rewrite <- (lookup_app_l _ ["fragment"; dec8 i]) by lia. by rewrite Hk.
Qed.

Lemma encoded_unmarked state defaults fields g r rows :
  documented state defaults fields → 1 ≤ r ≤ u64_max → encode state g r = Ok rows → unmarked g rows.
Proof.
  intros Hstate Hr Henc key bytes Hget. destruct (encoded_rows _ _ _ _ _ _ Hstate Hr Henc) as [Hrow _].
  destruct (Hrow _ _ Hget) as (it & [= -> ->] & (_ & Hkey & _) & Hf). split; [unfold six; by rewrite split_record_key|].
  split; [by apply record_generation|]. by rewrite split_record_key.
Qed.

(** A table that stores the rows of a state loads as the state. *)
Lemma stored_loads T g r state defaults fields rows :
  documented state defaults fields → 1 ≤ r ≤ u64_max → encode state g r = Ok rows → stores T g rows →
  validate_persisted_state state = Ok tt → load_app_generation T g = Ok state.
Proof.
  intros Hstate Hr Henc Hstores Hvalid. pose proof (encoded_unmarked _ _ _ _ _ _ Hstate Hr Henc) as Hun.
  unfold load_app_generation. rewrite (no_markers T g rows) by done. cbn [mbind Outcome_bind].
  assert (∀ l, List.filter (λ row : string * string, negb (hidden_retired_physical row.1 ∅)) l = l) as Hkeep.
  { intros l. induction l as [|[k v] l IH]; [done|]. simpl. rewrite IH. unfold hidden_retired_physical. destruct (6 <=? _)%nat; [|done].
    by destruct (run_piece _). }
  rewrite Hkeep. destruct Hstores as (L & HT & HL). pose proof (generation_rows T L g HT) as Hrows. set (Lg := filter _ L) in Hrows.
  assert (∀ key, option_Forall2 same_record (Lg !! key) (rows !! key)) as HLg.
  { intros key. destruct (String.prefix (generation_prefix g) key) eqn:Hpre.
    - unfold Lg. specialize (HL key Hpre). destruct (L !! key) as [b|] eqn:Hb; [by rewrite (map_lookup_filter_Some_2 _ L key b)|].
      by rewrite map_lookup_filter_None_2 by (by left).
    - unfold Lg. rewrite map_lookup_filter_None_2 by (right; intros ? _; simpl; congruence).
      destruct (rows !! key) as [b|] eqn:Hb; [|constructor]. destruct (Hun _ _ Hb) as (_ & Hp & _). congruence. }
  rewrite (restore_pieces (map_to_list Lg)); [| |apply NoDup_fst_map_to_list|done].
  2:{ apply Forall_forall. intros [key b] Hin%elem_of_map_to_list. apply map_lookup_filter_Some in Hin as [Hin _]. by eapply ho_storable. }
  rewrite list_to_map_to_list. cbn [sto map_err mbind Outcome_bind].
  set (l2 := (λ row, (row.1, default "" (rows !! row.1))) <$> in_key_order Lg).
  assert (Forall2 same_row (in_key_order Lg) l2) as Hsame.
  { unfold l2. rewrite Forall2_fmap_r. apply Forall_Forall2_diag, Forall_forall. intros [k b] Hin%elem_of_key_order. split; [done|].
    specialize (HLg k). rewrite Hin in HLg. inversion HLg as [? v Hs Heq1 Heq2|]; subst. simpl. by rewrite <- Heq2. }
  rewrite (decode_same _ l2) by done.
  assert (l2 ≡ₚ map_to_list rows) as Hperm.
  { apply NoDup_Permutation.
    - apply (NoDup_fmap_1 fst). unfold l2. rewrite <- list_fmap_compose. apply key_order_NoDup.
    - apply NoDup_map_to_list.
    - intros [k v]. unfold l2. rewrite list_elem_of_fmap, elem_of_map_to_list. specialize (HLg k). split.
      + intros ([k' b] & [= -> ->] & Hin%elem_of_key_order). rewrite Hin in HLg. by inversion HLg.
      + intros Hv. rewrite Hv in HLg. inversion HLg as [b ? _ Heq1 Heq2|]; subst. exists (k, b). simpl. rewrite Hv. split; [done|].
        by apply elem_of_key_order. }
  destruct (encoded_rows _ _ _ _ _ _ Hstate Hr Henc) as [_ Hdecode]. rewrite (Hdecode l2 Hperm). simpl. by rewrite Hvalid.
Qed.

Lemma supported_reading bytes r : record_from_json bytes = Ok r →
  vr_format r = RECORD_FORMAT ∨ vr_format r = RECORD_NEXT_FORMAT → vr_revision r ≠ 0 → reading bytes r.
Proof. intros Hread Hf Hr. split_and!; [done| |done]. unfold supported_record, contains. apply bool_decide_eq_true. destruct Hf as [->| ->]; set_solver. Qed.

Lemma item_writable g r it writer :
  item_ok it → 1 ≤ r ≤ u64_max → writer = 4 ∨ writer = 5 →
  (∀ w, for_writer (item_bytes r it) writer = Ok w → zlen_string w ≤ MAX_RECORD_BYTES) →
  writable writer (record_key g (item_key it)) (item_bytes r it).
Proof.
  intros Hit Hr Hwriter Hsize. pose proof Hit as (Hcanon & Hkey & Horder). destruct (item_written r it Hit ltac:(lia)) as [_ Hread].
  assert (reading (item_bytes r it) (item_record r it)) as Hitem by (apply supported_reading; [done|by left|simpl; lia]).
  assert (∃ format, (format = RECORD_FORMAT ∨ format = RECORD_NEXT_FORMAT) ∧
    for_writer (item_bytes r it) writer = record_to_json (mkVersionedRecord format r it.1.2 it.2)) as (format & Hformat & Hfor).
  { unfold for_writer. rewrite Hread. destruct Hitem as (_ & Hs & _). cbn [map_err mbind Outcome_bind]. rewrite Hs.
    simpl. rewrite (proj2 (Z.eqb_neq _ _)) by lia. destruct Hwriter as [->| ->]; simpl; eauto. }
  destruct (record_roundtrip (mkVersionedRecord format r it.1.2 it.2) Hcanon ltac:(simpl; lia) Horder) as (w & Hw & Hback).
  rewrite Hw in Hfor. split; [unfold six; by rewrite split_record_key|]. exists w. split; [done|]. split.
  - split; simpl; [unfold six; by rewrite split_record_key|by apply Hsize|by eapply record_is_no_header].
  - exists (mkVersionedRecord format r it.1.2 it.2), (item_record r it). split_and!; [|done..]. apply supported_reading; [done..|simpl; lia].
Qed.

Lemma stores_frame T T' L L' g :
  holds T L → holds T' L' → (∀ key, String.prefix (generation_prefix g) key = false → L' !! key = L !! key) →
  ∀ k, String.prefix (generation_prefix g) k = false → T' !! k = T !! k.
Proof.
  intros HT HT' HL k Hk. apply option_eq. intros v. rewrite (ho_rows _ _ HT), (ho_rows _ _ HT').
  split; intros (key & bytes & Hget & Hp); exists key, bytes; (split; [|done]).
  - rewrite <- HL; [done|]. rewrite <- Hk. symmetry. eapply piece_generation; [by eapply ho_storable|done].
  - rewrite HL; [done|]. rewrite <- Hk. symmetry. eapply piece_generation; [|done]. exact (ho_storable _ _ HT _ _ Hget).
Qed.

(** A state written whole is stored. *)
Lemma framed_holds T L : Forall storable (map_to_list L) → frame_records (map_to_list L) = Ok T → holds T L.
Proof.
  intros Hst Hframed. pose proof (NoDup_fst_map_to_list L) as Hkeys. rewrite (frame_records_ok _ Hst Hkeys) in Hframed.
  injection Hframed as <-. split; [intros key bytes Hget%elem_of_map_to_list; rewrite Forall_forall in Hst; by apply Hst|].
  intros k v. rewrite <- elem_of_list_to_map by (by apply all_pieces_NoDup). rewrite all_pieces. split.
  - intros ([key bytes] & Hin%elem_of_map_to_list & Hp). eauto.
  - intros (key & bytes & Hget%elem_of_map_to_list & Hp). eauto.
Qed.

Lemma encode_same state defaults fields g r r' rows rows' :
  documented state defaults fields → 1 ≤ r ≤ u64_max → 1 ≤ r' ≤ u64_max →
  encode state g r = Ok rows → encode state g r' = Ok rows' → ∀ key, option_Forall2 same_record (rows !! key) (rows' !! key).
Proof.
  intros Hstate Hr Hr' Henc Henc'. destruct (encode_items state defaults fields g r rows Hstate ltac:(lia) Henc) as (items & Hitems & Hnd & _ & Hall).
  pose proof (Hall r ltac:(lia)) as Hrows. rewrite Henc in Hrows. injection Hrows as ->.
  pose proof (Hall r' ltac:(lia)) as Hrows'. rewrite Henc' in Hrows'. injection Hrows' as ->.
  pose proof (document_ok_facts _ _ (doc_ok _ _ _ Hstate)) as Hdoc.
  assert (Forall item_ok items) as Hok.
  { apply Forall_forall. intros it [c Hc]%Hitems. exact (ro_item _ _ _ (typed_row_ok _ _ _ _ _ Hdoc Hc)). }
  clear -Hok Hr Hr' PlatformLaws0 RecordSerdeLaws0. intros key. induction Hok as [|it items Hit _ IH]; [simpl; rewrite !lookup_empty; constructor|]. simpl.
  destruct (decide (record_key g (item_key it) = key)) as [<-|Hd]; [|by rewrite !lookup_insert_ne].
  rewrite !lookup_insert_eq. constructor. destruct (item_written r it Hit ltac:(lia)) as [_ Ha].
  destruct (item_written r' it Hit ltac:(lia)) as [_ Hb]. exists (item_record r it), (item_record r' it).
  split_and!; [apply supported_reading; [done|by left|simpl; lia]..|done|done].
Qed.

Lemma written_stores T state defaults fields g r r' rows rows' :
  documented state defaults fields → 1 ≤ r ≤ u64_max → 1 ≤ r' ≤ u64_max →
  encode state g r = Ok rows → encode state g r' = Ok rows' →
  (∀ key bytes, rows !! key = Some bytes → zlen_string bytes ≤ MAX_RECORD_BYTES) →
  frame_records (map_to_list rows) = Ok T → stores T g rows'.
Proof.
  intros Hstate Hr Hr' Henc Henc' Hsize Hframed. exists rows. split; [|intros key _; exact (encode_same _ _ _ _ _ _ _ _ Hstate Hr Hr' Henc Henc' key)].
  apply framed_holds; [|done]. apply Forall_forall. intros [key bytes] Hget%elem_of_map_to_list.
  destruct (encoded_rows _ _ _ _ _ _ Hstate Hr Henc) as [Hrow _]. destruct (Hrow _ _ Hget) as (it & Heq & Hit & _).
  rewrite Heq. apply item_storable; [done..|]. injection Heq as _ Hb. rewrite <- Hb. by eapply Hsize.
Qed.

End Generations.
