(* ===== verification/AppliedFacts.v ===== *)
(** * What the rows of an entry keep

    The entries of a list keep their order when only those of some runs are
    written again; the part of the state that is encoded has the schedules of the
    runs; and the rows of other runs stay as they are. *)
From stdpp Require Import base option gmap strings list sorting fin_sets.
From Stdlib Require Import ZArith Ascii Lia.
From S2P Require Import Prelude Value ValueFacts Ids IdsFacts Policy Catalog Ir Domain Eval Evolve History Publication FormatUpgrade Replica Snapshot SnapshotFacts RecordStore RowDelta Applied EntryRows RecordFacts RecordDecode RecordFragments DeltaFacts Steps Schedule EvolveFacts.

(** ** Numbers of list entries *)
Section ListOrder.
Context `{P : Platform} `{!PlatformLaws P} `{RS : RecordSerde} `{!RecordSerdeLaws RS}.
Implicit Types (rows previous : Rows) (runs : list RunId.t) (generation revision : Z).

(** The row of an entry of a list. *)
Definition entry_row (generation : Z) (field : string) (value : Json) : option string :=
  match list_identity field value with
  | Ok (run, identity) => Some (record_key generation (mkRowKey (Some run) field "list" identity None))
  | _ => None
  end.

(** The number that [rows] have for an entry. *)
Definition number_of generation rows (field : string) (value : Json) : option Z :=
  key ← entry_row generation field value;
  bytes ← rows !! key;
  match record_from_json bytes with Ok r => vr_order r | _ => None end.

(** Entries keep the numbers they have; the others get the next ones. *)
Fixpoint assign generation previous (field : string) (next : Z) (entries : list Json) : list Z * Z :=
  match entries with
  | [] => ([], next)
  | value :: entries =>
      match number_of generation previous field value with
      | Some order => let '(orders, after) := assign generation previous field next entries in (order :: orders, after)
      | None => let '(orders, after) := assign generation previous field (next + 1) entries in (next :: orders, after)
      end
  end.

Definition of_runs runs (field : string) (value : Json) : Prop :=
  ∃ run identity, list_identity field value = Ok (run, identity) ∧ run ∈ RunId.to_hex <$> runs.

Lemma insert_ok generation revision rows key order value rows' :
  insert generation revision rows (key, order, value) = Ok rows' →
  ∃ bytes, record_to_json (mkVersionedRecord RECORD_FORMAT revision order value) = Ok bytes ∧
    rows !! record_key generation key = None ∧ rows' = <[record_key generation key := bytes]> rows.
Proof.
  unfold insert. destruct (record_to_json _) as [bytes| |]; simpl; [|done..]. case_bool_decide as Hnone; [done|]. intros [= <-].
  exists bytes. split_and!; [done|by apply eq_None_not_Some|done].
Qed.

Lemma number_one generation revision runs previous field rows next value rows' next' :
  number_entry generation revision runs previous field (rows, next) value = Ok (rows', next') → of_runs runs field value →
  ∃ key order, entry_row generation field value = Some key ∧ rows !! key = None ∧
    (∃ bytes, record_to_json (mkVersionedRecord RECORD_FORMAT revision (Some order) value) = Ok bytes ∧ rows' = <[key := bytes]> rows) ∧
    match number_of generation previous field value with
    | Some old => order = old ∧ next' = next
    | None => order = next ∧ next' = next + 1 ∧ next ≠ u64_max
    end.
Proof.
  intros Hn (run & identity & Hid & Hrun). unfold number_entry in Hn. rewrite Hid in Hn. cbn [mbind Outcome_bind] in Hn.
  rewrite bool_decide_eq_true_2 in Hn by done. cbn [negb] in Hn.
  set (key := mkRowKey (Some run) field "list" identity None) in Hn.
  assert (entry_row generation field value = Some (record_key generation key)) as Hrow by (unfold entry_row; by rewrite Hid).
  unfold number_of. rewrite Hrow. simpl. exists (record_key generation key). destruct (previous !! record_key generation key) as [old|]; simpl.
  - destruct (record_from_json old) as [r| |]; cbn [map_err ok_or mbind Outcome_bind negb] in Hn; [|done..]. destruct (negb _); [done|]. destruct (vr_order r) as [order|]; cbn [map_err ok_or mbind Outcome_bind negb] in Hn; [|done].
    destruct (insert _ _ _ _) as [rows1| |] eqn:Hins; cbn [map_err ok_or mbind Outcome_bind negb] in Hn; [|done..]. injection Hn as <- <-. apply insert_ok in Hins as (bytes & Hb & Hnone & ->).
    exists order. split_and!; eauto.
  - destruct (Z.eqb_spec next u64_max) as [|Hmax]; cbn [map_err ok_or mbind Outcome_bind negb] in Hn; [done|].
    destruct (insert _ _ _ _) as [rows1| |] eqn:Hins; cbn [map_err ok_or mbind Outcome_bind negb] in Hn; [|done..]. injection Hn as <- <-. apply insert_ok in Hins as (bytes & Hb & Hnone & ->).
    exists next. split_and!; eauto.
Qed.

Lemma number_written generation rows field value key bytes order revision :
  entry_row generation field value = Some key → rows !! key = Some bytes → json_canonical value = true → 0 ≤ revision ≤ u64_max →
  0 ≤ order ≤ u64_max → record_to_json (mkVersionedRecord RECORD_FORMAT revision (Some order) value) = Ok bytes →
  number_of generation rows field value = Some order.
Proof.
  intros Hkey Hrow Hcanon Hrev Horder Hb. unfold number_of. rewrite Hkey. simpl. rewrite Hrow. simpl.
  destruct (record_roundtrip (mkVersionedRecord RECORD_FORMAT revision (Some order) value)) as (b & Hb' & Hread); [done..|by intros o [= <-]|].
  rewrite Hb in Hb'. injection Hb' as <-. by rewrite Hread.
Qed.

Lemma number_all generation revision runs previous field entries rows next rows' next' :
  outcome_fold (number_entry generation revision runs previous field) (rows, next) entries = Ok (rows', next') →
  Forall (of_runs runs field) entries → Forall (λ value, json_canonical value = true) entries →
  0 ≤ revision ≤ u64_max → 0 ≤ next ≤ u64_max →
  (∀ value order, number_of generation previous field value = Some order → 0 ≤ order ≤ u64_max) →
  (assign generation previous field next entries).2 = next' ∧
  Forall2 (λ value order, number_of generation rows' field value = Some order) entries (assign generation previous field next entries).1 ∧
  (∀ key bytes, rows !! key = Some bytes → rows' !! key = Some bytes) ∧ next ≤ next' ≤ u64_max.
Proof.
  intros Hfold Hof Hcanon Hrev. revert rows next Hfold. induction entries as [|value entries IH]; intros rows next Hfold Hnext Hold; cbn [outcome_fold assign] in *.
  { injection Hfold as <- <-. split_and!; [done|constructor|done|lia..]. }
  destruct (number_entry _ _ _ _ _ _ _) as [[rows1 next1]| |] eqn:Hone; simpl in Hfold; [|done..].
  inversion Hof as [|? ? Hv Hof']; subst. inversion Hcanon as [|? ? Hc Hcanon']; subst.
  destruct (number_one _ _ _ _ _ _ _ _ _ _ Hone Hv) as (key & order & Hkey & Hnone & (bytes & Hb & ->) & Hnumber).
  assert (0 ≤ order ≤ u64_max ∧ next ≤ next1 ≤ u64_max) as [Horder Hnext1].
  { destruct (number_of _ previous _ _) as [old|] eqn:Hn; [destruct Hnumber as [-> ->]; split; [by eapply Hold|lia]|].
    destruct Hnumber as (-> & -> & ?). lia. }
  destruct (IH Hof' Hcanon' _ _ Hfold ltac:(lia) Hold) as (Hn' & Hall & Hkeep & Hle).
  assert (number_of generation rows' field value = Some order) as Hthis.
  { refine (number_written _ _ _ _ _ _ _ revision Hkey _ Hc Hrev Horder Hb). apply Hkeep, lookup_insert_eq. }
  assert (∀ k b, rows !! k = Some b → rows' !! k = Some b) as Hkeep'.
  { intros k b Hk. apply Hkeep. rewrite lookup_insert_ne; [done|]. intros ->. congruence. }
  destruct (number_of _ previous _ _) as [old|] eqn:Hn; [destruct Hnumber as [-> ->]|destruct Hnumber as (-> & -> & _)];
    destruct (assign _ _ _ _ entries) as [orders n] eqn:Ha; simpl in *; (split_and!; [exact Hn'|constructor; [exact Hthis|exact Hall]|exact Hkeep'|lia..]).
Qed.

(** Old entries in the order of their numbers, followed by new ones, get increasing numbers. *)
Lemma assign_new generation previous field next entries :
  Forall (λ value, number_of generation previous field value = None) entries →
  StronglySorted Z.lt (assign generation previous field next entries).1 ∧
  Forall (λ order, next ≤ order < (assign generation previous field next entries).2) (assign generation previous field next entries).1 ∧
  next ≤ (assign generation previous field next entries).2.
Proof.
  intros Hall. revert next. induction Hall as [|value entries Hv _ IH]; intros next; cbn [assign]; [split_and!; [constructor..|simpl; lia]|].
  rewrite Hv. specialize (IH (next + 1)). destruct (assign _ _ _ _ entries) as [orders n]. simpl in *. destruct IH as (Hs & Hb & Hn).
  split_and!; [constructor; [done|]|constructor; [lia|]|lia]; eapply Forall_impl; [exact Hb| |exact Hb|]; simpl; intros; lia.
Qed.

Lemma assign_app generation previous field next old new :
  Forall (λ value, is_Some (number_of generation previous field value)) old →
  assign generation previous field next (old ++ new) =
    (omap (number_of generation previous field) old ++ (assign generation previous field next new).1, (assign generation previous field next new).2).
Proof.
  induction 1 as [|value old [order Hv] _ IH]; simpl; [by destruct (assign _ _ _ _ new)|]. rewrite Hv, IH. done.
Qed.

Lemma stored_counter_range generation previous field counter :
  stored_counter generation previous field = Ok counter → 0 ≤ counter ≤ u64_max.
Proof.
  unfold stored_counter. destruct (previous !! _) as [bytes|]; [|done]. cbn [ok_or mbind Outcome_bind].
  destruct (record_from_json bytes) as [r| |]; [|done..]. cbn [map_err mbind Outcome_bind]. destruct (negb _ || _); [done|].
  destruct (vr_value r); try done. cbn [json_u64]. destruct (Z.leb_spec 0 n), (Z.leb_spec n u64_max); simpl; try done. intros [= <-]. lia.
Qed.

Lemma counter_written generation revision rows field next rows' :
  insert generation revision rows (order_row field, None, JInt next) = Ok rows' → 0 ≤ revision ≤ u64_max → 0 ≤ next ≤ u64_max →
  stored_counter generation rows' field = Ok next ∧ ∀ key bytes, rows !! key = Some bytes → rows' !! key = Some bytes.
Proof.
  intros (bytes & Hb & Hnone & ->)%insert_ok Hrev Hnext.
  destruct (record_roundtrip (mkVersionedRecord RECORD_FORMAT revision None (JInt next))) as (b & Hb' & Hread); [done..|].
  rewrite Hb in Hb'. injection Hb' as <-. split.
  - unfold stored_counter, order_key. rewrite lookup_insert_eq. cbn [ok_or mbind Outcome_bind]. rewrite Hread. simpl.
    by rewrite (proj2 (Z.leb_le 0 next)), (proj2 (Z.leb_le next u64_max)) by lia.
  - intros key b Hk. rewrite lookup_insert_ne; [done|]. intros <-. congruence.
Qed.

(** C15: writing the entries of some runs keeps the order of a list. When the
    entries that have a number come first, in the order of their numbers, and the
    others after them, as a list grows, the numbers written increase along the
    list, stay below the counter that is written, and no entry that had a number
    gets another. *)
Theorem list_order_survives generation revision runs previous field old new counter rows rows' :
  append_list generation revision runs previous rows (field, Ok (old ++ new)) = Ok rows' →
  stored_counter generation previous field = Ok counter →
  Forall (of_runs runs field) (old ++ new) → Forall (λ value, json_canonical value = true) (old ++ new) → 0 ≤ revision ≤ u64_max →
  (∀ value order, number_of generation previous field value = Some order → 0 ≤ order < counter) →
  Forall (λ value, is_Some (number_of generation previous field value)) old →
  StronglySorted Z.lt (omap (number_of generation previous field) old) →
  Forall (λ value, number_of generation previous field value = None) new →
  ∃ orders next, stored_counter generation rows' field = Ok next ∧ counter ≤ next ∧
    Forall2 (λ value order, number_of generation rows' field value = Some order) (old ++ new) orders ∧
    StronglySorted Z.lt orders ∧ Forall (λ order, order < next) orders ∧ take (length old) orders = omap (number_of generation previous field) old.
Proof.
  intros Happ Hcounter Hof Hcanon Hrev Hbound Hold Hsorted Hnew. unfold append_list in Happ. cbn [map_err mbind Outcome_bind] in Happ.
  rewrite Hcounter in Happ. cbn [mbind Outcome_bind] in Happ. pose proof (stored_counter_range _ _ _ _ Hcounter) as Hrange.
  destruct (outcome_fold _ _ _) as [[rows1 next]| |] eqn:Hfold; cbn [mbind Outcome_bind] in Happ; [|done..].
  destruct (number_all _ _ _ _ _ _ _ _ _ _ Hfold Hof Hcanon Hrev Hrange) as (Hnext & Hall & _ & Hle).
  { intros value order Hn. specialize (Hbound _ _ Hn). lia. }
  destruct (counter_written _ _ _ _ _ _ Happ Hrev ltac:(lia)) as [Hwritten Hkeep].
  assert (∀ value order, number_of generation rows1 field value = Some order → number_of generation rows' field value = Some order) as Hmono.
  { intros value order. unfold number_of. destruct (entry_row _ _ _) as [key|]; [|done]. simpl. destruct (rows1 !! key) as [b|] eqn:Hk; [|simpl; congruence].
    simpl. by rewrite (Hkeep _ _ Hk). }
  rewrite assign_app in Hall, Hnext by done. destruct (assign_new generation previous field counter new Hnew) as (Hs & Hb & _). simpl in Hnext, Hall.
  set (orders := omap _ old) in *. set (fresh := (assign _ _ _ _ _).1) in *. rewrite Hnext in Hb.
  assert (Forall (λ order, order < counter) orders) as Hsmall.
  { apply Forall_forall. intros order (value & _ & Hn)%list_elem_of_omap. apply Hbound in Hn. lia. }
  exists (orders ++ fresh), next. split_and!; [done|lia| | | |].
  - eapply Forall2_impl; [exact Hall|]. auto.
  - apply StronglySorted_app_2; [|done..]. intros a b Ha Hfresh. rewrite Forall_forall in Hsmall, Hb. specialize (Hsmall a Ha). specialize (Hb b Hfresh). simpl in *. lia.
  - apply Forall_app. split; eapply Forall_impl; [exact Hsmall| |exact Hb|]; simpl; intros; lia.
  - rewrite take_app_length'; [done|]. unfold orders. clear -Hold. induction Hold as [|value old [order Hv] _ IH]; [done|]. simpl. by rewrite Hv, IH.
Qed.
End ListOrder.

(** ** What events open *)
Section Owners.
Context `{P : Platform} `{!PlatformLaws P} `{CatalogSerde} `{Serde}.
Implicit Types s : State.

(** The runs that activations and waits belong to. *)
Definition owners (s : State) : gmap ActivationId.t RunId.t * gmap WaitId.t RunId.t := (as_run <$> activations s, wt_run <$> waits s).

Definition opens_activation (e : DomainEvent) (r : RunId.t) (a : ActivationId.t) : Prop :=
  (∃ scope node, e = ActivationOpened r scope a node) ∨
  ∃ saga forward handler version input error, e = CompensationStarted r saga forward a handler version input error.
Definition opens_wait (e : DomainEvent) (r : RunId.t) (w : WaitId.t) : Prop :=
  ∃ a signal key deadline from, e = WaitOpened r w a signal key deadline from.

Lemma fmap_keep {K A B} `{Countable K} (g : A → B) f k (m : gmap K A) : (∀ x, g (f x) = g x) → g <$> alter f k m = g <$> m.
Proof.
  intros Hf. apply map_eq. intros k'. rewrite !lookup_fmap. destruct (decide (k = k')) as [<-|Hd]; [|by rewrite lookup_alter_ne].
  rewrite lookup_alter_eq. destruct (m !! k); simpl; [by rewrite Hf|done].
Qed.
Lemma fmap_keep_all {K A B} `{Countable K} (g : A → B) f (m : gmap K A) : (∀ x, g (f x) = g x) → g <$> (f <$> m) = g <$> m.
Proof. intros Hf. rewrite <- map_fmap_compose. apply map_fmap_ext. intros; apply Hf. Qed.

Lemma evolve_owners s e s' : evolve s e = Ok s' →
  (∀ a r, (owners s').1 !! a = Some r → (owners s).1 !! a = Some r ∨ opens_activation e r a) ∧
  (∀ w r, (owners s').2 !! w = Some r → (owners s).2 !! w = Some r ∨ opens_wait e r w).
Proof.
  intros Hev. unfold owners, opens_activation, opens_wait. evolve_cases Hev; try (split; by left).
  all: repeat first [rewrite fmap_keep by (intros; by repeat case_match) | rewrite fmap_keep_all by (intros; by repeat case_match)].
  all: try (split; by left).
  all: split; intros ? ?; try (by left); rewrite fmap_insert; (intros [[<- <-]|[_ ?]]%lookup_insert_Some; [|by left]); simpl;
    first [right; by eauto 10|left; rewrite lookup_fmap; match goal with Hget : _ !! _ = Some _ |- _ => rewrite Hget end; done].
Qed.

Lemma apply_events_owners cid pid t evs s s' : apply_events_with_cause s evs cid pid t = Ok s' →
  (∀ a r, (owners s').1 !! a = Some r → (owners s).1 !! a = Some r ∨ ∃ e, e ∈ evs ∧ opens_activation e r a) ∧
  (∀ w r, (owners s').2 !! w = Some r → (owners s).2 !! w = Some r ∨ ∃ e, e ∈ evs ∧ opens_wait e r w).
Proof.
  unfold apply_events_with_cause. revert s. induction evs as [|e evs IH]; intros s; cbn [outcome_fold]; [intros [= <-]; split; by left|].
  destruct (apply_event_with_cause cid pid t s e) as [s1| |] eqn:He; cbn [mbind Outcome_bind]; [|done..]. intros Hrest.
  destruct (apply_event_split _ _ _ _ _ _ He) as (s2 & Hev & Hproj & _). destruct (IH _ Hrest) as [Ha Hw].
  destruct (evolve_owners _ _ _ Hev) as [Ha' Hw'].
  assert (owners s1 = owners s2) as Heq by (unfold owners; unfold projected in Hproj; by injection Hproj as _ _ -> -> _). rewrite Heq in *.
  split; intros k r Hk.
  - destruct (Ha k r Hk) as [[?|?]%Ha'|(e' & ? & ?)]; [by left|right; exists e; split; [by left|done]|right; exists e'; split; [by right|done]].
  - destruct (Hw k r Hk) as [[?|?]%Hw'|(e' & ? & ?)]; [by left|right; exists e; split; [by left|done]|right; exists e'; split; [by right|done]].
Qed.
End Owners.

(** ** The part of the state that is encoded *)
Section Selected.
Context `{P : Platform} `{!PlatformLaws P}.
Implicit Types (state selected s : State) (evs : list DomainEvent) (previous : Rows) (runs : list RunId.t).

Lemma hex_utf8 bytes : utf8_valid (hex_encode bytes) = true.
Proof.
  pose proof (hex_encode_digits bytes) as Hd. induction (hex_encode bytes) as [|c t IH]; [done|]. simpl in Hd. inversion Hd as [|? ? Hc Ht]; subst.
  cbn [utf8_valid]. rewrite (proj2 (Z.ltb_lt _ _)); [by apply IH|]. destruct Hc; lia.
Qed.

Lemma decode_hex_key bytes : decode_key (hex_encode (hex_encode bytes)) = Ok (hex_encode bytes).
Proof. unfold decode_key. rewrite hex_decode_encode. simpl. by rewrite hex_utf8. Qed.

(** [a] has nothing that [b] does not have, in the maps a schedule is made of. *)
Record within (a b : State) : Prop := mkWithin {
  wi_runs : Domain.runs a ⊆ Domain.runs b;
  wi_activations : activations a ⊆ activations b;
  wi_interventions : interventions a ⊆ interventions b;
  wi_waits : waits a ⊆ waits b;
}.

#[export] Instance within_preorder : PreOrder within.
Proof.
  split; [intros a; by split|]. intros a b c [Hr Ha Hi Hw] [Hr' Ha' Hi' Hw']. split; by etrans.
Qed.

Lemma copy_within {K V} `{Countable K} (source target : gmap K V) id :
  target ⊆ source → target ⊆ copy_entry source id target ∧ copy_entry source id target ⊆ source.
Proof.
  intros Ht. unfold copy_entry. destruct (source !! id) as [v|] eqn:Hv; [|done]. split; [|by apply insert_subseteq_l].
  rewrite map_subseteq_spec in *. intros k w Hk. destruct (decide (id = k)) as [<-|Hd]; [|by rewrite lookup_insert_ne].
  rewrite lookup_insert_eq. rewrite <- Hv. by apply Ht.
Qed.

Lemma copy_copies {K V} `{Countable K} (source target : gmap K V) id v :
  source !! id = Some v → copy_entry source id target !! id = Some v.
Proof. intros Hv. unfold copy_entry. rewrite Hv. apply lookup_insert_eq. Qed.

(** A step that copies from [state]: it loses nothing and invents nothing. *)
Definition copies state s s' : Prop := within s state → within s s' ∧ within s' state.

Lemma copies_id state s : copies state s s.
Proof. by split. Qed.

Lemma copies_trans state s1 s2 s3 : copies state s1 s2 → copies state s2 s3 → copies state s1 s3.
Proof. intros H1 H2 Hs. destruct (H1 Hs) as [? Hs2]. destruct (H2 Hs2). split; [by etrans|done]. Qed.

Lemma copies_fold {A} state (f : State → A → State) l s :
  (∀ s x, copies state s (f s x)) → copies state s (foldl f s l) ∧
  ∀ x, x ∈ l → ∃ s1, copies state s s1 ∧ copies state (f s1 x) (foldl f s l).
Proof.
  intros Hf. revert s. induction l as [|y l IH]; intros s; simpl; [split; [apply copies_id|by intros ? ?%elem_of_nil]|].
  destruct (IH (f s y)) as [Hall Hone]. split; [by eapply copies_trans|]. intros x [->|Hx]%elem_of_cons.
  - exists s. split; [apply copies_id|done].
  - destruct (Hone x Hx) as (s1 & H1 & H2). exists s1. split; [by eapply copies_trans|done].
Qed.

Lemma copies_same state s s' :
  Domain.runs s' = Domain.runs s → activations s' = activations s → interventions s' = interventions s → waits s' = waits s → copies state s s'.
Proof. intros Hr Ha Hi Hw [Hr' Ha' Hi' Hw']. split; split; by rewrite ?Hr, ?Ha, ?Hi, ?Hw. Qed.

Lemma select_activation_copies state s a : copies state s (select_activation state s a).
Proof.
  intros [Hr Ha Hi Hw]. destruct (copy_within _ _ a Ha), (copy_within _ _ a Hi). split; by split.
Qed.

Lemma select_command_copies state id s : copies state s (select_command state id s).
Proof.
  unfold select_command. repeat match goal with |- copies _ _ (_ _ ?inner) =>
    lazymatch inner with s => fail | _ => apply (copies_trans _ _ inner); [|generalize inner; intros; by apply copies_same] end end.
  by apply copies_same.
Qed.

Lemma select_wait_copies state s w : copies state s (upd_waits (copy_entry (waits state) w) s).
Proof. intros [Hr Ha Hi Hw]. destruct (copy_within _ _ w Hw). split; by split. Qed.

Lemma select_scope_copies state s i : copies state s (upd_scopes (copy_entry (scopes state) i) s).
Proof. by apply copies_same. Qed.

Lemma select_accepted_copies state s e : copies state s (select_accepted state s e).
Proof. by destruct e; apply copies_same. Qed.

(** *** What a run's rows and events touch *)
Definition touched_le (a b : Touched) : Prop :=
  to_scopes a ⊆ to_scopes b ∧ to_activations a ⊆ to_activations b ∧ to_waits a ⊆ to_waits b.

#[export] Instance touched_preorder : PreOrder touched_le.
Proof. split; [by intros a|]. intros a b c (?&?&?) (?&?&?). split_and!; by etrans. Qed.

Lemma touch_row_step state touched selected key touched' selected' :
  touch_row state (touched, selected) key = Ok (touched', selected') → touched_le touched touched' ∧ copies state selected selected'.
Proof.
  unfold touch_row. destruct (split_slash key !! 4%nat) as [e|]; simpl; [|done]. destruct (decode_key e) as [primary| |]; simpl; [|done..].
  repeat (case_bool_decide; [try (destruct (parsed _) as [id| |]; simpl; [|done..])|]); intros [= <- <-];
    (split; [unfold touched_le; set_solver|first [apply copies_id|by apply copies_same]]).
Qed.

Lemma touch_rows state touched selected keys touched' selected' :
  outcome_fold (touch_row state) (touched, selected) keys = Ok (touched', selected') →
  touched_le touched touched' ∧ copies state selected selected' ∧
  ∀ key, key ∈ keys → ∃ t1 s1 t2 s2, touch_row state (t1, s1) key = Ok (t2, s2) ∧ touched_le t2 touched'.
Proof.
  revert touched selected. induction keys as [|k keys IH]; intros touched selected; cbn [outcome_fold].
  { intros [= <- <-]. split_and!; [done|apply copies_id|by intros ? ?%elem_of_nil]. }
  destruct (touch_row state _ k) as [[t1 s1]| |] eqn:Hk; cbn [mbind Outcome_bind]; [|done..]. intros Hrest.
  destruct (touch_row_step _ _ _ _ _ _ Hk) as [Ht Hs]. destruct (IH _ _ Hrest) as (Ht' & Hs' & Hkeys). split_and!; [by etrans|by eapply copies_trans|].
  intros key [->|Hin]%elem_of_cons; [by exists touched, selected, t1, s1|by apply Hkeys].
Qed.

Lemma touch_events state run touched evs touched' :
  outcome_fold (touch_event state run) touched evs = Ok touched' →
  touched_le touched touched' ∧ ∀ e, e ∈ evs → ∃ t1 t2, touch_event state run t1 e = Ok t2 ∧ touched_le t2 touched'.
Proof.
  revert touched. induction evs as [|e evs IH]; intros touched; cbn [outcome_fold].
  { intros [= <-]. split; [done|by intros ? ?%elem_of_nil]. }
  destruct (touch_event state run touched e) as [t1| |] eqn:He; cbn [mbind Outcome_bind]; [|done..]. intros Hrest.
  assert (touched_le touched t1) as Ht.
  { unfold touch_event in He. destruct (event_owner state e) as [o| |]; simpl in He; [|done..]. case_bool_decide; injection He as <-; [|done].
    destruct e; unfold touched_le; set_solver. }
  destruct (IH _ Hrest) as [Ht' Hall]. split; [by etrans|]. intros e' [->|Hin]%elem_of_cons; [by exists touched, t1|by apply Hall].
Qed.

(** The row of an entry of a run. *)
Definition run_row (generation : Z) (run : RunId.t) (field id : string) : string :=
  record_key generation (mkRowKey (Some (RunId.to_hex run)) field "map" id None).

(** The row was stored, or an event opened it. *)
Definition known_activation generation previous evs (run : RunId.t) (a : ActivationId.t) : Prop :=
  is_Some (previous !! run_row generation run "activations" (ActivationId.to_hex a)) ∨
  ∃ e, e ∈ evs ∧ opens_activation e run a.
Definition known_wait generation previous evs (run : RunId.t) (w : WaitId.t) : Prop :=
  is_Some (previous !! run_row generation run "waits" (WaitId.to_hex w)) ∨
  ∃ e, e ∈ evs ∧ opens_wait e run w.

Lemma run_row_split generation run field id :
  slash_free field = true → split_slash (run_row generation run field id) =
    [hex16 generation; "run-" +:+ RunId.to_hex run; field; "map"; hex_encode id; ""].
Proof. intros Hf. unfold run_row. rewrite split_record_key; [done|]. unfold key_ok. simpl. rewrite Hf. simpl. apply hex_slash_free. Qed.

Lemma run_row_selected generation run field id previous :
  is_Some (previous !! run_row generation run field id) →
  run_row generation run field id ∈ List.filter (String.prefix (run_prefix generation run)) (in_key_order previous).*1.
Proof.
  intros [bytes Hb]. apply elem_of_filter_b. split.
  - apply prefix_spec. eexists. unfold run_row, run_prefix, record_key. simpl. by rewrite !string_app_assoc.
  - apply list_elem_of_fmap. exists (run_row generation run field id, bytes). split; [done|by apply elem_of_key_order].
Qed.

Lemma touch_row_eq state touched selected key : touch_row state (touched, selected) key =
  (encoded ← unwrap "index out of bounds" (split_slash key !! 4%nat);
   primary ← decode_key encoded;
   if bool_decide (piece (split_slash key) 2 = "scopes") then id ← parsed (ScopeId.from_hex primary); Ok (touch_scope id touched, selected)
   else if bool_decide (piece (split_slash key) 2 = "activations") then
     id ← parsed (ActivationId.from_hex primary); Ok (touch_activation id touched, selected)
   else if bool_decide (piece (split_slash key) 2 = "waits") then id ← parsed (WaitId.from_hex primary); Ok (touch_wait id touched, selected)
   else if bool_decide (piece (split_slash key) 2 = "signal_tombstones") then Ok (touched, select_tombstone state primary selected)
   else Ok (touched, selected)).
Proof. reflexivity. Qed.

Lemma touch_row_ok state generation run field id t1 s1 result :
  slash_free field = true → touch_row state (t1, s1) (run_row generation run field (hex_encode id)) = Ok result →
  (field = "activations" → ActivationId.from_hex (hex_encode id) = Ok (ActivationId.from_bytes id) → result = (touch_activation (ActivationId.from_bytes id) t1, s1)) ∧
  (field = "waits" → WaitId.from_hex (hex_encode id) = Ok (WaitId.from_bytes id) → result = (touch_wait (WaitId.from_bytes id) t1, s1)) ∧
  (field = "activations" ∨ field = "waits" → String.length id = 16%nat).
Proof.
  intros Hfield Hrow. pose proof (run_row_split generation run field (hex_encode id) Hfield) as Hsplit.
  remember (run_row generation run field (hex_encode id)) as key eqn:Hkey. clear Hkey.
  assert (split_slash key !! 4%nat = Some (hex_encode (hex_encode id))) as H4 by (by rewrite Hsplit).
  assert (piece (split_slash key) 2 = field) as H2 by (by rewrite Hsplit).
  rewrite touch_row_eq, H4, H2 in Hrow. apply outcome_bind_ok in Hrow as (encoded & He & (primary & Hp & Hrow)%outcome_bind_ok).
  injection He as <-. rewrite decode_hex_key in Hp. injection Hp as <-.
  split_and!.
  - intros -> Hhex. rewrite (bool_decide_eq_false_2 ("activations" = "scopes")), bool_decide_eq_true_2 in Hrow by done.
    rewrite Hhex in Hrow. cbn [parsed map_err mbind Outcome_bind] in Hrow. by injection Hrow as <-.
  - intros -> Hhex. rewrite (bool_decide_eq_false_2 ("waits" = "scopes")), (bool_decide_eq_false_2 ("waits" = "activations")), bool_decide_eq_true_2 in Hrow by done.
    rewrite Hhex in Hrow. cbn [parsed map_err mbind Outcome_bind] in Hrow. by injection Hrow as <-.
  - intros Hf. destruct (decide (String.length id = 16%nat)) as [|Hlen]; [done|exfalso]. destruct Hf as [-> | ->].
    + rewrite (bool_decide_eq_false_2 ("activations" = "scopes")), bool_decide_eq_true_2 in Hrow by done.
      unfold ActivationId.from_hex in Hrow. rewrite hex_decode_encode in Hrow. cbn [ok_or mbind Outcome_bind] in Hrow.
      rewrite (bool_decide_eq_false_2 _ Hlen) in Hrow. done.
    + rewrite (bool_decide_eq_false_2 ("waits" = "scopes")), (bool_decide_eq_false_2 ("waits" = "activations")), bool_decide_eq_true_2 in Hrow by done.
      unfold WaitId.from_hex in Hrow. rewrite hex_decode_encode in Hrow. cbn [ok_or mbind Outcome_bind] in Hrow.
      rewrite (bool_decide_eq_false_2 _ Hlen) in Hrow. done.
Qed.

Lemma row_touches state generation run field id t1 s1 t2 s2 :
  touch_row state (t1, s1) (run_row generation run field (hex_encode id)) = Ok (t2, s2) →
  (field = "activations" → ActivationId.from_bytes id ∈ to_activations t2) ∧ (field = "waits" → WaitId.from_bytes id ∈ to_waits t2).
Proof.
  intros Hrow. split; intros ->; apply touch_row_ok in Hrow as (Ha & Hw & Hlen); try done.
  - assert (ActivationId.from_hex (hex_encode id) = Ok (ActivationId.from_bytes id)) as Hhex.
    { unfold ActivationId.from_hex. rewrite hex_decode_encode. cbn [ok_or mbind Outcome_bind]. by rewrite bool_decide_eq_true_2 by auto. }
    injection (Ha eq_refl Hhex) as -> _. simpl. set_solver.
  - assert (WaitId.from_hex (hex_encode id) = Ok (WaitId.from_bytes id)) as Hhex.
    { unfold WaitId.from_hex. rewrite hex_decode_encode. cbn [ok_or mbind Outcome_bind]. by rewrite bool_decide_eq_true_2 by auto. }
    injection (Hw eq_refl Hhex) as -> _. simpl. set_solver.
Qed.

Lemma known_touched state generation previous evs run selected touched selected' touched' :
  outcome_fold (touch_row state) (mkTouched ∅ ∅ ∅, selected)
    (List.filter (String.prefix (run_prefix generation run)) (in_key_order previous).*1) = Ok (touched, selected') →
  outcome_fold (touch_event state run) touched evs = Ok touched' →
  (∀ a, known_activation generation previous evs run a → a ∈ to_activations touched') ∧
  (∀ w, known_wait generation previous evs run w → w ∈ to_waits touched').
Proof.
  intros (_ & _ & Hkeys)%touch_rows [(_ & Hact & Hwait) Hevs]%touch_events. split.
  - intros [a] [Hrow|(e & He & [(scope & node & ->)|(saga & forward & handler & version & input & error & ->)])].
    + destruct (Hkeys _ (run_row_selected _ _ _ _ _ Hrow)) as (t1 & s1 & t2 & s2 & Hstep & _ & Hle & _).
      apply Hact, Hle. by apply (row_touches _ _ _ _ _ _ _ _ _ Hstep).
    + destruct (Hevs _ He) as (t1 & t2 & Hstep & _ & Hle & _). unfold touch_event in Hstep. simpl in Hstep.
      rewrite bool_decide_eq_true_2 in Hstep by done. injection Hstep as <-. apply Hle. simpl. set_solver.
    + destruct (Hevs _ He) as (t1 & t2 & Hstep & _ & Hle & _). unfold touch_event in Hstep. simpl in Hstep.
      rewrite bool_decide_eq_true_2 in Hstep by done. injection Hstep as <-. apply Hle. simpl. set_solver.
  - intros [w] [Hrow|(e & He & a & signal & key & deadline & from & ->)].
    + destruct (Hkeys _ (run_row_selected _ _ _ _ _ Hrow)) as (t1 & s1 & t2 & s2 & Hstep & _ & _ & Hle).
      apply Hwait, Hle. by apply (row_touches _ _ _ _ _ _ _ _ _ Hstep).
    + destruct (Hevs _ He) as (t1 & t2 & Hstep & _ & _ & Hle). unfold touch_event in Hstep. simpl in Hstep.
      rewrite bool_decide_eq_true_2 in Hstep by done. injection Hstep as <-. apply Hle. simpl. set_solver.
Qed.

(** [s] has what [state] knows of the run. *)
Record has_run generation previous evs state s (run : RunId.t) : Prop := mkHasRun {
  hr_run : Domain.runs s !! run = Domain.runs state !! run;
  hr_activations : ∀ a act, known_activation generation previous evs run a → activations state !! a = Some act → activations s !! a = Some act;
  hr_interventions : ∀ a i, known_activation generation previous evs run a → interventions state !! a = Some i → interventions s !! a = Some i;
  hr_waits : ∀ w wt, known_wait generation previous evs run w → waits state !! w = Some wt → waits s !! w = Some wt;
}.

Lemma has_run_mono generation previous evs state s s' run :
  within s s' → within s' state → has_run generation previous evs state s run → has_run generation previous evs state s' run.
Proof.
  intros [Hr Ha Hi Hw] [Hr' _ _ _] [Hrun Hact Hint Hwait]. split.
  - destruct (Domain.runs state !! run) as [r|] eqn:Hst.
    + eapply lookup_weaken; [exact Hrun|done].
    + destruct (Domain.runs s' !! run) as [r|] eqn:Hs'; [|done]. by rewrite (lookup_weaken _ _ _ _ Hs' Hr') in Hst.
  - intros. eapply lookup_weaken; [by eapply Hact|done].
  - intros. eapply lookup_weaken; [by eapply Hint|done].
  - intros. eapply lookup_weaken; [by eapply Hwait|done].
Qed.

Lemma select_run_copies state generation previous evs selected run selected' :
  select_run state generation previous evs selected run = Ok selected' →
  copies state selected selected' ∧ (within selected state → has_run generation previous evs state selected' run).
Proof.
  unfold select_run. destruct (outcome_fold (touch_row state) _ _) as [[touched s1]| |] eqn:Hrows; cbn [mbind Outcome_bind]; [|done..].
  destruct (outcome_fold (touch_event state run) _ _) as [touched'| |] eqn:Hevents; cbn [mbind Outcome_bind]; [|done..].
  set (s2 := upd_terminal_summaries _ _). set (s3 := foldl _ s2 _). set (s4 := foldl _ s3 _). intros [= <-]. set (s5 := foldl _ s4 _).
  destruct (touch_rows _ _ _ _ _ _ Hrows) as (_ & H1 & _). destruct (known_touched _ _ _ _ _ _ _ _ _ Hrows Hevents) as [Hact Hwait].
  assert (copies state s1 s2) as H2.
  { intros [Hr Ha Hi Hw]. destruct (copy_within _ _ run Hr). split; by split. }
  destruct (copies_fold state (λ s id, upd_scopes (copy_entry (scopes state) id) s) (elements (to_scopes touched')) s2) as [H3 _];
    [intros; apply select_scope_copies|]. change (copies state s2 s3) in H3.
  destruct (copies_fold state (select_activation state) (elements (to_activations touched')) s3) as [H4 Ha4];
    [intros; apply select_activation_copies|]. change (copies state s3 s4) in H4.
  destruct (copies_fold state (λ s id, upd_waits (copy_entry (waits state) id) s) (elements (to_waits touched')) s4) as [H5 Hw5];
    [intros; apply select_wait_copies|]. change (copies state s4 s5) in H5.
  split; [by repeat (eapply copies_trans; [eassumption|])|]. intros Hin.
  destruct (H1 Hin) as [_ Hin1]. destruct (H2 Hin1) as [_ Hin2]. destruct (H3 Hin2) as [W3 Hin3]. destruct (H4 Hin3) as [W4 Hin4]. destruct (H5 Hin4) as [W5 Hin5].
  assert (Domain.runs s2 !! run = Domain.runs state !! run) as Hrun2.
  { unfold s2. simpl. destruct (Domain.runs state !! run) as [r|] eqn:Hr; [by apply copy_copies|].
    unfold copy_entry. rewrite Hr. destruct (Domain.runs s1 !! run) as [r|] eqn:Hs1; [|done]. by rewrite (lookup_weaken _ _ _ _ Hs1 (wi_runs _ _ Hin1)) in Hr. }
  assert (within s2 s5) as W25 by (by etrans; [exact W3|etrans]).
  assert (∀ a, known_activation generation previous evs run a → ∃ sx, within (select_activation state sx a) s5) as Hsel.
  { intros a Hk. destruct (Ha4 a) as (sx & Hx & Hy); [by apply elem_of_elements, Hact|]. destruct (Hx Hin3) as [_ Hinx].
    destruct (select_activation_copies state sx a Hinx) as [_ Hsx]. destruct (Hy Hsx) as [Wy _]. exists sx. by etrans. }
  split.
  - destruct (Domain.runs state !! run) as [r|] eqn:Hr; [by eapply lookup_weaken; [exact Hrun2|apply W25]|].
    destruct (Domain.runs s5 !! run) as [r|] eqn:Hs5; [|done]. by rewrite (lookup_weaken _ _ _ _ Hs5 (wi_runs _ _ Hin5)) in Hr.
  - intros a act Hk Hst. destruct (Hsel a Hk) as [sx Wx]. eapply lookup_weaken; [|apply (wi_activations _ _ Wx)]. by apply copy_copies.
  - intros a i Hk Hst. destruct (Hsel a Hk) as [sx Wx]. eapply lookup_weaken; [|apply (wi_interventions _ _ Wx)]. by apply copy_copies.
  - intros w wt Hk Hst. destruct (Hw5 w) as (sx & Hx & Hy); [by apply elem_of_elements, Hwait|]. destruct (Hx Hin4) as [_ Hinx].
    destruct (select_wait_copies state sx w Hinx) as [_ Hsx]. destruct (Hy Hsx) as [Wy _].
    eapply lookup_weaken; [|apply (wi_waits _ _ Wy)]. by apply copy_copies.
Qed.

Lemma select_runs state generation previous evs runs selected selected' :
  outcome_fold (select_run state generation previous evs) selected runs = Ok selected' → within selected state →
  within selected selected' ∧ within selected' state ∧ ∀ run, run ∈ runs → has_run generation previous evs state selected' run.
Proof.
  revert selected. induction runs as [|r runs IH]; intros selected; cbn [outcome_fold].
  { intros [= <-] Hin. split_and!; [done..|by intros ? ?%elem_of_nil]. }
  destruct (select_run _ _ _ _ _ _) as [s1| |] eqn:Hr; cbn [mbind Outcome_bind]; [|done..]. intros Hrest Hin.
  destruct (select_run_copies _ _ _ _ _ _ _ Hr) as [Hc Hhas]. destruct (Hc Hin) as [W1 Hin1]. destruct (IH _ Hrest Hin1) as (W2 & Hin2 & Hall).
  split_and!; [by etrans|done|]. intros run [->|Hrun]%elem_of_cons; [|by apply Hall]. by eapply has_run_mono; [..|by apply Hhas].
Qed.

Lemma select_applied_has state generation runs evs command_id sessions previous selected :
  select_applied state generation runs evs command_id sessions previous = Ok selected →
  within selected state ∧ ∀ run, run ∈ runs → has_run generation previous evs state selected run.
Proof.
  unfold select_applied. set (s1 := match command_id with Some _ => _ | None => _ end). set (s2 := foldl _ s1 sessions). set (s3 := foldl _ s2 evs).
  intros Hruns. assert (within (select_globals state) state) as H0 by (split; apply map_empty_subseteq).
  assert (copies state (select_globals state) s1) as H1 by (unfold s1; destruct command_id; [apply select_command_copies|apply copies_id]).
  destruct (copies_fold state (select_session state) sessions s1) as [H2 _]; [intros; by apply copies_same|]. change (copies state s1 s2) in H2.
  destruct (copies_fold state (select_accepted state) evs s2) as [H3 _]; [intros; apply select_accepted_copies|]. change (copies state s2 s3) in H3.
  destruct (H1 H0) as [_ Hin1]. destruct (H2 Hin1) as [_ Hin2]. destruct (H3 Hin2) as [_ Hin3].
  destruct (select_runs _ _ _ _ _ _ _ Hruns Hin3) as (_ & Hin & Hall). done.
Qed.

(** *** Schedules *)
Lemma foldl_perm {A B} (f : A → B → A) l1 l2 acc :
  (∀ acc x y, f (f acc x) y = f (f acc y) x) → l1 ≡ₚ l2 → foldl f acc l1 = foldl f acc l2.
Proof.
  intros Hf Hperm. revert acc. induction Hperm as [|x l1 l2 _ IH|x y l|l1 l2 l3 _ IH1 _ IH2]; intros acc; simpl; [done|by rewrite IH|by rewrite Hf|by rewrite IH1].
Qed.

Lemma foldl_ext_elem {A B} (f g : A → B → A) l acc :
  (∀ acc x, x ∈ l → f acc x = g acc x) → foldl f acc l = foldl g acc l.
Proof.
  revert acc. induction l as [|x l IH]; intros acc Hf; simpl; [done|]. rewrite Hf by (by left). apply IH. intros. apply Hf. by right.
Qed.

Lemma list_min_perm l1 l2 : l1 ≡ₚ l2 → list_min l1 = list_min l2.
Proof. apply foldl_perm. intros [acc|] x y; unfold opt_min; f_equal; lia. Qed.

Lemma schedule_step_comm s now acc x y :
  schedule_step s now (schedule_step s now acc x) y = schedule_step s now (schedule_step s now acc y) x.
Proof.
  destruct acc as [deadline ready]. unfold schedule_step.
  assert (∀ a b, opt_min (opt_min deadline a) b = opt_min (opt_min deadline b) a) as Hmin.
  { intros a b. unfold opt_min. destruct deadline; f_equal; lia. }
  destruct (schedulable s x), (schedulable s y); cbn [negb]; try done;
  repeat match goal with
  | |- context [match as_claim ?z with _ => _ end] => destruct (as_claim z)
  | |- context [if now <? ?c then _ else _] => destruct (now <? c)
  end; try done; by rewrite Hmin.
Qed.

Lemma filter_b_perm {A} (p : A → bool) l k : l ≡ₚ k → List.filter p l ≡ₚ List.filter p k.
Proof.
  induction 1 as [|x l k _ IH|x y l|l1 l2 l3 _ IH1 _ IH2]; simpl; [done|by destruct (p x); rewrite IH| |by rewrite IH1].
  destruct (p x), (p y); try done. constructor.
Qed.

Lemma filtered_perm {K V} `{Countable K} (p : V → bool) (m1 m2 : gmap K V) :
  (∀ k v, p v = true → m1 !! k = Some v ↔ m2 !! k = Some v) → List.filter p (hm_values m1) ≡ₚ List.filter p (hm_values m2).
Proof.
  intros Hm. assert (∀ m : gmap K V, List.filter p (hm_values m) ≡ₚ (filter (λ kv : K * V, p kv.2 = true) (map_to_list m)).*2) as Hgen.
  { intros m. rewrite (filter_b_perm p _ _ (hm_values_perm m)). induction (map_to_list m) as [|[k v] l IH]; [done|].
    rewrite filter_cons. simpl. case_decide as Hp; simpl in Hp; [by rewrite Hp; simpl; rewrite IH|]. by destruct (p v). }
  rewrite !Hgen. apply fmap_Permutation, NoDup_Permutation; [apply NoDup_filter, NoDup_map_to_list..|].
  intros [k v]. rewrite !list_elem_of_filter, !elem_of_map_to_list. simpl. naive_solver.
Qed.

(** The waits of an activation are of its run. *)
Definition waits_follow_runs state : Prop :=
  ∀ w wt act, waits state !! w = Some wt → activations state !! wt_activation wt = Some act → wt_run wt = as_run act.

Lemma schedule_selected state generation runs evs command_id sessions previous selected run progress now revision :
  select_applied state generation runs evs command_id sessions previous = Ok selected → run ∈ runs →
  ids_wf state → waits_follow_runs state →
  (∀ a act, activations state !! a = Some act → as_run act = run → known_activation generation previous evs run a) →
  (∀ w wt, waits state !! w = Some wt → wt_run wt = run → known_wait generation previous evs run w) →
  schedule_from_state selected run progress now generation revision = schedule_from_state state run progress now generation revision.
Proof.
  intros Hsel Hrun Hids Hfollow Hacts Hwaits. destruct (select_applied_has _ _ _ _ _ _ _ _ Hsel) as [[_ Wa Wi Ww] Hhas].
  destruct (Hhas run Hrun) as [Hr Ha Hi Hw]. unfold schedule_from_state. rewrite Hr. destruct (Domain.runs state !! run) as [current|]; [|done]. simpl.
  destruct (negb (run_is_active current)); [done|].
  assert (list_min (omap wt_deadline_ms (List.filter (λ w, bool_decide (wt_run w = run) && wt_pending w) (hm_values (waits selected)))) =
    list_min (omap wt_deadline_ms (List.filter (λ w, bool_decide (wt_run w = run) && wt_pending w) (hm_values (waits state))))) as ->.
  { apply list_min_perm, omap_Permutation, filtered_perm. intros w wt Hp. to_prop. split; [intros; by eapply lookup_weaken|]. eauto. }
  set (deadline := list_min _).
  assert (List.filter (λ act, bool_decide (as_run act = run)) (hm_values (activations selected)) ≡ₚ
    List.filter (λ act, bool_decide (as_run act = run)) (hm_values (activations state))) as Hperm.
  { apply filtered_perm. intros a act Hp. to_prop. split; [intros; by eapply lookup_weaken|]. eauto. }
  rewrite (foldl_perm _ _ _ _ (schedule_step_comm selected now) Hperm).
  assert (foldl (schedule_step selected now) (deadline, false) (List.filter (λ act, bool_decide (as_run act = run)) (hm_values (activations state))) =
    foldl (schedule_step state now) (deadline, false) (List.filter (λ act, bool_decide (as_run act = run)) (hm_values (activations state)))) as ->; [|done].
  apply foldl_ext_elem. intros acc act [Hp (a & Hact)%elem_of_hm_values]%elem_of_filter_b. to_prop.
  pose proof (idw_activations _ Hids _ _ Hact : as_id act = a) as Hid.
  assert (schedulable selected act = schedulable state act) as Hsched; [|unfold schedule_step; by rewrite Hsched].
  unfold schedulable. rewrite Hid. f_equal; [f_equal; f_equal|].
  - f_equal. apply bool_decide_ext. destruct (interventions state !! a) as [i|] eqn:Hst; [by rewrite (Hi a i) by eauto|].
    destruct (interventions selected !! a) as [i|] eqn:Hs; [by rewrite (lookup_weaken _ _ _ _ Hs Wi) in Hst|done].
  - f_equal. apply eq_true_iff_eq. rewrite !existsb_elem. split; intros (wt & (w & Hwt)%elem_of_hm_values & Hcond); exists wt; (split; [|done]); apply elem_of_hm_values; exists w.
    + by eapply lookup_weaken.
    + to_prop. apply Hw; [|done]. apply (Hwaits w wt Hwt). rewrite (Hfollow w wt act Hwt); [done|]. congruence.
Qed.
End Selected.

Section Schedules.
Context `{P : Platform} `{!PlatformLaws P} `{CatalogSerde} `{Serde}.
Implicit Types (state before after selected : State) (evs : list DomainEvent) (previous : Rows) (runs : list RunId.t).

(** The rows that were read hold the activations and waits of the run. *)
Definition run_rows_read generation previous before (run : RunId.t) : Prop :=
  (∀ a act, activations before !! a = Some act → as_run act = run →
    is_Some (previous !! run_row generation run "activations" (ActivationId.to_hex a))) ∧
  ∀ w wt, waits before !! w = Some wt → wt_run wt = run → is_Some (previous !! run_row generation run "waits" (WaitId.to_hex w)).

(** C13: the schedule that is written with an entry is the run's. It is computed
    from the part of the state that was encoded: what the rows read back and the
    events of the entry name. When the rows are those of the state before the
    events, the schedule is the one of the whole new state. *)
Theorem selected_state_schedules before after state generation runs evs command_id sessions previous selected run progress now revision
    cause principal time :
  apply_events_with_cause before evs cause principal time = Ok after →
  activations state = activations after → waits state = waits after →
  ids_wf state → waits_follow_runs state → run_rows_read generation previous before run → run ∈ runs →
  select_applied state generation runs evs command_id sessions previous = Ok selected →
  schedule_from_state selected run progress now generation revision = schedule_from_state state run progress now generation revision.
Proof.
  intros [Hopenact Hopenwait]%apply_events_owners Hacts Hwaits Hids Hfollow [Hrows Hrows'] Hrun Hsel. unfold owners in *. simpl in *.
  eapply schedule_selected; [done..| |].
  - intros a act Ha Hr. destruct (Hopenact a run) as [Hbefore|Hopen].
    + rewrite lookup_fmap, <- Hacts, Ha. simpl. by rewrite Hr.
    + rewrite lookup_fmap in Hbefore. destruct (activations before !! a) as [act0|] eqn:Hold; [|done]. injection Hbefore as Hbefore. left. by eapply Hrows.
    + by right.
  - intros w wt Hw Hr. destruct (Hopenwait w run) as [Hbefore|Hopen].
    + rewrite lookup_fmap, <- Hwaits, Hw. simpl. by rewrite Hr.
    + rewrite lookup_fmap in Hbefore. destruct (waits before !! w) as [wt0|] eqn:Hold; [|done]. injection Hbefore as Hbefore. left. by eapply Hrows'.
    + by right.
Qed.
End Schedules.
