(* ===== verification/LocalFacts.v ===== *)
(** * An entry writes its own rows only

    Which rows [write_applied_delta] reads, encodes and writes: those of the runs of
    the entry, of its command and sessions, and the records every entry carries. *)
From stdpp Require Import base option gmap strings list sorting fin_sets.
From Stdlib Require Import ZArith Ascii Lia.
From S2P Require Import Prelude Value ValueFacts Ids IdsFacts Policy Catalog Ir Domain Eval Evolve History Publication FormatUpgrade Replica Snapshot SnapshotFacts RecordStore RowDelta Applied EntryRows RecordFacts RecordDecode RecordFragments DeltaFacts AppliedFacts.

Definition keys_in (Q : string → Prop) (rows : Rows) : Prop := ∀ key, is_Some (rows !! key) → Q key.

Lemma keys_in_empty Q : keys_in Q ∅.
Proof. intros key [v Hv]. by rewrite lookup_empty in Hv. Qed.

Lemma keys_in_insert (Q : string → Prop) rows key bytes : keys_in Q rows → Q key → keys_in Q (<[key := bytes]> rows).
Proof. intros Hrows Hkey k [v [[<- _]|[_ Hk]]%lookup_insert_Some]; [done|]. apply Hrows. by eexists. Qed.

(** ** Rows that may be written for a key *)

(** The physical rows of a record. *)
Definition row_of_key (key k : string) : Prop := k = key ∨ String.prefix (key +:+ "/fragment/") k = true.

Section Writing.
Context `{P : Platform} `{!PlatformLaws P} `{RS : RecordSerde}.
Implicit Types (table previous next : Rows).

Lemma stored_keys table key stored k :
  stored_app_record table key = Ok (Some stored) → k ∈ sa_keys stored → row_of_key key k.
Proof.
  unfold stored_app_record. destruct (table !! key) as [header|]; [|done]. cbv zeta.
  destruct (sto _) as [logical| |]; cbn [mbind Outcome_bind]; [|done..]. destruct (logical !! key); cbn [mbind Outcome_bind]; [|done].
  intros [= <-] Hin. change (k ∈ key :: (collect_app_prefix table (key +:+ "/fragment/")).*1) in Hin.
  apply elem_of_cons in Hin as [->|([k' v] & -> & [_ Hp]%elem_of_collected)%list_elem_of_fmap]; [by left|by right].
Qed.

Lemma framed_keys key value framed : frame_records [(key, value)] = Ok framed → keys_in (row_of_key key) framed.
Proof.
  unfold frame_records. cbn [outcome_fold]. destruct (frame_record ∅ (key, value)) as [rows| |] eqn:Hf; cbn [mbind Outcome_bind]; [|done..].
  intros [= <-]. unfold frame_record in Hf. destruct (_ <? _); [done|].
  assert (∀ message k bytes physical physical', insert_physical message k bytes physical = Ok physical' → physical' = <[k := bytes]> physical) as Hins.
  { intros message k bytes physical physical'. unfold insert_physical. case_bool_decide; [done|]. by intros [= <-]. }
  destruct (_ <=? _); [apply Hins in Hf as ->; apply keys_in_insert; [apply keys_in_empty|by left]|].
  destruct (_ <? _); [done|]. destruct (header_to_json _) as [head| |]; cbn [mbind Outcome_bind] in Hf; [|done..].
  destruct (insert_physical _ key head ∅) as [p1| |] eqn:H1; cbn [mbind Outcome_bind] in Hf; [|done..]. apply Hins in H1.
  refine (outcome_fold_inv (keys_in (row_of_key key)) _ _ p1 rows _ _ Hf); [|subst p1; apply keys_in_insert; [apply keys_in_empty|by left]].
  intros p [i fragment] p' Hp ->%Hins. apply keys_in_insert; [done|]. right. apply prefix_spec. exists (dec8 (Z.of_nat i)).
  unfold fragment_key. by rewrite string_app_assoc.
Qed.

Lemma remove_record_frame next table key old table' k :
  remove_record next table (key, old) = Ok table' → ¬ row_of_key key k → table' !! k = table !! k.
Proof.
  unfold remove_record. case_bool_decide; [by intros [= <-]|].
  destruct (stored_app_record table key) as [[stored|]| |] eqn:Hs; cbn [mbind Outcome_bind]; [|done..].
  destruct (sto _) as [same| |]; cbn [mbind Outcome_bind]; [|done..]. destruct same; [|done]. intros [= <-] Hk.
  rewrite remove_all_lookup, decide_False; [done|]. intros Hin. by apply Hk, (stored_keys _ _ _ _ Hs).
Qed.

Lemma write_record_frame previous writer table key value table' k :
  write_record previous writer table (key, value) = Ok table' → ¬ row_of_key key k → table' !! k = table !! k.
Proof.
  unfold write_record. intros (unchanged & _ & Hw)%outcome_bind_ok Hk. destruct unchanged; [by injection Hw as <-|].
  apply outcome_bind_ok in Hw as (stored & Hs & (table1 & Ht & (v & _ & (framed & Hf & [= <-])%outcome_bind_ok)%outcome_bind_ok)%outcome_bind_ok).
  rewrite insert_rows_lookup. destruct (framed !! k) as [b|] eqn:Hb.
  { destruct Hk. apply (framed_keys key v framed); [|by eexists]. destruct (frame_records [(key, v)]); simpl in Hf; congruence. }
  destruct stored as [stored|], (previous !! key) as [old|]; try done; [|by injection Ht as <-].
  apply outcome_bind_ok in Ht as (same & _ & Ht). destruct same; [|done]. injection Ht as <-.
  rewrite remove_all_lookup, decide_False; [done|]. intros Hin. by apply Hk, (stored_keys _ _ _ _ Hs).
Qed.

(** Writing a difference changes no rows but those of its records. *)
Lemma delta_frame writer table previous next table' k :
  write_record_delta writer table previous next = Ok table' →
  (∀ key, is_Some (previous !! key) ∨ is_Some (next !! key) → ¬ row_of_key key k) → table' !! k = table !! k.
Proof.
  unfold write_record_delta. intros (table1 & Hr & Hw)%outcome_bind_ok Hk. trans (table1 !! k).
  - assert (∀ l t t', outcome_fold (write_record previous writer) t l = Ok t' → (∀ key value, (key, value) ∈ l → is_Some (next !! key)) → t' !! k = t !! k) as Hgen.
    { intros l. induction l as [|[key value] l IH]; intros t t'; cbn [outcome_fold]; [by intros [= <-]|].
      intros (t1 & H1 & H2)%outcome_bind_ok Hl. rewrite (IH _ _ H2) by (intros key' value' Hin; apply (Hl key' value'); by right).
      eapply write_record_frame; [exact H1|]. apply Hk. right. apply (Hl key value). by left. }
    apply (Hgen _ _ _ Hw). intros key value Hin%elem_of_key_order. by eexists.
  - assert (∀ l t t', outcome_fold (remove_record next) t l = Ok t' → (∀ key value, (key, value) ∈ l → is_Some (previous !! key)) → t' !! k = t !! k) as Hgen.
    { intros l. induction l as [|[key value] l IH]; intros t t'; cbn [outcome_fold]; [by intros [= <-]|].
      intros (t1 & H1 & H2)%outcome_bind_ok Hl. rewrite (IH _ _ H2) by (intros key' value' Hin; apply (Hl key' value'); by right).
      eapply remove_record_frame; [exact H1|]. apply Hk. left. apply (Hl key value). by left. }
    apply (Hgen _ _ _ Hr). intros key value Hin%elem_of_key_order. by eexists.
Qed.
End Writing.

(** ** The rows of an entry *)
Section Local.
Context `{P : Platform} `{!PlatformLaws P} `{SE : Serde} `{OS : OperationSerde} `{RS : RecordSerde} `{SS : StateSerde} `{IS : ItemSerde}.
Implicit Types (table previous next rows : Rows) (generation revision writer : Z) (runs : list RunId.t) (sessions : list WorkerSessionId.t).

(** A row of the entry's runs, command or sessions, or one that every entry writes. *)
Definition own_row generation runs (command_id : option CommandId.t) sessions (k : string) : Prop :=
  piece (split_slash k) 0 = hex16 generation ∧
  (keep_row runs command_id sessions k = Ok true ∨ piece (split_slash k) 1 = "global" ∧ piece (split_slash k) 2 ∈ ORDER_FIELDS).

(** It depends on the first five parts of the key, which a fragment has from its record. *)
Lemma own_row_fragment generation runs command_id sessions key k :
  (5 ≤ length (split_slash key))%nat → row_of_key key k →
  own_row generation runs command_id sessions key → own_row generation runs command_id sessions k.
Proof.
  intros Hlen [->|[t ->]%prefix_spec]; [done|]. rewrite string_app_assoc.
  change ("/fragment/" +:+ t) with ("/" +:+ ("fragment/" +:+ t)).
  assert (∀ i, (i < 5)%nat → piece (split_slash (key +:+ "/" +:+ ("fragment/" +:+ t))) i = piece (split_slash key) i) as Hpiece.
  { intros i Hi. rewrite split_slash_concat. unfold piece. by rewrite lookup_app_l by lia. }
  unfold own_row, keep_row. by rewrite !Hpiece by lia.
Qed.

Lemma run_key_own generation runs command_id sessions run rest :
  run ∈ runs → own_row generation runs command_id sessions (hex16 generation +:+ "/run-" +:+ RunId.to_hex run +:+ "/" +:+ rest).
Proof.
  intros Hrun.
  assert (split_slash (hex16 generation +:+ "/run-" +:+ RunId.to_hex run +:+ "/" +:+ rest) =
    hex16 generation :: ("run-" +:+ RunId.to_hex run) :: split_slash rest) as Hsplit.
  { change ("/run-" +:+ RunId.to_hex run +:+ "/" +:+ rest) with ("/" +:+ ("run-" +:+ (RunId.to_hex run +:+ "/" +:+ rest))).
    rewrite split_slash_app by (apply digits_slash_free; lia). f_equal. rewrite <- (string_app_assoc "run-" (RunId.to_hex run)).
    apply split_slash_app. rewrite slash_free_app. change (RunId.to_hex run) with (hex_encode (RunId.as_bytes run)). by rewrite hex_slash_free. }
  split; [by rewrite Hsplit|]. left. unfold keep_row. rewrite Hsplit. unfold piece. cbn [lookup list_lookup default from_option id].
  rewrite bool_decide_eq_false_2 by done. cbn [negb]. f_equal. apply existsb_elem. exists run. split; [done|by apply bool_decide_eq_true].
Qed.

Lemma restore_keys physical rows : restore_records physical = Ok rows → keys_in (λ k, k ∈ physical.*1 ∧ six k) rows.
Proof.
  unfold restore_records. intros ([heads frs] & Hsort & (heads' & Hasm & Hlast)%outcome_bind_ok)%outcome_bind_ok.
  destruct (existsb _ _); [done|]. injection Hlast as <-.
  assert (keys_in (λ k, k ∈ physical.*1 ∧ six k) heads) as Hheads.
  { destruct (outcome_fold_each (λ acc : Rows * gmap string (gmap Z string), keys_in (λ k, k ∈ physical.*1 ∧ six k) acc.1) (λ _, True)
      sort_physical physical (∅, ∅) (heads, frs)) as [H0 _]; [|apply keys_in_empty|done|done].
    intros [h f] [k v] [h' f'] Hin Hacc Hstep. split; [|done]. unfold sort_physical in Hstep. cbv zeta in Hstep.
    destruct (length _ =? 6)%nat eqn:Hsix.
    - unfold insert_physical in Hstep. destruct (bool_decide _); [done|]. cbn [mbind Outcome_bind] in Hstep. injection Hstep as <- <-.
      apply keys_in_insert; [done|]. split; [by apply (list_elem_of_fmap_2 fst _ _ Hin)|by apply Nat.eqb_eq].
    - destruct (_ && _); [|done]. destruct (ok_or _ _) as [index| |]; cbn [mbind Outcome_bind] in Hstep; [|done..].
      destruct (bool_decide _); [done|]. by injection Hstep as <- <-. }
  refine (outcome_fold_inv (keys_in (λ k, k ∈ physical.*1 ∧ six k)) _ _ heads heads' _ Hheads Hasm).
  intros h [key ch] h' Hacc Hstep. unfold assemble in Hstep. apply outcome_bind_ok in Hstep as (header & Hk & (manifest & _ & Hstep)%outcome_bind_ok).
  case_match; [done|]. apply outcome_bind_ok in Hstep as (assembled & _ & Hstep). case_match; [done|].
  injection Hstep as <-. apply keys_in_insert; [done|]. apply Hacc. destruct (h !! key); [by eexists|done].
Qed.

Lemma map_key_own generation runs command_id sessions field id :
  slash_free field = true → keep_row runs command_id sessions (map_key generation field id) = Ok true →
  own_row generation runs command_id sessions (map_key generation field id).
Proof.
  intros Hfield Hkeep. split; [|by left]. unfold map_key. rewrite split_record_key; [done|]. unfold key_ok. simpl. by rewrite Hfield.
Qed.

Lemma command_key_own generation runs command sessions field :
  field ∈ COMMAND_FIELDS → own_row generation runs (Some command) sessions (map_key generation field (CommandId.to_hex command)).
Proof.
  intros Hfield. assert (slash_free field = true ∧ negb (contains GLOBAL_FIELDS field) = true ∧ field ≠ "sessions") as (Hslash & Hglobal & Hne).
  { revert field Hfield. apply Forall_forall. repeat (apply Forall_cons; split; [split_and!; done|]). by apply Forall_nil. }
  apply map_key_own; [done|]. unfold keep_row, map_key. rewrite split_record_key by (unfold key_ok; simpl; by rewrite Hslash).
  unfold piece. cbn [lookup list_lookup default from_option id scope_of rk_run rk_field rk_primary].
  rewrite bool_decide_eq_true_2 by done. cbn [negb]. apply negb_true_iff in Hglobal. rewrite Hglobal, (bool_decide_eq_false_2 _ Hne).
  unfold contains at 1. rewrite bool_decide_eq_true_2 by done. change (CommandId.to_hex command) with (hex_encode (CommandId.as_bytes command)).
  rewrite decode_hex_key. cbn [mbind Outcome_bind]. f_equal. by apply bool_decide_eq_true.
Qed.

Lemma session_key_own generation runs command_id sessions session :
  session ∈ sessions → own_row generation runs command_id sessions (map_key generation "sessions" (WorkerSessionId.to_hex session)).
Proof.
  intros Hin. apply map_key_own; [done|]. unfold keep_row, map_key. rewrite split_record_key by done.
  unfold piece. cbn [lookup list_lookup default from_option id scope_of rk_run rk_field rk_primary].
  rewrite bool_decide_eq_true_2 by done. cbn [negb]. change (contains GLOBAL_FIELDS "sessions") with false. cbn iota.
  rewrite bool_decide_eq_true_2 by done. change (WorkerSessionId.to_hex session) with (hex_encode (WorkerSessionId.as_bytes session)) at 1.
  rewrite decode_hex_key. cbn [mbind Outcome_bind]. f_equal. apply bool_decide_eq_true.
  change (hex_encode (WorkerSessionId.as_bytes session)) with (WorkerSessionId.to_hex session). by apply list_elem_of_fmap_2.
Qed.

Lemma required_own generation runs command_id sessions field rest :
  field ∈ required_fields → own_row generation runs command_id sessions (generation_prefix generation +:+ "global/" +:+ field +:+ "/" +:+ rest).
Proof.
  intros Hfield. assert (slash_free field = true ∧ contains GLOBAL_FIELDS field || contains ORDER_FIELDS field = true) as [Hslash Hkind].
  { revert field Hfield. apply Forall_forall. repeat (apply Forall_cons; split; [split_and!; done|]). by apply Forall_nil. }
  assert (split_slash (generation_prefix generation +:+ "global/" +:+ field +:+ "/" +:+ rest) = hex16 generation :: "global" :: field :: split_slash rest) as Hsplit.
  { unfold generation_prefix. rewrite string_app_assoc, split_slash_app by (apply digits_slash_free; lia). f_equal.
    change ("global/" +:+ field +:+ "/" +:+ rest) with ("global" +:+ "/" +:+ (field +:+ "/" +:+ rest)).
    by rewrite !split_slash_app by done. }
  unfold own_row, keep_row. rewrite Hsplit. unfold piece. cbn [lookup list_lookup default from_option id]. split; [done|].
  apply orb_true_iff in Hkind as [Hg|Ho]; [left|right; split; [done|by apply bool_decide_eq_true in Ho]].
  rewrite bool_decide_eq_true_2 by done. cbn [negb]. by rewrite Hg.
Qed.

(** ** What is read *)
Lemma read_run_own table generation runs command_id sessions physical from run physical' from' :
  run ∈ runs → read_run table generation (physical, from) run = Ok (physical', from') →
  Forall (own_row generation runs command_id sessions) physical.*1 → Forall (own_row generation runs command_id sessions) physical'.*1.
Proof.
  intros Hrun Hread Hall. unfold read_run in Hread. set (fields := run_record_fields) in Hread. clearbody fields. apply outcome_bind_ok in Hread as (a & _ & (b & _ & Hread)%outcome_bind_ok).
  destruct (negb _); [done|]. injection Hread as <- _. rewrite fmap_app. apply Forall_app. split; [done|]. apply Forall_forall.
  intros k ([k' v] & -> & Hin)%list_elem_of_fmap. apply list_elem_of_In, in_concat in Hin as (l & Hl & Hin).
  apply list_elem_of_In in Hl, Hin. apply list_elem_of_fmap in Hl as (field & -> & _). apply elem_of_collected in Hin as [_ [t ->]%prefix_spec].
  unfold run_prefix. simpl. rewrite !string_app_assoc. by apply run_key_own.
Qed.

Lemma read_required_own table generation runs command_id sessions physical field physical' :
  field ∈ required_fields → read_required table generation physical field = Ok physical' →
  Forall (own_row generation runs command_id sessions) physical.*1 → Forall (own_row generation runs command_id sessions) physical'.*1.
Proof.
  intros Hfield Hread Hall. unfold read_required in Hread. destruct (bool_decide _); [done|]. injection Hread as <-.
  rewrite fmap_app. apply Forall_app. split; [done|]. apply Forall_forall. intros k ([k' v] & -> & [_ [t ->]%prefix_spec]%elem_of_collected)%list_elem_of_fmap.
  simpl. change (field +:+ "/scalar/") with (field +:+ ("/" +:+ "scalar/")). rewrite !string_app_assoc. by apply required_own.
Qed.

Lemma read_one_own table generation runs command_id sessions physical key physical' :
  own_row generation runs command_id sessions key → read_one table physical key = Ok physical' →
  Forall (own_row generation runs command_id sessions) physical.*1 → Forall (own_row generation runs command_id sessions) physical'.*1.
Proof.
  intros Hkey Hread Hall. unfold read_one in Hread. apply outcome_bind_ok in Hread as (stored & _ & [= <-]). destruct stored; [|done].
  rewrite fmap_app. apply Forall_app. split; [done|]. by apply Forall_singleton.
Qed.

(** A fold over elements that have a property. *)
Lemma fold_keeps {A B} (I : B → Prop) (Q : A → Prop) (f : B → A → Outcome B) l acc acc' :
  (∀ b x b', Q x → f b x = Ok b' → I b → I b') → Forall Q l → outcome_fold f acc l = Ok acc' → I acc → I acc'.
Proof.
  intros Hf Hl Hfold Hacc. destruct (outcome_fold_each I (λ _, True) f l acc acc') as [H0 _]; [|done..].
  intros b x b' Hin Hb Hx. split; [|done]. rewrite Forall_forall in Hl. eapply Hf; [by apply Hl|done..].
Qed.

Lemma read_applied_own table generation runs command_id sessions view :
  read_applied_records table generation runs command_id sessions = Ok view → keys_in (λ k, own_row generation runs command_id sessions k ∧ six k) (av_rows view).
Proof.
  unfold read_applied_records. intros ([p1 from] & H1 & (p2 & H2 & (p3 & H3 & (p4 & H4 & (rows & Hrows & [= <-])%outcome_bind_ok)%outcome_bind_ok)%outcome_bind_ok)%outcome_bind_ok)%outcome_bind_ok.
  set (own := λ p : list (string * string), Forall (own_row generation runs command_id sessions) p.*1).
  assert (own p1) as O1.
  { refine (fold_keeps (λ acc, own acc.1) (λ run, run ∈ runs) _ runs _ (p1, from) _ _ H1 _); [|by apply Forall_forall|constructor].
    intros [p f] run [p' f'] Hrun Hread. by eapply read_run_own. }
  assert (own p2) as O2.
  { refine (fold_keeps own (λ field, field ∈ required_fields) _ _ _ _ _ _ H2 O1); [|by apply Forall_forall]. intros. by eapply read_required_own. }
  assert (own p3) as O3.
  { destruct command_id as [command|]; [|by injection H3 as <-].
    refine (fold_keeps own (own_row generation runs (Some command) sessions) _ _ _ _ _ _ H3 O2); [intros; by eapply read_one_own|].
    apply Forall_fmap, Forall_forall. intros field Hfield. by apply command_key_own. }
  assert (own p4) as O4.
  { refine (fold_keeps own (own_row generation runs command_id sessions) _ _ _ _ _ _ H4 O3); [intros; by eapply read_one_own|].
    apply Forall_fmap, Forall_forall. intros session Hs. by apply session_key_own. }
  simpl. intros key Hkey. assert (restore_records p4 = Ok rows) as Hrestore by (destruct (restore_records p4); simpl in Hrows; congruence).
  destruct (restore_keys _ _ Hrestore key Hkey) as [Hin Hsix]. unfold own in O4. rewrite Forall_forall in O4. split; [by apply O4|done].
Qed.

(** ** What is encoded *)
Lemma insert_keys (Q : string → Prop) generation revision rows row rows' :
  insert generation revision rows row = Ok rows' → Q (record_key generation row.1.1) → keys_in Q rows → keys_in Q rows'.
Proof. destruct row as [[key order] value]. intros (bytes & _ & _ & ->)%insert_ok Hkey Hrows. by apply keys_in_insert. Qed.

Lemma insert_all_keys {A} (Q : string → Prop) generation revision (row_of : A → Outcome (RowKey * option Z * Json)) rows entries rows' :
  (∀ x row, row_of x = Ok row → Q (record_key generation row.1.1)) →
  insert_all generation revision row_of rows entries = Ok rows' → keys_in Q rows → keys_in Q rows'.
Proof.
  intros Hrow Hins Hrows. refine (outcome_fold_inv (keys_in Q) _ entries rows rows' _ Hrows Hins).
  intros b x b' Hb (row & Hx & Hb')%outcome_bind_ok. eapply insert_keys; [exact Hb'|by eapply Hrow|done].
Qed.

Definition of_generation generation (k : string) : Prop :=
  piece (split_slash k) 0 = hex16 generation ∧ (5 ≤ length (split_slash k))%nat.

Lemma record_key_generation generation key : of_generation generation (record_key generation key).
Proof.
  unfold of_generation, record_key. rewrite split_slash_app by (apply digits_slash_free; lia). split; [done|].
  assert (∀ a b, (S (length (split_slash b)) ≤ length (split_slash (a +:+ "/" +:+ b)))%nat) as Hlen.
  { intros a b. rewrite split_slash_concat, length_app. pose proof (split_slash_nonempty a). destruct (split_slash a); [done|]. simpl. lia. }
  set (rest := hex_encode (rk_primary key) +:+ _). pose proof (split_slash_nonempty rest) as Hne. assert (1 ≤ length (split_slash rest))%nat as H1 by (destruct (split_slash rest); [done|simpl; lia]).
  set (tail := rk_tag key +:+ _). pose proof (Hlen (rk_tag key) rest : (_ ≤ length (split_slash tail))%nat) as H2.
  set (middle := rk_field key +:+ _). pose proof (Hlen (rk_field key) tail : (_ ≤ length (split_slash middle))%nat) as H3.
  pose proof (Hlen (match rk_run key with Some run => "run-" +:+ run | None => "global" end) middle) as H4. simpl in *. lia.
Qed.

(** A record of the entry, whose key has the parts that [own_row] looks at. *)
Definition own_record generation runs (command_id : option CommandId.t) sessions (k : string) : Prop :=
  own_row generation runs command_id sessions k ∧ (5 ≤ length (split_slash k))%nat.

Lemma encode_generation state generation revision rows :
  encode state generation revision = Ok rows → keys_in (of_generation generation) rows.
Proof.
  unfold encode. intros (d & _ & (defaults & _ & (f & _ & (fields & _ & Hfold)%outcome_bind_ok)%outcome_bind_ok)%outcome_bind_ok)%outcome_bind_ok.
  refine (outcome_fold_inv (keys_in (of_generation generation)) _ fields ∅ rows _ (keys_in_empty _) Hfold). clear.
  assert (∀ A (row_of : A → Outcome (RowKey * option Z * Json)) rows entries rows', insert_all generation revision row_of rows entries = Ok rows' →
    keys_in (of_generation generation) rows → keys_in (of_generation generation) rows') as Hall.
  { intros A row_of rows entries rows' Hins. eapply insert_all_keys; [|exact Hins]. intros; apply record_key_generation. }
  assert (∀ rows row rows', insert generation revision rows row = Ok rows' → keys_in (of_generation generation) rows → keys_in (of_generation generation) rows') as Hone.
  { intros rows row rows' Hins. eapply insert_keys; [exact Hins|apply record_key_generation]. }
  intros rows [field value] rows' Hrows Henc. unfold encode_field in Henc.
  destruct (_ && _); [by injection Henc as <-|]. destruct (bool_decide _); [by eapply Hone|].
  destruct (contains HISTORY_FIELDS field).
  { destruct value; try done. refine (outcome_fold_inv _ _ _ _ _ _ Hrows Henc). intros b [run entries] b' Hb Hstep. destruct entries; try done. by eapply Hall. }
  destruct (contains NESTED_FIELDS field).
  { destruct value; try done. refine (outcome_fold_inv _ _ _ _ _ _ Hrows Henc). intros b [group children] b' Hb Hstep. destruct children; try done. by eapply Hall. }
  destruct (contains LIST_FIELDS field).
  { destruct value; try done. apply outcome_bind_ok in Henc as (rows1 & H1 & H2). eapply Hone; [exact H2|]. by eapply Hall. }
  destruct (is_map_field defaults field); [|by eapply Hone]. destruct value; try done. by eapply Hall.
Qed.

Lemma kept_own generation runs command_id sessions encoded result :
  keys_in (of_generation generation) encoded → kept_rows runs command_id sessions encoded = Ok result →
  keys_in (own_record generation runs command_id sessions) result.
Proof.
  intros Henc Hkept. unfold kept_rows in Hkept.
  refine (fold_keeps (keys_in (own_record generation runs command_id sessions)) (λ row : string * string, of_generation generation row.1) _ _ _ _ _ _ Hkept (keys_in_empty _)).
  - intros b [key value] b' Hgen Hstep Hb. apply outcome_bind_ok in Hstep as (keep & Hkeep & [= <-]). destruct keep; [|done].
    apply keys_in_insert; [done|]. destruct Hgen as [Hgen Hlen]. split; [|done]. split; [done|by left].
  - apply Forall_forall. intros [key value] Hin%elem_of_key_order. apply Henc. by eexists.
Qed.

Lemma run_record_own generation runs command_id sessions key :
  (∃ run, run ∈ runs ∧ rk_run key = Some (RunId.to_hex run)) → own_record generation runs command_id sessions (record_key generation key).
Proof.
  intros (run & Hrun & Hkey). split; [|apply record_key_generation]. unfold record_key. rewrite Hkey.
  pose proof (run_key_own generation runs command_id sessions run (rk_field key +:+ "/" +:+ rk_tag key +:+ "/" +:+ hex_encode (rk_primary key)
    +:+ "/" +:+ match rk_nested key with Some nested => hex_encode nested | None => "" end) Hrun) as Hown.
  exact Hown.
Qed.

Lemma append_history_own state generation revision from runs command_id sessions rows run rows' :
  run ∈ runs → append_history state generation revision from rows run = Ok rows' →
  keys_in (own_record generation runs command_id sessions) rows → keys_in (own_record generation runs command_id sessions) rows'.
Proof.
  intros Hrun Happ Hrows. unfold append_history in Happ. destruct (_ || _); [done|]. cbv zeta in Happ.
  apply outcome_bind_ok in Happ as (evs & _ & (rows1 & H1 & (records & _ & H2)%outcome_bind_ok)%outcome_bind_ok).
  assert (∀ field first rows entries rows', append_sequence generation revision run field first rows entries = Ok rows' →
    keys_in (own_record generation runs command_id sessions) rows → keys_in (own_record generation runs command_id sessions) rows') as Hseq.
  { intros field first r0 entries r0' Hins. eapply insert_all_keys; [|exact Hins]. intros [offset value] row [= <-]. apply run_record_own. by exists run. }
  eapply Hseq; [exact H2|]. by eapply Hseq.
Qed.

Lemma number_entry_own generation revision runs (command_id : option CommandId.t) sessions previous field rows (n : Z) (value : Json) rows' (n' : Z) :
  number_entry generation revision runs previous field (rows, n) value = Ok (rows', n') →
  keys_in (own_record generation runs command_id sessions) rows → keys_in (own_record generation runs command_id sessions) rows'.
Proof.
  unfold number_entry. intros ([run identity] & _ & Hn)%outcome_bind_ok Hrows. case_bool_decide as Hrun; cbn [negb] in Hn; [|by injection Hn as <- _].
  cbv zeta in Hn. apply outcome_bind_ok in Hn as ([order next1] & _ & (rows1 & Hins & [= <- _])%outcome_bind_ok).
  eapply insert_keys; [exact Hins| |done]. simpl. apply run_record_own. apply list_elem_of_fmap in Hrun as (r & -> & Hr). by exists r.
Qed.

Lemma append_list_own generation revision runs command_id sessions previous rows field entries rows' :
  field ∈ LIST_FIELDS → append_list generation revision runs previous rows (field, entries) = Ok rows' →
  keys_in (own_record generation runs command_id sessions) rows → keys_in (own_record generation runs command_id sessions) rows'.
Proof.
  intros Hfield Happ Hrows. unfold append_list in Happ.
  apply outcome_bind_ok in Happ as (vs & _ & (counter & _ & ([rows1 next] & Hfold & Hins)%outcome_bind_ok)%outcome_bind_ok).
  eapply insert_keys; [exact Hins| |].
  - split; [|apply record_key_generation]. simpl.
    assert (field = "inbox" ∨ field = "obligations") as [->| ->] by (unfold LIST_FIELDS in Hfield; set_solver);
      unfold order_row, scalar_row, record_key; simpl; (split; [by rewrite split_slash_app by (apply digits_slash_free; lia)|right]);
      rewrite split_slash_app by (apply digits_slash_free; lia); unfold piece; simpl; (split; [done|unfold ORDER_FIELDS; set_solver]).
  - refine (outcome_fold_inv (λ acc : Rows * Z, keys_in (own_record generation runs command_id sessions) acc.1) _ _ (rows, counter) (rows1, next) _ Hrows Hfold).
    intros [r n] v [r' n'] Hr Hstep. by eapply number_entry_own.
Qed.

Lemma encode_applied_own state generation revision runs evs command_id sessions previous from result selected :
  encode_applied state generation revision runs evs command_id sessions previous from = Ok (result, selected) →
  keys_in (own_record generation runs command_id sessions) result.
Proof.
  unfold encode_applied. intros (s & _ & (encoded & Henc & (kept & Hkept & (r1 & H1 & (r2 & H2 & [= <- _])%outcome_bind_ok)%outcome_bind_ok)%outcome_bind_ok)%outcome_bind_ok)%outcome_bind_ok.
  refine (fold_keeps (keys_in (own_record generation runs command_id sessions)) (λ list : string * Outcome (list Json), list.1 ∈ LIST_FIELDS) _ _ _ _ _ _ H2 _).
  - intros b [field entries] b' Hf Hstep. by eapply append_list_own.
  - repeat constructor; simpl; unfold LIST_FIELDS; set_solver.
  - refine (fold_keeps (keys_in (own_record generation runs command_id sessions)) (λ run, run ∈ runs) _ runs _ _ _ _ H1 _); [|by apply Forall_forall|].
    + intros b run b' Hrun Hstep. by eapply append_history_own.
    + eapply kept_own; [by eapply encode_generation|done].
Qed.

(** C14: an entry writes its own rows only. Whatever [write_applied_delta] does, the
    rows of other runs, commands, sessions and generations, and the records that no
    command changes, are the ones that were there, fragments included. *)
Theorem applied_rows_are_local writer table state generation revision runs evs command_id sessions table' selected k :
  write_applied_delta writer table state generation revision runs evs command_id sessions = Ok (table', selected) →
  ¬ own_row generation runs command_id sessions k → table' !! k = table !! k.
Proof.
  unfold write_applied_delta. destruct (existsb _ _); [done|].
  intros (view & Hread & ([next sel] & Henc & (table1 & Hw & [= <- _])%outcome_bind_ok)%outcome_bind_ok)%outcome_bind_ok Hk.
  eapply delta_frame; [exact Hw|]. intros key Hkey Hrow. apply Hk.
  assert (own_record generation runs command_id sessions key) as [Hown Hlen]; [|by eapply own_row_fragment].
  destruct Hkey as [Hkey|Hkey].
  - destruct (read_applied_own _ _ _ _ _ _ Hread key Hkey) as [Hown Hsix]. split; [done|]. unfold six in Hsix. lia.
  - destruct (encode_applied _ _ _ _ _ _ _ _ _) as [[encoded s]| |] eqn:Happlied; simpl in Henc; [|done..]. injection Henc as -> ->.
    exact (encode_applied_own _ _ _ _ _ _ _ _ _ _ _ Happlied key Hkey).
Qed.
End Local.
