(* ===== verification/BuilderFacts.v ===== *)
(** * Regions made by appending

    What one step of [RegionBuilder] does to a draft: it declares a node that
    leads to itself and relinks the tail, so that the nodes always form a line.
    A linear region is a chain from its start to its terminal node. *)
From stdpp Require Import base option gmap strings list.
From Stdlib Require Import ZArith Ascii Lia.
From S2P Require Import Prelude Value ValueFacts Ids Policy Catalog Ir Analysis Equality Domain Eval Evolve History AnalysisFacts RecordFacts Builder.

(** ** Computations on a draft *)
Lemma build_bind {A B} (m : Build A) (k : A → Build B) d :
  (m ≫= k) d = match (m d).2 with Ok a => k a (m d).1 | Err e => ((m d).1, Err e) | Panic w => ((m d).1, Panic w) end.
Proof. unfold mbind, Build_bind. by destruct (m d). Qed.

Lemma build_bind_ok {A B} (m : Build A) (k : A → Build B) d d' b :
  (m ≫= k) d = (d', Ok b) ↔ ∃ d1 a, m d = (d1, Ok a) ∧ k a d1 = (d', Ok b).
Proof. rewrite build_bind. destruct (m d) as [d1 [a|e|w]]; simpl; naive_solver. Qed.

Lemma same_scope_ok scope d d' u : same_scope scope d = (d', Ok u) ↔ scope = dr_scope d ∧ d' = d ∧ u = tt.
Proof.
  unfold same_scope. rewrite build_bind. simpl. destruct (Z.eqb_spec scope (dr_scope d)); simpl; unfold raise, mret, Build_ret; naive_solver.
Qed.

Lemma node_key_parse_id raw key : node_key_parse raw = Ok key → key = raw.
Proof. unfold node_key_parse. intros Hk. ok_inv; done. Qed.

Lemma insert_key_ok key d d' k :
  insert_key key d = (d', Ok k) ↔ k = key ∧ d' = d ∧ node_key_parse key = Ok key ∧ bt_get key (dr_nodes d) = None.
Proof.
  unfold insert_key. rewrite build_bind. simpl. rewrite build_bind. simpl.
  destruct (node_key_parse key) as [raw| |] eqn:Hk; simpl; [|naive_solver..].
  pose proof (node_key_parse_id _ _ Hk) as ->. unfold bt_contains.
  case_bool_decide as Hs; unfold raise, mret, Build_ret; [|rewrite <-eq_None_not_Some in Hs; naive_solver].
  destruct Hs as [n Hn]. rewrite Hn. naive_solver.
Qed.

Lemma insert_key_keeps key d : (insert_key key d).1 = d.
Proof.
  unfold insert_key. rewrite !build_bind. simpl. rewrite build_bind. simpl.
  destruct (node_key_parse key); simpl; [|done..]. by destruct (bt_contains _ _).
Qed.

Lemma update_ok f d d' u : update f d = (d', Ok u) ↔ d' = f d ∧ u = tt.
Proof. unfold update. naive_solver. Qed.

Lemma raise_ok {A} (m : Outcome A) d d' a : raise m d = (d', Ok a) ↔ d' = d ∧ m = Ok a.
Proof. unfold raise. naive_solver. Qed.

Lemma new_node_ok {O} key d d' (r : NodeRef O) : new_node key d = (d', Ok r) ↔ d' = d ∧ r = mkNodeRef key (dr_scope d).
Proof. unfold new_node. rewrite build_bind. simpl. unfold mret, Build_ret. naive_solver. Qed.

(** Follows a successful computation. *)
Ltac build_inv :=
  repeat match goal with
  | H : (_ ≫= _) _ = (_, Ok _) |- _ => apply build_bind_ok in H as (? & ? & ? & ?)
  | H : insert_key _ _ = (_, Ok _) |- _ => apply insert_key_ok in H as (? & ? & ? & ?)
  | H : same_scope _ _ = (_, Ok _) |- _ => apply same_scope_ok in H as (? & ? & ?)
  | H : update _ _ = (_, Ok _) |- _ => apply update_ok in H as [? ?]
  | H : put_node _ _ _ = (_, Ok _) |- _ => apply update_ok in H as [? ?]
  | H : add_signals _ _ = (_, Ok _) |- _ => apply update_ok in H as [? ?]
  | H : raise _ _ = (_, Ok _) |- _ => apply raise_ok in H as [? ?]
  | H : new_node _ _ = (_, Ok _) |- _ => apply new_node_ok in H as [? ?]
  | H : current _ = (_, Ok _) |- _ => unfold current in H
  | H : (mret _) _ = (_, Ok _) |- _ => unfold mret, Build_ret in H
  | H : (if ?b then _ else _) _ = (_, Ok _) |- _ => destruct b eqn:?
  end; simplify_eq.

(** ** Nodes up to their successor *)
Definition core (n : Node) : Node := default n (with_next n "").

(** A node with one exit. *)
Definition single_exit (n : Node) : Prop := ∀ target, ∃ n', with_next n target = Some n' ∧ node_successors n' = [("next", target)].

Lemma with_next_core n target n' : with_next n target = Some n' → core n' = core n.
Proof. destruct n; simpl; naive_solver. Qed.

Lemma connect_with_next n target n' : connect_node n false target = Ok n' → with_next n target = Some n'.
Proof. destruct n; simpl; naive_solver. Qed.

Lemma single_exit_core n n' : core n' = core n → single_exit n → single_exit n'.
Proof.
  intros Hc Hn target. destruct (Hn target) as (m & Hm & Hs).
  destruct n, n'; unfold core in Hc; simpl in *; try discriminate; simplify_eq; eauto.
Qed.

Lemma single_exit_connects n target : single_exit n → ∃ n', connect_node n false target = Ok n' ∧ with_next n target = Some n'.
Proof. intros Hn. destruct (Hn target) as (n' & Hn' & _). destruct n; simpl in *; simplify_eq; eauto. Qed.

(** ** Lines *)
Definition linked (nodes : list (string * Node)) (a b : string) : Prop :=
  ∃ n, bt_get a nodes = Some n ∧ node_successors n = [("next", b)].

Fixpoint links (nodes : list (string * Node)) (order : list string) : Prop :=
  match order with
  | a :: ((b :: _) as rest) => linked nodes a b ∧ links nodes rest
  | _ => True
  end.

Lemma links_app nodes order key :
  links nodes (order ++ [key]) ↔ links nodes order ∧ (∀ t, last order = Some t → linked nodes t key).
Proof.
  induction order as [|a [|b order] IH].
  - simpl. naive_solver.
  - simpl. split; [intros [? _]; split; [done|by intros t [= <-]]|intros [_ Hl]; split; [by apply Hl|done]].
  - change (linked nodes a b ∧ links nodes ((b :: order) ++ [key]) ↔
      (linked nodes a b ∧ links nodes (b :: order)) ∧ (∀ t, last (b :: order) = Some t → linked nodes t key)).
    rewrite IH. tauto.
Qed.

Lemma links_lookup nodes order i a b : links nodes order → order !! i = Some a → order !! S i = Some b → linked nodes a b.
Proof.
  revert i. induction order as [|x [|y order] IH]; intros i Hl Ha Hb; [done|destruct i; discriminate Hb|].
  destruct Hl as [Hxy Hl]. destruct i as [|i]; [simpl in *; naive_solver|]. by eapply (IH i).
Qed.

Lemma links_ext nodes nodes' order :
  (∀ k, k ∈ removelast order → bt_get k nodes' = bt_get k nodes) → links nodes order → links nodes' order.
Proof.
  induction order as [|a [|b order] IH]; intros Hext; [done..|].
  intros [(n & Hn & Hs) Hl]. split.
  - exists n. split; [|done]. rewrite Hext; [done|]. by left.
  - apply IH; [|done]. intros k Hk. apply Hext. by right.
Qed.

(** The nodes of a draft are the line [order]. *)
Record line (order : list string) (d : Draft) : Prop := mkLine {
  li_nodup : NoDup order;
  li_sorted : keys_increasing (dr_nodes d);
  li_keys : ∀ k, k ∈ order ↔ is_Some (bt_get k (dr_nodes d));
  li_start : dr_start d = head order;
  li_tail : dr_tail d = last order;
  li_links : links (dr_nodes d) order;
  li_exits : ∀ k n, bt_get k (dr_nodes d) = Some n → single_exit n;
}.

Lemma last_elem {A} (l : list A) x : last l = Some x → x ∈ l.
Proof. intros Hl. apply last_Some in Hl as [l' ->]. set_solver. Qed.

Lemma removelast_not_last {A} (l : list A) x t : NoDup l → last l = Some t → x ∈ removelast l → x ≠ t.
Proof.
  intros Hnd Hl Hx ->. apply last_Some in Hl as [l' ->]. rewrite removelast_last in Hx.
  apply NoDup_app in Hnd as (_ & Hd & _). apply (Hd t Hx). set_solver.
Qed.

Lemma head_snoc {A} (l : list A) x : head (l ++ [x]) = match head l with Some y => Some y | None => Some x end.
Proof. by destruct l. Qed.

(** ** Signals *)

(** Every name is declared with the schema [σ] gives it. *)
Definition consistent (σ : string → SchemaRef) (m : list (string * SchemaRef)) : Prop := ∀ k s, (k, s) ∈ m → s = σ k.

(** [m'] is [m] with the declarations of [maps]. *)
Definition extends (maps : list (list (string * SchemaRef))) (m m' : list (string * SchemaRef)) : Prop :=
  (∀ σ, consistent σ m → Forall (consistent σ) maps → consistent σ m') ∧
  (∀ k, is_Some (bt_get k m) ∨ Exists (λ o, is_Some (bt_get k o)) maps → is_Some (bt_get k m')).

Lemma extends_nil m : extends [] m m.
Proof. split; [done|]. intros k [?|?%Exists_nil]; done. Qed.

Lemma extends_extend m o : extends [o] m (extend m o).
Proof.
  unfold extend, extends. split.
  - intros σ Hm [Ho _]%Forall_cons. revert m Hm. induction o as [|[k s] o IH]; intros m Hm; simpl; [done|]. apply IH.
    + intros k' s' Hin. apply Ho. by right.
    + intros k' s' [[= -> ->]|Hin]%bt_insert_elem; [apply Ho; by left|by apply Hm].
  - intros k Hk. assert (is_Some (bt_get k m) ∨ is_Some (bt_get k o)) as Hk'.
    { destruct Hk as [|Hk]; [by left|]. rewrite Exists_cons, Exists_nil in Hk. tauto. }
    clear Hk. revert m Hk'. induction o as [|[k2 s] o IH]; intros m Hk; simpl; [by destruct Hk as [?|[? ?]]|].
    apply IH. rewrite bt_get_insert. simpl in Hk. destruct (decide (k2 = k)) as [->|Hne]; [left; eauto|].
    rewrite decide_False in Hk by congruence. done.
Qed.

Lemma extends_app maps1 maps2 m m1 m2 : extends maps1 m m1 → extends maps2 m1 m2 → extends (maps1 ++ maps2) m m2.
Proof.
  intros [Hc1 Hk1] [Hc2 Hk2]. split.
  - intros σ Hm [H1 H2]%Forall_app. auto.
  - intros k. rewrite Exists_app. intros [Hk|[Hk|Hk]]; auto.
Qed.

Lemma extends_all m maps : extends maps m (extend m (foldl extend [] maps)).
Proof.
  assert (Hfold : ∀ acc, extends maps acc (foldl extend acc maps)).
  { induction maps as [|o maps IH]; intros acc; simpl; [apply extends_nil|].
    apply (extends_app [o] maps acc (extend acc o)); [apply extends_extend|apply IH]. }
  destruct (Hfold []) as [Hc Hk]. destruct (extends_extend m (foldl extend [] maps)) as [Hc' Hk']. split.
  - intros σ Hm Hmaps. apply Hc'; [done|]. apply Forall_singleton, Hc; [|done]. intros k s. by rewrite elem_of_nil.
  - intros k [Hm|Hex]; apply Hk'; [by left|right; left; auto].
Qed.

(** ** Declarations *)

(** All of a draft but its nodes and signals. *)
Definition same_frame (d d' : Draft) : Prop :=
  dr_scope d' = dr_scope d ∧ dr_input_schema d' = dr_input_schema d ∧ dr_start d' = dr_start d ∧ dr_tail d' = dr_tail d.

(** What a failed call leaves alone. *)
Definition same_graph (d d' : Draft) : Prop := same_frame d d' ∧ dr_nodes d' = dr_nodes d.

Lemma same_graph_refl d : same_graph d d.
Proof. done. Qed.

Lemma same_graph_trans d1 d2 d3 : same_graph d1 d2 → same_graph d2 d3 → same_graph d1 d3.
Proof. unfold same_graph, same_frame. intuition congruence. Qed.

Definition harmless {A} (m : Build A) : Prop := ∀ d, same_graph d (m d).1.
Definition unfailing {A} (m : Build A) : Prop := ∀ d, ∃ a, (m d).2 = Ok a.
Definition fails_harmless {A} (m : Build A) : Prop := ∀ d, (∀ a, (m d).2 ≠ Ok a) → same_graph d (m d).1.

Lemma harmless_bind {A B} (m : Build A) (k : A → Build B) : harmless m → (∀ a, fails_harmless (k a)) → fails_harmless (m ≫= k).
Proof.
  intros Hm Hk d. rewrite build_bind. pose proof (Hm d) as Hd. destruct (m d) as [d1 [a|e|w]]; simpl in *; [|done..].
  intros Hf. eapply same_graph_trans; [exact Hd|]. by apply Hk.
Qed.

Lemma unfailing_bind {A B} (m : Build A) (k : A → Build B) : unfailing m → (∀ a, unfailing (k a)) → unfailing (m ≫= k).
Proof. intros Hm Hk d. rewrite build_bind. destruct (Hm d) as [a ->]. apply Hk. Qed.

Lemma unfailing_harmless {A} (m : Build A) : unfailing m → fails_harmless m.
Proof. intros Hm d Hf. destruct (Hm d) as [a Ha]. by destruct (Hf a). Qed.

Lemma harmless_fails {A} (m : Build A) : harmless m → fails_harmless m.
Proof. intros Hm d _. apply Hm. Qed.

Lemma harmless_then {A B} (m : Build A) (k : A → Build B) : harmless m → (∀ a, harmless (k a)) → harmless (m ≫= k).
Proof.
  intros Hm Hk d. rewrite build_bind. pose proof (Hm d) as Hd. destruct (m d) as [d1 [a|e|w]]; simpl in *; [|done..].
  eapply same_graph_trans; [exact Hd|apply Hk].
Qed.

Lemma insert_key_harmless key : harmless (insert_key key).
Proof. intros d. by rewrite insert_key_keeps. Qed.
Lemma raise_harmless {A} (m : Outcome A) : harmless (raise m).
Proof. done. Qed.
Lemma current_harmless : harmless current.
Proof. done. Qed.
Lemma ret_harmless {A} (a : A) : harmless (mret a).
Proof. done. Qed.
Lemma add_signals_harmless signals : harmless (add_signals signals).
Proof. done. Qed.
Lemma same_scope_harmless scope : harmless (same_scope scope).
Proof. intros d. unfold same_scope. rewrite build_bind. simpl. by destruct (negb _). Qed.
Lemma put_node_unfailing key n : unfailing (put_node key n).
Proof. intros d. by exists tt. Qed.
Lemma add_signals_unfailing signals : unfailing (add_signals signals).
Proof. intros d. by exists tt. Qed.
Lemma new_node_unfailing {O} key : unfailing (new_node (O := O) key).
Proof. intros d. unfold new_node. rewrite build_bind. by eexists. Qed.
Lemma ret_unfailing {A} (a : A) : unfailing (mret a : Build A).
Proof. intros d. by exists a. Qed.
Lemma current_unfailing : unfailing current.
Proof. intros d. by exists d. Qed.

#[export] Hint Resolve insert_key_harmless raise_harmless current_harmless ret_harmless add_signals_harmless same_scope_harmless
  put_node_unfailing add_signals_unfailing new_node_unfailing ret_unfailing current_unfailing : building.

Ltac unfailing := intros; repeat (apply unfailing_bind; [by auto with building|intros ?]); auto with building.
Ltac harmless := intros; first
  [ solve [apply unfailing_harmless; unfailing]
  | solve [apply harmless_fails; auto with building]
  | apply harmless_bind; [by auto with building|harmless] ].

(** A declaration makes one node, which leads to itself. *)
Record declares {O} (m : Build (NodeRef O)) (key : string) (shape : Node → Prop) (maps : list (list (string * SchemaRef))) : Prop :=
  mkDeclares {
    de_ok : ∀ d d' r, m d = (d', Ok r) →
      r = mkNodeRef key (dr_scope d) ∧ bt_get key (dr_nodes d) = None ∧ same_frame d d' ∧ extends maps (dr_signals d) (dr_signals d') ∧
      ∃ n, shape n ∧ single_exit n ∧ dr_nodes d' = str_insert key n (dr_nodes d);
    de_err : fails_harmless m;
  }.

Ltac declares_tac def :=
  unfold def; constructor;
  [ intros d d' r Hr; build_inv; split_and!; try done; eauto using extends_nil, extends_extend;
    eexists; split; [|split; [|reflexivity]]; [eauto|intros ?; by eexists]
  | harmless ].

Lemma declares_activity {F} `{!IntoInput F} {A B} key (activity : ActivityRef A B) (input : F A) :
  declares (declare_activity key activity input) key
    (λ n, ∃ ms, n = Node_Activity (ar_key activity) (into_binding input) (Some ms) retry_forward_default None key) [].
Proof. declares_tac @declare_activity. Qed.

Lemma declares_wait_signal {T} key (signal : SignalRef T) correlation :
  declares (declare_wait_signal key signal correlation) key
    (λ n, n = Node_WaitSignal (sg_name signal) (vl_binding correlation) None ConsumeFrom_Buffered key None)
    [[(sg_name signal, sg_schema signal)]].
Proof. declares_tac @declare_wait_signal. Qed.

Lemma declares_repeat {S} key count (state : ValueRef S) body max_iterations :
  declares (declare_repeat key count state body max_iterations) key
    (λ n, n = Node_Repeat (vl_binding count) (vl_binding state) S max_iterations (tr_ir body) key) [tr_signals body].
Proof. declares_tac @declare_repeat. Qed.

Lemma declares_while {S} key (state : ValueRef S) condition body max_iterations :
  declares (declare_while key state condition body max_iterations) key
    (λ n, n = Node_While (vl_binding state) S condition max_iterations (tr_ir body) key) [tr_signals body].
Proof. declares_tac @declare_while. Qed.

Lemma declares_do_while {S} key (state : ValueRef S) condition body max_iterations :
  declares (declare_do_while key state condition body max_iterations) key
    (λ n, n = Node_DoWhile (vl_binding state) S condition max_iterations (tr_ir body) key) [tr_signals body].
Proof. declares_tac @declare_do_while. Qed.

Lemma declares_foreach {A B} key items (body : TypedRegion A B) max_items max_concurrency :
  declares (declare_foreach key items body max_items max_concurrency) key
    (λ n, n = Node_Foreach (vl_binding items) A max_items max_concurrency (tr_ir body) key) [tr_signals body].
Proof. declares_tac @declare_foreach. Qed.

Lemma declares_saga {A B} key (input : ValueRef A) (body : TypedRegion A B) :
  declares (declare_saga key input body) key (λ n, n = Node_Saga (vl_binding input) (tr_ir body) key) [tr_signals body].
Proof. declares_tac @declare_saga. Qed.

Lemma declares_delay key duration :
  declares (declare_delay key duration) key (λ n, ∃ text, n = Node_Delay (Binding_Literal (VString text)) key) [].
Proof. declares_tac @declare_delay. Qed.

Lemma declares_wait_until key at_ms :
  declares (declare_wait_until key at_ms) key (λ n, n = Node_WaitUntil (Binding_Literal (VInt at_ms)) key) [].
Proof. declares_tac @declare_wait_until. Qed.

Definition ir_case {A B} (c : Case A B) : ChooseCase := mkChooseCase (ca_name c) (ca_when c) (tr_ir (ca_body c)).

Lemma add_cases {A B} (cases : list (Case A B)) acc d d' out :
  build_fold add_case acc cases d = (d', Ok out) →
  out.2 = acc.2 ++ (ir_case <$> cases) ∧ same_graph d d' ∧ extends ((λ c, tr_signals (ca_body c)) <$> cases) (dr_signals d) (dr_signals d').
Proof.
  revert acc d. induction cases as [|c cases IH]; intros [names acc] d Hf; simpl in Hf.
  { build_inv. simpl. rewrite app_nil_r. eauto using extends_nil, same_graph_refl. }
  unfold add_case in Hf at 1. build_inv. apply IH in H0 as (Hout & Hgraph & Hext). simpl in *.
  split_and!; [by rewrite Hout, <-app_assoc|exact Hgraph|].
  apply (extends_app [_] _ _ _ _ (extends_extend _ _) Hext).
Qed.

Lemma add_case_harmless {A B} (cases : list (Case A B)) acc : harmless (build_fold add_case acc cases).
Proof.
  revert acc. induction cases as [|c cases IH]; intros [names acc]; simpl; [done|].
  apply harmless_then; [|auto]. unfold add_case. destruct (_ || _); [done|]. by apply harmless_then.
Qed.

Lemma declares_choose {F} `{!IntoInput F} {A B} key (input : F A) cases (default_ : TypedRegion A B) :
  declares (declare_choose key input cases default_) key
    (λ n, n = Node_Choose (into_binding input) (ir_case <$> cases) (tr_ir default_) key)
    (((λ c, tr_signals (ca_body c)) <$> cases) ++ [tr_signals default_]).
Proof.
  unfold declare_choose. constructor.
  - intros d d' r Hr. destruct (bool_decide _); [discriminate Hr|]. apply build_bind_ok in Hr as (d1 & [names parts] & Hf & Hr).
    apply add_cases in Hf as (Hparts & [(? & ? & ? & ?) Hnodes] & Hext). simpl in Hparts. subst parts. build_inv. simpl in *.
    split_and!; try done; try congruence.
    + eapply extends_app; [exact Hext|apply extends_extend].
    + eexists. split_and!; [done|intros ?; by eexists|congruence].
  - destruct (bool_decide _); [by apply harmless_fails|].
    apply harmless_bind; [apply add_case_harmless|]. intros [names parts]. harmless.
Qed.

Lemma declares_parallel {Os} key (branches : ParallelBranches Os) :
  declares (declare_parallel key branches) key (λ n, n = Node_Parallel (into_parts branches).1 key) (into_parts branches).2.
Proof.
  unfold declare_parallel. destruct (into_parts branches) as [parts signals]. simpl. constructor; [|harmless].
  intros d d' r Hr. build_inv. split_and!; try done; [apply extends_all|]. eexists. split_and!; [done|intros ?; by eexists|done].
Qed.

#[export] Hint Resolve declares_activity declares_wait_signal declares_repeat declares_while declares_do_while declares_foreach
  declares_saga declares_delay declares_wait_until declares_choose declares_parallel : building.

(** ** One step *)
Lemma line_same_graph order d d' : same_graph d d' → line order d → line order d'.
Proof. intros [(? & ? & Hs & Ht) Hn] []. constructor; rewrite ?Hn, ?Hs, ?Ht; done. Qed.

(** The draft after its tail was led to [key]. *)
Definition relinked (order : list string) (d d' : Draft) (key : string) : Prop :=
  dr_scope d' = dr_scope d ∧ dr_input_schema d' = dr_input_schema d ∧ dr_tail d' = dr_tail d ∧ dr_signals d' = dr_signals d ∧
  dr_start d' = head (order ++ [key]) ∧ keys_increasing (dr_nodes d') ∧
  (∀ k, is_Some (bt_get k (dr_nodes d')) ↔ is_Some (bt_get k (dr_nodes d))) ∧
  (∀ k, dr_tail d ≠ Some k → bt_get k (dr_nodes d') = bt_get k (dr_nodes d)) ∧
  (∀ k, core <$> bt_get k (dr_nodes d') = core <$> bt_get k (dr_nodes d)) ∧
  (∀ t, dr_tail d = Some t → linked (dr_nodes d') t key).

Lemma same_scope_works scope d : scope = dr_scope d → same_scope scope d = (d, Ok tt).
Proof. intros ->. unfold same_scope. rewrite build_bind. simpl. by rewrite Z.eqb_refl. Qed.

Lemma connect_works exit entry d n n' :
  ex_scope exit = dr_scope d → en_scope entry = dr_scope d → bt_get (ex_node exit) (dr_nodes d) = Some n →
  connect_node n (ex_timeout exit) (en_node entry) = Ok n' →
  connect exit entry d = (set_dr_nodes (str_insert (ex_node exit) n') d, Ok tt).
Proof.
  intros Hexit Hentry Hn Hconn. unfold connect. rewrite build_bind, same_scope_works by done. simpl.
  rewrite build_bind, same_scope_works by done. simpl. rewrite build_bind. simpl. rewrite build_bind. simpl. rewrite Hn. simpl.
  rewrite build_bind. simpl. by rewrite Hconn.
Qed.

Lemma start_at_works entry d :
  en_scope entry = dr_scope d → dr_start d = None → start_at entry d = (set_dr_start (en_node entry) d, Ok tt).
Proof.
  intros Hentry Hstart. unfold start_at. rewrite build_bind, same_scope_works by done. simpl. rewrite build_bind. simpl. by rewrite Hstart.
Qed.

(** The tail is linked whenever the draft but for one declaration is a line. *)
Lemma link_tail_works order d entry :
  en_scope entry = dr_scope d → keys_increasing (dr_nodes d) → dr_start d = head order → dr_tail d = last order →
  (∀ t, last order = Some t → ∃ n, bt_get t (dr_nodes d) = Some n ∧ single_exit n) →
  ∃ d', link_tail entry d = (d', Ok tt) ∧ relinked order d d' (en_node entry).
Proof.
  intros Hscope Hsorted Hstart Htail Hexit. unfold link_tail. rewrite build_bind. simpl.
  destruct (last order) as [t|] eqn:Hlast; rewrite Htail; simpl.
  - destruct (Hexit t eq_refl) as (n & Hn & Hsingle). destruct (single_exit_connects n (en_node entry) Hsingle) as (n' & Hconn & Hwith).
    destruct (Hsingle (en_node entry)) as (n2 & Hwith2 & Hsucc). rewrite Hwith in Hwith2. injection Hwith2 as <-.
    eexists. split; [by apply (connect_works (tail_exit d t) entry d n n')|].
    unfold relinked. simpl. rewrite Hstart, Htail. split_and!; try done.
    + rewrite head_snoc. by destruct order.
    + by apply str_insert_increasing.
    + intros k. rewrite bt_get_insert. case_decide; [subst; rewrite Hn; split; eauto|done].
    + intros k Hk. rewrite bt_get_insert, decide_False by congruence. done.
    + intros k. rewrite bt_get_insert. case_decide; [subst; rewrite Hn; simpl; f_equal; by eapply with_next_core|done].
    + intros t' [= <-]. exists n'. rewrite bt_get_insert, decide_True by done. done.
  - apply last_None in Hlast as ->. eexists. split; [by apply start_at_works|].
    unfold relinked. simpl. rewrite Htail. split_and!; done.
Qed.

(** What an appended node changes. *)
Record appended (order : list string) (key : string) (n : Node) (maps : list (list (string * SchemaRef))) (d d' : Draft) : Prop :=
  mkAppended {
    ap_line : line (order ++ [key]) d';
    ap_fresh : bt_get key (dr_nodes d) = None;
    ap_scope : dr_scope d' = dr_scope d;
    ap_input : dr_input_schema d' = dr_input_schema d;
    ap_node : bt_get key (dr_nodes d') = Some n;
    ap_others : ∀ k, k ≠ key → core <$> bt_get k (dr_nodes d') = core <$> bt_get k (dr_nodes d);
    ap_signals : extends maps (dr_signals d) (dr_signals d');
  }.

Lemma append_declared {O} order d (m : Build (NodeRef O)) key shape maps d1 r :
  line order d → declares m key shape maps → m d = (d1, Ok r) →
  ∃ n d', append m d = (d', Ok r) ∧ r = mkNodeRef key (dr_scope d) ∧ shape n ∧ appended order key n maps d d'.
Proof.
  intros [Hnd Hsorted Hkeys Hstart Htail Hlinks Hexits] [Hok _] Hm.
  destruct (Hok _ _ _ Hm) as (-> & Hfresh & (Hsc & Hin & Hst & Htl) & Hext & n & Hshape & Hsingle & Hnodes).
  assert (key ∉ order) as Hnew by (rewrite Hkeys, Hfresh; by intros [? ?]).
  assert (Hget : ∀ k, k ≠ key → bt_get k (dr_nodes d1) = bt_get k (dr_nodes d)).
  { intros k Hk. rewrite Hnodes, bt_get_insert, decide_False by congruence. done. }
  destruct (link_tail_works order d1 (mkEntryPort key (dr_scope d))) as (d2 & Hlink & Hsc2 & Hin2 & Htl2 & Hsg2 & Hst2 & Hso2 & Hke2 & Hoth2 & Hco2 & Hli2).
  { done. } { rewrite Hnodes. by apply str_insert_increasing. } { by rewrite Hst. } { by rewrite Htl. }
  { intros t Ht. assert (t ∈ order) as Hin' by by apply last_elem.
    pose proof (proj1 (Hkeys t) Hin') as [nt Hnt]. exists nt. rewrite Hget by set_solver. eauto. }
  simpl in *. exists n, (set_dr_tail key d2).
  assert (Hown : bt_get key (dr_nodes d2) = Some n).
  { rewrite Hoth2, Hnodes, bt_get_insert, decide_True; [done..|]. rewrite Htl, Htail. intros Hl%last_elem. done. }
  split; [unfold append; rewrite build_bind, Hm; simpl; rewrite build_bind; unfold node_entry; simpl; rewrite Hlink; done|].
  split; [done|]. split; [done|]. constructor; simpl; try done; try congruence.
  2:{ intros k Hk. by rewrite Hco2, Hget. }
  constructor; simpl; try done.
  - apply NoDup_app. split; [done|]. split; [set_solver|apply NoDup_singleton].
  - intros k. rewrite Hke2, Hnodes, bt_get_insert. rewrite elem_of_app, list_elem_of_singleton, Hkeys.
    case_decide; [subst; split; eauto|]. split; [intros [?|?]; [done|congruence]|by left].
  - by rewrite last_snoc.
  - apply links_app. split; [|by rewrite <-Htail, <-Htl].
    apply (links_ext (dr_nodes d)); [|done]. intros k Hk. destruct (last order) as [t|] eqn:Hl.
    + rewrite Hoth2, Hget; [done| |].
      * intros ->. apply Hnew. apply last_Some in Hl as [l' ->]. rewrite removelast_last in Hk. set_solver.
      * rewrite Htl, Htail. intros [= ->]. by apply (removelast_not_last order k k Hnd Hl Hk).
    + apply last_None in Hl as ->. by apply elem_of_nil in Hk.
  - intros k nk Hk. destruct (decide (k = key)) as [->|Hne]; [simpl in Hk; assert (nk = n) as -> by congruence; done|].
    pose proof (Hco2 k) as Hc. rewrite Hk, Hget in Hc by done. destruct (bt_get k (dr_nodes d)) as [n0|] eqn:Hn0; [|done].
    injection Hc as Hc. apply (single_exit_core n0); [done|eauto].
Qed.

Lemma append_ok {O} order d (m : Build (NodeRef O)) key shape maps d' r :
  line order d → declares m key shape maps → append m d = (d', Ok r) →
  r = mkNodeRef key (dr_scope d) ∧ ∃ n, shape n ∧ appended order key n maps d d'.
Proof.
  intros Hl Hm Ha. pose proof Ha as Ha'. unfold append in Ha'. apply build_bind_ok in Ha' as (d1 & r1 & Hd & _).
  destruct (append_declared _ _ _ _ _ _ _ _ Hl Hm Hd) as (n & d2 & Ha2 & Hr & Hs & Happ). rewrite Ha2 in Ha. injection Ha as <- <-. eauto.
Qed.

(** Linking never fails, so a failed append is a failed declaration. *)
Lemma append_err {O} order d (m : Build (NodeRef O)) key shape maps :
  line order d → declares m key shape maps → (∀ r, (append m d).2 ≠ Ok r) → same_graph d (append m d).1.
Proof.
  intros Hl Hm Hf. destruct (m d) as [d1 [r|e|w]] eqn:Hd.
  - destruct (append_declared _ _ _ _ _ _ _ _ Hl Hm Hd) as (n & d2 & Ha2 & _). rewrite Ha2 in Hf. by destruct (Hf r).
  - unfold append. rewrite build_bind, Hd. simpl. pose proof (de_err _ _ _ _ Hm d) as He. rewrite Hd in He. by apply He.
  - unfold append. rewrite build_bind, Hd. simpl. pose proof (de_err _ _ _ _ Hm d) as He. rewrite Hd in He. by apply He.
Qed.

(** ** The end of a region *)

(** A region whose nodes form the line [order], the last of them terminal. *)
Record chain (order : list string) (r : Region) : Prop := mkChain {
  ch_nodup : NoDup order;
  ch_sorted : keys_increasing (region_nodes r);
  ch_keys : ∀ k, k ∈ order ↔ is_Some (region_node r k);
  ch_start : head order = Some (region_start r);
  ch_links : links (region_nodes r) order;
  ch_end : ∀ k n, last order = Some k → region_node r k = Some n → node_successors n = [];
}.

(** A terminal node is declared like any other, and has no exit. *)
Definition ends_with {O} (m : Build (TerminalRef O)) (key : string) (n : Node) : Prop :=
  node_successors n = [] ∧
  ∀ d d' r, m d = (d', Ok r) → r = mkTerminalRef key (dr_scope d) ∧ bt_get key (dr_nodes d) = None ∧
    d' = set_dr_nodes (str_insert key n) d.

Lemma ends_complete {O} key (output : ValueRef O) : ends_with (declare_complete key output) key (Node_Complete (vl_binding output)).
Proof. split; [done|]. unfold declare_complete. intros d d' r Hr. build_inv. done. Qed.

Lemma ends_fail O key code message : ends_with (declare_fail O key code message) key (Node_Fail (mkFailError code message)).
Proof. split; [done|]. unfold declare_fail. intros d d' r Hr. build_inv. done. Qed.

#[export] Hint Resolve ends_complete ends_fail : building.

Lemma end_with_ok {I O} order (b : RegionBuilder I) (m : Build (TerminalRef O)) key n r :
  line order b → ends_with m key n → end_with m b = Ok r →
  chain (order ++ [key]) (tr_ir r) ∧ (∃ start nodes, tr_ir r = mkRegion region_path_root I O start nodes) ∧
  tr_signals r = dr_signals b ∧ region_node (tr_ir r) key = Some n ∧ bt_get key (dr_nodes b) = None ∧
  ∀ k, k ≠ key → core <$> region_node (tr_ir r) k = core <$> bt_get k (dr_nodes b).
Proof.
  intros [Hnd Hsorted Hkeys Hstart Htail Hlinks Hexits] [Hsucc Hm] He. unfold end_with in He.
  destruct ((terminal ← m; link_tail (terminal_entry terminal)) b) as [d [u|e|w]] eqn:Hb; [|done..]. apply build_bind_ok in Hb as (d1 & t & Ht & Hlink).
  destruct (Hm _ _ _ Ht) as (-> & Hfresh & ->). unfold terminal_entry in Hlink. simpl in Hlink.
  destruct (link_tail_works order (set_dr_nodes (str_insert key n) b) (mkEntryPort key (dr_scope b))) as (d2 & Hlink2 & Hsc2 & Hin2 & Htl2 & Hsg2 & Hst2 & Hso2 & Hke2 & Hoth2 & Hco2 & Hli2); simpl; try done.
  { by apply str_insert_increasing. }
  { intros t Ht'. pose proof (last_elem _ _ Ht') as Hin. apply Hkeys in Hin as [nt Hnt]. exists nt. rewrite bt_get_insert.
    rewrite decide_False by congruence. eauto. }
  rewrite Hlink in Hlink2. injection Hlink2 as <- _. simpl in *.
  assert (key ∉ order) as Hnew by (rewrite Hkeys, Hfresh; by intros [? ?]).
  unfold graph_finish in He. rewrite Hst2 in He. destruct (head (order ++ [key])) as [start|] eqn:Hhead; simpl in He; [|done].
  injection He as <-. simpl. unfold region_node. simpl.
  assert (Hown : bt_get key (dr_nodes d) = Some n).
  { rewrite Hoth2, bt_get_insert, decide_True; [done..|]. rewrite Htail. intros Hl%last_elem. done. }
  split_and!; try done; eauto.
  2:{ intros k Hk. rewrite Hco2, bt_get_insert, decide_False by congruence. done. }
  constructor; simpl; try done.
  - apply NoDup_app. split; [done|]. split; [set_solver|apply NoDup_singleton].
  - intros k. unfold region_node. simpl. rewrite Hke2, bt_get_insert, elem_of_app, list_elem_of_singleton, Hkeys.
    case_decide; [subst; split; eauto|]. split; [intros [?|?]; [done|congruence]|by left].
  - apply links_app. split; [|by rewrite <-Htail].
    apply (links_ext (dr_nodes b)); [|done]. intros k Hk. destruct (last order) as [t|] eqn:Hl.
    + rewrite Hoth2, bt_get_insert, decide_False; [done| |].
      * intros ->. apply Hnew. apply last_Some in Hl as [l' ->]. rewrite removelast_last in Hk. set_solver.
      * rewrite Htail. intros [= ->]. by apply (removelast_not_last order k k Hnd Hl Hk).
    + apply last_None in Hl as ->. by apply elem_of_nil in Hk.
  - intros k nk. rewrite last_snoc. intros [= <-]. unfold region_node. simpl. rewrite Hown. by intros [= <-].
Qed.

(** ** Compensations *)
Lemma set_compensation_ok key c d d' :
  set_compensation key c d = (d', Ok tt) →
  ∃ activity input ms retry old next, bt_get key (dr_nodes d) = Some (Node_Activity activity input ms retry old next) ∧
    d' = set_dr_nodes (str_insert key (Node_Activity activity input ms retry (Some c) next)) d.
Proof.
  unfold set_compensation. rewrite build_bind. simpl. destruct (bt_get key (dr_nodes d)) as [[]|]; try done. intros [= <-]. eauto 10.
Qed.

Lemma line_compensated order key activity input ms retry old next c d :
  bt_get key (dr_nodes d) = Some (Node_Activity activity input ms retry old next) → line order d →
  line order (set_dr_nodes (str_insert key (Node_Activity activity input ms retry (Some c) next)) d).
Proof.
  intros Hn []. constructor; simpl; try done; [by apply str_insert_increasing| | |].
  - intros k. rewrite bt_get_insert, li_keys0. case_decide; [subst; rewrite Hn; split; eauto|done].
  - revert li_links0. generalize (dr_nodes d) as nodes, Hn. clear. intros nodes Hn. induction order as [|a [|b order] IH]; [done..|].
    intros [(n & Ha & Hs) Hl]. split; [|by apply IH]. unfold linked. rewrite bt_get_insert.
    case_decide; [subst; rewrite Hn in Ha; injection Ha as <-; eauto|eauto].
  - intros k n. rewrite bt_get_insert. case_decide; [|by apply li_exits0].
    intros [= <-] target. simpl. eauto.
Qed.

Lemma set_compensation_harmless key c : fails_harmless (set_compensation key c).
Proof.
  intros d Hf. unfold set_compensation in *. rewrite build_bind in *. simpl in *.
  destruct (bt_get key (dr_nodes d)) as [[]|]; try done. by destruct (Hf tt).
Qed.

(** ** Programs of the region builder *)
Inductive RegionOp : Type :=
| Op_activity {A B} (key : string) (activity : ActivityRef A B) (input : ValueRef A)
| Op_mapped_activity {A B} (key : string) (activity : ActivityRef A B) (input : InputMapping A)
| Op_repeat {S} (key : string) (count : ValueRef SchemaRef_Integer) (state : ValueRef S) (body : TypedRegion S S) (max : Z)
| Op_while {S} (key : string) (state : ValueRef S) (condition : Condition) (body : TypedRegion S S) (max : Z)
| Op_do_while {S} (key : string) (state : ValueRef S) (condition : Condition) (body : TypedRegion S S) (max : Z)
| Op_foreach {A B} (key : string) (items : ValueRef (SchemaRef_Array A)) (body : TypedRegion A B) (max_items max : Z)
| Op_choose {A B} (key : string) (input : ValueRef A) (cases : list (Case A B)) (default_ : TypedRegion A B)
| Op_mapped_choose {A B} (key : string) (input : InputMapping A) (cases : list (Case A B)) (default_ : TypedRegion A B)
| Op_saga {A B} (key : string) (input : ValueRef A) (body : TypedRegion A B)
| Op_delay (key : string) (duration : Z)
| Op_wait_until (key : string) (at_ms : Z)
| Op_wait_signal {T} (key : string) (signal : SignalRef T) (correlation : ValueRef SchemaRef_String)
| Op_parallel {Os} (key : string) (branches : ParallelBranches Os)
| Op_compensate {O U} (node : NodeRef O) (compensator : ActivityRef O U)
| Op_compensate_with_retry {O U} (node : NodeRef O) (compensator : ActivityRef O U) (retry : RetryPolicy) (timeout : Z).

(** The draft a call leaves behind, whether it succeeds or fails. *)
Definition perform (d : Draft) (op : RegionOp) : Draft :=
  match op with
  | Op_activity key activity input => (region_activity key activity input d).1
  | Op_mapped_activity key activity input => (region_activity key activity input d).1
  | Op_repeat key count state body max => (region_repeat key count state body max d).1
  | Op_while key state condition body max => (region_while_loop key state condition body max d).1
  | Op_do_while key state condition body max => (region_do_while key state condition body max d).1
  | Op_foreach key items body max_items max => (region_foreach key items body max_items max d).1
  | Op_choose key input cases default_ => (region_choose key input cases default_ d).1
  | Op_mapped_choose key input cases default_ => (region_choose key input cases default_ d).1
  | Op_saga key input body => (region_saga key input body d).1
  | Op_delay key duration => (region_delay key duration d).1
  | Op_wait_until key at_ms => (region_wait_until key at_ms d).1
  | Op_wait_signal key signal correlation => (region_wait_signal key signal correlation d).1
  | Op_parallel key branches => (region_parallel key branches d).1
  | Op_compensate node compensator => (region_compensate node compensator d).1
  | Op_compensate_with_retry node compensator retry timeout => (region_compensate_with_retry node compensator retry timeout d).1
  end.

Lemma line_new I next : line [] (graph_builder_new I next).1.
Proof.
  constructor; simpl; try done; [constructor|constructor|].
  intros k. split; [by rewrite elem_of_nil|by intros [? ?]].
Qed.

Lemma append_line {O} order d (m : Build (NodeRef O)) key shape maps :
  declares m key shape maps → line order d → ∃ order', line order' (append m d).1.
Proof.
  intros Hm Hl. destruct (append m d) as [d' [r|e|w]] eqn:Ha; simpl.
  - destruct (append_ok _ _ _ _ _ _ _ _ Hl Hm Ha) as (_ & n & _ & []). eauto.
  - exists order. apply (line_same_graph order d); [|done]. pose proof (append_err _ _ _ _ _ _ Hl Hm) as He. rewrite Ha in He. by apply He.
  - exists order. apply (line_same_graph order d); [|done]. pose proof (append_err _ _ _ _ _ _ Hl Hm) as He. rewrite Ha in He. by apply He.
Qed.

Lemma compensation_line order d key c : line order d → line order (set_compensation key c d).1.
Proof.
  intros Hl. destruct (set_compensation key c d) as [d' [[]|e|w]] eqn:Hc; simpl.
  - apply set_compensation_ok in Hc as (a & i & ms & re & old & next & Hn & ->). by eapply line_compensated.
  - apply (line_same_graph order d); [|done]. pose proof (set_compensation_harmless key c d) as Hh. rewrite Hc in Hh. by apply Hh.
  - apply (line_same_graph order d); [|done]. pose proof (set_compensation_harmless key c d) as Hh. rewrite Hc in Hh. by apply Hh.
Qed.

Lemma perform_line order d op : line order d → ∃ order', line order' (perform d op).
Proof.
  intros Hl. destruct op; simpl; try (by eapply append_line; eauto with building).
  - exists order. unfold region_compensate, attach_compensation. rewrite build_bind. simpl. by apply compensation_line.
  - exists order. unfold region_compensate_with_retry, attach_compensation_with_retry. rewrite build_bind. simpl.
    destruct (retry_validate retry); simpl; [|done..]. destruct (existsb _ _); [done|]. destruct (negb _); [done|].
    rewrite build_bind. simpl. destruct (duration_to_millis timeout); simpl; [by apply compensation_line|done..].
Qed.

Lemma performed_line ops d order : line order d → ∃ order', line order' (foldl perform d ops).
Proof.
  revert d order. induction ops as [|op ops IH]; intros d order Hl; simpl; [eauto|].
  destruct (perform_line order d op Hl) as [order' Hl']. by eapply IH.
Qed.

(** C32: appending makes a chain. Whatever calls the region builder received, failed
    ones included, a region it completes or fails is a line of distinct nodes from
    its start to the terminal node: each node leads to the next and nowhere else,
    the last has no exit, and no other node is in the region. *)
Theorem linear_region_is_a_chain {I O} next ops key (r : TypedRegion I O) :
  let b : RegionBuilder I := foldl perform (graph_builder_new I next).1 ops in
  (∃ output, region_complete b key output = Ok r) ∨ (∃ code message, region_fail O b key code message = Ok r) →
  ∃ order, chain order (tr_ir r) ∧ last order = Some key.
Proof.
  intros b Hr. destruct (performed_line ops _ _ (line_new I next)) as [order Hline]. exists (order ++ [key]).
  split; [|by rewrite last_snoc].
  destruct Hr as [(output & Hr)|(code & message & Hr)]; eapply end_with_ok in Hr as [Hchain _]; eauto with building.
Qed.
