(* ===== verification/FlowFacts.v ===== *)
(** * What the fluent builder promises

    A fluent sequence hands each value to the step of its type, so the regions it
    makes are typed, and refers backwards only, so they pass the check of
    definitions. *)
From stdpp Require Import base option gmap strings list fin_maps fin_sets.
From Stdlib Require Import ZArith Ascii Lia.
From S2P Require Import Prelude Value ValueFacts Ids Policy Catalog Ir Analysis Equality Domain Eval Evolve History Compiler AnalysisFacts CompilerFacts RecordFacts Builder BuilderFacts.

(** ** Chains pass the check *)

(** What a reference of node [n] may be when the nodes [before] ran. *)
Definition backward_reference (before : list string) (n : Node) (r : Reference) : Prop :=
  match r with
  | Reference_NodeOutput k => k ∈ before
  | Reference_LoopState | Reference_LoopIndex => is_loop_node n = true
  | Reference_ItemValue | Reference_ItemIndex => is_foreach_node n = true
  | Reference_ForwardInput | Reference_ForwardOutput => has_compensation n = true
  | _ => True
  end.

Definition backward (before : list string) (n : Node) : Prop :=
  ∀ b, b ∈ node_bindings n → binding_depth b ≤ MAX_DATA_DEPTH ∧ ∀ r, r ∈ binding_references b → backward_reference before n r.

Section Chain.
Context (r : Region) (order : list string) (Hchain : chain order r) (ctx : RegionCtx) (catalog : Catalog).
Hypothesis Hlimits : ∀ k n, region_node r k = Some n → check_node_limits n = Ok tt.
Hypothesis Hbackward : ∀ pre k post n, order = pre ++ k :: post → region_node r k = Some n → backward pre n.
Hypothesis Houtputs : ∀ pre k x post n, order = pre ++ k :: x :: post → region_node r k = Some n →
  success_output k n = Some (Reference_NodeOutput k).

Let nodes := region_nodes r.
Let base := base_references ctx.

Lemma sorted_NoDup {V} (m : list (string * V)) : keys_increasing m → NoDup m.*1.
Proof.
  induction m as [|[k v] m IH]; intros Hm; simpl; [constructor|]. pose proof (bt_get_fresh _ _ _ Hm) as Hf.
  apply keys_increasing_cons in Hm as [Hm _]. constructor; [|auto]. rewrite <-bt_get_is_Some, Hf. by intros [? ?].
Qed.

Lemma chain_node k : k ∈ order → ∃ n, region_node r k = Some n.
Proof. intros Hk. apply (ch_keys _ _ Hchain) in Hk as [n Hn]. eauto. Qed.

Lemma chain_link pre a b post : order = pre ++ a :: b :: post → linked nodes a b.
Proof.
  intros ->. apply (links_lookup nodes (pre ++ a :: b :: post) (length pre)); [apply Hchain| |].
  - by rewrite list_lookup_middle.
  - by rewrite lookup_app_r, Nat.sub_succ_l, Nat.sub_diag by lia.
Qed.

Lemma chain_successors k n : region_node r k = Some n →
  ∃ pre post, order = pre ++ k :: post ∧ node_successors n = match post with b :: _ => [("next", b)] | [] => [] end.
Proof.
  intros Hn. assert (k ∈ order) as Hk by (apply (ch_keys _ _ Hchain); eauto).
  apply list_elem_of_split in Hk as (pre & post & Ho). exists pre, post. split; [done|]. destruct post as [|b post].
  - apply (ch_end _ _ Hchain k); [|done]. by rewrite Ho, last_snoc.
  - destruct (chain_link _ _ _ _ Ho) as (n' & Hn' & Hs). unfold region_node in Hn. subst nodes. congruence.
Qed.

Lemma chain_scan : ∃ outgoing, outcome_fold (scan_node nodes) ∅ nodes = Ok outgoing ∧
  ∀ k, default [] (outgoing !! k) = out_edges nodes k.
Proof.
  assert (Hok : ∀ entries acc, (∀ e, e ∈ entries → e ∈ nodes) → ∃ outgoing, outcome_fold (scan_node nodes) acc entries = Ok outgoing).
  { induction entries as [|[k n] entries IH]; intros acc Hin; [by eexists|]. cbn [outcome_fold].
    assert (region_node r k = Some n) as Hn.
    { apply (bt_get_is_elem nodes); [apply Hchain|]. apply Hin. by left. }
    assert (∃ o, scan_node nodes acc (k, n) = Ok o) as [o ->]; [|apply IH; intros e He; apply Hin; by right].
    unfold scan_node. rewrite (Hlimits _ _ Hn). destruct (chain_successors _ _ Hn) as (pre & [|b post] & Ho & ->); [by eexists|].
    cbn [outcome_fold add_edge]. rewrite (proj2 (bt_contains_is_Some b nodes)); [by eexists|].
    apply (ch_keys _ _ Hchain). rewrite Ho. set_solver. }
  destruct (Hok nodes ∅) as [outgoing Hout]; [done|]. exists outgoing. split; [done|]. by apply scan_nodes in Hout as [_ ?].
Qed.

Lemma chain_edges (outgoing : outgoing_map) pre k post : (∀ k, default [] (outgoing !! k) = out_edges nodes k) → order = pre ++ k :: post →
  default [] (outgoing !! k) = match post with b :: _ => [(Edge_Next, b)] | [] => [] end.
Proof.
  intros Hout Ho. destruct (chain_node k) as [n Hn]; [rewrite Ho; set_solver|].
  rewrite Hout, (out_edges_NoDup nodes k n) by (try apply sorted_NoDup; try apply Hchain; done).
  destruct (chain_successors _ _ Hn) as (pre' & post' & Ho' & Hs). unfold edges_of. rewrite Hs.
  assert (post' = post) as ->; [|by destruct post].
  pose proof (ch_nodup _ _ Hchain) as Hnd. rewrite Ho in Hnd. rewrite Ho in Ho'. clear -Hnd Ho'.
  revert pre' Ho'. induction pre as [|x pre IH]; intros [|y pre'] Ho'; simpl in *; simplify_eq; [done| | |].
  - apply NoDup_cons in Hnd as [Hnin _]. set_solver.
  - apply NoDup_cons in Hnd as [Hnin _]. set_solver.
  - apply NoDup_cons in Hnd as [_ Hnd]. eauto.
Qed.

Lemma chain_acyclic (outgoing : outgoing_map) : (∀ k, default [] (outgoing !! k) = out_edges nodes k) →
  ∀ post pre k, order = pre ++ k :: post → acyclic_from outgoing k.
Proof.
  intros Hout. induction post as [|b post IH]; intros pre k Ho; constructor; intros c [e Hc];
    rewrite (chain_edges _ _ _ _ Hout Ho) in Hc; [by apply elem_of_nil in Hc|].
  apply list_elem_of_singleton in Hc as [= _ ->]. apply (IH (pre ++ [k])). by rewrite <-app_assoc.
Qed.

(** The turn of the loop that looks at [k]: the nodes before it were seen, and their
    outputs are available. *)
Lemma chain_loop (outgoing : outgoing_map) : (∀ k, default [] (outgoing !! k) = out_edges nodes k) →
  ∀ post pre k at_node avail fuel, order = pre ++ k :: post →
  at_node !! k = Some avail → base ⊆ avail → (∀ m, m ∈ pre → Reference_NodeOutput m ∈ avail) → (∀ m, m ∈ post → at_node !! m = None) →
  analyze_loop fuel nodes outgoing base ctx (mkFlow [k] (list_to_set pre) at_node) = Panic "out of fuel" ∨
  ∃ flow, analyze_loop fuel nodes outgoing base ctx (mkFlow [k] (list_to_set pre) at_node) = Ok flow ∧ fl_seen flow = list_to_set order.
Proof.
  intros Hout. induction post as [|b post IH]; intros pre k at_node avail fuel Ho Hk Hbase Hpre Hpost.
  all: destruct (chain_node k) as [n Hn]; [rewrite Ho; set_solver|].
  all: assert (k ∉ pre) as Hnew by (pose proof (ch_nodup _ _ Hchain) as Hnd; rewrite Ho in Hnd; apply NoDup_app in Hnd as (_ & Hd & _);
    intros Hin; apply (Hd k Hin); by left).
  all: destruct fuel as [|fuel]; [by left|]; cbn [analyze_loop]; unfold analyze_step; cbn [fl_pending fl_seen fl_at_node].
  all: rewrite bool_decide_eq_false_2 by (by rewrite elem_of_list_to_set).
  all: unfold region_node in Hn; fold nodes in Hn; rewrite Hn; cbn [unwrap mbind Outcome_bind]; rewrite Hk; cbn [default from_option id].
  all: assert (check_bindings n avail ctx = Ok tt) as -> by (
    unfold check_bindings; apply outcome_map_unit, Forall_forall; intros bnd Hbnd;
    destruct (Hbackward _ _ _ _ Ho Hn bnd Hbnd) as [Hdepth Hrefs]; unfold check_binding;
    rewrite (proj2 (Z.ltb_ge _ _)) by done; apply outcome_map_unit, Forall_forall; intros ref Href; specialize (Hrefs ref Href);
    destruct ref; simpl in *; rewrite ?Hrefs, ?andb_false_r; try done;
    rewrite bool_decide_eq_true_2 by auto; done).
  all: cbn [mbind Outcome_bind]; rewrite (chain_edges _ _ _ _ Hout Ho); cbn [foldl follow_edge fl_pending fl_seen fl_at_node].
  - destruct fuel as [|fuel]; [by left|]. right. eexists. split; [reflexivity|]. simpl. rewrite Ho, list_to_set_app_L. simpl. set_solver.
  - rewrite Hk, (Houtputs _ _ _ _ _ Ho Hn). cbn [default from_option id]. rewrite (Hpost b) by (by left). cbn [default from_option id].
    assert (list_to_set (pre ++ [k]) = {[k]} ∪ list_to_set (C := gset string) pre) as Hseen by (rewrite list_to_set_app_L; set_solver).
    rewrite <-Hseen. apply (IH (pre ++ [k]) b _ (({[Reference_NodeOutput k]} ∪ avail) ∩ ({[Reference_NodeOutput k]} ∪ avail))).
    + by rewrite <-app_assoc.
    + by rewrite lookup_insert_eq.
    + rewrite (idemp_L (∩)). etransitivity; [exact Hbase|apply union_subseteq_r].
    + intros m Hm. apply elem_of_app in Hm as [Hm|Hm%list_elem_of_singleton]; [pose proof (Hpre m Hm); set_solver|subst; set_solver].
    + intros m Hm. rewrite lookup_insert_ne; [apply Hpost; by right|]. intros <-.
      pose proof (ch_nodup _ _ Hchain) as Hnd. rewrite Ho in Hnd. apply NoDup_app in Hnd as (_ & _ & Hnd).
      apply NoDup_cons in Hnd as [_ Hnd]. by apply NoDup_cons in Hnd as [? _].
Qed.

Lemma chain_analyzed : analyze_region r ctx catalog = Ok tt.
Proof.
  assert (∃ post, order = region_start r :: post) as [post Ho].
  { pose proof (ch_start _ _ Hchain) as Hstart. destruct order as [|k post]; [done|]. injection Hstart as ->. eauto. }
  assert (is_Some (region_node r (region_start r))) as Hsome by (apply (ch_keys _ _ Hchain); rewrite Ho; by left).
  pose proof (analyze_region_no_panic r ctx catalog Hsome) as Hnp. unfold analyze_region in *. fold nodes in Hnp |- *. fold base in Hnp |- *.
  destruct chain_scan as (outgoing & Hscan & Hout). rewrite Hscan in Hnp |- *. cbn [mbind Outcome_bind] in Hnp |- *.
  rewrite (proj2 (detect_cycle_ok _ _) (chain_acyclic outgoing Hout post [] (region_start r) Ho)) in Hnp |- *. cbn [mbind Outcome_bind] in Hnp |- *.
  destruct (chain_loop outgoing Hout post [] (region_start r) {[region_start r := base]} base (2 + edge_count nodes)) as [Hp|(flow & Hf & Hs)].
  - done.
  - by rewrite lookup_singleton_eq.
  - done.
  - intros m Hm. by apply elem_of_nil in Hm.
  - intros m Hm. rewrite lookup_singleton_ne; [done|]. intros <-. pose proof (ch_nodup _ _ Hchain) as Hnd. rewrite Ho in Hnd.
    by apply NoDup_cons in Hnd as [? _].
  - change (list_to_set (C := gset string) []) with (∅ : gset string) in Hp. rewrite Hp in Hnp. done.
  - change (list_to_set (C := gset string) []) with (∅ : gset string) in Hf. rewrite Hf. cbn [mbind Outcome_bind]. rewrite Hs.
    assert (order ≡ₚ nodes.*1) as Hperm.
    { apply NoDup_Permutation; [apply Hchain|apply sorted_NoDup, Hchain|]. intros x. rewrite (ch_keys _ _ Hchain).
      unfold region_node. by rewrite bt_get_is_Some. }
    rewrite size_list_to_set by apply Hchain. rewrite Hperm. unfold zlen. rewrite length_fmap, Z.eqb_refl. done.
Qed.
End Chain.

(** ** Schemas *)
Definition input_of (r : Region) : SchemaRef := let 'mkRegion _ input _ _ _ := r in input.
Definition output_of (r : Region) : SchemaRef := let 'mkRegion _ _ output _ _ := r in output.
Definition bodies_of (n : Node) : list Region := (child_regions n).*2.

Section Typing.
Context (catalog : Catalog) (σ : string → SchemaRef) (wf : SchemaRef).

(** The schema of what a node puts out, when [σ] is that of every signal. *)
Definition node_schema (n : Node) : option SchemaRef :=
  match n with
  | Node_Activity activity _ _ _ _ _ => ac_output_schema <$> bt_get activity (cat_activities catalog)
  | Node_Choose _ _ default_ _ => Some (output_of default_)
  | Node_WaitSignal signal _ _ _ _ _ => Some (σ signal)
  | Node_While _ schema _ _ _ _ | Node_DoWhile _ schema _ _ _ _ | Node_Repeat _ _ schema _ _ _ => Some schema
  | Node_Foreach _ _ _ _ body _ => Some (SchemaRef_Array (output_of body))
  | Node_Parallel branches _ => Some (SchemaRef_Tuple ((λ b, output_of (branch_body b)) <$> branches))
  | Node_Saga _ body _ => Some (output_of body)
  | Node_Delay _ _ | Node_WaitUntil _ _ | Node_Complete _ | Node_Fail _ => None
  end.

(** The schema of a whole value in a region with the input schema [input]; [wf] is
    that of the workflow. *)
Definition value_schema (nodes : list (string * Node)) (input : SchemaRef) (b : Binding) : option SchemaRef :=
  match b with
  | Binding_From Reference_WorkflowInput None => Some wf
  | Binding_From Reference_ScopeInput None => Some input
  | Binding_From (Reference_NodeOutput k) None => n ← bt_get k nodes; node_schema n
  | Binding_Literal value => Some (infer_literal_schema value)
  | _ => None
  end.

(** A compensation takes the output of its activity. *)
Definition compensation_typed (forward : ActivityContract) (c : Compensation) : Prop :=
  match c with
  | Compensation_Activity activity input _ _ =>
      input = from_ref Reference_ForwardOutput ∧
      ∃ handler, bt_get activity (cat_activities catalog) = Some handler ∧ ac_input_schema handler = ac_output_schema forward
  | Compensation_Irreversible _ => True
  end.

Definition carries (schema : SchemaRef) (body : Region) : Prop := input_of body = schema ∧ output_of body = schema.

(** Every consumer gets a value of the schema it declares. *)
Definition node_typed (nodes : list (string * Node)) (input output : SchemaRef) (n : Node) : Prop :=
  match n with
  | Node_Activity activity b _ _ compensation _ =>
      ∃ contract, bt_get activity (cat_activities catalog) = Some contract ∧
        value_schema nodes input b = Some (ac_input_schema contract) ∧ (∀ c, compensation = Some c → compensation_typed contract c)
  | Node_Choose b cases default_ _ =>
      value_schema nodes input b = Some (input_of default_) ∧
      Forall (λ c, input_of (case_body c) = input_of default_ ∧ output_of (case_body c) = output_of default_) cases
  | Node_WaitSignal _ key _ _ _ _ => value_schema nodes input key = Some SchemaRef_String
  | Node_Complete b => value_schema nodes input b = Some output
  | Node_While state schema _ _ body _ | Node_DoWhile state schema _ _ body _ =>
      value_schema nodes input state = Some schema ∧ carries schema body
  | Node_Repeat count state schema _ body _ =>
      value_schema nodes input count = Some SchemaRef_Integer ∧ value_schema nodes input state = Some schema ∧ carries schema body
  | Node_Foreach items schema _ _ body _ => value_schema nodes input items = Some (SchemaRef_Array schema) ∧ input_of body = schema
  | Node_Parallel branches _ => Forall (λ b, value_schema nodes input (branch_input b) = Some (input_of (branch_body b))) branches
  | Node_Saga b body _ => value_schema nodes input b = Some (input_of body)
  | Node_Delay _ _ | Node_WaitUntil _ _ | Node_Fail _ => True
  end.

Inductive typed_region : Region → Prop :=
| typed_region_intro r :
    (∀ k n, region_node r k = Some n → node_typed (region_nodes r) (input_of r) (output_of r) n) →
    (∀ k n body, region_node r k = Some n → body ∈ bodies_of n → typed_region body) → typed_region r.

(** Every signal waited for is declared, with its schema. *)
Definition wait_declared (signals : list (string * SchemaRef)) (n : Node) : Prop :=
  match n with Node_WaitSignal signal _ _ _ _ _ => bt_get signal signals = Some (σ signal) | _ => True end.

Inductive waits_declared (signals : list (string * SchemaRef)) : Region → Prop :=
| waits_declared_intro r :
    (∀ k n, region_node r k = Some n → wait_declared signals n) →
    (∀ k n body, region_node r k = Some n → body ∈ bodies_of n → waits_declared signals body) → waits_declared signals r.

(** A region that passes the check and is typed, with its bodies. *)
Inductive sound_region : Region → Prop :=
| sound_region_intro r order :
    chain order r →
    (∀ k n, region_node r k = Some n → node_typed (region_nodes r) (input_of r) (output_of r) n) →
    (∀ k n, region_node r k = Some n → check_node_limits n = Ok tt) →
    (∀ pre k post n, order = pre ++ k :: post → region_node r k = Some n → backward pre n) →
    (∀ pre k x post n, order = pre ++ k :: x :: post → region_node r k = Some n → success_output k n = Some (Reference_NodeOutput k)) →
    (∀ k n body, region_node r k = Some n → body ∈ bodies_of n → sound_region body) → sound_region r.

Lemma sound_typed r : sound_region r → typed_region r.
Proof. induction 1 as [r order _ Htyped _ _ _ _ IH]. constructor; eauto. Qed.

Lemma sound_analyzed r : sound_region r → ∀ ctx, analyze_tree r ctx catalog = Ok tt.
Proof.
  induction 1 as [r order Hchain _ Hlim Hback Hout _ IH]. intros ctx. apply analyze_tree_ok.
  split; [by eapply chain_analyzed|]. apply Forall_forall. intros [k n] Hin. simpl.
  apply (bt_get_is_elem (region_nodes r)) in Hin; [|apply Hchain]. apply analyze_children_ok, Forall_forall.
  intros [body body_ctx] Hbody. apply (IH k n body Hin). unfold bodies_of. clear -Hbody.
  destruct n; simpl in *; try (by apply elem_of_nil in Hbody); try (apply list_elem_of_singleton in Hbody as [= -> _]; by left).
  - rewrite fmap_app. apply elem_of_app in Hbody as [Hbody|Hbody]; apply elem_of_app; [left|right].
    + apply list_elem_of_fmap in Hbody as (c & [= -> _] & Hc). rewrite <-list_fmap_compose. apply list_elem_of_fmap. by exists c.
    + apply list_elem_of_singleton in Hbody as [= -> _]. by left.
  - apply list_elem_of_fmap in Hbody as (b & [= -> _] & Hb). rewrite <-list_fmap_compose. apply list_elem_of_fmap. by exists b.
Qed.

Lemma waits_declared_mono signals signals' r :
  (∀ s, bt_get s signals = Some (σ s) → bt_get s signals' = Some (σ s)) → waits_declared signals r → waits_declared signals' r.
Proof.
  intros Hsig. induction 1 as [r Hown _ IH]. constructor; [|done]. intros k n Hn. specialize (Hown k n Hn).
  destruct n; simpl in *; auto.
Qed.

(** *** Relinking a node keeps all this *)
Lemma core_cases n n' : core n' = core n → n' = n ∨ ∃ next, with_next n next = Some n'.
Proof.
  intros Hc. destruct n, n'; unfold core in Hc; simpl in *; try discriminate; simplify_eq; eauto.
Qed.

Lemma core_same n n' : core n' = core n →
  node_schema n' = node_schema n ∧ (∀ nodes i o, node_typed nodes i o n → node_typed nodes i o n') ∧
  check_node_limits n' = check_node_limits n ∧ (∀ before, backward before n → backward before n') ∧
  (∀ k, success_output k n' = success_output k n) ∧ (∀ signals, wait_declared signals n → wait_declared signals n') ∧
  bodies_of n' = bodies_of n.
Proof. intros [->|[next Hn]]%core_cases; [by auto 10|]. destruct n; simpl in Hn; simplify_eq; by split_and!. Qed.

Definition keeps_schemas (m m' : list (string * Node)) : Prop :=
  ∀ k n, bt_get k m = Some n → ∃ n', bt_get k m' = Some n' ∧ node_schema n' = node_schema n.

Lemma value_schema_keeps m m' input b s : keeps_schemas m m' → value_schema m input b = Some s → value_schema m' input b = Some s.
Proof.
  intros Hk. destruct b as [[] []| | |]; try done. simpl. intros (n & Hn & Hs)%bind_Some.
  destruct (Hk _ _ Hn) as (n' & -> & Hs'). simpl. congruence.
Qed.

Lemma node_typed_keeps m m' i o n : keeps_schemas m m' → node_typed m i o n → node_typed m' i o n.
Proof.
  intros Hk. pose proof (λ b s, value_schema_keeps m m' i b s Hk) as Hv.
  destruct n; simpl; try naive_solver. intros Hb. eapply Forall_impl; [exact Hb|]. simpl. auto.
Qed.
End Typing.

(** ** Fluent programs *)

(** What a condition of a case may read in a sequence: the inputs, and the outputs
    of the steps the sequence has. *)
Definition case_reference (d : Draft) (r : Reference) : Prop :=
  match r with
  | Reference_WorkflowInput | Reference_ScopeInput | Reference_ScopeId => True
  | Reference_NodeOutput k => is_Some (bt_get k (dr_nodes d))
  | _ => False
  end.

(** A condition within the limits that reads only such values. *)
Definition case_condition (d : Draft) (c : Condition) : Prop :=
  operator_count c ≤ MAX_CONDITION_OPS ∧
  ∀ b, b ∈ condition_bindings c → binding_depth b ≤ MAX_DATA_DEPTH ∧ ∀ r, r ∈ binding_references b → case_reference d r.

Lemma case_reference_backward order d n r : line order d → case_reference d r → backward_reference order n r.
Proof. intros Hline. destruct r; simpl; try done. apply (li_keys _ _ Hline). Qed.

Section Fluent.
Context (catalog : Catalog) (σ : string → SchemaRef) (wf : SchemaRef).

(** The sequences and regions that the calls of [flow.rs] make, with handles of
    activities from [catalog] and of signals with the schemas [σ]. A [rooted]
    sequence began as a workflow with the input schema [wf]; bodies begin as
    regions. *)
Inductive fluent_seq : bool → ∀ {I Cur}, Sequence I Cur → Prop :=
| fluent_region_new I next : fluent_seq false (region_new I next).1
| fluent_workflow_new id next : fluent_seq true (wf_seq (workflow_new wf id next).1)
| fluent_activity rooted I Cur O name version key (act : ActivityRef Cur O) (s : Sequence I Cur) s' :
    fluent_seq rooted s → activity_from_catalog catalog Cur O name version = Ok act → seq_activity s key act = Ok s' → fluent_seq rooted s'
| fluent_compensate rooted I Cur U name version (act : ActivityRef Cur U) (s : Sequence I Cur) s' :
    fluent_seq rooted s → activity_from_catalog catalog Cur U name version = Ok act → seq_compensate s act = Ok s' → fluent_seq rooted s'
| fluent_compensate_with_retry rooted I Cur U name version retry timeout (act : ActivityRef Cur U) (s : Sequence I Cur) s' :
    fluent_seq rooted s → activity_from_catalog catalog Cur U name version = Ok act →
    seq_compensate_with_retry s act retry timeout = Ok s' → fluent_seq rooted s'
| fluent_wait_signal rooted I Cur name key correlation signal (s : Sequence I Cur) s' :
    fluent_seq rooted s → signal_new (σ name) name = Ok signal → seq_wait_signal s key signal correlation = Ok s' → fluent_seq rooted s'
| fluent_while_lt rooted I Cur key path value max (body : TypedRegion Cur Cur) (s : Sequence I Cur) s' :
    fluent_seq rooted s → fluent_region body → seq_while_lt s key path value body max = Ok s' → fluent_seq rooted s'
| fluent_repeat rooted I Cur key count max (body : TypedRegion Cur Cur) (s : Sequence I Cur) s' :
    fluent_seq rooted s → fluent_region body → seq_repeat s key count body max = Ok s' → fluent_seq rooted s'
| fluent_foreach rooted I A B key max_items max (body : TypedRegion A B) (s : Sequence I (SchemaRef_Array A)) s' :
    fluent_seq rooted s → fluent_region body → seq_foreach s key body max_items max = Ok s' → fluent_seq rooted s'
| fluent_saga rooted I Cur B key (body : TypedRegion Cur B) (s : Sequence I Cur) s' :
    fluent_seq rooted s → fluent_region body → seq_saga s key body = Ok s' → fluent_seq rooted s'
| fluent_choose rooted I A B (c : Choose I A B) default_ a :
    fluent_seq rooted (ch_seq c) → (∀ case, case ∈ ch_cases c → fluent_region (ca_body case)) →
    (∀ case, case ∈ ch_cases c → case_condition (sq_inner (ch_seq c)) (ca_when case)) → fluent_region default_ →
    choose_otherwise c default_ = Ok a → fluent_seq rooted (af_seq a)
| fluent_parallel rooted I Cur Os (p : ParallelStart I Cur) (bodies : ParallelBodies Cur Os) a :
    fluent_seq rooted (pl_seq p) → fluent_bodies bodies → parallel_branches p bodies = Ok a → fluent_seq rooted (af_seq a)
with fluent_region : ∀ {I O}, TypedRegion I O → Prop :=
| fluent_complete I Cur key (s : Sequence I Cur) r : fluent_seq false s → seq_complete s key = Ok r → fluent_region r
| fluent_fail I Cur O key code message (s : Sequence I Cur) (r : TypedRegion I O) :
    fluent_seq false s → seq_fail O s key code message = Ok r → fluent_region r
with fluent_bodies : ∀ {Cur Os}, ParallelBodies Cur Os → Prop :=
| fluent_bodies_nil Cur : fluent_bodies (bodies_nil (Cur := Cur))
| fluent_bodies_cons Cur O Os name (body : TypedRegion Cur O) (rest : ParallelBodies Cur Os) :
    fluent_region body → fluent_bodies rest → fluent_bodies (bodies_cons name body rest).

Scheme fluent_seq_mut := Minimality for fluent_seq Sort Prop
  with fluent_region_mut := Minimality for fluent_region Sort Prop
  with fluent_bodies_mut := Minimality for fluent_bodies Sort Prop.
Combined Scheme fluent_ind from fluent_seq_mut, fluent_region_mut, fluent_bodies_mut.

(** *** What they keep *)
Record good_draft (order : list string) (I : SchemaRef) (d : Draft) : Prop := mkGoodDraft {
  gd_line : line order d;
  gd_typed : ∀ k n, bt_get k (dr_nodes d) = Some n → ∀ output, node_typed catalog σ wf (dr_nodes d) I output n;
  gd_limits : ∀ k n, bt_get k (dr_nodes d) = Some n → check_node_limits n = Ok tt;
  gd_outputs : ∀ k n, bt_get k (dr_nodes d) = Some n → success_output k n = Some (Reference_NodeOutput k);
  gd_backward : ∀ pre k post n, order = pre ++ k :: post → bt_get k (dr_nodes d) = Some n → backward pre n;
  gd_bodies : ∀ k n body, bt_get k (dr_nodes d) = Some n → body ∈ bodies_of n →
    sound_region catalog σ wf body ∧ waits_declared σ (dr_signals d) body;
  gd_signals : consistent σ (dr_signals d);
  gd_waits : ∀ k n, bt_get k (dr_nodes d) = Some n → wait_declared σ (dr_signals d) n;
}.

(** A value a step may use: an input, or the output of a node of the line. *)
Definition own_value (order : list string) (I : SchemaRef) (d : Draft) (schema : SchemaRef) (b : Binding) : Prop :=
  value_schema catalog σ wf (dr_nodes d) I b = Some schema ∧ binding_depth b ≤ MAX_DATA_DEPTH ∧
  ∀ n r, r ∈ binding_references b → backward_reference order n r.

Definition good_region {I O} (r : TypedRegion I O) : Prop :=
  sound_region catalog σ wf (tr_ir r) ∧ consistent σ (tr_signals r) ∧ waits_declared σ (tr_signals r) (tr_ir r) ∧
  input_of (tr_ir r) = I ∧ output_of (tr_ir r) = O.

Definition good_seq {I Cur} (s : Sequence I Cur) : Prop := ∃ order,
  good_draft order I (sq_inner s) ∧ own_value order I (sq_inner s) Cur (vl_binding (sq_last s)) ∧
  ∀ node, sq_last_activity s = Some node → ∃ activity b ms retry compensation next contract,
    bt_get (nr_key node) (dr_nodes (sq_inner s)) = Some (Node_Activity activity b ms retry compensation next) ∧
    bt_get activity (cat_activities catalog) = Some contract ∧ ac_output_schema contract = Cur.

Inductive good_bodies : ∀ {Cur Os}, ParallelBodies Cur Os → Prop :=
| good_bodies_nil Cur : good_bodies (bodies_nil (Cur := Cur))
| good_bodies_cons Cur O Os name (body : TypedRegion Cur O) (rest : ParallelBodies Cur Os) :
    good_region body → good_bodies rest → good_bodies (bodies_cons name body rest).

Lemma declared_extends maps m m' s :
  extends maps m m' → consistent σ m → Forall (consistent σ) maps → bt_get s m = Some (σ s) → bt_get s m' = Some (σ s).
Proof.
  intros [Hc Hk] Hm Hmaps Hs. destruct (Hk s) as [x Hx]; [left; eauto|]. rewrite Hx. f_equal.
  apply (Hc σ Hm Hmaps). by apply bt_get_elem.
Qed.

Lemma declared_map maps m m' o s :
  extends maps m m' → consistent σ m → Forall (consistent σ) maps → o ∈ maps → is_Some (bt_get s o) → bt_get s m' = Some (σ s).
Proof.
  intros [Hc Hk] Hm Hmaps Ho Hs. destruct (Hk s) as [x Hx]; [right; apply Exists_exists; eauto|]. rewrite Hx. f_equal.
  apply (Hc σ Hm Hmaps). by apply bt_get_elem.
Qed.

(** What a declared node must have, in the draft it is declared in. *)
Record fits (order : list string) (I : SchemaRef) (d : Draft) (maps : list (list (string * SchemaRef))) (n : Node) : Prop := mkFits {
  fi_typed : ∀ output, node_typed catalog σ wf (dr_nodes d) I output n;
  fi_limits : check_node_limits n = Ok tt;
  fi_output : ∀ k, success_output k n = Some (Reference_NodeOutput k);
  fi_backward : backward order n;
  fi_bodies : ∀ body, body ∈ bodies_of n → sound_region catalog σ wf body ∧ ∃ signals, signals ∈ maps ∧ waits_declared σ signals body;
  fi_wait : ∀ signals, (∀ m s, m ∈ maps → is_Some (bt_get s m) → bt_get s signals = Some (σ s)) → wait_declared σ signals n;
  fi_maps : Forall (consistent σ) maps;
}.

Lemma appended_keeps order key n maps d d' : appended order key n maps d d' → keeps_schemas catalog σ (dr_nodes d) (dr_nodes d').
Proof.
  intros [_ Hfresh _ _ _ Hoth _] k m Hm. assert (k ≠ key) as Hne by congruence. specialize (Hoth k Hne). rewrite Hm in Hoth.
  destruct (bt_get k (dr_nodes d')) as [m'|]; [|done]. injection Hoth as Hc. exists m'. split; [done|].
  by destruct (core_same catalog σ wf _ _ Hc) as (? & _).
Qed.

Lemma good_appended order I d d' key n maps :
  good_draft order I d → fits order I d maps n → appended order key n maps d d' → good_draft (order ++ [key]) I d'.
Proof.
  intros [Hline Htyped Hlim Hout Hback Hbod Hsig Hwait] [Ft Fl Fo Fb Fbod Fw Fm] Happ.
  pose proof (appended_keeps _ _ _ _ _ _ Happ) as Hkeep. destruct Happ as [Hline' Hfresh _ _ Hnode Hoth Hext].
  assert (Hold : ∀ k m', bt_get k (dr_nodes d') = Some m' → k = key ∧ m' = n ∨
    k ≠ key ∧ ∃ m, bt_get k (dr_nodes d) = Some m ∧ core m' = core m).
  { intros k m' Hm'. destruct (decide (k = key)) as [->|Hne]; [left; split; congruence|right]. split; [done|].
    specialize (Hoth k Hne). rewrite Hm' in Hoth. destruct (bt_get k (dr_nodes d)) as [m|]; [|done]. injection Hoth as Hc. eauto. }
  assert (Hdecl : ∀ s, bt_get s (dr_signals d) = Some (σ s) → bt_get s (dr_signals d') = Some (σ s)).
  { intros s. by eapply declared_extends. }
  constructor.
  - exact Hline'.
  - intros k m' [[-> ->]|(Hne & m & Hm & Hc)]%Hold output; apply (node_typed_keeps catalog σ wf (dr_nodes d) _ _ _ _ Hkeep); [apply Ft|].
    destruct (core_same catalog σ wf _ _ Hc) as (_ & Ht & _). apply Ht. by eapply Htyped.
  - intros k m' [[-> ->]|(Hne & m & Hm & Hc)]%Hold; [done|]. destruct (core_same catalog σ wf _ _ Hc) as (_ & _ & -> & _). eauto.
  - intros k m' [[-> ->]|(Hne & m & Hm & Hc)]%Hold; [done|]. destruct (core_same catalog σ wf _ _ Hc) as (_ & _ & _ & _ & -> & _). eauto.
  - intros pre k post m' Ho [[-> ->]|(Hne & m & Hm & Hc)]%Hold.
    + assert (pre = order) as ->; [|done]. pose proof (li_nodup _ _ Hline') as Hnd. rewrite Ho in Hnd.
      destruct (decide (post = [])) as [->|Hpost]; [by apply app_inj_tail in Ho as [-> _]|].
      exfalso. destruct (exists_last Hpost) as (post' & x & ->). change (pre ++ key :: post' ++ [x]) with (pre ++ (key :: post') ++ [x]) in Ho.
      rewrite app_assoc in Ho. apply app_inj_tail in Ho as [_ <-]. apply NoDup_app in Hnd as (_ & _ & Hnd).
      apply NoDup_cons in Hnd as [Hnin _]. set_solver.
    + destruct (core_same catalog σ wf _ _ Hc) as (_ & _ & _ & Hb & _). apply Hb.
      destruct (decide (post = [])) as [->|Hpost]; [by apply app_inj_tail in Ho as [_ ->]|].
      destruct (exists_last Hpost) as (post' & x & ->). change (pre ++ k :: post' ++ [x]) with (pre ++ (k :: post') ++ [x]) in Ho.
      rewrite app_assoc in Ho. apply app_inj_tail in Ho as [Ho _]. by eapply Hback.
  - intros k m' body [[-> ->]|(Hne & m & Hm & Hc)]%Hold Hbody.
    + destruct (Fbod body Hbody) as (Hs & signals & Hin & Hw). split; [done|]. apply (waits_declared_mono σ signals); [|done].
      intros s Hs'. eapply declared_map; eauto.
    + destruct (core_same catalog σ wf _ _ Hc) as (_ & _ & _ & _ & _ & _ & Hb). rewrite Hb in Hbody.
      destruct (Hbod _ _ _ Hm Hbody) as [Hs Hw]. split; [done|]. by apply (waits_declared_mono σ (dr_signals d)).
  - destruct Hext as [Hc _]. by apply Hc.
  - intros k m' [[-> ->]|(Hne & m & Hm & Hc)]%Hold.
    + apply Fw. intros o s Ho Hs. eapply declared_map; eauto.
    + destruct (core_same catalog σ wf _ _ Hc) as (_ & _ & _ & _ & _ & Hw & _). apply Hw. specialize (Hwait _ _ Hm).
      destruct m; simpl in *; auto.
Qed.

Lemma own_value_appended order I d d' key n maps schema b :
  appended order key n maps d d' → own_value order I d schema b → own_value (order ++ [key]) I d' schema b.
Proof.
  intros Happ (Hv & Hd & Hr). split; [by eapply value_schema_keeps; [eapply appended_keeps|]|]. split; [done|].
  intros m r Hin. specialize (Hr m r Hin). destruct r; simpl in *; try done. set_solver.
Qed.

(** The output of the step that was appended. *)
Lemma own_output order I d d' key n maps schema scope :
  appended order key n maps d d' → node_schema catalog σ n = Some schema →
  own_value (order ++ [key]) I d' schema (vl_binding (node_output (mkNodeRef (O := schema) key scope))).
Proof.
  intros [_ _ _ _ Hn _ _] Hs. split; [simpl; by rewrite Hn|]. split; [done|].
  intros m r Hr%list_elem_of_singleton. subst r. simpl. set_solver.
Qed.

(** *** Steps *)
Lemma built_ok {A} (m : Build A) d a d' : built m d = Ok (a, d') ↔ m d = (d', Ok a).
Proof. unfold built. destruct (m d) as [d1 [x|e|w]]; simpl; naive_solver. Qed.

Lemma good_step {O} order I d (m : Build (NodeRef O)) key shape maps r inner :
  good_draft order I d → declares m key shape maps → built (append m) d = Ok (r, inner) →
  (∀ n, shape n → fits order I d maps n ∧ node_schema catalog σ n = Some O) →
  ∃ order', good_draft order' I inner ∧ own_value order' I inner O (vl_binding (node_output r)) ∧
    ∃ n, shape n ∧ bt_get (nr_key r) (dr_nodes inner) = Some n.
Proof.
  intros Hd Hm Hb%built_ok Hn. destruct (append_ok _ _ _ _ _ _ _ _ (gd_line _ _ _ Hd) Hm Hb) as (-> & n & Hs & Happ).
  destruct (Hn n Hs) as [Hfit Hschema]. exists (order ++ [key]). split; [by eapply good_appended|].
  split; [by eapply own_output|]. exists n. split; [done|]. apply Happ.
Qed.

(** A step without an activity of its own. *)
Lemma good_after {Cur O} order I d (m : Build (NodeRef O)) key shape maps r (s : Sequence I Cur) :
  sq_inner s = d → good_draft order I d → declares m key shape maps → built (append m) d = Ok r →
  (∀ n, shape n → fits order I d maps n ∧ node_schema catalog σ n = Some O) → good_seq (after_node (I := I) r).
Proof.
  intros _ Hd Hm Hb Hn. destruct r as [r inner]. destruct (good_step _ _ _ _ _ _ _ _ _ Hd Hm Hb Hn) as (order' & Hg & Hv & _).
  exists order'. split; [done|]. split; [done|]. done.
Qed.

Lemma own_backward order I d schema b n : own_value order I d schema b →
  binding_depth b ≤ MAX_DATA_DEPTH ∧ ∀ r, r ∈ binding_references b → backward_reference order n r.
Proof. intros (_ & Hd & Hr). eauto. Qed.

Lemma literal_backward order v n : binding_depth (Binding_Literal v) ≤ MAX_DATA_DEPTH ∧
  ∀ r, r ∈ binding_references (Binding_Literal v) → backward_reference order n r.
Proof. split; [done|]. intros r Hr. by apply elem_of_nil in Hr. Qed.

Lemma forward_backward order n : has_compensation n = true → binding_depth (from_ref Reference_ForwardOutput) ≤ MAX_DATA_DEPTH ∧
  ∀ r, r ∈ binding_references (from_ref Reference_ForwardOutput) → backward_reference order n r.
Proof. intros Hn. split; [done|]. by intros r ->%list_elem_of_singleton. Qed.

Lemma from_catalog_ok I O name version act : activity_from_catalog catalog I O name version = Ok act →
  ∃ contract, bt_get (ar_key act) (cat_activities catalog) = Some contract ∧ ac_input_schema contract = I ∧ ac_output_schema contract = O.
Proof.
  unfold activity_from_catalog, catalog_activity. intros (contract & Hc%ok_or_ok & Hact)%outcome_bind_ok.
  destruct (_ || _) eqn:Hs; [done|]. injection Hact as <-. to_prop. exists contract. naive_solver.
Qed.

(** Everything about the body of a control node. *)
Lemma body_fits {A B} (body : TypedRegion A B) (maps : list (list (string * SchemaRef))) :
  good_region body → tr_signals body ∈ maps →
  sound_region catalog σ wf (tr_ir body) ∧ ∃ signals, signals ∈ maps ∧ waits_declared σ signals (tr_ir body).
Proof. intros (? & _ & ? & _) ?. eauto. Qed.

Lemma good_activity {I Cur O} name version key (act : ActivityRef Cur O) (s : Sequence I Cur) s' :
  good_seq s → activity_from_catalog catalog Cur O name version = Ok act → seq_activity s key act = Ok s' → good_seq s'.
Proof.
  intros (order & Hd & Hlast & _) Hact Hs. destruct (from_catalog_ok _ _ _ _ _ Hact) as (contract & Hc & Hin & Hout).
  unfold seq_activity in Hs. apply outcome_bind_ok in Hs as ([node inner] & Hb & [= <-]).
  unfold region_activity in Hb.
  destruct (good_step _ _ _ _ _ _ _ _ _ Hd (declares_activity key act (sq_last s)) Hb) as (order' & Hg & Hv & n & [ms ->] & Hn).
  - intros n [ms ->]. split; [|by simpl; rewrite Hc; simpl; rewrite Hout]. constructor; simpl; try done.
    + intros _. exists contract. split; [done|]. split; [|done]. destruct Hlast as [Hv _]. unfold into_binding, ValueRef_input. by rewrite Hv, Hin.
    + intros b ->%list_elem_of_singleton. by eapply own_backward.
    + intros body Hb'. by apply elem_of_nil in Hb'.
  - exists order'. split; [done|]. split; [done|]. simpl. intros node' [= <-]. eauto 12.
Qed.

(** A compensation replaces the last activity by itself with its compensation. *)
Lemma good_compensated {I Cur} (s : Sequence I Cur) node key input ms retry c inner handler :
  good_seq s → sq_last_activity s = Some node → bt_get key (cat_activities catalog) = Some handler → ac_input_schema handler = Cur →
  input = from_ref Reference_ForwardOutput → c = Compensation_Activity key input ms retry →
  set_compensation (nr_key node) c (sq_inner s) = (inner, Ok tt) → good_seq (I := I) (mkSequence inner (sq_last s) (sq_last_activity s)).
Proof.
  intros (order & Hd & Hlast & Hact) Hnode Hkey Hin -> Hcomp Hset.
  apply set_compensation_ok in Hset as (a & b & ms2 & re & old & next & Hn & ->).
  destruct (Hact _ Hnode) as (a' & b' & ms' & re' & old' & next' & contract & Hn' & Hc & Hcout). rewrite Hn in Hn'. simplify_eq.
  set (new := Node_Activity a' b' ms' re' (Some (Compensation_Activity key (from_ref Reference_ForwardOutput) ms retry)) next').
  assert (Hkeep : keeps_schemas catalog σ (dr_nodes (sq_inner s)) (str_insert (nr_key node) new (dr_nodes (sq_inner s)))).
  { intros k n Hk. rewrite bt_get_insert. case_decide; [|eauto]. subst k. exists new. rewrite Hn in Hk. by injection Hk as <-. }
  assert (Hold : ∀ k m, bt_get k (str_insert (nr_key node) new (dr_nodes (sq_inner s))) = Some m →
    k = nr_key node ∧ m = new ∨ bt_get k (dr_nodes (sq_inner s)) = Some m).
  { intros k m. rewrite bt_get_insert. case_decide; [left; split; congruence|by right]. }
  destruct Hd as [Hline Htyped Hlim Hout Hback Hbod Hsig Hwait].
  exists order. split_and!.
  - constructor; simpl; [by eapply line_compensated| | | | | |done|].
    + intros k m [[-> ->]|Hm]%Hold output; apply (node_typed_keeps catalog σ wf _ _ _ _ _ Hkeep); [|by eapply Htyped].
      destruct (Htyped _ _ Hn output) as (con & Hcon & Hv & _). simpl. exists con. split; [done|]. split; [done|].
      intros c [= <-]. split; [done|]. exists handler. split; [done|]. congruence.
    + intros k m [[-> ->]|Hm]%Hold; [done|eauto].
    + intros k m [[-> ->]|Hm]%Hold; [done|eauto].
    + intros pre k post m Ho [[-> ->]|Hm]%Hold; [|eauto]. intros bnd Hbnd. simpl in Hbnd. apply elem_of_cons in Hbnd as [-> | ->%list_elem_of_singleton].
      * assert (b' ∈ node_bindings (Node_Activity a' b' ms' re' old' next')) as Hb' by (simpl; by left).
        destruct (Hback _ _ _ _ Ho Hn b' Hb') as [Hdep Hrefs]. split; [done|]. intros r Hr. specialize (Hrefs r Hr).
        destruct r; simpl in *; done.
      * by apply forward_backward.
    + intros k m body [[-> ->]|Hm]%Hold Hbody; [by apply elem_of_nil in Hbody|eauto].
    + intros k m [[-> ->]|Hm]%Hold; [done|eauto].
  - destruct Hlast as (Hv & Hdep & Hr). split; [by eapply value_schema_keeps|done].
  - simpl. intros node' Hnode'. simplify_eq. exists a', b', ms', re', (Some (Compensation_Activity key (from_ref Reference_ForwardOutput) ms retry)), next', contract.
    by rewrite bt_get_insert, decide_True.
Qed.

Lemma good_compensate {I Cur U} name version (act : ActivityRef Cur U) (s : Sequence I Cur) s' :
  good_seq s → activity_from_catalog catalog Cur U name version = Ok act → seq_compensate s act = Ok s' → good_seq s'.
Proof.
  intros Hs Hact Hc. destruct (from_catalog_ok _ _ _ _ _ Hact) as (handler & Hh & Hin & _). unfold seq_compensate in Hc.
  apply outcome_bind_ok in Hc as (node & Hnode%ok_or_ok & Hc). apply outcome_bind_ok in Hc as ([[] inner] & Hb%built_ok & [= <-]).
  unfold region_compensate, attach_compensation in Hb. apply build_bind_ok in Hb as (d1 & ms & [-> Hms]%raise_ok & Hb).
  by eapply good_compensated.
Qed.

Lemma good_compensate_with_retry {I Cur U} name version retry timeout (act : ActivityRef Cur U) (s : Sequence I Cur) s' :
  good_seq s → activity_from_catalog catalog Cur U name version = Ok act → seq_compensate_with_retry s act retry timeout = Ok s' → good_seq s'.
Proof.
  intros Hs Hact Hc. destruct (from_catalog_ok _ _ _ _ _ Hact) as (handler & Hh & Hin & _). unfold seq_compensate_with_retry in Hc.
  apply outcome_bind_ok in Hc as (node & Hnode%ok_or_ok & Hc). apply outcome_bind_ok in Hc as ([[] inner] & Hb%built_ok & [= <-]).
  unfold region_compensate_with_retry, attach_compensation_with_retry in Hb. build_inv. by eapply good_compensated.
Qed.

Lemma literal_ok T value d v d' : built (graph_literal T (inr value)) d = Ok (v, d') →
  d' = d ∧ ∃ x, from_json value = Ok x ∧ vl_binding v = Binding_Literal x.
Proof.
  intros Hb%built_ok. unfold graph_literal in Hb. rewrite !build_bind in Hb. simpl in Hb. rewrite build_bind in Hb. simpl in Hb.
  rewrite build_bind in Hb. simpl in Hb. destruct (from_json value); simpl in Hb; [unfold mret, Build_ret in Hb|done..]; simplify_eq. eauto.
Qed.

Lemma good_wait_signal {I Cur} name key correlation signal (s : Sequence I Cur) s' :
  good_seq s → signal_new (σ name) name = Ok signal → seq_wait_signal s key signal correlation = Ok s' → good_seq s'.
Proof.
  intros (order & Hd & _ & _) Hsig Hs. unfold seq_wait_signal in Hs.
  apply outcome_bind_ok in Hs as ([corr inner] & [-> (x & Hx & Hcorr)]%literal_ok & Hs). injection Hx as <-.
  apply outcome_bind_ok in Hs as (r & Hb & [= <-]). unfold signal_new in Hsig. destruct (negb _); [done|]. injection Hsig as <-.
  eapply (good_after order I _ _ _ _ _ r s); [done|done|apply declares_wait_signal|exact Hb|]. intros n ->. simpl. split; [|done].
  constructor; simpl; try done.
  - intros _. by rewrite Hcorr.
  - rewrite Hcorr. done.
  - rewrite Hcorr. intros b ->%list_elem_of_singleton. apply literal_backward.
  - intros body Hb'. by apply elem_of_nil in Hb'.
  - intros signals Hm. eapply Hm; [by left|]. simpl. rewrite decide_True by done. by eexists.
  - apply Forall_singleton. intros k sch Hin%list_elem_of_singleton. by injection Hin as -> ->.
Qed.

(** The fields of [fits] for a node that has one body. *)
Lemma fits_body {A B} order I d (body : TypedRegion A B) n :
  good_region body → (∀ output, node_typed catalog σ wf (dr_nodes d) I output n) → check_node_limits n = Ok tt →
  (∀ k, success_output k n = Some (Reference_NodeOutput k)) → backward order n → bodies_of n = [tr_ir body] → (∀ signals, wait_declared σ signals n) →
  fits order I d [tr_signals body] n.
Proof.
  intros Hbody Ht Hl Ho Hb Hbodies Hw. constructor; try done.
  - rewrite Hbodies. intros b ->%list_elem_of_singleton. apply (body_fits body); [done|by left].
  - apply Forall_singleton. by destruct Hbody as (_ & ? & _).
Qed.

Lemma good_while_lt {I Cur} key path value max (body : TypedRegion Cur Cur) (s : Sequence I Cur) s' :
  good_seq s → good_region body → seq_while_lt s key path value body max = Ok s' → good_seq s'.
Proof.
  intros (order & Hd & Hlast & _) Hbody Hs. apply outcome_bind_ok in Hs as (r & Hb & [= <-]).
  eapply (good_after order I _ _ _ _ _ r s); [done|done|apply declares_while|exact Hb|]. intros n ->. simpl. split; [|done].
  apply fits_body; try done.
  - intros output. destruct Hbody as (_ & _ & _ & Hi & Ho). destruct Hlast as [Hv _]. done.
  - intros b Hin. simpl in Hin. apply elem_of_cons in Hin as [->|Hin]; [by eapply own_backward|].
    apply elem_of_cons in Hin as [->|Hin]; [|apply list_elem_of_singleton in Hin as ->; apply literal_backward].
    split; [done|]. by intros ref ->%list_elem_of_singleton.
Qed.

Lemma good_repeat {I Cur} key count max (body : TypedRegion Cur Cur) (s : Sequence I Cur) s' :
  good_seq s → good_region body → seq_repeat s key count body max = Ok s' → good_seq s'.
Proof.
  intros (order & Hd & Hlast & _) Hbody Hs. unfold seq_repeat in Hs.
  apply outcome_bind_ok in Hs as ([n inner] & [-> (x & Hx & Hn)]%literal_ok & Hs). apply outcome_bind_ok in Hs as (r & Hb & [= <-]).
  unfold from_json in Hx. simpl in Hx. destruct (in_i64 count); [|done]. injection Hx as <-.
  eapply (good_after order I _ _ _ _ _ r s); [done|done|apply declares_repeat|exact Hb|]. intros m ->. simpl. split; [|done].
  apply fits_body; try done.
  - intros output. destruct Hbody as (_ & _ & _ & Hi & Ho). destruct Hlast as [Hv _]. simpl. by rewrite Hn.
  - intros b Hin. simpl in Hin. rewrite Hn in Hin. apply elem_of_cons in Hin as [->|Hin]; [apply literal_backward|].
    apply list_elem_of_singleton in Hin as ->. by eapply own_backward.
Qed.

Lemma good_foreach {I A B} key max_items max (body : TypedRegion A B) (s : Sequence I (SchemaRef_Array A)) s' :
  good_seq s → good_region body → seq_foreach s key body max_items max = Ok s' → good_seq s'.
Proof.
  intros (order & Hd & Hlast & _) Hbody Hs. apply outcome_bind_ok in Hs as (r & Hb & [= <-]).
  pose proof Hbody as (_ & _ & _ & Hi & Ho).
  eapply (good_after order I _ _ _ _ _ r s); [done|done|apply (declares_foreach key (sq_last s) body max_items max)|exact Hb|]. intros n ->. simpl. split; [|by rewrite Ho].
  apply fits_body; try done.
  - intros output. by destruct Hlast as [Hv _].
  - intros b ->%list_elem_of_singleton. by eapply own_backward.
Qed.

Lemma good_saga {I Cur B} key (body : TypedRegion Cur B) (s : Sequence I Cur) s' :
  good_seq s → good_region body → seq_saga s key body = Ok s' → good_seq s'.
Proof.
  intros (order & Hd & Hlast & _) Hbody Hs. apply outcome_bind_ok in Hs as (r & Hb & [= <-]).
  pose proof Hbody as (_ & _ & _ & Hi & Ho).
  eapply (good_after order I _ _ _ _ _ r s); [done|done|apply (declares_saga key (sq_last s) body)|exact Hb|]. intros n ->. simpl. split; [|by rewrite Ho].
  apply fits_body; try done.
  - intros output. destruct Hlast as [Hv _]. simpl. by rewrite Hi.
  - intros b ->%list_elem_of_singleton. by eapply own_backward.
Qed.

Lemma good_choose {I A B} (c : Choose I A B) default_ a :
  good_seq (ch_seq c) → (∀ case, case ∈ ch_cases c → good_region (ca_body case)) →
  (∀ case, case ∈ ch_cases c → case_condition (sq_inner (ch_seq c)) (ca_when case)) → good_region default_ →
  choose_otherwise c default_ = Ok a → good_seq (af_seq a).
Proof.
  intros (order & Hd & Hlast & _) Hcases Hwhen Hdef Hs. apply outcome_bind_ok in Hs as (r & Hb & [= <-]).
  pose proof Hdef as (_ & _ & _ & Hi & Ho).
  eapply (good_after order I _ _ _ _ _ r (ch_seq c)); [done|done|apply (declares_choose (ch_key c) (sq_last (ch_seq c)) (ch_cases c) default_)|exact Hb|]. intros n ->. simpl. split; [|by rewrite Ho].
  constructor; simpl; try done.
  - intros _. rewrite Hi, Ho. split; [by destruct Hlast as [Hv _]|]. apply Forall_fmap, Forall_forall. intros case Hin. simpl.
    by destruct (Hcases _ Hin) as (_ & _ & _ & ? & ?).
  - apply outcome_map_unit, Forall_fmap, Forall_forall. intros case Hin. simpl. unfold check_condition.
    destruct (Hwhen _ Hin) as [Hops _]. by rewrite (proj2 (Z.ltb_ge _ _)).
  - intros b Hin. simpl in Hin. apply elem_of_cons in Hin as [->|Hin]; [by eapply own_backward|].
    apply list_elem_of_bind in Hin as (case & Hb' & (case' & -> & Hcase)%list_elem_of_fmap). simpl in Hb'.
    destruct (Hwhen _ Hcase) as [_ Hplain]. destruct (Hplain _ Hb') as [Hdep Hrefs]. split; [done|].
    intros ref Href. by eapply case_reference_backward; [exact (gd_line _ _ _ Hd)|apply Hrefs].
  - intros body Hin. unfold bodies_of in Hin. simpl in Hin. rewrite fmap_app in Hin. apply elem_of_app in Hin as [Hin|Hin].
    + rewrite <-!list_fmap_compose in Hin. apply list_elem_of_fmap in Hin as (case & -> & Hcase). simpl.
      apply (body_fits (ca_body case)); [auto|]. apply elem_of_app. left. apply list_elem_of_fmap. by exists case.
    + apply list_elem_of_singleton in Hin as ->. apply (body_fits default_); [done|]. apply elem_of_app. right. by left.
  - apply Forall_app. split; [|by apply Forall_singleton; destruct Hdef as (_ & ? & _)].
    apply Forall_fmap, Forall_forall. intros case Hin. simpl. by destruct (Hcases _ Hin) as (_ & ? & _).
Qed.

Lemma bound_bodies {Cur Os} (bodies : ParallelBodies Cur Os) input : good_bodies bodies →
  let parts := into_parts (bind_bodies bodies input) in
  (λ b, output_of (branch_body b)) <$> parts.1 = Os ∧
  Forall (λ b, branch_input b = input ∧ input_of (branch_body b) = Cur ∧
    sound_region catalog σ wf (branch_body b) ∧ ∃ signals, signals ∈ parts.2 ∧ waits_declared σ signals (branch_body b)) parts.1 ∧
  Forall (consistent σ) parts.2.
Proof.
  induction 1 as [|Cur O Os name body rest (Hs & Hc & Hw & Hi & Ho) _ IH]; simpl; [done|].
  destruct (into_parts (bind_bodies rest input)) as [parts signals] eqn:Hp. simpl in *. destruct IH as (Hout & Hall & Hcons).
  split; [by f_equal|]. split; [|by constructor]. constructor; simpl.
  - split_and!; try done. exists (tr_signals body). split; [by left|done].
  - eapply Forall_impl; [exact Hall|]. simpl. intros b (? & ? & ? & m & ? & ?). split_and!; try done. exists m. split; [by right|done].
Qed.

Lemma good_parallel {I Cur Os} (p : ParallelStart I Cur) (bodies : ParallelBodies Cur Os) a :
  good_seq (pl_seq p) → good_bodies bodies → parallel_branches p bodies = Ok a → good_seq (af_seq a).
Proof.
  intros (order & Hd & Hlast & _) Hbodies Hs. apply outcome_bind_ok in Hs as (r & Hb & [= <-]).
  destruct (bound_bodies bodies (vl_binding (sq_last (pl_seq p))) Hbodies) as (Hout & Hall & Hcons).
  eapply (good_after order I _ _ _ _ _ r (pl_seq p)); [done|done|apply (declares_parallel (pl_key p))|exact Hb|]. intros n ->. simpl.
  split; [|by rewrite Hout]. rewrite Forall_forall in Hall. constructor; simpl; try done.
  - intros _. apply Forall_forall. intros b (-> & -> & _)%Hall. by destruct Hlast.
  - intros b (br & -> & (-> & _)%Hall)%list_elem_of_fmap. by eapply own_backward.
  - intros body Hin. unfold bodies_of in Hin. simpl in Hin. rewrite <-list_fmap_compose in Hin.
    by apply list_elem_of_fmap in Hin as (br & -> & (_ & _ & ? & ?)%Hall).
Qed.

Lemma good_new I next : good_seq (region_new I next).1.
Proof.
  exists []. split; [|split; [|done]].
  - constructor; simpl; try done; [apply (line_new I next)|]. intros k s Hin. by apply elem_of_nil in Hin.
  - split; [done|]. split; [done|]. by intros n r ->%list_elem_of_singleton.
Qed.

Lemma good_workflow id next : good_seq (wf_seq (workflow_new wf id next).1).
Proof.
  exists []. split; [|split; [|done]].
  - constructor; simpl; try done; [apply (line_new wf next)|]. intros k s Hin. by apply elem_of_nil in Hin.
  - split; [done|]. split; [done|]. by intros n r ->%list_elem_of_singleton.
Qed.

(** The terminal node closes the region. *)
Lemma good_end {I O} order (d : RegionBuilder I) (m : Build (TerminalRef O)) key n (r : TypedRegion I O) :
  good_draft order I d → ends_with m key n → end_with m d = Ok r →
  node_typed catalog σ wf (dr_nodes d) I O n → check_node_limits n = Ok tt → backward order n → bodies_of n = [] → (∀ signals, wait_declared σ signals n) →
  good_region r.
Proof.
  intros [Hline Htyped Hlim Hout Hback Hbod Hsig Hwait] Hm He Ht Hl Hb Hbodies Hw.
  destruct (end_with_ok order d m key n r Hline Hm He) as (Hchain & (start & nodes & Hir) & Hsigs & Hnode & Hfresh & Hoth).
  assert (Hold : ∀ k m', region_node (tr_ir r) k = Some m' → k = key ∧ m' = n ∨
    k ≠ key ∧ ∃ m, bt_get k (dr_nodes d) = Some m ∧ core m' = core m).
  { intros k m' Hm'. destruct (decide (k = key)) as [->|Hne]; [left; split; congruence|right]. split; [done|].
    specialize (Hoth k Hne). rewrite Hm' in Hoth. destruct (bt_get k (dr_nodes d)) as [m0|]; [|done]. injection Hoth as Hc. eauto. }
  assert (Hkeep : keeps_schemas catalog σ (dr_nodes d) (region_nodes (tr_ir r))).
  { intros k m0 Hm0. assert (k ≠ key) as Hne by congruence. specialize (Hoth k Hne). rewrite Hm0 in Hoth. unfold region_node in Hoth.
    destruct (bt_get k (region_nodes (tr_ir r))) as [m'|]; [|done]. injection Hoth as Hc. exists m'. split; [done|].
    by destruct (core_same catalog σ wf _ _ Hc) as (? & _). }
  assert (input_of (tr_ir r) = I ∧ output_of (tr_ir r) = O) as [Hi Ho] by by rewrite Hir.
  split; [|split; [by rewrite Hsigs|split; [|by split]]].
  - apply (sound_region_intro _ _ _ _ _ Hchain).
    + intros k m' [[-> ->]|(Hne & m0 & Hm0 & Hc)]%Hold; apply (node_typed_keeps catalog σ wf _ _ _ _ _ Hkeep); rewrite Hi, Ho; [done|].
      destruct (core_same catalog σ wf _ _ Hc) as (_ & Htc & _). apply Htc. by eapply Htyped.
    + intros k m' [[-> ->]|(Hne & m0 & Hm0 & Hc)]%Hold; [done|]. destruct (core_same catalog σ wf _ _ Hc) as (_ & _ & -> & _). eauto.
    + intros pre k post m' Ho' [[-> ->]|(Hne & m0 & Hm0 & Hc)]%Hold.
      * destruct (decide (post = [])) as [->|Hpost]; [by apply app_inj_tail in Ho' as [-> _]|].
        exfalso. destruct (exists_last Hpost) as (post' & x & ->). change (pre ++ key :: post' ++ [x]) with (pre ++ (key :: post') ++ [x]) in Ho'.
        pose proof (ch_nodup _ _ Hchain) as Hnd. rewrite Ho' in Hnd. rewrite app_assoc in Ho'. apply app_inj_tail in Ho' as [_ <-].
        apply NoDup_app in Hnd as (_ & _ & Hnd). apply NoDup_cons in Hnd as [Hnin _]. set_solver.
      * destruct (core_same catalog σ wf _ _ Hc) as (_ & _ & _ & Hbc & _). apply Hbc.
        destruct (decide (post = [])) as [->|Hpost]; [by apply app_inj_tail in Ho' as [_ ->]|].
        destruct (exists_last Hpost) as (post' & x & ->). change (pre ++ k :: post' ++ [x]) with (pre ++ (k :: post') ++ [x]) in Ho'.
        rewrite app_assoc in Ho'. apply app_inj_tail in Ho' as [Ho' _]. by eapply Hback.
    + intros pre k x post m' Ho' [[-> ->]|(Hne & m0 & Hm0 & Hc)]%Hold.
      * exfalso. destruct (exists_last (l := x :: post)) as (post' & y & Hy); [done|]. rewrite Hy in Ho'.
        change (pre ++ key :: post' ++ [y]) with (pre ++ (key :: post') ++ [y]) in Ho'.
        pose proof (ch_nodup _ _ Hchain) as Hnd. rewrite Ho' in Hnd. rewrite app_assoc in Ho'. apply app_inj_tail in Ho' as [_ <-].
        apply NoDup_app in Hnd as (_ & _ & Hnd). apply NoDup_cons in Hnd as [Hnin _]. set_solver.
      * destruct (core_same catalog σ wf _ _ Hc) as (_ & _ & _ & _ & -> & _). eauto.
    + intros k m' body [[-> ->]|(Hne & m0 & Hm0 & Hc)]%Hold Hbody; [rewrite Hbodies in Hbody; by apply elem_of_nil in Hbody|].
      destruct (core_same catalog σ wf _ _ Hc) as (_ & _ & _ & _ & _ & _ & Hbc). rewrite Hbc in Hbody. by destruct (Hbod _ _ _ Hm0 Hbody).
  - rewrite Hsigs. constructor.
    + intros k m' [[-> ->]|(Hne & m0 & Hm0 & Hc)]%Hold; [done|]. destruct (core_same catalog σ wf _ _ Hc) as (_ & _ & _ & _ & _ & Hwc & _). eauto.
    + intros k m' body [[-> ->]|(Hne & m0 & Hm0 & Hc)]%Hold Hbody; [rewrite Hbodies in Hbody; by apply elem_of_nil in Hbody|].
      destruct (core_same catalog σ wf _ _ Hc) as (_ & _ & _ & _ & _ & _ & Hbc). rewrite Hbc in Hbody. by destruct (Hbod _ _ _ Hm0 Hbody).
Qed.

Lemma good_complete {I Cur} key (s : Sequence I Cur) r : good_seq s → seq_complete s key = Ok r → good_region r.
Proof.
  intros (order & Hd & Hlast & _) Hr. eapply (good_end order); [exact Hd|apply ends_complete|exact Hr|..]; try done.
  - by destruct Hlast.
  - intros b ->%list_elem_of_singleton. by eapply own_backward.
Qed.

Lemma good_fail {I Cur} O key code message (s : Sequence I Cur) (r : TypedRegion I O) :
  good_seq s → seq_fail O s key code message = Ok r → good_region r.
Proof.
  intros (order & Hd & _) Hr. eapply (good_end order); [exact Hd|apply ends_fail|exact Hr|..]; try done.
  intros b Hb. by apply elem_of_nil in Hb.
Qed.

Lemma fluent_good :
  (∀ rooted I Cur (s : Sequence I Cur), fluent_seq rooted s → good_seq s) ∧
  (∀ I O (r : TypedRegion I O), fluent_region r → good_region r) ∧
  (∀ Cur Os (bodies : ParallelBodies Cur Os), fluent_bodies bodies → good_bodies bodies).
Proof.
  apply fluent_ind; intros.
  - apply good_new.
  - apply good_workflow.
  - by eapply good_activity.
  - by eapply good_compensate.
  - by eapply good_compensate_with_retry.
  - by eapply good_wait_signal.
  - by eapply good_while_lt.
  - by eapply good_repeat.
  - by eapply good_foreach.
  - by eapply good_saga.
  - by eapply good_choose.
  - by eapply good_parallel.
  - by eapply good_complete.
  - by eapply good_fail.
  - constructor.
  - by constructor.
Qed.

(** C30: the fluent builder is type sound. Take a workflow made by the calls of the
    builder in which every activity handle is from the catalog it is finished
    against, all waits on one signal name use one schema, the bodies are regions of
    the builder, and the conditions of choices are within the limits and read inputs
    and earlier outputs. In the definition it finishes, every node of every region
    gets values of the schema it takes: activities the input schema of their
    contract, compensations the output of their activity, bodies the schema they were
    built for, the end of the workflow its output schema; and every signal waited for
    is declared with its schema. (With two schemas for one name the second
    declaration replaces the first, see [signal_schema_is_replaced].) *)
Theorem fluent_workflow_is_typed `{Platform} `{Serde} {Cur} (w : Workflow wf Cur) d :
  fluent_seq true (wf_seq w) → workflow_finish catalog w = Ok d →
  typed_region catalog σ wf (def_root d) ∧ waits_declared σ (def_signals d) (def_root d) ∧
  input_of (def_root d) = def_input_schema d ∧ output_of (def_root d) = def_output_schema d.
Proof.
  intros Hs%(proj1 fluent_good) (r & Hr & Hd)%outcome_bind_ok. destruct (good_complete _ _ _ Hs Hr) as (Hsound & _ & Hwaits & Hi & Ho).
  apply outcome_bind_ok in Hd as (_ & _ & Hd). apply outcome_bind_ok in Hd as (_ & _ & Hd).
  apply outcome_bind_ok in Hd as (_ & _ & Hd). apply outcome_bind_ok in Hd as (digest & _ & [= <-]). simpl.
  split; [by apply sound_typed|done].
Qed.

(** C31: what the fluent builder makes passes the check of definitions. Take a
    sequence made by the calls of the builder in which every activity handle is from
    the catalog, all waits on one signal name use one schema, the bodies are regions
    of the builder, and the conditions of choices are within the limits and read only
    inputs and outputs of earlier steps. When it completes, [validate_definition]
    accepts the definition: its regions have no cycle and no unreachable node, and
    every reference is available where it is read. (The builder takes any condition,
    and the check refuses one that reads a missing output.) *)
Theorem fluent_workflow_validates {Cur} key (s : Sequence wf Cur) root name version digest :
  fluent_seq true s → seq_complete s key = Ok root →
  validate_definition (workflow_definition name version root digest) catalog = Ok tt.
Proof.
  intros Hs%(proj1 fluent_good) Hr. destruct (good_complete _ _ _ Hs Hr) as (Hsound & _). by apply (sound_analyzed catalog σ wf).
Qed.
End Fluent.
