(* ===== verification/UpgradeFacts.v ===== *)
(** * Upgrading the writer format of a cluster

    Members prepare their readers on their own, the proofs are committed in the
    shared log, and each member applies the log at its own pace. When an activation
    first takes effect at a member, every member of its roster can read the format. *)
From stdpp Require Import base option gmap strings list relations.
From Stdlib Require Import ZArith Ascii Lia.
From S2P Require Import Prelude Value Ids Policy Catalog Ir Analysis Equality Domain Eval Evolve History Steps Command Publication FormatUpgrade Schedule Retention Replica AnalysisFacts EvolveFacts StepFacts ClaimFacts SignalFacts CommandFacts HistoryFacts FormatFacts PublicationFacts PublishedFacts ReplicaFacts.

Section UpgradeFacts.
Context `{Platform} `{CatalogSerde} `{Serde} `{OperationSerde} `{!PlatformLaws _}.
Implicit Types (member : Member).

(** A member and how much of the log it has applied. *)
Record Node := mkNode { nd_member : Member; nd_applied : nat }.

(** The members by identity, the committed log, and every proof a member gave. *)
Record System := mkSystem {
  sy_nodes : gmap Z Node;
  sy_log : list Entry;
  sy_issued : list ReaderProof;
}.

(** The proofs a log entry carries. *)
Definition entry_proofs (e : Entry) : list ReaderProof :=
  match en_payload e with
  | Payload_Normal request =>
      match format_operation (cmd_body (rq_command request)) with
      | Some (FormatPrepare proofs _) => proofs
      | _ => []
      end
  | _ => []
  end.

(** A bound member with an empty policy that no proof is about. *)
Definition joins (sys : System) (id : Z) member : Prop :=
  sy_nodes sys !! id = None ∧ member_wf member ∧ sm_member_id (mb_manifest member) = Some id ∧
  fp_prepared (format_policy (mb_domain member)) = [] ∧ ∀ p, p ∈ sy_issued sys → rdr_member_id p ≠ id.

Inductive system_step (sys : System) : System → Prop :=
| sys_join id member :
    joins sys id member →
    system_step sys (mkSystem (<[id := mkNode member 0]> (sy_nodes sys)) (sy_log sys) (sy_issued sys))
| sys_prepare id node target roster durable retained_ok proof member' :
    sy_nodes sys !! id = Some node →
    prepare_format_readers (nd_member node) target roster durable retained_ok = Ok (proof, member') →
    system_step sys (mkSystem (<[id := mkNode member' (nd_applied node)]> (sy_nodes sys)) (sy_log sys)
      (sy_issued sys ++ [proof]))
| sys_commit e :
    Forall (λ p, p ∈ sy_issued sys) (entry_proofs e) →
    system_step sys (mkSystem (sy_nodes sys) (sy_log sys ++ [e]) (sy_issued sys))
| sys_apply id node e reply member' :
    sy_nodes sys !! id = Some node → sy_log sys !! nd_applied node = Some e →
    entry_fresh (nd_member node) e → apply_one_entry (nd_member node) e = Ok (reply, member') →
    system_step sys (mkSystem (<[id := mkNode member' (S (nd_applied node))]> (sy_nodes sys)) (sy_log sys)
      (sy_issued sys)).

Definition system_reachable : System → Prop := rtc system_step (mkSystem ∅ [] []).

(** ** The invariant *)
Record node_wf (issued : list ReaderProof) (id : Z) member : Prop := mkNodeWf {
  nw_member : member_wf member;
  nw_id : sm_member_id (mb_manifest member) = Some id;
  nw_issued p : p ∈ issued → rdr_member_id p = id → NEXT_FORMAT ≤ rdr_reader_floor p →
    sm_reader_floor (mb_manifest member) = NEXT_FORMAT;
  nw_prepared e : e ∈ fp_prepared (format_policy (mb_domain member)) → e.2 ∈ issued;
}.

Record system_wf (sys : System) : Prop := mkSystemWf {
  sw_nodes : map_Forall (λ id node, node_wf (sy_issued sys) id (nd_member node)) (sy_nodes sys);
  sw_log : Forall (λ e, Forall (λ p, p ∈ sy_issued sys) (entry_proofs e)) (sy_log sys);
}.

Lemma prepare_format_readers_ok member target roster durable retained_ok proof member' :
  member_wf member → prepare_format_readers member target roster durable retained_ok = Ok (proof, member') →
  member_wf member' ∧ sm_member_id (mb_manifest member') = sm_member_id (mb_manifest member) ∧
  sm_reader_floor (mb_manifest member) ≤ sm_reader_floor (mb_manifest member') ∧
  mb_domain member' = mb_domain member ∧
  sm_member_id (mb_manifest member') = Some (rdr_member_id proof) ∧
  rdr_reader_floor proof = sm_reader_floor (mb_manifest member').
Proof.
  intros [Hv Hw Hc Hp]. unfold prepare_format_readers. destruct (_ || _); [done|]. destruct (negb _); [done|].
  intros (_ & _ & Ha)%outcome_bind_ok. apply outcome_bind_ok in Ha as (id & Hid%ok_or_ok & Ha).
  apply outcome_bind_ok in Ha as (cluster & _ & Ha). destruct (_ || _) in Ha; [done|].
  apply outcome_bind_ok in Ha as (_ & _ & Ha). apply outcome_bind_ok in Ha as (m' & Hm' & [= <- <-]). simpl.
  assert (manifest_validate m' = Ok tt ∧ sm_reader_floor (mb_manifest member) ≤ sm_reader_floor m' ∧
    sm_writer_format m' = sm_writer_format (mb_manifest member) ∧
    sm_cluster_id m' = sm_cluster_id (mb_manifest member) ∧
    sm_member_id m' = sm_member_id (mb_manifest member)) as (? & ? & Hw' & Hc' & Hid').
  { destruct (_ && _); [|by injection Hm' as <-]. unfold sto in Hm'. rewrite map_err_ok in Hm'.
    by apply install_reader_ok in Hm' as (? & ? & ? & ? & ? & _). }
  split_and!; try done; [split; simpl; congruence|congruence].
Qed.

Lemma format_apply_prepared policy receipts c roster log_id principal cluster receipt policy' receipts' e :
  format_apply policy receipts c roster log_id principal cluster = Ok (receipt, policy', receipts') →
  e ∈ fp_prepared policy' →
  e ∈ fp_prepared policy ∨ ∃ proofs r, format_operation (cmd_body c) = Some (FormatPrepare proofs r) ∧ e.2 ∈ proofs.
Proof.
  intros (op & digest & Hop & _ & _ & _ & [(_ & -> & _)|(_ & _ & _ & _ & _ & _ & _ & Hap)])%format_apply_ok; [by left|].
  destruct (fr_applied receipt); [|by subst; left].
  apply attempt_format_ok in Hap as (_ & _ & _ & Hcase). destruct op as [proofs r|r t].
  - destruct Hcase as (-> & _). intros [_ ?]%collect_prepared_elem. right. eauto.
  - destruct Hcase as (-> & _). by left.
Qed.

(** The prepared proofs of a member come from its policy and the entry. *)
Lemma apply_one_entry_prepared member e reply member' x :
  entry_fresh member e → apply_one_entry member e = Ok (reply, member') →
  x ∈ fp_prepared (format_policy (mb_domain member')) →
  x ∈ fp_prepared (format_policy (mb_domain member)) ∨ x.2 ∈ entry_proofs e.
Proof.
  intros Hfresh (applied & manifest & schedule & Ha & _ & _ & ->)%apply_one_entry_ok. simpl.
  unfold entry_fresh, entry_proofs in *. destruct (en_payload e) as [|request|joint nodes];
    [injection Ha as <-; by left| |injection Ha as <-; by left].
  apply apply_request_step in Ha as [_ [[[_ [= Hp _ _]] _]|Ha]]; [rewrite Hp; by left| |done].
  unfold apply_format_entry in Ha.
  destruct (format_apply _ _ _ _ _ _ _) as [[[receipt policy] receipts]|err|w] eqn:Hf; [..|done].
  - assert (format_policy (ap_domain applied) = policy) as -> by (by destruct (fr_applied receipt); injection Ha as <-).
    intros [?|(proofs & r & -> & ?)]%(format_apply_prepared _ _ _ _ _ _ _ _ _ _ _ Hf); auto.
  - injection Ha as <-. by left.
Qed.

(** A proof that somebody else gave says nothing about a member. *)
Lemma node_wf_issue issued id member p :
  node_wf issued id member →
  (rdr_member_id p = id → NEXT_FORMAT ≤ rdr_reader_floor p → sm_reader_floor (mb_manifest member) = NEXT_FORMAT) →
  node_wf (issued ++ [p]) id member.
Proof.
  intros [Hwf Hid Hi Hpr] Hp. split; try done.
  - intros q [Hq| ->%list_elem_of_singleton]%elem_of_app; [by apply Hi|done].
  - intros x Hx. apply elem_of_app. left. by apply Hpr.
Qed.

Lemma node_wf_prepare issued id member target roster durable rok proof member' :
  node_wf issued id member →
  prepare_format_readers member target roster durable rok = Ok (proof, member') →
  node_wf (issued ++ [proof]) id member' ∧ rdr_member_id proof = id.
Proof.
  intros [Hwf Hid Hi Hpr] Hprep.
  apply prepare_format_readers_ok in Hprep as (Hwf' & Hid' & Hfloor & Hd & Hpid & Hpf); [|done].
  pose proof (manifest_validate_ok _ (mw_manifest _ Hwf')) as (_ & Hrange & _).
  pose proof (manifest_validate_ok _ (mw_manifest _ Hwf)) as (_ & Hrange0 & _). unfold NEXT_FORMAT in *.
  split; [|congruence]. apply node_wf_issue; [|unfold NEXT_FORMAT; intros; lia]. split; [done|congruence| |].
  - intros p Hp Hpm Hpl. specialize (Hi _ Hp Hpm Hpl). unfold NEXT_FORMAT in *. lia.
  - rewrite Hd. done.
Qed.

Lemma node_wf_apply issued id member e reply member' :
  node_wf issued id member → Forall (λ p, p ∈ issued) (entry_proofs e) →
  entry_fresh member e → apply_one_entry member e = Ok (reply, member') → node_wf issued id member'.
Proof.
  intros [Hwf Hid Hi Hpr] He Hfresh Ha.
  pose proof (applied_member_wf _ _ _ _ Hwf Hfresh Ha) as (Hwf' & Hfloor & _). split; [done| | |].
  - pose proof Ha as (applied & manifest & schedule & _ & Hm & _ & ->)%apply_one_entry_ok.
    apply activated_manifest_ok in Hm as (_ & _ & _ & Hid' & _); [|apply Hwf]. simpl. congruence.
  - intros p Hp Hpm Hpl. rewrite Hfloor. by apply (Hi p).
  - intros x [?|Hx]%(apply_one_entry_prepared _ _ _ _ _ Hfresh Ha); [by apply Hpr|].
    rewrite Forall_forall in He. by apply He.
Qed.

Lemma system_step_wf sys sys' : system_wf sys → system_step sys sys' → system_wf sys'.
Proof.
  intros [Hn Hl] [id member (Hnone & Hwf & Hid & Hprep & Hiss)|id node target roster durable rok proof member' Hnode Hprep|
    e He|id node e reply member' Hnode Hlog Hfresh Happ]; split; simpl; try done.
  - apply map_Forall_insert_2; [|done]. split; simpl; try done; [by intros p ?%Hiss ?|].
    intros x. rewrite Hprep. by intros ?%elem_of_nil.
  - pose proof (node_wf_prepare _ _ _ _ _ _ _ _ _ (Hn _ _ Hnode) Hprep) as [Hwf' Hpid].
    intros id2 node2. rewrite lookup_insert. case_decide as Heq.
    + intros [= <-]. by subst id2.
    + intros Hn2. apply node_wf_issue; [by apply Hn|]. congruence.
  - eapply Forall_impl; [exact Hl|]. intros e He. eapply Forall_impl; [exact He|]. intros p Hp. set_solver.
  - by apply Forall_app; split; [|constructor].
  - apply map_Forall_insert_2; [|done]. simpl. eapply node_wf_apply; [by apply Hn| |exact Hfresh|exact Happ].
    rewrite Forall_forall in Hl. apply Hl. by eapply list_elem_of_lookup_2.
Qed.

Lemma system_reachable_wf sys : system_reachable sys → system_wf sys.
Proof.
  unfold system_reachable. intros Hr.
  assert (system_wf (mkSystem ∅ [] [])) as H0wf by (split; [apply map_Forall_empty|constructor]).
  induction Hr as [|sys1 sys2 sys3 Hs _ IH]; [done|]. apply IH. by eapply system_step_wf.
Qed.

(** An entry that activates the format at a member. *)
Lemma activating_entry domain roster log_id c a :
  apply_format_entry domain roster log_id c = Ok a → ap_format_applied a = true →
  NoDup (ro_nodes roster).*1 →
  fp_active_writer (format_policy domain) = NEXT_FORMAT ∨
  fp_active_writer (format_policy domain) ≠ NEXT_FORMAT ∧
  ∀ id, id ∈ (ro_nodes roster).*1 → ∃ e, e ∈ fp_prepared (format_policy domain) ∧
    rdr_member_id e.2 = id ∧ NEXT_FORMAT ≤ rdr_reader_floor e.2.
Proof.
  unfold apply_format_entry. intros Ha Happ Hnd.
  destruct (format_apply _ _ _ _ _ _ _) as [[[receipt policy] receipts]|err|w] eqn:Hf; [..|done]; [|by injection Ha as <-].
  assert (fp_active_writer policy = NEXT_FORMAT) as Hact.
  { destruct (fr_applied receipt); injection Ha as <-; simpl in Happ; by to_prop. }
  apply activation_needs_every_member in Hf as [Heq|(Hne & _ & _ & _ & _ & Hall)]; [..|done].
  - left. by rewrite <-Heq.
  - right. split; [done|]. intros id Hin. destruct (Hall _ Hin) as (p & (x & -> & Hx)%list_elem_of_fmap & Hpm & (_ & _ & _ & Hsup & _)).
    exists x. split_and!; [done..|]. unfold supports in Hsup. by to_prop.
Qed.

(** A member whose reader floor is the format takes the activation. *)
Lemma ready_member_activates m applied :
  manifest_validate m = Ok tt → sm_reader_floor m = NEXT_FORMAT → is_ok (activated_manifest m applied) = true.
Proof.
  intros Hv Hfloor. unfold activated_manifest. destruct applied; [|done]. rewrite Hfloor. simpl. unfold sto.
  pose proof (activate_writer_total _ Hv Hfloor) as Htot. by destruct (activate_writer _).
Qed.

(** C34: an activation never outruns a reader. In every state a cluster reaches
    by members joining, giving proofs, committing entries and applying them at
    their own pace, let a member apply a request while its committed roster lists
    no member twice. If the request activates the format here for the first time,
    every member of this roster that is in the cluster has its readers installed
    and valid, so that the activation takes effect on its manifest too; and a member that is in its own roster applies the activation, the first
    time and again, and is not stopped by it. *)
Theorem activation_never_outruns_readers sys id node log_id request applied :
  system_reachable sys → sy_nodes sys !! id = Some node →
  NoDup (ro_nodes (mb_membership (nd_member node))).*1 →
  apply_request (nd_member node) log_id request = Ok applied → ap_format_applied applied = true →
  (fp_active_writer (format_policy (mb_domain (nd_member node))) ≠ NEXT_FORMAT →
   ∀ id' node', id' ∈ (ro_nodes (mb_membership (nd_member node))).*1 → sy_nodes sys !! id' = Some node' →
     sm_reader_floor (mb_manifest (nd_member node')) = NEXT_FORMAT ∧
     is_ok (activated_manifest (mb_manifest (nd_member node')) true) = true) ∧
  (id ∈ (ro_nodes (mb_membership (nd_member node))).*1 →
   is_ok (activated_manifest (mb_manifest (nd_member node)) (ap_format_applied applied)) = true).
Proof.
  intros Hr%system_reachable_wf Hnode Hnd Ha Happ. pose proof (apply_request_activated _ _ _ _ Ha Happ) as Hentry. clear Ha.
  pose proof (sw_nodes _ Hr _ _ Hnode) as Hn. pose proof (nw_member _ _ _ Hn) as Hwf.
  assert (∀ id' node', sy_nodes sys !! id' = Some node' →
    (∃ e, e ∈ fp_prepared (format_policy (mb_domain (nd_member node))) ∧ rdr_member_id e.2 = id' ∧
       NEXT_FORMAT ≤ rdr_reader_floor e.2) →
    sm_reader_floor (mb_manifest (nd_member node')) = NEXT_FORMAT ∧
    ∀ b, is_ok (activated_manifest (mb_manifest (nd_member node')) b) = true) as Hready.
  { intros id' node' Hnode' (e & He & Hid & Hfloor). pose proof (sw_nodes _ Hr _ _ Hnode') as Hn'.
    assert (sm_reader_floor (mb_manifest (nd_member node')) = NEXT_FORMAT) as Hf.
    { eapply (nw_issued _ _ _ Hn'); [|exact Hid|exact Hfloor]. by apply (nw_prepared _ _ _ Hn). }
    split; [done|]. intros b. apply ready_member_activates; [|done]. apply mw_manifest, (nw_member _ _ _ Hn'). }
  destruct (activating_entry _ _ _ _ _ Hentry Happ Hnd) as [Hact|[Hne Hall]]; split.
  - done.
  - intros _. apply ready_member_activates; [apply (mw_manifest _ Hwf)|].
    pose proof (mw_writer _ Hwf) as Hw. rewrite Hact in Hw. by apply (manifest_validate_ok _ (mw_manifest _ Hwf)).
  - intros _ id' node' Hin' Hnode'. destruct (Hready _ _ Hnode' (Hall _ Hin')) as [? Hok]. by split.
  - intros Hin. by apply (Hready _ _ Hnode (Hall _ Hin)).
Qed.
End UpgradeFacts.
