(* ===== verification/StoredFacts.v ===== *)
(** * What is retained stays whole

    The invariant behind [validate_history_store]: publications, receipts, the
    artifacts of every run, its checkpoint and the tombstones of signals keep what
    the check of a store asks of them, whatever the engine commits. *)
From stdpp Require Import base option gmap strings list.
From Stdlib Require Import ZArith Ascii Lia.
From S2P Require Import Prelude Value Ids Policy Catalog Ir Analysis Domain Eval Evolve History Steps Signals Command Publication FormatUpgrade Schedule Retention Replica Reopen AnalysisFacts EvolveFacts StepFacts ClaimFacts SignalFacts CommandFacts HistoryFacts RetentionFacts PublicationFacts PublishedFacts ReplicaFacts.

Section StoredFacts.
Context `{Platform} `{CatalogSerde} `{Serde} `{OperationSerde} `{!PlatformLaws _}.
Implicit Types (s : State) (origins : gset string).

(** ** Artifacts *)
Definition artifact_ok origins (a : ArtifactRef) : Prop :=
  validate_identity a = Ok tt ∧ ar_cluster_id a ∈ origins.

Lemma artifact_ok_mono origins1 origins2 a : origins1 ⊆ origins2 → artifact_ok origins1 a → artifact_ok origins2 a.
Proof. intros ? [? ?]. split; [done|set_solver]. Qed.

Lemma capture_ok cluster schema value a :
  capture_in cluster schema value = Ok a →
  artifact_ok {[ cluster ]} a ∧ ar_schema a = schema ∧ artifact_verify a schema value = Ok tt.
Proof.
  intros Hc. pose proof (capture_verifies _ _ _ _ Hc) as Hv. unfold capture_in in Hc.
  destruct (bool_decide (cluster = "")); [discriminate|].
  apply outcome_bind_ok in Hc as (id & Hid%map_err_ok & Hc). apply outcome_bind_ok in Hc as (json & _ & Hc).
  apply outcome_bind_ok in Hc as (bytes & _ & [= <-]). split_and!; [|done|done].
  split; [|set_solver]. unfold validate_identity.
  cbn [ar_format ar_cluster_id ar_sha256]. rewrite (bool_decide_eq_true_2 (ARTIFACT_FORMAT = _)), Hid by done. unfold zlen_string.
  rewrite hex_encode_length, sha256_length, hex_decode_encode. by rewrite bool_decide_eq_false_2.
Qed.

Lemma capture_entries {K V} (f : K * V → Outcome (string * ArtifactRef)) cluster l entries :
  (∀ x e, f x = Ok e → artifact_ok {[ cluster ]} e.2) → outcome_map f l = Ok entries →
  Forall (artifact_ok {[ cluster ]}) entries.*2.
Proof.
  intros Hf Hl%outcome_map_ok. apply Forall_fmap. induction Hl; constructor; [by eapply Hf|done].
Qed.

Lemma insert_all_artifacts (P : ArtifactRef → Prop) entries (m : list (string * ArtifactRef)) :
  Forall P m.*2 → Forall P entries.*2 → Forall P (foldl (λ m '(k, a), str_insert k a m) m entries).*2.
Proof.
  rewrite !Forall_fmap. revert m. induction entries as [|[k a] entries IH]; simpl; intros m Hm He; [done|].
  apply Forall_cons in He as [Ha He]. apply IH; [|done]. apply Forall_forall.
  intros x [->|Hx]%bt_insert_elem; [done|]. by eapply Forall_forall in Hm.
Qed.

Lemma capture_required_ok r cluster req :
  capture_required r cluster = Ok req →
  Forall (artifact_ok {[ cluster ]}) (required_references req) ∧ ar_cluster_id (ra_definition req) = cluster.
Proof.
  unfold capture_required. intros (schemas & Hs & Hc)%outcome_bind_ok.
  apply outcome_bind_ok in Hc as (acts & Ha & Hc). apply outcome_bind_ok in Hc as (recs & Hr & Hc).
  apply outcome_bind_ok in Hc as (def & Hd & Hc). apply outcome_bind_ok in Hc as (cat & Hcat & Hc).
  apply outcome_bind_ok in Hc as (pol & Hp & [= <-]).
  apply (capture_entries _ cluster) in Hs; [|by intros [] ? (x & [? _]%capture_ok & [= <-])%outcome_bind_ok].
  apply (capture_entries _ cluster) in Ha; [|by intros [] ? (x & [? _]%capture_ok & [= <-])%outcome_bind_ok].
  apply (capture_entries _ cluster) in Hr; [|by intros [] ? (x & [? _]%capture_ok & [= <-])%outcome_bind_ok].
  pose proof (capture_in_cluster _ _ _ _ Hd).
  apply capture_ok in Hd as [? _], Hcat as [? _], Hp as [? _].
  split; [|done]. unfold required_references. cbn [ra_definition ra_catalog ra_policy ra_schemas ra_contracts].
  rewrite !Forall_app. split_and!; [by repeat (apply Forall_cons; split)|..]; apply insert_all_artifacts; try done.
  rewrite fmap_app. by apply Forall_app.
Qed.

(** Required artifacts are those of the run, and a published run verifies its pin. *)
Definition run_terms (r : RunState) := (rs_definition r, rs_catalog r, rs_published r, rs_policy r).

Lemma required_verify_terms req r r' :
  run_terms r' = run_terms r → required_verify req r' = required_verify req r.
Proof. intros [= Hd Hc Hp Hpol]. unfold required_verify, capture_required. by rewrite Hd, Hc, Hp, Hpol. Qed.

Definition pin_verifies (r : RunState) : Prop :=
  ∀ pin, rs_published r = Some pin → pinned_verify pin (rs_definition r) (rs_catalog r) = Ok tt.

Lemma captured_verifies r cluster req :
  pin_verifies r → capture_required r cluster = Ok req → required_verify req r = Ok tt.
Proof.
  intros Hpin Hreq. unfold required_verify. destruct (capture_required_ok _ _ _ Hreq) as [_ ->]. rewrite Hreq. simpl.
  rewrite bool_decide_eq_true_2 by done. simpl. destruct (rs_published r) as [pin|] eqn:Hp; [|done].
  by rewrite (Hpin _ Hp).
Qed.

(** ** The rows of a run *)
Definition io_ok origins (value : option Value) (reference : option ArtifactRef) : Prop :=
  match value, reference with
  | Some v, Some a => artifact_ok origins a ∧ artifact_verify a (ar_schema a) (inr (to_json v)) = Ok tt
  | None, None => True
  | _, _ => False
  end.

Definition has_schema (reference : option ArtifactRef) (schema : Outcome string) : Prop :=
  ∃ a, reference = Some a ∧ schema = Ok (ar_schema a).

(** The schemas of a claim, under the catalog its run is pinned to. *)
Definition claim_schemas (cat : Catalog) (name : string) (version : Z) (role : ExecutionRole) :
    Outcome (string * string) :=
  '(input, output) ← map_err (λ e, unavailable (err_message e))
    (contract_schemas cat (mkActivityKey name version) role);
  i ← schema_identity input;
  o ← schema_identity output;
  Ok (i, o).

(** The references of an event carry the schemas the run is pinned to. *)
Definition schemas_ok (d : Definition_) (cat : Catalog) (refs : option ArtifactRef * option ArtifactRef)
    (e : DomainEvent) : Prop :=
  match e with
  | RunAdmitted _ _ _ _ _ _ _ => has_schema refs.1 (schema_identity (def_input_schema d))
  | ClaimGranted _ _ _ name version _ _ _ _ _ _ _ _ role =>
      ∃ i o, claim_schemas cat name version role = Ok (i, o) ∧ has_schema refs.1 (Ok i)
  | EventAccepted _ _ signal _ _ _ _ _ =>
      ∃ schema, bt_get signal (def_signals d) = Some schema ∧ has_schema refs.1 (schema_identity schema)
  | RunSucceeded _ _ => has_schema refs.2 (schema_identity (def_output_schema d))
  | _ => True
  end.

Definition record_refs (r : HistoryEntry) : option ArtifactRef * option ArtifactRef := (he_input_ref r, he_output_ref r).

Record row_ok origins (d : Definition_) (cat : Catalog) (r : HistoryEntry) (e : DomainEvent) : Prop := mkRowOk {
  ro_payload : artifact_ok origins (he_payload r);
  ro_input : io_ok origins (event_input e) (he_input_ref r);
  ro_output : io_ok origins (event_output e) (he_output_ref r);
  ro_schemas : schemas_ok d cat (record_refs r) e;
}.

Lemma io_ok_mono origins1 origins2 v a : origins1 ⊆ origins2 → io_ok origins1 v a → io_ok origins2 v a.
Proof. intros ?. destruct v, a; try done. intros [? ?]. split; [by eapply artifact_ok_mono|done]. Qed.

Lemma row_ok_mono origins1 origins2 d cat r e : origins1 ⊆ origins2 → row_ok origins1 d cat r e → row_ok origins2 d cat r e.
Proof. intros ? []. split; eauto using io_ok_mono, artifact_ok_mono. Qed.

Lemma activity_schemas s run r name version role :
  runs s !! run = Some r → activity_schema_identity s run name version role = claim_schemas (rs_catalog r) name version role.
Proof. intros Hr. unfold activity_schema_identity. by rewrite Hr. Qed.

Lemma capture_io cluster schema v a :
  capture_in cluster schema (inr (to_json v)) = Ok a → io_ok {[ cluster ]} (Some v) (Some a) ∧ ar_schema a = schema.
Proof. intros (? & <- & ?)%capture_ok. done. Qed.

(** What is recorded for an event is what the check looks for. *)
Lemma io_references_ok s run r e cluster refs :
  runs s !! run = Some r → io_references s run e cluster = Ok refs →
  io_ok {[ cluster ]} (event_input e) refs.1 ∧ io_ok {[ cluster ]} (event_output e) refs.2 ∧
  schemas_ok (rs_definition r) (rs_catalog r) refs e.
Proof.
  intros Hr Hio. unfold io_references in Hio. rewrite Hr in Hio. simpl in Hio.
  destruct e; try (injection Hio as <-; done).
  - apply outcome_bind_ok in Hio as (schema & Hs & Hio). apply outcome_bind_ok in Hio as (a & [? <-]%capture_io & [= <-]).
    split_and!; [done..|]. by eexists.
  - apply outcome_bind_ok in Hio as ([[name version] role'] & _ & Hio).
    apply outcome_bind_ok in Hio as ([i o] & _ & Hio). by apply outcome_bind_ok in Hio as (a & [? _]%capture_io & [= <-]).
  - apply outcome_bind_ok in Hio as (schema & Hg%ok_or_ok & Hio). apply outcome_bind_ok in Hio as (id & Hs & Hio).
    apply outcome_bind_ok in Hio as (a & [? <-]%capture_io & [= <-]). split_and!; [done..|]. exists schema. split; [done|by eexists].
  - apply outcome_bind_ok in Hio as ([i o] & Hs & Hio). apply outcome_bind_ok in Hio as (a & [? <-]%capture_io & [= <-]).
    rewrite (activity_schemas _ _ _ _ _ _ Hr) in Hs. split_and!; [done..|]. exists (ar_schema a), o. split; [done|by eexists].
  - destruct output; [|by injection Hio as <-]. apply outcome_bind_ok in Hio as ([[name version] role] & _ & Hio).
    apply outcome_bind_ok in Hio as ([i o] & _ & Hio). by apply outcome_bind_ok in Hio as (a & [? _]%capture_io & [= <-]).
  - apply outcome_bind_ok in Hio as (schema & Hs & Hio). apply outcome_bind_ok in Hio as (a & [? <-]%capture_io & [= <-]).
    split_and!; [done..|]. by eexists.
Qed.

(** ** The invariant *)
Definition is_admission (e : DomainEvent) : bool :=
  match e with RunAdmitted _ _ _ _ _ _ _ => true | _ => false end.

Definition admissions (evs : list DomainEvent) : nat := length (List.filter is_admission evs).

(** A checkpoint of a run with these events. *)
Record checkpoint_ok origins (evs : list DomainEvent) (r : RunState) (cp : RunCheckpoint) : Prop := mkCheckpointOk {
  ck_format : cp_format cp = CHECKPOINT_FORMAT;
  ck_through : 0 < cp_through_run_sequence cp ≤ zlen evs;
  ck_required : required_verify (cp_required cp) r = Ok tt;
  ck_projection : artifact_verify (cp_projection_ref cp) "graphrun.run-projection/v2"
    (projection_to_value (cp_through_run_sequence cp, cp_projection cp)) = Ok tt;
  ck_origin : artifact_ok origins (cp_projection_ref cp);
}.

Record run_stored origins (evs : list DomainEvent) (r : RunState) (recs : list HistoryEntry)
    (deps : RequiredArtifacts) : Prop := mkRunStored {
  rt_admitted : (1 ≤ admissions evs)%nat;
  rt_required : required_verify deps r = Ok tt;
  rt_references : Forall (artifact_ok origins) (required_references deps);
  rt_rows : Forall2 (row_ok origins (rs_definition r) (rs_catalog r)) recs evs;
}.

(** What the store holds, but for the history of a run [x] that is being started.
    A run that was admitted twice has other required artifacts than the checkpoint
    of its first admission. *)
Record store_wf (x : option RunId.t) s : Prop := mkStoreWf {
  sw_catalogs v p : (v, p) ∈ published_catalogs s →
    v ≠ 0 ∧ published_catalog_verify p = Ok tt ∧ validate_for_publication (pc_catalog p) = Ok tt;
  sw_receipts key r : (key, r) ∈ command_results s → key = storage_key (cr_key r) ∧ cr_format r = RESULT_FORMAT;
  sw_pins run r : runs s !! run = Some r → pin_verifies r;
  sw_present run : is_Some (runs s !! run) → Some run ≠ x → is_Some (history s !! run);
  sw_runs run evs : history s !! run = Some evs → ∃ r recs deps,
    runs s !! run = Some r ∧ history_records s !! run = Some recs ∧ history_dependencies s !! run = Some deps ∧
    run_stored (artifact_origins s) evs r recs deps;
  sw_checkpoints run cp : checkpoints s !! run = Some cp → ∃ r evs,
    runs s !! run = Some r ∧ history s !! run = Some evs ∧
    ((admissions evs ≤ 1)%nat → checkpoint_ok (artifact_origins s) evs r cp);
  sw_tombstones key t : signal_tombstones s !! key = Some t → artifact_ok (artifact_origins s) (st_payload t);
}.

Lemma checkpoint_ok_mono origins1 origins2 evs1 evs2 r cp :
  origins1 ⊆ origins2 → zlen evs1 ≤ zlen evs2 → checkpoint_ok origins1 evs1 r cp → checkpoint_ok origins2 evs2 r cp.
Proof. intros ?? []. split; [done|lia|done|done|by eapply artifact_ok_mono]. Qed.

Lemma run_stored_mono origins1 origins2 evs r recs deps :
  origins1 ⊆ origins2 → run_stored origins1 evs r recs deps → run_stored origins2 evs r recs deps.
Proof.
  intros Ho []. split; [done|done|by eapply Forall_impl; [|intros ?; by apply artifact_ok_mono]|].
  eapply Forall2_impl; [done|]. intros ??. by apply row_ok_mono.
Qed.

Lemma run_stored_terms origins evs r r' recs deps :
  run_terms r' = run_terms r → run_stored origins evs r recs deps → run_stored origins evs r' recs deps.
Proof.
  intros Ht [? Hreq ? ?]. pose proof Ht as [= Hd Hc _ _]. split; [done| |done|by rewrite Hd, Hc].
  by rewrite (required_verify_terms _ _ _ Ht).
Qed.

Lemma checkpoint_ok_terms origins evs r r' cp :
  run_terms r' = run_terms r → checkpoint_ok origins evs r cp → checkpoint_ok origins evs r' cp.
Proof. intros Ht [? ? Hreq ? ?]. split; try done. by rewrite (required_verify_terms _ _ _ Ht). Qed.

Lemma pin_verifies_terms r r' : run_terms r' = run_terms r → pin_verifies r → pin_verifies r'.
Proof. intros [= Hd Hc Hp _] Hr pin. rewrite Hp, Hd, Hc. apply Hr. Qed.

(** ** Frames *)

(** The part of the state the invariant reads. *)
Definition stored s :=
  (published_catalogs s, command_results s, artifact_origins s, run_terms <$> runs s,
   history s, history_records s, history_dependencies s, checkpoints s, signal_tombstones s).

Lemma run_terms_lookup (m m' : gmap RunId.t RunState) run r' :
  run_terms <$> m' = run_terms <$> m → m' !! run = Some r' → ∃ r, m !! run = Some r ∧ run_terms r' = run_terms r.
Proof.
  intros Heq Hr. assert ((run_terms <$> m') !! run = Some (run_terms r')) as Hl by (by rewrite lookup_fmap, Hr).
  rewrite Heq, lookup_fmap in Hl. apply fmap_Some in Hl as (r & ? & ?). eauto.
Qed.

Lemma store_wf_frame x s s' : stored s' = stored s → store_wf x s → store_wf x s'.
Proof.
  intros [= Ec Er Eo Eruns Eh Erec Ed Ecp Et] [Hc Hr Hpin Hp Hruns Hcp Ht].
  assert (∀ run r, runs s !! run = Some r → ∃ r', runs s' !! run = Some r' ∧ run_terms r' = run_terms r) as Hback.
  { intros run r Hrun. destruct (run_terms_lookup (runs s') (runs s) run r) as (r' & ? & ?); eauto. }
  split; rewrite ?Ec, ?Er, ?Eh, ?Erec, ?Ed, ?Ecp, ?Et, ?Eo; try done.
  - intros run r' (r & Hrun & Heq)%(run_terms_lookup (runs s)); [|done]. by eapply pin_verifies_terms, Hpin.
  - intros run [r' (r & Hrun & _)%(run_terms_lookup (runs s))]; [|done]. apply Hp. eauto.
  - intros run evs (r & recs & deps & (r' & Hr' & Heq)%Hback & ? & ? & Hok)%Hruns. exists r', recs, deps.
    split_and!; try done. by eapply run_stored_terms.
  - intros run cp (r & evs & (r' & Hr' & Heq)%Hback & ? & Hok)%Hcp. exists r', evs. split_and!; try done.
    intros Hone. eapply checkpoint_ok_terms; eauto.
Qed.

Lemma run_terms_alter (f : RunState → RunState) run (m : gmap RunId.t RunState) :
  (∀ r, run_terms (f r) = run_terms r) → run_terms <$> alter f run m = run_terms <$> m.
Proof.
  intros Hf. apply map_eq. intros k. rewrite !lookup_fmap, lookup_alter. case_decide; [subst|done].
  destruct (m !! _); simpl; [by rewrite Hf|done].
Qed.

Lemma run_terms_insert run r r' (m : gmap RunId.t RunState) :
  m !! run = Some r → run_terms r' = run_terms r → run_terms <$> <[run := r']> m = run_terms <$> m.
Proof.
  intros Hr Heq. apply map_eq. intros k. rewrite !lookup_fmap, lookup_insert. case_decide; [|done].
  subst. rewrite Hr. simpl. by rewrite Heq.
Qed.

Lemma evolve_stored s e s' : evolve s e = Ok s' → is_admission e = false → stored s' = stored s.
Proof.
  intros Hev Ha. unfold stored. evolve_cases Hev; try done.
  all: first [by rewrite run_terms_alter | by erewrite run_terms_insert].
Qed.

Lemma record_terminal_stored t s e s' : record_terminal t s e = Ok s' → stored s' = stored s.
Proof.
  unfold record_terminal. intros Hr. ok_inv; try done. unfold stored. simpl.
  by rewrite run_terms_alter.
Qed.

Lemma record_receipt_stored id ext evs actor digest wd t s s' :
  record_receipt id ext evs actor digest wd t s = Ok s' → stored s' = stored s.
Proof.
  unfold record_receipt. intros (s0 & Hs0 & [= <-])%outcome_bind_ok. destruct actor; ok_inv; by destruct wd.
Qed.

(** ** Recording an event *)

(** What [append_event] writes. *)
Record appended (run : RunId.t) (e : DomainEvent) (refs : option ArtifactRef * option ArtifactRef) s s' : Prop := mkAppended {
  ad_same : published_catalogs s' = published_catalogs s ∧ command_results s' = command_results s ∧
    runs s' = runs s ∧ checkpoints s' = checkpoints s;
  ad_origins : artifact_origins s' = {[ current_cluster_id s ]} ∪ artifact_origins s;
  ad_history : history s' = partial_alter (push_entry e) run (history s);
  ad_records : ∃ rec, history_records s' = partial_alter (push_entry rec) run (history_records s) ∧
    record_refs rec = refs ∧ artifact_ok {[ current_cluster_id s ]} (he_payload rec);
  ad_dependencies : if is_admission e
    then ∃ r req, runs s !! run = Some r ∧ capture_required r (current_cluster_id s) = Ok req ∧
      history_dependencies s' = <[run := req]> (history_dependencies s)
    else history_dependencies s' = history_dependencies s;
  ad_tombstones key t : signal_tombstones s' !! key = Some t →
    signal_tombstones s !! key = Some t ∨ artifact_ok {[ current_cluster_id s ]} (st_payload t);
}.

Lemma append_event_appended s run e cid pid t refs s' :
  append_event s run e cid pid t refs = Ok s' → appended run e refs s s'.
Proof.
  destruct refs. unfold append_event. intros (req & Hreq & Ha)%outcome_bind_ok.
  apply outcome_bind_ok in Ha as (a & [Hcap _]%capture_ok & Ha). apply outcome_bind_ok in Ha as (sig & Hsig & Ha).
  set (rec := mkHistoryEntry _ _ _ _ _ _ _ _ _) in Ha.
  destruct e; try (injection Hsig as <-; injection Hreq as <-; injection Ha as <-; split;
    [done|done|done|by exists rec|done|by left]).
  - injection Hsig as <-. apply outcome_bind_ok in Hreq as (r & Hr%unwrap_ok & Hreq).
    apply outcome_bind_ok in Hreq as (q & Hq & [= <-]). injection Ha as <-.
    split; [done|done|done|by exists rec|simpl; eauto|by left].
  - injection Hreq as <-. apply outcome_bind_ok in Hsig as (p & [Hp _]%capture_ok & [= <-]). simpl in Ha.
    injection Ha as <-. split; [done|done|done|by exists rec|done|]. intros k0 t0. simpl. rewrite lookup_insert.
    case_decide; [intros [= <-]; by right|by left].
Qed.

Lemma admissions_push e evs :
  admissions (evs ++ [e]) = (admissions evs + if is_admission e then 1 else 0)%nat.
Proof. unfold admissions. rewrite List.filter_app, length_app. simpl. by destruct (is_admission e). Qed.

(** Recording an event of a run, which an admission gives other terms. *)
Lemma append_store x s s1 run r0 r1 e refs s' :
  store_wf x s → history_wf s → x = None ∨ x = Some run →
  runs s !! run = Some r0 →
  stored s1 = (published_catalogs s, command_results s, artifact_origins s,
    <[run := run_terms r1]> (run_terms <$> runs s),
    history s, history_records s, history_dependencies s, checkpoints s, signal_tombstones s) →
  run_pin r1 = run_pin r0 → (is_admission e = false → x = None ∧ run_terms r1 = run_terms r0) →
  io_ok {[ current_cluster_id s1 ]} (event_input e) refs.1 → io_ok {[ current_cluster_id s1 ]} (event_output e) refs.2 →
  schemas_ok (rs_definition r1) (rs_catalog r1) refs e →
  appended run e refs s1 s' → store_wf None s'.
Proof.
  intros [Hc Hr Hpin Hp Hruns Hcp Ht] Hwf Hx Hr0 [= Ec Er Eo Eruns Eh Erec Ed Ecp Et] [= Edef Ecat Epub] Hplain Hin Hout Hsch
    [(Ec' & Er' & Eruns' & Ecp') Eo' Eh' (rec & Erec' & Hrefs & Hpay) Ed' Et'].
  set (o := artifact_origins s'). assert (artifact_origins s ⊆ o) as Hsub by (subst o; rewrite Eo', Eo; set_solver).
  assert ({[ current_cluster_id s1 ]} ⊆ o) as Hsing by (subst o; rewrite Eo'; set_solver).
  assert (∀ run' r', runs s' !! run' = Some r' → run_terms <$> runs s !! run' = Some (run_terms r') ∨
    run' = run ∧ run_terms r' = run_terms r1) as Hold.
  { intros run' r' Hr'. rewrite Eruns' in Hr'. assert ((run_terms <$> runs s1) !! run' = Some (run_terms r')) as Hl
      by (by rewrite lookup_fmap, Hr'). rewrite Eruns, lookup_insert in Hl.
    case_decide; [right; split; congruence|left; by rewrite <-lookup_fmap]. }
  assert (∀ run' r, runs s !! run' = Some r → run' ≠ run → ∃ r', runs s' !! run' = Some r' ∧ run_terms r' = run_terms r) as Hback.
  { intros run' r Hr' Hne. assert ((run_terms <$> runs s1) !! run' = Some (run_terms r)) as Hl
      by (by rewrite Eruns, lookup_insert_ne, lookup_fmap, Hr').
    rewrite lookup_fmap in Hl. apply fmap_Some in Hl as (r' & ? & ?). exists r'. by rewrite Eruns'. }
  assert (∃ r', runs s' !! run = Some r' ∧ run_terms r' = run_terms r1) as (r' & Hr' & Heq).
  { assert ((run_terms <$> runs s1) !! run = Some (run_terms r1)) as Hl by (by rewrite Eruns, lookup_insert_eq).
    rewrite lookup_fmap in Hl. apply fmap_Some in Hl as (r' & ? & ?). exists r'. by rewrite Eruns'. }
  assert (pin_verifies r') as Hpin'.
  { apply (pin_verifies_terms r1); [done|]. intros pin. rewrite Epub, Edef, Ecat. by apply (Hpin run). }
  split; rewrite ?Ec', ?Er', ?Ec, ?Er; try done.
  - intros run' r2 [(r & Hrun & Ht2)%fmap_Some|[-> ?]]%Hold; [by eapply pin_verifies_terms, Hpin|].
    apply (pin_verifies_terms r'); [congruence|done].
  - intros run' [r2 Hr2] _. rewrite Eh', Eh, lookup_partial_alter. case_decide as Hne; [by eexists|].
    apply Hold in Hr2 as [(r & Hrun & _)%fmap_Some|[-> _]]; [|done]. apply Hp; [eauto|]. destruct Hx; congruence.
  - intros run' evs'. rewrite Eh', Eh, lookup_partial_alter. case_decide as Hne.
    + subst run'. intros [= <-]. exists r'.
      assert (∃ recs, history_records s' !! run = Some (recs ++ [rec]) ∧
        Forall2 (row_ok o (rs_definition r') (rs_catalog r')) (recs ++ [rec]) (default [] (history s !! run) ++ [e]))
        as (recs & Hrecs & Hrows).
      { pose proof Heq as [= -> -> _ _]. rewrite Erec', Erec, lookup_partial_alter, decide_True by done.
        assert (row_ok o (rs_definition r1) (rs_catalog r1) rec e) as Hrow.
        { subst refs. by split; [eapply artifact_ok_mono|eapply io_ok_mono|eapply io_ok_mono|]. }
        exists (default [] (history_records s !! run)). split; [done|]. apply Forall2_app; [|by constructor].
        destruct (history s !! run) as [evs|] eqn:Hevs; simpl.
        - destruct (Hruns _ _ Hevs) as (r & recs & deps & Hrun & Hrecs & _ & [_ _ _ Hrows]). rewrite Hrecs. simpl.
          simplify_eq. rewrite Edef, Ecat. eapply Forall2_impl; [exact Hrows|]. intros ??. by apply row_ok_mono.
        - specialize (Hwf run). rewrite Hevs in Hwf. destruct (history_records s !! run); [done|by constructor]. }
      assert (∃ deps, history_dependencies s' !! run = Some deps ∧ required_verify deps r' = Ok tt ∧
        Forall (artifact_ok o) (required_references deps)) as (deps & Hdeps & Hreq & Href).
      { destruct (is_admission e) eqn:Hadm.
        - destruct Ed' as (r2 & req & Hr2 & Hcap & ->). rewrite <-Eruns', Hr' in Hr2. injection Hr2 as <-.
          exists req. rewrite lookup_insert_eq. split_and!; [done|by eapply captured_verifies|].
          apply capture_required_ok in Hcap as [Hall _]. eapply Forall_impl; [exact Hall|].
          intros ?. by apply artifact_ok_mono.
        - destruct Hplain as [-> Hterms]; [done|]. destruct (Hp run) as [evs Hevs]; [eauto|done|].
          destruct (Hruns _ _ Hevs) as (r & recs' & deps & Hrun & _ & Hdeps & [_ Hreq Href _]).
          rewrite Hr0 in Hrun. injection Hrun as <-.
          exists deps. rewrite Ed', Ed. split_and!; [done| |].
          + rewrite <-Hreq. apply required_verify_terms. by rewrite Heq.
          + eapply Forall_impl; [exact Href|]. intros ?. by apply artifact_ok_mono. }
      exists (recs ++ [rec]), deps. split_and!; [done..|]. split; try done. rewrite admissions_push.
      destruct (is_admission e) eqn:Hadm; [lia|]. destruct Hplain as [-> _]; [done|].
      destruct (Hp run) as [evs Hevs]; [eauto|done|]. rewrite Hevs. simpl.
      destruct (Hruns _ _ Hevs) as (? & ? & ? & _ & _ & _ & [? _ _ _]). lia.
    + intros Hevs. destruct (Hruns _ _ Hevs) as (r & recs & deps & Hrun & Hrecs & Hdeps & Hok).
      destruct (Hback _ _ Hrun) as (r2 & Hr2 & Heq2); [done|]. exists r2, recs, deps.
      rewrite Erec', Erec, lookup_partial_alter_ne by done. split_and!; [done|done| |].
      * destruct (is_admission e); [destruct Ed' as (? & ? & _ & _ & ->)|rewrite Ed'];
          rewrite ?lookup_insert_ne by done; by rewrite Ed.
      * eapply run_stored_terms; [exact Heq2|]. eapply run_stored_mono; [exact Hsub|exact Hok].
  - intros run' cp. rewrite Ecp', Ecp. intros (r & evs & Hrun & Hevs & Hok)%Hcp.
    rewrite Eh', Eh, lookup_partial_alter. case_decide as Hne.
    + subst run'. rewrite Hr0 in Hrun. injection Hrun as <-. exists r', (evs ++ [e]). rewrite Hevs. split_and!; [done|done|].
      simpl. rewrite admissions_push. intros Hone.
      destruct (Hruns _ _ Hevs) as (? & ? & ? & _ & _ & _ & [? _ _ _]).
      destruct (is_admission e); [lia|]. destruct Hplain as [_ Hterms]; [done|].
      apply (checkpoint_ok_terms _ _ r0); [by rewrite Heq|].
      eapply checkpoint_ok_mono; [exact Hsub| |apply Hok; lia]. unfold zlen. rewrite length_app. lia.
    + destruct (Hback _ _ Hrun) as (r2 & Hr2 & Heq2); [done|]. exists r2, evs. split_and!; [done|done|].
      intros Hone. eapply checkpoint_ok_terms; [exact Heq2|].
      eapply checkpoint_ok_mono; [exact Hsub|reflexivity|by apply Hok].
  - intros key t [Hold'|Hnew]%Et'; [|by eapply artifact_ok_mono]. rewrite Et in Hold'.
    eapply artifact_ok_mono; [exact Hsub|by eapply Ht].
Qed.

(** Applying an event: an admission fills in the run that is being started. *)
Definition starts_for (x : option RunId.t) (e : DomainEvent) : Prop :=
  match e with RunAdmitted run _ _ _ _ _ _ => x = None ∨ x = Some run | _ => x = None end.

Lemma owner_of_admission s e : event_owner s e = Ok None → is_admission e = false.
Proof. by destruct e. Qed.

Lemma event_cluster s e s1 : evolve s e = Ok s1 → current_cluster_id s1 = current_cluster_id s.
Proof. intros [_ [= _ _ _ _ _ ?]]%evolve_frame. done. Qed.

Lemma apply_event_store x cid pid t s e s' :
  store_wf x s → history_wf s → starts_for x e → apply_event_with_cause cid pid t s e = Ok s' → store_wf None s'.
Proof.
  intros Hwf Hh Hx. unfold apply_event_with_cause. intros (owner & Hown & Ha)%outcome_bind_ok.
  apply outcome_bind_ok in Ha as (io & Hio & Ha). apply outcome_bind_ok in Ha as (s1 & Hev & Ha).
  destruct owner as [run|]; simpl in *.
  - apply outcome_bind_ok in Hio as (refs & Hrefs & [= <-]). simpl in Ha.
    apply append_event_appended in Ha. pose proof (event_cluster _ _ _ Hev) as Ecl.
    assert (∃ r0, runs s !! run = Some r0) as [r0 Hr0].
    { unfold io_references in Hrefs. apply outcome_bind_ok in Hrefs as (r0 & Hr0%ok_or_ok & _). eauto. }
    pose proof (io_references_ok _ _ _ _ _ _ Hr0 Hrefs) as (Hin & Hout & Hsch).
    destruct (is_admission e) eqn:Hadm.
    + destruct e; try done. simpl in *. injection Hown as <-. injection Hev as <-.
      eapply append_store with (r1 := mkRunState (rs_id r0) (rs_definition r0) (rs_catalog r0) input policy
        RunStatus_Active root (rs_next_sequence r0) (rs_next_ready_order r0) admitted_ms (rs_terminal_ms r0) (rs_published r0));
        try done; try by intros.
      unfold stored, evolve_run_admitted. simpl. repeat f_equal. apply map_eq. intros k.
      rewrite lookup_fmap, lookup_alter, lookup_insert. case_decide; [subst|by rewrite lookup_fmap]. by rewrite Hr0.
    + assert (x = None) as -> by (by destruct e).
      eapply append_store with (r1 := r0); rewrite ?Ecl; try done; try by left.
      rewrite (evolve_stored _ _ _ Hev Hadm). unfold stored. repeat f_equal. apply map_eq. intros k.
      rewrite lookup_insert. case_decide; [subst|done]. by rewrite lookup_fmap, Hr0.
  - injection Ha as <-. pose proof (owner_of_admission _ _ Hown) as Hadm.
    assert (x = None) as -> by (by destruct e). by eapply store_wf_frame, Hwf; eapply evolve_stored.
Qed.

Lemma apply_events_store s evs cid pid t s' :
  store_wf None s → history_wf s → Forall (λ e, is_admission e = false) evs →
  apply_events_with_cause s evs cid pid t = Ok s' → store_wf None s'.
Proof.
  unfold apply_events_with_cause. intros Hwf Hh Hall. revert s Hwf Hh.
  induction Hall as [|e evs He _ IH]; simpl; intros s Hwf Hh Ha; [by simplify_eq|].
  apply outcome_bind_ok in Ha as (s1 & Hs1 & Ha). eapply IH; [| |exact Ha].
  - eapply apply_event_store; [done|done| |exact Hs1]. by destruct e.
  - by eapply apply_event_history.
Qed.

(** The events of a start: the admission of the run and what follows it. *)
Lemma start_events_store run definition version input root policy ms rest s cid pid t s' x :
  x = None ∨ x = Some run → store_wf x s → history_wf s → Forall (λ e, is_admission e = false) rest →
  apply_events_with_cause s (RunAdmitted run definition version input root policy ms :: rest) cid pid t = Ok s' →
  store_wf None s'.
Proof.
  intros Hx Hwf Hh Hrest (s1 & Hs1 & Ha)%outcome_bind_ok. eapply apply_events_store; [| |exact Hrest|exact Ha].
  - eapply apply_event_store; [exact Hwf|done| |exact Hs1]. exact Hx.
  - by eapply apply_event_history.
Qed.

(** ** Checkpoints *)
Lemma checkpoint_store s run t s' :
  store_wf None s → checkpoint_after_command s run t = Ok s' → store_wf None s'.
Proof.
  intros Hwf. unfold checkpoint_after_command. destruct (runs s !! run) as [r|] eqn:Hr; [|by intros [= <-]].
  destruct (sw_present _ _ Hwf run) as [evs Hevs]; [eauto|done|]. rewrite Hevs.
  destruct (zlen evs =? 0) eqn:Hlen; [by intros [= <-]|]. destruct (_ && _); [by intros [= <-]|].
  destruct (Z.eqb _ (zlen evs)); [intros Ha; by injection Ha as <-|]. intros (req & Hreq%ok_or_ok & Ha)%outcome_bind_ok.
  apply outcome_bind_ok in Ha as (p & _ & Ha). apply outcome_bind_ok in Ha as (a & (Ha1 & _ & Ha2)%capture_ok & [= <-]).
  destruct Hwf as [Hc Hrc Hpin Hp Hruns Hcp Ht].
  assert (artifact_origins s ⊆ {[current_cluster_id s]} ∪ artifact_origins s) as Hsub by set_solver.
  split; simpl; try done.
  - intros run' evs' He. destruct (Hruns _ _ He) as (r' & recs & deps & ? & ? & ? & ?). exists r', recs, deps.
    split_and!; try done. by eapply run_stored_mono.
  - intros run' cp. rewrite lookup_insert. case_decide as Hne.
    + intros [= <-]. subst run'. exists r, evs. split_and!; [done..|]. intros _.
      destruct (Hruns _ _ Hevs) as (r' & recs & deps & Hr' & _ & Hdeps & [_ Hreqv _ _]). simplify_eq.
      to_prop. split; simpl; try done; [unfold zlen in *; lia|]. by eapply artifact_ok_mono; [|exact Ha1]; set_solver.
    + intros (r' & evs' & ? & ? & Hok)%Hcp. exists r', evs'. split_and!; try done. intros Hone.
      by eapply checkpoint_ok_mono; [exact Hsub|reflexivity|apply Hok].
  - intros key tomb Hk. eapply artifact_ok_mono; [exact Hsub|by eapply Ht].
Qed.

Lemma checkpoints_store s l t s' :
  store_wf None s → outcome_fold (λ s run, checkpoint_after_command s run t) s l = Ok s' → store_wf None s'.
Proof. apply outcome_fold_inv. intros ???. by apply checkpoint_store. Qed.

(** ** Commands *)

(** A decision admits a run at most as its first event, and only to start it. *)
Lemma decide_admissions s c ids evs ids' :
  decide_body s c ids = Ok (evs, ids') →
  Forall (λ e, is_admission e = false) evs ∨
  ∃ run definition input catalog version root policy ms rest, cmd_body c = Cmd_Start run definition input catalog ∧
    evs = RunAdmitted run (def_id definition) version input root policy ms :: rest ∧
    Forall (λ e, is_admission e = false) rest.
Proof.
  intros [Hplain|[(run & df & input & cat & Hb & _ & Hd)|
    [(run & ev & signal & key & payload & _ & Hd)|(session & capacity & _ & _ & Hd)]]]%decide_body_plain.
  - left. eapply Forall_impl; [exact Hplain|]. by intros [].
  - right. unfold decide_start in Hd. ok_inv. do 9 eexists. split_and!; [done|done|]. by repeat constructor.
  - left. unfold decide_signal in Hd. ok_inv; repeat constructor. case_match; repeat constructor.
  - left. pose proof (decide_claim_events _ _ _ _ _ Hd) as Hall. eapply Forall_impl; [exact Hall|]. by intros [].
Qed.

(** The run that is being started, if any, is the one the command names. *)
Definition starting (x : option RunId.t) (body : CommandBody) : Prop :=
  x = None ∨ ∃ run definition input catalog, body = Cmd_Start run definition input catalog ∧ x = Some run.

Lemma decided_store x s c ids evs ids' s0 cid pid t s' :
  store_wf x s → history_wf s → starting x (cmd_body c) →
  decide_body s0 c ids = Ok (evs, ids') → apply_events_with_cause s evs cid pid t = Ok s' → store_wf None s'.
Proof.
  intros Hwf Hh Hx Hd Ha. pose proof (decide_admissions _ _ _ _ _ Hd) as
    [Hall|(run & df & input & cat & v & root & pol & ms & rest & Hb & -> & Hrest)].
  - destruct Hx as [->|(run & d & i & k & Hb & ->)]; [by eapply apply_events_store|].
    exfalso. unfold decide_body in Hd. rewrite Hb in Hd. destruct (execution_suspended s0); [done|].
    unfold decide_start in Hd. ok_inv. apply Forall_cons in Hall as [? _]. done.
  - eapply start_events_store, Ha; [|done..]. destruct Hx as [->|(? & ? & ? & ? & Hb' & ->)]; [by left|right].
    congruence.
Qed.

Lemma apply_new_store x s c actor ext digest evs s' :
  store_wf x s → history_wf s → starting x (cmd_body c) → commands s !! cmd_id c = None →
  apply_command_with_actor s c actor ext digest = Ok (evs, s') → store_wf None s'.
Proof.
  intros Hwf Hh Hx Hnone. unfold apply_command_with_actor. intros (wd & _ & Ha)%outcome_bind_ok. rewrite Hnone in Ha.
  apply outcome_bind_ok in Ha as (evs1 & Hd & Ha). apply outcome_bind_ok in Ha as (s1 & Hs1 & Ha).
  apply outcome_bind_ok in Ha as (s2 & Hs2 & Ha). apply outcome_bind_ok in Ha as (s3 & Hs3%record_receipt_stored & Ha).
  apply outcome_bind_ok in Ha as (affected & _ & Ha). apply outcome_bind_ok in Ha as (s4 & Hs4 & [= <- <-]).
  apply decide_new in Hd as (ids' & Hd); [|done].
  apply (outcome_fold_keeps stored) in Hs2; [|intros ???; apply record_terminal_stored].
  eapply checkpoints_store, Hs4. apply (store_wf_frame _ s1); [by rewrite Hs3|].
  eapply decided_store, Hs1; [| | |exact Hd]; [|by apply (history_wf_logs s)|done].
  by apply (store_wf_frame _ s).
Qed.

(** The run of a start is put in before its admission. *)
Lemma provisional_store s run definition catalog pin :
  store_wf None s → runs s !! run = None →
  (∀ p, pin = Some p → pinned_verify p definition catalog = Ok tt) →
  store_wf (Some run) (upd_runs (insert run (provisional_run run definition catalog pin)) s).
Proof.
  intros [Hc Hr Hpin Hp Hruns Hcp Ht] Hnone Hver. split; simpl; try done.
  - intros run' r. rewrite lookup_insert. case_decide; [intros [= <-]; exact Hver|apply Hpin].
  - intros run' Hin Hne. rewrite lookup_insert_ne in Hin by congruence. by apply Hp.
  - intros run' evs He. destruct (Hruns _ _ He) as (r & recs & deps & ? & ? & ? & ?). exists r, recs, deps.
    split_and!; try done. rewrite lookup_insert_ne; [done|congruence].
  - intros run' cp Hk. destruct (Hcp _ _ Hk) as (r & evs & ? & ? & ?). exists r, evs.
    split_and!; try done. rewrite lookup_insert_ne; [done|congruence].
Qed.

Lemma commit_store s c actor evs s' :
  store_wf None s → history_wf s → commit_execution s c actor = Ok (evs, s') → store_wf None s'.
Proof.
  intros Hwf Hh (id & d & sd & wd & _ & _ & _ & _ & [(_ & -> & _)|(Hnone & s1 & Ha & ->)])%commit_split; [done|].
  assert (store_wf None s1) as Hs1; [|destruct sd; [by apply (store_wf_frame _ s1)|done]].
  pose proof (provide_run_receipts s (cmd_body c)) as (Hpc & _)%receipts_eq.
  assert (∃ x, store_wf x (provide_run s (cmd_body c)) ∧ starting x (cmd_body c)) as (x & Hx & Hst).
  { destruct (cmd_body c) eqn:Hb; try (exists None; split; [exact Hwf|by left]). unfold provide_run.
    case_bool_decide as Hrun; [exists None; split; [done|by left]|]. exists (Some run).
    split; [apply provisional_store; [done|by apply eq_None_not_Some|done]|right; eauto 10]. }
  eapply apply_new_store, Ha; [exact Hx| |exact Hst|by rewrite Hpc].
  apply (history_wf_logs s); [|done]. unfold provide_run. destruct (cmd_body c); try done. by case_bool_decide.
Qed.

(** ** Publications *)
Lemma progress_store s id run time evs s' :
  store_wf None s → history_wf s → apply_command s (mkCommand id (Cmd_Progress run) time) = Ok (evs, s') →
  store_wf None s'.
Proof.
  intros Hwf Hh. unfold apply_command. simpl. intros ([[c ext] d] & Hp & Ha)%outcome_bind_ok.
  apply prepare_command_ok in Hp as (id' & Hid & -> & -> & _). simpl in Hid. injection Hid as <- <-.
  destruct (commands s !! id) as [evs0|] eqn:Hnone.
  - unfold apply_command_with_actor in Ha. apply outcome_bind_ok in Ha as (wd & _ & Ha). simpl in Ha.
    rewrite Hnone in Ha. apply outcome_bind_ok in Ha as (_ & _ & [= <- <-]). done.
  - eapply apply_new_store, Ha; [done|done|by left|done].
Qed.

Lemma start_pinned_store s c key pinned catalog input range s' :
  store_wf None s → history_wf s → runs s !! (published_start_ids key).1.1 = None → start_ids_unused s key →
  pinned_verify (pin_for pinned catalog) (pd_definition pinned) (pc_catalog catalog) = Ok tt →
  start_pinned s c key pinned catalog input = Ok (range, s') → store_wf None s'.
Proof.
  intros Hwf Hh Hrun Hunused Hver Hs%start_pinned_ok. unfold provisional, start_ids_unused in *.
  destruct (published_start_ids key) as [[run start_id] progress_id]. simpl in *.
  destruct Hs as (_ & evs & s1 & evs2 & Hd & Hs1 & Hs2). set (s0 := upd_runs _ _) in *.
  apply decide_new in Hd as (ids' & Hd); [|done].
  assert (store_wf (Some run) s0) as Hwf0 by (apply provisional_store; [done|done|by intros ? [= <-]]).
  assert (history_wf s0) as Hh0 by (by apply (history_wf_logs s)).
  eapply (progress_store s1), Hs2; [|by eapply apply_events_history].
  eapply decided_store, Hs1; [exact Hwf0|done| |exact Hd]. right. by do 4 eexists.
Qed.

Lemma insert_receipt_store x s key r :
  cr_key r = key → cr_format r = RESULT_FORMAT → store_wf x s →
  store_wf x (upd_command_results (str_insert (storage_key key) r) s).
Proof.
  intros Hk Hf [Hc Hr Hpin Hp Hruns Hcp Ht]. split; try done. simpl.
  intros k r' [[= -> ->]|Hin]%bt_insert_elem; [by rewrite Hk|by apply Hr].
Qed.

Lemma applied_store s c key op r digest s' :
  published_wf s → start_ids_unused s key → store_wf None s → history_wf s →
  applied s c key op r digest s' → store_wf None s'.
Proof.
  intros Hpub Hunused Hwf Hh Ha. destruct Ha as [|code details _ ->|d range s1 _ Hop ->];
    [done|by apply insert_receipt_store|apply insert_receipt_store; [done|done|]].
  destruct op as [v cat|definition cv|w v k input]; simpl in Hop.
  - unfold apply_catalog in Hop. destruct (v =? 0) eqn:Hv; [done|].
    assert (apply_catalog s v cat = Ok (d, range, s1)) as Ha by (by unfold apply_catalog; rewrite Hv).
    apply apply_catalog_ok in Ha as (dg & _ & _ & Hval & [[-> _]|(_ & _ & Hver & ->)]); [done|].
    destruct Hwf as [Hc Hr Hpin Hp Hruns Hcp Ht]. split; try done. simpl.
    intros v' p [[= -> ->]|Hin]%bt_insert_elem; [|by apply Hc]. to_prop. done.
  - apply apply_definition_ok in Hop as (? & _ & _ & _ & _ & _ & [[-> _]|(_ & ->)]); [done|by apply (store_wf_frame _ s)].
  - apply apply_start_ok in Hop as (? & _ & [(? & _ & -> & _)|
      (_ & pinned & catalog & range1 & s2 & Hpin & Hrun & _ & _ & Hs2 & _ & _ & ->)]); [done|].
    destruct (pinned_for_sound _ _ _ _ _ Hpub Hpin) as [_ Hver].
    apply start_pinned_store in Hs2; [|done..]. by apply (store_wf_frame _ s2).
Qed.

(** ** Retention *)
Lemma drop_results_store x keys s : store_wf x s → store_wf x (drop_results keys s).
Proof.
  intros [Hc Hr Hpin Hp Hruns Hcp Ht]. split; try done. simpl. intros k r [_ Hin]%elem_of_filter_b. by apply Hr.
Qed.

Lemma drop_input_store id t acc key acc' :
  store_wf None acc.2 → history_wf acc.2 → drop_input id t acc key = Ok acc' → store_wf None acc'.2 ∧ history_wf acc'.2.
Proof.
  destruct acc as [evs s], acc' as [evs' s']. simpl. intros Hwf Hh Hd. split; [|by eapply drop_input_history].
  unfold drop_input in Hd. apply outcome_bind_ok in Hd as (e & _ & Ha).
  destruct (_ && _); [done|]. destruct (_ ≫= _); [|injection Ha as _ <-; by apply (store_wf_frame _ s)].
  apply outcome_bind_ok in Ha as (s1 & Hs1 & Ha). apply outcome_bind_ok in Ha as (s2 & Hs2 & [= _ <-]).
  eapply checkpoint_store, Hs2. eapply apply_events_store, Hs1; [done|done|by repeat constructor].
Qed.

Lemma drop_run_store s id s' : store_wf None s → drop_run s id = Ok s' → store_wf None s'.
Proof.
  intros Hwf. unfold drop_run. intros (r & Hr & Hd)%outcome_bind_ok. apply outcome_bind_ok in Hd as (status & _ & Hd).
  match type of Hd with Ok (upd_obligations _ (upd_inbox _ (upd_waits _ (foldl _ ?base _)))) = _ =>
    apply (store_wf_frame _ base) end.
  { injection Hd as <-. unfold stored. simpl. by apply (foldl_keeps stored). }
  clear Hd. destruct Hwf as [Hc Hrec Hpin Hp Hruns Hcp Ht]. split; simpl; try done.
  - intros run x [_ Hx]%lookup_delete_Some. by eapply Hpin.
  - intros run [x [Hne Hx]%lookup_delete_Some] _. rewrite lookup_delete_ne by done. by apply Hp; [eexists|].
  - intros run evs [Hne He]%lookup_delete_Some. destruct (Hruns _ _ He) as (x & recs & deps & ? & ? & ? & ?).
    exists x, recs, deps. by rewrite !lookup_delete_ne by done.
  - intros run cp [Hne Hk]%lookup_delete_Some. destruct (Hcp _ _ Hk) as (x & evs & ? & ? & ?).
    exists x, evs. by rewrite !lookup_delete_ne by done.
Qed.

Lemma drop_summary_store s id : store_wf None s → store_wf None (drop_summary s id).
Proof.
  intros [Hc Hr Hpin Hp Hruns Hcp Ht]. split; try done. simpl.
  intros key t [Hk _]%map_lookup_filter_Some. by eapply Ht.
Qed.

Lemma prune_store s id time limit evs s' :
  store_wf None s → history_wf s → prune s id time limit = Ok (evs, s') → store_wf None s'.
Proof.
  intros Hwf Hh. unfold prune. intros ([expired s2] & Hs2 & Hp)%outcome_bind_ok.
  apply outcome_bind_ok in Hp as (s3 & Hs3 & [= _ <-]).
  apply (foldl_inv (store_wf None)); [intros; by apply drop_summary_store|].
  eapply (outcome_fold_inv (store_wf None)), Hs3; [intros; by eapply drop_run_store|].
  eapply (outcome_fold_inv (λ acc : events * State, store_wf None acc.2 ∧ history_wf acc.2)) in Hs2 as [? _]; [done| |].
  - intros acc key acc' [? ?]. by apply drop_input_store.
  - simpl. split.
    + apply (foldl_inv (store_wf None)); [intros s1 c ?; by apply (store_wf_frame _ s1)|by apply drop_results_store].
    + apply (foldl_inv history_wf); [intros s1 c ?; by apply (history_wf_logs s1)|by apply (history_wf_logs s)].
Qed.

Lemma commit_retention_store s c limit evs s' :
  store_wf None s → history_wf s → commit_retention s c limit = Ok (evs, s') → store_wf None s'.
Proof.
  unfold commit_retention. intros Hwf Hh. destruct (_ || _); [done|]. intros (_ & _ & Hc)%outcome_bind_ok.
  destruct (commands s !! cmd_id c); [by simplify_eq|].
  apply outcome_bind_ok in Hc as (_ & _ & Hc). apply outcome_bind_ok in Hc as ([evs1 s1] & Hp & [= _ <-]).
  apply (store_wf_frame _ s1); [done|]. eapply prune_store, Hp; [by apply (store_wf_frame _ s)|by apply (history_wf_logs s)].
Qed.

(** ** Every step *)
Lemma domain_step_store s s' :
  published_wf s → history_wf s → store_wf None s → domain_step s s' → store_wf None s'.
Proof.
  intros Hpub Hh Hwf [[|c actor evs s1 Hc|s0 c c' key op r digest s1 Hs0 Hf Ha|
    c roster log_id principal receipt policy receipts Ha]|c limit evs Hc].
  - done.
  - by eapply commit_store.
  - eapply applied_store, Ha; destruct Hs0 as [->| ->]; try done.
    + by apply (publications_published s).
    + by apply (store_wf_frame _ s).
  - by apply (store_wf_frame _ s).
  - by eapply commit_retention_store.
Qed.

Lemma initial_store cluster hold :
  store_wf None (upd_recovery (λ _, hold) (upd_cluster_id (λ _, cluster) state_default)).
Proof.
  split; simpl.
  - by intros ?? ?%elem_of_nil.
  - by intros ?? ?%elem_of_nil.
  - intros ??. by rewrite lookup_empty.
  - intros ?. rewrite lookup_empty. by intros [].
  - intros ??. by rewrite lookup_empty.
  - intros ??. by rewrite lookup_empty.
  - intros ??. by rewrite lookup_empty.
Qed.
End StoredFacts.
