(* ===== verification/EngineFacts.v ===== *)
(** * The engine as a whole

    The states an engine reaches by committing commands and retention batches,
    the invariants that hold in all of them, and what they mean for reading a
    run's history. *)
From stdpp Require Import base option gmap strings list.
From Stdlib Require Import ZArith Ascii Lia.
From S2P Require Import Prelude Value Ids Policy Catalog Ir Analysis Equality Domain Eval Evolve History Steps Saga Signals Claims Progress Command Publication FormatUpgrade Schedule Retention Replica AnalysisFacts EvolveFacts StepFacts ClaimFacts SignalFacts CommandFacts HistoryFacts RetentionFacts FormatFacts PublicationFacts PublishedFacts ReplicaFacts.

Section EngineFacts.
Context `{Platform} `{CatalogSerde} `{Serde} `{OperationSerde} `{!PlatformLaws _}.
Implicit Types s : State.

(** ** Retention batches *)
Lemma commit_retention_split s c limit evs s' :
  commit_retention s c limit = Ok (evs, s') →
  (commands s !! cmd_id c = Some evs ∧ s' = s) ∨
  (commands s !! cmd_id c = None ∧
   let time := Z.max (cmd_time c) (engine_time_watermark_ms s) in
   ∃ s1, prune (upd_watermark (λ _, time) s) (cmd_id c) time (Z.to_nat limit) = Ok (evs, s1) ∧
     s' = upd_command_times (insert (cmd_id c) time) (upd_commands (insert (cmd_id c) evs) s1)).
Proof.
  unfold commit_retention. destruct (_ || _); [done|]. intros (_ & _ & Hc)%outcome_bind_ok.
  destruct (commands s !! cmd_id c) eqn:Hid; [left; by simplify_eq|right; split; [done|]].
  apply outcome_bind_ok in Hc as (_ & _ & Hc). apply outcome_bind_ok in Hc as ([evs1 s1] & Hp & Hc). simplify_eq. eauto.
Qed.

Lemma ticked_ok s time : engine_ok s → engine_ok (upd_watermark (λ _, time) s).
Proof.
  intros [Hwf Hh]. split; [|by apply (history_wf_logs s)]. apply (engine_wf_frame s); [done|apply Hwf|done].
Qed.

Lemma commit_retention_ok s c limit evs s' :
  engine_ok s → commit_retention s c limit = Ok (evs, s') → engine_ok s'.
Proof.
  intros Hok [[_ ->]|(_ & s1 & Hp & ->)]%commit_retention_split; [done|].
  apply prune_spec in Hp as [_ [Hwf1 Hh1]]; [|by apply ticked_ok].
  split; [|by apply (history_wf_logs s1)]. apply (engine_wf_frame s1); [done| |done].
  intros id Hid. simpl. rewrite lookup_insert. case_decide; [eauto|]. by apply Hwf1.
Qed.

(** C36: retention keeps what is live. A retention batch leaves untouched the
    receipt of every command younger than a day and every run whose terminal
    history is not due: the run, its scopes, activations, waits, obligations,
    per-activation progress and unexpired inbox entries are the same, and its
    history only grows by the expiry of its own inputs. *)
Theorem retention_keeps_what_is_live s c limit evs s' :
  engine_ok s → commands s !! cmd_id c = None → commit_retention s c limit = Ok (evs, s') →
  let now := Z.max (cmd_time c) (engine_time_watermark_ms s) in
  (∀ id recorded, id ≠ cmd_id c → command_times s !! id = Some recorded →
    now < sat_add64 recorded DAY_MS → receipt_of s' id = receipt_of s id) ∧
  (∀ run r, runs s !! run = Some r → run_expired now r = false → run_kept now run s s').
Proof.
  intros Hok Hnew [[? _]|(_ & s1 & Hp & ->)]%commit_retention_split; [congruence|]. simpl.
  apply prune_spec in Hp as [[Hrec Hrun] _]; [|by apply ticked_ok]. split.
  - intros id recorded Hne Hid Hdue. etrans; [|exact (Hrec _ _ Hid Hdue)].
    unfold receipt_of. simpl. by rewrite !lookup_insert_ne.
  - intros run r Hr He. destruct (Hrun _ _ Hr He). by split.
Qed.

(** ** Reachable states

    The states an engine goes through from an empty store: it starts with its
    cluster identity and possibly a recovery hold, and every committed request is
    a step. *)
Inductive reachable : State → Prop :=
| reachable_init cluster hold :
    reachable (upd_recovery (λ _, hold) (upd_cluster_id (λ _, cluster) state_default))
| reachable_step s s' :
    reachable s → sequences_in_range s → domain_step s s' → reachable s'.

Lemma reachable_commit s c actor evs s' :
  reachable s → sequences_in_range s → commit_execution s c actor = Ok (evs, s') → reachable s'.
Proof. intros Hs Hr Hc. eapply reachable_step; [done..|]. by eapply step_live, step_execution. Qed.

Lemma domain_step_ok s s' : sequences_in_range s → engine_ok s → domain_step s s' → engine_ok s'.
Proof.
  intros Hseq Hok [[|c actor evs s1 Hc|s0 c c' key op r digest s1 Hs0 Hf Ha|
    c roster log_id principal receipt policy receipts Ha]|c limit evs Hc].
  - done.
  - destruct Hok as [Hwf Hh]. split; [by eapply commit_wf|by eapply commit_history].
  - assert (engine_ok s0 ∧ sequences_in_range s0 ∧ start_ids_unused s0 key) as ([Hwf Hh] & Hseq0 & Hf0).
    { destruct Hs0 as [->| ->]; [done|]. split; [by apply ticked_ok|done]. }
    apply (applied_engine _ _ _ _ _ _ _ Hseq0 Hf0 Hwf Hh) in Ha as [? ?]. by split.
  - by apply (engine_frame s).
  - by eapply commit_retention_ok.
Qed.

Lemma reachable_ok s : reachable s → engine_ok s.
Proof.
  induction 1 as [cluster hold|s s' _ Hok Hseq Hs]; [|by eapply domain_step_ok].
  split; [apply initial_wf|]. intros run. simpl. by rewrite !lookup_empty.
Qed.

(** ** What is published *)
Lemma domain_step_published s s' : published_wf s → domain_step s s' → published_wf s'.
Proof.
  intros Hwf [[|c actor evs s1 Hc|s0 c c' key op r digest s1 Hs0 Hf Ha|
    c roster log_id principal receipt policy receipts Ha]|c limit evs Hc].
  - done.
  - by eapply commit_published.
  - eapply applied_published; [|exact Ha]. destruct Hs0 as [->| ->]; [done|]. by apply (publications_published s).
  - by apply (publications_published s).
  - by eapply commit_retention_published.
Qed.

Lemma reachable_published s : reachable s → published_wf s.
Proof.
  induction 1 as [cluster hold|s s' _ Hwf _ Hs]; [|by eapply domain_step_published].
  split; simpl; try done; by intros ? ? ? ? ?%elem_of_nil.
Qed.

Lemma domain_step_retained s s' : published_wf s → retained_wf s → domain_step s s' → retained_wf s'.
Proof.
  intros Hp Hwf [[|c actor evs s1 Hc|s0 c c' key op r digest s1 Hs0 Hf Ha|
    c roster log_id principal receipt policy receipts Ha]|c limit evs Hc].
  - done.
  - by eapply commit_retained.
  - eapply applied_retained; [| |exact Ha];
      destruct Hs0 as [->| ->]; [done|by apply (publications_published s)|done|by apply (publications_retained s)].
  - by apply (publications_retained s).
  - by eapply commit_retention_retained.
Qed.

Lemma reachable_retained s : reachable s → retained_wf s.
Proof.
  induction 1 as [cluster hold|s s' Hr Hwf _ Hs].
  - split; simpl; [by intros ? ? ? ? ?%elem_of_nil|done].
  - eapply domain_step_retained; [by apply reachable_published|done|exact Hs].
Qed.

(** C24: a published run executes what is published. In every state the engine
    reaches, the definition of a run that was started from a published workflow is
    the one that is retained under its identity and version, its catalog the one
    that is retained under the catalog version this definition was published with,
    the pin is the one of these two, the definition passes the validation against
    the catalog, and the pin verifies: it names the format and the digests of
    exactly this definition and this catalog. *)
Theorem published_run_is_sound s run r pin :
  reachable s → runs s !! run = Some r → rs_published r = Some pin →
  (∃ d p, find_definition s (def_id (rs_definition r)) (def_version (rs_definition r)) = Some d ∧
     pd_definition d = rs_definition r ∧
     bt_get (pd_catalog_version d) (published_catalogs s) = Some p ∧ pc_catalog p = rs_catalog r ∧
     pin = pin_for d p) ∧
  validate_definition (rs_definition r) (rs_catalog r) = Ok tt ∧
  pinned_verify pin (rs_definition r) (rs_catalog r) = Ok tt.
Proof.
  intros Hs Hr Hp. split; [exact (rw_pins _ (reachable_retained _ Hs) _ _ _ Hr Hp)|].
  exact (pw_runs _ (reachable_published _ Hs) _ _ _ Hr Hp).
Qed.

(** Published content is consistent. In every state the engine reaches, a
    retained definition is found under its own identity, verifies, and passes the
    validation against its retained catalog; any two retained catalogs give a
    schema, activity or reconciler key the same meaning; and a start key points
    to a run whose state or summary is retained. *)
Theorem publications_are_consistent s :
  reachable s →
  (∀ id v d, find_definition s id v = Some d →
    def_id (pd_definition d) = id ∧ def_version (pd_definition d) = v ∧ published_definition_verify d = Ok tt ∧
    ∃ p, bt_get (pd_catalog_version d) (published_catalogs s) = Some p ∧ published_catalog_verify p = Ok tt ∧
      validate_definition (pd_definition d) (pc_catalog p) = Ok tt) ∧
  (∀ v1 p1 v2 p2, bt_get v1 (published_catalogs s) = Some p1 → bt_get v2 (published_catalogs s) = Some p2 →
    catalogs_agree (pc_catalog p1) (pc_catalog p2)) ∧
  (∀ w k record, find_start_key s w k = Some record →
    is_Some (runs s !! sr_run record) ∨ is_Some (terminal_summaries s !! sr_run record)).
Proof.
  intros [Hc Ha Hd _ Hs]%reachable_published. split_and!; [|done|].
  - intros id v d. unfold find_definition. intros (versions & Hv%bt_get_pair & Hget%bt_get_pair)%bind_Some.
    destruct (Hd _ _ _ _ Hv Hget) as (? & ? & ? & p & Hp & ?). eauto 10.
  - intros w k record. unfold find_start_key. intros (keys & Hw%bt_get_pair & Hk%bt_get_pair)%bind_Some. by eapply Hs.
Qed.

Lemma live_step_grows s s' : live_step s s' → published_grows s s'.
Proof.
  intros [|c actor evs s1 Hc|s0 c c' key op r digest s1 Hs0 Hf Ha|c roster log_id principal receipt policy receipts Ha].
  - done.
  - by eapply commit_grows.
  - transitivity s0; [|by eapply applied_grows]. by destruct Hs0 as [->| ->]; [|apply published_grows_same].
  - by apply published_grows_same.
Qed.

Lemma live_steps_grow s s' : rtc live_step s s' → published_grows s s'.
Proof. induction 1 as [|s1 s2 s3 Hs _ IH]; [done|]. transitivity s2; [by apply live_step_grows|done]. Qed.

(** Published content never changes. Whatever commands, publications and
    format changes are committed, a catalog version, a workflow version and a
    start key keep the content they were published with. *)
Theorem published_content_is_immutable s s' :
  rtc live_step s s' →
  (∀ v p, bt_get v (published_catalogs s) = Some p → bt_get v (published_catalogs s') = Some p) ∧
  (∀ id v d, find_definition s id v = Some d → find_definition s' id v = Some d) ∧
  (∀ w k record, find_start_key s w k = Some record → find_start_key s' w k = Some record).
Proof. by intros []%live_steps_grow. Qed.

(** The key of a start that was applied. *)
Lemma applied_start_key s c key w v k input r digest s' run :
  bt_get (storage_key key) (command_results s) = None →
  applied s c key (PublicationOperation_Start w v k input) r digest s' → applied_run r = Ok run →
  ∃ record, find_start_key s' w k = Some record ∧ sr_run record = run ∧
    (∀ old, find_start_key s w k = Some old → old = record ∧ runs s' = runs s ∧ history s' = history s).
Proof.
  intros Hnew Ha Hrun. destruct Ha as [|code details _ Hr|d range s1 _ Hop Hr]; [congruence|by subst r|].
  simpl in Hop. apply apply_start_ok in Hop as (dg & _ & [(old & Hold & -> & -> & -> & _)|
    (Hnone & pinned & catalog & range1 & s2 & _ & _ & _ & _ & _ & -> & -> & ->)]); subst r; simpl in Hrun.
  - injection Hrun as <-. exists old. change (find_start_key (upd_command_results _ s) w k) with (find_start_key s w k).
    split_and!; [done|done|]. intros old' ?. by simplify_eq.
  - injection Hrun as <-. eexists. change (find_start_key (upd_command_results _ ?x) w k) with (find_start_key x w k).
    rewrite find_insert_start_key, decide_True by done. split_and!; [done|done|]. congruence.
Qed.

(** A step of the engine that keeps a start key: retention drops start keys
    together with the summary of their run, every other step is shown to keep them. *)
Inductive key_step (w k : string) s s' : Prop :=
| key_live : live_step s s' → key_step w k s s'
| key_retention c limit evs : commit_retention s c limit = Ok (evs, s') →
    find_start_key s' w k = find_start_key s w k → key_step w k s s'.

Lemma key_steps_keep w k s s' record :
  rtc (key_step w k) s s' → find_start_key s w k = Some record → find_start_key s' w k = Some record.
Proof.
  induction 1 as [|s1 s2 s3 [Hs|? ? ? _ Heq] _ IH]; [done|..]; intros Hk; apply IH.
  - by apply (pg_starts _ _ (live_step_grows _ _ Hs)).
  - by rewrite Heq.
Qed.

(** C23: a start key starts at most one run while it is retained. Once a start was
    applied and named a run, then after any commands, publications, format changes
    and retention batches, as long as none of these batches drops the start key, every
    start with the same workflow and start key, under whatever new command identity,
    is either answered with that run or rejected, and it changes no run and no
    history. *)
Theorem start_key_starts_one_run s c key w v k input mode r s1 run s2 c2 key2 v2 input2 mode2 r2 s3 :
  bt_get (storage_key key) (command_results s) = None →
  apply_with_mode s c key (PublicationOperation_Start w v k input) mode = Ok (r, s1) → applied_run r = Ok run →
  rtc (key_step w k) s1 s2 →
  bt_get (storage_key key2) (command_results s2) = None →
  apply_with_mode s2 c2 key2 (PublicationOperation_Start w v2 k input2) mode2 = Ok (r2, s3) →
  runs s3 = runs s2 ∧ history s3 = history s2 ∧ (applied_run r2 = Ok run ∨ is_err (applied_run r2) = true).
Proof.
  intros Hnew (dg & _ & _ & Ha)%apply_with_mode_ok Hrun Hsteps Hnew2 (dg2 & _ & _ & Ha2)%apply_with_mode_ok.
  destruct (applied_start_key _ _ _ _ _ _ _ _ _ _ _ Hnew Ha Hrun) as (record & Hrec & <- & _).
  apply (key_steps_keep _ _ _ _ _ Hsteps) in Hrec.
  assert (∀ run', applied_run r2 = Ok run' → runs s3 = runs s2 ∧ history s3 = history s2 ∧ run' = sr_run record) as Hok.
  { intros run' Hrun2. destruct (applied_start_key _ _ _ _ _ _ _ _ _ _ _ Hnew2 Ha2 Hrun2) as (record2 & _ & <- & Hold).
    by destruct (Hold _ Hrec) as (-> & ? & ?). }
  destruct (applied_run r2) as [run2|e|why] eqn:Hr2; [destruct (Hok _ eq_refl) as (? & ? & ->); auto| |].
  - destruct Ha2 as [|code details _ _|d range s4 _ Hop Hr]; [congruence|auto|]. exfalso.
    simpl in Hop. apply apply_start_ok in Hop as (? & _ & [(? & _ & _ & _ & -> & _)|
      (_ & ? & ? & ? & ? & _ & _ & _ & _ & _ & _ & -> & _)]); by subst r2.
  - exfalso. unfold applied_run, ensure_format in Hr2. case_bool_decide; [|done].
    destruct (cr_outcome r2) as [[]|]; discriminate Hr2.
Qed.

(** C2: the invariants hold in every state the engine reaches. However commands
    and retention batches are interleaved, records sit under their own
    identities, there is one compensation obligation per forward activation, no
    two live claims share a generation, and the inbox holds each event once, in
    order, within its quota. *)
Theorem reachable_states_are_wf s : reachable s → engine_wf s.
Proof. by intros [? _]%reachable_ok. Qed.

(** ** Reading a range back *)
(** A retained history reads back complete. In every reachable state, for
    every range of a run's history, [validated_entries] succeeds and returns
    exactly the events of that range in order, each with the record that has its
    sequence number and its digest. *)
Theorem retained_range_validates s run evs start through :
  reachable s → history s !! run = Some evs →
  1 ≤ start → start ≤ through → through ≤ zlen evs → through < u64_max →
  ∃ rows, validated_entries s run start through = Ok rows ∧
    rows.*2 = take (Z.to_nat (through - start + 1)) (drop (Z.to_nat (start - 1)) evs) ∧
    ∀ i r e, rows !! i = Some (r, e) → describes run (Z.to_nat (start - 1) + i) r e.
Proof.
  intros [_ Hre]%reachable_ok ?. by apply validated_range.
Qed.

(** ** Pages *)
Lemma retained_through s run now r n :
  retained s run now = Ok (r, n) → n = zlen (default [] (history s !! run)).
Proof.
  unfold retained. destruct (runs s !! run) as [r'|]; [|done]. destruct (_ && _); [done|].
  intros (deps & _ & Hr)%outcome_bind_ok. ok_inv; by destruct (history s !! run).
Qed.

(** The page after a cursor is the next [limit] events, and its cursor points
    behind the last of them while there are more. *)
Lemma page_spec s run after limit now r through :
  history_wf s → terminal_summaries s !! run = None → retained s run now = Ok (r, through) →
  0 ≤ after ≤ through → 0 ≤ limit ≤ MAX_PAGE_LIMIT → through < u64_max →
  let n := if limit =? 0 then PAGE_LIMIT else limit in
  ∃ p, page s run after limit now = Ok p ∧
    (hp_events p).*2 = take (Z.to_nat n) (drop (Z.to_nat after) (default [] (history s !! run))) ∧
    hp_next_cursor p = if after + n <? through then Some (after + n) else None.
Proof.
  intros Hwf Hsum Hret Hafter Hlimit Hmax n. unfold page. fold n.
  assert (0 < n ≤ MAX_PAGE_LIMIT) as Hn.
  { unfold n, PAGE_LIMIT, MAX_PAGE_LIMIT in *. destruct (Z.eqb_spec limit 0); lia. }
  rewrite (proj2 (Z.ltb_ge _ _)), Hsum, Hret by lia. simpl. rewrite (proj2 (Z.ltb_ge _ _)) by lia.
  pose proof (retained_through _ _ _ _ _ Hret) as Hlen.
  assert (Z.min through (sat_add64 after n) = Z.min through (after + n)) as -> by (unfold sat_add64; lia).
  set (stop := Z.min through (after + n)). destruct (Z.ltb_spec after stop) as [Hlt|Hge].
  - destruct (history s !! run) as [evs|] eqn:Hevs; [|unfold zlen in Hlen; simpl in *; lia]. simpl in *.
    destruct (validated_range s run evs (after + 1) stop) as (rows & -> & Hrows & Hdesc); [done|done|lia..|].
    replace (Z.to_nat (stop - (after + 1) + 1)) with (Z.to_nat (stop - after)) in Hrows by lia.
    replace (Z.to_nat (after + 1 - 1)) with (Z.to_nat after) in * by lia.
    assert (length rows = Z.to_nat (stop - after)) as Hcount.
    { rewrite <-(length_fmap snd), Hrows, length_take, length_drop. unfold zlen in *. lia. }
    simpl. assert (∃ x e, last rows = Some (x, e) ∧ he_sequence x = stop) as (x & e & -> & ->).
    { rewrite last_lookup. destruct (lookup_lt_is_Some_2 rows (pred (length rows))) as [[x e] Hx]; [lia|].
      exists x, e. split; [done|]. destruct (Hdesc _ _ _ Hx) as (_ & _ & -> & _). lia. }
    eexists. split; [done|]. simpl. rewrite Hrows. split.
    + destruct (Z.le_ge_cases through (after + n)).
      * rewrite !take_ge; [done| |]; rewrite length_drop; unfold zlen in *; lia.
      * f_equal. lia.
    + destruct (Z.ltb_spec stop through), (Z.ltb_spec (after + n) through); try lia; [f_equal; lia|done].
  - eexists. split; [done|]. simpl. split.
    + rewrite drop_ge; [by rewrite take_nil|]. unfold zlen in *. lia.
    + rewrite !(proj2 (Z.ltb_ge _ _)) by lia. done.
Qed.

(** A client that follows the cursors, collecting the events. *)
Fixpoint read_pages (fuel : nat) s (run : RunId.t) (after limit now : Z) : Outcome (list DomainEvent) :=
  match fuel with
  | O => fail! "out of fuel"
  | S fuel =>
      p ← page s run after limit now;
      match hp_next_cursor p with
      | None => Ok (hp_events p).*2
      | Some cursor => rest ← read_pages fuel s run cursor limit now; Ok ((hp_events p).*2 ++ rest)
      end
  end.

Lemma read_pages_from s run limit now r through fuel after :
  history_wf s → terminal_summaries s !! run = None → retained s run now = Ok (r, through) →
  0 ≤ limit ≤ MAX_PAGE_LIMIT → through < u64_max →
  0 ≤ after ≤ through → through - after < Z.of_nat fuel →
  read_pages fuel s run after limit now = Ok (drop (Z.to_nat after) (default [] (history s !! run))).
Proof.
  intros Hwf Hsum Hret Hlimit Hmax. revert after. induction fuel as [|fuel IH]; intros after Hafter Hfuel; [lia|].
  cbn [read_pages].
  destruct (page_spec s run after limit now r through) as (p & -> & Hevs & Hcur); [done..|].
  simpl. rewrite Hevs, Hcur. set (n := if limit =? 0 then PAGE_LIMIT else limit).
  assert (0 < n) by (unfold n, PAGE_LIMIT; destruct (Z.eqb_spec limit 0); lia).
  pose proof (retained_through _ _ _ _ _ Hret) as Hlen. unfold zlen in Hlen.
  destruct (Z.ltb_spec (after + n) through).
  - rewrite (IH (after + n)) by lia. simpl. rewrite Z2Nat.inj_add by lia.
    rewrite <-drop_drop. by rewrite take_drop.
  - rewrite take_ge; [done|]. rewrite length_drop. lia.
Qed.

(** C37: following the cursors reads the whole history. From every reachable
    state, a client that starts at cursor 0 and asks for the next page until
    there is no cursor ends after at most as many pages as there are events, and
    has read exactly the run's history, in order, whatever page size it chose. *)
Theorem paging_reads_whole_history s run limit now r through :
  reachable s → terminal_summaries s !! run = None → retained s run now = Ok (r, through) →
  0 ≤ limit ≤ MAX_PAGE_LIMIT → through < u64_max →
  read_pages (S (Z.to_nat through)) s run 0 limit now = Ok (default [] (history s !! run)).
Proof.
  intros [_ Hwf]%reachable_ok ? Hret ? ?. pose proof (retained_through _ _ _ _ _ Hret) as Hlen. unfold zlen in Hlen.
  eapply read_pages_from; [done|done|exact Hret|done|done|lia|lia].
Qed.
End EngineFacts.
