(* ===== verification/ReopenFacts.v ===== *)
(** * What the check of a store accepts

    In the states the engine reaches, [validate_history_store] passes every
    publication, receipt, artifact, record, checkpoint and tombstone: the one thing
    it can refuse is the result of an activity that no claim preceded. *)
From stdpp Require Import base option gmap strings list.
From Stdlib Require Import ZArith Ascii Lia.
From S2P Require Import Prelude Value Ids Policy Catalog Ir Analysis Domain Eval Evolve History Steps Command Publication FormatUpgrade Schedule Retention Replica Reopen AnalysisFacts EvolveFacts CommandFacts HistoryFacts RetentionFacts PublicationFacts PublishedFacts ReplicaFacts StoredFacts EngineFacts.

Section ReopenFacts.
Context `{Platform} `{CatalogSerde} `{Serde} `{OperationSerde} `{!PlatformLaws _}.
Implicit Types s : State.

(** ** Results and their claims *)
Definition leaf_result (e : DomainEvent) : option ActivationId.t :=
  match e with
  | LeafSucceeded _ activation _ _ _ => Some activation
  | ReconciliationRecorded _ activation _ (Some _) _ => Some activation
  | _ => None
  end.

(** The output schema a claim of the activation was granted with. *)
Definition granted_schema (cat : Catalog) (act : ActivationId.t) (e : DomainEvent) : option string :=
  match e with
  | ClaimGranted _ _ activation name version _ _ _ _ _ _ _ _ role =>
      if bool_decide (activation = act) then
        match claim_schemas cat name version role with Ok (_, output) => Some output | _ => None end
      else None
  | _ => None
  end.

(** The schema of the last claim before. *)
Definition claimed_before (cat : Catalog) (act : ActivationId.t) (before : list DomainEvent) : option string :=
  last (omap (M := list) (granted_schema cat act) before).

(** Every recorded result of an activity has the output schema of the last claim of
    its activation. *)
Definition results_claimed s : Prop :=
  ∀ run r evs recs i e rec act,
    runs s !! run = Some r → history s !! run = Some evs → history_records s !! run = Some recs →
    evs !! i = Some e → recs !! i = Some rec → leaf_result e = Some act →
    ∃ a, he_output_ref rec = Some a ∧ claimed_before (rs_catalog r) act (take i evs) = Some (ar_schema a).

(** ** The rows of a run *)
Lemma origin_verified s a : artifact_ok (artifact_origins s) a → verify_origin s a = Ok tt.
Proof.
  intros [Hid Hin]. unfold verify_origin. rewrite Hid, (bool_decide_eq_true_2 (_ ∈ _)) by done. simpl.
  by destruct (negb _).
Qed.

Lemma io_validated s missing v a : io_ok (artifact_origins s) v a → validate_io s missing v a = Ok tt.
Proof. destruct v, a; try done. intros [Ho Hv]. simpl. rewrite origin_verified by done. simpl. done. Qed.

Lemma uses_its_schema a expected wrong : ar_schema a = expected → uses_schema (Some a) expected wrong = Ok tt.
Proof. intros ?. simpl. by rewrite bool_decide_eq_true_2. Qed.

Lemma uses_schema_ok reference expected wrong :
  uses_schema reference expected wrong = Ok tt ↔ ∃ a, reference = Some a ∧ ar_schema a = expected.
Proof.
  destruct reference as [a|]; simpl; [|naive_solver]. case_bool_decide; naive_solver.
Qed.

(** A row that records no result passes, and a claim leaves its schema behind. *)
Lemma row_passes s run r m rec e :
  runs s !! run = Some r → row_ok (artifact_origins s) (rs_definition r) (rs_catalog r) rec e →
  artifact_verify (he_payload rec) "graphrun.domain-event/v1" (event_to_value e) = Ok tt →
  validate_row s run r m (rec, e) = validate_pinned s run r m rec e.
Proof.
  intros Hr [Hp Hi Ho _] Hv. unfold validate_row. rewrite origin_verified, Hv by done. simpl.
  rewrite io_validated by done. simpl. by rewrite io_validated.
Qed.

Definition claim_after (cat : Catalog) (m : gmap ActivationId.t string) (e : DomainEvent) (m' : gmap ActivationId.t string) : Prop :=
  ∀ act, m' !! act = match granted_schema cat act e with Some o => Some o | None => m !! act end.

Lemma pinned_passes s run r m rec e :
  runs s !! run = Some r → row_ok (artifact_origins s) (rs_definition r) (rs_catalog r) rec e → leaf_result e = None →
  ∃ m', validate_pinned s run r m rec e = Ok m' ∧ claim_after (rs_catalog r) m e m'.
Proof.
  intros Hr [_ _ _ Hsch] Hno. destruct e; try (by exists m); try discriminate Hno.
  - destruct Hsch as (a & Ha & Hs). exists m. simpl in *. by rewrite Hs, Ha; simpl; rewrite bool_decide_eq_true_2.
  - destruct Hsch as (schema & Hg & a & Ha & Hs). exists m. simpl in *.
    rewrite Hg. simpl. by rewrite Hs, Ha; simpl; rewrite bool_decide_eq_true_2.
  - destruct Hsch as (i & o & Hc & a & Ha & [= ->]). simpl in *. rewrite (activity_schemas _ _ _ _ _ _ Hr), Hc, Ha. simpl.
    rewrite bool_decide_eq_true_2 by done. simpl. eexists. split; [done|]. intros act. simpl. rewrite lookup_insert.
    case_decide as Heq; [by rewrite (bool_decide_eq_true_2 _ Heq), Hc|by rewrite (bool_decide_eq_false_2 _ Heq)].
  - destruct output; [discriminate Hno|by exists m].
  - destruct Hsch as (a & Ha & Hs). exists m. simpl in *. by rewrite Hs, Ha; simpl; rewrite bool_decide_eq_true_2.
Qed.

(** A result passes when the claim before it has its schema. *)
Lemma result_passes s run r m rec e act m' :
  leaf_result e = Some act →
  validate_pinned s run r m rec e = Ok m' ↔
  m' = m ∧ ∃ a, he_output_ref rec = Some a ∧ m !! act = Some (ar_schema a).
Proof.
  intros Hact.
  assert (validate_pinned s run r m rec e =
    (expected ← ok_or (m !! act) (failed_precondition "accepted activity result has no retained claim schema");
     _ ← uses_schema (he_output_ref rec) expected "activity output does not use its pinned schema"; Ok m)) as ->.
  { destruct e; try discriminate Hact; [by injection Hact as ->|]. destruct output; [by injection Hact as ->|discriminate Hact]. }
  rewrite outcome_bind_ok. setoid_rewrite outcome_bind_ok. split.
  - intros (expected & Hm%ok_or_ok & [] & (a & Ha & <-)%uses_schema_ok & [= <-]). eauto.
  - intros (-> & a & Ha & Hm). exists (ar_schema a). split; [by apply ok_or_ok|]. exists tt.
    split; [|done]. apply uses_schema_ok. eauto.
Qed.

Definition row_verified s (r : RunState) (rec : HistoryEntry) (e : DomainEvent) : Prop :=
  row_ok (artifact_origins s) (rs_definition r) (rs_catalog r) rec e ∧
  artifact_verify (he_payload rec) "graphrun.domain-event/v1" (event_to_value e) = Ok tt.

Lemma claimed_snoc cat act before e :
  claimed_before cat act (before ++ [e]) =
    match granted_schema cat act e with Some o => Some o | None => claimed_before cat act before end.
Proof.
  unfold claimed_before. rewrite omap_app. simpl. destruct (granted_schema cat act e); [by rewrite last_snoc|].
  by rewrite app_nil_r.
Qed.

Lemma rows_pass s run r before evs recs m :
  runs s !! run = Some r → Forall2 (row_verified s r) recs evs →
  (∀ act, m !! act = claimed_before (rs_catalog r) act before) →
  (∃ m', outcome_fold (validate_row s run r) m (zip recs evs) = Ok m') ↔
  ∀ i e rec act, evs !! i = Some e → recs !! i = Some rec → leaf_result e = Some act →
    ∃ a, he_output_ref rec = Some a ∧ claimed_before (rs_catalog r) act (before ++ take i evs) = Some (ar_schema a).
Proof.
  intros Hr Hrows. revert before m. induction Hrows as [|rec e recs evs [Hrow Hv] _ IH]; intros before m Hm.
  { split; [by intros _ [|i]|]. intros _. by exists m. }
  assert (∀ m1, claim_after (rs_catalog r) m e m1 → ∀ act, m1 !! act = claimed_before (rs_catalog r) act (before ++ [e])) as Hm1.
  { intros m1 Ha act. by rewrite Ha, claimed_snoc, Hm. }
  cbn [zip outcome_fold]. fold (zip recs evs). simpl outcome_fold. rewrite (row_passes _ _ _ _ _ _ Hr Hrow Hv).
  destruct (leaf_result e) as [act|] eqn:Hact.
  - assert (claim_after (rs_catalog r) m e m) as Hsame by (by intros act'; destruct e).
    split.
    + intros (m' & (m1 & [-> Hok]%(result_passes s run r m rec e act) & Hrest)%outcome_bind_ok); [|done].
      destruct (IH (before ++ [e]) m (Hm1 _ Hsame)) as [IH1 _]. specialize (IH1 (ex_intro _ _ Hrest)).
      intros [|i] e' rec' act' He Hrec Hleaf; simpl in *.
      * simplify_eq. rewrite app_nil_r, <-Hm. done.
      * destruct (IH1 i e' rec' act' He Hrec Hleaf) as (a & ? & Hc). exists a. by rewrite <-app_assoc in Hc.
    + intros Hall. destruct (Hall 0%nat e rec act eq_refl eq_refl Hact) as (a & Ha & Hc). simpl in Hc.
      rewrite app_nil_r, <-Hm in Hc. destruct (IH (before ++ [e]) m (Hm1 _ Hsame)) as [_ IH2].
      destruct IH2 as [m' Hm']; [|exists m'; apply outcome_bind_ok; exists m; split; [|done]].
      * intros i e' rec' act' He Hrec Hleaf. rewrite <-app_assoc. exact (Hall (S i) e' rec' act' He Hrec Hleaf).
      * apply (result_passes s run r m rec e act); eauto.
  - destruct (pinned_passes s run r m rec e Hr Hrow Hact) as (m1 & -> & Hafter). simpl.
    rewrite (IH (before ++ [e]) m1 (Hm1 _ Hafter)). split; intros Hall.
    + intros [|i] e' rec' act' He Hrec Hleaf; simpl in *; [congruence|].
      specialize (Hall i e' rec' act' He Hrec Hleaf). by rewrite <-app_assoc in Hall.
    + intros i e' rec' act' He Hrec Hleaf. rewrite <-app_assoc. exact (Hall (S i) e' rec' act' He Hrec Hleaf).
Qed.

(** ** A run *)
Lemma origins_verified s l :
  Forall (artifact_ok (artifact_origins s)) l → check_each (verify_origin s) l = Ok tt.
Proof. intros Hl. apply outcome_map_unit. eapply Forall_impl; [exact Hl|]. apply origin_verified. Qed.

Lemma records_in_order run recs evs :
  run_history_wf run (Some evs) (Some recs) →
  existsb (λ '(i, record), wrong_record run i record) (imap pair recs) = false.
Proof.
  intros (_ & Hlen & Hall). apply existsb_false. intros [i rec] (j & rec1 & [= -> ->] & Hr)%elem_of_lookup_imap.
  destruct (lookup_lt_is_Some_2 evs j) as [e He]; [rewrite <-Hlen; by eapply lookup_lt_Some|].
  destruct (Hall _ _ _ Hr He) as (Hf & Hrun & Hs & _). unfold wrong_record.
  by rewrite !bool_decide_eq_true_2, Hs, Z.eqb_refl.
Qed.

Lemma checkpoint_passes s evs r cp :
  checkpoint_ok (artifact_origins s) evs r cp →
  wrong_checkpoint (zlen evs) cp = false ∧ validate_checkpoint s r cp = Ok tt.
Proof.
  intros [Hf Ht Hr Hp Ho]. unfold wrong_checkpoint, validate_checkpoint.
  rewrite bool_decide_eq_true_2, Hr by done. simpl. rewrite Hp. simpl. rewrite origin_verified by done.
  split; [|done]. by rewrite (proj2 (Z.eqb_neq _ _)), (proj2 (Z.ltb_ge _ _)) by lia.
Qed.

(** The results of a run. *)
Definition run_claimed (r : RunState) (evs : list DomainEvent) (recs : list HistoryEntry) : Prop :=
  ∀ i e rec act, evs !! i = Some e → recs !! i = Some rec → leaf_result e = Some act →
    ∃ a, he_output_ref rec = Some a ∧ claimed_before (rs_catalog r) act (take i evs) = Some (ar_schema a).

Lemma run_validates s run r evs recs :
  store_wf None s → history_wf s → runs s !! run = Some r → history s !! run = Some evs →
  history_records s !! run = Some recs → (admissions evs ≤ 1)%nat →
  validate_run s run = Ok tt ↔ run_claimed r evs recs.
Proof.
  intros Hwf Hh Hr Hevs Hrecs Hone. specialize (Hh run). rewrite Hevs, Hrecs in Hh.
  destruct (sw_runs _ _ Hwf _ _ Hevs) as (r' & recs' & deps & Hr' & Hrecs' & Hdeps & [_ Hreq Href Hrows]).
  rewrite Hr in Hr'. injection Hr' as <-. rewrite Hrecs in Hrecs'. injection Hrecs' as <-.
  pose proof (records_in_order _ _ _ Hh) as Horder. destruct Hh as (Hne & Hlen & Hall).
  unfold validate_run, run_history. rewrite Hevs, Hrecs, Hdeps, bool_decide_eq_false_2 by done.
  rewrite (proj2 (Z.eqb_eq (zlen recs) _)) by (unfold zlen; lia). simpl. rewrite Horder. simpl.
  assert (∀ cp, checkpoints s !! run = Some cp →
    wrong_checkpoint (zlen evs) cp = false ∧ validate_checkpoint s r cp = Ok tt) as Hck.
  { intros cp (r' & evs' & Hr' & Hevs' & Hok)%(sw_checkpoints _ _ Hwf). apply checkpoint_passes.
    rewrite Hr in Hr'. rewrite Hevs in Hevs'. simplify_eq. by apply Hok. }
  assert (Forall2 (row_verified s r) recs evs) as Hver.
  { apply Forall2_same_length_lookup_2; [done|]. intros i rec e Hi He. split.
    - eapply Forall2_lookup_lr; [exact Hrows|done..].
    - apply (Hall _ _ _ Hi He). }
  pose proof (rows_pass s run r [] evs recs ∅ Hr Hver (λ act, lookup_empty act)) as Hfold.
  assert (match checkpoints s !! run with Some c => wrong_checkpoint (zlen evs) c | None => false end = false) as ->.
  { destruct (checkpoints s !! run); [by apply Hck|done]. }
  rewrite Hr. simpl. rewrite Hreq. simpl. rewrite origins_verified by done. simpl.
  assert (match checkpoints s !! run with Some c => validate_checkpoint s r c | None => Ok () end = Ok tt) as ->.
  { destruct (checkpoints s !! run); [by apply Hck|done]. }
  etrans; [|exact Hfold]. rewrite outcome_bind_ok. naive_solver.
Qed.

(** ** The store *)

(** No run was admitted a second time. *)
Definition admitted_once s : Prop := ∀ run evs, history s !! run = Some evs → (admissions evs ≤ 1)%nat.

Lemma publications_validate s :
  published_wf s → store_wf None s →
  check_each validate_published_catalog (published_catalogs s) = Ok tt ∧
  check_each (λ '(workflow, versions), check_each (validate_published_definition s workflow) versions)
    (published_definitions s) = Ok tt ∧
  check_each validate_receipt (command_results s) = Ok tt.
Proof.
  intros Hpub Hwf. split_and!; apply outcome_map_unit, Forall_forall.
  - intros [v p] Hin. destruct (sw_catalogs _ _ Hwf _ _ Hin) as (Hv & Hver & Hval). simpl.
    rewrite (proj2 (Z.eqb_neq _ _)), Hver by done. simpl. by rewrite Hval.
  - intros [w versions] Hin. apply outcome_map_unit, Forall_forall. intros [v d] Hd.
    destruct (pw_definitions _ Hpub _ _ _ _ Hin Hd) as (Hid & Hv & Hver & p & Hp & Hval). simpl.
    rewrite bool_decide_eq_true_2, (proj2 (Z.eqb_eq _ _) Hv), Hver, Hp by done. simpl. by rewrite Hval.
  - intros [key r] Hin. destruct (sw_receipts _ _ Hwf _ _ Hin) as [Hk Hf]. simpl.
    rewrite bool_decide_eq_true_2 by done. simpl. unfold ensure_format. by rewrite bool_decide_eq_true_2.
Qed.

Lemma reachable_stored s : reachable s → store_wf None s.
Proof.
  induction 1 as [cluster hold|s s' Hr Hwf _ Hs]; [apply initial_store|].
  eapply domain_step_store; [by apply reachable_published|by apply reachable_ok|done|done].
Qed.

(** C3: A store validates exactly when results follow their claims. In every state
    the engine reaches without admitting a run twice, the check that a store must
    pass before it is used succeeds if and only if every recorded result of an
    activity has the output schema of the last claim of its activation: no
    publication, receipt, artifact, record, checkpoint or tombstone is ever
    refused. *)
Theorem reached_store_validates s :
  reachable s → admitted_once s → validate_history_store s = Ok tt ↔ results_claimed s.
Proof.
  intros Hreach Hone. pose proof (reachable_stored _ Hreach) as Hwf. destruct (reachable_ok _ Hreach) as [_ Hh].
  destruct (publications_validate _ (reachable_published _ Hreach) Hwf) as (Hc & Hd & Hrec).
  unfold validate_history_store. rewrite Hc, Hd, Hrec. simpl.
  assert (check_each (λ t, verify_origin s (st_payload t)) (hm_values (signal_tombstones s)) = Ok tt) as ->.
  { apply outcome_map_unit, Forall_forall. intros t (k & Ht)%elem_of_hm_values.
    eapply origin_verified, sw_tombstones; eauto. }
  transitivity (check_each (validate_run s) (hm_keys (runs s)) = Ok tt); [by destruct (check_each (validate_run s) _) as [[]| |]; simpl; split|].
  unfold check_each. rewrite outcome_map_unit, Forall_forall. split.
  - intros Hall run r evs recs i e rec act Hr Hevs Hrecs. eapply run_validates; [done..|by eauto|].
    apply Hall, list_elem_of_fmap. exists (run, r). split; [done|]. by apply elem_of_hm_iter.
  - intros Hres run ([run' r] & -> & Hr%elem_of_hm_iter)%list_elem_of_fmap. simpl.
    destruct (sw_present _ _ Hwf run') as [evs Hevs]; [eauto|done|].
    destruct (sw_runs _ _ Hwf _ _ Hevs) as (_ & recs & _ & _ & Hrecs & _).
    eapply run_validates; [done..|by eauto|]. intros i e rec act ???. by eapply Hres.
Qed.
End ReopenFacts.
