(* ===== verification/ScheduleFacts.v ===== *)
(** * Run schedules wake the engine in time *)
From stdpp Require Import base option gmap strings list.
From Stdlib Require Import ZArith Ascii Lia.
From S2P Require Import Prelude Value Ids Policy Catalog Ir Domain Eval Evolve History Steps Signals Claims Schedule EvolveFacts ClaimFacts.

(** [later] is before the deadline, if there is one. *)
Definition before (later : Z) (deadline : option Z) : Prop := ∀ d, deadline = Some d → later < d.

Lemma before_opt_min later old due : before later (opt_min old due) → before later old ∧ later < due.
Proof.
  unfold before, opt_min. intros Hb. specialize (Hb _ eq_refl). destruct old as [o|]; split; try done; try lia.
  intros d [= <-]. lia.
Qed.

Lemma before_list_min later l d : before later (list_min l) → d ∈ l → later < d.
Proof.
  unfold list_min. assert (∀ acc, before later (foldl opt_min acc l) → before later acc ∧ ∀ d, d ∈ l → later < d)
    as Hgen; [|intros Hb Hd; by apply (Hgen None Hb)].
  induction l as [|x l IH]; intros acc Hb; simpl in Hb; [set_solver|].
  destruct (IH _ Hb) as [[? ?]%before_opt_min Hl]. split; [done|]. intros d' [->|?]%elem_of_cons; auto.
Qed.

Section ScheduleFacts.
Context `{P : Platform} `{CatalogSerde} `{!PlatformLaws P}.
Implicit Types s : State.

(** The activation holds no lease that runs at this time. *)
Definition lease_free (time : Z) (act : ActivationState) : bool :=
  match as_claim act with Some claim => cl_lease_expiry_ms claim <=? time | None => true end.

Lemma schedule_step_spec s now later acc a :
  let '(deadline', ready') := schedule_step s now acc a in
  ready' = acc.2 || (schedulable s a && lease_free now a) ∧
  (before later deadline' → before later acc.1 ∧
     (schedulable s a = true → lease_free now a = false → lease_free later a = false)).
Proof.
  destruct acc as [deadline ready]. unfold schedule_step, lease_free.
  destruct (schedulable s a); simpl; [|by rewrite orb_false_r].
  destruct (as_claim a) as [claim|]; simpl; [|by rewrite orb_true_r].
  rewrite (Z.leb_antisym now). destruct (now <? _) eqn:Hlt; simpl.
  - rewrite orb_false_r. split; [done|]. intros [? ?]%before_opt_min. split; [done|]. intros _ _. by apply Z.leb_gt.
  - by rewrite orb_true_r.
Qed.

Lemma schedule_fold s now later l acc :
  let '(deadline', ready') := foldl (schedule_step s now) acc l in
  ready' = acc.2 || existsb (λ a, schedulable s a && lease_free now a) l ∧
  (before later deadline' → before later acc.1 ∧
     ∀ a, a ∈ l → schedulable s a = true → lease_free now a = false → lease_free later a = false).
Proof.
  revert acc. induction l as [|a l IH]; intros acc; simpl.
  - destruct acc as [deadline ready]. split; [by rewrite orb_false_r|set_solver].
  - specialize (IH (schedule_step s now acc a)). pose proof (schedule_step_spec s now later acc a) as Hstep.
    destruct (schedule_step s now acc a) as [d1 r1], (foldl _ _ l) as [d2 r2]. simpl in *.
    destruct IH as [-> Hl], Hstep as [-> Ha]. split; [by rewrite orb_assoc|].
    intros [[? ?]%Ha Hrest]%Hl. split; [done|]. intros a' [->|?]%elem_of_cons; auto.
Qed.

Lemma elem_of_unclaimed_ready s run time id :
  ids_wf s →
  id ∈ unclaimed_ready s run time ↔
  ∃ a, activations s !! id = Some a ∧ as_run a = run ∧ schedulable s a = true ∧ lease_free time a = true.
Proof.
  intros Hwf. unfold unclaimed_ready, ready_activations, schedulable, lease_free.
  rewrite elem_of_filter_b, list_elem_of_fmap. setoid_rewrite elem_of_filter_b. setoid_rewrite elem_of_hm_values.
  assert (∀ a, forallb (λ w, negb (bool_decide (wt_activation w = as_id a)) || negb (wt_pending w))
    (hm_values (waits s)) = negb (existsb (λ w, bool_decide (wt_activation w = as_id a) && wt_pending w)
    (hm_values (waits s)))) as Hwaits.
  { intros a. induction (hm_values (waits s)) as [|w ws IH]; simpl; [done|]. by rewrite IH, negb_orb, negb_andb. }
  split.
  - intros (Hfree & a & -> & Ha & k & Hk). rewrite Hwaits in Ha.
    pose proof (idw_activations _ Hwf _ _ Hk) as Hid. rewrite Hid in *. simpl in Hid. rewrite Hk in Hfree.
    exists a. rewrite Hid. to_prop. case_bool_decide; [done|]. split_and!; try done.
    rewrite bool_decide_eq_true_2 by done. simpl. by apply negb_true_iff.
  - intros (a & Hk & Hrun & Hs & Hfree). pose proof (idw_activations _ Hwf _ _ Hk) as Hid. simpl in Hid.
    to_prop. rewrite Hk. rewrite Hid in *. rewrite bool_decide_eq_false_2 by done. split; [done|].
    exists a. split; [done|]. split; [|by eauto]. rewrite Hwaits, Hid.
    rewrite !bool_decide_eq_true_2 by done. simpl. by apply negb_true_iff.
Qed.

(** A claim that was granted on an activation of the run. *)
Definition grants_of (run : RunId.t) (e : DomainEvent) : bool :=
  match e with ClaimGranted r _ _ _ _ _ _ _ _ _ _ _ _ _ => bool_decide (r = run) | _ => false end.

(** Without a ready activation there is nothing to claim. *)
Lemma unready_run_is_not_claimed s run session capacity time evs :
  unclaimed_ready s run time = [] → decide_claim s session capacity time = Ok evs →
  Forall (λ e, grants_of run e = false) evs.
Proof.
  intros Hnone (worker & grants & _ & _ & -> & _ & _ & Hgrants & _)%decide_claim_grants. apply Forall_app. split.
  - unfold session_renewal. case_bool_decide; by repeat constructor.
  - apply Forall_forall. intros g (i & Hi)%list_elem_of_lookup. pose proof (Hgrants _ _ Hi) as Hok.
    destruct g; try done. simpl in *. case_bool_decide; [|done]. subst.
    destruct Hok as (_ & Hin & _). rewrite Hnone in Hin. by apply elem_of_nil in Hin.
Qed.

Lemma schedule_spec s run progress now generation revision sch :
  ids_wf s → schedule_from_state s run progress now generation revision = Some sch →
  (sch_ready sch = true ↔ unclaimed_ready s run now ≠ []) ∧
  ∀ later, before later (sch_deadline_ms sch) →
    (∀ id, id ∈ unclaimed_ready s run later → id ∈ unclaimed_ready s run now) ∧
    (∀ id w d, waits s !! id = Some w → wt_run w = run → wt_pending w = true →
       wt_deadline_ms w = Some d → later < d).
Proof.
  intros Hwf Hs. unfold schedule_from_state in Hs. apply bind_Some in Hs as (r & Hr & Hs).
  destruct (negb _); [done|].
  set (ds := list_min _) in Hs. set (acts := List.filter _ _) in Hs.
  assert (Hacts : ∀ a, a ∈ acts ↔ as_run a = run ∧ activations s !! as_id a = Some a).
  { intros a. subst acts. rewrite elem_of_filter_b, elem_of_hm_values, bool_decide_eq_true. split.
    - intros (? & k & Hk). split; [done|]. by rewrite (idw_activations _ Hwf _ _ Hk : as_id a = k).
    - intros (? & ?). eauto. }
  destruct (foldl _ _ _) as [deadline ready] eqn:Hfold. injection Hs as <-. simpl. split.
  - pose proof (schedule_fold s now 0 acts (ds, false)) as Hspec. rewrite Hfold in Hspec.
    destruct Hspec as [-> _]. simpl. rewrite existsb_elem. split.
    + intros (a & [? Hk]%Hacts & Ha) Hnil. to_prop.
      assert (as_id a ∈ unclaimed_ready s run now) as Hin by (apply elem_of_unclaimed_ready; eauto).
      rewrite Hnil in Hin. set_solver.
    + destruct (unclaimed_ready s run now) as [|id l] eqn:Hu; [done|]. intros _.
      assert (Hin : id ∈ unclaimed_ready s run now) by (rewrite Hu; left).
      apply elem_of_unclaimed_ready in Hin as (a & Hk & ? & Hsch & Hfree); [|done].
      exists a. rewrite Hacts, Hsch, Hfree. by rewrite (idw_activations _ Hwf _ _ Hk : as_id a = id).
  - intros later Hb. pose proof (schedule_fold s now later acts (ds, false)) as Hspec. rewrite Hfold in Hspec.
    destruct Hspec as [_ [Hds Hl]%(λ P, P Hb)]. split.
    + intros id (a & Hk & ? & Hsch & Hfree)%elem_of_unclaimed_ready; [|done].
      apply elem_of_unclaimed_ready; [done|]. exists a. split_and!; try done.
      destruct (lease_free now a) eqn:Hnow; [done|]. rewrite (Hl a) in Hfree; try done. apply Hacts.
      by rewrite (idw_activations _ Hwf _ _ Hk : as_id a = id).
    + intros id w d Hw Hrun Hp Hd. simpl in Hds. eapply before_list_min; [exact Hds|].
      apply list_elem_of_omap. exists w. split; [|done]. apply elem_of_filter_b.
      rewrite elem_of_hm_values, bool_decide_eq_true_2 by done. eauto.
Qed.

(** C39: a run's schedule misses nothing. In a state whose records sit under their
    identities (as in every reachable one), it is marked ready exactly when the
    run has a schedulable activation without a running lease. Until its deadline no
    further lease runs out, so no other activation joins these, and no pending
    wait reaches its deadline. A run that is not ready is given no claim by
    [decide_claim], now and at any time before its deadline, whoever asks. (The
    converse is not promised: of a ready run [decide_claim] still withholds forward
    claims while the run aborts or is past its run timeout, which is not a
    deadline of the schedule: it makes nothing due.) *)
Theorem schedule_misses_nothing s run progress now generation revision sch :
  ids_wf s → schedule_from_state s run progress now generation revision = Some sch →
  (sch_ready sch = true ↔ unclaimed_ready s run now ≠ []) ∧
  (∀ later, before later (sch_deadline_ms sch) →
    (∀ id, id ∈ unclaimed_ready s run later → id ∈ unclaimed_ready s run now) ∧
    (∀ id w d, waits s !! id = Some w → wt_run w = run → wt_pending w = true →
       wt_deadline_ms w = Some d → later < d)) ∧
  (sch_ready sch = false → ∀ later session capacity evs, later = now ∨ before later (sch_deadline_ms sch) →
     decide_claim s session capacity later = Ok evs → Forall (λ e, grants_of run e = false) evs).
Proof.
  intros Hwf Hs. destruct (schedule_spec _ _ _ _ _ _ _ Hwf Hs) as [Hready Hlater]. split_and!; [done|done|].
  intros Hnot later session capacity evs Htime. apply unready_run_is_not_claimed.
  assert (unclaimed_ready s run now = []) as Hnone.
  { destruct (unclaimed_ready s run now); [done|]. rewrite (proj2 Hready) in Hnot by done. done. }
  destruct Htime as [->|Hb]; [done|]. destruct (unclaimed_ready s run later) as [|id l] eqn:Hu; [done|].
  assert (id ∈ unclaimed_ready s run now) as Hin by (apply (proj1 (Hlater _ Hb)); rewrite Hu; by left).
  rewrite Hnone in Hin. by apply elem_of_nil in Hin.
Qed.
End ScheduleFacts.
