(* ===== verification/RegionFacts.v ===== *)
(** * Walking the scope tree

    The recursion of [lookup_region] and [saga_owner_from_scope] climbs from a
    scope to the scope of the activation that opened it. On a tree of scopes
    the number of scopes bounds the climb, so the bounded definitions satisfy
    the recursive equations of the code. *)
From stdpp Require Import base option gmap strings list fin_maps fin_map_dom.
From Stdlib Require Import ZArith Ascii Lia.
From S2P Require Import Prelude Value Ids Policy Catalog Ir Domain Eval.

Section RegionFacts.
Implicit Types s : State.

(** [depth] decreases from a scope to the scope that encloses it. *)
Definition scope_tree s (depth : ScopeId.t → nat) : Prop :=
  ∀ x sc a p, scopes s !! x = Some sc → ss_parent sc = Some a ∨ role_activation (ss_role sc) = Some a →
    activations s !! a = Some p → (depth (as_scope p) < depth x)%nat.

(** [visited] are scopes below [x], and [fuel] covers the others. *)
Definition covers s (depth : ScopeId.t → nat) (visited : gset ScopeId.t) (x : ScopeId.t) (fuel : nat) : Prop :=
  visited ⊆ dom (scopes s) ∧ (∀ v, v ∈ visited → (depth x < depth v)%nat) ∧
  (size (scopes s) ≤ fuel + size visited)%nat.

Lemma covers_start s depth x : covers s depth ∅ x (size (scopes s)).
Proof. split_and!; [set_solver|set_solver|lia]. Qed.

Lemma covers_step s depth visited x fuel y sc :
  covers s depth visited x fuel → scopes s !! x = Some sc → (depth y < depth x)%nat →
  ∃ fuel', fuel = S fuel' ∧ covers s depth ({[x]} ∪ visited) y fuel'.
Proof.
  intros (Hsub & Hdepth & Hsize) Hx Hy.
  assert (x ∉ visited) as Hnew by (intros Hin; specialize (Hdepth _ Hin); lia).
  assert (Hsub' : {[x]} ∪ visited ⊆ dom (scopes s)).
  { apply union_subseteq. split; [|done]. apply singleton_subseteq_l, elem_of_dom. by rewrite Hx. }
  pose proof (subseteq_size _ _ Hsub') as Hle. rewrite size_dom in Hle.
  rewrite size_union, size_singleton in Hle by set_solver.
  destruct fuel as [|fuel]; [lia|]. exists fuel. split; [done|]. split_and!; [done| |].
  - intros v [->%elem_of_singleton|Hv%Hdepth]%elem_of_union; lia.
  - rewrite size_union, size_singleton by set_solver. lia.
Qed.

(** One step of each climb, with the rest of it as a parameter. *)
Definition region_step s (x : ScopeId.t) (enclosing : ScopeId.t → option Region) : option Region :=
  sc ← scopes s !! x;
  run ← runs s !! ss_run sc;
  match role_activation (ss_role sc) with
  | None => Some (def_root (rs_definition run))
  | Some a =>
      parent ← activations s !! a;
      region ← enclosing (as_scope parent);
      node ← region_node region (as_node parent);
      child_region (ss_role sc) node
  end.

Definition saga_step s (x : ScopeId.t) (skip : option ActivationId.t)
    (enclosing : ScopeId.t → option ActivationId.t) : option ActivationId.t :=
  sc ← scopes s !! x;
  let outer := a ← ss_parent sc; parent ← activations s !! a; enclosing (as_scope parent) in
  match ss_role sc with
  | ScopeRole_SagaBody a => if bool_decide (skip = Some a) then outer else Some a
  | _ => outer
  end.

Lemma lookup_region_S fuel s x :
  lookup_region_fuel (S fuel) s x = region_step s x (lookup_region_fuel fuel s).
Proof. done. Qed.

Lemma saga_owner_S fuel s x skip :
  saga_owner_fuel (S fuel) s x skip = saga_step s x skip (λ y, saga_owner_fuel fuel s y skip).
Proof. done. Qed.

Lemma region_step_ext s x f g :
  (∀ sc a p, scopes s !! x = Some sc → role_activation (ss_role sc) = Some a →
     activations s !! a = Some p → f (as_scope p) = g (as_scope p)) →
  region_step s x f = region_step s x g.
Proof.
  intros Hfg. unfold region_step. destruct (scopes s !! x) as [sc|]; simpl; [|done].
  destruct (runs s !! _); simpl; [|done]. destruct (role_activation _) as [a|] eqn:Ha; [|done].
  destruct (activations s !! a) as [p|] eqn:Hp; simpl; [|done]. by rewrite (Hfg _ _ _ eq_refl Ha Hp).
Qed.

Lemma saga_step_ext s x skip f g :
  (∀ sc a p, scopes s !! x = Some sc → ss_parent sc = Some a →
     activations s !! a = Some p → f (as_scope p) = g (as_scope p)) →
  saga_step s x skip f = saga_step s x skip g.
Proof.
  intros Hfg. unfold saga_step. destruct (scopes s !! x) as [sc|]; simpl; [|done].
  destruct (ss_parent sc) as [a|] eqn:Ha; simpl; [|done].
  destruct (activations s !! a) as [p|] eqn:Hp; simpl; [|done]. by rewrite (Hfg _ _ _ eq_refl Ha Hp).
Qed.

Lemma lookup_region_stable s depth fuel visited x :
  scope_tree s depth → covers s depth visited x fuel →
  lookup_region_fuel (S fuel) s x = lookup_region_fuel (S (S fuel)) s x.
Proof.
  intros Htree. revert visited x. induction fuel as [|fuel IH]; intros visited x Hc;
    rewrite lookup_region_S, (lookup_region_S (S _)); apply region_step_ext; intros sc a p Hx Ha Hp.
  all: edestruct (covers_step _ _ _ _ _ (as_scope p) _ Hc Hx) as (f & Hf & Hc');
    [by eapply Htree; eauto|simplify_eq]. by eapply IH.
Qed.

Lemma saga_owner_stable s depth fuel visited x skip :
  scope_tree s depth → covers s depth visited x fuel →
  saga_owner_fuel (S fuel) s x skip = saga_owner_fuel (S (S fuel)) s x skip.
Proof.
  intros Htree. revert visited x. induction fuel as [|fuel IH]; intros visited x Hc;
    rewrite saga_owner_S, (saga_owner_S (S _)); apply saga_step_ext; intros sc a p Hx Ha Hp.
  all: edestruct (covers_step _ _ _ _ _ (as_scope p) _ Hc Hx) as (f & Hf & Hc');
    [by eapply Htree; eauto|simplify_eq]. by eapply IH.
Qed.

(** Resolving a scope always terminates and follows the scope tree. On any
    tree of scopes, however deep, the region of a scope is the definition's root
    for a root scope and otherwise the child region that the role selects in the
    region of the enclosing scope; and the saga that owns a scope is the nearest
    enclosing saga body other than the skipped one. *)
Theorem scope_walks_reach_the_root s depth x sc :
  scope_tree s depth → scopes s !! x = Some sc →
  lookup_region s x =
    (run ← runs s !! ss_run sc;
     match role_activation (ss_role sc) with
     | None => Some (def_root (rs_definition run))
     | Some a =>
         parent ← activations s !! a;
         region ← lookup_region s (as_scope parent);
         node ← region_node region (as_node parent);
         child_region (ss_role sc) node
     end) ∧
  ∀ skip, saga_owner_from_scope s x skip =
    let enclosing :=
      a ← ss_parent sc;
      parent ← activations s !! a;
      saga_owner_from_scope s (as_scope parent) skip in
    match ss_role sc with
    | ScopeRole_SagaBody a => if bool_decide (skip = Some a) then enclosing else Some a
    | _ => enclosing
    end.
Proof.
  intros Htree Hx. split; [|intros skip].
  - unfold lookup_region. rewrite (lookup_region_stable _ _ _ _ _ Htree (covers_start _ _ _)).
    rewrite lookup_region_S. unfold region_step. by rewrite Hx.
  - unfold saga_owner_from_scope. rewrite (saga_owner_stable _ _ _ _ _ _ Htree (covers_start _ _ _)).
    rewrite saga_owner_S. unfold saga_step. by rewrite Hx.
Qed.
End RegionFacts.
