(* ===== verification/Sample.v ===== *)
(** * A concrete engine

    An instance of the interfaces [Platform], [CatalogSerde] and [Serde] whose
    functions compute, a workflow definition with its catalog, and the states that
    a short sequence of commands leads to. The witnesses of the theorems are
    evaluated on them. *)
From stdpp Require Import base option gmap strings list fin_maps.
From Stdlib Require Import ZArith Ascii Lia.
From S2P Require Import Prelude Value Ids Policy Catalog Ir Domain Eval Evolve History Steps Saga Signals Claims Progress Command Schedule.

(** ** The platform *)
Definition hex_digit (n : N) : ascii := if (n <? 10)%N then ascii_of_N (48 + n) else ascii_of_N (87 + n).
Definition hex_value (c : ascii) : option N :=
  let n := N_of_ascii c in
  if (48 <=? n)%N && (n <=? 57)%N then Some (n - 48)%N
  else if (97 <=? n)%N && (n <=? 102)%N then Some (n - 87)%N else None.

Fixpoint to_hex_string (s : string) : string :=
  match s with
  | "" => ""
  | String c rest =>
      let n := N_of_ascii c in
      String (hex_digit (n / 16)) (String (hex_digit (n mod 16)) (to_hex_string rest))
  end.

Fixpoint of_hex_string (s : string) : option string :=
  match s with
  | "" => Some ""
  | String a (String b rest) =>
      h ← hex_value a; l ← hex_value b; rest ← of_hex_string rest;
      Some (String (ascii_of_N (16 * h + l)) rest)
  | _ => None
  end.

Lemma of_to_hex s : of_hex_string (to_hex_string s) = Some s.
Proof.
  induction s as [|c s IH]; [done|]. cbn [to_hex_string of_hex_string].
  assert (hex_value (hex_digit (N_of_ascii c / 16)) = Some (N_of_ascii c / 16)%N ∧
          hex_value (hex_digit (N_of_ascii c mod 16)) = Some (N_of_ascii c mod 16)%N ∧
          ascii_of_N (16 * (N_of_ascii c / 16) + N_of_ascii c mod 16) = c) as (-> & -> & Hc).
  { by destruct c as [[] [] [] [] [] [] [] []]. }
  cbn. by rewrite IH; cbn; rewrite Hc.
Qed.

(** A digest with 32 bytes: the reversed text, padded or cut. *)
Fixpoint pad (n : nat) (s : string) : string :=
  match n with
  | O => ""
  | S n => match s with "" => String "0" (pad n "") | String c rest => String c (pad n rest) end
  end.

Definition toy_digest (s : string) : string := pad 32 (String.rev s).

Lemma pad_length n s : String.length (pad n s) = n.
Proof. revert s. induction n as [|n IH]; intros [|c s]; simpl; auto. Qed.

#[export] Instance sample_platform : Platform := {
  hm_iter := λ K V _ _ m, map_to_list m;
  sha256 := toy_digest;
  hex_encode := to_hex_string;
  hex_decode := of_hex_string;
  json_quote := λ s, s;
  jsonschema_is_valid := λ _ _, true;
}.

#[export] Instance sample_laws : PlatformLaws sample_platform.
Proof.
  split; [done|intros s; apply pad_length|apply of_to_hex| |].
  - intros s. simpl. induction s as [|c s IH]; simpl; [done|]. rewrite IH. lia.
  - intros s. simpl. induction s as [|c s IH]; simpl; [constructor|].
    assert (hex_digit_char (hex_digit (N_of_ascii c / 16)) ∧ hex_digit_char (hex_digit (N_of_ascii c mod 16))) as [? ?].
    { unfold hex_digit_char. destruct c as [[] [] [] [] [] [] [] []]; vm_compute; split; first
        [left; split; intros Hc; discriminate Hc|right; split; intros Hc; discriminate Hc]. }
    by constructor; [|constructor].
Qed.

#[export] Instance sample_catalog_serde : CatalogSerde := {
  contract_to_value := λ c, JString (ak_name (ac_key c));
  reconciler_to_value := λ c, JString (ak_name (rc_key c));
}.

Definition body_tag (body : CommandBody) : string :=
  match body with
  | Cmd_Cancel _ reason => "cancel " +:+ reason
  | Cmd_Claim _ capacity => "claim " +:+ show_Z capacity
  | Cmd_RegisterSession _ _ _ => "register"
  | _ => "command"
  end.

#[export] Instance sample_serde : Serde := {
  schema_ref_to_value := λ _, inr JNull;
  definition_to_value := λ d, inr (JString (def_id d));
  catalog_to_value := λ _, inr JNull;
  policy_to_value := λ _, inr JNull;
  event_to_value := λ e, inr (JString "event");
  projection_to_value := λ p, inr (JInt p.1);
  body_to_value := λ b, inr (JString (body_tag b));
  start_to_value := λ p, inr (JString (def_id p.1.1));
}.

(** ** Results of computations *)
Definition from_ok {A} (d : A) (m : Outcome A) : A := match m with Ok a => a | _ => d end.

Lemma from_ok_eq {A} (d : A) m : is_ok m = true → m = Ok (from_ok d m).
Proof. by destruct m. Qed.

(** ** A workflow: pay, wait for the signal to ship, complete *)
Definition pay_key : ActivityKey := mkActivityKey "pay" 1.
Definition check_key : ActivityKey := mkActivityKey "check" 1.
Definition refund_key : ActivityKey := mkActivityKey "refund" 1.

Definition sample_contract (key : ActivityKey) (reconciler : option ActivityKey) : ActivityContract :=
  mkActivityContract key SchemaRef_Integer SchemaRef_Integer ExecutionKind_Async EffectKind_External
    Recovery_Manual [mkErrorCode "declined" false; mkErrorCode "busy" true] reconciler.

Definition sample_catalog : Catalog :=
  mkCatalog [(mkSchemaKey "integer" 1, json_type "integer")]
    [(pay_key, sample_contract pay_key (Some check_key)); (refund_key, sample_contract refund_key None)]
    [(check_key, mkReconcilerContract check_key pay_key)].

Definition pay_node (next : string) : Node :=
  Node_Activity pay_key (Binding_From Reference_WorkflowInput None) None retry_forward_default
    (Some (Compensation_Activity refund_key (Binding_From Reference_ForwardOutput None) None None)) next.

Definition done_region : Region :=
  mkRegion [PathSeg_Root] SchemaRef_Integer SchemaRef_Integer "done"
    [("done", Node_Complete (Binding_From Reference_ScopeInput None))].

Definition order_region : Region :=
  mkRegion [PathSeg_Root] SchemaRef_Integer SchemaRef_Integer "pay"
    [("done", Node_Complete (Binding_From Reference_WorkflowInput None));
     ("late", Node_Fail (mkFailError "late" "not shipped in time"));
     ("pay", pay_node "ship");
     ("ship", Node_WaitSignal "go" (Binding_Literal (VString "k")) (Some 1000) ConsumeFrom_Buffered
        "done" (Some "late"))].

Definition sample_definition (id : string) (root : Region) : Definition_ :=
  mkDefinition 1 "graphrun/v1" id 1 SchemaRef_Integer SchemaRef_Integer [("go", SchemaRef_Integer)] None
    root "".

Definition order : Definition_ := sample_definition "order" order_region.

(** ** Running it *)
Definition sixteen (s : string) : string := pad 16 s.
Definition run_a : RunId.t := RunId.from_bytes (sixteen "run-a").
Definition run_b : RunId.t := RunId.from_bytes (sixteen "run-b").
Definition worker_a : WorkerSessionId.t := WorkerSessionId.from_bytes (sixteen "worker-a").
Definition event_a : EventId.t := EventId.from_bytes (sixteen "event-a").
Definition event_b : EventId.t := EventId.from_bytes (sixteen "event-b").

Definition sample_command (n : string) (body : CommandBody) (time : Z) : Command :=
  mkCommand (CommandId.from_bytes (sixteen ("cmd-" +:+ n))) body time.

Definition sample_cluster : string := to_hex_string (sixteen "cluster").
Definition empty_engine : State := upd_recovery (λ _, None) (upd_cluster_id (λ _, sample_cluster) state_default).

Definition commit (s : State) (n : string) (body : CommandBody) (time : Z) : Outcome (list DomainEvent * State) :=
  commit_execution s (sample_command n body time) None.

Definition after (s : State) (n : string) (body : CommandBody) (time : Z) : State :=
  snd (from_ok ([], s) (commit s n body time)).

Definition started : State := after empty_engine "start" (Cmd_Start run_a order (VInt 7) sample_catalog) 1000.
Definition registered : State := after started "register" (Cmd_RegisterSession worker_a ["*"] 4) 1000.
Definition claimed : State := after registered "claim" (Cmd_Claim worker_a 4) 2000.

(** The activation of the [pay] node. *)
Definition pay_activation : ActivationId.t :=
  match elements (dom (activations started)) with a :: _ => a | [] => ActivationId.from_bytes "" end.

Definition paid : State :=
  after claimed "paid" (Cmd_ReportAssigned run_a pay_activation (VInt 8) worker_a 1 1) 3000.
Definition waiting : State := after paid "progress" (Cmd_Progress run_a) 3000.
Definition signalled : State :=
  after waiting "signal" (Cmd_Signal run_a event_a "go" "k" (VInt 9)) 3500.
Definition finished : State := after signalled "finish" (Cmd_Progress run_a) 3600.

(** *** After a crash: the lease ran out, so the effect is probed *)
Definition recovering : State :=
  after claimed "rejoin" (Cmd_RegisterSession worker_a ["*"] 4) 40000.
Definition probing : State := after recovering "probe" (Cmd_Claim worker_a 4) 40000.

(** *** Two obligations of one saga: the [pay] activation stands for it *)
Definition second_forward : ActivationId.t := ActivationId.from_bytes (sixteen "forward-2").
Definition sample_error : FailError := mkFailError "declined" "card declined".
Definition two_obligations : State :=
  upd_obligations (λ l, l ++ [mkObligation second_forward run_a pay_activation "refund" 1 (VInt 1)
    ObligationStatus_Open]) paid.
Definition no_obligations : State := upd_obligations (λ _, []) waiting.
Definition sample_ids : IdGen := idgen_new (CommandId.from_bytes (sixteen "ids")).

(** *** Control nodes: each starts a run whose first node is the control node *)
Definition child_region_of (output : Binding) : Region :=
  mkRegion [PathSeg_Root; PathSeg_Body] SchemaRef_Integer SchemaRef_Integer "done" [("done", Node_Complete output)].

Definition item_body : Region := child_region_of (Binding_From Reference_ItemValue None).
Definition input_items : Binding := Binding_From Reference_WorkflowInput None.
Definition sample_branches : list ParallelBranch :=
  [mkParallelBranch "left" input_items (child_region_of input_items);
   mkParallelBranch "right" input_items (child_region_of input_items)].
Definition sample_cases : list ChooseCase :=
  [mkChooseCase "small" (Condition_Lt input_items (Binding_Literal (VInt 5))) item_body;
   mkChooseCase "large" (Condition_Ge input_items (Binding_Literal (VInt 5))) (child_region_of input_items)].

Definition control_region (node : Node) : Region :=
  mkRegion [PathSeg_Root] SchemaRef_Integer SchemaRef_Integer "control"
    [("control", node); ("done", Node_Complete input_items)].

Definition foreach_node : Node := Node_Foreach input_items SchemaRef_Integer 10 2 item_body "done".
Definition parallel_node : Node := Node_Parallel sample_branches "done".
Definition choose_node : Node := Node_Choose input_items sample_cases item_body "done".

Definition control_run (node : Node) (input : Value) : State :=
  after empty_engine "control" (Cmd_Start run_b (sample_definition "control" (control_region node)) input
    sample_catalog) 1000.

Definition two_items : Value := VArray [VInt 1; VInt 2].
Definition foreach_run : State := control_run foreach_node two_items.
Definition parallel_run : State := control_run parallel_node (VInt 3).
Definition choose_run : State := control_run choose_node (VInt 9).

(** The activation of the control node, and its scope. *)
Definition no_activation : ActivationState :=
  mkActivationState (ActivationId.from_bytes "") run_b (ScopeId.from_bytes "") "" ActivationStatus_Open
    ExecutionRole_Forward None 0 0.
Definition first_activation (s : State) : ActivationState :=
  default no_activation (snd <$> head (map_to_list (activations s))).
Definition first_scope (s : State) : option ScopeState := snd <$> head (map_to_list (scopes s)).

(** The branches of the parallel node: "left" failed, "right" still open. *)
Definition left_scope : ScopeId.t := ScopeId.from_bytes (sixteen "left").
Definition right_scope : ScopeId.t := ScopeId.from_bytes (sixteen "right").
Definition branch_scope (id : ScopeId.t) (name : string) (status : ScopeStatus) : ScopeState :=
  let act := first_activation parallel_run in
  mkScopeState id run_b (Some (as_id act)) (ScopeRole_ParallelBranch (as_id act) name) (VInt 3) status [] None.
Definition failing_branches : State :=
  upd_scopes (λ m, <[left_scope := branch_scope left_scope "left" (ScopeStatus_Failed sample_error)]>
    (<[right_scope := branch_scope right_scope "right" ScopeStatus_Open]> m)) parallel_run.
