(* ===== verification/WorkerWitness.v ===== *)
(** * The theorems on claims, reports, signals, sagas and runs at concrete states

    Each lemma applies one theorem of the development to the sample engine and
    evaluates its hypotheses there. *)
From stdpp Require Import base option gmap strings list fin_maps.
From Stdlib Require Import ZArith Ascii Lia.
From S2P Require Import Prelude Value Ids Policy Catalog Ir Domain Eval Evolve History Steps Saga Signals Claims Progress Command Schedule Sample EvolveFacts ClaimFacts ReportFacts SignalFacts SagaFacts RunFacts CommandFacts.

(** Evaluates a computation to its result. *)
Ltac evaluate := vm_compute; reflexivity.
Ltac by_decision := apply (bool_decide_unpack _); vm_compute; exact Logic.I.
Ltac ok_result := apply from_ok_eq; evaluate.

(** ** Invariants of the sample states *)
Lemma ids_wf_decide s :
  bool_decide (map_Forall (λ k a, as_id a = k) (activations s)) &&
  bool_decide (map_Forall (λ k x, ss_id x = k) (scopes s)) &&
  bool_decide (map_Forall (λ k w, wt_id w = k) (waits s)) &&
  bool_decide (map_Forall (λ k w, ws_id w = k) (sessions s)) &&
  bool_decide (map_Forall (λ k r, rs_id r = k) (runs s)) = true → ids_wf s.
Proof. intros. to_prop. by split. Qed.

Lemma after_wf s n body time :
  engine_wf s → bool_decide (sequences_in_range s) = true → engine_wf (after s n body time).
Proof.
  intros Hwf Hr%bool_decide_eq_true. unfold after. destruct (commit s n body time) as [[evs s']| |] eqn:Hc; [|done..].
  by eapply commit_wf.
Qed.

Lemma registered_wf : engine_wf registered.
Proof. do 2 (apply after_wf; [|evaluate]). apply initial_wf. Qed.
Lemma recovering_wf : engine_wf recovering.
Proof. do 2 (apply after_wf; [|evaluate]). apply registered_wf. Qed.
Lemma signalled_wf : engine_wf signalled.
Proof. do 4 (apply after_wf; [|evaluate]). apply registered_wf. Qed.

(** ** Claims *)
Definition claim_events (s : State) (time : Z) : list DomainEvent :=
  from_ok [] (decide_claim s worker_a 4 time).

Lemma decide_claim_safe_witness :
  decide_claim registered worker_a 4 2000 = Ok (claim_events registered 2000) ∧
  length (claim_events registered 2000) = 2%nat ∧
  ∃ worker grants, claim_events registered 2000 = session_renewal worker_a worker 2000 ++ grants ∧
    NoDup (omap grant_activation grants).
Proof.
  assert (H : decide_claim registered worker_a 4 2000 = Ok (claim_events registered 2000)) by ok_result.
  split; [exact H|split; [evaluate|]].
  destruct (decide_claim_safe _ _ _ _ _ H) as (worker & grants & _ & _ & Hevs & _ & Hnd & _).
  exists worker, grants. exact (conj Hevs Hnd).
Defined.

Lemma decide_claim_fifo_witness :
  ∃ worker, sessions registered !! worker_a = Some worker ∧
    Forall (fifo_ok registered worker 2000 (omap grant_activation (claim_events registered 2000)))
      (claim_events registered 2000).
Proof. apply (decide_claim_fifo registered worker_a 4 2000). ok_result. Defined.

Definition sample_worker : WorkerSession := mkWorkerSession worker_a ["*"] 4 31000 "" [] 0 0 0.

Lemma claim_loop_terminates_witness :
  0 ≤ 0 ∧ is_Some (claim_rounds 5 registered sample_worker worker_a 4 2000 [run_a] (mkClaimLoop 0 [] [])).
Proof. split; [lia|]. apply (claim_loop_terminates registered sample_worker worker_a 4). simpl. lia. Defined.

Definition granted_state : State :=
  from_ok registered (apply_events_with_cause registered (claim_events registered 2000) None None 2000).

Lemma claims_within_capacity_witness :
  worker_in_flight granted_state worker_a 2000 = 1 ∧ worker_in_flight granted_state worker_a 2000 ≤ 4.
Proof.
  split; [evaluate|].
  apply (claims_within_capacity registered worker_a 4 2000 (claim_events registered 2000) sample_worker None None 2000).
  - ok_result.
  - evaluate.
  - evaluate.
  - by_decision.
  - ok_result.
Defined.

Definition regranted_state : State :=
  from_ok recovering (apply_events_with_cause recovering (claim_events recovering 40000) None None 40000).

Lemma regrant_fences_previous_owner_witness :
  ∃ claim, (activations recovering !! pay_activation ≫= as_claim) = Some claim ∧
    is_ok (validate_claim_owner regranted_state run_a pay_activation (cl_session claim) (cl_generation claim)
      1 40001) = false.
Proof.
  destruct (activations recovering !! pay_activation) as [act|] eqn:Ha; [|by vm_compute in Ha].
  destruct (as_claim act) as [claim|] eqn:Hc.
  - exists claim. split; [exact Hc|].
    apply (regrant_fences_previous_owner recovering worker_a 4 40000 (claim_events recovering 40000)
      None None 40000 regranted_state pay_activation act claim run_a 1 40001).
    + apply recovering_wf.
    + ok_result.
    + ok_result.
    + evaluate.
    + by_decision.
    + exact Ha.
    + exact Hc.
  - exfalso. revert Hc. vm_compute in Ha. injection Ha as <-. discriminate.
Defined.

(** ** Reports *)
Definition pay_report : CommandBody := Cmd_ReportAssigned run_a pay_activation (VInt 8) worker_a 1 1.

Lemma report_needs_live_owner_witness :
  is_ok (decide_body claimed (mkCommand (cmd_id (sample_command "r" pay_report 0)) pay_report 3000) sample_ids) = true ∧
  live_owner claimed run_a pay_activation worker_a 1 1 3000.
Proof.
  set (c := mkCommand _ _ _).
  assert (Hd : decide_body claimed c sample_ids = Ok (from_ok ([], sample_ids) (decide_body claimed c sample_ids)))
    by ok_result.
  split; [evaluate|].
  destruct (from_ok ([], sample_ids) (decide_body claimed c sample_ids)) as [evs ids'] eqn:He.
  exact (report_needs_live_owner claimed c sample_ids evs ids' Hd).
Defined.

Definition renewed : State :=
  from_ok claimed (outcome_fold evolve claimed (from_ok [] (decide_renew claimed worker_a pay_activation 1 1 5000))).

Lemma renewal_extends_lease_only_witness :
  ∃ act claim, activations claimed !! pay_activation = Some act ∧ as_claim act = Some claim ∧
    5000 < cl_lease_expiry_ms claim ∧
    ∀ run now, is_ok (validate_claim_owner renewed run pay_activation worker_a 1 1 now) = false.
Proof.
  destruct (renewal_extends_lease_only claimed worker_a pay_activation 1 1 5000
    (from_ok [] (decide_renew claimed worker_a pay_activation 1 1 5000)) renewed)
    as (act & claim & Ha & Hc & _ & _ & _ & Hl & _ & _ & Hv); [ok_result|ok_result|reflexivity|].
  exists act, claim. exact (conj Ha (conj Hc (conj Hl Hv))).
Defined.

Definition pay_effect : EffectKey.t :=
  match activations claimed !! pay_activation ≫= as_claim with
  | Some claim => cl_effect_key claim
  | None => EffectKey.from_bytes ""
  end.

Lemma probe_granted : granted_key (claim_events recovering 40000) run_a pay_activation ExecutionRole_Reconciliation pay_effect.
Proof.
  set (evs := claim_events recovering 40000). vm_compute in evs.
  unfold granted_key. do 10 eexists. subst evs. apply list_elem_of_further, list_elem_of_here.
Qed.

Lemma effect_keys_stable_witness :
  ∃ act claim, activations recovering !! pay_activation = Some act ∧ as_claim act = Some claim ∧
    pay_effect = cl_effect_key claim.
Proof.
  apply (effect_keys_stable recovering worker_a 4 40000 (claim_events recovering 40000)
    recovering worker_a 4 40000 (claim_events recovering 40000)
    run_a pay_activation ExecutionRole_Reconciliation pay_effect pay_effect).
  - ok_result.
  - ok_result.
  - apply probe_granted.
  - apply probe_granted.
Defined.

Definition probe_unknown : list DomainEvent * IdGen :=
  from_ok ([], sample_ids) (decide_reconcile probing run_a pay_activation worker_a 2 1
    ReconcileOutcome_Unknown None 41000 sample_ids).
Definition probed : State := from_ok probing (outcome_fold evolve probing probe_unknown.1).

Lemma unknown_probes_are_bounded_witness :
  ∃ claim, (activations probed !! pay_activation ≫= as_claim) = Some (claim_probed 1 true claim) ∧
    ∀ now ids2, is_ok (decide_reconcile probed run_a pay_activation worker_a 2 1
      ReconcileOutcome_Unknown None now ids2) = false.
Proof.
  destruct (unknown_probes_are_bounded probing run_a pay_activation worker_a 2 1 41000 sample_ids
    probe_unknown.1 probe_unknown.2 probed) as (claim & Hc & _ & Hnext).
  - unfold probe_unknown. rewrite <-surjective_pairing. ok_result.
  - ok_result.
  - assert (cl_probes claim = 0) as Hz.
    { revert Hc. set (m := _ ≫= _). vm_compute in m. subst m. intros [= <-]. reflexivity. }
    rewrite Hz in Hnext. exists claim. exact Hnext.
Defined.

(** ** Signals and timers *)
Definition signal_events : list DomainEvent :=
  from_ok [] (decide_signal waiting run_a event_a "go" "k" (VInt 9) 3500).
Definition accepted : State := from_ok waiting (apply_events_with_cause waiting signal_events None None 3500).

Definition text_of (v : Value) : string := from_ok "" (canonical_json (to_json v)).

Lemma signal_accepted_once_witness :
  length signal_events = 2%nat ∧
  (∀ time', decide_signal accepted run_a event_a "go" "k" (VInt 9) time' = Ok []) ∧
  decide_signal accepted run_a event_a "go" "other" (VInt 9) 4000 = Err signal_conflict ∧
  decide_signal accepted run_a event_a "go" "k" (VInt 10) 4000 = Err signal_conflict.
Proof.
  destruct (signal_accepted_once waiting run_a event_a "go" "k" (VInt 9) 3500 signal_events None None 3500 accepted)
    as (Hsame & text & Htext & Hother); [ok_result|by vm_compute|ok_result|].
  assert (text = text_of (VInt 9)) as ->.
  { unfold text_of. by rewrite Htext. }
  split; [evaluate|]. split; [exact Hsame|]. split.
  - etrans; [apply (Hother _ _ _ _ (text_of (VInt 9))); ok_result|]. evaluate.
  - etrans; [apply (Hother _ _ _ _ (text_of (VInt 10))); ok_result|]. evaluate.
Defined.

Definition ship_wait : WaitId.t :=
  match elements (dom (waits waiting)) with w :: _ => w | [] => WaitId.from_bytes "" end.
Definition timer_events : list DomainEvent * IdGen :=
  from_ok ([], sample_ids) (decide_timer waiting run_a ship_wait 4000 sample_ids).

Lemma timers_never_early_witness :
  length timer_events.1 = 2%nat ∧ Forall (timeout_justified waiting 4000) timer_events.1.
Proof.
  split; [evaluate|].
  apply (timers_never_early waiting 4000 run_a ship_wait sample_ids timer_events.1 timer_events.2).
  - apply ids_wf_decide. evaluate.
  - left. unfold timer_events. rewrite <-surjective_pairing. ok_result.
Defined.

Definition ship_entry : InboxEntry :=
  default (mkInboxEntry event_b "" "" VNull 0 None false 0 0 None) (head (inbox signalled)).
Definition ship_wait_state : WaitState :=
  default (mkWaitState ship_wait run_a pay_activation "" "" None ConsumeFrom_Buffered 0 true)
    (waits signalled !! ship_wait).

Lemma delivery_is_fifo_witness :
  ship_entry ∈ inbox signalled ∧ ie_consumed ship_entry = false.
Proof.
  destruct (delivery_is_fifo signalled ship_wait_state 3600 ship_entry) as (Hin & Hc & _).
  - apply signalled_wf.
  - evaluate.
  - exact (conj Hin Hc).
Defined.

Definition delivered : State :=
  from_ok signalled (evolve signalled (WaitSatisfied run_a ship_wait event_a (VInt 9))).

Definition ship_rest : list DomainEvent :=
  match commit signalled "ship" (Cmd_Progress run_a) 3600 with
  | Ok (WaitSatisfied _ _ _ _ :: evs, _) => evs
  | _ => []
  end.
Definition shipped : State := from_ok delivered (outcome_fold evolve delivered ship_rest).

Lemma delivered_at_most_once_witness :
  (ie_event_id <$> inbox shipped) = [event_a] ∧ length ship_rest = 4%nat ∧
  ∀ w now entry, reserved_or_eligible shipped w now = Some entry →
    ¬ (ie_run entry = Some run_a ∧ ie_event_id entry = event_a).
Proof.
  split; [evaluate|]. split; [evaluate|].
  apply (delivered_at_most_once signalled run_a ship_wait event_a (VInt 9) delivered ship_rest).
  - apply signalled_wf.
  - ok_result.
  - apply Forall_forall. intros e He (signal & key & payload & sequence & a & x & ->). revert He.
    set (evs := ship_rest). vm_compute in evs. subst evs. rewrite !elem_of_cons, elem_of_nil. naive_solver.
  - ok_result.
Defined.

(** ** Sagas *)
Definition compensation_events_of (s : State) : list DomainEvent * IdGen :=
  from_ok ([], sample_ids) (compensate_or_fail s pay_activation sample_error sample_ids).
Definition refund_activation : ActivationId.t :=
  match (compensation_events_of two_obligations).1 with
  | CompensationStarted _ _ _ activation _ _ _ _ :: _ => activation
  | _ => ActivationId.from_bytes ""
  end.
Definition refund_started : DomainEvent :=
  CompensationStarted run_a pay_activation second_forward refund_activation "refund" 1 (VInt 1) sample_error.
Definition compensating : State := from_ok two_obligations (evolve two_obligations refund_started).

Lemma compensation_is_lifo_witness :
  ∃ o, newest_open two_obligations pay_activation o ∧ second_forward = ob_forward o ∧
    open_obligations two_obligations pay_activation = open_obligations compensating pay_activation ++ [o].
Proof.
  destruct (compensation_is_lifo two_obligations pay_activation sample_error sample_ids run_a second_forward
    refund_activation "refund" 1 (VInt 1) sample_error (compensation_events_of two_obligations).2 compensating)
    as (o & Hnew & Hf & _ & _ & Hsplit & _).
  - by_decision.
  - transitivity (Ok (compensation_events_of two_obligations)); [ok_result|]. evaluate.
  - ok_result.
  - exists o. exact (conj Hnew (conj Hf Hsplit)).
Defined.

Definition root_scope_id : ScopeId.t :=
  match elements (dom (scopes started)) with x :: _ => x | [] => ScopeId.from_bytes "" end.

Lemma saga_fails_only_settled_witness :
  ∃ act, activations no_obligations !! pay_activation = Some act ∧ root_scope_id = as_scope act ∧
    uncertain_forwards no_obligations (as_run act) = false.
Proof.
  destruct (saga_fails_only_settled no_obligations pay_activation sample_error sample_ids
    (compensation_events_of no_obligations).1 (compensation_events_of no_obligations).2
    run_a root_scope_id sample_error) as (act & Ha & Hs & Hu & _).
  - unfold compensation_events_of. rewrite <-surjective_pairing. ok_result.
  - set (evs := (compensation_events_of no_obligations).1). vm_compute in evs. subst evs.
    apply list_elem_of_further, list_elem_of_here.
  - exists act. exact (conj Ha (conj Hs Hu)).
Defined.

Definition settled : State :=
  from_ok two_obligations (outcome_fold evolve two_obligations (settle_saga_success two_obligations pay_activation)).

Lemma settlement_hands_over_witness :
  length (open_obligations two_obligations pay_activation) = 2%nat ∧
  obligations settled = settled_obligation two_obligations pay_activation <$> obligations two_obligations ∧
  open_obligations settled pay_activation = [].
Proof.
  split; [evaluate|]. apply (settlement_hands_over two_obligations pay_activation settled).
  - by_decision.
  - by_decision.
  - ok_result.
Defined.

(** ** The end of a run *)
Definition abandon_events : list DomainEvent :=
  from_ok [] (decide_abandon_compensation two_obligations run_a "lost card").
Definition abandoned : State := from_ok two_obligations (outcome_fold evolve two_obligations abandon_events).

Lemma abandonment_settles_run_witness :
  length (obligations abandoned) = 2%nat ∧
  (∀ o, o ∈ obligations abandoned → ob_run o = run_a → is_settled o = true).
Proof.
  destruct (abandonment_settles_run two_obligations run_a "lost card" abandon_events abandoned) as [Ho _].
  - ok_result.
  - by vm_compute.
  - ok_result.
  - split; [evaluate|exact Ho].
Defined.

Definition run_failed : State := from_ok claimed (evolve claimed (RunFailed run_a sample_error)).

Lemma failed_run_is_inert_witness :
  run_closed run_failed run_a ∧ (∀ time, unclaimed_ready run_failed run_a time = []).
Proof.
  destruct (failed_run_is_inert claimed run_a sample_error run_failed) as (Hc & Hu & _).
  - ok_result.
  - exact (conj Hc Hu).
Defined.

Definition cancel_events : list DomainEvent * IdGen :=
  from_ok ([], sample_ids) (decide_cancel no_obligations run_a "stop" sample_ids).
Definition cancelled : State := from_ok no_obligations (outcome_fold evolve no_obligations cancel_events.1).

Lemma cancel_closes_run_witness :
  length cancel_events.1 = 3%nat ∧ run_closed cancelled run_a ∧
  map_Forall (λ _ w, wt_run w = run_a → wt_pending w = false) (waits cancelled).
Proof.
  destruct (cancel_closes_run no_obligations run_a "stop" sample_ids cancel_events.1 cancel_events.2 cancelled)
    as (_ & Hr & Hw).
  - apply ids_wf_decide. evaluate.
  - evaluate.
  - unfold cancel_events. rewrite <-surjective_pairing. ok_result.
  - by vm_compute.
  - ok_result.
  - split; [evaluate|]. exact (conj Hr Hw).
Defined.
