(* ===== verification/EngineWitness.v ===== *)
(** * The theorems on the interpreter, commands, history and schedules at concrete states *)
From stdpp Require Import base option gmap strings list fin_maps.
From Stdlib Require Import ZArith Ascii Lia.
From S2P Require Import Prelude Value Ids Policy Catalog Ir Domain Eval Evolve History Steps Saga Signals Claims Progress Command Schedule Retention Sample EvolveFacts ClaimFacts SignalFacts ProgressFacts CommandFacts HistoryFacts RetentionFacts EngineFacts ScheduleFacts RegionFacts IdsFacts WorkerWitness.

(** ** Control nodes *)
Lemma foreach_index_search_witness :
  ∃ r, first_free 4 [0; 2] [(1, VNull)] 0 = Some r ∧ r ∉ used [0; 2] [(1, VNull)].
Proof.
  destruct (foreach_index_search [0; 2] [(1, VNull)]) as (r & Hr & _ & Hnew & _); [by vm_compute|].
  exists r. exact (conj Hr Hnew).
Defined.

Definition foreach_act : ActivationState := first_activation foreach_run.
Definition foreach_step (s : State) : list DomainEvent * IdGen :=
  from_ok ([], sample_ids) (progress_foreach s foreach_act input_items 10 2 item_body sample_ids).
Definition opened_scope (evs : list DomainEvent) : ScopeId.t :=
  match evs with ScopeOpened _ scope _ _ _ :: _ => scope | _ => ScopeId.from_bytes "" end.

Lemma foreach_opens_next_item_witness :
  ∃ (items : list Value) index, ScopeRole_ForeachItem (as_id foreach_act) 0 = ScopeRole_ForeachItem (as_id foreach_act) index ∧
    items !! Z.to_nat index = Some (VInt 1) ∧ foreach_open foreach_run foreach_act < 2.
Proof.
  destruct (foreach_opens_next_item foreach_run foreach_act input_items 10 2 item_body sample_ids
    (foreach_step foreach_run).1 (foreach_step foreach_run).2 run_b (opened_scope (foreach_step foreach_run).1)
    (Some (as_id foreach_act)) (ScopeRole_ForeachItem (as_id foreach_act) 0) (VInt 1))
    as (items & index & Hr & _ & _ & Hl & _ & Ho & _).
  - by vm_compute.
  - unfold foreach_step. rewrite <-surjective_pairing. ok_result.
  - set (evs := (foreach_step foreach_run).1). vm_compute in evs. subst evs. apply list_elem_of_here.
  - exists items, index. exact (conj Hr (conj Hl Ho)).
Defined.

(** The items completed in the order 1, 0. *)
Definition foreach_complete : State :=
  upd_foreach_done (insert (as_id foreach_act) [(1, VString "b"); (0, VString "a")]) foreach_run.
Definition foreach_scope : ScopeState :=
  default (branch_scope left_scope "" ScopeStatus_Open) (first_scope foreach_run).
Definition foreach_ctx : EvalCtx :=
  from_ok (mkEvalCtx VNull VNull "" [] None None None None None None) (eval_ctx foreach_complete foreach_scope).

Lemma foreach_output_in_item_order_witness :
  ∃ ordered, records_output foreach_act (VArray ordered) (foreach_step foreach_complete).1 ∧
    ordered !! 0%nat = Some (VString "a") ∧ ordered !! 1%nat = Some (VString "b").
Proof.
  destruct (foreach_output_in_item_order foreach_complete foreach_act input_items 10 2 item_body sample_ids
    (foreach_step foreach_complete).1 (foreach_step foreach_complete).2 foreach_scope foreach_ctx [VInt 1; VInt 2])
    as (ordered & Hrec & _ & Hall).
  - unfold foreach_step. rewrite <-surjective_pairing. ok_result.
  - evaluate.
  - ok_result.
  - evaluate.
  - discriminate.
  - evaluate.
  - evaluate.
  - exists ordered. split; [exact Hrec|]. rewrite !Hall by (simpl; lia). split; evaluate.
Defined.

Definition parallel_act : ActivationState := first_activation parallel_run.
Definition parallel_complete : State :=
  upd_parallel_done (insert (as_id parallel_act) [("left", VInt 1); ("right", VInt 2)]) parallel_run.
Definition parallel_step (s : State) : list DomainEvent * IdGen :=
  from_ok ([], sample_ids) (progress_parallel s parallel_act sample_branches sample_ids).

Lemma parallel_output_in_branch_order_witness :
  ∃ ordered, records_output parallel_act (VArray ordered) (parallel_step parallel_complete).1.
Proof.
  destruct (parallel_output_in_branch_order parallel_complete parallel_act sample_branches sample_ids
    (parallel_step parallel_complete).1 (parallel_step parallel_complete).2) as (ordered & Hrec & _).
  - unfold parallel_step. rewrite <-surjective_pairing. ok_result.
  - evaluate.
  - exists ordered. exact Hrec.
Defined.

Lemma parallel_failure_waits_for_claims_witness :
  (∃ child, child ∈ children_of failing_branches (as_id parallel_act) ∧ ss_id child = right_scope ∧
     scope_is_open child = true ∧ scope_claimed failing_branches child = false) ∨
  (right_scope = as_scope parallel_act ∧ ∀ child, ¬ uncertain_child failing_branches parallel_act child).
Proof.
  apply (parallel_failure_waits_for_claims failing_branches parallel_act sample_branches sample_ids
    (parallel_step failing_branches).1 (parallel_step failing_branches).2 run_b right_scope branch_cancelled).
  - apply ids_wf_decide. evaluate.
  - apply Forall_forall. by_decision.
  - unfold parallel_step. rewrite <-surjective_pairing. ok_result.
  - set (evs := (parallel_step failing_branches).1). vm_compute in evs. subst evs. apply list_elem_of_here.
Defined.

Definition choose_act : ActivationState := first_activation choose_run.
Definition choose_step : list DomainEvent * IdGen :=
  from_ok ([], sample_ids) (progress_choose choose_run choose_act input_items sample_cases item_body sample_ids).

Lemma choose_opens_first_match_witness :
  ∃ name chosen, child_region (ScopeRole_ChooseBody (as_id choose_act) name) choose_node = Some chosen ∧
    length choose_step.1 = 2%nat.
Proof.
  destruct (choose_opens_first_match choose_run choose_act input_items sample_cases item_body "done" sample_ids
    choose_step.1 choose_step.2) as (sc & ctx & captured & name & chosen & scope & start & _ & _ & _ & _ & Hc & _).
  - by_decision.
  - by_decision.
  - evaluate.
  - unfold choose_step. rewrite <-surjective_pairing. ok_result.
  - exists name, chosen. split; [exact Hc|evaluate].
Defined.

Definition foreach_batch : list DomainEvent * IdGen :=
  from_ok ([], sample_ids) (decide_progress foreach_run run_b 2000 sample_ids).

Lemma progress_runs_to_rest_witness :
  length foreach_batch.1 = 10%nat ∧
  ∃ n s' ids1, (n ≤ PROGRESS_BATCH)%nat ∧ progress_steps run_b 2000 n foreach_run sample_ids foreach_batch.1 s' ids1.
Proof.
  split; [evaluate|].
  destruct (progress_runs_to_rest foreach_run run_b 2000 sample_ids foreach_batch.1 foreach_batch.2)
    as (n & s' & ids1 & Hn & Hs & _).
  - unfold foreach_batch. rewrite <-surjective_pairing. ok_result.
  - exists n, s', ids1. exact (conj Hn Hs).
Defined.

(** ** Commands *)
Definition start_command : Command :=
  sample_command "start" (Cmd_Start run_a order (VInt 7) sample_catalog) 1000.
Definition start_result : list DomainEvent * State :=
  from_ok ([], empty_engine) (commit_execution empty_engine start_command None).

Lemma start_committed : commit_execution empty_engine start_command None = Ok (start_result.1, start_result.2).
Proof. unfold start_result. rewrite <-surjective_pairing. ok_result. Qed.

Lemma commit_is_idempotent_witness :
  length start_result.1 = 3%nat ∧
  commit_execution start_result.2 (mkCommand (cmd_id start_command) (cmd_body start_command) 9000) None =
    Ok (start_result.1, start_result.2).
Proof.
  split; [evaluate|]. apply (commit_is_idempotent empty_engine).
  - exact (ew_receipts _ (initial_wf sample_cluster None)).
  - exact start_committed.
Defined.

Definition stop_command : Command := sample_command "stop" (Cmd_Cancel run_a "stop") 2000.
Definition stop_result : list DomainEvent * State :=
  from_ok ([], started) (commit_execution started stop_command (Some "alice")).
Definition stop_identity : CommandId.t * option string :=
  from_ok (cmd_id stop_command, None) (command_identity stop_command (Some "alice")).
Definition stop_digest : string := default "" stop_identity.2.
Definition other_digest : string := from_ok "" (authenticated_request_digest (Cmd_Cancel run_a "again")).

Lemma conflicting_retry_is_refused_witness :
  commit_execution stop_result.2 (mkCommand (cmd_id stop_command) (Cmd_Cancel run_a "again") 3000) (Some "alice") =
    Err (error_new AlreadyExists "command ID reused with different authenticated request").
Proof.
  apply (conflicting_retry_is_refused started stop_command "alice" stop_result.1 stop_result.2
    stop_identity.1 stop_digest (Cmd_Cancel run_a "again") other_digest).
  - unfold stop_result. rewrite <-surjective_pairing. ok_result.
  - evaluate.
  - evaluate.
  - ok_result.
  - by_decision.
Defined.

Lemma engine_time_is_monotone_witness :
  engine_time_watermark_ms empty_engine ≤ engine_time_watermark_ms start_result.2 ∧
  engine_time_watermark_ms start_result.2 = 1000.
Proof.
  split; [|evaluate]. exact (proj1 (engine_time_is_monotone _ _ _ _ _ start_committed)).
Defined.

Lemma started_reachable : reachable start_result.2.
Proof.
  eapply (reachable_commit _ start_command None start_result.1); [apply (reachable_init sample_cluster None)| |].
  - by_decision.
  - exact start_committed.
Qed.

Lemma reachable_states_are_wf_witness : size (runs start_result.2) = 1%nat ∧ engine_wf start_result.2.
Proof. split; [evaluate|]. apply reachable_states_are_wf, started_reachable. Defined.

Definition held : State := upd_recovery (λ _, Some (mkRecoveryHold "restored" false)) registered.
Definition claim_command : Command := sample_command "claim" (Cmd_Claim worker_a 4) 2000.
Definition held_result : list DomainEvent * State :=
  from_ok ([], held) (commit_execution held claim_command None).

Lemma recovery_hold_starts_nothing_witness :
  held_result.2 = held ∨ Forall (λ e, starts_work e = false) held_result.1.
Proof.
  apply (recovery_hold_starts_nothing held claim_command None).
  - evaluate.
  - unfold held_result. rewrite <-surjective_pairing. ok_result.
Defined.

(** ** History *)
Lemma retained_range_validates_witness :
  ∃ rows, validated_entries start_result.2 run_a 2 3 = Ok rows ∧
    rows.*2 = take 2 (drop 1 (run_events start_result.2 run_a)).
Proof.
  destruct (retained_range_validates start_result.2 run_a (run_events start_result.2 run_a) 2 3)
    as (rows & Hr & Hv & _).
  - apply started_reachable.
  - evaluate.
  - lia.
  - lia.
  - by_decision.
  - reflexivity.
  - exists rows. exact (conj Hr Hv).
Defined.

Definition started_run : RunState :=
  default (provisional_run run_a order sample_catalog None) (runs started !! run_a).

Lemma paging_reads_whole_history_witness :
  read_pages 4 start_result.2 run_a 0 2 2000 = Ok (run_events start_result.2 run_a) ∧
  length (run_events start_result.2 run_a) = 3%nat.
Proof.
  split; [|evaluate].
  apply (paging_reads_whole_history start_result.2 run_a 2 2000 started_run 3).
  - apply started_reachable.
  - evaluate.
  - evaluate.
  - by_decision.
  - reflexivity.
Defined.

(** ** Retention *)
Lemma earliest_due_is_sorted_prefix_witness :
  earliest_due Z.leb [(9, 1); (2, 7); (5, 3); (2, 4)] 2 = [4; 7] ∧
  earliest_due Z.leb [(9, 1); (2, 7); (5, 3); (2, 4)] 2 =
    snd <$> take 2 (sort_by (candidate_leb Z.leb) [(9, 1); (2, 7); (5, 3); (2, 4)]).
Proof.
  split; [evaluate|]. apply (earliest_due_is_sorted_prefix Z.leb).
  - intros x y. rewrite !Z.leb_le. lia.
  - intros x y z. rewrite !Z.leb_le. lia.
  - intros x y. rewrite !Z.leb_le. lia.
Defined.

Definition prune_time : Z := 1500 + DAY_MS.
Definition prune_command : Command := sample_command "prune" (Cmd_PruneHistory 16) prune_time.
Definition prune_result : list DomainEvent * State :=
  from_ok ([], started) (commit_retention started prune_command 16).

Lemma prune_committed : commit_retention started prune_command 16 = Ok (prune_result.1, prune_result.2).
Proof. unfold prune_result. rewrite <-surjective_pairing. ok_result. Qed.

Lemma started_ok : engine_ok started.
Proof. apply reachable_ok, started_reachable. Qed.

Lemma retention_keeps_what_is_live_witness :
  commands prune_result.2 !! cmd_id start_command = None ∧
  run_kept prune_time run_a started prune_result.2.
Proof.
  split; [evaluate|].
  apply (proj2 (retention_keeps_what_is_live started prune_command 16 prune_result.1 prune_result.2
    started_ok ltac:(evaluate) prune_committed) run_a started_run).
  - evaluate.
  - evaluate.
Defined.

(** ** Schedules *)
Definition claimed_schedule : RunSchedule :=
  default (mkRunSchedule 0 0 false false None 0) (schedule_from_state claimed run_a true 2000 1 1).

Definition asked_in_vain : list DomainEvent := from_ok [] (decide_claim claimed worker_a 4 31999).

Lemma schedule_misses_nothing_witness :
  sch_deadline_ms claimed_schedule = Some 32000 ∧
  (sch_ready claimed_schedule = true ↔ unclaimed_ready claimed run_a 2000 ≠ []) ∧
  (∀ id, id ∈ unclaimed_ready claimed run_a 31999 → id ∈ unclaimed_ready claimed run_a 2000) ∧
  Forall (λ e, grants_of run_a e = false) asked_in_vain.
Proof.
  destruct (schedule_misses_nothing claimed run_a true 2000 1 1 claimed_schedule) as (Hr & Hl & Hclaim).
  - apply ids_wf_decide. evaluate.
  - evaluate.
  - assert (before 31999 (sch_deadline_ms claimed_schedule)) as Hb.
    { intros d. set (x := sch_deadline_ms claimed_schedule). vm_compute in x. subst x. intros [= <-]. lia. }
    split; [evaluate|]. split; [exact Hr|]. split; [apply (Hl 31999 Hb)|].
    apply (Hclaim ltac:(evaluate) 31999 worker_a 4 asked_in_vain); [right; exact Hb|ok_result].
Defined.

(** ** Regions *)
Definition body_scope : ScopeId.t := opened_scope foreach_batch.1.
Definition foreach_progressed : State :=
  from_ok foreach_run (outcome_fold evolve foreach_run (take 2 foreach_batch.1)).
Definition body_scope_state : ScopeState :=
  default (branch_scope left_scope "" ScopeStatus_Open) (scopes foreach_progressed !! body_scope).
Definition sample_depth (x : ScopeId.t) : nat := if bool_decide (x = body_scope) then 1 else 0.

(** A scope tree, tested entry by entry. *)
Lemma scope_tree_decide s depth :
  bool_decide (map_Forall (λ x sc,
    Forall (λ a, Forall (λ p, (depth (as_scope p) < depth x)%nat) (option_list (activations s !! a)))
      (option_list (ss_parent sc) ++ option_list (role_activation (ss_role sc)))) (scopes s)) = true →
  scope_tree s depth.
Proof.
  intros Hall%bool_decide_eq_true x sc a p Hx Ha Hp. specialize (Hall x sc Hx). simpl in Hall.
  rewrite Forall_forall in Hall. specialize (Hall a). rewrite Hp in Hall. simpl in Hall.
  assert (Ha' : a ∈ option_list (ss_parent sc) ++ option_list (role_activation (ss_role sc))).
  { apply elem_of_app. destruct Ha as [-> | ->]; [left|right]; apply list_elem_of_here. }
  by apply Hall, Forall_cons in Ha' as [? _].
Qed.

Lemma scope_walks_reach_the_root_witness :
  scopes foreach_progressed !! body_scope = Some body_scope_state ∧
  ∀ skip, saga_owner_from_scope foreach_progressed body_scope skip =
    let enclosing :=
      a ← ss_parent body_scope_state;
      parent ← activations foreach_progressed !! a;
      saga_owner_from_scope foreach_progressed (as_scope parent) skip in
    match ss_role body_scope_state with
    | ScopeRole_SagaBody a => if bool_decide (skip = Some a) then enclosing else Some a
    | _ => enclosing
    end.
Proof.
  assert (Hx : scopes foreach_progressed !! body_scope = Some body_scope_state) by evaluate.
  split; [exact Hx|].
  apply (scope_walks_reach_the_root foreach_progressed sample_depth body_scope body_scope_state).
  - apply scope_tree_decide. evaluate.
  - exact Hx.
Defined.

(** ** Keys *)
Lemma activity_key_roundtrip_witness :
  activity_key_parse (activity_key_stable_name (mkActivityKey "bank/v2" 17)) = Ok (mkActivityKey "bank/v2" 17).
Proof. apply activity_key_roundtrip. vm_compute. split; discriminate. Defined.
