(* ===== verification/CompilerWitness.v ===== *)
(** * The theorems on definitions and their compiler at concrete workflows *)
From stdpp Require Import base option gmap strings list relations.
From Stdlib Require Import ZArith Ascii Lia.
From S2P Require Import Prelude Value Ids Policy Catalog Ir Analysis Equality Yaml Domain Eval Evolve History Compiler Steps Command Publication Builder YamlFacts AnalysisFacts CompilerFacts BuilderFacts FlowFacts Sample.

(** ** A document: a saga that pays, with a compensation *)
Definition node_at (doc : Doc) : Spanned := mkSpanned (mkSpan 1 1) doc.
Definition str (s : string) : Spanned := node_at (Doc_String s).
Definition num (n : Z) : Spanned := node_at (Doc_Int n).
Definition obj (fields : list (string * Spanned)) : Spanned := node_at (Doc_Map (bt_collect fields)).
Definition from (reference : string) : Spanned := obj [("from", str reference)].
Definition activity (name : string) : Spanned := obj [("name", str name); ("version", num 1)].

Definition pay_doc : Spanned :=
  obj [("kind", str "activity"); ("activity", activity "pay"); ("input", from "scope.input"); ("next", str "done");
       ("timeout", str "5s");
       ("retry", obj [("errors", node_at (Doc_Array [str "busy"]));
                      ("backoff", obj [("initial", str "100ms"); ("multiplier", num 2); ("max", str "1m")])]);
       ("compensation", obj [("kind", str "activity"); ("activity", activity "refund"); ("input", from "forward.output")])].

Definition body_doc : Spanned :=
  obj [("input_schema", str "integer/v1"); ("output_schema", str "integer/v1"); ("start", str "pay");
       ("nodes", obj [("pay", pay_doc);
                      ("done", obj [("kind", str "complete"); ("output", from "nodes.pay.output")])])].

Definition workflow_doc : Spanned :=
  obj [("dsl", str "graphrun/v1"); ("id", str "shop.order"); ("version", num 3);
       ("input_schema", str "integer/v1"); ("output_schema", str "integer/v1"); ("start", str "buy");
       ("run_timeout", str "2d");
       ("signals", obj [("go", obj [("schema", str "integer/v1")])]);
       ("nodes", obj [("buy", obj [("kind", str "saga"); ("input", from "workflow.input"); ("body", body_doc);
                                   ("next", str "wait")]);
                      ("wait", obj [("kind", str "wait_signal"); ("signal", str "go"); ("timeout", str "1h");
                                    ("key", obj [("literal", str "k")]); ("next", str "done");
                                    ("on_timeout", str "done")]);
                      ("done", obj [("kind", str "complete"); ("output", from "nodes.buy.output")])])].

Definition no_definition : Definition_ := sample_definition "" done_region.
Definition shop : Definition_ := from_ok no_definition (compile_spanned sample_catalog workflow_doc).
Definition saga_body : Region :=
  match region_at [PathSeg_Node "buy"; PathSeg_Body] (def_root shop) with Some body => body | None => done_region end.
Definition shop_ctx : RegionCtx := root_ctx (def_input_schema shop) (def_output_schema shop).
Definition body_ctx : RegionCtx := ctx_for (ctx_in_saga shop_ctx) saga_body.
Definition shop_pay : Node := default (Node_Fail (mkFailError "" "")) (region_node saga_body "pay").

Lemma shop_compiled : compile_spanned sample_catalog workflow_doc = Ok shop.
Proof. apply from_ok_eq. by vm_compute. Qed.

Lemma shop_pay_below : ("pay", shop_pay) ∈ region_nodes saga_body.
Proof. apply bt_get_elem. by vm_compute. Qed.

Lemma saga_body_below : sub_region (def_root shop) shop_ctx saga_body body_ctx.
Proof.
  eapply (sub_region_child _ _ (def_root shop) shop_ctx "buy"); [constructor|apply bt_get_elem; by vm_compute|].
  vm_compute. by left.
Qed.

Lemma compiled_nodes_are_legal_witness : node_key_parse "pay" = Ok "pay" ∧ node_legal sample_catalog (def_signals shop) body_ctx shop_pay.
Proof.
  exact (compiled_nodes_are_legal sample_catalog workflow_doc shop saga_body body_ctx "pay" shop_pay
    shop_compiled saga_body_below shop_pay_below).
Defined.

Lemma compiled_definition_is_bounded_witness :
  region_depth (def_root shop) ≤ MAX_NESTING ∧ 0 ≤ region_count (def_root shop) ≤ MAX_NODES ∧
  ∀ ms, def_run_timeout_ms shop = Some ms → ms ≤ 365 * 24 * 60 * 60 * 1000.
Proof. exact (compiled_definition_is_bounded sample_catalog workflow_doc shop shop_compiled). Defined.

Lemma compiled_paths_are_addresses_witness :
  ∃ path, region_path saga_body = PathSeg_Root :: path ∧ region_at path (def_root shop) = Some saga_body.
Proof.
  exact (compiled_paths_are_addresses sample_catalog workflow_doc shop saga_body body_ctx shop_compiled saga_body_below).
Defined.

(** ** Publishing it *)
Definition shop_catalog : PublishedCatalog :=
  mkPublishedCatalog CATALOG_FORMAT (from_ok "" (publication_digest (catalog_to_value sample_catalog) PUBLIC_COMMAND_ENVELOPE))
    sample_catalog.
Definition shop_engine : State := upd_published_catalogs (λ _, [(7, shop_catalog)]) empty_engine.

Lemma sample_digest_field : digest_is_a_field.
Proof. done. Qed.
Lemma shop_catalog_verified : published_catalog_verify shop_catalog = Ok tt.
Proof. by vm_compute. Qed.

Lemma compiled_definition_publishes_witness :
  ∃ s', apply_definition shop_engine shop 7 =
      Ok (Disposition_Applied None (Some (def_digest shop)) (Some (def_version shop)), None, s') ∧
    pinned_for s' (def_id shop) (Some (def_version shop)) =
      Ok (mkPublishedDefinition DEFINITION_FORMAT FORMAT_VERSION (def_digest shop) 7 shop, shop_catalog).
Proof.
  exact (compiled_definition_publishes sample_digest_field workflow_doc shop shop_engine 7 shop_catalog
    shop_compiled eq_refl shop_catalog_verified eq_refl).
Defined.

(** ** The theorems on accepted definitions *)
(** [pay], then [done] with what [pay] returned. *)
Definition report_region : Region :=
  mkRegion [PathSeg_Root] SchemaRef_Integer SchemaRef_Integer "pay"
    [("done", Node_Complete (Binding_From (Reference_NodeOutput "pay") None)); ("pay", pay_node "done")].
Definition report_ctx : RegionCtx := root_ctx SchemaRef_Integer SchemaRef_Integer.
Definition report : Definition_ := sample_definition "report" report_region.

(** A loop whose body reads the loop's state. *)
Definition counting_body : Region :=
  mkRegion [PathSeg_Root; PathSeg_Body] SchemaRef_Integer SchemaRef_Integer "done"
    [("done", Node_Complete (Binding_From Reference_LoopState None))].
Definition counting : Definition_ :=
  sample_definition "counting" (control_region
    (Node_Repeat (Binding_Literal (VInt 3)) (Binding_Literal (VInt 0)) SchemaRef_Integer 10 counting_body "done")).

Lemma counting_body_below :
  sub_region (def_root counting) report_ctx counting_body (ctx_for (ctx_in_loop report_ctx) counting_body).
Proof.
  eapply (sub_region_child _ _ (def_root counting) report_ctx "control"); [constructor|by left|by left].
Qed.

Lemma report_sound : region_sound report_region report_ctx.
Proof. apply (accepted_region_is_sound _ _ sample_catalog). by vm_compute. Qed.

Lemma report_single_way : single_way report_region.
Proof.
  intros k node Hnode%bt_get_elem%elem_of_cons. rewrite list_elem_of_singleton in Hnode.
  destruct Hnode as [[= _ ->]|[= _ ->]]; simpl; lia.
Qed.

Lemma report_path : path report_region "pay" ["pay"] "done".
Proof. eapply path_edge; [|constructor]. exists (pay_node "done"), "next". split; [done|by left]. Qed.

Lemma valid_definition_is_sound_witness :
  region_sound counting_body (ctx_for (ctx_in_loop report_ctx) counting_body).
Proof.
  exact (valid_definition_is_sound counting sample_catalog _ _ eq_refl counting_body_below).
Defined.

Lemma outputs_on_every_path_witness : "pay" ∈ ["pay"].
Proof.
  refine (outputs_on_every_path report_region report_ctx "done" _ _ "pay" ["pay"]
    report_sound report_single_way eq_refl _ _ report_path); by left.
Defined.

(** ** The builders *)
Notation integer := SchemaRef_Integer.
Definition no_activity_ref : ActivityRef integer integer := mkActivityRef (mkActivityKey "" 0) [].
Definition pay_ref : ActivityRef integer integer := from_ok no_activity_ref (activity_from_catalog sample_catalog integer integer "pay" 1).
Definition refund_ref : ActivityRef integer integer := from_ok no_activity_ref (activity_from_catalog sample_catalog integer integer "refund" 1).
Definition own (key : string) : ValueRef integer := node_output (mkNodeRef key 1).

(** The second call fails: its key is taken. *)
Definition builder_calls : list RegionOp :=
  [Op_activity "pay" pay_ref (mkValueRef (T := integer) (from_ref Reference_ScopeInput) 1); Op_delay "pay" 5; Op_delay "rest" 5;
   Op_compensate (mkNodeRef (O := integer) "pay" 1) refund_ref; Op_activity "again" pay_ref (own "pay")].
Definition no_region : TypedRegion integer integer := mkTypedRegion done_region [].
Definition called : RegionBuilder integer := foldl perform (graph_builder_new integer 1).1 builder_calls.
Definition linear_region : TypedRegion integer integer := from_ok no_region (region_complete called "done" (own "again")).

Lemma linear_region_is_a_chain_witness :
  (region_nodes (tr_ir linear_region)).*1 = ["again"; "done"; "pay"; "rest"] ∧
  ∃ order, chain order (tr_ir linear_region) ∧ last order = Some "done".
Proof.
  split; [by vm_compute|]. apply (linear_region_is_a_chain (I := integer) (O := integer) 1 builder_calls "done").
  left. exists (own "again"). apply from_ok_eq. by vm_compute.
Defined.

(** A workflow that buys in a saga, ships on a signal and counts. *)
Definition no_seq : Sequence integer integer := (region_new integer 0).1.
Definition go_ref : SignalRef integer := from_ok (mkSignalRef "" integer) (signal_new integer "go").
Definition buy_1 : Sequence integer integer := from_ok no_seq (seq_activity (region_new integer 1).1 "pay" pay_ref).
Definition buy_2 : Sequence integer integer := from_ok no_seq (seq_compensate buy_1 refund_ref).
Definition buy_body : TypedRegion integer integer := from_ok no_region (seq_finish buy_2).
Definition count_1 : Sequence integer integer := from_ok no_seq (seq_activity (region_new integer 2).1 "pay" pay_ref).
Definition count_body : TypedRegion integer integer := from_ok no_region (seq_finish count_1).
Definition fluent_0 : Workflow integer integer := (workflow_new integer "shop" 3).1.
Definition fluent_1 : Sequence integer integer := from_ok no_seq (seq_saga (wf_seq fluent_0) "buy" buy_body).
Definition fluent_2 : Sequence integer integer := from_ok no_seq (seq_wait_signal fluent_1 "ship" go_ref "k").
Definition fluent_3 : Sequence integer integer := from_ok no_seq (seq_while_lt fluent_2 "count" "/value" 3 count_body 10).
(** The route depends on what the signal brought. *)
Definition five_shipped : Condition := Condition_Eq (from_ref (Reference_NodeOutput "ship")) (Binding_Literal (VInt 5)).
Definition route_case : Case integer integer := mkCase "five" five_shipped count_body.
Definition route_choose : Choose integer integer integer := choose_when (seq_choose fluent_3 "route") "five" five_shipped count_body.
Definition fluent_4 : After integer integer := from_ok (mkAfter None no_seq) (choose_otherwise route_choose count_body).
Definition fluent_shop : Workflow integer integer := mkWorkflow "shop" (af_seq fluent_4).
Definition fluent_definition : Definition_ := from_ok no_definition (workflow_finish sample_catalog fluent_shop).
Definition fluent_root : TypedRegion integer integer := from_ok no_region (seq_complete (af_seq fluent_4) "finish").
Definition signal_schema (_ : string) : SchemaRef := integer.

Ltac computed := apply from_ok_eq; by vm_compute.

Lemma buy_is_fluent : fluent_region sample_catalog signal_schema integer buy_body.
Proof.
  eapply (fluent_complete _ _ _ _ _ "done" buy_2); [|computed].
  eapply (fluent_compensate _ _ _ _ _ _ _ "refund" 1 refund_ref buy_1); [|computed..].
  eapply (fluent_activity _ _ _ _ _ _ _ "pay" 1 "pay" pay_ref); [constructor|computed..].
Qed.

Lemma count_is_fluent : fluent_region sample_catalog signal_schema integer count_body.
Proof.
  eapply (fluent_complete _ _ _ _ _ "done" count_1); [|computed].
  eapply (fluent_activity _ _ _ _ _ _ _ "pay" 1 "pay" pay_ref); [constructor|computed..].
Qed.

Lemma shop_is_fluent : fluent_seq sample_catalog signal_schema integer true (af_seq fluent_4).
Proof.
  assert (∀ case, case ∈ ch_cases route_choose → case = route_case) as Hcase by (by intros case ->%list_elem_of_singleton).
  eapply (fluent_choose _ _ _ _ _ _ _ route_choose count_body);
    [|intros case ->%Hcase; apply count_is_fluent|intros case ->%Hcase|apply count_is_fluent|computed].
  2: { split; [done|]. intros b [->|[->|[]%elem_of_nil]%elem_of_cons]%elem_of_cons; (split; [done|]); [|by intros r ?%elem_of_nil].
       intros r ->%list_elem_of_singleton. eexists. by vm_compute. }
  eapply (fluent_while_lt _ _ _ _ _ _ "count" "/value" 3 10 count_body fluent_2); [|apply count_is_fluent|computed].
  eapply (fluent_wait_signal sample_catalog signal_schema integer true integer integer "go" "ship" "k" go_ref fluent_1); [|computed..].
  eapply (fluent_saga _ _ _ _ _ _ _ "buy" buy_body (wf_seq fluent_0)); [|apply buy_is_fluent|computed].
  apply (fluent_workflow_new sample_catalog signal_schema integer "shop" 3).
Qed.

Lemma fluent_workflow_is_typed_witness :
  typed_region sample_catalog signal_schema integer (def_root fluent_definition) ∧
  waits_declared signal_schema (def_signals fluent_definition) (def_root fluent_definition) ∧
  input_of (def_root fluent_definition) = def_input_schema fluent_definition ∧
  output_of (def_root fluent_definition) = def_output_schema fluent_definition.
Proof.
  apply (fluent_workflow_is_typed sample_catalog signal_schema integer fluent_shop fluent_definition shop_is_fluent). computed.
Defined.

Lemma fluent_workflow_validates_witness :
  validate_definition (workflow_definition "shop" 1 fluent_root "") sample_catalog = Ok tt.
Proof.
  apply (fluent_workflow_validates sample_catalog signal_schema integer "finish" (af_seq fluent_4) fluent_root "shop" 1 "" shop_is_fluent). computed.
Defined.
