(* ===== verification/NodeWitness.v ===== *)
(** * A sample member

    A log store that computes, a sequence of operations on it, and the theorems of
    [LogFacts] at the log it reaches; readings, probes and files, and the theorems of
    [SnapshotFacts] and [ClockFacts] at them. *)
From stdpp Require Import base option gmap strings list sorting.
From Stdlib Require Import ZArith Lia.
From S2P Require Import Prelude Value Ids Policy Catalog Ir Domain Eval Evolve History Steps FormatUpgrade Replica LogStore Snapshot Clock LogFacts SnapshotFacts ClockFacts Sample.

(** Entries are kept as they are; a blank one takes 100 bytes and a membership
    change three megabytes. *)
#[export] Instance sample_entry_serde : EntrySerde := {
  Row := Entry;
  row_len e := match en_payload e with Payload_Membership _ _ => 3 * 1024 * 1024 | _ => 100 end;
  entry_to_json := Ok;
  entry_from_json := Ok;
}.

#[export] Instance sample_entry_laws : EntrySerdeLaws.
Proof. split; [by intros [? []]|by intros e r [= ->]]. Qed.

Definition log_id (term index : Z) : Position := mkPosition term 1 index.
Definition blank (term index : Z) : Entry := mkEntry (log_id term index) Payload_Blank.

Definition append_three : LogOp := Op_Append [blank 1 0; blank 1 1; blank 1 2].
Definition sample_ops : list LogOp :=
  [append_three; Op_Apply (log_id 1 0); Op_Truncate 2; Op_Append [blank 2 2; blank 2 3]; Op_Apply (log_id 1 1);
   Op_Purge (log_id 1 0); Op_Collect].

(** A decision procedure for what Raft respects, to run sequences of operations. *)
Definition pos_okb (p : Position) : bool := (0 <=? pos_index p) && (pos_index p <? u64_max).

Definition op_okb (op : LogOp) (db : LogDb) : bool :=
  match db_visible_log_end db with
  | None => false
  | Some v =>
      match op with
      | Op_Append es =>
          forallb (λ e, pos_okb (en_log_id e) &&
            (negb (pos_index (en_log_id e) =? idx (db_last_purged db)) || bool_decide (db_last_purged db = Some (en_log_id e)))) es &&
          (bool_decide (is_Some v) || match es with e :: _ => pos_index (en_log_id e) =? 0 | [] => true end)
      | Op_Truncate from => 0 <=? from
      | Op_Purge p => pos_okb p &&
          match db_log db !! pos_index p with
          | Some r => match entry_from_json r with Ok e => bool_decide (en_log_id e = p) | _ => true end
          | None => true
          end
      | Op_Apply p => pos_okb p && (pos_index p =? idx (db_last_applied db) + 1) && (pos_index p <=? idx v) &&
          (idx (db_last_purged db) <=? idx (db_last_applied db))
      | Op_Install p => pos_okb p && (bound db <=? pos_index p)
      | Op_Collect => true
      end
  end.

Lemma pos_okb_true p : pos_okb p = true → pos_ok p.
Proof. unfold pos_okb, pos_ok. intros. to_prop. lia. Qed.

Lemma op_okb_true op db : op_okb op db = true → ∃ v, db_visible_log_end db = Some v ∧ op_ok op db v.
Proof.
  unfold op_okb. destruct (db_visible_log_end db) as [v|]; [|done]. intros Hop. exists v. split; [done|].
  destruct op as [es|from|p|p|p|]; simpl; [| | | | |done].
  - apply andb_true_iff in Hop as [Hes Hfirst]. split.
    + apply Forall_forall. intros e He. rewrite forallb_elem in Hes. apply Hes in He. apply andb_true_iff in He as [Hp He].
      split; [by apply pos_okb_true|]. intros Heq. rewrite Heq, Z.eqb_refl in He. simpl in He. by apply bool_decide_eq_true in He.
    + intros ->. destruct es; [done|]. simpl in Hfirst. by apply Z.eqb_eq.
  - by apply Z.leb_le.
  - apply andb_true_iff in Hop as [Hp Hrow]. split; [by apply pos_okb_true|]. intros r e Hr He.
    rewrite Hr in Hrow. unfold row_entry in He. rewrite He in Hrow. by apply bool_decide_eq_true in Hrow.
  - to_prop. split; [by apply pos_okb_true|lia].
  - to_prop. split; [by apply pos_okb_true|lia].
Qed.

Definition do_checked (db : LogDb) (op : LogOp) : Outcome LogDb :=
  if op_okb op db then log_do op db else Panic "not an operation of Raft".

Lemma checked_run pre ops db db' : log_run pre db → outcome_fold do_checked db ops = Ok db' → log_run (pre ++ ops) db'.
Proof.
  revert pre db. induction ops as [|op ops IH]; intros pre db Hrun; simpl; [intros [= <-]; by rewrite app_nil_r|].
  intros (db1 & Hdo & Hrest)%outcome_bind_ok. unfold do_checked in Hdo. destruct (op_okb op db) eqn:Hok; [|done].
  apply op_okb_true in Hok as (v & ? & ?). replace (pre ++ op :: ops) with ((pre ++ [op]) ++ ops) by (by rewrite <- app_assoc).
  eapply IH; [by eapply run_op|done].
Qed.

Definition reached (ops : list LogOp) : LogDb :=
  match outcome_fold do_checked log_db_new ops with Ok db => db | _ => log_db_new end.

Definition sample_log : LogDb := reached sample_ops.

Lemma sample_log_run : log_run sample_ops sample_log.
Proof. apply (checked_run [] _ log_db_new); [apply run_new|vm_compute; reflexivity]. Qed.

Example sample_log_credits : db_unapplied_credits sample_log = Some (mkPendingCredits 2 200).
Proof. reflexivity. Qed.

Lemma credit_ledger_is_exact_witness : ∃ v, db_visible_log_end sample_log = Some v ∧
  db_unapplied_credits sample_log = Some (pending (db_log sample_log) (bound sample_log + 1) (idx v)) ∧
  weight (λ _, 1) (db_log sample_log) (bound sample_log + 1) (idx v) ≤ UNAPPLIED_ENTRIES ∧
  weight row_len (db_log sample_log) (bound sample_log + 1) (idx v) ≤ UNAPPLIED_BYTES ∧
  ∀ i, bound sample_log < i ≤ idx v → ∃ e, rl_entries (raft_log sample_log) !! i = Some e ∧ pos_index (en_log_id e) = i.
Proof. exact (credit_ledger_is_exact sample_ops sample_log sample_log_run). Defined.

Lemma store_implements_raft_log_witness : raft_run sample_ops (raft_log sample_log).
Proof. exact (store_implements_raft_log sample_ops sample_log sample_log_run). Defined.

Lemma log_reads_are_exact_witness : ∃ es, get_logs sample_log 2 4 = Ok es ∧
  StronglySorted (λ a b, pos_index (en_log_id a) < pos_index (en_log_id b)) es ∧
  ∀ e, e ∈ es ↔ 2 ≤ pos_index (en_log_id e) < 4 ∧ rl_entries (raft_log sample_log) !! pos_index (en_log_id e) = Some e.
Proof. exact (log_reads_are_exact sample_ops sample_log 2 4 sample_log_run ltac:(lia)). Defined.

Lemma collection_ends_witness : ∃ db', collect (S (size (db_log sample_log))) sample_log = Ok (false, db') ∧
  raft_log db' = raft_log sample_log ∧ ∀ i, is_Some (db_log db' !! i) → is_Some (rl_entries (raft_log db') !! i).
Proof. exact (collection_ends sample_ops sample_log sample_log_run). Defined.

Definition appended_more : LogDb :=
  match admit_and_append sample_log (db_last_applied sample_log) [blank 2 4; blank 3 4] with Ok db => db | _ => sample_log end.

Lemma more_sizes : Forall2 previews [blank 2 4; blank 3 4] [(4, 100); (4, 100)].
Proof. repeat constructor; eexists; split; reflexivity. Qed.

Lemma append_preview_is_exact_witness : ∃ credits,
  projected_append_usage sample_log (db_last_applied sample_log) [(4, 100); (4, 100)] = Ok credits ∧
  db_unapplied_credits appended_more = Some credits.
Proof.
  exact (append_preview_is_exact sample_log (db_last_applied sample_log) [blank 2 4; blank 3 4] [(4, 100); (4, 100)]
    appended_more eq_refl more_sizes).
Defined.

(** ** A member's clock and snapshot *)
(** ** Snapshots *)

(** A manifest whose encoding carries the length of the payload only. *)
Definition sample_manifest_of (payload_bytes : Z) : SnapshotManifest :=
  mkSnapshotManifest 1 2 "null" "{}" payload_bytes ["graphrun.state-record/v2"] 1 [].

#[export] Instance sample_manifest_codec : ManifestCodec := {
  encode_to_vec m := le_bytes32 (sn_payload_bytes m);
  decode_manifest s := Ok (sample_manifest_of (of_le_bytes s));
}.

Definition sample_source : list string := ["state"; " of the"; " member"].
Definition sample_snapshot_manifest : SnapshotManifest := sample_manifest_of 19.

Definition sample_snapshot : string * string :=
  match write_snapshot sample_source sample_snapshot_manifest with Ok file => file | _ => ("", "") end.

Lemma sample_source_ok : Forall chunk_ok sample_source.
Proof. repeat constructor; vm_compute; discriminate. Qed.

Lemma snapshot_reading_is_exact_witness :
  inspect_snapshot sample_snapshot.1 = Ok (sample_snapshot_manifest, sample_snapshot.2, "state of the member") ↔
  snapshot_layout sample_snapshot.1 sample_snapshot_manifest sample_snapshot.2 "state of the member".
Proof. exact (snapshot_reading_is_exact sample_snapshot.1 sample_snapshot_manifest sample_snapshot.2 "state of the member"). Defined.

Lemma snapshot_roundtrip_witness :
  inspect_snapshot sample_snapshot.1 = Ok (sample_snapshot_manifest, sample_snapshot.2, "state of the member").
Proof.
  exact (snapshot_roundtrip sample_source sample_snapshot_manifest sample_snapshot.1 sample_snapshot.2 eq_refl sample_source_ok eq_refl).
Defined.

Example corrupted_frame_is_refused :
  is_err (inspect_snapshot (String.substring 0 40 sample_snapshot.1 +:+ "!" +:+ String.substring 41 200 sample_snapshot.1)) = true.
Proof. reflexivity. Qed.

(** ** The clock *)
Definition reading (wall boot watermark : Z) : ClockReading := mkClockReading (Ok wall) (Ok boot) watermark.
Definition storage_lost : Error := error_new Unavailable "storage thread stopped".

(** A history of samples, each with the fault stored. *)
Definition sample_all (rs : list ClockReading) (m : ClockMember) : ClockMember :=
  foldl (λ m r, (sample m r Persisted).2) m rs.
Definition sampled_all (rs : list ClockReading) (h : list Observation) : list Observation :=
  foldl (λ h r, sampled r ++ h) h rs.

Lemma sample_all_run lossy rs m h : clock_run lossy m h → clock_run lossy (sample_all rs m) (sampled_all rs h).
Proof. revert m h. induction rs as [|r rs IH]; intros m h Hrun; [done|]. simpl. by apply IH, clock_sampled. Qed.

Definition steady_readings : list ClockReading :=
  [reading 100000 10000 99000; reading 102000 12000 99000; reading 104100 14000 99000; reading 106100 16000 99000;
   reading 108100 18000 99000; reading 110100 19999 99000].

Definition steady_member : ClockMember := sample_all steady_readings (member_started false).
Definition steady_history : list Observation := sampled_all steady_readings [Ob_Started false].
Lemma steady_run lossy : clock_run lossy steady_member steady_history.
Proof. apply sample_all_run, clock_first. Qed.

Lemma clock_time_is_trusted_witness :
  read_clocks (reading 111000 21000 99000) = Ok (111000, 21000) ∧
  trusted (Ob_Read 111000 21000 99000 :: steady_history) ∧
  ca_fault_signal (cm_authority (sample steady_member (reading 111000 21000 99000) Persisted).2) = Signal_Healthy.
Proof.
  exact (clock_time_is_trusted true steady_member steady_history (reading 111000 21000 99000) Persisted 111000 21000
    (sample steady_member (reading 111000 21000 99000) Persisted).2 (steady_run true) eq_refl).
Defined.

(** A member that restarts with a stored fault recovers. *)
Definition recovering_member : ClockMember := sample_all steady_readings (member_started true).
Definition recovering_history : list Observation := sampled_all steady_readings [Ob_Started true].
Lemma recovering_run lossy : clock_run lossy recovering_member recovering_history.
Proof. apply sample_all_run, clock_first. Qed.

Definition acknowledged_member : ClockMember :=
  (acknowledge recovering_member "clock replaced" (Ok 111000) (Ok 21000) (Ok 99500) Persisted).2.

Lemma acknowledgement_needs_recovery_witness : ∃ w b wm w0 b0 wm0 s rest,
  Ok 111000 = Ok w ∧ Ok 21000 = Ok b ∧ Ok 99500 = Ok wm ∧
  Ob_Read w b wm :: recovering_history = (Ob_Read w b wm :: s) ++ Ob_Read w0 b0 wm0 :: rest ∧
  quiet ((Ob_Read w b wm :: s) ++ [Ob_Read w0 b0 wm0]) rest ∧ Forall is_read s ∧
  10000 ≤ b - b0 ∧ Z.abs ((w - w0) - (b - b0)) ≤ 250 * Z.of_nat (S (length s)) + (b - b0) / 1000 ∧
  wm ≤ Z.max (w - 1000) 0 ∧ is_blank "clock replaced" = false ∧
  cm_stored acknowledged_member = false ∧ mo_faulted (monitor acknowledged_member) = false ∧
  ca_fault_signal (cm_authority acknowledged_member) = Signal_Healthy.
Proof.
  exact (acknowledgement_needs_recovery true recovering_member recovering_history "clock replaced" (Ok 111000) (Ok 21000) (Ok 99500)
    Persisted acknowledged_member (recovering_run true) eq_refl).
Defined.

(** A suspended member: the boot clock jumps by a minute. *)
Definition suspended_reading : ClockReading := reading 170100 79999 99000.
Definition suspended_member : ClockMember := (sample steady_member suspended_reading Persisted).2.

Lemma clock_fault_survives_restart_witness :
  ca_fault_signal (cm_authority suspended_member) ≠ Signal_Healthy ∧
  (Persisted = NotPersisted (clock_unsafe suspended_member) ∨ Persisted = PersistedUnreported (clock_unsafe suspended_member) ∨
   cm_stored suspended_member = true ∧
   ∀ r' reply' now, (sample (member_started (cm_stored suspended_member)) r' reply').1 ≠ Ok now).
Proof.
  exact (clock_fault_survives_restart steady_member steady_history suspended_reading Persisted (clock_unsafe suspended_member)
    suspended_member (steady_run false) eq_refl).
Defined.

(** Three voters, of which the second answers and the third does not. *)
Definition three_voters : Roster := mkRoster None [[1; 2; 3]] [(1, "a:1"); (2, "b:1"); (3, "c:1")].
Definition sample_network : ClusterNetwork := <[2 := "b:1"]> (<[3 := "c:1"]> ∅).
Definition sample_replies (id : Z) : ProbeReply :=
  if id =? 2 then mkProbeReply (Ok 20500) (Ok (110500, (2, 110600))) (Ok 20600) (Ok 110700)
  else mkProbeReply (Ok 20500) (Err storage_lost) (Ok 20600) (Ok 110700).

Definition sample_quorum_env : QuorumEnv :=
  mkQuorumEnv (reading 110500 20500 99000) Persisted 1 three_voters (Ok three_voters) [] sample_replies
    (reading 110800 20800 99000) Persisted three_voters.

Definition networked_member : ClockMember := configure_network sample_network steady_member.
Definition quorum_answer := sample_quorum networked_member sample_quorum_env false.
Definition sampled_quorum : FreshVoterQuorum :=
  match quorum_answer.1 with Ok q => q | _ => mkFreshVoterQuorum None ∅ 0 [] end.

Example quorum_of_two : fq_checked_boot_ms sampled_quorum = 20800 ∧ bool_decide (fq_sampled_voters sampled_quorum = {[1; 2]}) = true.
Proof. by vm_compute. Qed.

Lemma clock_quorum_is_current_witness :
  trusted (quorum_sampled networked_member sample_quorum_env false ++ steady_history) ∧
  (∃ wall boot, last_read (quorum_sampled networked_member sample_quorum_env false ++ steady_history) = Some (wall, boot) ∧
    quorum_holds networked_member sample_quorum_env false boot sampled_quorum) ∧
  (∀ voters, voters ∈ fq_voter_configs sampled_quorum →
    (length voters / 2 < length (filter (λ v, v ∈ fq_sampled_voters sampled_quorum) voters))%nat) ∧
  ∀ other other_voters voters,
    joint_quorum (fq_voter_configs other) other_voters = true → fq_voter_configs other = fq_voter_configs sampled_quorum →
    voters ∈ fq_voter_configs sampled_quorum → ∃ v, v ∈ voters ∧ v ∈ fq_sampled_voters sampled_quorum ∧ v ∈ other_voters.
Proof.
  exact (clock_quorum_is_current true networked_member steady_history sample_quorum_env false sampled_quorum quorum_answer.2
    (clock_configured true _ _ sample_network (steady_run true)) eq_refl).
Defined.
