(* ===== verification/RecordWitness.v ===== *)
(** * The records of a sample state

    A serializer that computes, a state with rows of every kind among the rows of
    a retired run, and the theorems of [RecordFragments] at them. *)
From stdpp Require Import base option gmap strings list countable sorting.
From Stdlib Require Import ZArith Ascii Lia.
From S2P Require Import Prelude Value ValueFacts Ids Policy Catalog Ir Domain Eval Evolve History FormatUpgrade RecordStore RowDelta RecordFacts RecordDecode RecordFragments DeltaFacts Sample.

(** ** A serializer *)
Definition JsonTree : Type := gen_tree (bool + Z + string + string).

Fixpoint json_tree (j : Json) : JsonTree :=
  match j with
  | JNull => GenNode 0 []
  | JBool b => GenLeaf (inl (inl (inl b)))
  | JInt n => GenLeaf (inl (inl (inr n)))
  | JFloat text => GenLeaf (inl (inr text))
  | JString s => GenLeaf (inr s)
  | JArray items => GenNode 1 (json_tree <$> items)
  | JObject entries => GenNode 2 ((λ e, GenNode 3 [GenLeaf (inr e.1); json_tree e.2]) <$> entries)
  end.

Fixpoint tree_json (t : JsonTree) : Json :=
  match t with
  | GenLeaf (inl (inl (inl b))) => JBool b
  | GenLeaf (inl (inl (inr n))) => JInt n
  | GenLeaf (inl (inr text)) => JFloat text
  | GenLeaf (inr s) => JString s
  | GenNode 1 items => JArray (tree_json <$> items)
  | GenNode 2 entries =>
      JObject ((λ e, match e with GenNode 3 [GenLeaf (inr k); v] => (k, tree_json v) | _ => ("", JNull) end) <$> entries)
  | GenNode _ _ => JNull
  end.

Lemma tree_json_tree j : tree_json (json_tree j) = j.
Proof.
  revert j. apply json_ind'; [by intros []| |].
  - intros items Hitems. simpl. f_equal. induction Hitems as [|j items Hj _ IH]; [done|]. cbn [fmap list_fmap]. f_equal; [exact Hj|exact IH].
  - intros entries Hentries. simpl. f_equal. induction entries as [|[k j] entries IH]; [done|].
    inversion Hentries as [|? ? Hj Hrest]; subst. cbn [fmap list_fmap]. f_equal; [|exact (IH Hrest)]. simpl in *. by rewrite Hj.
Qed.

#[export] Instance json_eq_dec : EqDecision Json.
Proof. refine (inj_eq_dec json_tree). intros a b Heq. by rewrite <- (tree_json_tree a), Heq, tree_json_tree. Defined.

#[export] Instance json_countable : Countable Json := inj_countable' json_tree tree_json tree_json_tree.

#[export] Instance record_eq_dec : EqDecision VersionedRecord.
Proof. solve_decision. Defined.

#[export] Instance record_countable : Countable VersionedRecord :=
  inj_countable' (λ r, (vr_format r, vr_revision r, vr_order r, vr_value r))
    (λ x, let '(format, revision, order, value) := x in mkVersionedRecord format revision order value)
    (λ r, match r with mkVersionedRecord _ _ _ _ => eq_refl end).

#[export] Instance header_eq_dec : EqDecision FragmentHeader.
Proof. solve_decision. Defined.

#[export] Instance header_countable : Countable FragmentHeader :=
  inj_countable' (λ h, (fh_format h, fh_bytes h, fh_chunks h, fh_sha256 h))
    (λ x, let '(format, bytes, chunks, sha256) := x in mkFragmentHeader format bytes chunks sha256)
    (λ h, match h with mkFragmentHeader _ _ _ _ => eq_refl end).

Fixpoint bits (p : positive) : string :=
  match p with xH => "" | xO p => String "0"%char (bits p) | xI p => String "1"%char (bits p) end.
Fixpoint unbits (s : string) : positive :=
  match s with "" => xH | String "0" s => xO (unbits s) | String _ s => xI (unbits s) end.

Lemma unbits_bits p : unbits (bits p) = p.
Proof. induction p as [p IH|p IH|]; simpl; by rewrite ?IH. Qed.

Definition text_of {A} `{Countable A} (tag : ascii) (x : A) : string := String tag (bits (countable.encode x)).
Definition of_text {A} `{Countable A} (tag : ascii) (s : string) : Outcome A :=
  match s with
  | String c s => if Ascii.eqb c tag then ok_or (countable.decode (unbits s)) (error_invalid "not a record") else Err (error_invalid "tag")
  | "" => Err (error_invalid "end of input")
  end.

Lemma of_text_of {A} `{Countable A} tag (x : A) : of_text tag (text_of tag x) = Ok x.
Proof. unfold of_text, text_of. by rewrite Ascii.eqb_refl, unbits_bits, decode_encode. Qed.

#[export] Instance sample_records : RecordSerde := {
  record_to_json := λ r, Ok (text_of "R"%char r);
  record_from_json := of_text "R"%char;
  header_to_json := λ h, Ok (text_of "H"%char h);
  header_from_json := of_text "H"%char;
}.

#[export] Instance sample_record_laws : RecordSerdeLaws sample_records.
Proof.
  split.
  - intros r _ _ _. eexists. split; [done|]. apply of_text_of.
  - by intros r bytes [= <-].
  - intros h. eexists. split; [done|]. apply of_text_of.
Qed.

(** ** A state and its document *)
Definition run_a : RunId.t := RunId.from_bytes "AAAAAAAAAAAAAAAA".
Definition run_b : RunId.t := RunId.from_bytes "BBBBBBBBBBBBBBBB".
Definition hex_a : string := RunId.to_hex run_a.
Definition hex_b : string := RunId.to_hex run_b.

Definition empty_document : list (string * Json) :=
  [("engine_time_watermark_ms", JInt 0); ("format_policy", JString "stable"); ("history", JObject []); ("inbox", JArray []);
   ("obligations", JArray []); ("published_definitions", JObject []); ("runs", JObject []); ("start_keys", JObject []);
   ("terminal_summaries", JObject [])].

Definition full_document (watermark : Z) : list (string * Json) :=
  [("command_actors", JObject [("c1", JString "alice")]);
   ("engine_time_watermark_ms", JInt watermark);
   ("format_policy", JString "stable");
   ("history", JObject [(hex_a, JArray [JString "started"; JString "signalled"])]);
   ("inbox", JArray [JObject [("event_id", JString "e1"); ("run", JString hex_a)]; JObject [("event_id", JString "e2"); ("run", JString hex_a)]]);
   ("obligations", JArray []);
   ("published_definitions", JObject [("order", JObject [("1", JString "digest")])]);
   ("runs", JObject [(hex_a, JObject [("status", JString "Running")])]);
   ("start_keys", JObject [("order", JObject [("k1", JObject [("run", JString hex_a)])])]);
   ("terminal_summaries", JObject [(hex_b, JObject [("status", JString "Completed")])])].

(** One command later: the run has done a step and consumed a signal, its start key
    is gone, and an obligation is there. *)
Definition later_document : list (string * Json) :=
  [("command_actors", JObject [("c1", JString "alice"); ("c2", JString "bob")]);
   ("engine_time_watermark_ms", JInt 43);
   ("format_policy", JString "stable");
   ("history", JObject [(hex_a, JArray [JString "started"; JString "signalled"; JString "stepped"])]);
   ("inbox", JArray [JObject [("event_id", JString "e2"); ("run", JString hex_a)]]);
   ("obligations", JArray [JObject [("forward", JString "f1"); ("run", JString hex_a)]]);
   ("published_definitions", JObject [("order", JObject [("1", JString "digest")])]);
   ("runs", JObject [(hex_a, JObject [("status", JString "Compensating")])]);
   ("start_keys", JObject []);
   ("terminal_summaries", JObject [(hex_b, JObject [("status", JString "Completed")])])].

#[export] Instance sample_states : StateSerde := {
  state_to_value := λ s, Ok (JObject (
    if engine_time_watermark_ms s =? 0 then empty_document
    else if engine_time_watermark_ms s =? 43 then later_document
    else full_document (engine_time_watermark_ms s)));
  state_from_value := λ j,
    match json_get "engine_time_watermark_ms" j with
    | Some (JInt n) => Ok (upd_watermark (λ _, n) state_default)
    | _ => Err (error_invalid "missing field")
    end;
}.

Definition stored_state : State := upd_watermark (λ _, 42) state_default.

Lemma stored_state_documented : documented stored_state empty_document (full_document 42).
Proof. split; done || vm_compute; done. Qed.

Definition stored_rows : Rows := from_ok ∅ (RecordStore.encode stored_state 3 7).

Lemma stored_rows_ok : RecordStore.encode stored_state 3 7 = Ok stored_rows.
Proof. apply from_ok_eq. vm_compute. reflexivity. Qed.

(** The rows with those of a retired run and its marker among them, reversed. *)
Definition retired_row : string * string := from_ok ("", "") (retired_marker 3 7 run_b).
Definition hidden_row : string * string :=
  (record_key 3 (mkRowKey (Some hex_b) "history" "sequence" (dec20 1) None), "not even a record").
Definition mixed_rows : list (string * string) := reverse (retired_row :: hidden_row :: map_to_list stored_rows).

Lemma mixed_rows_keys : NoDup mixed_rows.*1.
Proof. apply (bool_decide_unpack _). vm_compute. exact I. Qed.

Lemma mixed_rows_visible :
  filter (λ row, visible_row {[run_b]} (list_to_set (omap (λ row, summarized_run row.1) mixed_rows)) row.1 = true) mixed_rows
  = reverse (map_to_list stored_rows).
Proof. vm_compute. done. Qed.

Lemma mixed_rows_perm :
  filter (λ row, visible_row {[run_b]} (list_to_set (omap (λ row, summarized_run row.1) mixed_rows)) row.1 = true) mixed_rows
  ≡ₚ map_to_list stored_rows.
Proof. rewrite mixed_rows_visible. apply reverse_Permutation. Qed.


Lemma stored_rows_small key bytes : stored_rows !! key = Some bytes → zlen_string bytes ≤ MAX_RECORD_BYTES.
Proof.
  revert key bytes. apply (map_Forall_to_list (λ _ bytes, zlen_string bytes ≤ MAX_RECORD_BYTES)).
  apply (bool_decide_unpack _). vm_compute. exact I.
Qed.


(** ** Writing the difference *)
Definition later_state : State := upd_watermark (λ _, 43) state_default.
Definition stored_table : Rows := from_ok ∅ (frame_records (map_to_list stored_rows)).
Definition stored_plain : Rows := from_ok ∅ (RecordStore.encode stored_state 3 1).
Definition later_rows : Rows := from_ok ∅ (RecordStore.encode later_state 3 9).

Lemma later_state_documented : documented later_state empty_document later_document.
Proof. split; done || vm_compute; done. Qed.

Lemma stored_plain_ok : RecordStore.encode stored_state 3 1 = Ok stored_plain.
Proof. apply from_ok_eq. vm_compute. reflexivity. Qed.

Lemma later_rows_ok : RecordStore.encode later_state 3 9 = Ok later_rows.
Proof. apply from_ok_eq. vm_compute. reflexivity. Qed.

Lemma stored_table_stores : stores stored_table 3 stored_plain.
Proof.
  apply (written_stores stored_table stored_state empty_document (full_document 42) 3 7 1 stored_rows); [..|apply stored_rows_small|].
  - apply stored_state_documented.
  - vm_compute. split; discriminate.
  - vm_compute. split; discriminate.
  - apply stored_rows_ok.
  - apply stored_plain_ok.
  - apply from_ok_eq. vm_compute. reflexivity.
Qed.

Lemma later_rows_small key value w :
  later_rows !! key = Some value → for_writer value 5 = Ok w → zlen_string w ≤ MAX_RECORD_BYTES.
Proof.
  intros Hv Hw. cut (zlen_string (from_ok "" (for_writer value 5)) ≤ MAX_RECORD_BYTES); [by rewrite Hw|]. clear w Hw. revert key value Hv.
  apply (map_Forall_to_list (λ _ value, zlen_string (from_ok "" (for_writer value 5)) ≤ MAX_RECORD_BYTES)).
  apply (bool_decide_unpack _). vm_compute. exact I.
Qed.


(** A row that is hidden by no marker must be one of the state's. *)
Example stray_rows_are_refused : is_err (RecordStore.decode (hidden_row :: map_to_list stored_rows) 3) = true.
Proof. vm_compute. reflexivity. Qed.
Example missing_rows_are_refused :
  is_err (RecordStore.decode (map_to_list (delete (order_key 3 "inbox") stored_rows)) 3) = true.
Proof. vm_compute. reflexivity. Qed.
