(* ===== verification/AppliedWitness.v ===== *)
(** * The rows of a sample entry

    A serializer of states that writes the maps a command touches, the entry that
    moves the sample run to its wait, and the theorems of [AppliedFacts] and
    [LocalFacts] at it. *)
From stdpp Require Import base option gmap strings list fin_maps sorting.
From Stdlib Require Import ZArith Ascii Lia.
From S2P Require Import Prelude Value Ids Policy Catalog Ir Domain Eval Evolve History Publication FormatUpgrade RecordStore RowDelta Applied EntryRows RecordFacts RecordWitness Steps Schedule Command Sample EvolveFacts CommandFacts AppliedFacts LocalFacts WorkerWitness.

(** ** Serializers *)
Definition sorted_object (entries : list (string * Json)) : Json := JObject (foldr (λ e, str_insert e.1 e.2) [] entries).
Definition run_value (run : RunId.t) : Json := JObject [("run", JString (RunId.to_hex run))].
Definition inbox_value (e : InboxEntry) : Json :=
  JObject [("event_id", JString (EventId.to_hex (ie_event_id e))); ("run", match ie_run e with Some run => JString (RunId.to_hex run) | None => JNull end)].
Definition obligation_value (o : Obligation) : Json :=
  JObject [("forward", JString (ActivationId.to_hex (ob_forward o))); ("run", JString (RunId.to_hex (ob_run o)))].

(** The maps of runs, scopes, activations and waits, the histories, the lists and
    the scalars; the rest of the state is left out. *)
Definition state_document (s : State) : list (string * Json) :=
  [("activations", sorted_object ((λ x, (ActivationId.to_hex x.1, run_value (as_run x.2))) <$> map_to_list (activations s)));
   ("artifact_origins", JInt (Z.of_nat (size (artifact_origins s))));
   ("commands", sorted_object ((λ x, (CommandId.to_hex x.1, JInt (zlen x.2))) <$> map_to_list (commands s)));
   ("current_cluster_id", JString (current_cluster_id s));
   ("engine_time_watermark_ms", JInt (engine_time_watermark_ms s));
   ("fair_cursor", JNull);
   ("history", sorted_object ((λ x, (RunId.to_hex x.1, JArray ((λ _, JString "event") <$> x.2))) <$> map_to_list (history s)));
   ("history_records", sorted_object ((λ x, (RunId.to_hex x.1, JArray ((λ r, JInt (he_sequence r)) <$> x.2))) <$> map_to_list (history_records s)));
   ("inbox", JArray (inbox_value <$> inbox s));
   ("next_generation", JInt (next_generation s));
   ("obligations", JArray (obligation_value <$> obligations s));
   ("recovery", JNull);
   ("runs", sorted_object ((λ x, (RunId.to_hex x.1, JInt (rs_next_sequence x.2))) <$> map_to_list (runs s)));
   ("scopes", sorted_object ((λ x, (ScopeId.to_hex x.1, run_value (ss_run x.2))) <$> map_to_list (scopes s)));
   ("waits", sorted_object ((λ x, (WaitId.to_hex x.1, run_value (wt_run x.2))) <$> map_to_list (waits s)))].

#[local] Instance entry_states : StateSerde := {
  state_to_value := λ s, Ok (JObject (state_document s));
  state_from_value := λ _, Err (error_invalid "not read");
}.

#[local] Instance entry_items : ItemSerde := {
  event_json := λ _, Ok (JString "event");
  history_entry_json := λ r, Ok (JInt (he_sequence r));
  inbox_json := λ e, Ok (inbox_value e);
  obligation_json := λ o, Ok (obligation_value o);
  command_result_json := λ r, Ok (JInt (cr_recorded_ms r));
  published_catalog_json := λ c, Ok (JString (pc_digest c));
  published_definition_json := λ d, Ok (JString (pd_digest d));
  start_key_json := λ k, Ok (run_value (sr_run k));
  format_policy_json := λ p, Ok (JInt (fp_active_writer p));
  format_receipt_json := λ r, Ok (JString (fr_message r));
  terminal_summary_json := λ t, Ok (JString (ts_status t));
}.

(** ** The entry *)
Definition sample_run : RunId.t := Sample.run_a.
Definition wait_id : CommandId.t := cmd_id (sample_command "progress" (Cmd_Progress sample_run) 3000).
Definition wait_events : list DomainEvent := fst (from_ok ([], paid) (commit paid "progress" (Cmd_Progress sample_run) 3000)).
Definition paid_rows : Rows := from_ok ∅ (RecordStore.encode paid 3 5).
Definition paid_table : Rows := from_ok ∅ (frame_records (map_to_list paid_rows)).
Definition written_entry : Rows * State :=
  from_ok (∅, paid) (write_applied_delta 5 paid_table waiting 3 9 [sample_run] wait_events (Some wait_id) []).

Lemma written_entry_ok : write_applied_delta 5 paid_table waiting 3 9 [sample_run] wait_events (Some wait_id) [] = Ok written_entry.
Proof. ok_result. Qed.

(** A row of another run, which the entry does not read. *)
Definition foreign_key : string := run_map_key 3 Sample.run_b "runs".
Definition shared_table : Rows := <[foreign_key := "not even a record"]> paid_table.
Definition shared_entry : Rows * State :=
  from_ok (∅, paid) (write_applied_delta 5 shared_table waiting 3 9 [sample_run] wait_events (Some wait_id) []).

Lemma applied_rows_are_local_witness : shared_entry.1 !! foreign_key = Some "not even a record".
Proof.
  trans (shared_table !! foreign_key); [|evaluate].
  apply (applied_rows_are_local 5 shared_table waiting 3 9 [sample_run] wait_events (Some wait_id) [] shared_entry.1 shared_entry.2).
  - trans (Ok shared_entry); [ok_result|by destruct shared_entry].
  - intros [_ [Hkeep|[Hglobal _]]]; [vm_compute in Hkeep; discriminate|vm_compute in Hglobal; discriminate].
Defined.

(** ** Its schedule *)
Definition paid_view : Rows := av_rows (from_ok (mkAppliedRecordView ∅ ∅) (read_applied_records paid_table 3 [sample_run] (Some wait_id) [])).
Definition selected_state : State :=
  from_ok paid (select_applied waiting 3 [sample_run] wait_events (Some wait_id) [] paid_view).
Definition waiting_events_applied : State := from_ok paid (apply_events_with_cause paid wait_events (Some wait_id) None 3000).

Lemma selected_state_schedules_witness :
  schedule_from_state selected_state sample_run true 3000 3 9 = schedule_from_state waiting sample_run true 3000 3 9 ∧
  sch_deadline_ms <$> schedule_from_state selected_state sample_run true 3000 3 9 = Some (Some 4000).
Proof.
  split; [|evaluate].
  apply (selected_state_schedules paid waiting_events_applied waiting 3 [sample_run] wait_events (Some wait_id) [] paid_view
    selected_state sample_run true 3000 9 (Some wait_id) None 3000).
  - ok_result.
  - evaluate.
  - evaluate.
  - apply ids_wf_decide. evaluate.
  - intros w wt act Hw Ha.
    assert (map_Forall (λ (_ : WaitId.t) wt, as_run <$> activations waiting !! wt_activation wt = Some (wt_run wt)) (waits waiting)) as Hall by by_decision.
    pose proof (map_Forall_lookup_1 _ _ _ _ Hall Hw) as Hrow. cbv beta in Hrow. rewrite Ha in Hrow. by injection Hrow.
  - split.
    + intros a act Ha _.
      assert (map_Forall (λ a (_ : ActivationState), is_Some (paid_view !! run_row 3 sample_run "activations" (ActivationId.to_hex a))) (activations paid)) as Hall by by_decision.
      exact (map_Forall_lookup_1 _ _ _ _ Hall Ha).
    + intros w wt Hw _.
      assert (map_Forall (λ w (_ : WaitState), is_Some (paid_view !! run_row 3 sample_run "waits" (WaitId.to_hex w))) (waits paid)) as Hall by by_decision.
      exact (map_Forall_lookup_1 _ _ _ _ Hall Hw).
  - by left.
  - ok_result.
Defined.

(** ** A list with gaps in its numbers *)
Definition list_entry (id : string) : Json := JObject [("event_id", JString id); ("run", JString (RunId.to_hex sample_run))].
Definition numbered (rows : Rows) (entry : string * Z) : Outcome Rows :=
  RecordStore.insert 3 5 rows (mkRowKey (Some (RunId.to_hex sample_run)) "inbox" "list" entry.1 None, Some entry.2, list_entry entry.1).
Definition ordered_below (limit : Z) (bytes : string) : bool :=
  match record_from_json bytes with
  | Ok r => match vr_order r with Some order => (0 <=? order) && (order <? limit) | None => true end
  | _ => true
  end.
Definition gapped_rows : Rows :=
  from_ok ∅ (rows ← outcome_fold numbered ∅ [("e2", 1); ("e5", 3)]; RecordStore.insert 3 5 rows (order_row "inbox", None, JInt 7)).
Definition appended_list : Rows :=
  from_ok ∅ (append_list 3 9 [sample_run] gapped_rows ∅ ("inbox", Ok [list_entry "e2"; list_entry "e5"; list_entry "e9"; list_entry "e10"])).

Lemma list_order_survives_witness :
  number_of 3 appended_list "inbox" (list_entry "e9") = Some 7 ∧
  ∃ orders next, stored_counter 3 appended_list "inbox" = Ok next ∧ 7 ≤ next ∧
    Forall2 (λ value order, number_of 3 appended_list "inbox" value = Some order)
      ([list_entry "e2"; list_entry "e5"] ++ [list_entry "e9"; list_entry "e10"]) orders ∧
    StronglySorted Z.lt orders ∧ Forall (λ order, order < next) orders ∧ take 2 orders = [1; 3].
Proof.
  split; [evaluate|].
  assert ([1; 3] = omap (number_of 3 gapped_rows "inbox") [list_entry "e2"; list_entry "e5"]) as -> by evaluate.
  apply (list_order_survives 3 9 [sample_run] gapped_rows "inbox" [list_entry "e2"; list_entry "e5"] [list_entry "e9"; list_entry "e10"] 7 ∅ appended_list).
  - ok_result.
  - evaluate.
  - repeat constructor; (eexists _, _; split; [evaluate|vm_compute; by left]).
  - by_decision.
  - vm_compute. split; discriminate.
  - intros value order Hn. unfold number_of in Hn.
    destruct (entry_row 3 "inbox" value) as [key|]; [|done]. simpl in Hn. destruct (gapped_rows !! key) as [bytes|] eqn:Hb; [|done]. simpl in Hn.
    assert (map_Forall (λ (_ : string) bytes, ordered_below 7 bytes) gapped_rows) as Hall by by_decision.
    pose proof (map_Forall_lookup_1 _ _ _ _ Hall Hb) as Hrow. cbv beta in Hrow. unfold ordered_below in Hrow. simpl in Hrow.
    destruct (of_text "R"%char bytes) as [r| |]; [|done..]. destruct (vr_order r); [|done]. injection Hn as <-.
    apply Is_true_true, andb_prop in Hrow. lia.
  - by_decision.
  - repeat constructor.
  - by_decision.
Defined.
