(* ===== verification/PublicationWitness.v ===== *)
(** * The theorems on publications and members at concrete states *)
From stdpp Require Import base option gmap strings list fin_maps relations.
From Stdlib Require Import ZArith Ascii Lia.
From S2P Require Import Prelude Value Ids Policy Catalog Ir Analysis Equality Domain Eval Evolve History Steps Command Publication FormatUpgrade Schedule Retention Replica Reopen AnalysisFacts EvolveFacts ClaimFacts SignalFacts CommandFacts HistoryFacts FormatFacts PublicationFacts PublishedFacts ReplicaFacts UpgradeFacts StoredFacts EngineFacts ReopenFacts Sample WorkerWitness.

(** ** A published workflow *)
#[export] Instance sample_operation_serde : OperationSerde := {
  operation_to_value := λ op, inr (JString (operation_target op));
  operation_to_text := λ op, inr (operation_target op);
  operation_debug := λ op, operation_target op;
}.

Definition sample_key (n : string) : CommandKey :=
  mkCommandKey sample_cluster "alice" (CommandId.from_bytes (sixteen n)).

Definition published_order : Definition_ :=
  mkDefinition (def_format_version order) (def_dsl order) (def_id order) (def_version order)
    (def_input_schema order) (def_output_schema order) (def_signals order) (def_run_timeout_ms order)
    (def_root order) (from_ok "" (digest_of order)).

Definition publish_catalog : PublicationOperation := PublicationOperation_Catalog 1 sample_catalog.
Definition publish_order : PublicationOperation := PublicationOperation_Definition published_order 1.
Definition start_order : PublicationOperation := PublicationOperation_Start "order" None "first" (VInt 7).
Definition start_again : PublicationOperation := PublicationOperation_Start "order" (Some 1) "first" (VInt 7).

Definition publication (n : string) (op : PublicationOperation) (time : Z) : Command :=
  mkCommand (CommandId.from_bytes (sixteen n)) (Cmd_Publication (sample_key n) op) time.

Definition no_result : CommandResult :=
  mkCommandResult "" (sample_key "") "" "" "" (Disposition_Rejected "" "") None 0.
Definition publish (s : State) (n : string) (op : PublicationOperation) (time : Z) : CommandResult * State :=
  from_ok (no_result, s) (apply_with_mode s (publication n op time) (sample_key n) op true).

Definition with_catalog : State := (publish empty_engine "catalog" publish_catalog 1000).2.
Definition with_order : State := (publish with_catalog "order" publish_order 1000).2.
Definition order_start : CommandResult * State := publish with_order "go" start_order 1000.
Definition order_prune : Command := sample_command "prune" (Cmd_PruneHistory 16) 1200.
Definition order_pruned : list DomainEvent * State :=
  from_ok ([], order_start.2) (commit_retention order_start.2 order_prune 16).
Definition order_again : CommandResult * State := publish order_pruned.2 "retry" start_again 1500.
Definition order_run : RunId.t := (published_start_ids (sample_key "go")).1.1.

Lemma publish_ok s n op time :
  is_ok (apply_with_mode s (publication n op time) (sample_key n) op true) = true →
  apply_with_mode s (publication n op time) (sample_key n) op true =
    Ok ((publish s n op time).1, (publish s n op time).2).
Proof. intros Hok. unfold publish. rewrite <-surjective_pairing. by apply from_ok_eq. Qed.

Lemma publish_step s n op time :
  is_ok (apply_with_mode s (publication n op time) (sample_key n) op true) = true →
  commands s !! (published_start_ids (sample_key n)).1.2 = None →
  live_step s (publish s n op time).2.
Proof.
  intros Hok%publish_ok Hf. apply apply_with_mode_ok in Hok as (digest & _ & _ & Ha).
  eapply (step_publication _ s (publication n op time)); [by left|exact Hf|exact Ha].
Qed.

Lemma with_catalog_step : live_step empty_engine with_catalog.
Proof. apply publish_step; evaluate. Qed.
Lemma with_order_step : live_step with_catalog with_order.
Proof. apply publish_step; evaluate. Qed.
Lemma order_start_step : live_step with_order order_start.2.
Proof. apply publish_step; evaluate. Qed.

Lemma with_order_reachable : reachable with_order.
Proof.
  apply (reachable_step with_catalog with_order); [|by_decision|apply step_live, with_order_step].
  apply (reachable_step empty_engine with_catalog); [|by_decision|apply step_live, with_catalog_step].
  apply (reachable_init sample_cluster None).
Qed.
Lemma order_start_reachable : reachable order_start.2.
Proof. apply (reachable_step with_order order_start.2); [apply with_order_reachable|by_decision|apply step_live, order_start_step]. Qed.

Lemma order_start_applied :
  apply_with_mode with_order (publication "go" start_order 1000) (sample_key "go") start_order true =
    Ok (order_start.1, order_start.2).
Proof. apply publish_ok. evaluate. Qed.

Lemma order_again_applied :
  apply_with_mode order_pruned.2 (publication "retry" start_again 1500) (sample_key "retry") start_again true =
    Ok (order_again.1, order_again.2).
Proof. apply publish_ok. evaluate. Qed.

Lemma go_is_new : bt_get (storage_key (sample_key "go")) (command_results with_order) = None.
Proof. evaluate. Qed.
Lemma retry_is_new : bt_get (storage_key (sample_key "retry")) (command_results order_pruned.2) = None.
Proof. evaluate. Qed.
Lemma order_pruned_step : key_step "order" "first" order_start.2 order_pruned.2.
Proof.
  apply (key_retention _ _ _ _ order_prune 16 order_pruned.1); [|evaluate].
  unfold order_pruned. rewrite <-surjective_pairing. ok_result.
Qed.
Lemma order_started : applied_run order_start.1 = Ok order_run.
Proof. evaluate. Qed.

Lemma publication_is_idempotent_witness :
  apply_with_mode order_start.2 (publication "go" start_order 9000) (sample_key "go") start_order false =
    Ok (order_start.1, order_start.2) ∧
  cr_outcome order_start.1 = Disposition_Applied (Some order_run) (Some (def_digest published_order)) (Some 1).
Proof.
  split; [|evaluate].
  exact (proj1 (publication_is_idempotent with_order (publication "go" start_order 1000) (sample_key "go") start_order true
    order_start.1 order_start.2 (publication "go" start_order 9000) false go_is_new order_start_applied)).
Defined.

Lemma published_content_is_immutable_witness :
  bt_get 1 (published_catalogs order_start.2) = bt_get 1 (published_catalogs with_catalog) ∧
  is_Some (bt_get 1 (published_catalogs order_start.2)).
Proof.
  assert (is_Some (bt_get 1 (published_catalogs with_catalog))) as [p Hp] by by_decision.
  assert (rtc live_step with_catalog order_start.2) as Hsteps.
  { eapply rtc_l; [apply with_order_step|]. eapply rtc_l; [apply order_start_step|]. apply rtc_refl. }
  pose proof (proj1 (published_content_is_immutable _ _ Hsteps) 1 p Hp) as Hq. rewrite Hp, Hq. eauto.
Defined.

Lemma start_key_starts_one_run_witness :
  applied_run order_again.1 = Ok order_run ∧ runs order_again.2 = runs order_pruned.2.
Proof.
  split; [evaluate|].
  exact (proj1 (start_key_starts_one_run with_order (publication "go" start_order 1000) (sample_key "go") "order" None
    "first" (VInt 7) true order_start.1 order_start.2 order_run order_pruned.2 (publication "retry" start_again 1500)
    (sample_key "retry") (Some 1) (VInt 7) true order_again.1 order_again.2
    go_is_new order_start_applied order_started (rtc_once _ _ order_pruned_step) retry_is_new order_again_applied)).
Defined.

Definition order_run_state : RunState :=
  default (provisional_run order_run order sample_catalog None) (runs order_start.2 !! order_run).
Definition order_pin : PinnedPublication :=
  default (mkPinnedPublication 0 "" 0 "" "") (rs_published order_run_state).

Lemma order_run_found : runs order_start.2 !! order_run = Some order_run_state.
Proof. evaluate. Qed.
Lemma order_run_pinned : rs_published order_run_state = Some order_pin.
Proof. evaluate. Qed.

Lemma published_run_is_sound_witness :
  pp_catalog_version order_pin = 1 ∧
  validate_definition (rs_definition order_run_state) (rs_catalog order_run_state) = Ok tt ∧
  ∃ d, find_definition order_start.2 "order" 1 = Some d ∧ pd_definition d = rs_definition order_run_state.
Proof.
  split; [evaluate|].
  destruct (published_run_is_sound order_start.2 order_run order_run_state order_pin order_start_reachable
    order_run_found order_run_pinned) as [(d & p & Hd & Hdef & _) [Hv _]].
  split; [exact Hv|]. exists d. split; [|exact Hdef]. rewrite <-Hd. evaluate.
Defined.

Lemma publications_are_consistent_witness :
  is_Some (find_start_key order_start.2 "order" "first") ∧
  ∃ record, find_start_key order_start.2 "order" "first" = Some record ∧
    (is_Some (runs order_start.2 !! sr_run record) ∨ is_Some (terminal_summaries order_start.2 !! sr_run record)).
Proof.
  assert (is_Some (find_start_key order_start.2 "order" "first")) as [record Hr] by by_decision.
  split; [by rewrite Hr|]. exists record. split; [exact Hr|].
  exact (proj2 (proj2 (publications_are_consistent _ order_start_reachable)) _ _ _ Hr).
Defined.

(** ** A cluster of one member that upgrades its writer format *)
Definition bound_manifest : StoreManifest :=
  mkStoreManifest (sm_format manifest_new) 4 4 1 (Some sample_cluster) (Some 1) (sm_domain_format manifest_new)
    (sm_state_record_format manifest_new) FRAGMENT_FORMAT ARTIFACT_FORMAT EVENT_FORMAT CHECKPOINT_FORMAT RESULT_FORMAT
    base_domain_formats base_event_formats base_checkpoint_formats base_command_formats base_record_formats.

Definition member_new : Member :=
  mkMember bound_manifest None (mkRoster None [] []) empty_engine (mkScheduleIndex [] None 0).

Definition log_at (index : Z) : Position := mkPosition 1 1 index.
Definition roster_entry : Entry := mkEntry (log_at 1) (Payload_Membership [[1]] [(1, "node-1")]).

Definition apply_entry (m : Member) (e : Entry) : RaftResponse * Member :=
  from_ok (reply_default, m) (apply_one_entry m e).

Definition member_joined : Member := (apply_entry member_new roster_entry).2.
Definition no_proof : ReaderProof := mkReaderProof "" "" 0 None 0 None 0 [] [] [] [] [] [] [] [].
Definition prepared : ReaderProof * Member :=
  from_ok (no_proof, member_joined) (prepare_format_readers member_joined 5 (Some (log_at 1)) true (Ok tt)).

Definition admin_entry (index : Z) (n : string) (body : CommandBody) : Entry :=
  mkEntry (log_at index) (Payload_Normal (mkRaftRequest
    (mkCommand (CommandId.from_bytes (sixteen n)) (Cmd_Authenticated "alice" body) 1000) 4)).
Definition prepare_entry : Entry :=
  admin_entry 2 "prepare" (Cmd_PrepareWriterFormat [prepared.1] (Some (log_at 1))).
Definition activate_body : CommandBody := Cmd_ActivateWriterFormat (Some (log_at 1)) 5.
Definition activate_entry : Entry := admin_entry 3 "activate" activate_body.
Definition member_ready : Member := (apply_entry prepared.2 prepare_entry).2.
Definition activate_request : RaftRequest :=
  mkRaftRequest (mkCommand (CommandId.from_bytes (sixteen "activate")) (Cmd_Authenticated "alice" activate_body) 1000) 4.
Definition member_upgraded : Member := (apply_entry member_ready activate_entry).2.

Lemma apply_entry_ok m e :
  is_ok (apply_one_entry m e) = true → apply_one_entry m e = Ok ((apply_entry m e).1, (apply_entry m e).2).
Proof. intros Hok. unfold apply_entry. rewrite <-surjective_pairing. by apply from_ok_eq. Qed.

Lemma prepared_ok :
  prepare_format_readers member_joined 5 (Some (log_at 1)) true (Ok tt) = Ok (prepared.1, prepared.2).
Proof. unfold prepared. rewrite <-surjective_pairing. ok_result. Qed.

Lemma member_new_wf : member_wf member_new.
Proof. split; [evaluate..|]. apply validate_persisted_spec. evaluate. Qed.

Definition system_at (m : Member) (applied : nat) (log : list Entry) (issued : list ReaderProof) : System :=
  mkSystem {[ 1 := mkNode m applied ]} log issued.

Lemma system_at_insert m applied m' applied' :
  <[1 := mkNode m' applied']> ({[ 1 := mkNode m applied ]} : gmap Z Node) = {[ 1 := mkNode m' applied' ]}.
Proof. apply insert_singleton_eq. Qed.

Lemma system_apply m m' applied log issued e :
  log !! applied = Some e → entry_fresh m e → apply_one_entry m e = Ok ((apply_entry m e).1, m') →
  system_step (system_at m applied log issued) (system_at m' (S applied) log issued).
Proof.
  intros Hlog Hf Ha. unfold system_at. rewrite <-(system_at_insert m applied m' (S applied)).
  exact (sys_apply (system_at m applied log issued) 1 (mkNode m applied) e _ m'
    (lookup_singleton_eq (1 : Z) (mkNode m applied)) Hlog Hf Ha).
Qed.

Lemma system_ready :
  system_reachable (system_at member_ready 2 [roster_entry; prepare_entry; activate_entry] [prepared.1]).
Proof.
  unfold system_reachable.
  eapply rtc_l; [apply (sys_join _ 1 member_new); split_and!; [done|apply member_new_wf|done|done|by intros ? ?%elem_of_nil]|].
  cbn [sy_nodes sy_log sy_issued]. change (<[1:=mkNode member_new 0]> ∅ : gmap Z Node) with ({[ 1 := mkNode member_new 0 ]} : gmap Z Node).
  eapply rtc_l; [apply (sys_commit _ roster_entry); constructor|]. cbn [sy_nodes sy_log sy_issued app].
  eapply rtc_l; [apply (system_apply member_new member_joined 0 [roster_entry] [] roster_entry);
    [done|done|apply apply_entry_ok; evaluate]|].
  eapply rtc_l; [eapply (sys_prepare _ 1 (mkNode member_joined 1)); [by apply lookup_singleton_eq|exact prepared_ok]|].
  cbn [sy_nodes sy_log sy_issued app nd_applied system_at]. rewrite system_at_insert.
  eapply rtc_l; [apply (sys_commit _ prepare_entry); repeat constructor|]. cbn [sy_nodes sy_log sy_issued app].
  eapply rtc_l; [apply (sys_commit _ activate_entry); constructor|]. cbn [sy_nodes sy_log sy_issued app].
  apply rtc_once, (system_apply prepared.2 member_ready 1 _ _ prepare_entry); [done|done|apply apply_entry_ok; evaluate].
Qed.

Definition ready_node : Node := mkNode member_ready 2.
Definition activate_applied : Applied :=
  from_ok (applied_nothing empty_engine reply_default) (apply_request member_ready (log_at 3) activate_request).

Lemma activate_requested : apply_request member_ready (log_at 3) activate_request = Ok activate_applied.
Proof. ok_result. Qed.

Lemma activation_never_outruns_readers_witness :
  fp_active_writer (format_policy (mb_domain member_ready)) = 4 ∧
  is_ok (activated_manifest (mb_manifest member_ready) (ap_format_applied activate_applied)) = true ∧
  sm_reader_floor (mb_manifest member_ready) = NEXT_FORMAT.
Proof.
  split; [evaluate|].
  destruct (activation_never_outruns_readers _ 1 ready_node (log_at 3) activate_request activate_applied system_ready)
    as [Hall Hself].
  - apply (lookup_singleton_eq (1 : Z) ready_node).
  - by_decision.
  - exact activate_requested.
  - evaluate.
  - split; [apply Hself; by_decision|].
    apply (Hall ltac:(by_decision) 1 ready_node); [by_decision|]. apply (lookup_singleton_eq (1 : Z) ready_node).
Defined.

Lemma member_ready_wf : member_wf member_ready.
Proof. exact (nw_member _ _ _ (sw_nodes _ (system_reachable_wf _ system_ready) 1 ready_node (lookup_singleton_eq (1 : Z) ready_node))). Qed.

Lemma member_stays_consistent_witness :
  sm_writer_format (mb_manifest member_upgraded) = 5 ∧ validate_persisted_state (mb_domain member_upgraded) = Ok tt.
Proof.
  split; [evaluate|].
  apply (member_stays_consistent member_ready activate_entry (apply_entry member_ready activate_entry).1 member_upgraded).
  - exact member_ready_wf.
  - exact Logic.I.
  - apply apply_entry_ok. evaluate.
Defined.

Definition new_format_request : RaftRequest := mkRaftRequest (rq_command activate_request) 5.
Definition refused_request : Applied :=
  from_ok (applied_nothing empty_engine reply_default) (apply_request member_ready (log_at 3) new_format_request).

Lemma other_formats_write_nothing_witness :
  ap_domain refused_request = mb_domain member_ready ∧ is_Some (rp_error (ap_reply refused_request)).
Proof.
  destruct (other_formats_write_nothing member_ready (log_at 3) new_format_request refused_request) as (He & Hd & _).
  - exact member_ready_wf.
  - ok_result.
  - by_decision.
  - exact (conj Hd He).
Defined.

Definition ready_roster : Roster := mb_membership member_ready.
Lemma accepted_proofs_cover_roster_witness :
  rdr_member_id <$> [prepared.1] ≡ₚ [1] ∧ validate_roster ready_roster [prepared.1] 5 sample_cluster = Ok tt.
Proof.
  assert (validate_roster ready_roster [prepared.1] 5 sample_cluster = Ok tt) as Hv by evaluate.
  split; [|exact Hv]. exact (proj1 (accepted_proofs_cover_roster _ _ _ _ Hv ltac:(by_decision))).
Defined.

Definition ready_domain : State := mb_domain member_ready.
Definition activation : FormatReceipt * FormatPolicy * list (string * FormatReceipt) :=
  from_ok (mkFormatReceipt "" "" "" (CommandId.from_bytes "") "" (log_at 0) 0 false "", format_policy_default, [])
    (format_apply (format_policy ready_domain) (format_receipts ready_domain) (rq_command activate_request)
       ready_roster (log_at 3) "alice" sample_cluster).

Lemma activation_needs_every_member_witness :
  fp_active_writer activation.1.2 = 5 ∧
  ∃ proof, proof ∈ snd <$> fp_prepared (format_policy ready_domain) ∧ rdr_member_id proof = 1.
Proof.
  split; [evaluate|].
  destruct (activation_needs_every_member (format_policy ready_domain) (format_receipts ready_domain)
    (rq_command activate_request) ready_roster (log_at 3) "alice" sample_cluster activation.1.1 activation.1.2 activation.2)
    as [Heq|(_ & _ & _ & _ & _ & Hall)].
  - unfold activation. rewrite <-!surjective_pairing. ok_result.
  - by_decision.
  - exfalso. revert Heq. by_decision.
  - destruct (Hall 1) as (p & Hp & Hid & _); [by_decision|]. exists p. exact (conj Hp Hid).
Defined.

(** ** Publication entries *)
Definition bad_start : PublicationOperation := PublicationOperation_Start "missing" None "first" (VInt 7).
Definition bad_entry : Applied :=
  from_ok (applied_nothing with_order reply_default)
    (apply_publication_entry with_order (publication "go" bad_start 1000) (sample_key "go") bad_start).

Lemma bad_applied :
  apply_publication_entry with_order (publication "go" bad_start 1000) (sample_key "go") bad_start = Ok bad_entry.
Proof. ok_result. Qed.

(** The rejected start, and the applied one that is submitted again. *)
Definition retried_entry : Applied :=
  from_ok (applied_nothing order_start.2 reply_default)
    (apply_publication_entry order_start.2 (publication "go" start_order 9000) (sample_key "go") start_order).
Lemma retried_applied :
  apply_publication_entry order_start.2 (publication "go" start_order 9000) (sample_key "go") start_order = Ok retried_entry.
Proof. ok_result. Qed.

Lemma publication_entry_is_all_or_nothing_witness :
  (is_Some (rp_error (ap_reply bad_entry)) ∧ ap_events bad_entry = [] ∧ ap_affected bad_entry = []) ∧
  rp_command_result (ap_reply retried_entry) = Some order_start.1 ∧ ap_domain retried_entry = order_start.2.
Proof.
  split.
  - pose proof (publication_entry_is_all_or_nothing with_order (publication "go" bad_start 1000) (sample_key "go") bad_start
      bad_entry bad_applied) as Hall.
    assert (bt_get (storage_key (sample_key "go")) (command_results with_order) = None) as Hnew by evaluate.
    rewrite Hnew in Hall. unfold submitted in Hall. destruct (rp_error (ap_reply bad_entry)) eqn:He.
    + destruct Hall as (Hevs & Haff & _). split; [eauto|]. exact (conj Hevs Haff).
    + exfalso. revert He. by vm_compute.
  - split; [evaluate|].
    pose proof (publication_entry_is_all_or_nothing order_start.2 (publication "go" start_order 9000) (sample_key "go")
      start_order retried_entry retried_applied) as Hall.
    assert (bt_get (storage_key (sample_key "go")) (command_results order_start.2) = Some order_start.1) as Hold by evaluate.
    rewrite Hold in Hall. exact (proj1 Hall).
Defined.

(** ** The check of a store: a published run is claimed and reported *)
Definition order_commit (s : State) (n : string) (body : CommandBody) (time : Z) : list DomainEvent * State :=
  from_ok ([], s) (commit s n body time).
Definition order_registered : State :=
  (order_commit order_start.2 "register" (Cmd_RegisterSession worker_a ["*"] 4) 1000).2.
Definition order_claimed : State := (order_commit order_registered "claim" (Cmd_Claim worker_a 4) 2000).2.
Definition order_activation : ActivationId.t :=
  match filter (λ kv, bool_decide (is_Some (as_claim kv.2)) = true) (map_to_list (activations order_claimed)) with
  | (id, _) :: _ => id
  | [] => ActivationId.from_bytes ""
  end.
Definition order_paid : State :=
  (order_commit order_claimed "paid" (Cmd_ReportAssigned order_run order_activation (VInt 8) worker_a 1 1) 3000).2.

Lemma commit_reachable s n body time :
  reachable s → bool_decide (sequences_in_range s) = true → is_ok (commit s n body time) = true →
  reachable (order_commit s n body time).2.
Proof.
  intros Hs Hr%bool_decide_eq_true Hok. eapply (reachable_commit s (sample_command n body time) None); [done|done|].
  unfold order_commit. etrans; [apply (from_ok_eq ([], s)); exact Hok|]. f_equal. apply surjective_pairing.
Qed.

Lemma order_paid_reachable : reachable order_paid.
Proof.
  do 3 (apply commit_reachable; [|evaluate|evaluate]). apply order_start_reachable.
Qed.

Lemma order_paid_admitted_once : admitted_once order_paid.
Proof.
  assert (map_Forall (λ _ evs, (admissions evs ≤ 1)%nat) (history order_paid)) as Hall by by_decision.
  intros run evs He. exact (Hall run evs He).
Qed.

Lemma reached_store_validates_witness :
  results_claimed order_paid ∧ size (history order_paid) = 1%nat ∧
  existsb (λ e, bool_decide (is_Some (leaf_result e))) (default [] (history order_paid !! order_run)) = true.
Proof.
  split; [|split; evaluate].
  apply (reached_store_validates order_paid order_paid_reachable order_paid_admitted_once). evaluate.
Defined.
