(* ===== verification/Findings.v ===== *)
(** * Behaviours of the code that differ from what it means to do

    Each lemma runs the model of the code on a small workflow and shows the
    behaviour; the comment says what is expected. *)
From stdpp Require Import base option gmap strings list fin_maps.
From Stdlib Require Import ZArith Ascii Lia.
From S2P Require Import Prelude Value Ids Policy Catalog Ir Analysis Domain Eval Evolve History Steps Saga Signals Claims Progress Command Publication Schedule Replica Reopen Clock Builder BuilderFacts Sample NodeWitness.

Definition is_loop_body (e : DomainEvent) : option Z :=
  match e with ScopeOpened _ _ _ (ScopeRole_LoopBody _ index) _ => Some index | _ => None end.
Definition opened_node (e : DomainEvent) : option string :=
  match e with ActivationOpened _ _ _ node => Some node | _ => None end.
Definition failure_code (e : DomainEvent) : option string :=
  match e with RunFailed _ error => Some (fe_code error) | _ => None end.

Definition progress_of (s : State) (run : RunId.t) (time : Z) : Outcome (list DomainEvent * State) :=
  commit s "step" (Cmd_Progress run) time.
Definition progress_events (s : State) (run : RunId.t) (time : Z) : list DomainEvent :=
  fst (from_ok ([], s) (progress_of s run time)).

(** ** Signals *)
Definition waiter_region : Region :=
  mkRegion [PathSeg_Root] SchemaRef_Integer SchemaRef_Integer "ship"
    [("done", Node_Complete (Binding_From Reference_WorkflowInput None));
     ("ship", Node_WaitSignal "go" (Binding_Literal (VString "k")) None ConsumeFrom_Buffered "done" None)].
Definition waiter : Definition_ := sample_definition "waiter" waiter_region.
Definition waiter_a : State := after empty_engine "a" (Cmd_Start run_a waiter (VInt 1) sample_catalog) 1000.
Definition waiter_ab : State := after waiter_a "b" (Cmd_Start run_b waiter (VInt 2) sample_catalog) 1000.
Definition buffered_a : State :=
  after waiter_ab "signal" (Cmd_Signal run_a event_a "go" "k" (VInt 9)) 1500.
Definition delivered_to (run : RunId.t) (e : DomainEvent) : bool :=
  match e with WaitSatisfied r _ _ _ => bool_decide (r = run) | _ => false end.

(** The address of an event is its run, signal and key. [reserved_or_eligible]
    does not compare the run: the event sent to [run_a] satisfies the wait of
    [run_b], and since consumption does look at the run, the event stays in the
    inbox unconsumed. *)
Lemma event_crosses_runs :
  existsb (delivered_to run_b) (progress_events buffered_a run_b 2000) = true ∧
  (ie_run <$> inbox buffered_a) = [Some run_a] ∧
  (ie_consumed <$> inbox (after buffered_a "step" (Cmd_Progress run_b) 2000)) = [false].
Proof. by vm_compute. Qed.

(** Two events for one pending wait are both reserved for it; the first is
    consumed, and the second keeps the reservation of a wait that is closed, so
    that no later wait is offered it. *)
Definition reserved_twice : State :=
  after signalled "again" (Cmd_Signal run_a event_b "go" "k" (VInt 10)) 3550.
Lemma second_reservation_is_stuck :
  let s := after reserved_twice "finish" (Cmd_Progress run_a) 3600 in
  (ie_consumed <$> inbox s) = [true; false] ∧
  Forall (λ e, bool_decide (is_Some (ie_reserved_wait e)) = true) (inbox s) ∧
  (wt_pending <$> (map_to_list (waits s)).*2) = [false].
Proof. by vm_compute; repeat constructor. Qed.

(** ** Control nodes *)
Definition always : Condition := Condition_Eq (Binding_Literal (VInt 1)) (Binding_Literal (VInt 1)).
Definition loop_body : Region := child_region_of (Binding_From Reference_LoopState None).
Definition while_run (limit : Z) : State :=
  control_run (Node_While (Binding_Literal (VInt 0)) SchemaRef_Integer always limit loop_body "done") (VInt 0).

(** A loop counts every iteration twice, once when the body's scope completes and
    once when the loop node looks at it: with a limit of six iterations the bodies
    have indices 0, 2 and 4, and the loop fails after the third. *)
Lemma loop_counts_twice :
  omap is_loop_body (progress_events (while_run 6) run_b 2000) = [0; 2; 4] ∧
  omap failure_code (progress_events (while_run 6) run_b 2000) = ["LoopLimitExceeded"].
Proof. by vm_compute. Qed.

(** The count of a repeat is compared with the limit after a cast to 32 bits: a
    count of [2 ^ 32] passes a limit of one and starts the loop. *)
Definition repeat_run : State :=
  control_run (Node_Repeat (Binding_Literal (VInt (2 ^ 32))) (Binding_Literal (VInt 0)) SchemaRef_Integer 1
    loop_body "done") (VInt 0).
Lemma repeat_limit_is_truncated :
  take 1 (omap is_loop_body (progress_events repeat_run run_b 2000)) = [0] ∧
  omap failure_code (progress_events repeat_run run_b 2000) = [].
Proof. by vm_compute. Qed.

(** A [wait_until] whose time has passed opens its successor but stays open, so
    every further step opens the successor again: one batch starts the payment
    thirty-two times. *)
Definition past_wait : Region :=
  mkRegion [PathSeg_Root] SchemaRef_Integer SchemaRef_Integer "at"
    [("at", Node_WaitUntil (Binding_Literal (VInt 5)) "pay");
     ("done", Node_Complete (Binding_From Reference_WorkflowInput None));
     ("pay", pay_node "done")].
Definition past_run : State :=
  after empty_engine "past" (Cmd_Start run_b (sample_definition "past" past_wait) (VInt 1) sample_catalog) 1000.
Lemma past_wait_opens_repeatedly :
  omap opened_node (progress_events past_run run_b 2000) = replicate 32 "pay".
Proof. by vm_compute. Qed.

(** ** Time limits *)

(** An event accepted exactly at a wait's deadline still satisfies the wait. *)
Lemma deadline_is_inclusive wait e deadline now :
  wt_deadline_ms wait = Some deadline → ie_accepted_ms e = deadline → ie_consumed e = false →
  ie_reserved_wait e = None → ie_signal e = wt_signal wait → ie_key e = wt_key wait →
  wt_consume_from wait = ConsumeFrom_Buffered → ie_expires_ms e = 0 → eligible wait now e = true.
Proof.
  intros Hd Ha Hc Hr Hs Hk Hf He. unfold eligible. rewrite Hd, Ha, Hc, Hr, Hs, Hk, Hf, He.
  rewrite !bool_decide_eq_true_2 by done. simpl. by rewrite Z.leb_refl, orb_true_r.
Qed.

(** ** The check of definitions

    [analyze_region] looks at a node once, when it is first popped, and joins the
    references of the paths found up to then. Here [done] is reached over the
    timeout edge first: its reference to the output of [escalate] is accepted
    although the path over [approve] does not provide it, and a run that takes
    that path is stuck with every further step failing. The message of the check
    promises availability on every incoming path. *)
Definition pay_then (next : string) : Node :=
  Node_Activity pay_key (Binding_Literal (VInt 1)) None retry_forward_default None next.
Definition join_region : Region :=
  mkRegion [PathSeg_Root] SchemaRef_Integer SchemaRef_Integer "ask"
    [("approve", pay_then "done");
     ("ask", Node_WaitSignal "go" (Binding_Literal (VString "k")) (Some 1000) ConsumeFrom_Buffered
        "approve" (Some "escalate"));
     ("done", Node_Complete (Binding_From (Reference_NodeOutput "escalate") None));
     ("escalate", pay_then "done")].
Definition join : Definition_ := sample_definition "join" join_region.

Definition join_started : State := after empty_engine "start" (Cmd_Start run_a join (VInt 7) sample_catalog) 1000.
Definition join_asked : State := after join_started "ask" (Cmd_Progress run_a) 1000.
Definition join_signalled : State := after join_asked "signal" (Cmd_Signal run_a event_a "go" "k" (VInt 9)) 1100.
Definition join_approving : State := after join_signalled "approve" (Cmd_Progress run_a) 1200.
Definition join_worker : State := after join_approving "register" (Cmd_RegisterSession worker_a ["*"] 4) 1200.
Definition join_claimed : State := after join_worker "claim" (Cmd_Claim worker_a 4) 1200.
Definition approve_activation : ActivationId.t :=
  match filter (λ kv, as_node kv.2 = "approve") (map_to_list (activations join_claimed)) with
  | (id, _) :: _ => id
  | [] => ActivationId.from_bytes ""
  end.
Definition join_approved : State :=
  after join_claimed "approved" (Cmd_ReportAssigned run_a approve_activation (VInt 8) worker_a 1 1) 1300.

Definition error_message {A} (m : Outcome A) : string :=
  match m with Err e => err_message e | Panic why => why | Ok _ => "" end.

Lemma join_reference_is_accepted :
  validate_definition join sample_catalog = Ok tt ∧
  error_message (progress_of join_approved run_a 1400) = "missing output escalate".
Proof. by vm_compute. Qed.

(** A definition without its start node makes the check, and with it the
    replicated publication, panic instead of failing. *)
Lemma missing_start_panics :
  is_panic (validate_definition (sample_definition "order"
    (mkRegion [PathSeg_Root] SchemaRef_Integer SchemaRef_Integer "gone" (region_nodes done_region))) sample_catalog) = true.
Proof. by vm_compute. Qed.

(** The check never looks at the catalog: a definition that uses an activity and
    schemas the catalog does not have is accepted. *)
Lemma unknown_activity_is_accepted : validate_definition order catalog_default = Ok tt.
Proof. by vm_compute. Qed.

(** ** Sagas

    The progress of a saga waits for a compensation that is in flight; a Cancel does
    not look at it. The first one starts a second compensation next to the one in
    flight, and the next one, when every obligation is in flight, fails the run
    although neither has been settled. The specification asks for serial
    compensation, and to persist each completion before the next is selected. *)
Definition saga_body : Region :=
  mkRegion [PathSeg_Root; PathSeg_Body] SchemaRef_Integer SchemaRef_Integer "first"
    [("fail", Node_Fail sample_error); ("first", pay_node "second"); ("second", pay_node "fail")].
Definition saga_registered : State :=
  after (control_run (Node_Saga input_items saga_body "done") (VInt 7)) "register"
    (Cmd_RegisterSession worker_a ["*"] 4) 1000.

(** The activation a worker is working on, and what it does with it. *)
Definition claimed_activation (s : State) : ActivationState :=
  default no_activation (snd <$> head (filter (λ kv,
    bool_decide (is_Some (as_claim kv.2)) && bool_decide (as_status kv.2 = ActivationStatus_Ready))
      (map_to_list (activations s)))).
Definition worked (s : State) (n : string) (generation time : Z) : State :=
  let s := after s (n +:+ "-progress") (Cmd_Progress run_b) time in
  let s := after s (n +:+ "-claim") (Cmd_Claim worker_a 1) time in
  after s (n +:+ "-report")
    (Cmd_ReportAssigned run_b (as_id (claimed_activation s)) (VInt 8) worker_a generation 1) time.

Definition both_paid : State := worked (worked saga_registered "first" 1 2000) "second" 2 3000.
Definition undoing : State := after both_paid "fail" (Cmd_Progress run_b) 4000.
Definition undoing_twice : State := after undoing "cancel" (Cmd_Cancel run_b "stop") 4500.
Definition given_up : State := after undoing_twice "again" (Cmd_Cancel run_b "stop") 5000.

Lemma cancel_compensates_in_parallel :
  (is_open_obligation <$> obligations both_paid) = [true; true] ∧
  (is_compensating <$> obligations undoing) = [false; true] ∧
  progress_events undoing run_b 4500 = [] ∧
  (is_compensating <$> obligations undoing_twice) = [true; true] ∧
  (rs_status <$> runs given_up !! run_b) = Some (RunStatus_Failed (mkFailError "run.cancelled" "stop")) ∧
  (is_compensating <$> obligations given_up) = [true; true].
Proof. by vm_compute. Qed.

(** ** Reopening a store

    A [ReportLeaf] does not ask for a claim. The result it records for an activation
    that nobody claimed is committed like any other, but from then on the check a
    store must pass before it is opened, exported or installed refuses the store. *)
Definition unclaimed_report : State := after started "report" (Cmd_ReportLeaf run_a pay_activation (VInt 8)) 2000.
Lemma unclaimed_report_cannot_reopen :
  is_ok (commit started "report" (Cmd_ReportLeaf run_a pay_activation (VInt 8)) 2000) = true ∧
  validate_history_store started = Ok tt ∧ validate_history_store finished = Ok tt ∧
  validate_history_store unclaimed_report =
    Err (failed_precondition "accepted activity result has no retained claim schema").
Proof. by vm_compute. Qed.

(** ** The clock of a member

    An acknowledgement whose reply is lost - the call is cancelled after the storage
    thread got the request - clears the stored fault while the monitor keeps the
    fault and believes it stored. The clock then fails again: the member refuses its
    samples, but the fault is not stored, and after a restart the member answers with
    the time without any acknowledgement. *)
Definition interrupted_member : ClockMember :=
  (acknowledge recovering_member "clock replaced" (Ok 111000) (Ok 21000) (Ok 99500) (PersistedUnreported storage_lost)).2.
Definition failing_reading : ClockReading := reading 300000 21500 99500.
Definition failing_member : ClockMember := (sample interrupted_member failing_reading Persisted).2.

Lemma lost_acknowledgement_unlatches :
  cm_stored recovering_member = true ∧ mo_faulted (monitor interrupted_member) = true ∧
  is_err (sample interrupted_member failing_reading Persisted).1 = true ∧ cm_stored failing_member = false ∧
  (sample (member_started (cm_stored failing_member)) (reading 302000 23500 99500) Persisted).1 = Ok (302000, 23500).
Proof. by vm_compute. Qed.

(** ** The builders

    [Workflow::timed_wait] begins a new graph: the steps the workflow already has are
    dropped without a word. *)
Lemma timed_wait_drops_steps {I T} (w w' : Workflow I I) key (signal : SignalRef T) correlation timeout next :
  wf_name w = wf_name w' → timed_wait w key signal correlation timeout next = timed_wait w' key signal correlation timeout next.
Proof. intros Hname. unfold timed_wait. by rewrite Hname. Qed.

(** A value of another region is refused by [complete] and accepted by [activity],
    which then reads the node of its own region that has the same key. *)
Definition paying : ActivityRef SchemaRef_Integer SchemaRef_Integer := mkActivityRef pay_key ["busy"].
Definition scope_7 : RegionBuilder SchemaRef_Integer :=
  (region_activity "pay" paying (graph_input (graph_builder_new SchemaRef_Integer 7).1) (graph_builder_new SchemaRef_Integer 7).1).1.
Definition foreign : ValueRef SchemaRef_Integer := node_output (mkNodeRef "pay" 8).
Lemma foreign_handle_is_accepted :
  is_err (region_complete scope_7 "done" foreign) = true ∧ is_ok (region_activity "again" paying foreign scope_7).2 = true ∧
  bt_get "again" (dr_nodes (region_activity "again" paying foreign scope_7).1) =
    Some (Node_Activity pay_key (Binding_From (Reference_NodeOutput "pay") None) (Some 300000) retry_forward_default None "again").
Proof. by vm_compute. Qed.

(** An exit can be connected twice; the second connection replaces the first. *)
Lemma reconnecting_replaces d exit entry1 entry2 d1 d2 :
  ex_timeout exit = false → connect exit entry1 d = (d1, Ok tt) → connect exit entry2 d1 = (d2, Ok tt) →
  ∃ n, bt_get (ex_node exit) (dr_nodes d2) = Some n ∧ head (node_successors n) = Some ("next", en_node entry2).
Proof.
  intros Htimeout _ H2. unfold connect in H2. build_inv. rewrite Htimeout in *.
  eexists. simpl. rewrite bt_get_insert, decide_True by done. split; [done|].
  match goal with H : connect_node ?n false _ = Ok _ |- _ => destruct n; simpl in H; simplify_eq; done end.
Qed.

(** A signal that is used twice has the schema of its last use, whatever the type of
    the handle the first wait returned. *)
Definition twice_waited : Draft :=
  let correlation := mkValueRef (T := SchemaRef_String) (Binding_Literal (VString "k")) 7 in
  let '(d, _) := region_wait_signal "first" (mkSignalRef (T := SchemaRef_Integer) "go" SchemaRef_Integer) correlation
    (graph_builder_new SchemaRef_Integer 7).1 in
  (region_wait_signal "second" (mkSignalRef (T := SchemaRef_String) "go" SchemaRef_String) correlation d).1.
Lemma signal_schema_is_replaced :
  dr_signals twice_waited = [("go", SchemaRef_String)] ∧ (dr_nodes twice_waited).*1 = ["first"; "second"].
Proof. by vm_compute. Qed.
